(* ===== verification/_CoqProject ===== *)
-Q . S2P
Prelude.v
Text.v
Channel.v
GitPerms.v
Nostr.v
Subscriptions.v
EventQueue.v
EventQueueInv.v
EventQueueFlush.v
EventQueueRetry.v
Pairing.v
PairingProps.v
PairingFlow.v
AudioRoom.v
AudioRoomProps.v
RosterSync.v
RosterSyncProps.v
Conformance.v
SessionDirectory.v
SessionDirectoryProps.v
Concurrent.v
GitManifest.v
GitStore.v
GitPublish.v
GitPush.v
GitHistory.v
GitStoreProps.v
GitPushProps.v
GitHistoryProps.v
GitReport.v
GitRuns.v
Json.v
AuditLog.v
AuditHash.v
AuditChain.v
AuditDb.v
AuditProps.v
AuditHistory.v
MeshWire.v
MeshWireProps.v
Gossip.v
MeshRegistry.v
MeshMembership.v
GossipProps.v
MeshRuntime.v
MeshWorld.v
MeshDial.v
MeshWorldProps.v
MeshCalls.v
MeshPrograms.v
MeshProps.v
MeshRuns.v
ReliableStream.v
ReliableStreamProps.v
HuddleJoin.v
HuddleJoinProps.v
AuditRuns.v
Tenant.v
HttpAuth.v
RelayMembers.v
InviteToken.v
InviteApi.v
MembershipWorld.v
HttpAuthProps.v
MembershipProps.v
InviteTokenProps.v
MembershipRuns.v
Operator.v
OwnershipWorld.v
OwnershipProps.v
OwnershipRuns.v
