(* ===== verification/Prelude.v ===== *)
(** * Verification of the Buzz relay and agent harness

    Buzz is a workspace server built on Nostr: a relay ([crates/buzz-relay]) stores signed
    events of several communities and fans them out to websocket subscriptions, hosts git
    repositories and audio huddles; an agent harness ([crates/buzz-acp]) queues the events
    addressed to an agent and prompts it one channel at a time; devices are paired over the
    relay ([crates/buzz-core/src/pairing]); the desktop application
    ([desktop/src-tauri]) plays the huddle.  This library models the parts of that code
    that carry its own state and decisions, as functions on records, and proves what they
    promise.

    ** Files and the code they model

    - [Prelude]: this header; [Result] and the [?] operator, vectors, stable sorting, hash
      map iteration, index buckets and byte strings shared by the other files.
    - [Text]: Rust's [str] operations and the sorted vectors and maps of strings.
    - [Concurrent]: code that awaits between its calls, as trees of calls ([Prog]); its
      execution in a changing world ([exec]), the pool of tasks whose calls interleave
      ([pool_step]), and the assume-guarantee rules that verify each task on its own
      ([wp], [pool_steps_ok]; [owp], [owned_steps] for tasks that own a resource such as a
      database session).
    - [Channel]: the visibility, channel-type and role enums
      ([buzz-core/src/channel.rs]); [StrEnum] is their interface.
    - [GitPerms]: ref patterns, [buzz-protect] rules and push evaluation
      ([buzz-core/src/git_perms.rs]).  It uses the role hierarchy of [Channel].
    - [Nostr]: events, filters and their matching ([buzz-core/src/event.rs],
      [filter.rs]); [NostrApi] is the interface of the third-party [nostr] crate.
    - [Subscriptions]: the subscription registry, its five indexes and the fan-out
      ([buzz-relay/src/subscription.rs]); it calls [Nostr.filters_match].
    - [EventQueue]: the per-channel queue of the harness ([buzz-acp/src/queue.rs], and the
      dispatch path of [lib.rs] when no agent is free), with its proofs in [EventQueueInv]
      (invariant), [EventQueueFlush] (flushing and conservation) and [EventQueueRetry]
      (the other operations).
    - [Pairing]: both sides of the pairing session ([buzz-core/src/pairing/session.rs],
      [crypto.rs], [types.rs], [mod.rs]); [PairingApi] is the interface of the
      cryptographic crates.  [PairingProps] has the theorems that need no law of that
      interface, [PairingFlow] the complete exchange under [PairingLaws].
    - [AudioRoom]: the rooms of a huddle and their registry
      ([buzz-relay/src/audio/room.rs]), with its proofs in [AudioRoomProps].
    - [RosterSync]: the roster snapshots and deltas of an owner, the ingress node that
      follows them ([audio/join.rs]) and the desktop client's per-index state
      ([desktop/src-tauri/src/huddle/playout.rs]), with its proofs in [RosterSyncProps].
    - [Conformance]: the trace schema and the checker that judges whether a recorded trace
      stays within one tenant ([buzz-conformance]).
    - [SessionDirectory]: the fenced lease per tunnel session kept in Redis, its Lua scripts
      included ([buzz-relay/src/tunnel/directory.rs]), with its proofs in
      [SessionDirectoryProps].  [Redis], [Hex] and the printing of identifiers are
      interfaces; [RedisLaws], [HexLaws] and [UuidLaws] are what the code relies on.
    - [GitManifest], [GitStore], [GitPublish], [GitPush]: repositories on an object store
      ([buzz-relay/src/api/git/manifest.rs], [store.rs], [hydrate.rs], [cas_publish.rs],
      [transport.rs], and the announcements of [handlers/side_effects.rs]).  [GitHistory]
      has the model of the store ([S3], [S3Laws]) and the invariant; [GitStoreProps] and
      [GitPushProps] verify each operation and program under it; [GitHistoryProps] has the
      theorems about any pool of pushes, announcements and reads, [GitReport] the scan of
      git's report, [GitRuns] a concrete run.
    - [Json]: JSON values and the interface of [serde_json]; [AuditLog]: the audit log
      ([buzz-audit]), every SQL statement a call.  [AuditHash] has what a hash covers,
      [AuditChain] the verification of rows, [AuditDb] the model of PostgreSQL ([Postgres]:
      sessions, advisory locks, transactions, constraints), [AuditProps] the verification of
      an append under it, [AuditHistory] the theorems about any pool of appends,
      verifications and reads and about tampering, [AuditRuns] a concrete run.
    - [MeshWire]: the frames of the relay mesh, their versioned encoding and the framing of
      a stream ([buzz-relay-mesh/src/wire.rs], [peer.rs], [lib.rs]), with its proofs in
      [MeshWireProps].  [Postcard] and [Quic] are interfaces.
    - [Gossip], [MeshRegistry], [MeshMembership], [MeshRuntime]: who is in the mesh
      ([buzz-relay-mesh/src/gossip.rs], [registry.rs], [membership.rs], [status.rs],
      [runtime.rs], [endpoint.rs], and its boot in [buzz-relay/src/mesh_boot.rs]): gossip
      records and suspicion, the attested ready registry in Redis, the membership table, and
      the loops of a runtime as programs.  [GossipProps] compares the table with the
      scuttlebutt state, [MeshDial] has the tie-break of simultaneous dials.  [MeshWorld] is
      the world of a whole deployment, with outsiders; [MeshWorldProps], [MeshCalls] and
      [MeshPrograms] verify every call and program under its invariant, [MeshProps] has the
      theorems, [MeshRuns] a concrete deployment.
    - [ReliableStream]: the reliable tunnel over such a stream, its codec, validated
      receiving, joining and the renewal of its lease
      ([buzz-relay/src/tunnel/reliable.rs]), with its proofs in [ReliableStreamProps]; it
      reads and sends through [FramedStream], which [MeshWire] implements, and validates
      against [SessionDirectory].
    - [HuddleJoin]: how a pod finds the owner of a huddle ([audio/join.rs],
      [resolve_join]) over that directory, and the generation floor that fences media
      datagrams ([audio/mesh.rs]), with its proofs in [HuddleJoinProps].  It delivers into
      the rooms of [AudioRoom].
    - [Tenant]: the normalisation of hosts and the binding of a request to a community
      ([buzz-core/src/tenant.rs], [buzz-relay/src/tenant.rs]).
    - [HttpAuth]: NIP-98 and NIP-42 events, the seen-set in Redis and the authentication of
      an HTTP request ([buzz-auth/src/nip98.rs], [nip98_replay.rs], [nip42.rs],
      [buzz-pubsub/src/nip98_replay.rs], [buzz-relay/src/api/bridge.rs]).
    - [RelayMembers], [InviteToken], [InviteApi]: the members of a community
      ([buzz-db/src/relay_members.rs]), the commands that change them
      ([handlers/relay_admin.rs], the leave requests of [ingest.rs]), invite codes and
      policy receipts ([invite_token.rs]) and the invite interface ([api/invites.rs]), every
      SQL statement, Redis command and signature a call.  [MembershipWorld] is the world of
      a deployment with any number of pods; [HttpAuthProps], [MembershipProps] and
      [InviteTokenProps] have the theorems, [MembershipRuns] concrete runs.
    - [Operator]: the interface of the operators of a deployment: creating, archiving and
      transferring communities ([api/operator.rs], [handlers/community_provisioning.rs], the
      ownership functions of [buzz-db/src/relay_members.rs] and [lib.rs]).  [OwnershipWorld]
      models PostgreSQL at READ COMMITTED: snapshots per statement, row locks with
      re-reading, advisory locks, transactions lost at any time.  [OwnershipProps] has the
      invariant of ownership, [OwnershipRuns] concrete runs.

    A definition has the name of the Rust item it translates; a method of a type is a
    function whose last argument is usually the receiver, and which returns the new
    receiver and the result.

    ** What the theorems show

    - Git policy: parsed rules never reach the matcher's [unreachable!()]; a ref update is
      allowed exactly when the default role and every covering rule allow it; rules only
      restrict; a push is atomic; the pattern grammar and the tag parser are characterised.
    - Relay: the registry's indexes agree with its map in every reachable state, which
      refines a plain map of subscriptions; a fan-out reaches exactly the subscriptions in
      scope whose filters accept the event, once each; filter matching is NIP-01 with the
      channel fallback; the lock order of a fan-out and a close can deadlock.
    - Event queue: well-formedness over any run; a flush never prompts a channel twice, respects
      the throttle, is fair, happens exactly when there is work, and loses no event; retries
      have a budget that no operation but a success, a removal or an idle compaction renews,
      and a backoff within a fifth of its nominal value; steering, requeueing and compaction keep the events.  A
      batch put back because no agent is free loses the cancelled events merged into it.
    - Pairing: a session follows its script, accepts only authentic, fresh events of its
      one peer, fails without effect, expires; two honest sides complete.
    - Huddles: peer indices are unique and never reused while held; admission
      errors come in their documented order where a room assigns its own indices; automatic
      end and fan-out; communities never mix; a client's roster is always the owner's
      roster of the revision it stands at, and audio state never passes to another peer.
    - Ownership across relays: under the fence exactly the owner and generation of the live
      lease are accepted, a generation has one owner and a superseded one stays fenced; a
      successful join names a lease that was live while it ran, validated if it is another
      relay's, whatever other relays did between its calls; accepted media never goes back a
      generation and reaches every peer of its room.
    - Mesh membership: whatever Redis and outsiders send, tables and connections name
      runtimes of the deployment only; a record held of a peer is one it published and never
      ahead of it, and draining is never unlearned; an exchange brings a runtime up to what
      the other knew; both ends of simultaneous dials keep the same connection; the table
      tells and answers what the scuttlebutt state does that is not fed its own record.
    - Git publication: whatever interleaves and whatever requests fail, the pointer
      of a repository goes through one chain of valid, complete manifests, each
      naming the one before it; a push is acknowledged only after its manifest is
      installed, with exactly the refs git listed; readers never meet a dangling pointer; the
      scan of git's report is exact on the streams whose side-band packets carry whole
      lines.
    - Tunnels: frames on a mesh stream arrive as sent, in order and once, up to a failure;
      a session's bytes arrive whole while its lease lives, and nothing is delivered under
      another fence or community; the renewal task signals every loss.
    - Audit: whatever interleaves, fails or dies, every community has one chain that only
      grows and always verifies, an acknowledged append is in it, and none loses a race for
      its number; a tampered table that still verifies up to a known hash differs from the
      chain by missing oldest rows only; the canonical JSON text is exact.
    - Members: a signed HTTP event admits one request of the invite API, until sixty seconds
      after its time;
      the initial owners stay, every other member was let in by an invite of an owner or
      admin in force or by a command of one, and every higher role is an owner's grant; the
      acceptance of the join policy is recorded with the membership; an invite code is read
      back by its community until it expires; the spellings of a host are told apart exactly.
    - Ownership of communities: however operators' requests interleave, wait and fail, every
      committed state has one owner per community at most and no key above the limit, and
      ownership passes only by a signed transfer that names both owners, or begins with a
      signed creation; an answer that tells of a transfer, a creation, a conflict or a limit is
      backed by a committed state.  Legacy requests to set an owner are excluded: a run shows
      that one can leave two owners, and another that a transfer that meets a faster one is
      told there is no owner.
    - Conformance: the checker accepts exactly the traces confined to the tenant of their
      first step that show every required action.

    ** Conventions and bounds

    Fallible code is a [Result] or an [option]; panics ([unreachable!()]) are [None].
    Machine integers are [nat], [N] or [Z]; wrap-around, saturation and the widths are
    written out where the code depends on them ([u64_wrapping_add], [u8_saturating_add],
    [Pairing.be_u32], the [f64] rounding of [EventQueue.F64]).  Lists of steps
    ([run_ops], [run_pairing], [room_step]) are arbitrary, so the invariants hold for any
    run.  The loops are structural recursions, but for a few on a measure: [trim_back]
    runs on the length of its queue, because each turn removes an element
    ([trim_back_take]); [trim_start], [ReliableStream.chunks] and [GitPush.pkt_lines] run on
    the length of their input, each turn of which consumes some of it
    ([GitReport.pkt_lines_stream] for the last).  A join polls at most
    [HuddleJoin.OWNER_READY_MAX_ATTEMPTS] times, the code's own bound.  Code that awaits
    between its calls is a tree of calls ([Concurrent.Prog]) run against a world that other
    processes change.  An object store may run a write and lose its answer, or retry it; two
    contents that meet at one key never share a SHA-256.  A scan of Redis that needs more than
    its fuel of rounds is one that does not return ([MeshRegistry.Hang]); the theorems hold for
    any fuel.  Suspicion is computed in binary64 ([SpecFloat]).  A database session may die before any
    statement; a table has less than 2^62 rows.  Generations are unbounded, except
    that the fence theorems take them below 10^14, above which a Lua number prints with an
    exponent.  The order of a hash map's iteration is the parameter [HashMapIter]; no
    theorem depends on it but those that name it.

    Third-party code is a class of operations with, where a theorem needs them, a class of
    laws ([NostrApi] and [NostrLaws], [PairingApi] and [PairingLaws], [Mpsc] and [MpscLaws],
    [F64] and [F64Laws], [Redis] and [RedisLaws], [Hex] and [HexLaws], [Quic] and
    [QuicLaws], [Postcard] and [PostcardLaws], [S3] and [S3Laws], [GitCrypto] and
    [GitCryptoLaws], [ManifestSerde] and [ManifestSerdeLaws], [SerdeJson] and
    [SerdeJsonLaws], [AuditApi] and [AuditLaws], [UuidBytes] and [UuidBytesLaws], [Postgres]
    and [PostgresLaws], [RelayKeys], [ReadySerde], [MeshNet], [UrlApi], [AuthApi] with
    [AuthLaws] and [MemberLaws], [TokenApi] and [TokenLaws], [InviteBodies],
    [OperatorBodies], [OperatorApi], [SqlText]), each with a concrete instance used by the
    witnesses. That a relay key attests no runtime but those booted with it is the
    hypothesis [unforgeable] of the mesh theorems; that nobody else makes an HMAC of the
    relay's key restricts what may arrive in [MembershipWorld].

    ** What is not modelled

    Operations on a [DashMap] or under a [Mutex] are atomic steps; only the two locks a
    fan-out and a close hold together are interleaved. Weak memory, task scheduling,
    logging, metrics and the zeroization of secrets are left out, as are [Duration] overflow
    and allocation failure. Of the git code, subprocesses, files and the pack cache are
    calls with any answer, and the [info/refs] fast path, the streaming of reads and the
    startup probe of the store are left out, as is a panic during an append to the audit
    log. An aborted loop of the mesh may run on or stop; the dispatch of inbound sessions to
    their handlers and the choice of advertised addresses are left out. Of the members, the
    content of the announcements, the checks of an event before its handler other than its
    signature, the owner set at start-up and the gate that asks for membership are left out;
    the theorem of the members takes their owners as fixed, the one of ownership takes what
    others do to the table as changes of rows that are no owners'. Also left out are scopes,
    channel access and rate limits. The SQL of the other tables, Redis, HTTP, websocket and
    QUIC plumbing, processes and user interfaces are outside the library. *)

From stdpp Require Export prelude gmap strings list sorting fin_maps.
From Stdlib Require Export Ascii ZArith Lia.

Declare Scope buzz_scope.
Delimit Scope buzz_scope with buzz.
#[global] Open Scope buzz_scope.

(** ** Rust's [Result] and the [?] operator *)

Inductive Result (A E : Type) : Type :=
| Ok (a : A)
| Err (e : E).
Arguments Ok {A E} a.
Arguments Err {A E} e.

#[export] Instance Result_eq_dec {A E} `{EqDecision A, EqDecision E} :
  EqDecision (Result A E).
Proof. solve_decision. Defined.

Definition result_bind {A B E} (r : Result A E) (k : A -> Result B E) : Result B E :=
  match r with
  | Ok a => k a
  | Err e => Err e
  end.

Definition map_err {A E F} (f : E -> F) (r : Result A E) : Result A F :=
  match r with
  | Ok a => Ok a
  | Err e => Err (f e)
  end.

Definition result_err {A E} (r : Result A E) : option E :=
  match r with
  | Ok _ => None
  | Err e => Some e
  end.

Definition is_ok {A E} (r : Result A E) : bool :=
  match r with
  | Ok _ => true
  | Err _ => false
  end.

Notation "'let?' x ':=' e 'in' k" := (result_bind e (fun x => k))
  (at level 10, x pattern, e at level 200, k at level 200)
  : buzz_scope.

Lemma result_bind_ok {A B E} (r : Result A E) (k : A -> Result B E) b :
  result_bind r k = Ok b <-> exists a, r = Ok a /\ k a = Ok b.
Proof. destruct r; simpl; naive_solver. Qed.

Lemma result_bind_err {A B E} (r : Result A E) (k : A -> Result B E) e :
  result_bind r k = Err e <-> r = Err e \/ exists a, r = Ok a /\ k a = Err e.
Proof. destruct r; simpl; naive_solver. Qed.

Lemma map_err_ok {A E F} (f : E -> F) (r : Result A E) a :
  map_err f r = Ok a <-> r = Ok a.
Proof. destruct r; simpl; naive_solver. Qed.

(** Iterate a fallible body over a list, stopping at the first error
    (a [for] loop whose body uses [?] or returns early). *)
Fixpoint fold_result {A S E} (f : S -> A -> Result S E) (s : S) (l : list A) : Result S E :=
  match l with
  | [] => Ok s
  | x :: l => let? s' := f s x in fold_result f s' l
  end.

(** [iter.collect::<Result<Vec<_>, _>>()]: up to the first failure. *)
Fixpoint collect {A E} (l : list (Result A E)) : Result (list A) E :=
  match l with
  | [] => Ok []
  | r :: l => let? a := r in let? l := collect l in Ok (a :: l)
  end.

Lemma collect_ok {A E} (l : list (Result A E)) xs : collect l = Ok xs <-> l = Ok <$> xs.
Proof.
  revert xs. induction l as [|r l IH]; intros xs; simpl.
  - split; [by intros [= <-]|by destruct xs].
  - split.
    + intros (a & -> & (ys & Hys & [= <-])%result_bind_ok)%result_bind_ok.
      apply IH in Hys as ->. done.
    + destruct xs as [|a xs]; [done|]. intros [= -> Hl]. simpl. by rewrite (proj2 (IH xs) Hl).
Qed.

Lemma collected_elem {A B E} (f : A -> Result B E) (l : list A) (ts : list B) t :
  f <$> l = Ok <$> ts -> t ∈ ts -> exists a, a ∈ l /\ f a = Ok t.
Proof.
  intros Hts Ht. assert (Ok t ∈ f <$> l) as Hin by (rewrite Hts; by apply list_elem_of_fmap_2).
  apply list_elem_of_fmap in Hin as (a & Ha & Hin). eauto.
Qed.

Lemma collected_ok {A B E} (f : A -> Result B E) (l : list A) :
  (forall a, a ∈ l -> exists t, f a = Ok t) -> exists ts, f <$> l = Ok <$> ts.
Proof.
  induction l as [|a l IH]; intros Hl; [by exists []|].
  destruct (Hl a (proj2 (elem_of_cons _ _ _) (or_introl eq_refl))) as [t Ht]. destruct IH as [ts Hts]; [intros b Hb; apply Hl; by apply elem_of_cons; right|].
  exists (t :: ts). by rewrite !fmap_cons, Ht, Hts.
Qed.

(** The invariant rule of such a loop. *)
Lemma fold_result_inv {A S E} (P : S -> Prop) (f : S -> A -> Result S E) l s s' :
  P s -> (forall s x s', x ∈ l -> P s -> f s x = Ok s' -> P s') ->
  fold_result f s l = Ok s' -> P s'.
Proof.
  revert s. induction l as [|x l IH]; simpl; intros s Hs Hstep H; [naive_solver|].
  apply result_bind_ok in H as (s1 & H1 & H2).
  apply (IH s1); [|intros t y t' Hy; apply Hstep; by right|done].
  by apply (Hstep s x s1); [left|..].
Qed.

(** Elements of a sorted list. *)
Lemma sorted_lookup {A} (R : A -> A -> Prop) l i j x y :
  StronglySorted R l -> i < j -> l !! i = Some x -> l !! j = Some y -> R x y.
Proof.
  intros Hs. revert i j. induction Hs as [|z l Hs IH Hz]; intros i j Hij Hx Hy; [done|].
  destruct j as [|j]; [lia|]. simpl in Hy. destruct i as [|i]; simpl in Hx.
  - injection Hx as <-. rewrite Forall_forall in Hz. apply Hz. by eapply list_elem_of_lookup_2.
  - eapply (IH i j); [lia|done|done].
Qed.

(** ** Tactics and hint databases *)

Create HintDb buzz.
Create Rewrite HintDb buzz.
#[export] Hint Rewrite @result_bind_ok @result_bind_err @map_err_ok : buzz.

(** Split every [match]/[if] in sight and clean up. *)
Ltac dmatch := repeat (case_match; simplify_eq/=).

(** Turn hypotheses [let? x := .. in .. = Ok/Err _] into their pieces. *)
Ltac inv_results :=
  repeat match goal with
  | H : result_bind _ _ = Ok _ |- _ => apply result_bind_ok in H as (? & ? & ?)
  | H : map_err _ _ = Ok _ |- _ => apply map_err_ok in H
  | H : Ok _ = Ok _ |- _ => injection H as H
  | H : Err _ = Err _ |- _ => injection H as H
  | H : Ok _ = Err _ |- _ => discriminate H
  | H : Err _ = Ok _ |- _ => discriminate H
  end; simplify_eq/=.

(** Turn boolean tests into propositions. *)
Ltac bool_to_prop :=
  repeat match goal with
  | H : _ && _ = true |- _ => apply andb_true_iff in H as [? ?]
  | H : _ || _ = false |- _ => apply orb_false_iff in H as [? ?]
  | H : negb _ = true |- _ => apply negb_true_iff in H
  | H : negb _ = false |- _ => apply negb_false_iff in H
  | H : bool_decide _ = true |- _ => apply bool_decide_eq_true in H
  | H : bool_decide _ = false |- _ => apply bool_decide_eq_false in H
  end.

(** Split the cases of [lookup] after an update. *)
Ltac map_cases :=
  repeat match goal with
  | |- context [<[?i:=_]> _ !! ?j] => rewrite (lookup_insert _ i j); case_decide
  | |- context [delete ?i _ !! ?j] => rewrite (lookup_delete _ i j); case_decide
  | H : context [<[?i:=_]> _ !! ?j] |- _ => rewrite (lookup_insert _ i j) in H; case_decide
  | H : context [delete ?i _ !! ?j] |- _ => rewrite (lookup_delete _ i j) in H; case_decide
  end; simplify_eq/=.

(** A [Vec<u8>] or [&[u8]]. *)
Definition Bytes := list N.

(** ** Lists as Rust's [Vec], [VecDeque] and iterators *)

Section lists.
Context {A : Type}.

(** [iter().min_by_key(key)]: the first of the minimal elements. *)
Fixpoint min_by_key (key : A -> Z) (l : list A) : option A :=
  match l with
  | [] => None
  | x :: l =>
      match min_by_key key l with
      | None => Some x
      | Some y => if bool_decide (key x <= key y)%Z then Some x else Some y
      end
  end.

Lemma min_by_key_None key l : min_by_key key l = None <-> l = [].
Proof. destruct l; simpl; dmatch; naive_solver. Qed.

Lemma min_by_key_Some key l x :
  min_by_key key l = Some x ->
  x ∈ l /\ forall y, y ∈ l -> (key x <= key y)%Z.
Proof.
  revert x. induction l as [|z l IH]; simpl; intros x H; [done|].
  destruct (min_by_key key l) as [w|] eqn:Hm.
  - specialize (IH w eq_refl) as [Hin Hle].
    case_bool_decide; simplify_eq; split; try set_solver;
      intros y [->|Hy]%elem_of_cons; try lia; specialize (Hle y Hy); lia.
  - simplify_eq. apply min_by_key_None in Hm as ->. split; [set_solver|].
    intros y ->%list_elem_of_singleton. lia.
Qed.

(** [sort_by_key]: Rust's stable sort, as stable insertion. *)
Fixpoint insert_by_key (key : A -> Z) (x : A) (l : list A) : list A :=
  match l with
  | [] => [x]
  | y :: l' => if bool_decide (key x <= key y)%Z then x :: l
               else y :: insert_by_key key x l'
  end.

Definition sort_by_key (key : A -> Z) (l : list A) : list A :=
  foldr (insert_by_key key) [] l.

Lemma insert_by_key_perm key x l : insert_by_key key x l ≡ₚ x :: l.
Proof.
  induction l as [|y l IH]; simpl; [done|]. case_bool_decide; [done|].
  rewrite IH. apply Permutation_swap.
Qed.

Lemma sort_by_key_perm key l : sort_by_key key l ≡ₚ l.
Proof.
  induction l as [|x l IH]; simpl; [done|]. by rewrite insert_by_key_perm, IH.
Qed.

Lemma insert_by_key_sorted key x l :
  StronglySorted (fun a b => key a <= key b)%Z l ->
  StronglySorted (fun a b => key a <= key b)%Z (insert_by_key key x l).
Proof.
  induction 1 as [|y l Hl IH Hy]; simpl; [repeat constructor|].
  case_bool_decide.
  - repeat (constructor; try done).
    eapply Forall_impl; [exact Hy|]. simpl; lia.
  - constructor; [done|]. rewrite insert_by_key_perm. constructor; [lia|done].
Qed.

Lemma sort_by_key_sorted key l :
  StronglySorted (fun a b => key a <= key b)%Z (sort_by_key key l).
Proof. induction l; simpl; [constructor|]. by apply insert_by_key_sorted. Qed.

(** Stability: elements of equal key keep their order. *)
Lemma insert_by_key_filter key k x l :
  filter (fun a => key a = k) (insert_by_key key x l) =
  filter (fun a => key a = k) (x :: l).
Proof.
  induction l as [|y l IH]; simpl; [done|]. case_bool_decide; [done|].
  rewrite (filter_cons (fun a => key a = k) y (insert_by_key key x l)), IH.
  rewrite !filter_cons. repeat case_decide; try done. lia.
Qed.

Lemma sort_by_key_stable key k l :
  filter (fun a => key a = k) (sort_by_key key l) = filter (fun a => key a = k) l.
Proof.
  induction l as [|x l IH]; simpl; [done|].
  rewrite insert_by_key_filter, !filter_cons, IH. done.
Qed.

Lemma length_sort_by_key key l : length (sort_by_key key l) = length l.
Proof. by rewrite sort_by_key_perm. Qed.

(** Sorting a sorted list changes nothing (so re-sorting is harmless). *)
Lemma sort_by_key_id key l :
  StronglySorted (fun a b => key a <= key b)%Z l -> sort_by_key key l = l.
Proof.
  induction 1 as [|x l Hl IH Hx]; simpl; [done|]. rewrite IH.
  destruct Hx as [|y l' Hxy]; simpl; [done|]. by rewrite bool_decide_eq_true_2.
Qed.

(** [while q.len() > cap { q.pop_back(); }], with the length as fuel. *)
Fixpoint trim_back_fuel (fuel cap : nat) (q : list A) : list A :=
  match fuel with
  | O => q
  | S fuel => if bool_decide (cap < length q)%nat
              then trim_back_fuel fuel cap (removelast q) else q
  end.

Definition trim_back (cap : nat) (q : list A) : list A :=
  trim_back_fuel (length q) cap q.

Lemma removelast_take (q : list A) : removelast q = take (pred (length q)) q.
Proof.
  destruct q as [|x q] using rev_ind; [done|].
  rewrite removelast_last, length_app, Nat.add_comm. simpl.
  by rewrite take_app_length.
Qed.

Lemma trim_back_fuel_take fuel cap q :
  (length q <= fuel + cap)%nat -> trim_back_fuel fuel cap q = take cap q.
Proof.
  revert q. induction fuel as [|fuel IH]; simpl; intros q Hf.
  - by rewrite take_ge by lia.
  - case_bool_decide; [|by rewrite take_ge by lia].
    rewrite removelast_take, IH by (rewrite length_take; lia).
    by rewrite take_take, Nat.min_l by lia.
Qed.

Lemma trim_back_take cap q : trim_back cap q = take cap q.
Proof. apply trim_back_fuel_take. lia. Qed.

(** [for x in xs.into_iter().rev() { q.push_front(x) }] *)
Definition push_front_all (xs q : list A) : list A :=
  fold_left (fun q x => x :: q) (rev xs) q.

Lemma push_front_all_app xs q : push_front_all xs q = xs ++ q.
Proof.
  unfold push_front_all. rewrite <-fold_left_rev_right, rev_involutive.
  induction xs; simpl; congruence.
Qed.
End lists.

#[export] Hint Rewrite @trim_back_take @push_front_all_app @length_sort_by_key : buzz.
#[export] Hint Resolve sort_by_key_perm sort_by_key_sorted : buzz.

Lemma filter_filter_id {A} (P : A -> Prop) `{forall x, Decision (P x)} (l : list A) :
  filter P (filter P l) = filter P l.
Proof.
  induction l as [|x l IH]; [done|]. rewrite (filter_cons P x l). case_decide; [|done].
  rewrite filter_cons, decide_True by done. by rewrite IH.
Qed.

(** [if seen.insert(x) { out.push(x) }]: keep the first occurrence of each
    element, in order. *)
Section dedup.
Context {A : Type} `{EqDecision A}.

Fixpoint dedup_from (seen l : list A) : list A :=
  match l with
  | [] => []
  | x :: l => if decide (x ∈ seen) then dedup_from seen l
              else x :: dedup_from (x :: seen) l
  end.

Definition dedup_first (l : list A) : list A := dedup_from [] l.

Lemma elem_of_dedup_from seen l x :
  x ∈ dedup_from seen l <-> x ∈ l /\ x ∉ seen.
Proof.
  revert seen. induction l as [|y l IH]; intros seen; simpl; [set_solver|].
  case_decide; rewrite ?elem_of_cons, IH; [set_solver|].
  rewrite elem_of_cons. destruct (decide (x = y)) as [->|]; set_solver.
Qed.

Lemma NoDup_dedup_from seen l : NoDup (dedup_from seen l).
Proof.
  revert seen. induction l as [|y l IH]; intros seen; simpl; [constructor|].
  case_decide; [done|]. constructor; [|done]. rewrite elem_of_dedup_from. set_solver.
Qed.

Lemma elem_of_dedup_first l x : x ∈ dedup_first l <-> x ∈ l.
Proof. unfold dedup_first. rewrite elem_of_dedup_from. set_solver. Qed.

Lemma NoDup_dedup_first l : NoDup (dedup_first l).
Proof. apply NoDup_dedup_from. Qed.
End dedup.

#[export] Hint Resolve NoDup_dedup_first : buzz.

(** ** Iteration over a [HashMap] or [DashMap]

    The order is unspecified: every definition that iterates takes it from an
    instance of this class, so its theorems hold for whatever order the map
    hands out. *)
Class HashMapIter := {
  iter_entries : forall {K V : Type} `{Countable K}, gmap K V -> list (K * V);
  iter_entries_perm : forall K V `{Countable K} (m : gmap K V),
    iter_entries m ≡ₚ map_to_list m;
}.

(** One such order, for evaluating on concrete inputs. *)
Definition map_order : HashMapIter :=
  {| iter_entries K V _ _ m := map_to_list m;
     iter_entries_perm K V _ _ m := Permutation_refl _ |}.

Section iter.
Context `{HashMapIter} {K V : Type} `{Countable K}.
Implicit Types m : gmap K V.

Lemma elem_of_iter_entries m k v : (k, v) ∈ iter_entries m <-> m !! k = Some v.
Proof. by rewrite iter_entries_perm, elem_of_map_to_list. Qed.

Lemma NoDup_fst_iter_entries m : NoDup (iter_entries m).*1.
Proof. rewrite iter_entries_perm. apply NoDup_fst_map_to_list. Qed.

Lemma NoDup_iter_entries m : NoDup (iter_entries m).
Proof. rewrite iter_entries_perm. apply NoDup_map_to_list. Qed.

Lemma length_iter_entries m : length (iter_entries m) = size m.
Proof. by rewrite iter_entries_perm, length_map_to_list. Qed.
End iter.

(** A [Vec] of the values of one key: [entry(k).or_default().push(e)], and
    [retain] followed by the removal of an emptied entry. *)
Section buckets.
Context {K A : Type} `{Countable K} `{EqDecision A}.
Implicit Types (idx : gmap K (list A)) (k : K) (e : A).

Definition bucket idx k : list A := default [] (idx !! k).

Definition bucket_push idx k e : gmap K (list A) := <[k := bucket idx k ++ [e]]> idx.

Definition bucket_remove idx k e : gmap K (list A) :=
  match idx !! k with
  | None => idx
  | Some entries =>
      let entries := filter (fun x => x <> e) entries in
      if decide (entries = []) then delete k idx else <[k := entries]> idx
  end.

(** No key keeps an empty [Vec]. *)
Definition no_empty_bucket idx : Prop := forall k, idx !! k <> Some [].

Lemma elem_of_bucket idx k e : e ∈ bucket idx k <-> exists es, idx !! k = Some es /\ e ∈ es.
Proof.
  unfold bucket. destruct (idx !! k); simpl; [naive_solver|].
  split; [intros H'; inversion H'|naive_solver].
Qed.

Lemma bucket_push_lookup idx k k' e :
  bucket (bucket_push idx k e) k' = if decide (k = k') then bucket idx k ++ [e] else bucket idx k'.
Proof. unfold bucket, bucket_push. rewrite lookup_insert. by case_decide. Qed.

Lemma bucket_remove_lookup idx k k' e :
  bucket (bucket_remove idx k e) k' =
  if decide (k = k') then filter (fun x => x <> e) (bucket idx k) else bucket idx k'.
Proof.
  unfold bucket, bucket_remove. destruct (idx !! k) as [es|] eqn:Hk; simpl.
  - case_decide as Hf; rewrite ?lookup_delete, ?lookup_insert; case_decide; simpl; congruence.
  - case_decide; [subst; by rewrite Hk|done].
Qed.

Lemma no_empty_bucket_push idx k e : no_empty_bucket idx -> no_empty_bucket (bucket_push idx k e).
Proof.
  intros Hne k'. unfold bucket_push. rewrite lookup_insert. case_decide; [|done].
  by destruct (bucket idx k).
Qed.

Lemma no_empty_bucket_remove idx k e :
  no_empty_bucket idx -> no_empty_bucket (bucket_remove idx k e).
Proof.
  intros Hne k'. unfold bucket_remove. destruct (idx !! k) eqn:Hk; [|done].
  case_decide; rewrite ?lookup_delete, ?lookup_insert; case_decide; congruence.
Qed.
End buckets.

#[export] Hint Resolve no_empty_bucket_push no_empty_bucket_remove : buzz.

(** ** Byte strings

    A Rocq [string] is the UTF-8 byte sequence of the Rust [str]; [len] is its
    byte length.  The ASCII tests of the code hold of a [char] exactly when they
    hold of each of its bytes, every byte of a non-ASCII [char] being >= 0x80. *)

#[global] Open Scope string_scope.
#[global] Open Scope list_scope.

(** [s.split(c)]: never empty. *)
Fixpoint split_on (c : Ascii.ascii) (s : string) : list string :=
  match s with
  | EmptyString => [EmptyString]
  | String a s =>
      if decide (a = c) then EmptyString :: split_on c s
      else match split_on c s with
           | [] => [String a EmptyString]
           | h :: t => String a h :: t
           end
  end.

Fixpoint join_with (c : Ascii.ascii) (l : list string) : string :=
  match l with
  | [] => EmptyString
  | [s] => s
  | s :: l => s ++ String c (join_with c l)
  end.

Fixpoint all_bytes (p : Ascii.ascii -> bool) (s : string) : bool :=
  match s with
  | EmptyString => true
  | String a s => p a && all_bytes p s
  end.

(** [s.contains(c)] *)
Definition contains_byte (c : Ascii.ascii) (s : string) : bool :=
  negb (all_bytes (fun a => bool_decide (a <> c)) s).

(** [s.starts_with(p)] and [s.strip_prefix(p)] *)
Definition starts_with (s p : string) : bool := String.prefix p s.

Fixpoint strip_prefix (s p : string) : option string :=
  match p, s with
  | EmptyString, _ => Some s
  | String a p, String b s => if decide (a = b) then strip_prefix s p else None
  | String _ _, EmptyString => None
  end.

Definition byte_in (lo hi : N) (a : Ascii.ascii) : bool :=
  (N.leb lo (Ascii.N_of_ascii a) && N.leb (Ascii.N_of_ascii a) hi)%bool.

Definition is_ascii_alphanumeric (a : Ascii.ascii) : bool :=
  byte_in 48 57 a || byte_in 65 90 a || byte_in 97 122 a.

Lemma string_app_nil s : (EmptyString ++ s)%string = s.
Proof. reflexivity. Qed.

Lemma string_app_cons a s t : (String a s ++ t)%string = String a (s ++ t)%string.
Proof. reflexivity. Qed.

Lemma string_app_assoc a b c : (a ++ (b ++ c))%string = ((a ++ b) ++ c)%string.
Proof. induction a as [|x a IH]; simpl; [done|]. by rewrite !string_app_cons, IH. Qed.

Lemma string_app_nil_r s : (s ++ "")%string = s.
Proof. induction s as [|a s IH]; [done|]. by rewrite string_app_cons, IH. Qed.

Lemma all_bytes_impl (p q : Ascii.ascii -> bool) s :
  (forall a, p a = true -> q a = true) -> all_bytes p s = true -> all_bytes q s = true.
Proof.
  intros Hpq. induction s as [|a s IH]; simpl; [done|]. rewrite !andb_true_iff. naive_solver.
Qed.

Lemma all_bytes_app p a b : all_bytes p (a ++ b)%string = all_bytes p a && all_bytes p b.
Proof. induction a as [|x a IH]; [done|]. rewrite string_app_cons. cbn [all_bytes]. by rewrite IH, andb_assoc. Qed.

Lemma strip_prefix_app p s : strip_prefix (p ++ s) p = Some s.
Proof.
  induction p as [|a p IH]; [by destruct s|]. rewrite string_app_cons. cbn [strip_prefix].
  by rewrite decide_True.
Qed.

Lemma length_app_str a b : String.length (a ++ b) = String.length a + String.length b.
Proof. induction a as [|x a IH]; [done|]. rewrite string_app_cons. simpl. by rewrite IH. Qed.

Lemma string_app_inj a b x y :
  String.length a = String.length b -> (a ++ x)%string = (b ++ y)%string -> a = b /\ x = y.
Proof.
  revert b. induction a as [|c a IH]; intros [|d b]; simpl; try done.
  intros [= Hl] [= -> E]. by destruct (IH b Hl E) as [-> ->].
Qed.

Lemma split_on_nonempty c s : split_on c s <> [].
Proof. induction s; simpl; dmatch; done. Qed.

Lemma join_split c s : join_with c (split_on c s) = s.
Proof.
  induction s as [|a s IH]; simpl; [done|]. pose proof (split_on_nonempty c s) as Hne.
  case_decide; subst; destruct (split_on c s) as [|h [|h' t]]; simpl in *;
    rewrite ?string_app_nil, ?string_app_cons; congruence.
Qed.

Lemma split_on_no_sep c s : Forall (fun p => all_bytes (fun a => bool_decide (a <> c)) p = true) (split_on c s).
Proof.
  induction s as [|a s IH]; simpl; [repeat constructor|].
  case_decide; [by constructor|].
  destruct (split_on c s) as [|h t]; [by repeat constructor; simpl; rewrite bool_decide_eq_true_2|].
  inversion_clear IH. constructor; [|done]. simpl. by rewrite bool_decide_eq_true_2.
Qed.

Lemma split_on_join c (l : list string) :
  l <> [] -> Forall (fun p => all_bytes (fun a => bool_decide (a <> c)) p = true) l ->
  split_on c (join_with c l) = l.
Proof.
  intros Hne Hall. induction Hall as [|p l Hp Hl IH]; [done|].
  assert (Hone : forall s, all_bytes (fun a => bool_decide (a <> c)) s = true -> split_on c s = [s]).
  { induction s as [|a s IHs]; simpl; [done|]. intros [Ha Hs]%andb_true_iff.
    apply bool_decide_eq_true in Ha. rewrite decide_False by done. by rewrite IHs. }
  destruct l as [|q l]; [by apply Hone|].
  change (join_with c (p :: q :: l)) with (p ++ String c (join_with c (q :: l)))%string.
  specialize (IH ltac:(done)). clear Hone Hne.
  induction p as [|a p IHp]; cbn [split_on String.append] in *.
  - rewrite string_app_nil. cbn [split_on]. by rewrite decide_True, IH.
  - simpl in Hp. apply andb_true_iff in Hp as [Ha%bool_decide_eq_true Hp].
    rewrite string_app_cons. cbn [split_on]. rewrite decide_False by done.
    by rewrite (IHp Hp).
Qed.
