(* ===== verification/Text.v ===== *)
(** * Rust's [str] and number parsing

    The operations of the standard library on strings that the modelled code uses.  A
    string is its UTF-8 bytes. *)

From S2P Require Import Prelude.
From Stdlib Require Import DecimalString DecimalN.

(** ** Numbers *)

Definition decimal (n : N) : string := NilZero.string_of_uint (N.to_uint n).

(** [str::parse::<u64>]: an optional plus sign, then digits, within 64 bits. *)
Definition parse_u64 (s : string) : option N :=
  let digits := match s with String "+" rest => rest | _ => s end in
  match NilZero.uint_of_string digits with
  | Some d => let n := N.of_uint d in if (n <? 2 ^ 64)%N then Some n else None
  | None => None
  end.

(** ** Searching *)

(** [contains(sub)] *)
Fixpoint contains_str (s sub : string) : bool :=
  starts_with s sub ||
  match s with
  | EmptyString => false
  | String _ s => contains_str s sub
  end.

(** [ends_with(c)] of an ASCII character. *)
Fixpoint ends_with_byte (s : string) (c : Ascii.ascii) : bool :=
  match s with
  | EmptyString => false
  | String a EmptyString => bool_decide (a = c)
  | String _ s => ends_with_byte s c
  end.

Fixpoint string_rev (acc s : string) : string :=
  match s with
  | EmptyString => acc
  | String a s => string_rev (String a acc) s
  end.

(** [strip_suffix(p)] *)
Definition strip_suffix (s p : string) : option string :=
  string_rev "" <$> strip_prefix (string_rev "" s) (string_rev "" p).

(** [split_once(c)] of an ASCII character. *)
Fixpoint split_once (c : Ascii.ascii) (s : string) : option (string * string) :=
  match s with
  | EmptyString => None
  | String a s =>
      if decide (a = c) then Some (EmptyString, s)
      else (fun p => (String a p.1, p.2)) <$> split_once c s
  end.

(** ** White space *)

Definition bytes_str (l : list N) : string :=
  String.string_of_list_ascii (Ascii.ascii_of_N <$> l).

(** The characters of the Unicode property [White_Space], encoded. *)
Definition white_space : list string := bytes_str <$>
  [[9]; [10]; [11]; [12]; [13]; [32]; [194; 133]; [194; 160]; [225; 154; 128];
   [226; 128; 128]; [226; 128; 129]; [226; 128; 130]; [226; 128; 131]; [226; 128; 132];
   [226; 128; 133]; [226; 128; 134]; [226; 128; 135]; [226; 128; 136]; [226; 128; 137];
   [226; 128; 138]; [226; 128; 168]; [226; 128; 169]; [226; 128; 175]; [226; 129; 159];
   [227; 128; 128]]%N.

Definition strip_any (ps : list string) (s : string) : option string :=
  head (omap (strip_prefix s) ps).

Fixpoint trim_start_fuel (fuel : nat) (ps : list string) (s : string) : string :=
  match fuel with
  | 0 => s
  | S fuel => match strip_any ps s with Some s => trim_start_fuel fuel ps s | None => s end
  end.

Definition trim_start (ps : list string) (s : string) : string :=
  trim_start_fuel (String.length s) ps s.

(** [trim()]: from the end, the characters are read backwards. *)
Definition trim (s : string) : string :=
  let s := trim_start white_space s in
  string_rev "" (trim_start (string_rev "" <$> white_space) (string_rev "" s)).

(** ** Lines *)

Definition strip_cr (s : string) : string := default s (strip_suffix s (bytes_str [13%N])).

(** [lines()]: an empty last line is dropped, and a carriage return at the end of each. *)
Definition lines (s : string) : list string :=
  let ls := split_on (Ascii.ascii_of_N 10) s in
  let ls := if decide (last ls = Some EmptyString) then removelast ls else ls in
  strip_cr <$> ls.

(** ** UTF-8 *)

Definition cont (a : Ascii.ascii) : bool := byte_in 128 191 a.

(** [std::str::from_utf8]: the well-formed byte sequences of the Unicode standard. *)
Fixpoint valid_utf8 (s : string) : bool :=
  match s with
  | EmptyString => true
  | String a s1 =>
      if byte_in 0 127 a then valid_utf8 s1
      else
        match s1 with
        | EmptyString => false
        | String b s2 =>
            if byte_in 194 223 a then cont b && valid_utf8 s2
            else
              match s2 with
              | EmptyString => false
              | String c s3 =>
                  let ok3 :=
                    (byte_in 224 224 a && byte_in 160 191 b)
                    || (byte_in 225 236 a && cont b)
                    || (byte_in 237 237 a && byte_in 128 159 b)
                    || (byte_in 238 239 a && cont b) in
                  if ok3 then cont c && valid_utf8 s3
                  else
                    match s3 with
                    | EmptyString => false
                    | String d s4 =>
                        ((byte_in 240 240 a && byte_in 144 191 b)
                         || (byte_in 241 243 a && cont b)
                         || (byte_in 244 244 a && byte_in 128 143 b))
                        && cont c && cont d && valid_utf8 s4
                    end
              end
        end
  end.

(** ** Byte order *)

(** Big-endian digits in base 256. *)
Fixpoint be_bytes (n : nat) (u : N) : Bytes :=
  match n with
  | 0 => []
  | S n => be_bytes n (u / 256) ++ [(u mod 256)%N]
  end.

Definition be_value (bs : Bytes) : N := fold_left (fun u b => u * 256 + b)%N bs 0%N.

(** ** Characters *)

Definition is_ascii_digit (a : Ascii.ascii) : bool := byte_in 48 57 a.
Definition is_ascii_hexdigit (a : Ascii.ascii) : bool :=
  is_ascii_digit a || byte_in 65 70 a || byte_in 97 102 a.
Definition is_ascii_alphanumeric (a : Ascii.ascii) : bool :=
  is_ascii_digit a || byte_in 65 90 a || byte_in 97 122 a.
Definition is_lower_hexdigit (a : Ascii.ascii) : bool := is_ascii_digit a || byte_in 97 102 a.

(** ** Sorted vectors *)

Definition string_le (a b : string) : Prop := String.leb a b = true.
#[export] Instance string_le_dec a b : Decision (string_le a b).
Proof. unfold string_le. apply _. Defined.

(** [sort()] *)
Definition sort_strings (l : list string) : list string := merge_sort string_le l.

(** [dedup()]: consecutive duplicates are dropped. *)
Fixpoint dedup (l : list string) : list string :=
  match l with
  | a :: ((b :: _) as l') => if decide (a = b) then dedup l' else a :: dedup l'
  | _ => l
  end.

(** The entries of a [BTreeMap] in the order of their keys. *)
Definition entry_le {A} (a b : string * A) : Prop := string_le a.1 b.1.
#[export] Instance entry_le_dec {A} (a b : string * A) : Decision (entry_le a b).
Proof. unfold entry_le. apply _. Defined.

Definition btree_iter {A} (m : gmap string A) : list (string * A) :=
  merge_sort entry_le (map_to_list m).

(** ** Facts *)

Lemma string_le_compare a b : string_le a b <-> String.compare a b <> Gt.
Proof. unfold string_le, String.leb. destruct (String.compare a b); naive_solver. Qed.

#[export] Instance string_le_trans : Transitive string_le.
Proof.
  intros a b c. rewrite !string_le_compare. revert b c.
  induction a as [|x a IH]; intros [|y b] [|z c]; simpl; try done.
  unfold Ascii.compare. intros Hab Hbc.
  destruct (N.compare_spec (Ascii.N_of_ascii x) (Ascii.N_of_ascii y)) as [E|E|E]; [|..|done];
    destruct (N.compare_spec (Ascii.N_of_ascii y) (Ascii.N_of_ascii z)) as [E'|E'|E']; try done.
  - rewrite E, E', N.compare_refl. by eapply IH.
  - rewrite E. by rewrite (proj2 (N.compare_lt_iff _ _)).
  - rewrite <-E'. by rewrite (proj2 (N.compare_lt_iff _ _)).
  - by rewrite (proj2 (N.compare_lt_iff _ _)) by lia.
Qed.

#[export] Instance string_le_total : Total string_le.
Proof. intros a b. apply String.leb_total. Qed.

#[export] Instance string_le_antisym : AntiSymm (=) string_le.
Proof. intros a b. apply String.leb_antisym. Qed.

#[export] Instance string_le_refl : Reflexive string_le.
Proof. intros a. by destruct (total string_le a a). Qed.

Lemma sort_strings_perm l : sort_strings l ≡ₚ l.
Proof. apply merge_sort_Permutation. Qed.

Lemma sort_strings_sorted l : StronglySorted string_le (sort_strings l).
Proof. apply StronglySorted_merge_sort; apply _. Qed.

Lemma dedup_cons2 a b l :
  dedup (a :: b :: l) = if decide (a = b) then dedup (b :: l) else a :: dedup (b :: l).
Proof. done. Qed.

Lemma elem_of_dedup x l : x ∈ dedup l <-> x ∈ l.
Proof.
  induction l as [|a [|b l] IH]; [done..|]. rewrite dedup_cons2. case_decide as E.
  - subst b. rewrite IH. set_solver.
  - rewrite elem_of_cons, IH. set_solver.
Qed.

Lemma length_dedup l : length (dedup l) <= length l.
Proof. induction l as [|a [|b l] IH]; [simpl; lia..|]. rewrite dedup_cons2. case_decide; simpl in *; lia. Qed.

Lemma dedup_sorted l :
  StronglySorted string_le l -> StronglySorted string_le (dedup l) /\ NoDup (dedup l).
Proof.
  induction 1 as [|a l Hl [IHs IHn] Ha]; [by repeat constructor|].
  destruct l as [|b l]; [split; repeat constructor; set_solver|].
  rewrite dedup_cons2. case_decide as E; [done|].
  assert (Forall (string_le a) (dedup (b :: l))) as Ha'.
  { rewrite Forall_forall in *. intros x. rewrite elem_of_dedup. apply Ha. }
  split; [by constructor|]. constructor; [|done]. rewrite elem_of_dedup. intros Hin.
  apply E. apply (anti_symm string_le).
  - rewrite Forall_forall in Ha. apply Ha. set_solver.
  - apply elem_of_cons in Hin as [->|Hin]; [done|]. inversion_clear Hl as [|? ? _ Hb].
    rewrite Forall_forall in Hb. by apply Hb.
Qed.

Lemma dedup_NoDup l : NoDup l -> dedup l = l.
Proof.
  induction l as [|a [|b l] IH]; [done..|]. intros Hn. rewrite dedup_cons2. rewrite decide_False.
  - f_equal. apply IH. by inversion Hn.
  - intros ->. apply NoDup_cons in Hn as [Hn _]. set_solver.
Qed.

(** Sorting and dropping duplicates again changes nothing. *)
Lemma dedup_sort_idemp l : dedup (sort_strings (dedup (sort_strings l))) = dedup (sort_strings l).
Proof.
  destruct (dedup_sorted _ (sort_strings_sorted l)) as [Hs Hn].
  assert (sort_strings (dedup (sort_strings l)) = dedup (sort_strings l)) as ->; [|by apply dedup_NoDup].
  apply (StronglySorted_unique string_le); [apply sort_strings_sorted|done|apply sort_strings_perm].
Qed.

Lemma string_rev_app s acc : string_rev acc s = (string_rev "" s ++ acc)%string.
Proof.
  revert acc. induction s as [|a s IH]; intros acc; simpl; [done|].
  rewrite IH, (IH (String a "")), <-string_app_assoc. done.
Qed.

Lemma string_rev_rev s acc : string_rev "" (string_rev acc s) = (string_rev "" acc ++ s)%string.
Proof.
  revert acc. induction s as [|a s IH]; intros acc; simpl.
  - by rewrite string_app_nil_r.
  - rewrite IH. simpl. rewrite (string_rev_app acc (String a "")), <-string_app_assoc. done.
Qed.

Lemma length_string_of_list l : String.length (String.string_of_list_ascii l) = length l.
Proof. induction l; simpl; congruence. Qed.

Lemma be_value_snoc bs b : be_value (bs ++ [b]) = (be_value bs * 256 + b)%N.
Proof. unfold be_value. by rewrite fold_left_app. Qed.

Lemma length_bytes_str l : String.length (bytes_str l) = length l.
Proof. unfold bytes_str. by rewrite length_string_of_list, length_fmap. Qed.

Lemma length_be_bytes n u : length (be_bytes n u) = n.
Proof. revert u. induction n as [|n IH]; intros u; simpl; [done|]. rewrite length_app, IH. simpl. lia. Qed.

Lemma be_value_bytes n u : (u < 256 ^ N.of_nat n)%N -> be_value (be_bytes n u) = u.
Proof.
  revert u. induction n as [|n IH]; intros u Hu; [change (u < 1)%N in Hu; change (0 = u)%N; lia|].
  cbn [be_bytes]. rewrite be_value_snoc, IH.
  - pose proof (N.div_mod u 256). lia.
  - rewrite Nat2N.inj_succ, N.pow_succ_r' in Hu. by apply N.Div0.div_lt_upper_bound.
Qed.

Lemma be_bytes_value n bs :
  length bs = n -> Forall (fun b => (b < 256)%N) bs -> be_bytes n (be_value bs) = bs.
Proof.
  revert bs. induction n as [|n IH]; intros bs Hl Hb; [by destruct bs|].
  destruct bs as [|b bs _] using rev_ind; [done|]. rewrite length_app in Hl. simpl in Hl.
  apply Forall_app in Hb as [Hbs [Hb _]%Forall_cons]. cbn [be_bytes]. rewrite be_value_snoc.
  rewrite N.div_add_l by done. rewrite N.div_small, N.add_0_r by done. rewrite IH by (done || lia). f_equal.
  f_equal. rewrite N.add_comm, N.Div0.mod_add. by apply N.mod_small.
Qed.

Lemma be_bytes_bytes n u : Forall (fun b => (b < 256)%N) (be_bytes n u).
Proof.
  revert u. induction n as [|n IH]; intros u; cbn [be_bytes]; [done|].
  apply Forall_app. split; [done|]. repeat constructor. by apply N.mod_lt.
Qed.
