(* ===== verification/Channel.v ===== *)
(** * Channel and membership enums ([crates/buzz-core/src/channel.rs])

    The enums shared by the SDK, the database layer and the git policy, each with
    its canonical string form, and the role hierarchy used by every permission
    check.  [StrEnum] is the interface the three enums implement: a printer and a
    parser that invert each other. *)

From S2P Require Import Prelude.

Inductive ChannelVisibility := Open | Private.
Inductive ChannelType := Stream | Forum | Dm | Workflow.
Inductive MemberRole := Owner | Admin | Member | Guest | Bot.

#[export] Instance ChannelVisibility_eq_dec : EqDecision ChannelVisibility.
Proof. solve_decision. Defined.
#[export] Instance ChannelType_eq_dec : EqDecision ChannelType.
Proof. solve_decision. Defined.
#[export] Instance MemberRole_eq_dec : EqDecision MemberRole.
Proof. solve_decision. Defined.

(** The [Err] of a [FromStr]: the message quotes the rejected string, which is
    what the value keeps. *)
Inductive FromStrErr :=
| UnknownChannelVisibility (other : string)
| UnknownChannelType (other : string)
| UnknownMemberRole (other : string).

Module ChannelVisibility.
Definition as_str (v : ChannelVisibility) : string :=
  match v with
  | Open => "open"
  | Private => "private"
  end.

Definition from_str (s : string) : Result ChannelVisibility FromStrErr :=
  if decide (s = "open") then Ok Open
  else if decide (s = "private") then Ok Private
  else Err (UnknownChannelVisibility s).
End ChannelVisibility.

Module ChannelType.
Definition as_str (t : ChannelType) : string :=
  match t with
  | Stream => "stream"
  | Forum => "forum"
  | Dm => "dm"
  | Workflow => "workflow"
  end.

Definition from_str (s : string) : Result ChannelType FromStrErr :=
  if decide (s = "stream") then Ok Stream
  else if decide (s = "forum") then Ok Forum
  else if decide (s = "dm") then Ok Dm
  else if decide (s = "workflow") then Ok Workflow
  else Err (UnknownChannelType s).
End ChannelType.

Module MemberRole.
Definition as_str (r : MemberRole) : string :=
  match r with
  | Owner => "owner"
  | Admin => "admin"
  | Member => "member"
  | Guest => "guest"
  | Bot => "bot"
  end.

Definition is_elevated (r : MemberRole) : bool :=
  match r with
  | Owner | Admin => true
  | _ => false
  end.

Definition permission_level (r : MemberRole) : Z :=
  match r with
  | Owner => 4
  | Admin => 3
  | Member => 2
  | Guest => 1
  | Bot => 0
  end.

Definition has_at_least (r required : MemberRole) : bool :=
  bool_decide (permission_level required <= permission_level r)%Z.

Definition from_str (s : string) : Result MemberRole FromStrErr :=
  if decide (s = "owner") then Ok Owner
  else if decide (s = "admin") then Ok Admin
  else if decide (s = "member") then Ok Member
  else if decide (s = "guest") then Ok Guest
  else if decide (s = "bot") then Ok Bot
  else Err (UnknownMemberRole s).
End MemberRole.

(** ** The interface of a string enum *)

Class StrEnum (A : Type) := {
  enum_as_str : A -> string;
  enum_from_str : string -> Result A FromStrErr;
  enum_from_as_str : forall a, enum_from_str (enum_as_str a) = Ok a;
  enum_as_from_str : forall s a, enum_from_str s = Ok a -> enum_as_str a = s;
}.

Ltac solve_str_enum :=
  match goal with
  | |- forall a : _, _ = Ok a => intros []; reflexivity
  | |- forall s a, _ =>
      intros ?? H; repeat (case_decide; [by injection H as <-; subst|]); discriminate H
  end.

#[export] Program Instance ChannelVisibility_enum : StrEnum ChannelVisibility :=
  {| enum_as_str := ChannelVisibility.as_str; enum_from_str := ChannelVisibility.from_str |}.
Next Obligation. solve_str_enum. Qed.
Next Obligation. unfold ChannelVisibility.from_str. solve_str_enum. Qed.

#[export] Program Instance ChannelType_enum : StrEnum ChannelType :=
  {| enum_as_str := ChannelType.as_str; enum_from_str := ChannelType.from_str |}.
Next Obligation. solve_str_enum. Qed.
Next Obligation. unfold ChannelType.from_str. solve_str_enum. Qed.

#[export] Program Instance MemberRole_enum : StrEnum MemberRole :=
  {| enum_as_str := MemberRole.as_str; enum_from_str := MemberRole.from_str |}.
Next Obligation. solve_str_enum. Qed.
Next Obligation. unfold MemberRole.from_str. solve_str_enum. Qed.

(** Two values that print alike are equal. *)
Lemma enum_as_str_inj {A} `{StrEnum A} (a b : A) :
  enum_as_str a = enum_as_str b -> a = b.
Proof.
  intros Hab. pose proof (enum_from_as_str a) as Ha. rewrite Hab in Ha.
  rewrite enum_from_as_str in Ha. by injection Ha.
Qed.

Lemma has_at_least_true r required :
  MemberRole.has_at_least r required = true <->
  (MemberRole.permission_level required <= MemberRole.permission_level r)%Z.
Proof. apply bool_decide_eq_true. Qed.

Lemma permission_level_inj r1 r2 :
  MemberRole.permission_level r1 = MemberRole.permission_level r2 -> r1 = r2.
Proof. by destruct r1, r2. Qed.

#[export] Hint Rewrite has_at_least_true : buzz.
