(* ===== verification/GitPerms.v ===== *)
(** * Git push policy ([crates/buzz-core/src/git_perms.rs])

    Ref patterns, [buzz-protect] protection rules and the evaluation of a push.
    [unreachable!()] in the matcher is [None], so every definition that matches a
    pattern returns an [option]; the theorems show that parsed rules never reach
    it.  Error messages are the source's, except that a quoted ([{:?}]) argument
    is kept as the constructor's payload. *)

From S2P Require Import Prelude Channel.

Definition MAX_PROTECTION_RULES : nat := 50.
Definition MAX_PATTERN_LENGTH : nat := 256.
Definition MAX_WILDCARDS_PER_PATTERN : nat := 3.

Inductive PatternSegment :=
| Literal (lit : string)
| Wildcard
| RecursiveWildcard.

#[export] Instance PatternSegment_eq_dec : EqDecision PatternSegment.
Proof. solve_decision. Defined.

Record RefPattern := { raw : string; segments : list PatternSegment }.

#[export] Instance RefPattern_eq_dec : EqDecision RefPattern.
Proof. solve_decision. Defined.

Inductive PatternError :=
| Empty
| TooLong
| MissingRefsPrefix
| InvalidSegment (s : string)
| TooManyWildcards.

(** The character test of a literal segment. *)
Definition literal_byte (c : Ascii.ascii) : bool :=
  is_ascii_alphanumeric c || bool_decide (c = "."%char)
  || bool_decide (c = "_"%char) || bool_decide (c = "-"%char).

(** The body of the loop over [pattern.split('/')], at index [i] of [n]. *)
Definition parse_segment (n : nat) (st : list PatternSegment * nat) (ipart : nat * string) :
    Result (list PatternSegment * nat) PatternError :=
  let '(segments, wildcard_count) := st in
  let '(i, part) := ipart in
  if decide (part = "**") then
    if decide (i <> n - 1) then Err (InvalidSegment "** must be the last segment")
    else if decide (MAX_WILDCARDS_PER_PATTERN < S wildcard_count) then Err TooManyWildcards
    else Ok (segments ++ [RecursiveWildcard], S wildcard_count)
  else if decide (part = "*") then
    if decide (MAX_WILDCARDS_PER_PATTERN < S wildcard_count) then Err TooManyWildcards
    else Ok (segments ++ [Wildcard], S wildcard_count)
  else if decide (part = "") then Err (InvalidSegment "")
  else if contains_byte "*" part || contains_byte "?" part
          || contains_byte "[" part || contains_byte "]" part
  then Err (InvalidSegment part)
  else if negb (all_bytes literal_byte part) then Err (InvalidSegment part)
  else Ok (segments ++ [Literal part], wildcard_count).

Definition enumerate {A} (l : list A) : list (nat * A) := zip (seq 0 (length l)) l.

(** [RefPattern::parse] *)
Definition parse (pattern : string) : Result RefPattern PatternError :=
  if decide (pattern = "") then Err Empty
  else if decide (MAX_PATTERN_LENGTH < String.length pattern) then Err TooLong
  else if negb (starts_with pattern "refs/") then Err MissingRefsPrefix
  else
    let parts := split_on "/" pattern in
    let? (segments, _) :=
      fold_result (parse_segment (length parts)) ([], 0) (enumerate parts) in
    Ok {| raw := pattern; segments := segments |}.

(** [zip(..).all(..)] with the closure of [matches]; [None] is [unreachable!()]. *)
Fixpoint segments_all (pats : list PatternSegment) (segs : list string) : option bool :=
  match pats, segs with
  | pat :: pats, seg :: segs =>
      match pat with
      | Wildcard => segments_all pats segs
      | Literal lit => if decide (lit = seg) then segments_all pats segs else Some false
      | RecursiveWildcard => None
      end
  | _, _ => Some true
  end.

(** [RefPattern::matches] *)
Definition matches (p : RefPattern) (ref_name : string) : option bool :=
  let ref_segments := split_on "/" ref_name in
  match last (segments p) with
  | Some RecursiveWildcard =>
      let prefix_len := length (segments p) - 1 in
      if decide (length ref_segments <= prefix_len) then Some false
      else segments_all (take prefix_len (segments p)) (take prefix_len ref_segments)
  | _ =>
      if decide (length ref_segments <> length (segments p)) then Some false
      else segments_all (segments p) ref_segments
  end.

Inductive UpdateKind := Create | FastForward | NonFastForward | Delete.

#[export] Instance UpdateKind_eq_dec : EqDecision UpdateKind.
Proof. solve_decision. Defined.

Definition ZERO_OID : string := "0000000000000000000000000000000000000000".

(** [UpdateKind::classify] *)
Definition classify (old_oid new_oid : string) (is_ancestor : bool) : UpdateKind :=
  if decide (old_oid = ZERO_OID) then Create
  else if decide (new_oid = ZERO_OID) then Delete
  else if is_ancestor then FastForward
  else NonFastForward.

Record RefUpdate := {
  ref_name : string;
  kind : UpdateKind;
  old_oid : string;
  new_oid : string;
}.

Record ProtectionRule := {
  pattern : RefPattern;
  push_role : option MemberRole;
  no_force_push : bool;
  no_delete : bool;
  require_patch : bool;
}.

Inductive RuleParseError :=
| TooFewValues
| TooManyRules
| InvalidPattern (e : PatternError)
| UnknownRule (s : string)
| InvalidRole (s : string).

(** The strictest of the role seen so far and a new one. *)
Definition stricter_role (push_role : option MemberRole) (role : MemberRole) : option MemberRole :=
  Some match push_role with
       | None => role
       | Some existing =>
           if decide (MemberRole.permission_level existing < MemberRole.permission_level role)%Z
           then role else existing
       end.

(** The loop state of [parse_protection_tag_with_warnings]. *)
Record RuleFlags := {
  f_push_role : option MemberRole;
  f_no_force_push : bool;
  f_no_delete : bool;
  f_require_patch : bool;
  f_unknown_rules : list string;
}.

Definition parse_rule_str (st : RuleFlags) (rule_str : string) : Result RuleFlags RuleParseError :=
  match strip_prefix rule_str "push:" with
  | Some role_str =>
      let? role := map_err (fun _ => InvalidRole role_str) (MemberRole.from_str role_str) in
      if decide (role = Bot \/ role = Guest) then Err (InvalidRole role_str)
      else Ok {| f_push_role := stricter_role (f_push_role st) role;
                 f_no_force_push := f_no_force_push st; f_no_delete := f_no_delete st;
                 f_require_patch := f_require_patch st; f_unknown_rules := f_unknown_rules st |}
  | None =>
      Ok (if decide (rule_str = "no-force-push") then
            {| f_push_role := f_push_role st; f_no_force_push := true;
               f_no_delete := f_no_delete st; f_require_patch := f_require_patch st;
               f_unknown_rules := f_unknown_rules st |}
          else if decide (rule_str = "no-delete") then
            {| f_push_role := f_push_role st; f_no_force_push := f_no_force_push st;
               f_no_delete := true; f_require_patch := f_require_patch st;
               f_unknown_rules := f_unknown_rules st |}
          else if decide (rule_str = "require-patch") then
            {| f_push_role := f_push_role st; f_no_force_push := f_no_force_push st;
               f_no_delete := f_no_delete st; f_require_patch := true;
               f_unknown_rules := f_unknown_rules st |}
          else
            {| f_push_role := f_push_role st; f_no_force_push := f_no_force_push st;
               f_no_delete := f_no_delete st; f_require_patch := f_require_patch st;
               f_unknown_rules := f_unknown_rules st ++ [rule_str] |})
  end.

Definition parse_protection_tag_with_warnings (values : list string) :
    Result (ProtectionRule * list string) RuleParseError :=
  match values with
  | value0 :: ((_ :: _) as rule_strs) =>
      let? pattern := map_err InvalidPattern (parse value0) in
      let? st := fold_result parse_rule_str
                   {| f_push_role := None; f_no_force_push := false; f_no_delete := false;
                      f_require_patch := false; f_unknown_rules := [] |} rule_strs in
      Ok ({| pattern := pattern; push_role := f_push_role st;
             no_force_push := f_no_force_push st; no_delete := f_no_delete st;
             require_patch := f_require_patch st |}, f_unknown_rules st)
  | _ => Err TooFewValues
  end.

Definition parse_protection_tag (values : list string) : Result ProtectionRule RuleParseError :=
  let? (rule, _) := parse_protection_tag_with_warnings values in Ok rule.

Record ParsedProtection := { rules : list ProtectionRule; unknown_rules : list string }.

(** One iteration over the tags of the announcement. *)
Definition parse_protection_step (acc : ParsedProtection) (tag : list string) :
    Result ParsedProtection RuleParseError :=
  match tag with
  | [] => Ok acc
  | name :: values =>
      if decide (name <> "buzz-protect") then Ok acc
      else if decide (MAX_PROTECTION_RULES <= length (rules acc)) then Err TooManyRules
      else
        let? (rule, unknowns) := parse_protection_tag_with_warnings values in
        Ok {| rules := rules acc ++ [rule]; unknown_rules := unknown_rules acc ++ unknowns |}
  end.

Definition parse_protection_tags (tags : list (list string)) :
    Result ParsedProtection RuleParseError :=
  fold_result parse_protection_step {| rules := []; unknown_rules := [] |} tags.

(** ** Evaluation *)

Definition default_min_role (ref_name : string) (kind : UpdateKind) : MemberRole :=
  let is_branch := starts_with ref_name "refs/heads/" in
  let is_tag := starts_with ref_name "refs/tags/" in
  match kind with
  | Create => if is_branch || is_tag then Member else Admin
  | FastForward => if is_branch then Member else if is_tag then Admin else Admin
  | NonFastForward => Admin
  | Delete => Admin
  end.

Record EffectiveRules := {
  e_push_role : option MemberRole;
  e_no_force_push : bool;
  e_no_delete : bool;
  e_require_patch : bool;
  has_explicit_match : bool;
}.

(** One iteration of [EffectiveRules::for_ref]. *)
Definition for_ref_step (ref_name : string) (e : EffectiveRules) (rule : ProtectionRule) :
    option EffectiveRules :=
  m ← matches (pattern rule) ref_name;
  if negb m then Some e
  else Some {|
    e_push_role := match push_role rule with
                   | Some role => stricter_role (e_push_role e) role
                   | None => e_push_role e
                   end;
    e_no_force_push := e_no_force_push e || no_force_push rule;
    e_no_delete := e_no_delete e || no_delete rule;
    e_require_patch := e_require_patch e || require_patch rule;
    has_explicit_match := true |}.

Fixpoint for_ref_loop (ref_name : string) (e : EffectiveRules) (rules : list ProtectionRule) :
    option EffectiveRules :=
  match rules with
  | [] => Some e
  | rule :: rules => e' ← for_ref_step ref_name e rule; for_ref_loop ref_name e' rules
  end.

Definition for_ref (ref_name : string) (rules : list ProtectionRule) : option EffectiveRules :=
  for_ref_loop ref_name
    {| e_push_role := None; e_no_force_push := false; e_no_delete := false;
       e_require_patch := false; has_explicit_match := false |} rules.

Record Denial := { denied_ref : string; reason : string }.

(** The decision of [evaluate_ref_update] once the effective rules are known. *)
Definition decide_ref_update (update : RefUpdate) (role : MemberRole) (effective : EffectiveRules) :
    Result unit Denial :=
  let deny reason := Err {| denied_ref := ref_name update; reason := reason |} in
  if negb (has_explicit_match effective) then
    let min_role := default_min_role (ref_name update) (kind update) in
    if negb (MemberRole.has_at_least role min_role) then
      deny ("requires " ++ MemberRole.as_str min_role ++ " role (you have "
              ++ MemberRole.as_str role ++ "), using built-in defaults")%string
    else Ok tt
  else if e_require_patch effective then
    deny "direct push denied: require-patch is set, submit a NIP-34 patch"
  else
    let default_role := default_min_role (ref_name update) (kind update) in
    let min_role :=
      match e_push_role effective with
      | Some explicit =>
          if decide (MemberRole.permission_level default_role
                       <= MemberRole.permission_level explicit)%Z
          then explicit else default_role
      | None => default_role
      end in
    if negb (MemberRole.has_at_least role min_role) then
      deny ("requires " ++ MemberRole.as_str min_role ++ " role (you have "
              ++ MemberRole.as_str role ++ ")")%string
    else if e_no_force_push effective && bool_decide (kind update = NonFastForward) then
      deny "non-fast-forward update denied: no-force-push is set"
    else if e_no_delete effective && bool_decide (kind update = Delete) then
      deny "ref deletion denied: no-delete is set"
    else Ok tt.

Definition evaluate_ref_update (update : RefUpdate) (role : MemberRole)
    (rules : list ProtectionRule) : option (Result unit Denial) :=
  effective ← for_ref (ref_name update) rules;
  Some (decide_ref_update update role effective).

(** The denials of the updates, in order: [filter_map(|u| evaluate(u).err())]. *)
Fixpoint collect_denials (updates : list RefUpdate) (role : MemberRole)
    (rules : list ProtectionRule) : option (list Denial) :=
  match updates with
  | [] => Some []
  | update :: updates =>
      r ← evaluate_ref_update update role rules;
      ds ← collect_denials updates role rules;
      Some (match result_err r with Some d => d :: ds | None => ds end)
  end.

Definition evaluate_push (updates : list RefUpdate) (role : MemberRole)
    (rules : list ProtectionRule) : option (Result unit (list Denial)) :=
  denials ← collect_denials updates role rules;
  Some (if decide (denials = []) then Ok tt else Err denials).

(** ** Specifications *)

(** The segments a pattern may be made of, read declaratively. *)
Inductive segment_denotes : string -> PatternSegment -> Prop :=
| denotes_recursive : segment_denotes "**" RecursiveWildcard
| denotes_wildcard : segment_denotes "*" Wildcard
| denotes_literal s : s <> "" -> all_bytes literal_byte s = true -> segment_denotes s (Literal s).

Definition is_wildcard (s : PatternSegment) : bool :=
  match s with
  | Literal _ => false
  | _ => true
  end.

Definition wildcards (segs : list PatternSegment) : nat :=
  length (filter (fun s => is_wildcard s = true) segs).

(** [**] occurs at the end only. *)
Definition recursive_only_last (segs : list PatternSegment) : Prop :=
  forall pre post, segs = pre ++ RecursiveWildcard :: post -> post = [].

Record pattern_grammar (s : string) (segs : list PatternSegment) : Prop := {
  grammar_nonempty : s <> "";
  grammar_length : String.length s <= MAX_PATTERN_LENGTH;
  grammar_prefix : starts_with s "refs/" = true;
  grammar_segments : Forall2 segment_denotes (split_on "/" s) segs;
  grammar_recursive : recursive_only_last segs;
  grammar_wildcards : wildcards segs <= MAX_WILDCARDS_PER_PATTERN;
}.

(** Which refs a pattern covers. *)
Inductive segments_match : list PatternSegment -> list string -> Prop :=
| match_nil : segments_match [] []
| match_literal l ps ss : segments_match ps ss -> segments_match (Literal l :: ps) (l :: ss)
| match_wildcard s ps ss : segments_match ps ss -> segments_match (Wildcard :: ps) (s :: ss)
| match_recursive s ss : segments_match [RecursiveWildcard] (s :: ss).

Definition covers (p : RefPattern) (ref_name : string) : Prop :=
  segments_match (segments p) (split_on "/" ref_name).

(** Rules that came out of the parser. *)
Definition parsed_rule (r : ProtectionRule) : Prop :=
  recursive_only_last (segments (pattern r)).

(** The policy, declaratively: the built-in default always holds, and every rule
    covering the ref holds. *)
Definition rule_allows (u : RefUpdate) (role : MemberRole) (r : ProtectionRule) : Prop :=
  require_patch r = false /\
  (forall pr, push_role r = Some pr ->
     (MemberRole.permission_level pr <= MemberRole.permission_level role)%Z) /\
  (no_force_push r = true -> kind u <> NonFastForward) /\
  (no_delete r = true -> kind u <> Delete).

Definition policy_allows (u : RefUpdate) (role : MemberRole) (rs : list ProtectionRule) : Prop :=
  (MemberRole.permission_level (default_min_role (ref_name u) (kind u))
     <= MemberRole.permission_level role)%Z /\
  forall r, r ∈ rs -> covers (pattern r) (ref_name u) -> rule_allows u role r.

(** ** The parser *)

Lemma literal_no_meta c s :
  literal_byte c = false -> all_bytes literal_byte s = true -> contains_byte c s = false.
Proof.
  intros Hc Hs. unfold contains_byte. apply negb_false_iff.
  eapply all_bytes_impl; [|exact Hs]. intros a Ha. apply bool_decide_eq_true. congruence.
Qed.

Definition wildcard_count (seg : PatternSegment) : nat := if is_wildcard seg then 1 else 0.

Lemma wildcards_cons seg segs : wildcards (seg :: segs) = wildcard_count seg + wildcards segs.
Proof. unfold wildcards, wildcard_count. rewrite filter_cons. by destruct (is_wildcard seg). Qed.

Lemma parse_segment_ok n acc w i part st' :
  parse_segment n (acc, w) (i, part) = Ok st' <->
  exists seg, segment_denotes part seg /\ (seg = RecursiveWildcard -> i = n - 1) /\
    (is_wildcard seg = true -> w + 1 <= MAX_WILDCARDS_PER_PATTERN) /\
    st' = (acc ++ [seg], w + wildcard_count seg).
Proof.
  unfold parse_segment, wildcard_count. split.
  - intros H. repeat case_decide; subst; try discriminate.
    + injection H as <-. exists RecursiveWildcard. simpl.
      split_and!; [constructor|intros _; lia|intros _; lia|f_equal; lia].
    + injection H as <-. exists Wildcard. simpl.
      split_and!; [constructor|done|intros _; lia|f_equal; lia].
    + destruct (_ || _); [discriminate|].
      destruct (all_bytes literal_byte part) eqn:Hb; simpl in H; [|discriminate].
      injection H as <-. exists (Literal part). simpl.
      split_and!; [by constructor|done|done|f_equal; lia].
  - intros (seg & Hd & Hr & Hw & ->). destruct Hd as [| |s Hne Hb]; simpl.
    + specialize (Hr eq_refl). specialize (Hw eq_refl).
      rewrite !decide_False by lia. do 2 f_equal; lia.
    + specialize (Hw eq_refl). rewrite decide_False by lia. do 2 f_equal; lia.
    + rewrite !decide_False by (try done; intros ->; discriminate Hb).
      rewrite !literal_no_meta by done. simpl. rewrite Hb. simpl. do 2 f_equal; lia.
Qed.

Lemma recursive_only_last_cons seg segs :
  recursive_only_last (seg :: segs) <->
  (seg = RecursiveWildcard -> segs = []) /\ recursive_only_last segs.
Proof.
  unfold recursive_only_last. split.
  - intros H. split; [intros ->; by apply (H [])|].
    intros pre post ->. by apply (H (seg :: pre)).
  - intros [H1 H2] [|x pre] post; simpl; intros [= -> ->]; [by apply H1|by eapply H2].
Qed.

Lemma recursive_only_last_nil : recursive_only_last [].
Proof. intros [|] ? ?; discriminate. Qed.

#[local] Hint Resolve recursive_only_last_nil : core.

Lemma parse_loop_ok n parts k acc w segs w' :
  k + length parts = n -> w <= MAX_WILDCARDS_PER_PATTERN ->
  fold_result (parse_segment n) (acc, w) (zip (seq k (length parts)) parts) = Ok (segs, w') <->
  exists new, segs = acc ++ new /\ Forall2 segment_denotes parts new /\
    recursive_only_last new /\ w' = w + wildcards new /\ w' <= MAX_WILDCARDS_PER_PATTERN.
Proof.
  revert k acc w. induction parts as [|part parts IH]; intros k acc w Hk Hw.
  - simpl. split.
    + intros [= <- <-]. exists []. rewrite app_nil_r. unfold wildcards; simpl.
      repeat split; auto; lia.
    + intros (new & -> & HF & _ & -> & _). apply Forall2_nil_inv_l in HF as ->.
      rewrite app_nil_r. unfold wildcards; simpl. by rewrite Nat.add_0_r.
  - cbn [length seq zip zip_with fold_result]. simpl in Hk. rewrite result_bind_ok.
    setoid_rewrite parse_segment_ok. split.
    + intros (st & (seg & Hd & Hr & Hwc & ->) & Hloop).
      assert (Hle : w + wildcard_count seg <= MAX_WILDCARDS_PER_PATTERN).
      { unfold wildcard_count. destruct (is_wildcard seg); [by apply Hwc|lia]. }
      apply IH in Hloop as (new & -> & HF & Hrec & -> & Hle'); [|lia|done].
      exists (seg :: new). rewrite <-app_assoc, wildcards_cons. repeat split; [by constructor| |lia|lia].
      apply recursive_only_last_cons. split; [|done]. intros ->.
      specialize (Hr eq_refl). destruct parts; simpl in *; [by apply Forall2_nil_inv_l in HF|lia].
    + intros (new & -> & HF & Hrec & -> & Hle).
      apply Forall2_cons_inv_l in HF as (seg & new' & Hd & HF & ->).
      apply recursive_only_last_cons in Hrec as [Hlast Hrec]. rewrite wildcards_cons in *.
      eexists. split; [exists seg; repeat split; [done|..]|].
      * intros ->. rewrite (Hlast eq_refl) in HF. apply Forall2_nil_inv_r in HF as ->.
        simpl in *. lia.
      * unfold wildcard_count in *. intros Hwc. rewrite Hwc in Hle. lia.
      * apply IH; [lia|unfold wildcard_count in *; lia|].
        exists new'. rewrite <-app_assoc. repeat split; try done; lia.
Qed.

Lemma parse_ok s p :
  parse s = Ok p <-> raw p = s /\ pattern_grammar s (segments p).
Proof.
  unfold parse. split.
  - intros H. repeat case_decide; try discriminate.
    destruct (starts_with s "refs/") eqn:Hp; [|discriminate]. simpl in H.
    apply result_bind_ok in H as ((segs & w) & Hloop & [= <-]). simpl.
    unfold enumerate in Hloop.
    apply parse_loop_ok in Hloop as (new & -> & HF & Hrec & -> & Hle); [|lia|unfold MAX_WILDCARDS_PER_PATTERN; lia].
    split; [done|]. split; try done; lia.
  - intros [<- [Hne Hlen Hp HF Hrec Hw]].
    rewrite decide_False, decide_False, Hp by (done || lia). simpl.
    apply result_bind_ok. exists (segments p, wildcards (segments p)).
    split; [|by destruct p]. unfold enumerate.
    apply parse_loop_ok; [lia|unfold MAX_WILDCARDS_PER_PATTERN; lia|].
    exists (segments p). by repeat split.
Qed.

(** ** The matcher *)

Definition no_recursive (pats : list PatternSegment) : Prop :=
  Forall (fun s => s <> RecursiveWildcard) pats.

Lemma segments_all_total pats segs :
  no_recursive pats -> exists b, segments_all pats segs = Some b.
Proof.
  intros Hp. revert segs. induction Hp as [|pat pats Hne Hp IH]; intros [|seg segs]; simpl; eauto.
  destruct pat; try done; try case_decide; eauto.
Qed.

Lemma segments_all_match pats segs :
  no_recursive pats -> length pats = length segs ->
  segments_all pats segs = Some true <-> segments_match pats segs.
Proof.
  intros Hp. revert segs. induction Hp as [|pat pats Hne Hp IH]; intros [|seg segs]; simpl;
    intros Hlen; try lia; [split; [constructor|done]|].
  destruct pat as [l| |]; try done.
  - case_decide; subst.
    + rewrite IH by lia. split; [by constructor|by inversion 1].
    + split; [done|]. inversion 1; congruence.
  - rewrite IH by lia. split; [by constructor|by inversion 1].
Qed.

Lemma segments_match_length pats segs :
  no_recursive pats -> segments_match pats segs -> length pats = length segs.
Proof.
  intros Hp Hm. induction Hm; inversion_clear Hp; simpl; try done; by rewrite IHHm.
Qed.

Lemma segments_match_recursive pre segs :
  no_recursive pre ->
  segments_match (pre ++ [RecursiveWildcard]) segs <->
  length pre < length segs /\ segments_match pre (take (length pre) segs).
Proof.
  intros Hp. revert segs. induction Hp as [|pat pre Hne Hp IH]; intros segs; simpl.
  - split; [inversion 1; subst; simpl; split; [lia|constructor]|].
    intros [Hlen _]. destruct segs; [simpl in Hlen; lia|constructor].
  - destruct segs as [|s segs]; [split; [destruct pat; by inversion 1|simpl; lia]|]. simpl.
    split.
    + intros Hm. destruct pat; try done; inversion Hm as [| ? ? ? Hm'| ? ? ? Hm'|]; subst;
        apply IH in Hm' as [? ?]; (split; [lia|by constructor]).
    + intros [Hlen Hm]. destruct pat; try done;
        inversion Hm as [| ? ? ? Hm'| ? ? ? Hm'|]; subst; constructor; apply IH; split; (lia || done).
Qed.

Lemma recursive_only_last_snoc segs :
  recursive_only_last segs ->
  no_recursive segs \/ exists pre, segs = pre ++ [RecursiveWildcard] /\ no_recursive pre.
Proof.
  induction segs as [|seg segs IH]; intros H; [left; constructor|].
  apply recursive_only_last_cons in H as [Hlast Hrec].
  destruct (decide (seg = RecursiveWildcard)) as [->|Hne].
  - rewrite (Hlast eq_refl). right. exists []. split; [done|constructor].
  - destruct (IH Hrec) as [Hno|(pre & -> & Hno)]; [left; by constructor|].
    right. exists (seg :: pre). split; [done|by constructor].
Qed.

Lemma matches_spec p r :
  recursive_only_last (segments p) ->
  exists b, matches p r = Some b /\ (b = true <-> covers p r).
Proof.
  intros [Hno|(pre & Hseg & Hno)]%recursive_only_last_snoc; unfold matches, covers.
  - assert (Hlast : forall T (x y : T), match last (segments p) with
              | Some RecursiveWildcard => x | _ => y end = y).
    { intros. destruct (last (segments p)) as [[]|] eqn:Hl; try done.
      apply last_Some_elem_of in Hl. by eapply Forall_forall in Hno. }
    rewrite Hlast. case_decide as Hlen.
    + exists false. split; [done|]. split; [done|].
      intros ?%segments_match_length; [|done]. lia.
    + destruct (segments_all_total (segments p) (split_on "/" r) Hno) as [b Hb].
      exists b. split; [done|]. rewrite <-segments_all_match, Hb by (done || lia). naive_solver.
  - rewrite Hseg, last_snoc, length_app.
    replace (length pre + length [RecursiveWildcard] - 1) with (length pre) by (simpl; lia).
    rewrite take_app_length. setoid_rewrite (segments_match_recursive pre _ Hno).
    case_decide as Hlen.
    + exists false. split; [done|]. split; [done|lia].
    + destruct (segments_all_total pre (take (length pre) (split_on "/" r)) Hno) as [b Hb].
      exists b. split; [done|].
      rewrite <-segments_all_match, Hb by (done || rewrite length_take; lia). naive_solver lia.
Qed.

(** ** Effective rules *)

Definition matched_role_bound (o : option MemberRole) (level : Z) : Prop :=
  forall r, o = Some r -> (MemberRole.permission_level r <= level)%Z.

Lemma stricter_role_bound o r level :
  matched_role_bound (stricter_role o r) level <->
  matched_role_bound o level /\ (MemberRole.permission_level r <= level)%Z.
Proof.
  unfold matched_role_bound, stricter_role. split.
  - intros H. specialize (H _ eq_refl). destruct o as [e|]; [|by split].
    case_decide; split; try lia; intros ? [= ->]; lia.
  - intros [Ho Hr] x [= <-]. destruct o as [e|]; [|done].
    specialize (Ho e eq_refl). by case_decide.
Qed.

(** What the loop has accumulated, against the rules it has seen. *)
Definition effective_of (u : RefUpdate) (role : MemberRole) (e : EffectiveRules) : Prop :=
  matched_role_bound (e_push_role e) (MemberRole.permission_level role) /\
  e_require_patch e = false /\
  (e_no_force_push e = true -> kind u <> NonFastForward) /\
  (e_no_delete e = true -> kind u <> Delete).

Lemma for_ref_step_allows u role e rule :
  parsed_rule rule ->
  exists e', for_ref_step (ref_name u) e rule = Some e' /\
    (effective_of u role e' <->
       effective_of u role e /\ (covers (pattern rule) (ref_name u) -> rule_allows u role rule)) /\
    (has_explicit_match e' = true <->
       has_explicit_match e = true \/ covers (pattern rule) (ref_name u)).
Proof.
  intros Hwf. destruct (matches_spec (pattern rule) (ref_name u) Hwf) as (b & Hb & Hcov).
  unfold for_ref_step. rewrite Hb. simpl. destruct b; simpl.
  - eexists. split; [done|]. simpl. split; [|naive_solver].
    unfold effective_of, rule_allows. simpl.
    rewrite !orb_true_iff, orb_false_iff.
    destruct (push_role rule) as [pr|]; rewrite ?stricter_role_bound;
      [|destruct (require_patch rule); intuition congruence].
    assert (Hpr : (forall pr0, Some pr = Some pr0 ->
        (MemberRole.permission_level pr0 <= MemberRole.permission_level role)%Z) <->
      (MemberRole.permission_level pr <= MemberRole.permission_level role)%Z) by naive_solver.
    rewrite Hpr. clear Hpr Hb. destruct (require_patch rule); intuition congruence.
  - exists e. split; [done|]. intuition congruence.
Qed.

Lemma for_ref_loop_allows u role rs e :
  Forall parsed_rule rs ->
  exists e', for_ref_loop (ref_name u) e rs = Some e' /\
    (effective_of u role e' <->
       effective_of u role e /\
       forall r, r ∈ rs -> covers (pattern r) (ref_name u) -> rule_allows u role r) /\
    (has_explicit_match e' = true <->
       has_explicit_match e = true \/ exists r, r ∈ rs /\ covers (pattern r) (ref_name u)).
Proof.
  intros Hwf. revert e. induction Hwf as [|rule rs Hrule Hrs IH]; intros e; simpl.
  - exists e. split; [done|]. split; split; [intros; split; [done|set_solver]|tauto|tauto|].
    intros [?|(? & Hin & _)]; [done|set_solver].
  - destruct (for_ref_step_allows u role e rule Hrule) as (e1 & Hs & Ha & Hm).
    destruct (IH e1) as (e2 & Hl & Ha' & Hm'). exists e2. rewrite Hs. split; [done|].
    rewrite Ha', Ha, Hm', Hm. setoid_rewrite elem_of_cons. split.
    + split; [intros [[? ?] ?]; split; [done|]; intros r [->|?]; by auto|].
      intros [? Hall]. split; [split; [done|auto]|auto].
    + split.
      * intros [[?|?]|(r & ? & ?)]; [by left|right; by eauto|right; by eauto].
      * intros [?|(r & [->|?] & ?)]; [by left; left|by left; right|right; by eauto].
Qed.

Lemma default_role_not_guest r k :
  (2 <= MemberRole.permission_level (default_min_role r k))%Z.
Proof. unfold default_min_role. destruct k; repeat case_match; simpl; lia. Qed.

Lemma decide_ref_update_allows u role e :
  (has_explicit_match e = false -> effective_of u role e) ->
  decide_ref_update u role e = Ok tt <->
  (MemberRole.permission_level (default_min_role (ref_name u) (kind u))
     <= MemberRole.permission_level role)%Z /\ effective_of u role e.
Proof.
  unfold decide_ref_update, effective_of, MemberRole.has_at_least. intros Hno.
  destruct (has_explicit_match e); simpl.
  - clear Hno. destruct (e_require_patch e); [naive_solver|].
    destruct (e_push_role e) as [pr|] eqn:Hpr; [case_decide|];
      case_bool_decide; simpl; unfold matched_role_bound;
      try (split; [done|intros (? & Hb & _); try specialize (Hb _ eq_refl); lia]).
    all: match goal with |- _ <-> _ /\ ?b /\ _ =>
           assert (Hb : b) by (intros ? [=]; subst; lia) end.
    all: destruct (e_no_force_push e), (e_no_delete e); simpl; repeat case_bool_decide; simpl;
      intuition (congruence || lia).
  - specialize (Hno eq_refl). case_bool_decide; simpl; naive_solver.
Qed.

(** ** Results *)

(** The protection tags of a repository announcement parse to rules whose patterns
    are well-formed and whose [push] role is one a human can hold. *)
Definition valid_rule (r : ProtectionRule) : Prop :=
  pattern_grammar (raw (pattern r)) (segments (pattern r)) /\
  push_role r <> Some Bot /\ push_role r <> Some Guest.

Lemma valid_rule_parsed r : valid_rule r -> parsed_rule r.
Proof. by intros [[] _]. Qed.

Lemma valid_rules_parsed rs : Forall valid_rule rs -> Forall parsed_rule rs.
Proof. intros H. eapply Forall_impl; [exact H|apply valid_rule_parsed]. Qed.

Lemma evaluate_ref_update_spec rs u role :
  Forall parsed_rule rs ->
  exists r, evaluate_ref_update u role rs = Some r /\
    (r = Ok tt <-> policy_allows u role rs).
Proof.
  intros Hwf.
  destruct (for_ref_loop_allows u role rs
    {| e_push_role := None; e_no_force_push := false; e_no_delete := false;
       e_require_patch := false; has_explicit_match := false |} Hwf) as (e & Hl & Ha & Hm).
  unfold evaluate_ref_update, for_ref. rewrite Hl. simpl. eexists. split; [done|].
  unfold policy_allows. rewrite decide_ref_update_allows, Ha.
  - unfold effective_of at 1. simpl.
    assert (matched_role_bound None (MemberRole.permission_level role)) by (intros ?; done).
    intuition congruence.
  - intros Hno. apply Ha. split; [by unfold effective_of, matched_role_bound|].
    intros r Hr Hc. exfalso.
    assert (has_explicit_match e = true) by (apply Hm; right; by eauto). congruence.
Qed.

(** *** The tag parser *)

Definition flags_ok (st : RuleFlags) : Prop :=
  f_push_role st <> Some Bot /\ f_push_role st <> Some Guest.

Lemma parse_rule_str_ok st s st' : flags_ok st -> parse_rule_str st s = Ok st' -> flags_ok st'.
Proof.
  intros Hst H. unfold parse_rule_str in H. destruct (strip_prefix s "push:") as [rs|].
  - apply result_bind_ok in H as (role & _ & H). case_decide as Hr; [done|].
    injection H as <-. unfold flags_ok, stricter_role in *. simpl.
    destruct (f_push_role st) as [e|]; [case_decide|]; naive_solver.
  - injection H as <-. by repeat case_decide.
Qed.

Lemma parse_tag_valid vs rule us :
  parse_protection_tag_with_warnings vs = Ok (rule, us) -> valid_rule rule.
Proof.
  unfold parse_protection_tag_with_warnings. intros H.
  destruct vs as [|v [|r rs]]; try discriminate.
  apply result_bind_ok in H as (p & Hp%map_err_ok & H).
  apply result_bind_ok in H as (st & Hst & [= <- <-]).
  apply parse_ok in Hp as [Hraw Hg].
  apply (fold_result_inv flags_ok) in Hst; [|done|intros; eapply parse_rule_str_ok; eassumption].
  split; [|exact Hst]. simpl. by rewrite Hraw.
Qed.

Definition is_protect_tag (tag : list string) : bool :=
  match tag with
  | name :: _ => bool_decide (name = "buzz-protect")
  | [] => false
  end.

Definition protect_tags (tags : list (list string)) : nat :=
  length (filter (fun t => is_protect_tag t = true) tags).

Lemma parse_protection_step_ok acc tag acc' :
  parse_protection_step acc tag = Ok acc' ->
  (is_protect_tag tag = false /\ acc' = acc) \/
  (is_protect_tag tag = true /\ length (rules acc) < MAX_PROTECTION_RULES /\
   exists rule us, valid_rule rule /\
     acc' = {| rules := rules acc ++ [rule]; unknown_rules := unknown_rules acc ++ us |}).
Proof.
  unfold parse_protection_step, is_protect_tag.
  destruct tag as [|name values]; [intros [= <-]; by left|].
  case_bool_decide as Hname.
  - rewrite decide_False by tauto. case_decide as Hlen; [done|]. intros H. right.
    apply result_bind_ok in H as ([rule us] & Hr & [= <-]).
    split; [done|]. split; [lia|]. exists rule, us. split; [by eapply parse_tag_valid|done].
  - rewrite decide_True by done. intros [= <-]. by left.
Qed.

Lemma parse_protection_tags_valid tags acc pp :
  Forall valid_rule (rules acc) -> length (rules acc) <= MAX_PROTECTION_RULES ->
  fold_result parse_protection_step acc tags = Ok pp ->
  Forall valid_rule (rules pp) /\ length (rules pp) <= MAX_PROTECTION_RULES /\
  length (rules pp) = length (rules acc) + protect_tags tags.
Proof.
  revert acc. induction tags as [|tag tags IH]; intros acc Hv Hl H.
  - injection H as <-. unfold protect_tags. simpl. repeat split; try done; lia.
  - simpl in H. apply result_bind_ok in H as (acc1 & H1 & H2).
    unfold protect_tags. rewrite filter_cons.
    apply parse_protection_step_ok in H1 as [[-> ->]|(-> & Hlt & rule & us & Hr & ->)].
    + by apply IH.
    + apply IH in H2 as (? & ? & Hlen).
      * simpl in Hlen. rewrite length_app in Hlen. simpl in Hlen.
        repeat split; try done. simpl. fold (protect_tags tags). lia.
      * simpl. apply Forall_app. split; [done|by constructor].
      * simpl. rewrite length_app. simpl. lia.
Qed.

(** *** A whole push *)

Lemma collect_denials_spec us role rs :
  Forall parsed_rule rs ->
  exists ds, collect_denials us role rs = Some ds /\
    (ds = [] <-> forall u, u ∈ us -> policy_allows u role rs) /\
    (forall n, n ∈ denied_ref <$> ds <->
       exists u, u ∈ us /\ ref_name u = n /\ evaluate_ref_update u role rs <> Some (Ok tt)).
Proof.
  intros Hwf. induction us as [|u us (ds & Hds & Hnil & Hmem)]; simpl.
  - exists []. split; [done|]. split; [split; [set_solver|done]|]. set_solver.
  - destruct (evaluate_ref_update_spec rs u role Hwf) as (r & Hr & Hok).
    rewrite Hr, Hds. simpl. eexists. split; [done|].
    assert (Href : forall d, r = Err d -> denied_ref d = ref_name u).
    { intros d ->. unfold evaluate_ref_update in Hr.
      destruct (for_ref (ref_name u) rs); simpl in Hr; [|done]. injection Hr as Hr.
      unfold decide_ref_update in Hr. repeat case_match; by simplify_eq. }
    destruct r as [[]|d]; simpl.
    + rewrite Hnil. split; [setoid_rewrite elem_of_cons; naive_solver|].
      intros n. rewrite Hmem. split; [intros (v & ? & ?); exists v; split; [by right|done]|].
      intros (v & [->|Hv]%elem_of_cons & ? & Hne); [congruence|by exists v].
    + split; [split; [done|]; intros Hall|].
      * assert (Err d = Ok tt) by (apply Hok, Hall; by left). done.
      * intros n. rewrite elem_of_cons, Hmem, (Href d eq_refl). split.
        -- intros [->|(v & ? & ?)]; [exists u; split; [by left|]; split; [done|congruence]|].
           exists v. split; [by right|done].
        -- intros (v & [->|Hv]%elem_of_cons & <- & Hne); [by left|right; by exists v].
Qed.

Lemma policy_allows_weaken u role role' rs rs' :
  (MemberRole.permission_level role <= MemberRole.permission_level role')%Z ->
  (forall r, r ∈ rs' -> r ∈ rs) ->
  policy_allows u role rs -> policy_allows u role' rs'.
Proof.
  intros Hl Hsub [Hd Hr]. split; [lia|]. intros r Hin Hc.
  destruct (Hr r (Hsub r Hin) Hc) as (? & Hp & ?). split_and!; try tauto.
  intros pr Hpr. specialize (Hp pr Hpr). lia.
Qed.

(** ** Properties *)

(** [RefPattern::parse] accepts exactly the grammar: a pattern is returned
    precisely when the string is non-empty, at most 256 bytes, starts with [refs/],
    each of its segments is [*], [**] or a literal over [[A-Za-z0-9._-]], [**]
    comes last and at most three segments are wildcards; the pattern keeps the
    string and its segments, in order. *)
Theorem ref_pattern_parse_grammar s :
  (forall p, parse s = Ok p <-> raw p = s /\ pattern_grammar s (segments p)) /\
  ((exists e, parse s = Err e) <-> ~ exists segs, pattern_grammar s segs).
Proof.
  split; [intros p; apply parse_ok|]. split.
  - intros [e He] [segs Hg].
    assert (parse s = Ok {| raw := s; segments := segs |}) by by apply parse_ok. congruence.
  - intros Hno. destruct (parse s) as [p|e] eqn:Hp; [|by exists e].
    apply parse_ok in Hp as [_ Hg]. by destruct Hno; exists (segments p).
Qed.

(** A parsed pattern never reaches the matcher's [unreachable!], and it matches
    a ref exactly when the ref's segments are covered: literals equal, [*] one
    segment each, a final [**] one or more remaining segments. *)
Theorem parsed_pattern_matches s p ref :
  parse s = Ok p ->
  exists b, matches p ref = Some b /\ (b = true <-> covers p ref).
Proof. intros [_ [? ? ? ? Hrec ?]]%parse_ok. by apply matches_spec. Qed.

Lemma parsed_pattern_matches_witness :
  parse "refs/heads/**" = Ok {| raw := "refs/heads/**";
    segments := [Literal "refs"; Literal "heads"; RecursiveWildcard] |} /\
  exists b, matches {| raw := "refs/heads/**";
    segments := [Literal "refs"; Literal "heads"; RecursiveWildcard] |} "refs/heads/a/b" = Some b /\
    (b = true <-> covers {| raw := "refs/heads/**";
       segments := [Literal "refs"; Literal "heads"; RecursiveWildcard] |} "refs/heads/a/b").
Proof.
  split; [reflexivity|]. apply (parsed_pattern_matches "refs/heads/**"). reflexivity.
Defined.

(** Parsing the tags of a repository announcement keeps one rule per
    [buzz-protect] tag and at most fifty; every rule has a well-formed pattern and
    never demands the [bot] or [guest] role. *)
Theorem parse_protection_tags_sound tags pp :
  parse_protection_tags tags = Ok pp ->
  Forall valid_rule (rules pp) /\ length (rules pp) = protect_tags tags /\
  length (rules pp) <= MAX_PROTECTION_RULES.
Proof.
  intros H. apply parse_protection_tags_valid in H as (? & ? & Hl); simpl in *;
    [|constructor|lia]. split_and!; try done; lia.
Qed.

Definition example_tags : list (list string) :=
  [["d"; "repo"]; ["buzz-protect"; "refs/heads/main"; "push:admin"; "no-force-push"; "typo"];
   ["buzz-protect"; "refs/tags/*"; "no-delete"]].

Definition example_rules : list ProtectionRule :=
  match parse_protection_tags example_tags with
  | Ok pp => rules pp
  | Err _ => []
  end.

Lemma parse_protection_tags_sound_witness :
  parse_protection_tags example_tags =
    Ok {| rules := example_rules; unknown_rules := ["typo"] |} /\
  Forall valid_rule example_rules /\ length example_rules = protect_tags example_tags /\
  length example_rules <= MAX_PROTECTION_RULES.
Proof.
  split; [vm_compute; reflexivity|].
  apply (parse_protection_tags_sound example_tags
    {| rules := example_rules; unknown_rules := ["typo"] |}). vm_compute; reflexivity.
Defined.

(** C1: the evaluation of a ref update against parsed rules always returns, and it
    allows the update exactly when the built-in default role is met and every rule
    covering the ref is: no [require-patch], the [push] role met, no force push
    under [no-force-push], no deletion under [no-delete]. *)
Theorem evaluate_ref_update_policy tags pp u role :
  parse_protection_tags tags = Ok pp ->
  exists r, evaluate_ref_update u role (rules pp) = Some r /\
    (r = Ok tt <-> policy_allows u role (rules pp)).
Proof.
  intros H. apply parse_protection_tags_valid in H as (Hv & _); simpl; [|constructor|lia].
  by apply evaluate_ref_update_spec, valid_rules_parsed.
Qed.

Definition example_update : RefUpdate :=
  {| ref_name := "refs/heads/main"; kind := FastForward; old_oid := "a"; new_oid := "b" |}.

Lemma evaluate_ref_update_policy_witness :
  parse_protection_tags example_tags =
    Ok {| rules := example_rules; unknown_rules := ["typo"] |} /\
  exists r, evaluate_ref_update example_update Member example_rules = Some r /\
    (r = Ok tt <-> policy_allows example_update Member example_rules).
Proof.
  split; [vm_compute; reflexivity|].
  apply (evaluate_ref_update_policy example_tags
    {| rules := example_rules; unknown_rules := ["typo"] |}). vm_compute; reflexivity.
Defined.

(** Protection rules only ever restrict: an update allowed under a set of rules
    stays allowed for a role at least as high under any subset of them (in any
    order), so neither adding a rule nor reordering the tags grants a push. *)
Theorem evaluate_ref_update_antitone u role role' rs rs' :
  Forall valid_rule rs -> Forall valid_rule rs' ->
  (MemberRole.permission_level role <= MemberRole.permission_level role')%Z ->
  (forall r, r ∈ rs' -> r ∈ rs) ->
  evaluate_ref_update u role rs = Some (Ok tt) ->
  evaluate_ref_update u role' rs' = Some (Ok tt).
Proof.
  intros Hv Hv' Hl Hsub H.
  destruct (evaluate_ref_update_spec rs u role) as (r & Hr & Hok); [by apply valid_rules_parsed|].
  destruct (evaluate_ref_update_spec rs' u role') as (r' & Hr' & Hok'); [by apply valid_rules_parsed|].
  rewrite Hr'. f_equal. apply Hok'. eapply policy_allows_weaken; [done..|].
  apply Hok. congruence.
Qed.

Lemma example_rules_valid : Forall valid_rule example_rules.
Proof.
  apply (parse_protection_tags_valid example_tags {| rules := []; unknown_rules := [] |}
    {| rules := example_rules; unknown_rules := ["typo"] |});
    [constructor|simpl; lia|vm_compute; reflexivity].
Qed.

Lemma evaluate_ref_update_antitone_witness :
  evaluate_ref_update example_update Owner [] = Some (Ok tt).
Proof.
  apply (evaluate_ref_update_antitone example_update Admin Owner example_rules []).
  - apply example_rules_valid.
  - constructor.
  - simpl; lia.
  - intros r Hr. inversion Hr.
  - vm_compute; reflexivity.
Defined.

(** A push is atomic: it is accepted exactly when every update is allowed, and
    otherwise the refs it is refused for are exactly those whose update is denied;
    a guest or a bot can push nothing. *)
Theorem evaluate_push_atomic us role rs :
  Forall valid_rule rs ->
  exists r, evaluate_push us role rs = Some r /\
    (r = Ok tt <-> forall u, u ∈ us -> policy_allows u role rs) /\
    (forall ds, r = Err ds -> forall n, n ∈ denied_ref <$> ds <->
       exists u, u ∈ us /\ ref_name u = n /\ evaluate_ref_update u role rs <> Some (Ok tt)) /\
    (role = Guest \/ role = Bot -> us <> [] -> r <> Ok tt).
Proof.
  intros Hv%valid_rules_parsed.
  destruct (collect_denials_spec us role rs Hv) as (ds & Hds & Hnil & Hmem).
  unfold evaluate_push. rewrite Hds. simpl. eexists. split; [done|].
  assert (Hiff : (if decide (ds = []) then Ok tt else Err ds) = Ok tt <->
                 forall u, u ∈ us -> policy_allows u role rs).
  { rewrite <-Hnil. by case_decide. }
  split; [exact Hiff|]. split.
  - intros ds' H. case_decide as Hd; [done|]. injection H as <-. exact Hmem.
  - intros Hrole Hne Hok. destruct us as [|u us]; [done|].
    destruct (proj1 Hiff Hok u) as [Hd _]; [by left|].
    pose proof (default_role_not_guest (ref_name u) (kind u)).
    destruct Hrole as [-> | ->]; simpl in Hd; lia.
Qed.

Lemma evaluate_push_atomic_witness :
  exists r, evaluate_push [example_update] Guest example_rules = Some r /\
    (r = Ok tt <-> forall u, u ∈ [example_update] -> policy_allows u Guest example_rules) /\
    (forall ds, r = Err ds -> forall n, n ∈ denied_ref <$> ds <->
       exists u, u ∈ [example_update] /\ ref_name u = n /\
         evaluate_ref_update u Guest example_rules <> Some (Ok tt)) /\
    (Guest = Guest \/ Guest = Bot -> [example_update] <> [] -> r <> Ok tt).
Proof. apply (evaluate_push_atomic [example_update] Guest example_rules), example_rules_valid. Defined.
