(* ===== verification/Nostr.v ===== *)
(** * Events and filter matching ([crates/buzz-core/src/event.rs], [filter.rs])

    [nostr] is a third-party crate: its event and filter structs are records of the
    public fields the code reads, and its functions are the operations of [NostrApi].
    An ordered set ([BTreeSet], [BTreeMap]) is the list of its elements in iteration
    order; timestamps, kinds, public keys and UUIDs are numbers, the code only
    compares them. *)

From S2P Require Import Prelude.

Definition Kind := N.
Definition Uuid := N.
Definition PublicKey := N.
Definition CommunityId := Uuid.

(** A tag is the array of strings of the protocol; a single-letter tag name is its
    letter. *)
Definition Tag := list string.
Definition SingleLetterTag := Ascii.ascii.

(** The operations of the [nostr] and [uuid] crates the relay calls. *)
Class NostrApi := {
  EventId : Type;
  EventId_eq_dec :: EqDecision EventId;
  event_id_to_hex : EventId -> string;
  uuid_to_string : Uuid -> string;
  letter_to_string : SingleLetterTag -> string;
  (** [tag.kind().to_string()] *)
  tag_kind : Tag -> string;
  (** [tag.content()] *)
  tag_content : Tag -> option string;
}.

(** Their documented behaviour: an event id prints as the 64 hexadecimal digits of its
    32 bytes, a single-letter tag name as its letter. *)
Class NostrLaws `{NostrApi} := {
  event_id_hex_length : forall i, String.length (event_id_to_hex i) = 64;
  event_id_hex_inj : Inj (=) (=) event_id_to_hex;
  letter_to_string_p : letter_to_string "p"%char = "p";
  letter_to_string_h : letter_to_string "h"%char = "h";
}.
#[export] Existing Instance event_id_hex_inj.

(** [Uuid::as_bytes] and [Uuid::from_bytes]. *)
Class UuidBytes := {
  uuid_as_bytes : Uuid -> Bytes;
  uuid_from_bytes : Bytes -> Uuid;
}.

(** A UUID is 128 bits, big-endian in its 16 bytes. *)
Class UuidBytesLaws `{UuidBytes} := {
  length_uuid_as_bytes u : length (uuid_as_bytes u) = 16;
  uuid_as_bytes_range u : Forall (fun b => (b < 256)%N) (uuid_as_bytes u);
  uuid_from_as_bytes u : (u < 2 ^ 128)%N -> uuid_from_bytes (uuid_as_bytes u) = u;
  uuid_as_from_bytes bs :
    length bs = 16 -> Forall (fun b => (b < 256)%N) bs -> uuid_as_bytes (uuid_from_bytes bs) = bs;
}.

Record Event `{NostrApi} := {
  id : EventId;
  pubkey : PublicKey;
  created_at : N;
  kind : Kind;
  tags : list Tag;
  content : string;
  sig : string;
}.

Record Filter `{NostrApi} := {
  f_ids : option (list EventId);
  f_authors : option (list PublicKey);
  f_kinds : option (list Kind);
  f_since : option N;
  f_until : option N;
  f_generic_tags : list (SingleLetterTag * list string);
}.

Record StoredEvent `{NostrApi} := {
  event : Event;
  received_at : Z;
  channel_id : option Uuid;
  verified : bool;
}.

(** Kinds whose content belongs to one viewer ([kind.rs]). *)
Definition KIND_DM_VISIBILITY : Kind := 30622%N.
Definition KIND_AGENT_TURN_METRIC : Kind := 44200%N.

Section filter.
Context `{NostrApi}.

(** [StoredEvent::new] at wall-clock time [now], and [with_received_at] *)
Definition StoredEvent_new (now : Z) (ev : Event) (ch : option Uuid) : StoredEvent :=
  {| event := ev; received_at := now; channel_id := ch; verified := false |}.

Definition with_received_at (ev : Event) (at_ : Z) (ch : option Uuid) (v : bool) : StoredEvent :=
  {| event := ev; received_at := at_; channel_id := ch; verified := v |}.

(** [generic_tags.get(&tag)] *)
Fixpoint generic_tags_get (t : SingleLetterTag) (l : list (SingleLetterTag * list string)) :
    option (list string) :=
  match l with
  | [] => None
  | (t', vs) :: l => if decide (t' = t) then Some vs else generic_tags_get t l
  end.

(** [opt.map_or(true, f)]: an absent constraint admits everything. *)
Definition admits {A} (o : option A) (f : A -> bool) : bool :=
  match o with
  | None => true
  | Some a => f a
  end.

(** The event carries a tag named [key] with value [v]. *)
Definition event_has_tag (ev : Event) (key v : string) : bool :=
  existsb (fun t => bool_decide (tag_kind t = key) && bool_decide (tag_content t = Some v))
    (tags ev).

(** One iteration of the loop over the generic tags; [false] is its [return false]. *)
Definition generic_tag_ok (ev : StoredEvent) (kv : SingleLetterTag * list string) : bool :=
  let '(tag_key, tag_values) := kv in
  let tag_key_str := letter_to_string tag_key in
  let has_match := existsb (event_has_tag (event ev) tag_key_str) tag_values in
  if negb has_match && bool_decide (tag_key_str = "h") then
    if negb (existsb (fun t => bool_decide (tag_kind t = "h")) (tags (event ev))) then
      match channel_id ev with
      | Some ch_id => existsb (fun v => bool_decide (v = uuid_to_string ch_id)) tag_values
      | None => false
      end
    else false
  else has_match.

Definition filter_match_one (f : Filter) (ev : StoredEvent) : bool :=
  admits (f_kinds f) (fun ks => bool_decide (kind (event ev) ∈ ks)) &&
  admits (f_authors f) (fun ps => bool_decide (pubkey (event ev) ∈ ps)) &&
  admits (f_since f) (fun since => negb (bool_decide (created_at (event ev) < since)%N)) &&
  admits (f_until f) (fun until => negb (bool_decide (until < created_at (event ev))%N)) &&
  admits (f_ids f) (fun ids =>
    existsb (fun i => starts_with (event_id_to_hex (id (event ev))) (event_id_to_hex i)) ids) &&
  forallb (generic_tag_ok ev) (f_generic_tags f).

Definition filters_match (filters : list Filter) (ev : StoredEvent) : bool :=
  existsb (fun f => filter_match_one f ev) filters.

(** [tags.filter(TagKind::SingleLetter(p))] keeps the tags named [p]. *)
Definition reader_authorized_for_event (ev : Event) (reader_pubkey_hex : string) : bool :=
  if decide (kind ev <> KIND_DM_VISIBILITY /\ kind ev <> KIND_AGENT_TURN_METRIC) then true
  else existsb (fun t => bool_decide (tag_content t = Some reader_pubkey_hex))
         (filter (fun t => tag_kind t = letter_to_string "p"%char) (tags ev)).
End filter.

(** ** Specification: filters as the protocol reads them *)

Section spec.
Context `{NostrApi}.

(** The event offers value [v] for tag name [k]: it carries such a tag or, for a
    channel ([h]) constraint on an event with no [h] tag at all, the relay filed it
    under the channel [v]. *)
Definition offers (ev : StoredEvent) (k v : string) : Prop :=
  (exists t, t ∈ tags (event ev) /\ tag_kind t = k /\ tag_content t = Some v) \/
  (k = "h" /\ (forall t, t ∈ tags (event ev) -> tag_kind t <> "h") /\
   exists ch, channel_id ev = Some ch /\ v = uuid_to_string ch).

Record accepts (f : Filter) (ev : StoredEvent) : Prop := {
  accepts_kind : forall ks, f_kinds f = Some ks -> kind (event ev) ∈ ks;
  accepts_author : forall ps, f_authors f = Some ps -> pubkey (event ev) ∈ ps;
  accepts_since : forall t, f_since f = Some t -> (t <= created_at (event ev))%N;
  accepts_until : forall t, f_until f = Some t -> (created_at (event ev) <= t)%N;
  accepts_id : forall ids, f_ids f = Some ids -> id (event ev) ∈ ids;
  accepts_tags : forall k vs, (k, vs) ∈ f_generic_tags f ->
    exists v, v ∈ vs /\ offers ev (letter_to_string k) v;
}.

(** ** Lemmas *)

Lemma existsb_true {A} (f : A -> bool) l : existsb f l = true <-> exists x, x ∈ l /\ f x = true.
Proof. rewrite existsb_exists. by setoid_rewrite list_elem_of_In. Qed.

Lemma forallb_true {A} (f : A -> bool) l : forallb f l = true <-> forall x, x ∈ l -> f x = true.
Proof. rewrite forallb_forall. by setoid_rewrite list_elem_of_In. Qed.

Lemma admits_true {A} (o : option A) (f : A -> bool) :
  admits o f = true <-> forall a, o = Some a -> f a = true.
Proof. destruct o; simpl; naive_solver. Qed.

Lemma event_has_tag_true ev k v :
  event_has_tag ev k v = true <-> exists t, t ∈ tags ev /\ tag_kind t = k /\ tag_content t = Some v.
Proof.
  unfold event_has_tag. rewrite existsb_true.
  by setoid_rewrite andb_true_iff; setoid_rewrite bool_decide_eq_true.
Qed.

Lemma generic_tag_ok_true ev k vs :
  generic_tag_ok ev (k, vs) = true <-> exists v, v ∈ vs /\ offers ev (letter_to_string k) v.
Proof.
  unfold generic_tag_ok, offers. destruct (existsb (event_has_tag _ _) vs) eqn:Hm; simpl.
  - apply existsb_true in Hm as (v & Hv & Ht%event_has_tag_true). naive_solver.
  - assert (Hno : forall v, v ∈ vs -> ~ exists t, t ∈ tags (event ev) /\
        tag_kind t = letter_to_string k /\ tag_content t = Some v).
    { intros v Hv Ht. rewrite <-event_has_tag_true in Ht.
      assert (existsb (event_has_tag (event ev) (letter_to_string k)) vs = true)
        by (apply existsb_true; eauto). congruence. }
    case_bool_decide as Hk; [|naive_solver].
    destruct (existsb _ (tags (event ev))) eqn:Hh; simpl.
    + apply existsb_true in Hh as (t & Ht & Hth%bool_decide_eq_true).
      split; [done|]. intros (v & Hv & [Hex|(_ & Hnone & _)]); [by destruct (Hno v)|].
      by destruct (Hnone t).
    + assert (Hnone : forall t, t ∈ tags (event ev) -> tag_kind t <> "h").
      { intros t Ht Hth. apply not_true_iff_false in Hh. apply Hh, existsb_true.
        exists t. by rewrite bool_decide_eq_true. }
      destruct (channel_id ev) as [ch|]; [|naive_solver].
      rewrite existsb_true. setoid_rewrite bool_decide_eq_true. naive_solver.
Qed.
End spec.

(** *** Hexadecimal event ids *)

Lemma prefix_same_length s t :
  String.length s = String.length t -> String.prefix s t = true <-> s = t.
Proof.
  revert t. induction s as [|a s IH]; intros [|b t]; simpl; try lia; [done|].
  intros [= Hl]. destruct (ascii_dec a b) as [<-|Hab]; [rewrite (IH t Hl); split; congruence|].
  split; [done|]. by intros [= ? _].
Qed.

Lemma event_id_prefix `{NostrLaws} i j :
  starts_with (event_id_to_hex i) (event_id_to_hex j) = true <-> i = j.
Proof.
  unfold starts_with. rewrite prefix_same_length by by rewrite !event_id_hex_length.
  split; [intros Hh; symmetry; by apply (inj event_id_to_hex)|by intros ->].
Qed.

Lemma filter_match_one_accepts `{NostrLaws} f ev :
  filter_match_one f ev = true <-> accepts f ev.
Proof.
  unfold filter_match_one. rewrite !andb_true_iff, !admits_true, forallb_true.
  setoid_rewrite bool_decide_eq_true. setoid_rewrite negb_true_iff.
  setoid_rewrite bool_decide_eq_false. setoid_rewrite existsb_true.
  setoid_rewrite event_id_prefix.
  assert (Htags : (forall kv, kv ∈ f_generic_tags f -> generic_tag_ok ev kv = true) <->
    forall k vs, (k, vs) ∈ f_generic_tags f ->
      exists v, v ∈ vs /\ offers ev (letter_to_string k) v).
  { split.
    - intros Hall k vs Hkv. by apply generic_tag_ok_true, Hall.
    - intros Hall [k vs] Hkv. by apply generic_tag_ok_true, Hall. }
  rewrite Htags. split.
  - intros [[[[[Hk Ha] Hs] Hu] Hi] Ht]. constructor; auto.
    + intros t E. specialize (Hs t E). lia.
    + intros t E. specialize (Hu t E). lia.
    + intros ids E. by destruct (Hi ids E) as (j & ? & ->).
  - intros [Hk Ha Hs Hu Hi Ht]. split_and!; auto.
    + intros t E. specialize (Hs t E). lia.
    + intros t E. specialize (Hu t E). lia.
    + intros ids E. eauto.
Qed.

Lemma filters_match_true `{NostrApi} fs ev :
  filters_match fs ev = true <-> exists f, f ∈ fs /\ filter_match_one f ev = true.
Proof. apply existsb_true. Qed.

#[export] Hint Rewrite @filters_match_true @admits_true @event_has_tag_true : buzz.

(** *** A concrete interface, for evaluation *)

Definition hex_digit (n : N) : Ascii.ascii :=
  Ascii.ascii_of_N (if decide (n < 10)%N then 48 + n else 87 + n)%N.

Fixpoint to_hex (len : nat) (n : N) : string :=
  match len with
  | O => EmptyString
  | S len => String (hex_digit (n / 16 ^ N.of_nat len mod 16)) (to_hex len n)
  end.

Lemma to_hex_length len n : String.length (to_hex len n) = len.
Proof. induction len; simpl; congruence. Qed.

Lemma hex_digit_inj a b : (a < 16)%N -> (b < 16)%N -> hex_digit a = hex_digit b -> a = b.
Proof.
  intros Ha Hb Hab. apply (f_equal Ascii.N_of_ascii) in Hab. unfold hex_digit in Hab.
  rewrite !Ascii.N_ascii_embedding in Hab by (repeat case_decide; lia).
  repeat case_decide; lia.
Qed.

Lemma to_hex_inj len a b :
  to_hex len a = to_hex len b -> (a mod 16 ^ N.of_nat len = b mod 16 ^ N.of_nat len)%N.
Proof.
  induction len as [|len IH]; simpl; [by rewrite !N.mod_1_r|].
  intros [= Hd Ht%IH]. apply hex_digit_inj in Hd; try (apply N.mod_lt; lia).
  rewrite Nat2N.inj_succ, N.pow_succ_r', (N.mul_comm 16).
  rewrite !N.Div0.mod_mul_r. by rewrite Hd, Ht.
Qed.

(** The hexadecimal digits of a byte string. *)
Fixpoint bytes_to_hex (s : string) : string :=
  match s with
  | EmptyString => EmptyString
  | String a s =>
      let n := Ascii.N_of_ascii a in
      String (hex_digit (n / 16)) (String (hex_digit (n mod 16)) (bytes_to_hex s))
  end.

Definition unhex_digit (c : Ascii.ascii) : option N :=
  let n := Ascii.N_of_ascii c in
  if decide (48 <= n /\ n < 58)%N then Some (n - 48)%N
  else if decide (97 <= n /\ n < 103)%N then Some (n - 87)%N else None.

Fixpoint hex_to_bytes (s : string) : option string :=
  match s with
  | EmptyString => Some EmptyString
  | String a (String b s) =>
      x ← unhex_digit a; y ← unhex_digit b; r ← hex_to_bytes s;
      Some (String (Ascii.ascii_of_N (16 * x + y)) r)
  | String _ EmptyString => None
  end.

Lemma unhex_hex_digit n : (n < 16)%N -> unhex_digit (hex_digit n) = Some n.
Proof.
  intros Hn. unfold unhex_digit, hex_digit.
  destruct (decide (n < 10)%N); rewrite Ascii.N_ascii_embedding by lia.
  - rewrite decide_True by lia. f_equal. lia.
  - rewrite decide_False, decide_True by lia. f_equal. lia.
Qed.

Lemma hex_bytes_round_trip s : hex_to_bytes (bytes_to_hex s) = Some s.
Proof.
  induction s as [|a s IH]; [done|]. cbn [bytes_to_hex hex_to_bytes].
  pose proof (Ascii.N_ascii_bounded a) as Ha.
  rewrite !unhex_hex_digit by first [apply N.mod_lt; lia|apply N.Div0.div_lt_upper_bound; lia].
  simpl. rewrite IH. simpl. rewrite <-N.div_mod by done. by rewrite Ascii.ascii_N_embedding.
Qed.

Lemma length_bytes_to_hex s : String.length (bytes_to_hex s) = 2 * String.length s.
Proof. induction s; simpl; lia. Qed.

(** A 32-byte id. *)
Definition Id32 := dsig (fun n : N => (n < 2 ^ 256)%N).

Definition id32 (n : N) (Hn : (n < 2 ^ 256)%N) : Id32 := dexist n Hn.

Lemma id32_bound (i : Id32) : (proj1_sig i < 2 ^ 256)%N.
Proof. destruct i as [i Hi]. exact (bool_decide_unpack _ Hi). Qed.

Definition nostr_api : NostrApi :=
  {| EventId := Id32; EventId_eq_dec := _;
     event_id_to_hex i := to_hex 64 (proj1_sig i);
     uuid_to_string u := to_hex 32 u;
     letter_to_string c := String c EmptyString;
     tag_kind t := match t with s :: _ => s | [] => EmptyString end;
     tag_content t := match t with _ :: s :: _ => Some s | _ => None end |}.

Lemma nostr_laws : @NostrLaws nostr_api.
Proof.
  split; [| |reflexivity..].
  - exact (fun i : Id32 => to_hex_length 64 (proj1_sig i)).
  - intros i j. change (to_hex 64 (proj1_sig i) = to_hex 64 (proj1_sig j) -> i = j).
    intros Hh%to_hex_inj. change (16 ^ N.of_nat 64)%N with (2 ^ 256)%N in Hh.
    rewrite !N.mod_small in Hh by apply id32_bound. by apply dsig_eq.
Qed.

(** Filter matching is the protocol's: a list of filters accepts an event exactly
    when one of them does, and a filter accepts it exactly when every constraint it
    carries holds - kind, author and id by membership, the time window, and each tag
    constraint by one of its values, an [h] constraint falling back on the channel
    the relay filed the event under when the event has no [h] tag.  Ids match
    exactly: the prefix test of the code only ever accepts the full id. *)
Theorem filters_match_nip01 `{NostrLaws} fs ev :
  filters_match fs ev = true <-> exists f, f ∈ fs /\ accepts f ev.
Proof. rewrite filters_match_true. by setoid_rewrite filter_match_one_accepts. Qed.

(** A reaction without an [h] tag, filed under channel 7, and a filter on that channel. *)
Definition example_stored : @StoredEvent nostr_api :=
  {| event := {| id := id32 5 eq_refl : @EventId nostr_api; pubkey := 1%N; created_at := 20%N;
                 kind := 7%N; tags := [["e"; "abc"]]; content := "+"; sig := "" |};
     received_at := 0%Z; channel_id := Some 7%N; verified := true |}.

Definition example_filter : @Filter nostr_api :=
  {| f_ids := Some [id32 5 eq_refl : @EventId nostr_api]; f_authors := None;
     f_kinds := Some [7%N; 9%N]; f_since := Some 20%N; f_until := None;
     f_generic_tags := [("h"%char, [@uuid_to_string nostr_api 7%N])] |}.

Lemma filters_match_nip01_witness :
  filters_match [example_filter] example_stored = true /\
  exists f, f ∈ [example_filter] /\ accepts f example_stored.
Proof.
  split; [vm_compute; reflexivity|].
  apply (@filters_match_nip01 nostr_api nostr_laws). vm_compute; reflexivity.
Defined.
