(* ===== verification/Subscriptions.v ===== *)
(** * The subscription registry ([crates/buzz-relay/src/subscription.rs])

    [SubscriptionRegistry] maps each connection's subscriptions and keeps five inverted
    indexes for fan-out.  Every operation is a function on the registry; a [DashMap] is
    a [gmap], its operations being atomic.  The lock order of the two maps a fan-out and
    a removal hold at once is modelled apart, at the end.  [test_community] wrappers
    are test-only and left out. *)

From S2P Require Import Prelude Nostr.

Definition ConnId := Uuid.
Definition SubId := string.

Definition SubEntry `{NostrApi} : Type := list Filter * CommunityId * option Uuid.

Record IndexKey := { ik_channel_id : Uuid; ik_kind : Kind }.

Record GlobalPKindIndexKey := { gp_community_id : CommunityId; gp_kind : Kind; gp_p : string }.

Record RemovedSubscription := { rs_community_id : CommunityId; rs_channel_id : option Uuid }.

#[export] Instance IndexKey_eq_dec : EqDecision IndexKey.
Proof. solve_decision. Defined.
#[export] Instance IndexKey_countable : Countable IndexKey.
Proof.
  by refine (inj_countable' (fun k => (ik_channel_id k, ik_kind k))
    (fun p => {| ik_channel_id := p.1; ik_kind := p.2 |}) _); intros [].
Defined.
#[export] Instance GlobalPKindIndexKey_eq_dec : EqDecision GlobalPKindIndexKey.
Proof. solve_decision. Defined.
#[export] Instance GlobalPKindIndexKey_countable : Countable GlobalPKindIndexKey.
Proof.
  by refine (inj_countable' (fun k => (gp_community_id k, gp_kind k, gp_p k))
    (fun p => {| gp_community_id := p.1.1; gp_kind := p.1.2; gp_p := p.2 |}) _); intros [].
Defined.
#[export] Instance RemovedSubscription_eq_dec : EqDecision RemovedSubscription.
Proof. solve_decision. Defined.

(** The value of an index. *)
Definition Subscribers := list (ConnId * SubId).

Record SubscriptionRegistry `{NostrApi} := {
  subs : gmap ConnId (gmap SubId SubEntry);
  channel_kind_index : gmap (CommunityId * IndexKey) Subscribers;
  channel_wildcard_index : gmap (CommunityId * Uuid) Subscribers;
  global_kind_index : gmap (CommunityId * Kind) Subscribers;
  global_p_kind_index : gmap GlobalPKindIndexKey Subscribers;
  global_wildcard_index : gmap CommunityId Subscribers;
  (** the gauge [buzz_subscriptions_active] *)
  subscriptions_active : Z;
}.

Section registry.
Context `{NostrApi, HashMapIter}.
Implicit Types (r : SubscriptionRegistry) (f : Subscribers -> Subscribers).

Definition new : SubscriptionRegistry :=
  {| subs := ∅; channel_kind_index := ∅; channel_wildcard_index := ∅; global_kind_index := ∅;
     global_p_kind_index := ∅; global_wildcard_index := ∅; subscriptions_active := 0 |}.

Definition with_subs r m g : SubscriptionRegistry :=
  {| subs := m; channel_kind_index := channel_kind_index r;
     channel_wildcard_index := channel_wildcard_index r;
     global_kind_index := global_kind_index r; global_p_kind_index := global_p_kind_index r;
     global_wildcard_index := global_wildcard_index r; subscriptions_active := g |}.

Definition with_channel_kind r m : SubscriptionRegistry :=
  {| subs := subs r; channel_kind_index := m;
     channel_wildcard_index := channel_wildcard_index r;
     global_kind_index := global_kind_index r; global_p_kind_index := global_p_kind_index r;
     global_wildcard_index := global_wildcard_index r;
     subscriptions_active := subscriptions_active r |}.

Definition with_channel_wildcard r m : SubscriptionRegistry :=
  {| subs := subs r; channel_kind_index := channel_kind_index r;
     channel_wildcard_index := m;
     global_kind_index := global_kind_index r; global_p_kind_index := global_p_kind_index r;
     global_wildcard_index := global_wildcard_index r;
     subscriptions_active := subscriptions_active r |}.

Definition with_global_kind r m : SubscriptionRegistry :=
  {| subs := subs r; channel_kind_index := channel_kind_index r;
     channel_wildcard_index := channel_wildcard_index r;
     global_kind_index := m; global_p_kind_index := global_p_kind_index r;
     global_wildcard_index := global_wildcard_index r;
     subscriptions_active := subscriptions_active r |}.

Definition with_global_p_kind r m : SubscriptionRegistry :=
  {| subs := subs r; channel_kind_index := channel_kind_index r;
     channel_wildcard_index := channel_wildcard_index r;
     global_kind_index := global_kind_index r; global_p_kind_index := m;
     global_wildcard_index := global_wildcard_index r;
     subscriptions_active := subscriptions_active r |}.

Definition with_global_wildcard r m : SubscriptionRegistry :=
  {| subs := subs r; channel_kind_index := channel_kind_index r;
     channel_wildcard_index := channel_wildcard_index r;
     global_kind_index := global_kind_index r; global_p_kind_index := global_p_kind_index r;
     global_wildcard_index := m; subscriptions_active := subscriptions_active r |}.

(** ** Keys of a subscription *)

(** The union of the filters' kinds, first occurrences in order; [None] when a filter
    has no kind constraint. *)
Fixpoint filter_kinds (filters : list Filter) : option (list Kind) :=
  match filters with
  | [] => Some []
  | f :: fs => ks ← f_kinds f; rest ← filter_kinds fs; Some (ks ++ rest)
  end.

Definition extract_kinds_from_filters (filters : list Filter) : option (list Kind) :=
  kinds ← filter_kinds filters; Some (dedup_first kinds).

(** The keys of the loops over [kinds] and [p_values] of one filter. *)
Definition filter_p_keys (c : CommunityId) (kinds : list Kind) (p_values : list string) :
    list GlobalPKindIndexKey :=
  kind ← kinds; p ← p_values; [{| gp_community_id := c; gp_kind := kind; gp_p := p |}].

Fixpoint global_p_kind_keys (c : CommunityId) (filters : list Filter) :
    option (list GlobalPKindIndexKey) :=
  match filters with
  | [] => Some []
  | f :: fs =>
      kinds ← f_kinds f;
      if decide (kinds = []) then global_p_kind_keys c fs
      else
        p_values ← generic_tags_get "p"%char (f_generic_tags f);
        if decide (p_values = []) then None
        else rest ← global_p_kind_keys c fs; Some (filter_p_keys c kinds p_values ++ rest)
  end.

Definition extract_global_p_kind_index_keys (c : CommunityId) (filters : list Filter) :
    option (list GlobalPKindIndexKey) :=
  keys ← global_p_kind_keys c filters; Some (dedup_first keys).

(** The distinct values of the event's [p] tags, in order. *)
Definition event_p_tag_values (ev : StoredEvent) : list string :=
  dedup_first (omap tag_content (filter (fun t => tag_kind t = "p") (tags (event ev)))).

(** ** Removal *)

Definition remove_from_index r (conn_id : ConnId) (sub_id : SubId) (filters : list Filter)
    (community_id : CommunityId) (channel_id : option Uuid) : SubscriptionRegistry :=
  let e := (conn_id, sub_id) in
  match channel_id with
  | Some ch_id =>
      match extract_kinds_from_filters filters with
      | None =>
          with_channel_wildcard r
            (bucket_remove (channel_wildcard_index r) (community_id, ch_id) e)
      | Some kinds =>
          fold_left (fun r kind =>
            let key := {| ik_channel_id := ch_id; ik_kind := kind |} in
            with_channel_kind r (bucket_remove (channel_kind_index r) (community_id, key) e))
            kinds r
      end
  | None =>
      match extract_global_p_kind_index_keys community_id filters with
      | Some keys =>
          fold_left (fun r key =>
            with_global_p_kind r (bucket_remove (global_p_kind_index r) key e)) keys r
      | None =>
          match extract_kinds_from_filters filters with
          | None =>
              with_global_wildcard r (bucket_remove (global_wildcard_index r) community_id e)
          | Some kinds =>
              fold_left (fun r kind =>
                with_global_kind r (bucket_remove (global_kind_index r) (community_id, kind) e))
                kinds r
          end
      end
  end.

Definition get_entry r (conn_id : ConnId) (sub_id : SubId) : option SubEntry :=
  conn_subs ← subs r !! conn_id; conn_subs !! sub_id.

Definition remove_subscription r (conn_id : ConnId) (sub_id : SubId) :
    SubscriptionRegistry * option RemovedSubscription :=
  match subs r !! conn_id with
  | Some conn_subs =>
      match conn_subs !! sub_id with
      | Some (filters, community_id, channel_id) =>
          let r := with_subs r (<[conn_id := delete sub_id conn_subs]> (subs r))
                     (subscriptions_active r) in
          let r := remove_from_index r conn_id sub_id filters community_id channel_id in
          (with_subs r (subs r) (subscriptions_active r - 1),
           Some {| rs_community_id := community_id; rs_channel_id := channel_id |})
      | None => (r, None)
      end
  | None => (r, None)
  end.

(** The body of the loop of [remove_connection]. *)
Definition remove_entry_from_index (conn_id : ConnId) r (se : SubId * SubEntry) :
    SubscriptionRegistry :=
  let '(sub_id, (filters, community_id, channel_id)) := se in
  remove_from_index r conn_id sub_id filters community_id channel_id.

Definition entry_scope (entry : SubEntry) : RemovedSubscription :=
  let '(_, community_id, channel_id) := entry in
  {| rs_community_id := community_id; rs_channel_id := channel_id |}.

Definition remove_connection r (conn_id : ConnId) :
    SubscriptionRegistry * list RemovedSubscription :=
  match subs r !! conn_id with
  | Some conn_subs =>
      let entries := iter_entries conn_subs in
      let r := with_subs r (delete conn_id (subs r)) (subscriptions_active r) in
      let r := fold_left (remove_entry_from_index conn_id) entries r in
      (with_subs r (subs r) (subscriptions_active r - Z.of_nat (size conn_subs)),
       (fun se => entry_scope se.2) <$> entries)
  | None => (r, [])
  end.

(** [sub_ids.filter_map(|s| remove_subscription(conn, s)? ..)] *)
Fixpoint remove_sub_ids r (conn_id : ConnId) (sub_ids : list SubId) :
    SubscriptionRegistry * list (SubId * RemovedSubscription) :=
  match sub_ids with
  | [] => (r, [])
  | sub_id :: sub_ids =>
      let '(r, removed) := remove_subscription r conn_id sub_id in
      let '(r, rest) := remove_sub_ids r conn_id sub_ids in
      (r, match removed with Some s => (sub_id, s) :: rest | None => rest end)
  end.

Definition channel_sub_ids r (community_id : CommunityId) (conn_id : ConnId)
    (channel_id : Uuid) : list SubId :=
  match subs r !! conn_id with
  | Some conn_subs =>
      (filter (fun se => entry_scope se.2 =
         {| rs_community_id := community_id; rs_channel_id := Some channel_id |})
         (iter_entries conn_subs)).*1
  | None => []
  end.

Definition remove_channel_subscriptions_scoped r (community_id : CommunityId)
    (conn_id : ConnId) (channel_id : Uuid) :
    SubscriptionRegistry * list (SubId * RemovedSubscription) :=
  remove_sub_ids r conn_id (channel_sub_ids r community_id conn_id channel_id).

(** ** Registration *)

Definition add_to_index r (conn_id : ConnId) (sub_id : SubId) (filters : list Filter)
    (community_id : CommunityId) (channel_id : option Uuid) : SubscriptionRegistry :=
  let e := (conn_id, sub_id) in
  match channel_id with
  | Some ch_id =>
      match extract_kinds_from_filters filters with
      | None =>
          with_channel_wildcard r
            (bucket_push (channel_wildcard_index r) (community_id, ch_id) e)
      | Some kinds =>
          fold_left (fun r kind =>
            let key := {| ik_channel_id := ch_id; ik_kind := kind |} in
            with_channel_kind r (bucket_push (channel_kind_index r) (community_id, key) e))
            kinds r
      end
  | None =>
      match extract_global_p_kind_index_keys community_id filters with
      | Some keys =>
          fold_left (fun r key =>
            with_global_p_kind r (bucket_push (global_p_kind_index r) key e)) keys r
      | None =>
          match extract_kinds_from_filters filters with
          | None =>
              with_global_wildcard r (bucket_push (global_wildcard_index r) community_id e)
          | Some kinds =>
              fold_left (fun r kind =>
                with_global_kind r (bucket_push (global_kind_index r) (community_id, kind) e))
                kinds r
          end
      end
  end.

Definition register_scoped r (community_id : CommunityId) (conn_id : ConnId) (sub_id : SubId)
    (filters : list Filter) (channel_id : option Uuid) :
    SubscriptionRegistry * option RemovedSubscription :=
  let '(r, removed) := remove_subscription r conn_id sub_id in
  let conn_subs := default ∅ (subs r !! conn_id) in
  let r := with_subs r
    (<[conn_id := <[sub_id := (filters, community_id, channel_id)]> conn_subs]> (subs r))
    (subscriptions_active r + 1) in
  (add_to_index r conn_id sub_id filters community_id channel_id, removed).

(** ** Fan-out and queries *)

(** The accumulators [results] and [seen]. *)
Definition push_match r (ev : StoredEvent) (acc : Subscribers * gset (ConnId * SubId))
    (e : ConnId * SubId) : Subscribers * gset (ConnId * SubId) :=
  match get_entry r e.1 e.2 with
  | Some (filters, _, _) =>
      if filters_match filters ev then
        if decide (e ∈ acc.2) then acc else (acc.1 ++ [e], {[e]} ∪ acc.2)
      else acc
  | None => acc
  end.

Definition fan_out_scoped r (community_id : CommunityId) (ev : StoredEvent) : Subscribers :=
  let scan acc candidates := fold_left (push_match r ev) candidates acc in
  let acc := ([], ∅) in
  (match channel_id ev with
   | Some ch =>
       let key := {| ik_channel_id := ch; ik_kind := kind (event ev) |} in
       let acc := scan acc (bucket (channel_kind_index r) (community_id, key)) in
       scan acc (bucket (channel_wildcard_index r) (community_id, ch))
   | None =>
       let acc := fold_left (fun acc p =>
         let key := {| gp_community_id := community_id; gp_kind := kind (event ev); gp_p := p |} in
         scan acc (bucket (global_p_kind_index r) key)) (event_p_tag_values ev) acc in
       let acc := scan acc (bucket (global_kind_index r) (community_id, kind (event ev))) in
       scan acc (bucket (global_wildcard_index r) community_id)
   end).1.

(** The connections of a channel's index entries, a set. *)
Definition channel_subscriber_conns_scoped r (community_id : CommunityId) (ch : Uuid) :
    gset ConnId :=
  let of_kinds := fold_left (fun conns kv =>
    let '((c, key), entries) := kv in
    if bool_decide (c = community_id) && bool_decide (ik_channel_id key = ch)
    then conns ∪ list_to_set entries.*1 else conns)
    (iter_entries (channel_kind_index r)) ∅ in
  of_kinds ∪ list_to_set (bucket (channel_wildcard_index r) (community_id, ch)).*1.

Definition get_filters r (conn_id : ConnId) (sub_id : SubId) : option (list Filter) :=
  entry ← get_entry r conn_id sub_id; Some entry.1.1.

Definition total_subscriptions r : nat :=
  sum_list ((fun kv => size kv.2) <$> iter_entries (subs r)).

Definition total_connections r : nat := size (subs r).

Definition per_community_subscriptions r : gmap CommunityId nat :=
  fold_left (fun counts conn_entry =>
    fold_left (fun counts se =>
      let '(_, community_id, _) := (se : SubId * SubEntry).2 in
      <[community_id := S (default 0 (counts !! community_id))]> counts)
      (iter_entries conn_entry.2) counts) (iter_entries (subs r)) ∅.
End registry.

(** ** The index entries of a subscription

    Each index key is a slot; a subscription owns the slots [slots_of] of its entry,
    and registration and removal are a push and a removal on each of them. *)

Inductive IndexSlot :=
| SlotChannelKind (c : CommunityId) (key : IndexKey)
| SlotChannelWildcard (c : CommunityId) (ch : Uuid)
| SlotGlobalPKind (key : GlobalPKindIndexKey)
| SlotGlobalKind (c : CommunityId) (k : Kind)
| SlotGlobalWildcard (c : CommunityId).

#[export] Instance IndexSlot_eq_dec : EqDecision IndexSlot.
Proof. solve_decision. Defined.

Section slots.
Context `{NostrApi, HashMapIter}.
Implicit Types (r : SubscriptionRegistry) (s : IndexSlot) (e : ConnId * SubId)
  (L : ConnId * SubId -> option SubEntry).

Definition slots_of (entry : SubEntry) : list IndexSlot :=
  let '(filters, c, ch) := entry in
  match ch with
  | Some ch =>
      match extract_kinds_from_filters filters with
      | None => [SlotChannelWildcard c ch]
      | Some kinds =>
          (fun k => SlotChannelKind c {| ik_channel_id := ch; ik_kind := k |}) <$> kinds
      end
  | None =>
      match extract_global_p_kind_index_keys c filters with
      | Some keys => SlotGlobalPKind <$> keys
      | None =>
          match extract_kinds_from_filters filters with
          | None => [SlotGlobalWildcard c]
          | Some kinds => SlotGlobalKind c <$> kinds
          end
      end
  end.

Definition slot_bucket r s : Subscribers :=
  match s with
  | SlotChannelKind c key => bucket (channel_kind_index r) (c, key)
  | SlotChannelWildcard c ch => bucket (channel_wildcard_index r) (c, ch)
  | SlotGlobalPKind key => bucket (global_p_kind_index r) key
  | SlotGlobalKind c k => bucket (global_kind_index r) (c, k)
  | SlotGlobalWildcard c => bucket (global_wildcard_index r) c
  end.

Definition push_slot e r s : SubscriptionRegistry :=
  match s with
  | SlotChannelKind c key => with_channel_kind r (bucket_push (channel_kind_index r) (c, key) e)
  | SlotChannelWildcard c ch =>
      with_channel_wildcard r (bucket_push (channel_wildcard_index r) (c, ch) e)
  | SlotGlobalPKind key => with_global_p_kind r (bucket_push (global_p_kind_index r) key e)
  | SlotGlobalKind c k => with_global_kind r (bucket_push (global_kind_index r) (c, k) e)
  | SlotGlobalWildcard c => with_global_wildcard r (bucket_push (global_wildcard_index r) c e)
  end.

Definition remove_slot e r s : SubscriptionRegistry :=
  match s with
  | SlotChannelKind c key => with_channel_kind r (bucket_remove (channel_kind_index r) (c, key) e)
  | SlotChannelWildcard c ch =>
      with_channel_wildcard r (bucket_remove (channel_wildcard_index r) (c, ch) e)
  | SlotGlobalPKind key => with_global_p_kind r (bucket_remove (global_p_kind_index r) key e)
  | SlotGlobalKind c k => with_global_kind r (bucket_remove (global_kind_index r) (c, k) e)
  | SlotGlobalWildcard c => with_global_wildcard r (bucket_remove (global_wildcard_index r) c e)
  end.

Record no_empty_buckets r : Prop := {
  ne_channel_kind : no_empty_bucket (channel_kind_index r);
  ne_channel_wildcard : no_empty_bucket (channel_wildcard_index r);
  ne_global_kind : no_empty_bucket (global_kind_index r);
  ne_global_p_kind : no_empty_bucket (global_p_kind_index r);
  ne_global_wildcard : no_empty_bucket (global_wildcard_index r);
}.

(** The indexes hold exactly the slots of the entries [L], once each. *)
Record index_matches L r : Prop := {
  im_elem : forall s e, e ∈ slot_bucket r s <-> exists entry, L e = Some entry /\ s ∈ slots_of entry;
  im_nodup : forall s, NoDup (slot_bucket r s);
  im_nonempty : no_empty_buckets r;
}.

(** The well-formed registries. *)
Record coherent r : Prop := {
  coherent_index : index_matches (fun e => get_entry r e.1 e.2) r;
  coherent_gauge : subscriptions_active r = Z.of_nat (total_subscriptions r);
}.

(** *** One slot *)

Lemma push_slot_bucket e r s s' :
  slot_bucket (push_slot e r s) s' =
  if decide (s = s') then slot_bucket r s ++ [e] else slot_bucket r s'.
Proof.
  destruct s, s'; simpl; rewrite ?bucket_push_lookup; repeat case_decide; simplify_eq; done.
Qed.

Lemma remove_slot_bucket e r s s' :
  slot_bucket (remove_slot e r s) s' =
  if decide (s = s') then filter (fun x => x <> e) (slot_bucket r s) else slot_bucket r s'.
Proof.
  destruct s, s'; simpl; rewrite ?bucket_remove_lookup; repeat case_decide; simplify_eq; done.
Qed.

Lemma push_slot_nonempty e r s : no_empty_buckets r -> no_empty_buckets (push_slot e r s).
Proof. intros []; destruct s; split; simpl; auto with buzz. Qed.

Lemma remove_slot_nonempty e r s : no_empty_buckets r -> no_empty_buckets (remove_slot e r s).
Proof. intros []; destruct s; split; simpl; auto with buzz. Qed.

(** *** All the slots of an entry *)

Lemma fold_left_fmap {A B C} (f : C -> B -> C) (g : A -> B) l c :
  fold_left f (g <$> l) c = fold_left (fun c a => f c (g a)) l c.
Proof. revert c. induction l; simpl; auto. Qed.

Lemma add_to_index_slots r conn sub fs c ch :
  add_to_index r conn sub fs c ch = fold_left (push_slot (conn, sub)) (slots_of (fs, c, ch)) r.
Proof. unfold add_to_index, slots_of. dmatch; by rewrite ?fold_left_fmap. Qed.

Lemma remove_from_index_slots r conn sub fs c ch :
  remove_from_index r conn sub fs c ch =
  fold_left (remove_slot (conn, sub)) (slots_of (fs, c, ch)) r.
Proof. unfold remove_from_index, slots_of. dmatch; by rewrite ?fold_left_fmap. Qed.

Lemma NoDup_slots_of entry : NoDup (slots_of entry).
Proof.
  destruct entry as [[fs c] ch]. unfold slots_of, extract_kinds_from_filters,
    extract_global_p_kind_index_keys.
  repeat case_match; try (apply NoDup_singleton);
    repeat match goal with
    | H : _ ≫= _ = Some _ |- _ => apply bind_Some in H as (? & _ & [= <-])
    end; apply NoDup_fmap; auto with buzz; intros ?? [=]; done.
Qed.

Lemma fold_push_bucket e ss r s : NoDup ss ->
  slot_bucket (fold_left (push_slot e) ss r) s =
  if decide (s ∈ ss) then slot_bucket r s ++ [e] else slot_bucket r s.
Proof.
  intros Hnd. revert r. induction Hnd as [|s' ss Hs' _ IH]; intros r; cbn [fold_left].
  - done.
  - rewrite IH, push_slot_bucket. repeat case_decide; subst; try done; exfalso; set_solver.
Qed.

Lemma fold_remove_bucket e ss r s :
  slot_bucket (fold_left (remove_slot e) ss r) s =
  if decide (s ∈ ss) then filter (fun x => x <> e) (slot_bucket r s) else slot_bucket r s.
Proof.
  revert r. induction ss as [|s' ss IH]; intros r; cbn [fold_left].
  - done.
  - rewrite IH, remove_slot_bucket. repeat case_decide; subst; try done;
      try (exfalso; set_solver).
    apply filter_filter_id.
Qed.

Lemma fold_slots_nonempty (op : SubscriptionRegistry -> IndexSlot -> SubscriptionRegistry) ss r :
  (forall r s, no_empty_buckets r -> no_empty_buckets (op r s)) ->
  no_empty_buckets r -> no_empty_buckets (fold_left op ss r).
Proof. intros Hop. revert r. induction ss; simpl; auto. Qed.

(** *** The index against a set of entries *)

Definition set_entry L e (o : option SubEntry) : ConnId * SubId -> option SubEntry :=
  fun e' => if decide (e' = e) then o else L e'.

Lemma index_matches_ext L L' r :
  (forall e, L e = L' e) -> index_matches L r -> index_matches L' r.
Proof. intros HL [Hel Hnd Hne]. split; auto. intros s e. by rewrite Hel, HL. Qed.

Lemma add_to_index_matches L r conn sub fs c ch :
  index_matches L r -> L (conn, sub) = None ->
  index_matches (set_entry L (conn, sub) (Some (fs, c, ch))) (add_to_index r conn sub fs c ch).
Proof.
  intros [Hel Hnd Hne] HL. rewrite add_to_index_slots.
  assert (Hnew : forall s, (conn, sub) ∉ slot_bucket r s).
  { intros s (entry & ? & _)%Hel. congruence. }
  split.
  - intros s e. rewrite fold_push_bucket by apply NoDup_slots_of. unfold set_entry.
    destruct (decide (e = (conn, sub))) as [->|He].
    + split; [|intros (entry & [= <-] & Hs); rewrite decide_True by done; set_solver].
      case_decide; [by eauto|]. by intros ?%Hnew.
    + rewrite <-Hel. case_decide; set_solver.
  - intros s. rewrite fold_push_bucket by apply NoDup_slots_of. case_decide; [|done].
    apply NoDup_app. split; [done|]. split; [|apply NoDup_singleton].
    intros x Hx ->%list_elem_of_singleton. by apply (Hnew s).
  - apply fold_slots_nonempty; [apply push_slot_nonempty|done].
Qed.

Lemma remove_from_index_matches L r conn sub fs c ch :
  index_matches L r -> L (conn, sub) = Some (fs, c, ch) ->
  index_matches (set_entry L (conn, sub) None) (remove_from_index r conn sub fs c ch).
Proof.
  intros [Hel Hnd Hne] HL. rewrite remove_from_index_slots. split.
  - intros s e. rewrite fold_remove_bucket. unfold set_entry.
    destruct (decide (e = (conn, sub))) as [->|He].
    + split; [|naive_solver]. case_decide as Hs; [by intros [? _]%list_elem_of_filter|].
      intros (entry & Hentry & ?)%Hel. congruence.
    + rewrite <-Hel. case_decide; [rewrite list_elem_of_filter; tauto|done].
  - intros s. rewrite fold_remove_bucket. case_decide; [by apply NoDup_filter|done].
  - apply fold_slots_nonempty; [apply remove_slot_nonempty|done].
Qed.

Lemma fold_slots_same (op : SubscriptionRegistry -> IndexSlot -> SubscriptionRegistry) ss r :
  (forall r s, subs (op r s) = subs r /\ subscriptions_active (op r s) = subscriptions_active r) ->
  subs (fold_left op ss r) = subs r /\
  subscriptions_active (fold_left op ss r) = subscriptions_active r.
Proof.
  intros Hop. revert r. induction ss as [|s ss IH]; intros r; simpl; [done|].
  destruct (IH (op r s)) as [-> ->]. apply Hop.
Qed.

Lemma add_to_index_same r conn sub fs c ch :
  subs (add_to_index r conn sub fs c ch) = subs r /\
  subscriptions_active (add_to_index r conn sub fs c ch) = subscriptions_active r.
Proof. rewrite add_to_index_slots. apply fold_slots_same. by intros ? []. Qed.

Lemma remove_from_index_same r conn sub fs c ch :
  subs (remove_from_index r conn sub fs c ch) = subs r /\
  subscriptions_active (remove_from_index r conn sub fs c ch) = subscriptions_active r.
Proof. rewrite remove_from_index_slots. apply fold_slots_same. by intros ? []. Qed.

(** The indexes only depend on [subs] through the entries. *)
Lemma index_matches_with_subs L r m g : index_matches L r -> index_matches L (with_subs r m g).
Proof.
  intros [Hel Hnd []]. split; [|exact Hnd|by split].
  intros s e. rewrite <-Hel. by destruct s.
Qed.

(** *** The number of subscriptions *)

Lemma sum_list_perm l1 l2 : l1 ≡ₚ l2 -> sum_list l1 = sum_list l2.
Proof. induction 1; simpl; lia. Qed.

Definition total_of (m : gmap ConnId (gmap SubId SubEntry)) : nat :=
  sum_list ((fun kv => size kv.2) <$> map_to_list m).

Lemma total_subscriptions_of r : total_subscriptions r = total_of (subs r).
Proof. apply sum_list_perm. by rewrite iter_entries_perm. Qed.

Lemma total_of_insert m k v : m !! k = None -> total_of (<[k := v]> m) = size v + total_of m.
Proof. intros Hk. unfold total_of. by rewrite (sum_list_perm _ _ (fmap_Permutation _ _ _ (map_to_list_insert m k v Hk))). Qed.

Lemma total_of_delete m k v : m !! k = Some v -> total_of m = size v + total_of (delete k m).
Proof.
  intros Hk. rewrite <-(insert_delete_id m k v Hk) at 1.
  apply total_of_insert, lookup_delete_eq.
Qed.

Lemma total_of_set m k v v' : m !! k = Some v ->
  total_of (<[k := v']> m) + size v = total_of m + size v'.
Proof.
  intros Hk. rewrite <-insert_delete_eq, total_of_insert by apply lookup_delete_eq.
  rewrite (total_of_delete m k v Hk). lia.
Qed.

End slots.

(** ** The operations on well-formed registries *)

Section operations.
Context `{NostrApi, HashMapIter}.
Implicit Types (r : SubscriptionRegistry).

Definition entries r : ConnId * SubId -> option SubEntry := fun e => get_entry r e.1 e.2.

Lemma get_entry_set r r' conn m :
  subs r' = <[conn := m]> (subs r) ->
  forall c s, get_entry r' c s = if decide (c = conn) then m !! s else get_entry r c s.
Proof.
  intros Hs c s. unfold get_entry. rewrite Hs, lookup_insert.
  repeat case_decide; subst; done.
Qed.

Lemma remove_subscription_spec r conn sub :
  coherent r ->
  coherent (remove_subscription r conn sub).1 /\
  (remove_subscription r conn sub).2 = entry_scope <$> get_entry r conn sub /\
  forall e, entries (remove_subscription r conn sub).1 e = set_entry (entries r) (conn, sub) None e.
Proof.
  intros Hr. unfold remove_subscription, set_entry, entries. unfold get_entry at 1.
  destruct (subs r !! conn) as [m|] eqn:Hm; simpl; [destruct (m !! sub) as [[[fs c] ch]|] eqn:Hs|];
    simpl.
  2,3: split; [done|]; split; [done|]; intros [c' s']; case_decide as He; [|done];
       injection He as -> ->; unfold get_entry; simpl; rewrite Hm; done.
  destruct Hr as [Hidx Hg].
  set (r1 := with_subs r (<[conn := delete sub m]> (subs r)) (subscriptions_active r)).
  destruct (remove_from_index_same r1 conn sub fs c ch) as [Hsubs Hact].
  assert (Hget : forall e, entries (remove_from_index r1 conn sub fs c ch) e =
                           set_entry (entries r) (conn, sub) None e).
  { intros [c' s']. unfold entries, set_entry. simpl.
    rewrite (get_entry_set r _ conn (delete sub m)) by done.
    destruct (decide (c' = conn)) as [->|]; [|by rewrite decide_False by congruence].
    rewrite lookup_delete. unfold get_entry. rewrite Hm. simpl.
    repeat case_decide; simplify_eq; done. }
  split; [|split; [done|exact Hget]]. split.
  - apply index_matches_with_subs.
    apply index_matches_ext with (set_entry (entries r) (conn, sub) None); [by intros; rewrite <-Hget|].
    apply remove_from_index_matches; [by apply index_matches_with_subs|].
    unfold entries, get_entry. simpl. by rewrite Hm.
  - rewrite total_subscriptions_of. simpl. rewrite Hsubs, Hact. simpl.
    rewrite Hg, total_subscriptions_of.
    pose proof (total_of_set (subs r) conn m (delete sub m) Hm) as Ht.
    assert (Hsz : size m = S (size (delete sub m))).
    { rewrite map_size_delete_Some by done. destruct (size m) eqn:E; [|done].
      apply map_size_empty_inv in E. subst. by rewrite lookup_empty in Hs. }
    lia.
Qed.

Lemma register_scoped_spec r c conn sub fs ch :
  coherent r ->
  coherent (register_scoped r c conn sub fs ch).1 /\
  (register_scoped r c conn sub fs ch).2 = entry_scope <$> get_entry r conn sub /\
  forall e, entries (register_scoped r c conn sub fs ch).1 e =
    set_entry (entries r) (conn, sub) (Some (fs, c, ch)) e.
Proof.
  intros Hr. destruct (remove_subscription_spec r conn sub Hr) as (Hr1 & Ho & He).
  unfold register_scoped. destruct (remove_subscription r conn sub) as [r1 o]. simpl in *.
  set (m := default ∅ (subs r1 !! conn)).
  set (r2 := with_subs r1 (<[conn := <[sub := (fs, c, ch)]> m]> (subs r1))
               (subscriptions_active r1 + 1)).
  destruct (add_to_index_same r2 conn sub fs c ch) as [Hsubs Hact].
  assert (Hm : forall s, m !! s = get_entry r1 conn s).
  { intros s. unfold m, get_entry. by destruct (subs r1 !! conn). }
  assert (Hnone : entries r1 (conn, sub) = None).
  { rewrite He. unfold set_entry. by rewrite decide_True. }
  assert (Hget : forall e, entries (add_to_index r2 conn sub fs c ch) e =
                           set_entry (entries r1) (conn, sub) (Some (fs, c, ch)) e).
  { intros [c' s']. unfold entries, set_entry. simpl.
    rewrite (get_entry_set r1 _ conn (<[sub := (fs, c, ch)]> m)) by done.
    destruct (decide (c' = conn)) as [->|]; [|by rewrite decide_False by congruence].
    rewrite lookup_insert, Hm. repeat case_decide; simplify_eq; done. }
  split; [split|split; [done|]].
  - apply index_matches_ext with (set_entry (entries r1) (conn, sub) (Some (fs, c, ch)));
      [by intros; rewrite <-Hget|].
    apply add_to_index_matches; [apply index_matches_with_subs, Hr1|exact Hnone].
  - rewrite total_subscriptions_of, Hsubs, Hact. simpl.
    rewrite (coherent_gauge _ Hr1), total_subscriptions_of.
    assert (Hsz : size (<[sub := (fs, c, ch)]> m) = S (size m)).
    { apply map_size_insert_None. by rewrite Hm. }
    destruct (subs r1 !! conn) as [m'|] eqn:E.
    + pose proof (total_of_set _ _ _ (<[sub := (fs, c, ch)]> m) E). simpl in *. subst m. lia.
    + rewrite total_of_insert by done. subst m. rewrite Hsz. simpl. rewrite map_size_empty. lia.
  - intros e. rewrite Hget. unfold set_entry at 1. rewrite He. unfold set_entry.
    by repeat case_decide.
Qed.
Definition drop_subs (L : ConnId * SubId -> option SubEntry) (conn : ConnId) (ids : list SubId) :
    ConnId * SubId -> option SubEntry :=
  fun e => if decide (e.1 = conn /\ e.2 ∈ ids) then None else L e.

Lemma remove_entries_matches conn l L r :
  NoDup l.*1 -> (forall s en, (s, en) ∈ l -> L (conn, s) = Some en) -> index_matches L r ->
  let r' := fold_left (remove_entry_from_index conn) l r in
  index_matches (drop_subs L conn l.*1) r' /\ subs r' = subs r /\
  subscriptions_active r' = subscriptions_active r.
Proof.
  revert L r. induction l as [|[s [[fs c] ch]] l IH]; intros L r Hnd Hl Hm; cbn.
  - split; [|done]. eapply index_matches_ext; [|exact Hm]. intros e. unfold drop_subs.
    rewrite decide_False; set_solver.
  - apply NoDup_cons in Hnd as [Hs Hnd]. simpl in Hs.
    destruct (remove_from_index_same r conn s fs c ch) as [Hsubs Hact].
    destruct (IH (set_entry L (conn, s) None) (remove_from_index r conn s fs c ch))
      as (IHm & IHs & IHa).
    + done.
    + intros s' en Hin. unfold set_entry. rewrite decide_False; [apply Hl; by right|].
      intros [= ->]. apply Hs. apply list_elem_of_fmap. by exists (s, en).
    + apply remove_from_index_matches; [done|]. apply Hl. by left.
    + split; [|by rewrite IHs, IHa]. eapply index_matches_ext; [|exact IHm].
      intros [c' s']. unfold drop_subs, set_entry. simpl.
      repeat case_decide; simplify_eq; try done; exfalso; set_solver.
Qed.

Lemma remove_connection_spec r conn :
  coherent r ->
  coherent (remove_connection r conn).1 /\
  (forall c s, get_entry (remove_connection r conn).1 c s =
     if decide (c = conn) then None else get_entry r c s) /\
  (remove_connection r conn).2 ≡ₚ
    (fun se => entry_scope se.2) <$> map_to_list (default ∅ (subs r !! conn)).
Proof.
  intros Hr. unfold remove_connection. destruct (subs r !! conn) as [m|] eqn:Hm; simpl.
  2: { split; [done|]. split; [|by rewrite map_to_list_empty]. intros c s. case_decide; [|done].
       subst. unfold get_entry. by rewrite Hm. }
  set (r1 := with_subs r (delete conn (subs r)) (subscriptions_active r)).
  destruct (remove_entries_matches conn (iter_entries m) (entries r) r1) as (Him & Hs & Ha).
  { apply NoDup_fst_iter_entries. }
  { intros s en Hin%elem_of_iter_entries. unfold entries, get_entry. simpl. by rewrite Hm. }
  { apply index_matches_with_subs, Hr. }
  set (r2 := fold_left _ _ r1) in *.
  set (r3 := with_subs r2 (subs r2) (subscriptions_active r2 - Z.of_nat (size m))).
  assert (Hget : forall c s, get_entry r3 c s = if decide (c = conn) then None else get_entry r c s).
  { intros c s. unfold get_entry. simpl. rewrite Hs. unfold r1. simpl. rewrite lookup_delete.
    repeat case_decide; simplify_eq; done. }
  split; [split|split].
  - apply index_matches_with_subs. eapply index_matches_ext; [|exact Him].
    intros [c s]. simpl. unfold drop_subs, entries. simpl. rewrite Hget.
    destruct (decide (c = conn)) as [->|]; [|by rewrite decide_False by tauto].
    case_decide as Hd; [done|]. unfold get_entry. rewrite Hm. simpl.
    destruct (m !! s) as [en|] eqn:E; [|done]. destruct Hd. split; [done|].
    apply list_elem_of_fmap. exists (s, en). by rewrite elem_of_iter_entries.
  - rewrite total_subscriptions_of. unfold r3. simpl. rewrite Hs, Ha. unfold r1. simpl.
    rewrite (coherent_gauge _ Hr), total_subscriptions_of, (total_of_delete _ _ _ Hm). lia.
  - exact Hget.
  - by rewrite iter_entries_perm.
Qed.

Lemma remove_sub_ids_spec conn ids r :
  NoDup ids -> coherent r ->
  coherent (remove_sub_ids r conn ids).1 /\
  (forall e, entries (remove_sub_ids r conn ids).1 e = drop_subs (entries r) conn ids e) /\
  (remove_sub_ids r conn ids).2 =
    omap (fun s => en ← get_entry r conn s; Some (s, entry_scope en)) ids.
Proof.
  intros Hnd. revert r. induction Hnd as [|s ids Hs _ IH]; intros r Hr.
  { simpl. split; [done|]. split; [|done]. intros e. unfold drop_subs.
    rewrite decide_False by set_solver. done. }
  destruct (remove_subscription_spec r conn s Hr) as (Hr1 & Ho & He). cbn [remove_sub_ids].
  destruct (remove_subscription r conn s) as [r1 o] eqn:E1. simpl in Hr1, Ho, He.
  destruct (IH r1 Hr1) as (Hr2 & He2 & Ho2).
  destruct (remove_sub_ids r1 conn ids) as [r2 rest] eqn:E2. simpl in Hr2, He2, Ho2 |- *.
  split; [done|]. split.
  - intros e. rewrite He2. unfold drop_subs. rewrite He. unfold set_entry.
    destruct e as [c' s']. simpl. repeat case_decide; simplify_eq; try done; exfalso; set_solver.
  - subst o rest.
    assert (Hext : omap (fun s => en ← get_entry r1 conn s; Some (s, entry_scope en)) ids =
                   omap (fun s => en ← get_entry r conn s; Some (s, entry_scope en)) ids).
    { apply list_omap_ext, Forall2_same_length_lookup_2; [done|]. intros i x y Hx Hy.
      simplify_eq. specialize (He (conn, x)). unfold entries, set_entry in He. simpl in He.
      rewrite decide_False in He; [by rewrite He|].
      intros [= ->]. apply Hs. by eapply list_elem_of_lookup_2. }
    rewrite Hext. by destruct (get_entry r conn s).
Qed.
End operations.

(** ** Runs of the registry and their specification *)

Inductive RegistryOp `{NostrApi} :=
| Register (c : CommunityId) (conn : ConnId) (sub : SubId) (fs : list Filter) (ch : option Uuid)
| RemoveSubscription (conn : ConnId) (sub : SubId)
| RemoveConnection (conn : ConnId)
| RemoveChannelSubscriptions (c : CommunityId) (conn : ConnId) (ch : Uuid).

Section runs.
Context `{NostrApi, HashMapIter}.
Implicit Types (r : SubscriptionRegistry) (op : RegistryOp).

Definition run_op r op : SubscriptionRegistry :=
  match op with
  | Register c conn sub fs ch => (register_scoped r c conn sub fs ch).1
  | RemoveSubscription conn sub => (remove_subscription r conn sub).1
  | RemoveConnection conn => (remove_connection r conn).1
  | RemoveChannelSubscriptions c conn ch => (remove_channel_subscriptions_scoped r c conn ch).1
  end.

Definition run_ops (ops : list RegistryOp) : SubscriptionRegistry := fold_left run_op ops new.

(** The abstract registry: the live subscriptions, and nothing else. *)
Definition AbsRegistry := ConnId * SubId -> option SubEntry.

Definition abs_op (L : AbsRegistry) op : AbsRegistry :=
  fun e =>
    match op with
    | Register c conn sub fs ch => if decide (e = (conn, sub)) then Some (fs, c, ch) else L e
    | RemoveSubscription conn sub => if decide (e = (conn, sub)) then None else L e
    | RemoveConnection conn => if decide (e.1 = conn) then None else L e
    | RemoveChannelSubscriptions c conn ch =>
        if decide (e.1 = conn /\ entry_scope <$> L e =
                     Some {| rs_community_id := c; rs_channel_id := Some ch |})
        then None else L e
    end.

Definition abs_ops (ops : list RegistryOp) : AbsRegistry := fold_left abs_op ops (fun _ => None).

(** The subscriptions an event reaches, read off the live subscriptions. *)
Definition reaches (L : AbsRegistry) (c : CommunityId) (ev : StoredEvent) (e : ConnId * SubId) :
    Prop :=
  exists fs, L e = Some (fs, c, channel_id ev) /\ filters_match fs ev = true.

(** The index slots a fan-out reads. *)
Definition event_slots (c : CommunityId) (ev : StoredEvent) : list IndexSlot :=
  match channel_id ev with
  | Some ch =>
      [SlotChannelKind c {| ik_channel_id := ch; ik_kind := kind (event ev) |};
       SlotChannelWildcard c ch]
  | None =>
      ((fun p => SlotGlobalPKind {| gp_community_id := c; gp_kind := kind (event ev); gp_p := p |})
         <$> event_p_tag_values ev)
      ++ [SlotGlobalKind c (kind (event ev)); SlotGlobalWildcard c]
  end.

Definition matching r (ev : StoredEvent) (e : ConnId * SubId) : Prop :=
  exists entry, entries r e = Some entry /\ filters_match entry.1.1 ev = true.

(** *** Removal by channel *)

Lemma elem_of_channel_sub_ids r c conn ch s :
  s ∈ channel_sub_ids r c conn ch <->
  entry_scope <$> get_entry r conn s =
    Some {| rs_community_id := c; rs_channel_id := Some ch |}.
Proof.
  unfold channel_sub_ids, get_entry. destruct (subs r !! conn) as [m|]; simpl; [|set_solver].
  rewrite list_elem_of_fmap. split.
  - intros ([s' en] & -> & [Hsc Hin]%list_elem_of_filter). apply elem_of_iter_entries in Hin.
    simpl in *. by rewrite Hin, <-Hsc.
  - intros (en & Hsc & Hin)%fmap_Some. exists (s, en). split; [done|].
    apply list_elem_of_filter. by rewrite elem_of_iter_entries.
Qed.

Lemma NoDup_channel_sub_ids r c conn ch : NoDup (channel_sub_ids r c conn ch).
Proof.
  unfold channel_sub_ids. destruct (subs r !! conn) as [m|]; [|constructor].
  eapply sublist_NoDup; [|apply fmap_sublist, sublist_filter]. apply NoDup_fst_iter_entries.
Qed.

Lemma remove_channel_subscriptions_spec r c conn ch :
  coherent r ->
  coherent (remove_channel_subscriptions_scoped r c conn ch).1 /\
  (forall e, entries (remove_channel_subscriptions_scoped r c conn ch).1 e =
     abs_op (entries r) (RemoveChannelSubscriptions c conn ch) e) /\
  (forall s sc, (s, sc) ∈ (remove_channel_subscriptions_scoped r c conn ch).2 <->
     entry_scope <$> get_entry r conn s = Some sc /\
     sc = {| rs_community_id := c; rs_channel_id := Some ch |}).
Proof.
  intros Hr. unfold remove_channel_subscriptions_scoped.
  destruct (remove_sub_ids_spec conn _ r (NoDup_channel_sub_ids r c conn ch) Hr)
    as (Hr' & He & Ho).
  split; [done|]. split.
  - intros e. rewrite He. unfold drop_subs. simpl. destruct e as [c' s]. simpl.
    apply decide_ext. rewrite elem_of_channel_sub_ids. unfold entries. naive_solver.
  - intros s sc. rewrite Ho, list_elem_of_omap. setoid_rewrite elem_of_channel_sub_ids.
    split.
    + intros (s' & Hs & Hb). destruct (get_entry r conn s') as [en|] eqn:E; simpl in *; [|done].
      injection Hb as -> <-. rewrite E. simpl. naive_solver.
    + intros [Hs ->]. exists s. split; [done|]. apply fmap_Some in Hs as (en & Hen & Hsc).
      rewrite Hen. simpl. by rewrite <-Hsc.
Qed.
End runs.

Section fan_out.
Context `{NostrApi, HashMapIter}.
Implicit Types (r : SubscriptionRegistry) (op : RegistryOp).

Lemma new_coherent : coherent new.
Proof.
  split; [split|].
  - intros s e. split; [|intros (en & Hen & _); discriminate Hen].
    destruct s; cbn; unfold bucket; rewrite ?lookup_empty; set_solver.
  - intros []; cbn; unfold bucket; rewrite ?lookup_empty; constructor.
  - split; intros k; cbn; by rewrite lookup_empty.
  - rewrite total_subscriptions_of. reflexivity.
Qed.

Lemma run_op_spec r op :
  coherent r -> coherent (run_op r op) /\ forall e, entries (run_op r op) e = abs_op (entries r) op e.
Proof.
  intros Hr. destruct op as [c conn sub fs ch|conn sub|conn|c conn ch].
  - destruct (register_scoped_spec r c conn sub fs ch Hr) as (? & _ & He). by split.
  - destruct (remove_subscription_spec r conn sub Hr) as (? & _ & He). by split.
  - destruct (remove_connection_spec r conn Hr) as (? & He & _). split; [done|].
    intros [c s]. apply He.
  - destruct (remove_channel_subscriptions_spec r c conn ch Hr) as (? & He & _). by split.
Qed.

Lemma abs_op_ext L L' op : (forall e, L e = L' e) -> forall e, abs_op L op e = abs_op L' op e.
Proof. intros HL e. destruct op; simpl; by rewrite HL. Qed.

Lemma run_ops_spec ops :
  coherent (run_ops ops) /\ forall e, entries (run_ops ops) e = abs_ops ops e.
Proof.
  unfold run_ops, abs_ops. induction ops as [|op ops IH] using rev_ind.
  - split; [apply new_coherent|done].
  - rewrite !fold_left_app. simpl. destruct IH as [IHc IHe].
    destruct (run_op_spec _ op IHc) as [Hc He]. split; [done|].
    intros e. rewrite He. by apply abs_op_ext.
Qed.

(** *** The scan of the candidates *)

Definition acc_ok (acc : Subscribers * gset (ConnId * SubId)) : Prop :=
  NoDup acc.1 /\ forall e, e ∈ acc.2 <-> e ∈ acc.1.

Lemma push_match_spec r ev acc e :
  acc_ok acc -> acc_ok (push_match r ev acc e) /\
  forall x, x ∈ (push_match r ev acc e).1 <-> x ∈ acc.1 \/ (x = e /\ matching r ev e).
Proof.
  intros [Hnd Hseen]. unfold push_match, matching, entries.
  assert (Hskip : forall P : Prop, ~ P -> forall x, x ∈ acc.1 <-> x ∈ acc.1 \/ (x = e /\ P)) by tauto.
  destruct (get_entry r e.1 e.2) as [[[fs c] ch]|] eqn:E.
  2: { split; [done|]. apply Hskip. by intros (en & [=] & _). }
  destruct (filters_match fs ev) eqn:Hf.
  2: { split; [done|]. apply Hskip. intros (en & [= <-] & Hen). simpl in Hen. congruence. }
  assert (Hm : exists en, Some (fs, c, ch) = Some en /\ filters_match en.1.1 ev = true) by eauto.
  case_decide as Hin.
  - split; [done|]. intros x. rewrite Hseen in Hin. split; [tauto|]. by intros [?|[-> _]].
  - split; [split; simpl|simpl; set_solver].
    + apply NoDup_app. split; [done|]. split; [|apply NoDup_singleton]. set_solver.
    + set_solver.
Qed.

Lemma scan_spec r ev cands acc :
  acc_ok acc -> acc_ok (fold_left (push_match r ev) cands acc) /\
  forall x, x ∈ (fold_left (push_match r ev) cands acc).1 <->
    x ∈ acc.1 \/ (x ∈ cands /\ matching r ev x).
Proof.
  revert acc. induction cands as [|e cands IH]; intros acc Hacc; simpl; [set_solver|].
  destruct (push_match_spec r ev acc e Hacc) as [Hok Hel].
  destruct (IH _ Hok) as [Hok' Hel']. split; [done|]. intros x.
  rewrite Hel', Hel, elem_of_cons. naive_solver.
Qed.

Lemma fold_left_concat {A B C} (f : A -> B -> A) (g : C -> list B) l a :
  fold_left (fun a x => fold_left f (g x) a) l a = fold_left f (l ≫= g) a.
Proof.
  revert a. induction l as [|x l IH]; intros a; simpl; [done|]. by rewrite IH, fold_left_app.
Qed.

Lemma fan_out_slots r c ev :
  fan_out_scoped r c ev =
  (fold_left (push_match r ev) (event_slots c ev ≫= slot_bucket r) ([], ∅)).1.
Proof.
  unfold fan_out_scoped, event_slots. destruct (channel_id ev) as [ch|]; cbn [mbind list_bind].
  - by rewrite !fold_left_app.
  - rewrite bind_app, fold_left_concat, list_fmap_bind. cbn [mbind list_bind].
    by rewrite !fold_left_app.
Qed.

Lemma elem_of_fan_out r c ev x :
  x ∈ fan_out_scoped r c ev <->
  (exists s, s ∈ event_slots c ev /\ x ∈ slot_bucket r s) /\ matching r ev x.
Proof.
  rewrite fan_out_slots. destruct (scan_spec r ev (event_slots c ev ≫= slot_bucket r) ([], ∅))
    as [_ Hel]; [by split; [constructor|set_solver]|].
  rewrite Hel, list_elem_of_bind. set_solver.
Qed.

Lemma NoDup_fan_out r c ev : NoDup (fan_out_scoped r c ev).
Proof.
  rewrite fan_out_slots.
  apply (scan_spec r ev (event_slots c ev ≫= slot_bucket r) ([], ∅)).
  by split; [constructor|set_solver].
Qed.

(** *** The slots of an event and of a subscription it matches *)

Lemma filter_kinds_Some fs ks :
  filter_kinds fs = Some ks ->
  forall f, f ∈ fs -> exists kk, f_kinds f = Some kk /\ forall k, k ∈ kk -> k ∈ ks.
Proof.
  revert ks. induction fs as [|f fs IH]; intros ks Hks; [set_solver|]. simpl in Hks.
  apply bind_Some in Hks as (kk & Hkk & Hks). apply bind_Some in Hks as (rest & Hrest & [= <-]).
  intros g [->|Hg]%elem_of_cons; [exists kk; set_solver|].
  destruct (IH _ Hrest g Hg) as (kg & ? & ?). exists kg. set_solver.
Qed.

Lemma extract_kinds_Some fs ks :
  extract_kinds_from_filters fs = Some ks ->
  forall f, f ∈ fs -> exists kk, f_kinds f = Some kk /\ forall k, k ∈ kk -> k ∈ ks.
Proof.
  unfold extract_kinds_from_filters. intros (k0 & Hk & [= <-])%bind_Some f Hf.
  destruct (filter_kinds_Some _ _ Hk f Hf) as (kk & ? & ?). exists kk. split; [done|].
  intros k ?. rewrite elem_of_dedup_first. auto.
Qed.

Lemma elem_of_filter_p_keys c kinds ps key :
  key ∈ filter_p_keys c kinds ps <->
  gp_community_id key = c /\ gp_kind key ∈ kinds /\ gp_p key ∈ ps.
Proof.
  unfold filter_p_keys. rewrite list_elem_of_bind. setoid_rewrite list_elem_of_bind.
  destruct key as [c' k p]. simpl. setoid_rewrite list_elem_of_singleton. naive_solver.
Qed.

Lemma global_p_kind_keys_Some c fs keys :
  global_p_kind_keys c fs = Some keys ->
  (forall key, key ∈ keys -> gp_community_id key = c) /\
  (forall f, f ∈ fs -> exists kinds, f_kinds f = Some kinds /\ (kinds = [] \/ exists ps,
     generic_tags_get "p"%char (f_generic_tags f) = Some ps /\
     forall key, key ∈ filter_p_keys c kinds ps -> key ∈ keys)).
Proof.
  revert keys. induction fs as [|f fs IH]; intros keys Hk; simpl in Hk.
  { injection Hk as <-. set_solver. }
  apply bind_Some in Hk as (kinds & Hkinds & Hk). case_decide as Hnil.
  - destruct (IH _ Hk) as [Hc Hf]. split; [done|].
    intros g [->|Hg]%elem_of_cons; [exists kinds; by auto|by apply Hf].
  - apply bind_Some in Hk as (ps & Hps & Hk). case_decide; [done|].
    apply bind_Some in Hk as (rest & Hrest & [= <-]). destruct (IH _ Hrest) as [Hc Hf]. split.
    + intros key [(? & _ & _)%elem_of_filter_p_keys|?]%elem_of_app; auto.
    + intros g [->|Hg]%elem_of_cons.
      * exists kinds. split; [done|]. right. exists ps. set_solver.
      * destruct (Hf g Hg) as (kg & ? & [?|(pg & ? & ?)]); exists kg; [by auto|].
        split; [done|]. right. exists pg. set_solver.
Qed.

Lemma generic_tags_get_elem t l vs : generic_tags_get t l = Some vs -> (t, vs) ∈ l.
Proof.
  induction l as [|[t' vs'] l IH]; simpl; [done|]. case_decide; [|set_solver].
  intros [= ->]. subst. by left.
Qed.

(** An event whose [p] constraint is met carries the value in a [p] tag. *)
Lemma accepts_p_value `{!NostrLaws} f ev ps :
  accepts f ev -> generic_tags_get "p"%char (f_generic_tags f) = Some ps ->
  exists p, p ∈ ps /\ p ∈ event_p_tag_values ev.
Proof.
  intros Ha Hps%generic_tags_get_elem. destruct (accepts_tags _ _ Ha _ _ Hps) as (v & Hv & Ho).
  rewrite letter_to_string_p in Ho. destruct Ho as [(t & Ht & Hk & Hc)|[? _]]; [|done].
  exists v. split; [done|]. unfold event_p_tag_values. rewrite elem_of_dedup_first.
  apply list_elem_of_omap. exists t. split; [|done]. by apply list_elem_of_filter.
Qed.

Lemma reached_slot `{!NostrLaws} c ev fs :
  filters_match fs ev = true ->
  exists s, s ∈ event_slots c ev /\ s ∈ slots_of (fs, c, channel_id ev).
Proof.
  intros (f & Hf & Ha)%filters_match_true. apply filter_match_one_accepts in Ha.
  assert (Hkind : forall ks, extract_kinds_from_filters fs = Some ks -> kind (event ev) ∈ ks).
  { intros ks Hks. destruct (extract_kinds_Some _ _ Hks f Hf) as (kk & Hkk & Hsub).
    apply Hsub, (accepts_kind _ _ Ha _ Hkk). }
  unfold event_slots, slots_of. destruct (channel_id ev) as [ch|].
  { destruct (extract_kinds_from_filters fs) as [ks|]; eexists.
    - split; [by left|]. apply list_elem_of_fmap. eauto.
    - split; [right|]; by left. }
  destruct (extract_global_p_kind_index_keys c fs) as [keys|] eqn:Hkeys.
  - apply bind_Some in Hkeys as (keys0 & Hkeys & [= <-]).
    destruct (global_p_kind_keys_Some _ _ _ Hkeys) as [_ Hall].
    destruct (Hall f Hf) as (kinds & Hkinds & Hps).
    pose proof (accepts_kind _ _ Ha _ Hkinds) as Hk.
    destruct Hps as [->|(ps & Hps & Hin)]; [set_solver|].
    destruct (accepts_p_value f ev ps Ha Hps) as (p & Hp & Hpe).
    eexists. split; [apply elem_of_app; left; apply list_elem_of_fmap; eauto|].
    apply list_elem_of_fmap. eexists. split; [done|]. rewrite elem_of_dedup_first.
    by apply Hin, elem_of_filter_p_keys.
  - destruct (extract_kinds_from_filters fs) as [ks|].
    + eexists. split; [apply elem_of_app; right; by left|]. apply list_elem_of_fmap. eauto.
    + eexists. split; [apply elem_of_app; right; right; by left|by left].
Qed.

(** A subscription listed in a slot of the event has the event's scope. *)
Lemma slot_scope c ev s fs c' ch :
  s ∈ event_slots c ev -> s ∈ slots_of (fs, c', ch) -> c' = c /\ ch = channel_id ev.
Proof.
  unfold event_slots, slots_of. intros Hs Hs'.
  destruct ch as [ch|]; [destruct (extract_kinds_from_filters fs)|
    destruct (extract_global_p_kind_index_keys c' fs) as [keys|] eqn:Hkeys;
      [|destruct (extract_kinds_from_filters fs)]];
    destruct (channel_id ev) as [ch'|]; try set_solver.
  apply bind_Some in Hkeys as (keys0 & Hkeys & [= <-]).
  destruct (global_p_kind_keys_Some _ _ _ Hkeys) as [Hc _].
  apply list_elem_of_fmap in Hs' as (key & -> & Hin).
  rewrite elem_of_dedup_first in Hin.
  apply elem_of_app in Hs as [(p & [= ->] & _)%list_elem_of_fmap|]; [|set_solver].
  split; [|done]. by specialize (Hc _ Hin).
Qed.

Lemma fan_out_reaches `{!NostrLaws} r c ev e :
  coherent r -> e ∈ fan_out_scoped r c ev <-> reaches (entries r) c ev e.
Proof.
  intros [Hidx _]. rewrite elem_of_fan_out. unfold matching, reaches. split.
  - intros [(s & Hs & Hb) ([[fs c'] ch] & Hen & Hf)].
    apply (im_elem _ _ Hidx) in Hb as (en & Hen' & Hso).
    assert (en = (fs, c', ch)) as -> by (unfold entries in Hen; congruence).
    destruct (slot_scope _ _ _ _ _ _ Hs Hso) as [-> ->]. by exists fs.
  - intros (fs & Hen & Hf). split; [|eauto].
    destruct (reached_slot c ev fs Hf) as (s & Hs & Hso). exists s. split; [done|].
    apply (im_elem _ _ Hidx). eauto.
Qed.
End fan_out.

(** ** Lock order

    A [DashMap] guard is a lock on the entry's shard: [get] takes it for reading,
    [get_mut], [entry] and [remove] for writing, and it is held while the returned
    reference lives.  A thread is what it holds and the lock actions it still has to
    perform; an acquisition waits for the conflicting holders.  Shards are taken as
    fine as they can be, one per key, which only removes conflicts. *)

Inductive LockMode := Read | Write.
Inductive Lock := SubsLock (conn : ConnId) | IndexLock (s : IndexSlot).
Inductive LockAction := Acquire (m : LockMode) (l : Lock) | Release (l : Lock).

#[export] Instance LockMode_eq_dec : EqDecision LockMode.
Proof. solve_decision. Defined.
#[export] Instance Lock_eq_dec : EqDecision Lock.
Proof. solve_decision. Defined.

Record Thread := { holds : list (LockMode * Lock); todo : list LockAction }.

Definition blocks (m : LockMode) (l : Lock) (held : LockMode * Lock) : bool :=
  bool_decide (held.2 = l) && (bool_decide (m = Write) || bool_decide (held.1 = Write)).

(** Thread [i] performs its next action, if the other threads let it. *)
Definition lock_step (i : nat) (ts : list Thread) : option (list Thread) :=
  t ← ts !! i;
  match todo t with
  | [] => None
  | Acquire m l :: rest =>
      if existsb (blocks m l) (concat (holds <$> delete i ts)) then None
      else Some (<[i := {| holds := (m, l) :: holds t; todo := rest |}]> ts)
  | Release l :: rest =>
      Some (<[i := {| holds := filter (fun h => h.2 <> l) (holds t); todo := rest |}]> ts)
  end.

Fixpoint run_schedule (sched : list nat) (ts : list Thread) : option (list Thread) :=
  match sched with
  | [] => Some ts
  | i :: sched => ts' ← lock_step i ts; run_schedule sched ts'
  end.

(** Some thread has work left and none can move. *)
Definition deadlocked (ts : list Thread) : Prop :=
  (exists t, t ∈ ts /\ todo t <> []) /\ forall i, lock_step i ts = None.

Section locks.
Context `{NostrApi}.
Implicit Types (r : SubscriptionRegistry).

(** [remove_from_index]: each index entry is locked for writing while it is filtered,
    and once more to remove it when it has become empty. *)
Definition remove_from_index_locks r (e : ConnId * SubId) (entry : SubEntry) : list LockAction :=
  s ← slots_of entry;
  [Acquire Write (IndexLock s); Release (IndexLock s)]
  ++ (if decide (filter (fun x => x <> e) (slot_bucket r s) = [])
      then [Acquire Write (IndexLock s); Release (IndexLock s)] else []).

(** [remove_subscription]: the guard [conn_subs] lives until the index is updated. *)
Definition remove_subscription_locks r (conn_id : ConnId) (sub_id : SubId) : list LockAction :=
  Acquire Write (SubsLock conn_id)
  :: (match get_entry r conn_id sub_id with
      | Some entry => remove_from_index_locks r (conn_id, sub_id) entry
      | None => []
      end) ++ [Release (SubsLock conn_id)].

(** [fan_out_scoped]: the guard [candidates] lives while [push_match] reads [subs]. *)
Definition fan_out_locks r (community_id : CommunityId) (ev : StoredEvent) : list LockAction :=
  s ← event_slots community_id ev;
  [Acquire Read (IndexLock s)]
  ++ (e ← slot_bucket r s; [Acquire Read (SubsLock e.1); Release (SubsLock e.1)])
  ++ [Release (IndexLock s)].

Definition fan_out_and_close r community_id ev conn_id sub_id : list Thread :=
  [{| holds := []; todo := fan_out_locks r community_id ev |};
   {| holds := []; todo := remove_subscription_locks r conn_id sub_id |}].
End locks.

Lemma lock_step_range i ts : length ts <= i -> lock_step i ts = None.
Proof. intros Hi. unfold lock_step. by rewrite lookup_ge_None_2 by done. Qed.

(** ** Queries *)

Section queries.
Context `{NostrApi, HashMapIter}.
Implicit Types (r : SubscriptionRegistry).

Lemma elem_of_conns_fold c ch (l : list (CommunityId * IndexKey * Subscribers)) (acc : gset ConnId)
    conn :
  conn ∈ fold_left (fun conns kv =>
    let '((c', key), entries) := kv in
    if bool_decide (c' = c) && bool_decide (ik_channel_id key = ch)
    then conns ∪ list_to_set entries.*1 else conns) l acc <->
  conn ∈ acc \/ exists key es, ((c, key), es) ∈ l /\ ik_channel_id key = ch /\ conn ∈ es.*1.
Proof.
  revert acc. induction l as [|[[c' key] es] l IH]; intros acc; simpl; [set_solver|].
  rewrite IH. setoid_rewrite elem_of_cons.
  destruct (bool_decide (c' = c) && bool_decide (ik_channel_id key = ch)) eqn:E.
  - bool_to_prop. subst. rewrite elem_of_union, elem_of_list_to_set. naive_solver.
  - apply andb_false_iff in E. rewrite !bool_decide_eq_false in E. split.
    + intros [?|(k & es' & ? & ? & ?)]; [by left|right; eauto 6].
    + intros [?|(k & es' & [Hk|?] & ? & ?)]; [by left| |right; eauto 6].
      injection Hk as <- <- <-. tauto.
Qed.

Lemma channel_subscriber_conns_slots r c ch conn :
  conn ∈ channel_subscriber_conns_scoped r c ch <->
  exists s sub, (conn, sub) ∈ slot_bucket r s /\
    (s = SlotChannelWildcard c ch \/
     exists k, s = SlotChannelKind c {| ik_channel_id := ch; ik_kind := k |}).
Proof.
  unfold channel_subscriber_conns_scoped.
  rewrite elem_of_union, elem_of_list_to_set, elem_of_conns_fold, list_elem_of_fmap.
  setoid_rewrite elem_of_iter_entries. setoid_rewrite list_elem_of_fmap. split.
  - intros [[?|([ch' k] & es & Hes & <- & [c' sub] & -> & Hin)]|([c' sub] & -> & Hin)];
      [set_solver| |].
    + exists (SlotChannelKind c {| ik_channel_id := ch'; ik_kind := k |}), sub. simpl.
      unfold bucket. rewrite Hes. by eauto.
    + exists (SlotChannelWildcard c ch), sub. by eauto.
  - intros (s & sub & Hin & [->|[k ->]]); simpl in Hin.
    + right. by exists (conn, sub).
    + left. right. apply elem_of_bucket in Hin as (es & Hes & Hin).
      eexists _, es. split; [exact Hes|]. split; [done|]. by exists (conn, sub).
Qed.

Lemma channel_slots_of fs c' ch' c ch :
  (exists s, s ∈ slots_of (fs, c', ch') /\ (s = SlotChannelWildcard c ch \/
     exists k, s = SlotChannelKind c {| ik_channel_id := ch; ik_kind := k |})) <->
  c' = c /\ ch' = Some ch /\ extract_kinds_from_filters fs <> Some [].
Proof.
  unfold slots_of. destruct ch' as [ch'|].
  - destruct (extract_kinds_from_filters fs) as [[|k ks]|].
    + split; [set_solver|naive_solver].
    + split.
      * intros (s & (k' & -> & _)%list_elem_of_fmap & [?|[k2 ?]]); [done|]. naive_solver.
      * intros (-> & [= ->] & _). eexists. split; [by left|]. right. by eexists.
    + split; [intros (s & ->%list_elem_of_singleton & [?|[k ?]]); naive_solver|].
      intros (-> & [= ->] & _). eexists. split; [by left|by left].
  - split; [|naive_solver]. intros (s & Hs & Hor). exfalso.
    destruct (extract_global_p_kind_index_keys c' fs);
      [|destruct (extract_kinds_from_filters fs)];
      [apply list_elem_of_fmap in Hs as (? & -> & _)..|apply list_elem_of_singleton in Hs as ->];
      destruct Hor as [?|[? ?]]; done.
Qed.

Lemma channel_subscriber_conns_spec r c ch conn :
  coherent r ->
  conn ∈ channel_subscriber_conns_scoped r c ch <->
  exists sub fs, entries r (conn, sub) = Some (fs, c, Some ch) /\
    extract_kinds_from_filters fs <> Some [].
Proof.
  intros [Hidx _]. rewrite channel_subscriber_conns_slots. split.
  - intros (s & sub & Hin & Hs). apply (im_elem _ _ Hidx) in Hin as ([[fs c'] ch'] & Hen & Hso).
    destruct (proj1 (channel_slots_of fs c' ch' c ch)) as (-> & -> & ?); [by eauto|].
    by exists sub, fs.
  - intros (sub & fs & Hen & Hne).
    destruct (proj2 (channel_slots_of fs c (Some ch) c ch)) as (s & Hso & Hs); [done|].
    exists s, sub. split; [|done]. apply (im_elem _ _ Hidx). eauto.
Qed.
End queries.

(** ** Properties *)

Section properties.
Context `{NostrApi, HashMapIter}.

(** C22: however the registry is used, its five indexes list exactly the slots its live
    subscriptions own, each once, no index key keeps an empty list, and the
    [buzz_subscriptions_active] gauge is the number of subscriptions. *)
Theorem registry_coherent ops : coherent (run_ops ops).
Proof. apply run_ops_spec. Qed.

(** C37: the registry implements the abstract map of live subscriptions: registering
    replaces the subscription of that connection and id, closing removes it,
    disconnecting removes all of the connection's, and a channel revocation
    removes exactly the connection's subscriptions of that community and channel;
    every other subscription is untouched. *)
Theorem registry_refines_map ops conn sub :
  get_entry (run_ops ops) conn sub = abs_ops ops (conn, sub).
Proof. exact (proj2 (run_ops_spec ops) (conn, sub)). Qed.

(** Every removal reports the routing scopes it released: registering and closing
    the scope of the subscription replaced or closed, if there was one, disconnecting
    one per subscription of the connection, and a revocation the ids it closed, all
    with the revoked community and channel. *)
Theorem removals_report_scopes ops c conn sub fs ch ch' :
  let r := run_ops ops in
  (register_scoped r c conn sub fs ch').2 = entry_scope <$> abs_ops ops (conn, sub) /\
  (remove_subscription r conn sub).2 = entry_scope <$> abs_ops ops (conn, sub) /\
  (remove_connection r conn).2 ≡ₚ
    (fun se => entry_scope se.2) <$> map_to_list (default ∅ (subs r !! conn)) /\
  (forall s sc, (s, sc) ∈ (remove_channel_subscriptions_scoped r c conn ch).2 <->
     entry_scope <$> abs_ops ops (conn, s) = Some sc /\
     sc = {| rs_community_id := c; rs_channel_id := Some ch |}).
Proof.
  destruct (run_ops_spec ops) as [Hr He]. simpl. rewrite <-He. unfold entries. simpl.
  split_and!.
  - apply (register_scoped_spec _ c conn sub fs ch' Hr).
  - apply (remove_subscription_spec _ conn sub Hr).
  - apply (remove_connection_spec _ conn Hr).
  - intros s sc. rewrite <-He. apply (remove_channel_subscriptions_spec _ c conn ch Hr).
Qed.

(** C15: fan-out through the indexes is the scan of all live subscriptions: an event
    published in a community reaches, once each, exactly the subscriptions of that
    community, scoped to the event's channel (or global, for a global event), whose
    filters match it.  In particular no event crosses communities or channels, and
    none leaks between channel and global subscriptions. *)
Theorem fan_out_exact `{!NostrLaws} ops c ev :
  NoDup (fan_out_scoped (run_ops ops) c ev) /\
  forall e, e ∈ fan_out_scoped (run_ops ops) c ev <-> reaches (abs_ops ops) c ev e.
Proof.
  destruct (run_ops_spec ops) as [Hr He]. split; [apply NoDup_fan_out|]. intros e.
  rewrite fan_out_reaches by done. unfold reaches. by setoid_rewrite He.
Qed.

(** The connections reported for a channel are those holding a subscription with
    that community and channel, except the subscriptions whose filters all carry an
    explicitly empty list of kinds: these are in no index, so the closing of a
    channel's subscriptions overlooks them. *)
Theorem channel_subscriber_conns_exact ops c ch conn :
  conn ∈ channel_subscriber_conns_scoped (run_ops ops) c ch <->
  exists sub fs, abs_ops ops (conn, sub) = Some (fs, c, Some ch) /\
    extract_kinds_from_filters fs <> Some [].
Proof.
  destruct (run_ops_spec ops) as [Hr He]. rewrite channel_subscriber_conns_spec by done.
  by setoid_rewrite He.
Qed.
End properties.

Section example.
#[local] Existing Instance nostr_api.
#[local] Existing Instance nostr_laws.
#[local] Existing Instance map_order.

Definition kind_filter (k : Kind) : Filter :=
  {| f_ids := None; f_authors := None; f_kinds := Some [k]; f_since := None; f_until := None;
     f_generic_tags := [] |}.

(** Connection 1 of community 3 subscribes to reactions in channel 7, connection 2 of
    community 4 likewise, then connection 1 globally. *)
Definition example_ops : list RegistryOp :=
  [Register 3%N 1%N "a" [kind_filter 7%N] (Some 7%N);
   Register 4%N 2%N "a" [kind_filter 7%N] (Some 7%N);
   Register 3%N 1%N "b" [kind_filter 7%N] None].

Lemma fan_out_exact_witness :
  fan_out_scoped (run_ops example_ops) 3%N example_stored = [(1%N, "a")] /\
  NoDup (fan_out_scoped (run_ops example_ops) 3%N example_stored) /\
  forall e, e ∈ fan_out_scoped (run_ops example_ops) 3%N example_stored <->
            reaches (abs_ops example_ops) 3%N example_stored e.
Proof.
  split; [vm_compute; reflexivity|].
  apply (@fan_out_exact nostr_api map_order nostr_laws example_ops).
Defined.

(** [total_connections] counts connections with no subscription left: after the
    close of a connection's only subscription it is still 1. *)
Theorem total_connections_counts_idle :
  exists ops, total_subscriptions (run_ops ops) = 0 /\ total_connections (run_ops ops) = 1.
Proof.
  exists [Register 3%N 1%N "a" [kind_filter 7%N] None; RemoveSubscription 1%N "a"].
  by vm_compute.
Qed.

(** Fan-out and the closing of a subscription take their two locks in opposite
    orders, so two threads can deadlock: the fan-out holds the index entry of the
    event's kind and waits for the connection's subscriptions, the close holds these
    and waits for the index entry. *)
Theorem fan_out_close_deadlock :
  exists ops c ev conn sub sched ts,
    run_schedule sched (fan_out_and_close (run_ops ops) c ev conn sub) = Some ts /\
    deadlocked ts.
Proof.
  exists [Register 3%N 1%N "a" [kind_filter 7%N] (Some 7%N)], 3%N, example_stored, 1%N, "a", [0; 1].
  eexists. split; [vm_compute; reflexivity|]. split.
  - eexists. split; [by left|]. done.
  - intros [|[|i]]; [vm_compute; reflexivity..|]. apply lock_step_range. simpl. lia.
Qed.
End example.
