(* ===== verification/EventQueue.v ===== *)
(** * The per-channel event queue ([crates/buzz-acp/src/queue.rs])

    [EventQueue] holds the events that wait for an agent.  Each operation is a function
    from the queue (and the clock, where the code reads it) to the new queue and the
    result.  [Instant] and [Duration] are integers, in nanoseconds.  The map orders come
    from [HashMapIter], the rounding of [f64] arithmetic from [F64]; logging and the
    test-only accessors are left out. *)

From S2P Require Import Prelude Nostr.
From Stdlib Require Import QArith Qround.

#[global] Open Scope nat_scope.
#[global] Open Scope list_scope.

Definition MAX_PENDING_PER_CHANNEL : nat := 500.
Definition MAX_BATCH_EVENTS : nat := 50.
Definition MAX_RETRIES : nat := 10.
Definition BASE_RETRY_DELAY_SECS : N := 5.
Definition MAX_RETRY_DELAY_SECS : N := 300.
Definition IN_FLIGHT_DEADLINE_BUFFER_SECS : N := 100.
Definition DEFAULT_IN_FLIGHT_DEADLINE_SECS : N := 7300.

(** [DedupMode] ([config.rs]) *)
Inductive DedupMode := Drop | Queue.
Inductive CancelReason := Interrupt | Steer.

#[export] Instance DedupMode_eq_dec : EqDecision DedupMode.
Proof. solve_decision. Defined.
#[export] Instance CancelReason_eq_dec : EqDecision CancelReason.
Proof. solve_decision. Defined.

Record QueuedEvent `{NostrApi} := {
  qe_channel_id : Uuid;
  qe_event : Event;
  qe_received_at : Z;
  qe_prompt_tag : string;
}.

Record BatchEvent `{NostrApi} := {
  be_event : Event;
  be_prompt_tag : string;
  be_received_at : Z;
}.

Record FlushBatch `{NostrApi} := {
  fb_channel_id : Uuid;
  fb_events : list BatchEvent;
  fb_cancelled_events : list BatchEvent;
  fb_cancel_reason : option CancelReason;
}.

Record EventQueue `{NostrApi} := {
  queues : gmap Uuid (list QueuedEvent);
  in_flight_channels : gset Uuid;
  in_flight_deadlines : gmap Uuid Z;
  in_flight_batch_sizes : gmap Uuid nat;
  retry_after : gmap Uuid Z;
  retry_counts : gmap Uuid nat;
  dedup_mode : DedupMode;
  cancelled_batches : gmap Uuid (list BatchEvent);
  cancel_reasons : gmap Uuid CancelReason;
  withheld_native_steer : gmap Uuid (list QueuedEvent);
  in_flight_deadline : Z;
}.

(** IEEE-754 double arithmetic: every operation rounds its exact result. *)
Class F64 := { f64_round : Q -> Q }.

(** Rounding is monotone and exact on the dyadic numbers the format holds. *)
Class F64Laws `{F64} := {
  f64_round_mono : forall x y, (x <= y)%Q -> (f64_round x <= f64_round y)%Q;
  f64_round_exact : forall (n : Z) (k : positive),
    (Z.abs n < 2 ^ 53)%Z -> (Zpos k < 1024)%Z ->
    (f64_round (n # Pos.pow 2 k) == (n # Pos.pow 2 k))%Q;
}.

(** Exact arithmetic is one such rounding. *)
Definition exact_f64 : F64 := {| f64_round := fun x => x |}.

Lemma exact_f64_laws : @F64Laws exact_f64.
Proof. by split. Qed.

Definition secs (n : N) : Z := Z.of_N n * 1000000000.

Section queue.
Context `{NostrApi, HashMapIter, F64}.
Implicit Types (q : EventQueue) (ch : Uuid) (now : Z).

(** ** Field updates *)

Definition set_queues v q : EventQueue :=
  let '(Build_EventQueue _ _ b c d e f g h i j k) := q in Build_EventQueue _ v b c d e f g h i j k.
Definition set_in_flight_channels v q : EventQueue :=
  let '(Build_EventQueue _ a _ c d e f g h i j k) := q in Build_EventQueue _ a v c d e f g h i j k.
Definition set_in_flight_deadlines v q : EventQueue :=
  let '(Build_EventQueue _ a b _ d e f g h i j k) := q in Build_EventQueue _ a b v d e f g h i j k.
Definition set_in_flight_batch_sizes v q : EventQueue :=
  let '(Build_EventQueue _ a b c _ e f g h i j k) := q in Build_EventQueue _ a b c v e f g h i j k.
Definition set_retry_after v q : EventQueue :=
  let '(Build_EventQueue _ a b c d _ f g h i j k) := q in Build_EventQueue _ a b c d v f g h i j k.
Definition set_retry_counts v q : EventQueue :=
  let '(Build_EventQueue _ a b c d e _ g h i j k) := q in Build_EventQueue _ a b c d e v g h i j k.
Definition set_cancelled_batches v q : EventQueue :=
  let '(Build_EventQueue _ a b c d e f g _ i j k) := q in Build_EventQueue _ a b c d e f g v i j k.
Definition set_cancel_reasons v q : EventQueue :=
  let '(Build_EventQueue _ a b c d e f g h _ j k) := q in Build_EventQueue _ a b c d e f g h v j k.
Definition set_withheld v q : EventQueue :=
  let '(Build_EventQueue _ a b c d e f g h i _ k) := q in Build_EventQueue _ a b c d e f g h i v k.
Definition set_in_flight_deadline v q : EventQueue :=
  let '(Build_EventQueue _ a b c d e f g h i j _) := q in Build_EventQueue _ a b c d e f g h i j v.

(** [queues.entry(ch).or_default()] *)
Definition queue_of q ch : list QueuedEvent := default [] (queues q !! ch).

Definition hex_id (qe : QueuedEvent) : string := event_id_to_hex (id (qe_event qe)).

(** ** Construction and deadlines *)

Definition EventQueue_new (dedup_mode : DedupMode) : EventQueue :=
  {| queues := ∅; in_flight_channels := ∅; in_flight_deadlines := ∅;
     in_flight_batch_sizes := ∅; retry_after := ∅; retry_counts := ∅;
     dedup_mode := dedup_mode; cancelled_batches := ∅; cancel_reasons := ∅;
     withheld_native_steer := ∅; in_flight_deadline := secs DEFAULT_IN_FLIGHT_DEADLINE_SECS |}.

Definition with_in_flight_deadline q (max_turn_duration_secs : N) : EventQueue :=
  set_in_flight_deadline (secs (max_turn_duration_secs + IN_FLIGHT_DEADLINE_BUFFER_SECS)) q.

Definition extend_in_flight_deadline now q ch (max_turn_secs : N) : EventQueue :=
  match in_flight_deadlines q !! ch with
  | Some current =>
      let extended := (now + secs (max_turn_secs + IN_FLIGHT_DEADLINE_BUFFER_SECS))%Z in
      if decide (current < extended)%Z
      then set_in_flight_deadlines (<[ch := extended]> (in_flight_deadlines q)) q else q
  | None => q
  end.

(** ** Push *)

Definition push q (ev : QueuedEvent) : EventQueue * bool :=
  let ch := qe_channel_id ev in
  if bool_decide (dedup_mode q = Drop) && bool_decide (ch ∈ in_flight_channels q)
  then (q, false)
  else
    let queue := queue_of q ch in
    let queue := if decide (MAX_PENDING_PER_CHANNEL <= length queue) then tail queue else queue in
    (set_queues (<[ch := queue ++ [ev]]> (queues q)) q, true).

(** ** Expiry of stuck prompts *)

Definition recover_withheld_for_expired_channel q ch : EventQueue :=
  match withheld_native_steer q !! ch with
  | None => q
  | Some entries =>
      let q := set_withheld (delete ch (withheld_native_steer q)) q in
      let queue := push_front_all entries (queue_of q ch) in
      set_queues (<[ch := trim_back MAX_PENDING_PER_CHANNEL queue]> (queues q)) q
  end.

(** One iteration over the expired channels. *)
Definition release_expired q ch : EventQueue :=
  let q := set_in_flight_batch_sizes (delete ch (in_flight_batch_sizes q)) q in
  let q := set_in_flight_channels (in_flight_channels q ∖ {[ch]}) q in
  let q := set_in_flight_deadlines (delete ch (in_flight_deadlines q)) q in
  recover_withheld_for_expired_channel q ch.

Definition expired now q : list Uuid :=
  (filter (fun e => e.2 <= now)%Z (iter_entries (in_flight_deadlines q))).*1.

Definition expire now q : EventQueue := fold_left release_expired (expired now q) q.

(** ** Flush *)

Definition not_throttled now q ch : bool :=
  match retry_after q !! ch with
  | Some t => bool_decide (t <= now)%Z
  | None => true
  end.

(** The candidate test of [flush_next] and [has_flushable_work]. *)
Definition candidate now q (e : Uuid * list QueuedEvent) : bool :=
  bool_decide (e.2 <> []) && bool_decide (e.1 ∉ in_flight_channels q) && not_throttled now q e.1.

(** [q.front().unwrap().received_at]; candidates are non-empty. *)
Definition head_received_at (e : Uuid * list QueuedEvent) : Z :=
  match e.2 with
  | qe :: _ => qe_received_at qe
  | [] => 0
  end.

Definition to_batch_event (qe : QueuedEvent) : BatchEvent :=
  {| be_event := qe_event qe; be_prompt_tag := qe_prompt_tag qe;
     be_received_at := qe_received_at qe |}.

Definition to_queued_event ch (be : BatchEvent) : QueuedEvent :=
  {| qe_channel_id := ch; qe_event := be_event be; qe_received_at := be_received_at be;
     qe_prompt_tag := be_prompt_tag be |}.

Definition event_created_at (be : BatchEvent) : Z := Z.of_N (created_at (be_event be)).

Definition set_in_flight now q ch (n : nat) : EventQueue :=
  let q := set_in_flight_channels ({[ch]} ∪ in_flight_channels q) q in
  let q := set_in_flight_deadlines
             (<[ch := (now + in_flight_deadline q)%Z]> (in_flight_deadlines q)) q in
  set_in_flight_batch_sizes (<[ch := n]> (in_flight_batch_sizes q)) q.

(** Re-dispatch of a cancelled batch when no queued event is ready. *)
Definition flush_cancelled now q : EventQueue * option FlushBatch :=
  match find (fun e => bool_decide (e.1 ∉ in_flight_channels q))
             (iter_entries (cancelled_batches q)) with
  | Some (ch, _) =>
      let cancelled := default [] (cancelled_batches q !! ch) in
      let cancel_reason := cancel_reasons q !! ch in
      let q := set_cancelled_batches (delete ch (cancelled_batches q)) q in
      let q := set_cancel_reasons (delete ch (cancel_reasons q)) q in
      (set_in_flight now q ch (length cancelled),
       Some {| fb_channel_id := ch; fb_events := cancelled; fb_cancelled_events := [];
               fb_cancel_reason := cancel_reason |})
  | None => (q, None)
  end.

Definition flush_channel now q ch : EventQueue * FlushBatch :=
  let queue := queue_of q ch in
  let drain_count := Nat.min MAX_BATCH_EVENTS (length queue) in
  let events := sort_by_key event_created_at (to_batch_event <$> take drain_count queue) in
  let rest := drop drain_count queue in
  let q := set_queues (if decide (rest = []) then delete ch (queues q)
                       else <[ch := rest]> (queues q)) q in
  let q := set_in_flight now q ch (length events) in
  let cancelled_events := default [] (cancelled_batches q !! ch) in
  let cancel_reason := if decide (cancelled_events = []) then None else cancel_reasons q !! ch in
  let q := set_cancelled_batches (delete ch (cancelled_batches q)) q in
  let q := set_cancel_reasons (delete ch (cancel_reasons q)) q in
  (q, {| fb_channel_id := ch; fb_events := events; fb_cancelled_events := cancelled_events;
         fb_cancel_reason := cancel_reason |}).

Definition flush_next now q : EventQueue * option FlushBatch :=
  let q := expire now q in
  match min_by_key head_received_at
          (filter (fun e => candidate now q e = true) (iter_entries (queues q))) with
  | Some (ch, _) => let '(q, batch) := flush_channel now q ch in (q, Some batch)
  | None => flush_cancelled now q
  end.

Definition has_flushable_work now q : EventQueue * bool :=
  let q := expire now q in
  (q, existsb (candidate now q) (iter_entries (queues q))
      || existsb (fun e => bool_decide (e.1 ∉ in_flight_channels q))
                 (iter_entries (cancelled_batches q))).

(** ** Completion and requeue *)

Definition mark_complete now q ch : EventQueue :=
  let q := set_in_flight_channels (in_flight_channels q ∖ {[ch]}) q in
  let q := set_in_flight_deadlines (delete ch (in_flight_deadlines q)) q in
  let q := set_in_flight_batch_sizes (delete ch (in_flight_batch_sizes q)) q in
  match retry_after q !! ch with
  | Some deadline =>
      if decide (now < deadline)%Z then q
      else
        let q := set_retry_after (delete ch (retry_after q)) q in
        set_retry_counts (delete ch (retry_counts q)) q
  | None => set_retry_counts (delete ch (retry_counts q)) q
  end.

(** [BASE * 2^(attempt-1)], the shift capped at 6, the product at [MAX]. *)
Definition capped_secs (attempt : nat) : N :=
  N.min (BASE_RETRY_DELAY_SECS * 2 ^ N.of_nat (Nat.min (attempt - 1) 6)) MAX_RETRY_DELAY_SECS.

(** The jitter factor and the delay, in [f64] arithmetic; [subsec_nanos] is the
    sub-second part of the system clock, [u32::MAX] is 4294967295. *)
Definition jitter (subsec_nanos : N) : Q :=
  f64_round (f64_round (8 # 10) +
    f64_round (f64_round (inject_Z (Z.of_N subsec_nanos) / inject_Z 4294967295)
               * f64_round (4 # 10))).

(** [Duration::from_secs_f64]: to the nearest nanosecond. *)
Definition from_secs_f64 (x : Q) : Z := Qfloor (x * inject_Z 1000000000 + (1 # 2)).

Definition retry_delay (attempt : nat) (subsec_nanos : N) : Z :=
  from_secs_f64 (f64_round (inject_Z (Z.of_N (capped_secs attempt)) * jitter subsec_nanos)).

Definition requeue_events q ch (events : list BatchEvent) : EventQueue :=
  let queue := push_front_all (to_queued_event ch <$> events) (queue_of q ch) in
  set_queues (<[ch := trim_back MAX_PENDING_PER_CHANNEL queue]> (queues q)) q.

Definition requeue now (subsec_nanos : N) q (batch : FlushBatch) :
    EventQueue * option FlushBatch :=
  let ch := fb_channel_id batch in
  let attempt := S (default 0 (retry_counts q !! ch)) in
  let q := set_retry_counts (<[ch := attempt]> (retry_counts q)) q in
  if decide (MAX_RETRIES < attempt) then
    let q := set_retry_counts (delete ch (retry_counts q)) q in
    (set_retry_after (delete ch (retry_after q)) q, Some batch)
  else
    let q := requeue_events q ch (fb_events batch) in
    (set_retry_after (<[ch := (now + retry_delay attempt subsec_nanos)%Z]> (retry_after q)) q,
     None).

Definition requeue_preserve_timestamps q (batch : FlushBatch) : EventQueue :=
  requeue_events q (fb_channel_id batch) (fb_events batch).

Definition requeue_as_cancelled q (batch : FlushBatch) (reason : CancelReason) : EventQueue :=
  let ch := fb_channel_id batch in
  let entry := default [] (cancelled_batches q !! ch) in
  let q := set_cancelled_batches
    (<[ch := entry ++ fb_cancelled_events batch ++ fb_events batch]> (cancelled_batches q)) q in
  set_cancel_reasons (<[ch := reason]> (cancel_reasons q)) q.

(** ** Channel removal and queries *)

Definition pending_channels q : nat := size (queues q).

Definition drain_channel q ch : EventQueue * list string :=
  let ids := hex_id <$> queue_of q ch in
  let q := set_queues (delete ch (queues q)) q in
  let q := set_retry_after (delete ch (retry_after q)) q in
  let q := set_retry_counts (delete ch (retry_counts q)) q in
  let q := set_cancelled_batches (delete ch (cancelled_batches q)) q in
  let q := set_cancel_reasons (delete ch (cancel_reasons q)) q in
  (set_withheld (delete ch (withheld_native_steer q)) q, ids).

Definition is_channel_in_flight q ch : bool := bool_decide (ch ∈ in_flight_channels q).

(** ** The steer side table *)

(** [position(|e| id == event_id)] followed by [remove(pos)]. *)
Fixpoint take_event (event_id : string) (l : list QueuedEvent) :
    option (QueuedEvent * list QueuedEvent) :=
  match l with
  | [] => None
  | qe :: l =>
      if decide (hex_id qe = event_id) then Some (qe, l)
      else match take_event event_id l with
           | Some (x, l) => Some (x, qe :: l)
           | None => None
           end
  end.

(** Write a list back, removing the entry when it is empty. *)
Definition put_nonempty {A} (m : gmap Uuid (list A)) ch (l : list A) : gmap Uuid (list A) :=
  match l with
  | [] => delete ch m
  | _ => <[ch := l]> m
  end.

Definition mark_native_steer_pending q ch (event_id : string) : EventQueue * bool :=
  match queues q !! ch with
  | None => (q, false)
  | Some l =>
      match take_event event_id l with
      | None => (q, false)
      | Some (qe, rest) =>
          let q := set_queues (put_nonempty (queues q) ch rest) q in
          let w := default [] (withheld_native_steer q !! ch) in
          (set_withheld (<[ch := w ++ [qe]]> (withheld_native_steer q)) q, true)
      end
  end.

Definition release_native_steer q ch (event_id : string) : EventQueue :=
  match withheld_native_steer q !! ch with
  | None => q
  | Some entries =>
      match take_event event_id entries with
      | None => q
      | Some (qe, rest) =>
          let q := set_withheld (put_nonempty (withheld_native_steer q) ch rest) q in
          set_queues (<[ch := trim_back MAX_PENDING_PER_CHANNEL (qe :: queue_of q ch)]>
                        (queues q)) q
      end
  end.

(** [retain(|e| id != event_id)] on the list of a channel, if it has one. *)
Definition retain_not (m : gmap Uuid (list QueuedEvent)) ch (event_id : string) :
    gmap Uuid (list QueuedEvent) :=
  match m !! ch with
  | None => m
  | Some l => put_nonempty m ch (filter (fun qe => hex_id qe <> event_id) l)
  end.

Definition remove_event q ch (event_id : string) : EventQueue :=
  let q := set_withheld (retain_not (withheld_native_steer q) ch event_id) q in
  set_queues (retain_not (queues q) ch event_id) q.

(** ** Compaction *)

Definition compact_expired_state now q : EventQueue :=
  let q := set_retry_after (filter (fun e => (now < e.2)%Z) (retry_after q)) q in
  set_retry_counts
    (filter (fun e => is_Some (retry_after q !! e.1) \/ queue_of q e.1 <> [] \/
                      e.1 ∈ in_flight_channels q) (retry_counts q)) q.

(** ** [dispatch_pending] when no agent can be claimed ([lib.rs]) *)

Definition dispatch_exhausted now now' q : EventQueue :=
  match flush_next now q with
  | (q, Some batch) =>
      mark_complete now' (requeue_preserve_timestamps q batch) (fb_channel_id batch)
  | (q, None) => q
  end.
End queue.

(** ** Thread tags *)

Record ThreadTags := {
  root_event_id : option string;
  parent_event_id : option string;
  mentioned_pubkeys : list string;
}.

(** The loop state of [parse_thread_tags]. *)
Record ThreadScan := { ts_root : option string; ts_reply : option string; ts_mentions : list string }.

Definition scan_thread_tag (s : ThreadScan) (parts : Tag) : ThreadScan :=
  match parts with
  | name :: v :: rest =>
      if decide (name = "e") then
        match rest with
        | _ :: marker :: _ =>
            if decide (marker = "root") then
              {| ts_root := Some v; ts_reply := ts_reply s; ts_mentions := ts_mentions s |}
            else if decide (marker = "reply") then
              {| ts_root := ts_root s; ts_reply := Some v; ts_mentions := ts_mentions s |}
            else s
        | _ => s
        end
      else if decide (name = "p") then
        {| ts_root := ts_root s; ts_reply := ts_reply s; ts_mentions := ts_mentions s ++ [v] |}
      else s
  | _ => s
  end.

Definition parse_thread_tags `{NostrApi} (ev : Event) : ThreadTags :=
  let s := fold_left scan_thread_tag (tags ev)
             {| ts_root := None; ts_reply := None; ts_mentions := [] |} in
  let '(root, parent) :=
    match ts_root s, ts_reply s with
    | Some r, Some p => (Some r, Some p)
    | Some r, None => (Some r, Some r)
    | None, Some p => (Some p, Some p)
    | None, None => (None, None)
    end in
  {| root_event_id := root; parent_event_id := parent; mentioned_pubkeys := ts_mentions s |}.
