(* ===== verification/EventQueueInv.v ===== *)
(** * Invariants of the event queue

    The well-formedness of an [EventQueue], kept by every operation: the per-channel
    cap, the ownership of events by channel, the agreement of the side tables with
    each other, and the retry budget. *)

From S2P Require Import Prelude Nostr EventQueue.

Section invariant.
Context `{NostrApi, HashMapIter, F64}.
Implicit Types (q : EventQueue) (ch : Uuid) (now : Z).

Lemma tail_length {A} (l : list A) : length (tail l) = pred (length l).
Proof. by destruct l. Qed.

(** The list of each channel belongs to that channel. *)
Definition owned (m : gmap Uuid (list QueuedEvent)) : Prop :=
  map_Forall (fun ch l => Forall (fun qe => qe_channel_id qe = ch) l) m.

Record queue_wf q : Prop := {
  wf_cap : map_Forall (fun _ l => length l <= MAX_PENDING_PER_CHANNEL) (queues q);
  wf_owned : owned (queues q);
  wf_withheld : owned (withheld_native_steer q);
  wf_withheld_nonempty : map_Forall (fun _ l => l <> []) (withheld_native_steer q);
  wf_deadlines : dom (in_flight_deadlines q) = in_flight_channels q;
  wf_sizes : dom (in_flight_batch_sizes q) = in_flight_channels q;
  wf_retries : map_Forall (fun _ n => 1 <= n <= MAX_RETRIES) (retry_counts q);
  wf_throttled : dom (retry_after q) ⊆ dom (retry_counts q);
  wf_reasons : dom (cancel_reasons q) = dom (cancelled_batches q);
}.

Lemma owned_insert m ch l :
  owned m -> Forall (fun qe => qe_channel_id qe = ch) l -> owned (<[ch := l]> m).
Proof. intros Hm Hl. by apply map_Forall_insert_2. Qed.

Lemma owned_delete m ch : owned m -> owned (delete ch m).
Proof. apply map_Forall_delete. Qed.

Lemma owned_put m ch l :
  owned m -> Forall (fun qe => qe_channel_id qe = ch) l -> owned (put_nonempty m ch l).
Proof. intros ??. destruct l; [by apply owned_delete|by apply owned_insert]. Qed.

Lemma owned_default m ch : owned m -> Forall (fun qe => qe_channel_id qe = ch) (default [] (m !! ch)).
Proof. intros Hm. destruct (m !! ch) eqn:E; [exact (Hm _ _ E)|constructor]. Qed.

Lemma nonempty_put {A} (m : gmap Uuid (list A)) ch l :
  map_Forall (fun _ l => l <> []) m -> map_Forall (fun _ l => l <> []) (put_nonempty m ch l).
Proof. intros ?. destruct l; [by apply map_Forall_delete|by apply map_Forall_insert_2]. Qed.

Lemma map_Forall_put {A} (P : Uuid -> list A -> Prop) (m : gmap Uuid (list A)) ch l :
  map_Forall P m -> P ch l -> map_Forall P (put_nonempty m ch l).
Proof. intros ??. destruct l; [by apply map_Forall_delete|by apply map_Forall_insert_2]. Qed.

Lemma cap_default q ch :
  queue_wf q -> length (queue_of q ch) <= MAX_PENDING_PER_CHANNEL.
Proof.
  intros Hq. unfold queue_of. destruct (queues q !! ch) eqn:E; simpl; [|lia].
  exact (wf_cap q Hq _ _ E).
Qed.

Lemma owned_to_queued ch bes :
  Forall (fun qe => qe_channel_id qe = ch) (to_queued_event ch <$> bes).
Proof. apply Forall_fmap, Forall_true. done. Qed.

(** The list written back by the requeues: new events first, trimmed to the cap. *)
Lemma wf_put_front q ch new :
  queue_wf q -> Forall (fun qe => qe_channel_id qe = ch) new ->
  queue_wf (set_queues (<[ch := trim_back MAX_PENDING_PER_CHANNEL
                                  (push_front_all new (queue_of q ch))]> (queues q)) q).
Proof.
  intros Hq Hnew. pose proof (owned_default _ ch (wf_owned q Hq)) as Hold.
  destruct Hq, q; split; cbn in *; try done; autorewrite with buzz.
  - apply map_Forall_insert_2; [|done]. rewrite length_take. lia.
  - apply owned_insert; [done|]. by apply Forall_take, Forall_app.
Qed.

Lemma requeue_events_wf q ch bes : queue_wf q -> queue_wf (requeue_events q ch bes).
Proof. intros Hq. apply wf_put_front; [done|apply owned_to_queued]. Qed.

Lemma set_withheld_wf q m :
  queue_wf q -> owned m -> map_Forall (fun _ l => l <> []) m -> queue_wf (set_withheld m q).
Proof. intros Hq ??. destruct Hq, q; by split. Qed.

Lemma queue_of_set_withheld q m ch : queue_of (set_withheld m q) ch = queue_of q ch.
Proof. by destruct q. Qed.

Lemma queues_set_withheld q m : queues (set_withheld m q) = queues q.
Proof. by destruct q. Qed.

Lemma recover_wf q ch : queue_wf q -> queue_wf (recover_withheld_for_expired_channel q ch).
Proof.
  intros Hq. unfold recover_withheld_for_expired_channel.
  destruct (withheld_native_steer q !! ch) as [l|] eqn:E; [|done].
  apply wf_put_front.
  - apply set_withheld_wf; [done|apply owned_delete, Hq|apply map_Forall_delete, Hq].
  - exact (wf_withheld q Hq _ _ E).
Qed.

(** Leaving flight: the three in-flight tables lose the channel together. *)
Lemma leave_flight_wf q ch :
  queue_wf q ->
  queue_wf (set_in_flight_deadlines (delete ch (in_flight_deadlines q))
    (set_in_flight_channels (in_flight_channels q ∖ {[ch]})
      (set_in_flight_batch_sizes (delete ch (in_flight_batch_sizes q)) q))).
Proof. intros Hq. destruct Hq, q; split; cbn in *; try done; set_solver. Qed.

Lemma release_expired_wf q ch : queue_wf q -> queue_wf (release_expired q ch).
Proof.
  intros Hq. unfold release_expired. apply recover_wf.
  pose proof (leave_flight_wf q ch Hq) as Hl. by destruct q.
Qed.

Lemma expire_wf now q : queue_wf q -> queue_wf (expire now q).
Proof.
  unfold expire. generalize (expired now q). intros l. revert q.
  induction l as [|ch l IH]; simpl; [done|]. intros q Hq. by apply IH, release_expired_wf.
Qed.

Lemma set_in_flight_wf now q ch n : queue_wf q -> queue_wf (set_in_flight now q ch n).
Proof.
  intros Hq. destruct Hq, q; split; cbn in *; try done; rewrite dom_insert_L; by f_equal.
Qed.

Lemma forget_cancelled_wf q ch :
  queue_wf q ->
  queue_wf (set_cancel_reasons (delete ch (cancel_reasons q))
             (set_cancelled_batches (delete ch (cancelled_batches q)) q)).
Proof. intros Hq. destruct Hq, q; split; cbn in *; try done. set_solver. Qed.

Lemma shrink_queue_wf q ch n :
  queue_wf q ->
  queue_wf (set_queues (if decide (drop n (queue_of q ch) = []) then delete ch (queues q)
                        else <[ch := drop n (queue_of q ch)]> (queues q)) q).
Proof.
  intros Hq. pose proof (cap_default q ch Hq) as Hcap.
  pose proof (owned_default _ ch (wf_owned q Hq)) as Hold.
  destruct Hq, q; split; cbn in *; try done; case_decide;
    try (by apply map_Forall_delete).
  - apply map_Forall_insert_2; [|done]. rewrite length_drop. unfold queue_of in *. cbn in *. lia.
  - apply owned_insert; [done|]. by apply Forall_drop.
Qed.

Lemma flush_channel_wf now q ch : queue_wf q -> queue_wf (flush_channel now q ch).1.
Proof.
  intros Hq. unfold flush_channel. cbn [fst].
  pose proof (shrink_queue_wf q ch (Nat.min MAX_BATCH_EVENTS (length (queue_of q ch))) Hq) as Hq1.
  pose proof (set_in_flight_wf now _ ch (length (sort_by_key event_created_at (to_batch_event <$>
    take (Nat.min MAX_BATCH_EVENTS (length (queue_of q ch))) (queue_of q ch)))) Hq1) as Hq2.
  pose proof (forget_cancelled_wf _ ch Hq2) as Hq3. by destruct q.
Qed.

Lemma flush_cancelled_wf now q : queue_wf q -> queue_wf (flush_cancelled now q).1.
Proof.
  intros Hq. unfold flush_cancelled. destruct (find _ _) as [[ch l]|]; [|done]. cbn [fst].
  pose proof (forget_cancelled_wf q ch Hq) as Hq1.
  pose proof (set_in_flight_wf now _ ch (length (default [] (cancelled_batches q !! ch))) Hq1).
  by destruct q.
Qed.

Lemma flush_next_wf now q : queue_wf q -> queue_wf (flush_next now q).1.
Proof.
  intros Hq%(expire_wf now). unfold flush_next. destruct (min_by_key _ _) as [[ch l]|].
  - pose proof (flush_channel_wf now (expire now q) ch Hq).
    by destruct (flush_channel now (expire now q) ch).
  - by apply flush_cancelled_wf.
Qed.

Lemma push_wf q ev : queue_wf q -> queue_wf (push q ev).1.
Proof.
  intros Hq. unfold push. destruct (_ && _); [done|]. cbn [fst].
  pose proof (cap_default q (qe_channel_id ev) Hq) as Hcap.
  pose proof (owned_default _ (qe_channel_id ev) (wf_owned q Hq)) as Hold.
  destruct Hq, q; split; cbn in *; try done.
  - apply map_Forall_insert_2; [|done]. rewrite length_app. simpl. unfold queue_of in *. cbn in *.
    case_decide; [rewrite tail_length|]; unfold MAX_PENDING_PER_CHANNEL in *; lia.
  - apply owned_insert; [done|]. apply Forall_app. split; [|by constructor].
    case_decide; [by apply Forall_tail|done].
Qed.

Lemma mark_complete_wf now q ch : queue_wf q -> queue_wf (mark_complete now q ch).
Proof.
  intros Hq. unfold mark_complete. destruct Hq, q; cbn in *.
  destruct (retry_after !! ch) as [t|] eqn:E; [case_decide|]; split; cbn; try done;
    try set_solver; try (by apply map_Forall_delete).
  apply not_elem_of_dom in E. set_solver.
Qed.

Lemma requeue_wf now ns q b : queue_wf q -> queue_wf (requeue now ns q b).1.
Proof.
  intros Hq. unfold requeue. case_decide as Hmax; cbn [fst].
  - destruct Hq, q; split; cbn in *; try done; [|set_solver].
    rewrite delete_insert_eq. by apply map_Forall_delete.
  - set (ch := fb_channel_id b) in *.
    assert (Hq1 : queue_wf (set_retry_counts
        (<[ch := S (default 0 (retry_counts q !! ch))]> (retry_counts q)) q)).
    { destruct Hq, q; split; cbn in *; try done; [|set_solver].
      apply map_Forall_insert_2; [lia|done]. }
    apply (requeue_events_wf _ ch (fb_events b)) in Hq1.
    destruct Hq1, q; split; cbn in *; try done. set_solver.
Qed.

Lemma requeue_as_cancelled_wf q b reason : queue_wf q -> queue_wf (requeue_as_cancelled q b reason).
Proof. intros Hq. destruct Hq, q; split; cbn in *; try done. set_solver. Qed.

Lemma drain_channel_wf q ch : queue_wf q -> queue_wf (drain_channel q ch).1.
Proof.
  intros Hq. destruct Hq, q; split; cbn in *; try done; try (by apply map_Forall_delete);
    set_solver.
Qed.

Lemma extend_wf now q ch n : queue_wf q -> queue_wf (extend_in_flight_deadline now q ch n).
Proof.
  intros Hq. unfold extend_in_flight_deadline.
  destruct (in_flight_deadlines q !! ch) eqn:E; [|done]. case_decide; [|done].
  apply elem_of_dom_2 in E. destruct Hq, q; split; cbn in *; try done. set_solver.
Qed.

Lemma with_deadline_wf q n : queue_wf q -> queue_wf (with_in_flight_deadline q n).
Proof. intros Hq. destruct Hq, q; by split. Qed.

Lemma take_event_split event_id l qe rest :
  take_event event_id l = Some (qe, rest) ->
  exists l1 l2, l = l1 ++ qe :: l2 /\ rest = l1 ++ l2 /\ hex_id qe = event_id /\
    Forall (fun e => hex_id e <> event_id) l1.
Proof.
  revert rest. induction l as [|e l IH]; simpl; intros rest Ht; [done|]. case_decide as He.
  - injection Ht as <- <-. exists [], l. by repeat split.
  - destruct (take_event event_id l) as [[x r]|]; [|done]. injection Ht as <- <-.
    destruct (IH _ eq_refl) as (l1 & l2 & -> & -> & ? & ?). exists (e :: l1), l2.
    repeat split; try done. by constructor.
Qed.

Lemma take_event_None event_id l :
  take_event event_id l = None <-> Forall (fun e => hex_id e <> event_id) l.
Proof.
  induction l as [|e l IH]; simpl; [by split|]. rewrite Forall_cons, <-IH.
  case_decide; [naive_solver|]. destruct (take_event event_id l) as [[]|]; naive_solver.
Qed.

Lemma mark_steer_wf q ch event_id : queue_wf q -> queue_wf (mark_native_steer_pending q ch event_id).1.
Proof.
  intros Hq. unfold mark_native_steer_pending.
  destruct (queues q !! ch) as [l|] eqn:E; [|done].
  destruct (take_event event_id l) as [[qe rest]|] eqn:Ht; [|done]. cbn [fst].
  pose proof (wf_owned q Hq _ _ E) as Hl. pose proof (wf_cap q Hq _ _ E) as Hc.
  pose proof (owned_default _ ch (wf_withheld q Hq)) as Hw.
  apply take_event_split in Ht as (l1 & l2 & -> & -> & _ & _).
  apply Forall_app in Hl as [Hl1 [Hqe Hl2]%Forall_cons]. simpl in Hc. rewrite length_app in Hc.
  simpl in Hc. destruct Hq, q; split; cbn in *; try done.
  - apply (map_Forall_put (fun _ l => length l <= MAX_PENDING_PER_CHANNEL)); [done|].
    rewrite length_app. lia.
  - apply owned_put; [done|]. by apply Forall_app.
  - apply owned_insert; [done|]. apply Forall_app. split; [done|by constructor].
  - apply map_Forall_insert_2; [|done]. by destruct (default _ _).
Qed.

Lemma release_steer_wf q ch event_id : queue_wf q -> queue_wf (release_native_steer q ch event_id).
Proof.
  intros Hq. unfold release_native_steer.
  destruct (withheld_native_steer q !! ch) as [l|] eqn:E; [|done].
  destruct (take_event event_id l) as [[qe rest]|] eqn:Ht; [|done].
  pose proof (wf_withheld q Hq _ _ E) as Hl.
  apply take_event_split in Ht as (l1 & l2 & -> & -> & _ & _).
  apply Forall_app in Hl as [Hl1 [Hqe Hl2]%Forall_cons].
  set (q' := set_withheld _ q).
  assert (Hq' : queue_wf q').
  { apply set_withheld_wf; [done|apply owned_put; [apply Hq|by apply Forall_app]|].
    apply nonempty_put, Hq. }
  apply (wf_put_front q' ch [qe]); [done|by constructor].
Qed.

Lemma retain_not_Forall (P : Uuid -> list QueuedEvent -> Prop) m ch event_id :
  map_Forall P m ->
  (forall l, P ch l -> P ch (filter (fun qe => hex_id qe <> event_id) l)) ->
  map_Forall P (retain_not m ch event_id).
Proof.
  intros Hm HP. unfold retain_not. destruct (m !! ch) as [l|] eqn:E; [|done].
  apply map_Forall_put; [done|]. apply HP, (Hm _ _ E).
Qed.

Lemma retain_not_nonempty m ch event_id :
  map_Forall (fun _ l => l <> []) m -> map_Forall (fun _ l => l <> []) (retain_not m ch event_id).
Proof. intros Hm. unfold retain_not. destruct (m !! ch); [by apply nonempty_put|done]. Qed.

Lemma remove_event_wf q ch event_id : queue_wf q -> queue_wf (remove_event q ch event_id).
Proof.
  intros Hq. destruct Hq, q; split; cbn in *; try done.
  - apply (retain_not_Forall (fun _ l => length l <= MAX_PENDING_PER_CHANNEL)); [done|].
    intros l Hl. pose proof (length_filter (fun qe => hex_id qe <> event_id) l). lia.
  - apply retain_not_Forall; [done|]. intros l Hl. rewrite Forall_forall in *.
    intros x [_ Hx]%list_elem_of_filter. by apply Hl.
  - apply retain_not_Forall; [done|]. intros l Hl. rewrite Forall_forall in *.
    intros x [_ Hx]%list_elem_of_filter. by apply Hl.
  - by apply retain_not_nonempty.
Qed.

Lemma compact_wf now q : queue_wf q -> queue_wf (compact_expired_state now q).
Proof.
  intros Hq. destruct Hq, q; split; cbn in *; try done.
  - intros ch n [Hn _]%map_lookup_filter_Some. exact (wf_retries0 _ _ Hn).
  - intros ch [t Ht]%elem_of_dom. pose proof Ht as [Hra _]%map_lookup_filter_Some.
    apply elem_of_dom. apply elem_of_dom_2, wf_throttled0, elem_of_dom in Hra as [n Hn].
    exists n. apply map_lookup_filter_Some. split; [done|]. left. by exists t.
Qed.

(** ** Runs *)

Inductive QueueOp :=
| OpPush (ev : QueuedEvent)
| OpFlush (now : Z)
| OpHasWork (now : Z)
| OpComplete (now : Z) (ch : Uuid)
| OpRequeue (now : Z) (subsec_nanos : N) (batch : FlushBatch)
| OpPreserve (batch : FlushBatch)
| OpCancelled (batch : FlushBatch) (reason : CancelReason)
| OpDrain (ch : Uuid)
| OpExtend (now : Z) (ch : Uuid) (max_turn_secs : N)
| OpSetDeadline (max_turn_secs : N)
| OpMarkSteer (ch : Uuid) (event_id : string)
| OpReleaseSteer (ch : Uuid) (event_id : string)
| OpRemoveEvent (ch : Uuid) (event_id : string)
| OpCompact (now : Z).

Definition run_queue_op q (op : QueueOp) : EventQueue :=
  match op with
  | OpPush ev => (push q ev).1
  | OpFlush now => (flush_next now q).1
  | OpHasWork now => (has_flushable_work now q).1
  | OpComplete now ch => mark_complete now q ch
  | OpRequeue now ns batch => (requeue now ns q batch).1
  | OpPreserve batch => requeue_preserve_timestamps q batch
  | OpCancelled batch reason => requeue_as_cancelled q batch reason
  | OpDrain ch => (drain_channel q ch).1
  | OpExtend now ch n => extend_in_flight_deadline now q ch n
  | OpSetDeadline n => with_in_flight_deadline q n
  | OpMarkSteer ch event_id => (mark_native_steer_pending q ch event_id).1
  | OpReleaseSteer ch event_id => release_native_steer q ch event_id
  | OpRemoveEvent ch event_id => remove_event q ch event_id
  | OpCompact now => compact_expired_state now q
  end.

Definition run_queue (mode : DedupMode) (ops : list QueueOp) : EventQueue :=
  fold_left run_queue_op ops (EventQueue_new mode).

Lemma run_queue_op_wf q op : queue_wf q -> queue_wf (run_queue_op q op).
Proof.
  intros Hq. destruct op; cbn [run_queue_op].
  - by apply push_wf.
  - by apply flush_next_wf.
  - by apply expire_wf.
  - by apply mark_complete_wf.
  - by apply requeue_wf.
  - by apply requeue_events_wf.
  - by apply requeue_as_cancelled_wf.
  - by apply drain_channel_wf.
  - by apply extend_wf.
  - by apply with_deadline_wf.
  - by apply mark_steer_wf.
  - by apply release_steer_wf.
  - by apply remove_event_wf.
  - by apply compact_wf.
Qed.

Lemma new_queue_wf mode : queue_wf (EventQueue_new mode).
Proof.
  split; cbn; unfold owned; rewrite ?dom_empty_L; first [reflexivity|set_solver|apply map_Forall_empty].
Qed.

(** C24: whatever sequence of operations is run, the queue stays well-formed: at most
    500 events wait per channel, each under its own channel, as do the withheld ones;
    the deadline and batch-size tables list exactly the channels in flight, so every
    prompt in flight can expire; a channel is throttled only while it has a retry
    count, which stays between 1 and 10; and a cancel reason exists exactly for the
    channels with a cancelled batch. *)
Theorem queue_invariant mode ops : queue_wf (run_queue mode ops).
Proof.
  unfold run_queue. generalize (new_queue_wf mode). generalize (EventQueue_new mode).
  induction ops as [|op ops IH]; simpl; [done|]. intros q Hq. by apply IH, run_queue_op_wf.
Qed.
End invariant.
