(* ===== verification/EventQueueFlush.v ===== *)
(** * Flushing and conservation of events in the event queue

    What expiry, [flush_next] and the requeues do to the events of each channel, and
    the theorems on exclusivity, fairness, progress and conservation. *)

From S2P Require Import Prelude Nostr EventQueue EventQueueInv.

(** Split on the membership of [x] in [l1 ++ l2]. *)
Ltac decide_app x l1 l2 :=
  destruct (decide (x ∈ l1)), (decide (x ∈ l2));
  first [rewrite (decide_True (P := x ∈ l1 ++ l2)) by (rewrite elem_of_app; tauto)
        |rewrite (decide_False (P := x ∈ l1 ++ l2)) by (rewrite elem_of_app; tauto)].

Section flush.
Context `{NostrApi, HashMapIter, F64}.
Implicit Types (q : EventQueue) (ch : Uuid) (now : Z).

(** ** What a channel holds *)

Definition withheld_of q ch : list QueuedEvent := default [] (withheld_native_steer q !! ch).
Definition cancelled_of q ch : list BatchEvent := default [] (cancelled_batches q !! ch).

(** Every event the queue keeps for a channel: waiting, withheld or cancelled. *)
Definition held q ch : list BatchEvent :=
  (to_batch_event <$> queue_of q ch) ++ (to_batch_event <$> withheld_of q ch) ++ cancelled_of q ch.

(** A channel [flush_next] may serve. *)
Definition eligible now q ch : Prop :=
  queue_of q ch <> [] /\ ch ∉ in_flight_channels q /\
  forall t, retry_after q !! ch = Some t -> (t <= now)%Z.

(** The arrival time of a channel's first event. *)
Definition head_of q ch : Z := head_received_at (ch, queue_of q ch).

Definition batch_held (b : FlushBatch) : list BatchEvent := fb_events b ++ fb_cancelled_events b.

Definition recovered q ch : list QueuedEvent :=
  take MAX_PENDING_PER_CHANNEL (withheld_of q ch ++ queue_of q ch).

(** *** Expiry *)

(** What releasing the channels [l] does to each table. *)
Record released (l : list Uuid) q q' : Prop := {
  rel_in_flight : forall ch, ch ∈ in_flight_channels q' <-> ch ∈ in_flight_channels q /\ ch ∉ l;
  rel_deadlines : forall ch, in_flight_deadlines q' !! ch =
    if decide (ch ∈ l) then None else in_flight_deadlines q !! ch;
  rel_queue : forall ch, queue_of q' ch = if decide (ch ∈ l) then recovered q ch else queue_of q ch;
  rel_withheld : forall ch, withheld_of q' ch = if decide (ch ∈ l) then [] else withheld_of q ch;
  rel_cancelled : cancelled_batches q' = cancelled_batches q;
  rel_reasons : cancel_reasons q' = cancel_reasons q;
  rel_after : retry_after q' = retry_after q;
  rel_counts : retry_counts q' = retry_counts q;
  rel_mode : dedup_mode q' = dedup_mode q;
  rel_deadline : in_flight_deadline q' = in_flight_deadline q;
}.

Lemma release_expired_released q ch : queue_wf q -> released [ch] q (release_expired q ch).
Proof.
  intros Hq. pose proof (cap_default q ch Hq) as Hcap.
  unfold release_expired, recover_withheld_for_expired_channel, recovered, withheld_of, queue_of in *.
  destruct q as [qs fl dl sz ra rc dm cb cr wh d]. cbn in *.
  destruct (wh !! ch) as [ws|] eqn:E; split; unfold recovered, withheld_of, queue_of; cbn; try done; intros ch'; autorewrite with buzz;
    rewrite ?lookup_delete, ?lookup_insert, ?list_elem_of_singleton; try set_solver.
  all: destruct (decide (ch' = ch)) as [->|Hne];
    [rewrite !decide_True by solve [done|by apply list_elem_of_singleton]|
     rewrite ?decide_False by solve [congruence|by rewrite list_elem_of_singleton]]; try done.
  all: rewrite ?E; simpl; try done. all: by rewrite take_ge.
Qed.

Lemma released_trans l1 l2 q q' q'' :
  released l1 q q' -> released l2 q' q'' -> released (l1 ++ l2) q q''.
Proof.
  intros [] []. split; try congruence.
  - intros ch. rewrite rel_in_flight1, rel_in_flight0, elem_of_app. tauto.
  - intros ch. rewrite rel_deadlines1, rel_deadlines0. by decide_app ch l1 l2.
  - intros ch. rewrite rel_queue1. unfold recovered. rewrite rel_queue0, rel_withheld0.
    unfold recovered. decide_app ch l1 l2; try done. simpl. by rewrite take_take, Nat.min_id.
  - intros ch. rewrite rel_withheld1, rel_withheld0. by decide_app ch l1 l2.
Qed.

Lemma fold_release_released l q :
  queue_wf q -> released l q (fold_left release_expired l q).
Proof.
  revert q. induction l as [|ch l IH]; intros q Hq; cbn [fold_left].
  - split; try done; [set_solver|..]; intros ch; by rewrite decide_False by set_solver.
  - apply (released_trans [ch] l q (release_expired q ch)); [by apply release_expired_released|].
    by apply IH, release_expired_wf.
Qed.

Lemma elem_of_expired now q ch :
  ch ∈ expired now q <-> exists t, in_flight_deadlines q !! ch = Some t /\ (t <= now)%Z.
Proof.
  unfold expired. rewrite list_elem_of_fmap. split.
  - intros ([c t] & -> & [Ht Hin]%list_elem_of_filter). exists t.
    by rewrite elem_of_iter_entries in Hin.
  - intros (t & Hin & Ht). exists (ch, t). split; [done|]. apply list_elem_of_filter.
    by rewrite elem_of_iter_entries.
Qed.

Lemma expire_released now q : queue_wf q -> released (expired now q) q (expire now q).
Proof. apply fold_release_released. Qed.

(** Expiring loses no event, except past the cap, and reorders none. *)
Lemma expire_held now q ch :
  queue_wf q -> length (withheld_of q ch) + length (queue_of q ch) <= MAX_PENDING_PER_CHANNEL ->
  held (expire now q) ch ≡ₚ held q ch.
Proof.
  intros Hq Hlen. destruct (expire_released now q Hq) as [_ _ Hqu Hw Hc _ _ _ _ _].
  unfold held, cancelled_of. rewrite Hc, Hqu, Hw. case_decide; [|done].
  unfold recovered. rewrite take_ge by (rewrite length_app; lia).
  rewrite fmap_app. simpl. by rewrite (Permutation_app_comm (to_batch_event <$> withheld_of q ch)), <-!app_assoc.
Qed.

(** *** Candidates *)

Lemma candidate_true now q ch l :
  queues q !! ch = Some l -> candidate now q (ch, l) = true <-> eligible now q ch.
Proof.
  intros E. unfold candidate, eligible, not_throttled, queue_of. rewrite E. simpl.
  rewrite !andb_true_iff, !bool_decide_eq_true. destruct (retry_after q !! ch) as [t|].
  - rewrite bool_decide_eq_true. naive_solver.
  - naive_solver.
Qed.

Lemma elem_of_candidates now q ch l :
  (ch, l) ∈ filter (fun e => candidate now q e = true) (iter_entries (queues q)) <->
  queues q !! ch = Some l /\ eligible now q ch.
Proof.
  rewrite list_elem_of_filter, elem_of_iter_entries. split.
  - intros [Hc E]. by rewrite (candidate_true _ _ _ _ E) in Hc.
  - intros [E He]. by rewrite (candidate_true _ _ _ _ E).
Qed.

Lemma eligible_queue now q ch : eligible now q ch -> queues q !! ch = Some (queue_of q ch).
Proof. intros [Hne _]. unfold queue_of in *. by destruct (queues q !! ch). Qed.

(** The channel picked: eligible, with the oldest head, or none is eligible. *)
Lemma flush_next_cases now q :
  (exists ch, eligible now (expire now q) ch /\
     (forall ch', eligible now (expire now q) ch' ->
        (head_of (expire now q) ch <= head_of (expire now q) ch')%Z) /\
     flush_next now q = ((flush_channel now (expire now q) ch).1,
                         Some (flush_channel now (expire now q) ch).2)) \/
  ((forall ch, ~ eligible now (expire now q) ch) /\
   flush_next now q = flush_cancelled now (expire now q)).
Proof.
  unfold flush_next. set (q1 := expire now q). destruct (min_by_key _ _) as [[ch l]|] eqn:Hmin.
  - left. exists ch. apply min_by_key_Some in Hmin as [Hin Hle].
    apply elem_of_candidates in Hin as [Hl He]. split; [done|]. split.
    + intros ch' He'. pose proof (eligible_queue _ _ _ He') as Hl'.
      specialize (Hle (ch', queue_of q1 ch')). unfold head_of.
      pose proof (eligible_queue _ _ _ He) as Hl2. rewrite Hl in Hl2. injection Hl2 as Hl2.
      rewrite <-Hl2. apply Hle, elem_of_candidates. by split.
    + by destruct (flush_channel now q1 ch).
  - right. apply min_by_key_None in Hmin. split; [|done]. intros ch He.
    pose proof (proj2 (elem_of_candidates now q1 ch (queue_of q1 ch))
                  (conj (eligible_queue _ _ _ He) He)) as Hin.
    rewrite Hmin in Hin. inversion Hin.
Qed.

(** *** The cancelled fallback *)

Lemma find_None_iff {A} (f : A -> bool) (l : list A) :
  find f l = None <-> forall x, x ∈ l -> f x = false.
Proof.
  split; [intros Hf x Hx; by apply (find_none f l Hf), list_elem_of_In|].
  intros Hall. destruct (find f l) as [x|] eqn:E; [|done].
  apply find_some in E as [Hin Hx]. apply list_elem_of_In in Hin. rewrite (Hall x Hin) in Hx. done.
Qed.

Lemma flush_cancelled_cases now q :
  (exists ch l, cancelled_batches q !! ch = Some l /\ ch ∉ in_flight_channels q /\
     flush_cancelled now q =
       (set_in_flight now (set_cancel_reasons (delete ch (cancel_reasons q))
          (set_cancelled_batches (delete ch (cancelled_batches q)) q)) ch (length l),
        Some {| fb_channel_id := ch; fb_events := l; fb_cancelled_events := [];
                fb_cancel_reason := cancel_reasons q !! ch |})) \/
  ((forall ch, is_Some (cancelled_batches q !! ch) -> ch ∈ in_flight_channels q) /\
   flush_cancelled now q = (q, None)).
Proof.
  unfold flush_cancelled. destruct (find _ _) as [[ch l]|] eqn:Hf.
  - left. apply find_some in Hf as [Hin Hfl]. apply list_elem_of_In in Hin.
    apply elem_of_iter_entries in Hin. apply bool_decide_eq_true in Hfl.
    exists ch, l. rewrite Hin. simpl. split; [done|]. split; [done|]. by destruct q.
  - right. split; [|done]. intros ch [l Hl]. rewrite find_None_iff in Hf.
    specialize (Hf (ch, l)). rewrite elem_of_iter_entries in Hf. specialize (Hf Hl).
    apply bool_decide_eq_false in Hf. by apply dec_stable.
Qed.

(** *** The effect of a flush on every table *)

(** The events a flush drains from the queue of a channel. *)
Definition drained q ch : list QueuedEvent := take MAX_BATCH_EVENTS (queue_of q ch).

Record dispatched now q q' ch : Prop := {
  dis_in_flight : in_flight_channels q' = {[ch]} ∪ in_flight_channels q;
  dis_deadlines : in_flight_deadlines q' =
    <[ch := (now + in_flight_deadline q)%Z]> (in_flight_deadlines q);
  dis_cancelled : cancelled_batches q' = delete ch (cancelled_batches q);
  dis_withheld : withheld_native_steer q' = withheld_native_steer q;
  dis_other : forall ch', ch' <> ch -> queues q' !! ch' = queues q !! ch';
  dis_after : retry_after q' = retry_after q;
  dis_counts : retry_counts q' = retry_counts q;
}.

Lemma take_min {A} n (l : list A) : take (Nat.min n (length l)) l = take n l.
Proof. destruct (Nat.min_spec n (length l)) as [[? ->]|[? ->]]; [done|by rewrite !take_ge by lia]. Qed.

Lemma drop_min {A} n (l : list A) : drop (Nat.min n (length l)) l = drop n l.
Proof. destruct (Nat.min_spec n (length l)) as [[? ->]|[? ->]]; [done|by rewrite !drop_ge by lia]. Qed.

Lemma flush_channel_dispatched now q ch : dispatched now q (flush_channel now q ch).1 ch.
Proof.
  unfold flush_channel. destruct q. split; cbn; try done.
  intros ch' Hne. case_decide; by rewrite ?lookup_delete_ne, ?lookup_insert_ne by done.
Qed.

Lemma flush_channel_queue now q ch :
  queue_of (flush_channel now q ch).1 ch = drop MAX_BATCH_EVENTS (queue_of q ch).
Proof.
  unfold flush_channel. destruct q. unfold queue_of. cbn -[Nat.min drop MAX_BATCH_EVENTS].
  rewrite drop_min. case_decide as Hd.
  - by rewrite lookup_delete_eq, Hd.
  - by rewrite lookup_insert_eq.
Qed.

Lemma flush_channel_batch now q ch :
  fb_channel_id (flush_channel now q ch).2 = ch /\
  fb_events (flush_channel now q ch).2 =
    sort_by_key event_created_at (to_batch_event <$> drained q ch) /\
  fb_cancelled_events (flush_channel now q ch).2 = cancelled_of q ch.
Proof.
  unfold flush_channel, drained, cancelled_of. cbn -[take Nat.min].
  rewrite take_min. destruct q. by split_and!.
Qed.

Lemma flush_cancelled_dispatched now q ch (l : list BatchEvent) :
  dispatched now q (set_in_flight now (set_cancel_reasons (delete ch (cancel_reasons q))
    (set_cancelled_batches (delete ch (cancelled_batches q)) q)) ch (length l)) ch.
Proof. destruct q. by split. Qed.

(** The two ways a batch leaves the queue. *)
Inductive flush_result now q1 (q' : EventQueue) (b : FlushBatch) : Prop :=
| flushed_channel ch :
    eligible now q1 ch ->
    (forall ch', eligible now q1 ch' -> (head_of q1 ch <= head_of q1 ch')%Z) ->
    fb_channel_id b = ch ->
    fb_events b = sort_by_key event_created_at (to_batch_event <$> drained q1 ch) ->
    fb_cancelled_events b = cancelled_of q1 ch ->
    queue_of q' ch = drop MAX_BATCH_EVENTS (queue_of q1 ch) ->
    dispatched now q1 q' ch -> flush_result now q1 q' b
| flushed_cancelled ch :
    (forall ch', ~ eligible now q1 ch') ->
    ch ∉ in_flight_channels q1 ->
    fb_channel_id b = ch ->
    cancelled_batches q1 !! ch = Some (fb_events b) ->
    fb_cancelled_events b = [] ->
    queues q' !! ch = queues q1 !! ch ->
    dispatched now q1 q' ch -> flush_result now q1 q' b.

Lemma flush_next_result now q q' b :
  flush_next now q = (q', Some b) -> flush_result now (expire now q) q' b.
Proof.
  intros Hf. destruct (flush_next_cases now q) as [(ch & He & Hold & Heq)|(Hno & Heq)].
  - rewrite Heq in Hf. injection Hf as <- <-.
    destruct (flush_channel_batch now (expire now q) ch) as (Hch & Hev & Hc).
    apply (flushed_channel _ _ _ _ ch); try done; [apply flush_channel_queue|].
    apply flush_channel_dispatched.
  - rewrite Heq in Hf. destruct (flush_cancelled_cases now (expire now q))
      as [(ch & l & Hl & Hnf & Heq')|(_ & Heq')]; rewrite Heq' in Hf; [|done].
    injection Hf as <- <-. apply (flushed_cancelled _ _ _ _ ch); try done.
    + by destruct (expire now q).
    + apply flush_cancelled_dispatched.
Qed.

Lemma dispatched_held now q q' ch ch' :
  dispatched now q q' ch -> ch' <> ch -> held q' ch' = held q ch'.
Proof.
  intros [] Hne. unfold held, queue_of, withheld_of, cancelled_of.
  by rewrite dis_withheld0, dis_other0, dis_cancelled0, lookup_delete_ne by done.
Qed.

(** A flush moves events into the batch, losing and duplicating none. *)
Lemma flush_result_held now q1 q' b :
  flush_result now q1 q' b ->
  held q1 (fb_channel_id b) ≡ₚ batch_held b ++ held q' (fb_channel_id b) /\
  forall ch, ch <> fb_channel_id b -> held q' ch = held q1 ch.
Proof.
  intros [ch He _ -> Hev Hc Hq Hd|ch _ _ -> Hcb Hc Hq Hd]; (split; [|by eauto using dispatched_held]).
  - unfold batch_held, held. rewrite Hev, Hc, Hq. unfold withheld_of at 2, cancelled_of at 3.
    rewrite (dis_withheld _ _ _ _ Hd), (dis_cancelled _ _ _ _ Hd), lookup_delete_eq. simpl.
    rewrite sort_by_key_perm, app_nil_r. unfold drained. fold (withheld_of q1 ch).
    rewrite <-(take_drop MAX_BATCH_EVENTS (queue_of q1 ch)) at 1. rewrite fmap_app.
    rewrite <-!app_assoc. apply Permutation_app_head.
    rewrite (Permutation_app_comm (cancelled_of q1 ch)). by rewrite <-app_assoc.
  - unfold batch_held, held. rewrite Hc, app_nil_r. unfold queue_of, withheld_of, cancelled_of.
    rewrite (dis_withheld _ _ _ _ Hd), (dis_cancelled _ _ _ _ Hd), lookup_delete_eq, Hq, Hcb. simpl.
    rewrite app_nil_r, app_assoc. apply Permutation_app_comm.
Qed.
End flush.

(** ** Properties *)

Section properties.
Context `{NostrApi, HashMapIter, F64}.
Implicit Types (q : EventQueue) (ch : Uuid) (now : Z).

Lemma run_queue_wf mode ops : queue_wf (run_queue mode ops).
Proof.
  unfold run_queue. generalize (new_queue_wf mode). generalize (EventQueue_new mode).
  induction ops as [|op ops IH]; simpl; [done|]. intros q Hq. by apply IH, run_queue_op_wf.
Qed.


(** Progress: a flush returns a batch exactly when [has_flushable_work] says so,
    which holds exactly when some channel is eligible or some channel not in flight
    has a cancelled batch; both release the same expired channels, and a flush that
    returns nothing changes nothing else. *)
Theorem flush_iff_flushable_work mode ops now :
  let q := run_queue mode ops in
  let q1 := expire now q in
  (is_Some (flush_next now q).2 <-> (has_flushable_work now q).2 = true) /\
  ((has_flushable_work now q).2 = true <->
     (exists ch, eligible now q1 ch) \/
     (exists ch, is_Some (cancelled_batches q1 !! ch) /\ ch ∉ in_flight_channels q1)) /\
  (has_flushable_work now q).1 = q1 /\
  ((flush_next now q).2 = None -> (flush_next now q).1 = q1).
Proof.
  intros q q1.
  assert (Hwork : (has_flushable_work now q).2 = true <->
     (exists ch, eligible now q1 ch) \/
     (exists ch, is_Some (cancelled_batches q1 !! ch) /\ ch ∉ in_flight_channels q1)).
  { cbn. fold q1. rewrite orb_true_iff, !existsb_true. split.
    - intros [([ch l] & Hin & Hc)|([ch l] & Hin & Hc)]; rewrite elem_of_iter_entries in Hin.
      + left. exists ch. by apply (candidate_true _ _ _ _ Hin).
      + right. exists ch. apply bool_decide_eq_true in Hc. split; [by eexists|done].
    - intros [[ch He]|(ch & [l Hl] & Hnf)].
      + left. exists (ch, queue_of q1 ch). pose proof (eligible_queue _ _ _ He) as Hl.
        split; [by apply elem_of_iter_entries|]. by apply (candidate_true _ _ _ _ Hl).
      + right. exists (ch, l). split; [by apply elem_of_iter_entries|].
        by apply bool_decide_eq_true. }
  split; [|split; [exact Hwork|split; [done|]]].
  - rewrite Hwork. destruct (flush_next_cases now q) as [(ch & He & _ & ->)|(Hno & ->)].
    + split; [|by eexists]. intros _. left. by exists ch.
    + destruct (flush_cancelled_cases now (expire now q)) as [(ch & l & Hl & Hnf & ->)|(Hall & ->)].
      * split; [|by eexists]. intros _. right. exists ch. split; [by eexists|done].
      * split; [by intros [? ?]|]. intros [[ch He]|(ch & Hs & Hnf)]; [by destruct (Hno ch)|].
        by destruct Hnf; apply Hall.
  - intros Hnone. destruct (flush_next_cases now q) as [(ch & _ & _ & E)|(_ & E)];
      rewrite E in *; [done|].
    destruct (flush_cancelled_cases now (expire now q)) as [(ch & l & _ & _ & E')|(_ & E')];
      by rewrite E' in *.
Qed.

(** C17: conservation: a flush only moves events, so each event the queue holds for the
    flushed channel is afterwards either in the batch or still held, exactly as often,
    and no other channel is affected; the release of expired prompts that precedes it
    returns the withheld events to their queue and drops none within the cap. *)
Theorem flush_next_conserves mode ops now q' b :
  let q := run_queue mode ops in
  let q1 := expire now q in
  flush_next now q = (q', Some b) ->
  held q1 (fb_channel_id b) ≡ₚ batch_held b ++ held q' (fb_channel_id b) /\
  (forall ch, ch <> fb_channel_id b -> held q' ch = held q1 ch) /\
  (forall ch, length (withheld_of q ch) + length (queue_of q ch) <= MAX_PENDING_PER_CHANNEL ->
     held q1 ch ≡ₚ held q ch).
Proof.
  intros q q1 Hf%flush_next_result. fold q1 in Hf.
  destruct (flush_result_held _ _ _ _ Hf) as [Hb Ho]. split_and!; [done|done|].
  intros ch Hlen. by apply expire_held; [apply run_queue_wf|].
Qed.
End properties.

(** ** Concrete runs *)

Section example.
#[local] Existing Instance nostr_api.
#[local] Existing Instance map_order.
#[local] Existing Instance exact_f64.

Definition example_event (n : N) (Hn : (n < 2 ^ 256)%N) (at_ : N) : Event :=
  {| id := id32 n Hn : EventId; pubkey := 1%N; created_at := at_; kind := 9%N; tags := [];
     content := "hi"; sig := "" |}.

Definition example_queued (ch n : N) (Hn : (n < 2 ^ 256)%N) (at_ : N) (received : Z) : QueuedEvent :=
  {| qe_channel_id := ch; qe_event := example_event n Hn at_; qe_received_at := received;
     qe_prompt_tag := "mention" |}.

(** Two events of channel 7, delivered newest first, then an older one of channel 8. *)
Definition example_queue_ops : list QueueOp :=
  [OpPush (example_queued 7 1 eq_refl 50 100); OpPush (example_queued 7 2 eq_refl 40 101);
   OpPush (example_queued 8 3 eq_refl 60 90)].

Definition example_queue : EventQueue := run_queue Queue example_queue_ops.

Definition example_flush : EventQueue * FlushBatch :=
  flush_channel 200 (expire 200 example_queue) 8%N.

Lemma example_flush_next :
  flush_next 200 (run_queue Queue example_queue_ops) = (example_flush.1, Some example_flush.2).
Proof. reflexivity. Qed.


Lemma flush_next_conserves_witness :
  held (expire 200 (run_queue Queue example_queue_ops)) (fb_channel_id example_flush.2) ≡ₚ
    batch_held example_flush.2 ++ held example_flush.1 (fb_channel_id example_flush.2).
Proof.
  exact (proj1 (flush_next_conserves Queue example_queue_ops 200 example_flush.1 example_flush.2
    example_flush_next)).
Defined.
End example.
