(* ===== verification/EventQueueRetry.v ===== *)
(** * Push, retry, steering and removal in the event queue

    The functional behaviour of the remaining operations of [EventQueue]: the cap of
    [push], the retry budget and backoff of [requeue], the pool-exhaustion path of
    [dispatch_pending], the steer side table, and the channel-wide operations. *)

From S2P Require Import Prelude Nostr EventQueue EventQueueInv EventQueueFlush.
From Stdlib Require Import QArith Qround Lqa.

#[global] Open Scope nat_scope.
#[global] Open Scope list_scope.

Section retry.
Context `{NostrApi, HashMapIter, F64}.
Implicit Types (q : EventQueue) (ch : Uuid) (now : Z) (b : FlushBatch).

Definition retry_count q ch : nat := default 0 (retry_counts q !! ch).

Lemma retry_count_le q ch : queue_wf q -> retry_count q ch <= MAX_RETRIES.
Proof.
  intros Hq. unfold retry_count. destruct (retry_counts q !! ch) as [n|] eqn:E; simpl; [|lia].
  apply (wf_retries q Hq _ _ E).
Qed.

(** What an operation on one channel leaves alone. *)
Record untouched ch q q' : Prop := {
  un_queue : forall ch', ch' <> ch -> queues q' !! ch' = queues q !! ch';
  un_withheld : forall ch', ch' <> ch ->
    withheld_native_steer q' !! ch' = withheld_native_steer q !! ch';
  un_cancelled : forall ch', ch' <> ch -> cancelled_batches q' !! ch' = cancelled_batches q !! ch';
  un_after : forall ch', ch' <> ch -> retry_after q' !! ch' = retry_after q !! ch';
  un_counts : forall ch', ch' <> ch -> retry_counts q' !! ch' = retry_counts q !! ch';
}.

Ltac solve_untouched :=
  split; cbn [queues withheld_native_steer cancelled_batches retry_after retry_counts]; intros;
  repeat first [rewrite lookup_insert_ne by done|rewrite lookup_delete_ne by done]; done.

Lemma untouched_held ch q q' ch' : untouched ch q q' -> ch' <> ch -> held q' ch' = held q ch'.
Proof.
  intros [Hq Hw Hc _ _] Hne. unfold held, queue_of, withheld_of, cancelled_of.
  by rewrite Hq, Hw, Hc.
Qed.

(** ** Requeue *)

Lemma requeue_below now ns q b :
  retry_count q (fb_channel_id b) < MAX_RETRIES ->
  let ch := fb_channel_id b in
  let q' := (requeue now ns q b).1 in
  (requeue now ns q b).2 = None /\
  queue_of q' ch =
    take MAX_PENDING_PER_CHANNEL ((to_queued_event ch <$> fb_events b) ++ queue_of q ch) /\
  retry_counts q' !! ch = Some (S (retry_count q ch)) /\
  retry_after q' !! ch = Some (now + retry_delay (S (retry_count q ch)) ns)%Z /\
  withheld_native_steer q' = withheld_native_steer q /\
  cancelled_batches q' = cancelled_batches q /\
  untouched ch q q'.
Proof.
  unfold retry_count. intros Hlt. cbn -[retry_delay take]. unfold requeue.
  rewrite decide_False by lia. cbn [fst snd]. unfold requeue_events, queue_of.
  autorewrite with buzz. destruct q. cbn -[retry_delay take] in *.
  rewrite !lookup_insert_eq. split_and!; try done. solve_untouched.
Qed.

Lemma requeue_exhausted now ns q b :
  MAX_RETRIES <= retry_count q (fb_channel_id b) ->
  let ch := fb_channel_id b in
  let q' := (requeue now ns q b).1 in
  (requeue now ns q b).2 = Some b /\
  queues q' = queues q /\ retry_counts q' !! ch = None /\ retry_after q' !! ch = None /\
  untouched ch q q'.
Proof.
  unfold retry_count. intros Hge. cbn. unfold requeue. rewrite decide_True by lia.
  cbn [fst snd]. destruct q. cbn in *. rewrite !lookup_delete_eq.
  split_and!; try done. solve_untouched.
Qed.

(** ** Backoff *)

Lemma from_secs_f64_bounds (x : Q) (lo hi : Z) :
  (inject_Z lo <= x * inject_Z 1000000000 <= inject_Z hi)%Q -> (lo <= from_secs_f64 x <= hi)%Z.
Proof.
  unfold from_secs_f64. generalize (x * inject_Z 1000000000)%Q. intros y [Hlo Hhi]. split.
  - rewrite <-(Qfloor_Z lo). apply Qfloor_resp_le. revert Hlo.
    generalize (inject_Z lo). intros a Ha. lra.
  - assert (Hlt : (Qfloor (y + (1 # 2)) < hi + 1)%Z); [|lia].
    rewrite Zlt_Qlt, inject_Z_plus. change (inject_Z 1) with 1%Q.
    pose proof (Qfloor_le (y + (1 # 2))) as Hf. revert Hf Hhi.
    generalize (inject_Z hi) (inject_Z (Qfloor (y + (1 # 2)))). intros a c Hf Ha. lra.
Qed.

Lemma f64_round_dyadic `{!F64Laws} (n : Z) (k : positive) :
  (Z.abs n < 2 ^ 53)%Z -> (Zpos k < 1024)%Z ->
  (f64_round (n # Pos.pow 2 k) == (n # Pos.pow 2 k))%Q.
Proof. apply f64_round_exact. Qed.

Lemma f64_round_between `{!F64Laws} (x : Q) (lo hi : Z) (k : positive) :
  (Z.abs lo < 2 ^ 53)%Z -> (Z.abs hi < 2 ^ 53)%Z -> (Zpos k < 1024)%Z ->
  ((lo # Pos.pow 2 k) <= x <= (hi # Pos.pow 2 k))%Q ->
  ((lo # Pos.pow 2 k) <= f64_round x <= (hi # Pos.pow 2 k))%Q.
Proof.
  intros Hlo Hhi Hk [Hl Hh]. rewrite <-(f64_round_exact lo k), <-(f64_round_exact hi k) by done.
  split; by apply f64_round_mono.
Qed.

(** The quotient of the clock's nanoseconds, below 0.2337. *)
Lemma nanos_ratio (ns : N) :
  (ns < 1000000000)%N ->
  (0 # Pos.pow 2 20 <= inject_Z (Z.of_N ns) / inject_Z 4294967295 <= 245000 # Pos.pow 2 20)%Q.
Proof.
  intros Hns. assert (Hn : (0 <= inject_Z (Z.of_N ns) <= inject_Z 999999999)%Q).
  { split; [change 0%Q with (inject_Z 0)|]; rewrite <-Zle_Qle; lia. }
  revert Hn. generalize (inject_Z (Z.of_N ns)). intros y [H1y H2y]. unfold Qdiv.
  change (/ inject_Z 4294967295)%Q with (1 # 4294967295)%Q.
  change (inject_Z 999999999)%Q with (999999999 # 1)%Q in H2y.
  change (Pos.pow 2 20) with 1048576%positive. lra.
Qed.

Lemma jitter_bounds `{!F64Laws} (ns : N) :
  (ns < 1000000000)%N ->
  (838860 # Pos.pow 2 20 <= jitter ns <= 936961 # Pos.pow 2 20)%Q.
Proof.
  intros Hns. unfold jitter.
  destruct (f64_round_between (inject_Z (Z.of_N ns) / inject_Z 4294967295) 0 245000 20)
    as [Ha1 Ha2]; [lia..|by apply nanos_ratio|].
  destruct (f64_round_between (4 # 10) 419430 419431 20) as [Hb1 Hb2]; [lia..|by split|].
  destruct (f64_round_between (8 # 10) 838860 838861 20) as [Hc1 Hc2]; [lia..|by split|].
  revert Ha1 Ha2 Hb1 Hb2 Hc1 Hc2.
  generalize (f64_round (inject_Z (Z.of_N ns) / inject_Z 4294967295)) (f64_round (4 # 10))
    (f64_round (8 # 10)). intros a b c Ha1 Ha2 Hb1 Hb2 Hc1 Hc2.
  destruct (f64_round_between (a * b) 0 98100 20) as [Hd1 Hd2]; [lia..| |].
  { change (Pos.pow 2 20) with 1048576%positive in *. split; [nra|].
    apply Qle_trans with ((245000 # 1048576) * b)%Q; [nra|]. lra. }
  revert Hd1 Hd2. generalize (f64_round (a * b)). intros d Hd1 Hd2.
  apply f64_round_between; [lia..|]. change (Pos.pow 2 20) with 1048576%positive in *.
  split; lra.
Qed.

Lemma capped_secs_range (attempt : nat) : (5 <= capped_secs attempt <= 300)%N.
Proof.
  unfold capped_secs, BASE_RETRY_DELAY_SECS, MAX_RETRY_DELAY_SECS.
  pose proof (N.pow_nonzero 2 (N.of_nat (Nat.min (attempt - 1) 6))). lia.
Qed.

Lemma retry_delay_range `{!F64Laws} (attempt : nat) (ns : N) :
  (ns < 1000000000)%N ->
  (Z.of_N (capped_secs attempt) * 790000000 <= retry_delay attempt ns
     <= Z.of_N (capped_secs attempt) * 900000000)%Z.
Proof.
  intros Hns. destruct (jitter_bounds ns Hns) as [Hj1 Hj2]. unfold retry_delay.
  pose proof (capped_secs_range attempt) as Hc. set (c := Z.of_N (capped_secs attempt)).
  assert (Hcz : (5 <= c <= 300)%Z) by lia.
  assert (Hcq : (5 <= inject_Z c <= 300)%Q).
  { change 5%Q with (inject_Z 5). change 300%Q with (inject_Z 300). rewrite <-!Zle_Qle. lia. }
  destruct (f64_round_between (inject_Z c * jitter ns) (c * 838860) (c * 936961) 20) as [Hr1 Hr2];
    [lia..| |].
  { change (c * 838860 # Pos.pow 2 20)%Q with (inject_Z c * (838860 # Pos.pow 2 20))%Q.
    change (c * 936961 # Pos.pow 2 20)%Q with (inject_Z c * (936961 # Pos.pow 2 20))%Q.
    revert Hj1 Hj2 Hcq. generalize (jitter ns) (inject_Z c) (838860 # Pos.pow 2 20)%Q
      (936961 # Pos.pow 2 20)%Q. intros j cq l h ?? [? ?]. split; nra. }
  apply from_secs_f64_bounds. rewrite !inject_Z_mult.
  change (c * 838860 # Pos.pow 2 20)%Q with (inject_Z c * (838860 # 1048576))%Q in Hr1.
  change (c * 936961 # Pos.pow 2 20)%Q with (inject_Z c * (936961 # 1048576))%Q in Hr2.
  revert Hr1 Hr2 Hcq. generalize (f64_round (inject_Z c * jitter ns)) (inject_Z c).
  intros r cq Hr1 Hr2 Hcq.
  change (inject_Z 1000000000) with (1000000000 # 1)%Q.
  change (inject_Z 790000000) with (790000000 # 1)%Q.
  change (inject_Z 900000000) with (900000000 # 1)%Q. split; lra.
Qed.
(** The factor is at least 0.8 up to a rounding that the conversion to nanoseconds absorbs. *)
Lemma jitter_least `{!F64Laws} (ns : N) :
  (ns < 1000000000)%N -> (14073748835532 # Pos.pow 2 44 <= jitter ns)%Q.
Proof.
  intros Hns. unfold jitter.
  destruct (f64_round_between (inject_Z (Z.of_N ns) / inject_Z 4294967295) 0 (2 ^ 44) 44) as [Ha _]; [lia..| |].
  { pose proof (nanos_ratio ns Hns) as Hr. revert Hr.
    generalize (inject_Z (Z.of_N ns) / inject_Z 4294967295)%Q. intros r [Hr1 Hr2].
    change (Pos.pow 2 20) with 1048576%positive in *. change (Pos.pow 2 44) with 17592186044416%positive.
    change (2 ^ 44)%Z with 17592186044416%Z. split; lra. }
  destruct (f64_round_between (4 # 10) 0 (2 ^ 44) 44) as [Hb _]; [lia..|by split|].
  destruct (f64_round_between (8 # 10) 14073748835532 (2 ^ 44) 44) as [Hc _]; [lia..|by split|].
  revert Ha Hb Hc.
  generalize (f64_round (inject_Z (Z.of_N ns) / inject_Z 4294967295)) (f64_round (4 # 10)) (f64_round (8 # 10)).
  intros a b c Ha Hb Hc. change (Pos.pow 2 44) with 17592186044416%positive in *.
  rewrite <-(f64_round_exact 14073748835532 44) by lia. apply f64_round_mono.
  assert (Hd : (0 # 17592186044416 <= f64_round (a * b))%Q).
  { rewrite <-(f64_round_exact 0 44) by lia. apply f64_round_mono.
    change (Pos.pow 2 44) with 17592186044416%positive. nra. }
  revert Hd. generalize (f64_round (a * b)). intros d Hd.
  change (Pos.pow 2 44) with 17592186044416%positive. lra.
Qed.

Lemma from_secs_f64_least (x : Q) (lo : Z) :
  (inject_Z lo <= x * inject_Z 1000000000 + (1 # 2))%Q -> (lo <= from_secs_f64 x)%Z.
Proof. intros Hlo. unfold from_secs_f64. rewrite <-(Qfloor_Z lo). by apply Qfloor_resp_le. Qed.

Lemma retry_delay_least `{!F64Laws} (attempt : nat) (ns : N) :
  (ns < 1000000000)%N -> (Z.of_N (capped_secs attempt) * 800000000 <= retry_delay attempt ns)%Z.
Proof.
  intros Hns. pose proof (jitter_least ns Hns) as Hj. unfold retry_delay.
  pose proof (capped_secs_range attempt) as Hc. set (c := Z.of_N (capped_secs attempt)).
  assert (Hcq : (5 <= inject_Z c <= 300)%Q).
  { change 5%Q with (inject_Z 5). change 300%Q with (inject_Z 300). rewrite <-!Zle_Qle. lia. }
  assert (Hr : (c * 14073748835532 # Pos.pow 2 44 <= f64_round (inject_Z c * jitter ns))%Q).
  { rewrite <-(f64_round_exact (c * 14073748835532) 44) by lia. apply f64_round_mono.
    change (c * 14073748835532 # Pos.pow 2 44)%Q with (inject_Z c * (14073748835532 # Pos.pow 2 44))%Q.
    revert Hj Hcq. generalize (jitter ns) (inject_Z c) (14073748835532 # Pos.pow 2 44)%Q.
    intros j cq l ? [? ?]. nra. }
  apply from_secs_f64_least. rewrite inject_Z_mult.
  change (c * 14073748835532 # Pos.pow 2 44)%Q with (inject_Z c * (14073748835532 # 17592186044416))%Q in Hr.
  revert Hr Hcq. generalize (f64_round (inject_Z c * jitter ns)) (inject_Z c). intros r cq Hr Hcq.
  change (inject_Z 1000000000) with (1000000000 # 1)%Q.
  change (inject_Z 800000000) with (800000000 # 1)%Q. lra.
Qed.

(** The shift of the backoff is cut at 6 only where the cap of 300 s already applies. *)
Lemma capped_secs_doubling (n : nat) : capped_secs (S n) = N.min (5 * 2 ^ N.of_nat n) 300.
Proof.
  unfold capped_secs, BASE_RETRY_DELAY_SECS, MAX_RETRY_DELAY_SECS.
  replace (S n - 1) with n by lia. destruct (decide (n <= 6)) as [Hle|Hgt].
  - by rewrite Nat.min_l by done.
  - rewrite Nat.min_r by lia. pose proof (N.pow_le_mono_r 2 6 (N.of_nat n)).
    change (N.of_nat 6) with 6%N. change (2 ^ 6)%N with 64%N in *. lia.
Qed.
End retry.

(** ** Repeated failure *)

Section attempts.
Context `{NostrApi, HashMapIter, F64}.
Implicit Types (q : EventQueue) (ch : Uuid) (now : Z) (b : FlushBatch).

(** The failed attempts of a channel in a run: the requeues of its batches. *)
Definition fails ch (op : QueueOp) : bool :=
  match op with
  | OpRequeue _ _ b => bool_decide (fb_channel_id b = ch)
  | _ => false
  end.

Definition failed_attempts ch (ops : list QueueOp) : nat := length (List.filter (fails ch) ops).

(** The operations that forget the failed attempts of a channel: a completion outside the
    backoff of a requeue, which the code takes for a success, the agent's removal from the
    channel, and a compaction that finds the channel idle. *)
Definition forgets q ch (op : QueueOp) : bool :=
  match op with
  | OpComplete now ch' => bool_decide (ch' = ch) && not_throttled now q ch
  | OpDrain ch' => bool_decide (ch' = ch)
  | OpCompact now => not_throttled now q ch && bool_decide (queue_of q ch = []) &&
      bool_decide (ch ∉ in_flight_channels q)
  | _ => false
  end.

(** No operation of the run forgets them. *)
Fixpoint unforgotten q ch (ops : list QueueOp) : bool :=
  match ops with
  | [] => true
  | op :: ops => negb (forgets q ch op) && unforgotten (run_queue_op q op) ch ops
  end.

Lemma expire_counts now q : queue_wf q -> retry_counts (expire now q) = retry_counts q.
Proof. intros Hq. apply (rel_counts _ _ _ (expire_released now q Hq)). Qed.

Lemma flush_next_counts now q : queue_wf q -> retry_counts (flush_next now q).1 = retry_counts q.
Proof.
  intros Hq. rewrite <-(expire_counts now q Hq).
  destruct (flush_next now q) as [q' [b|]] eqn:E; cbn [fst].
  - apply flush_next_result in E. by destruct E as [ch _ _ _ _ _ _ []|ch _ _ _ _ _ _ []].
  - destruct (flush_next_cases now q) as [(ch & _ & _ & E')|[_ E']]; [congruence|].
    destruct (flush_cancelled_cases now (expire now q)) as [(ch & l & _ & _ & E2)|[_ E2]]; congruence.
Qed.

(** Every other operation keeps the count. *)
Lemma run_queue_op_count q ch op :
  queue_wf q -> forgets q ch op = false -> fails ch op = false ->
  retry_count (run_queue_op q op) ch = retry_count q ch.
Proof.
  intros Hq Hf Hr. unfold retry_count. destruct op; cbn [run_queue_op forgets fails] in *.
  - unfold push. by case_match; destruct q.
  - by rewrite flush_next_counts.
  - cbn. by rewrite expire_counts.
  - unfold mark_complete. destruct (decide (ch0 = ch)) as [->|Hne]; destruct q; cbn in *;
      unfold not_throttled in *; cbn in *.
    + rewrite bool_decide_true in Hf by done. destruct (retry_after !! ch); [|done].
      apply bool_decide_eq_false in Hf. by rewrite decide_True by lia.
    + repeat case_match; cbn; by rewrite ?lookup_delete_ne by done.
  - apply bool_decide_eq_false in Hr. unfold requeue, requeue_events. destruct q; cbn -[retry_delay].
    case_decide; cbn; by rewrite ?lookup_delete_ne, ?lookup_insert_ne by done.
  - by destruct q.
  - by destruct q.
  - apply bool_decide_eq_false in Hf. destruct q; cbn. by rewrite lookup_delete_ne by done.
  - unfold extend_in_flight_deadline. repeat case_match; by destruct q.
  - by destruct q.
  - unfold mark_native_steer_pending. repeat case_match; by destruct q.
  - unfold release_native_steer. repeat case_match; by destruct q.
  - by destruct q.
  - unfold compact_expired_state. destruct q. unfold queue_of, not_throttled in *. cbn in *.
    rewrite map_lookup_filter. destruct (retry_counts !! ch) as [n|]; simpl; [|done].
    rewrite option_guard_True; [done|]. rewrite map_lookup_filter.
    destruct (retry_after !! ch) as [t|]; simpl in *.
    + destruct (decide (now < t)%Z); [left; case_guard; [by eexists|done]|].
      rewrite bool_decide_true in Hf by lia. right. simpl in Hf.
      apply andb_false_iff in Hf. rewrite !bool_decide_eq_false in Hf.
      destruct Hf; [by left|right; by apply dec_stable].
    + right. apply andb_false_iff in Hf. rewrite !bool_decide_eq_false in Hf.
      destruct Hf; [by left|right; by apply dec_stable].
Qed.

Lemma requeue_count now ns q b :
  queue_wf q ->
  retry_count (requeue now ns q b).1 (fb_channel_id b) =
  S (retry_count q (fb_channel_id b)) mod S MAX_RETRIES.
Proof.
  intros Hq. pose proof (retry_count_le q (fb_channel_id b) Hq) as Hle.
  destruct (decide (retry_count q (fb_channel_id b) < MAX_RETRIES)) as [Hlt|Hge].
  - destruct (requeue_below now ns q b Hlt) as (_ & _ & Hc & _).
    unfold retry_count at 1. rewrite Hc. cbn [default]. by rewrite Nat.mod_small by lia.
  - destruct (requeue_exhausted now ns q b) as (_ & _ & Hc & _); [lia|].
    unfold retry_count at 1. rewrite Hc. cbn [default].
    by replace (retry_count q (fb_channel_id b)) with MAX_RETRIES by lia.
Qed.

(** The count of a channel is the number of its failed attempts, modulo the dead letters. *)
Lemma unforgotten_count ch ops q :
  queue_wf q -> unforgotten q ch ops = true ->
  retry_count (fold_left run_queue_op ops q) ch = (retry_count q ch + failed_attempts ch ops) mod S MAX_RETRIES.
Proof.
  revert q. induction ops as [|op ops IH]; intros q Hq Hops; cbn [fold_left unforgotten] in *.
  - change (failed_attempts ch []) with 0. rewrite Nat.add_0_r, Nat.mod_small; [done|].
    pose proof (retry_count_le q ch Hq). lia.
  - apply andb_true_iff in Hops as [Hf%negb_true_iff Hops].
    rewrite IH by (try apply run_queue_op_wf; done).
    unfold failed_attempts. cbn [List.filter]. destruct (fails ch op) eqn:Hr.
    + destruct op; try discriminate Hr. apply bool_decide_eq_true in Hr as <-. cbn [run_queue_op].
      rewrite requeue_count, Nat.Div0.add_mod_idemp_l by done. f_equal. cbn [length]. lia.
    + by rewrite run_queue_op_count.
Qed.
End attempts.

(** ** Pool exhaustion, steering, removal *)

Section operations.
Context `{NostrApi, HashMapIter, F64}.
Implicit Types (q : EventQueue) (ch : Uuid) (now : Z) (b : FlushBatch).

Lemma to_batch_to_queued ch (bes : list BatchEvent) : to_batch_event <$> (to_queued_event ch <$> bes) = bes.
Proof.
  rewrite <-list_fmap_compose. induction bes as [|[] bes IH]; simpl; [done|]. by f_equal.
Qed.

Lemma mark_complete_held now q ch ch' : held (mark_complete now q ch) ch' = held q ch'.
Proof. unfold mark_complete. destruct q. cbn. by repeat case_match. Qed.

Lemma mark_complete_not_in_flight now q ch : ch ∉ in_flight_channels (mark_complete now q ch).
Proof. unfold mark_complete. destruct q. cbn. repeat case_match; cbn; set_solver. Qed.

Lemma requeue_events_queue q ch bes :
  queue_of (requeue_events q ch bes) ch =
  take MAX_PENDING_PER_CHANNEL ((to_queued_event ch <$> bes) ++ queue_of q ch).
Proof.
  unfold requeue_events. autorewrite with buzz. destruct q. unfold queue_of.
  cbn -[take]. by rewrite lookup_insert_eq.
Qed.

Lemma requeue_events_held q ch bes :
  length bes + length (queue_of q ch) <= MAX_PENDING_PER_CHANNEL ->
  held (requeue_events q ch bes) ch ≡ₚ bes ++ held q ch.
Proof.
  intros Hlen. unfold held. rewrite requeue_events_queue.
  rewrite take_ge by (rewrite length_app, length_fmap; lia).
  rewrite fmap_app, to_batch_to_queued, <-app_assoc. by destruct q.
Qed.

Lemma requeue_events_held_other q ch bes ch' :
  ch' <> ch -> held (requeue_events q ch bes) ch' = held q ch'.
Proof.
  intros Hne. unfold requeue_events, held, queue_of, withheld_of, cancelled_of. destruct q. cbn.
  by rewrite lookup_insert_ne by done.
Qed.

(** *** Steering *)

Lemma put_nonempty_lookup {A} (m : gmap Uuid (list A)) ch l ch' :
  default [] (put_nonempty m ch l !! ch') = if decide (ch = ch') then l else default [] (m !! ch').
Proof. destruct l; simpl; rewrite ?lookup_delete, ?lookup_insert; by case_decide. Qed.

Lemma take_event_perm event_id l qe rest :
  take_event event_id l = Some (qe, rest) -> l ≡ₚ qe :: rest.
Proof. intros (l1 & l2 & -> & -> & _)%take_event_split. by rewrite Permutation_middle. Qed.

Lemma retain_not_lookup m ch event_id ch' :
  default [] (retain_not m ch event_id !! ch') =
  if decide (ch = ch') then filter (fun qe => hex_id qe <> event_id) (default [] (m !! ch))
  else default [] (m !! ch').
Proof.
  unfold retain_not. destruct (m !! ch) as [l|] eqn:E; simpl; [apply put_nonempty_lookup|].
  case_decide; [by subst; rewrite E|done].
Qed.
End operations.

(** ** Properties *)

Section properties.
Context `{NostrApi, HashMapIter, F64}.
Implicit Types (q : EventQueue) (ch : Uuid) (now : Z) (b : FlushBatch).

(** [push] refuses an event only in drop mode while its channel is in flight, and
    then changes nothing; otherwise the event goes to the back of its channel's queue,
    of which the oldest event is dropped when 500 are waiting, and every other channel
    and table is unchanged. *)
Theorem push_behaviour mode ops ev :
  let q := run_queue mode ops in
  let ch := qe_channel_id ev in
  let '(q', accepted) := push q ev in
  (accepted = false <-> dedup_mode q = Drop /\ ch ∈ in_flight_channels q) /\
  (accepted = false -> q' = q) /\
  (accepted = true ->
     queue_of q' ch =
       drop (S (length (queue_of q ch)) - MAX_PENDING_PER_CHANNEL) (queue_of q ch ++ [ev]) /\
     untouched ch q q' /\ in_flight_channels q' = in_flight_channels q).
Proof.
  intros q ch. pose proof (cap_default q ch (run_queue_wf mode ops)) as Hcap.
  clearbody q. unfold push. fold ch.
  destruct (bool_decide (dedup_mode q = Drop) && bool_decide (ch ∈ in_flight_channels q)) eqn:E.
  - bool_to_prop. by split_and!.
  - apply andb_false_iff in E. rewrite !bool_decide_eq_false in E.
    split; [split; [done|tauto]|]. split; [done|]. intros _. split; [|split; [|by destruct q]].
    + transitivity ((if decide (MAX_PENDING_PER_CHANNEL <= length (queue_of q ch))
        then tail (queue_of q ch) else queue_of q ch) ++ [ev]).
      { destruct q. unfold queue_of at 1. cbn -[MAX_PENDING_PER_CHANNEL].
        by rewrite lookup_insert_eq. }
      case_decide.
      * replace (S (length (queue_of q ch)) - MAX_PENDING_PER_CHANNEL) with 1 by lia.
        destruct (queue_of q ch); [cbn in *; unfold MAX_PENDING_PER_CHANNEL in *; lia|done].
      * by replace (S (length (queue_of q ch)) - MAX_PENDING_PER_CHANNEL) with 0 by lia.
    + destruct q. split; cbn -[MAX_PENDING_PER_CHANNEL]; intros ch' Hne; try done.
      by rewrite lookup_insert_ne by done.
Qed.

(** The retry budget: a failed batch is requeued, at the front of its channel's
    queue and in its order, while fewer than ten retries were made, and the channel is
    throttled by the backoff of its attempt; at the eleventh it is handed back intact,
    the queue unchanged and the throttle and count cleared.  The requeue keeps only the
    batch's own events: those it carried from a cancelled batch are dropped. *)
Theorem requeue_budget mode ops now ns b :
  let q := run_queue mode ops in
  let ch := fb_channel_id b in
  let '(q', dead) := requeue now ns q b in
  (retry_count q ch < MAX_RETRIES ->
     dead = None /\
     queue_of q' ch =
       take MAX_PENDING_PER_CHANNEL ((to_queued_event ch <$> fb_events b) ++ queue_of q ch) /\
     cancelled_of q' ch = cancelled_of q ch /\
     retry_count q' ch = S (retry_count q ch) /\
     retry_after q' !! ch = Some (now + retry_delay (S (retry_count q ch)) ns)%Z) /\
  (retry_count q ch = MAX_RETRIES ->
     dead = Some b /\ queues q' = queues q /\ retry_count q' ch = 0 /\ retry_after q' !! ch = None) /\
  retry_count q ch <= MAX_RETRIES /\ untouched ch q q'.
Proof.
  intros q ch. pose proof (run_queue_wf mode ops) as Hq. fold q in Hq. clearbody q.
  pose proof (retry_count_le q ch Hq) as Hle.
  destruct (decide (retry_count q ch < MAX_RETRIES)) as [Hlt|Hge].
  - destruct (requeue_below now ns q b Hlt) as (Hn & Hqu & Hc & Ha & _ & Hcb & Hun).
    destruct (requeue now ns q b) as [q' dead]. cbn [fst snd] in *. fold ch in Hqu, Hc, Ha, Hun.
    assert (Hc' : retry_count q' ch = S (retry_count q ch)) by (unfold retry_count at 1; by rewrite Hc).
    assert (Hcb' : cancelled_of q' ch = cancelled_of q ch) by (unfold cancelled_of; by rewrite Hcb).
    split_and!; try done. intros ?; lia.
  - destruct (requeue_exhausted now ns q b) as (Hn & Hqu & Hc & Ha & Hun); [fold ch; lia|].
    destruct (requeue now ns q b) as [q' dead]. cbn [fst snd] in *. fold ch in Hc, Ha, Hun.
    assert (Hc' : retry_count q' ch = 0) by (unfold retry_count; by rewrite Hc).
    split_and!; try done.
Qed.

(** C32: the backoff: a batch that failed [n] times before is, at its next failure, withheld
    for 5 s doubled [n] times, at most 300 s, give or take 20%; until the
    shortest such delay is over its channel is not eligible for a flush. *)
Theorem retry_delay_bounds `{!F64Laws} mode ops now ns b :
  let q := run_queue mode ops in
  let ch := fb_channel_id b in
  let n := retry_count q ch in
  let nominal := Z.of_N (N.min (5 * 2 ^ N.of_nat n) 300) in
  let q' := (requeue now ns q b).1 in
  (ns < 1000000000)%N -> n < MAX_RETRIES ->
  (exists t, retry_after q' !! ch = Some t /\
     (now + nominal * 800000000 <= t <= now + nominal * 1200000000)%Z) /\
  (forall now', (now' < now + nominal * 800000000)%Z -> ~ eligible now' q' ch).
Proof.
  intros q ch n nominal q' Hns Hn.
  destruct (requeue_below now ns q b Hn) as (_ & _ & _ & Ha & _).
  change (retry_count q (fb_channel_id b)) with n in Ha. fold q' ch in Ha.
  pose proof (retry_delay_least (S n) ns Hns) as Hl. pose proof (retry_delay_range (S n) ns Hns) as Hr.
  pose proof (capped_secs_range (S n)) as Hc. rewrite capped_secs_doubling in Hl, Hr, Hc.
  fold nominal in Hl, Hr. assert (Hpos : (0 <= nominal)%Z) by lia.
  split; [eexists; split; [exact Ha|lia]|].
  intros now' Hlt (_ & _ & Ht). specialize (Ht _ Ha). lia.
Qed.

(** C29: a poison batch is given up: along any run of the queue that does not forget the
    failed attempts of a channel (by a completion outside the backoff, the agent's removal
    from the channel, or a compaction that finds it idle), started when the channel has
    none, ten failures in a row put the batch back at the front of its queue behind a
    throttle, and the eleventh returns it whole to the caller, leaves the queues as they
    are and clears the throttle and the count; and so on for every eleven. *)
Theorem poison_batch_dead_lettered mode ops0 ops now ns b :
  let q0 := run_queue mode ops0 in
  let q := run_queue mode (ops0 ++ ops) in
  let ch := fb_channel_id b in
  let '(q', dead) := requeue now ns q b in
  retry_count q0 ch = 0 -> unforgotten q0 ch ops = true ->
  if decide (failed_attempts ch ops mod S MAX_RETRIES = MAX_RETRIES) then
    dead = Some b /\ queues q' = queues q /\ retry_count q' ch = 0 /\ retry_after q' !! ch = None
  else
    dead = None /\ is_Some (retry_after q' !! ch) /\
    queue_of q' ch = take MAX_PENDING_PER_CHANNEL ((to_queued_event ch <$> fb_events b) ++ queue_of q ch).
Proof.
  intros q0 q ch. assert (Hq : queue_wf q0) by apply run_queue_wf.
  destruct (requeue now ns q b) as [q' dead] eqn:E. intros Hz Hops.
  pose proof (unforgotten_count ch ops q0 Hq Hops) as Hc. rewrite Hz in Hc. cbn [Nat.add] in Hc.
  replace (fold_left run_queue_op ops q0) with q in Hc by apply fold_left_app.
  pose proof (Nat.mod_upper_bound (failed_attempts ch ops) (S MAX_RETRIES)) as Hlt.
  case_decide as Hd.
  - destruct (requeue_exhausted now ns q b) as (Hn & Hqu & Hcount & Ha & _); [fold ch; lia|].
    rewrite E in Hn, Hqu, Hcount, Ha. cbn [fst snd] in *. fold ch in Hcount.
    split_and!; try done. unfold retry_count. by rewrite Hcount.
  - destruct (requeue_below now ns q b) as (Hn & Hqu & _ & Ha & _); [fold ch; lia|].
    rewrite E in Hn, Hqu, Ha.
    split_and!; [done|by eexists|done].
Qed.

(** When no agent can be claimed, the flushed batch goes back: its channel is out
    of flight and, within the cap, holds again every event it held before the flush
    except the cancelled events that were merged into the batch, which are lost; other
    channels are untouched. *)
Theorem pool_exhaustion_restores mode ops now now' q' b :
  let q1 := expire now (run_queue mode ops) in
  let ch := fb_channel_id b in
  let q2 := dispatch_exhausted now now' (run_queue mode ops) in
  flush_next now (run_queue mode ops) = (q', Some b) ->
  length (fb_events b) + length (queue_of q' ch) <= MAX_PENDING_PER_CHANNEL ->
  held q1 ch ≡ₚ fb_cancelled_events b ++ held q2 ch /\
  ch ∉ in_flight_channels q2 /\
  (forall ch', ch' <> ch -> held q2 ch' = held q1 ch').
Proof.
  intros q1 ch q2 Hf Hlen. unfold q2, dispatch_exhausted. rewrite Hf.
  apply flush_next_result, flush_result_held in Hf as [Hheld Hother]. fold q1 ch in Hheld, Hother.
  split; [|split; [apply mark_complete_not_in_flight|]].
  - rewrite mark_complete_held, Hheld. unfold requeue_preserve_timestamps. fold ch.
    rewrite requeue_events_held by done. unfold batch_held.
    by rewrite !app_assoc, (Permutation_app_comm (fb_events b)).
  - intros ch' Hne. rewrite mark_complete_held, <-Hother by done. by apply requeue_events_held_other.
Qed.

(** Steering keeps every event: withholding the event of a steer takes it out of
    reach of [flush_next] and into the side table, releasing it puts it back at the
    front of its queue, and neither loses or duplicates an event (within the cap);
    removing it deletes every occurrence of its id from both, and nothing else. *)
Theorem steer_side_table mode ops ch event_id :
  let q := run_queue mode ops in
  let '(q1, found) := mark_native_steer_pending q ch event_id in
  let q2 := release_native_steer q ch event_id in
  let q3 := remove_event q ch event_id in
  (found = true <-> exists qe, qe ∈ queue_of q ch /\ hex_id qe = event_id) /\
  held q1 ch ≡ₚ held q ch /\
  (found = true -> exists qe, hex_id qe = event_id /\ withheld_of q1 ch = withheld_of q ch ++ [qe] /\
     queue_of q ch ≡ₚ qe :: queue_of q1 ch) /\
  (found = false -> q1 = q) /\
  (length (queue_of q ch) < MAX_PENDING_PER_CHANNEL -> held q2 ch ≡ₚ held q ch) /\
  queue_of q3 ch = filter (fun qe => hex_id qe <> event_id) (queue_of q ch) /\
  withheld_of q3 ch = filter (fun qe => hex_id qe <> event_id) (withheld_of q ch) /\
  cancelled_of q3 ch = cancelled_of q ch.
Proof.
  intros q. clearbody q. destruct (mark_native_steer_pending q ch event_id) as [q1 found] eqn:Hm.
  assert (Hmark : (found = true /\ exists qe rest, take_event event_id (queue_of q ch) = Some (qe, rest) /\
      queue_of q1 ch = rest /\ withheld_of q1 ch = withheld_of q ch ++ [qe] /\
      cancelled_of q1 ch = cancelled_of q ch) \/
    (found = false /\ q1 = q /\ take_event event_id (queue_of q ch) = None)).
  { unfold mark_native_steer_pending, queue_of in *.
    destruct (queues q !! ch) as [l|] eqn:El; simpl; [|injection Hm as <- <-; by right].
    destruct (take_event event_id l) as [[qe rest]|] eqn:Ht; injection Hm as <- <-; [left|by right].
    split; [done|]. exists qe, rest. split; [done|]. destruct q. unfold withheld_of. cbn in *.
    rewrite put_nonempty_lookup, lookup_insert_eq, decide_True by done. done. }
  split_and!.
  - destruct Hmark as [(-> & qe & rest & Ht & _)|(-> & _ & Ht)].
    + split; [|done]. intros _. exists qe. pose proof (take_event_perm _ _ _ _ Ht) as Hp.
      apply take_event_split in Ht as (_ & _ & _ & _ & He & _). rewrite Hp. by split; [left|].
    + split; [done|]. intros (qe & Hin & He). apply take_event_None in Ht.
      rewrite Forall_forall in Ht. by destruct (Ht qe Hin).
  - destruct Hmark as [(_ & qe & rest & Ht & Hq1 & Hw1 & Hc1)|(_ & -> & _)]; [|done].
    unfold held. rewrite Hq1, Hw1, Hc1, (take_event_perm _ _ _ _ Ht), !fmap_app. simpl.
    rewrite <-!app_assoc. simpl. by rewrite Permutation_middle, app_assoc, Permutation_middle, <-app_assoc.
  - intros ->. destruct Hmark as [(_ & qe & rest & Ht & Hq1 & Hw1 & _)|([=] & _)].
    exists qe. rewrite Hq1, (take_event_perm _ _ _ _ Ht). split; [|by split].
    by apply take_event_split in Ht as (_ & _ & _ & _ & ? & _).
  - intros ->. by destruct Hmark as [([=] & _)|(_ & -> & _)].
  - intros Hlen. unfold release_native_steer, withheld_of in *.
    destruct (withheld_native_steer q !! ch) as [l|] eqn:El; [|done].
    destruct (take_event event_id l) as [[qe rest]|] eqn:Ht; [|done].
    apply take_event_perm in Ht. autorewrite with buzz. rewrite queue_of_set_withheld.
    rewrite take_ge by (simpl; lia). destruct q. unfold held, queue_of, withheld_of, cancelled_of in *.
    cbn in *. rewrite lookup_insert_eq, put_nonempty_lookup, decide_True, El by done. cbn.
    rewrite Ht. simpl. by rewrite Permutation_middle.
  - destruct q. unfold queue_of, remove_event. cbn. by rewrite retain_not_lookup, decide_True.
  - destruct q. unfold withheld_of, remove_event. cbn. by rewrite retain_not_lookup, decide_True.
  - by destruct q.
Qed.
End properties.

Section channel_properties.
Context `{NostrApi, HashMapIter, F64}.
Implicit Types (q : EventQueue) (ch : Uuid) (now : Z).

(** Removing the agent from a channel forgets everything pending there and reports
    the ids of the events that were queued, in order; a prompt in flight keeps its
    flight entry and deadline, so it still completes or expires, and other channels
    keep theirs. *)
Theorem drain_channel_forgets mode ops ch :
  let q := run_queue mode ops in
  let '(q', ids) := drain_channel q ch in
  ids = hex_id <$> queue_of q ch /\
  held q' ch = [] /\ retry_count q' ch = 0 /\ retry_after q' !! ch = None /\
  in_flight_channels q' = in_flight_channels q /\
  in_flight_deadlines q' = in_flight_deadlines q /\
  untouched ch q q' /\
  (forall now, ~ eligible now q' ch).
Proof.
  intros q. clearbody q. destruct q. unfold drain_channel, held, queue_of, withheld_of, cancelled_of,
    retry_count, eligible, queue_of. cbn. rewrite !lookup_delete_eq. cbn.
  split_and!; try done; [|by intros now [? _]].
  split; cbn; intros ch' Hne; by rewrite lookup_delete_ne by done.
Qed.

(** Extending a deadline never shortens one and never revives a finished prompt:
    the channels in flight are unchanged, each keeps a deadline at least as late, and
    the extended channel has at least the granted budget. *)
Theorem extend_deadline_monotone mode ops now ch secs_ :
  let q := run_queue mode ops in
  let q' := extend_in_flight_deadline now q ch secs_ in
  in_flight_channels q' = in_flight_channels q /\
  (forall ch', (in_flight_deadlines q' !! ch' = None <-> in_flight_deadlines q !! ch' = None) /\
     (ch' <> ch -> in_flight_deadlines q' !! ch' = in_flight_deadlines q !! ch')) /\
  (forall t, in_flight_deadlines q !! ch = Some t ->
     in_flight_deadlines q' !! ch = Some (Z.max t (now + secs (secs_ + IN_FLIGHT_DEADLINE_BUFFER_SECS)))).
Proof.
  intros q. clearbody q. unfold extend_in_flight_deadline.
  destruct (in_flight_deadlines q !! ch) as [t|] eqn:E; [|by split_and!].
  set (t' := (now + secs (secs_ + IN_FLIGHT_DEADLINE_BUFFER_SECS))%Z).
  case_decide as Hlt; [|split_and!; [done|done|]; intros t0 [= ->]; rewrite E; f_equal; lia].
  destruct q. cbn in *. split_and!; [done| |].
  - intros ch'. rewrite lookup_insert. case_decide; [subst; rewrite E|]; naive_solver.
  - intros t0 [= <-]. rewrite lookup_insert_eq. f_equal. lia.
Qed.

Lemma retained_retry_after now q ch :
  retry_after (compact_expired_state now q) !! ch =
  match retry_after q !! ch with
  | Some t => if decide (now < t)%Z then Some t else None
  | None => None
  end.
Proof.
  destruct q. unfold compact_expired_state. cbn. rewrite map_lookup_filter.
  destruct (retry_after !! ch) as [t|]; simpl; [|done]. by repeat (case_guard || case_decide).
Qed.

(** Compaction is unobservable: at any later time the same channels are eligible and
    in flight, each holds the same events, and the retry count survives of every
    channel that is throttled, in flight or has events queued. *)
Theorem compaction_unobservable mode ops now now' ch :
  let q := run_queue mode ops in
  let q' := compact_expired_state now q in
  (now <= now')%Z ->
  (eligible now' q' ch <-> eligible now' q ch) /\
  held q' ch = held q ch /\ in_flight_channels q' = in_flight_channels q /\
  (is_Some (retry_after q' !! ch) \/ ch ∈ in_flight_channels q \/ queue_of q ch <> [] ->
     retry_count q' ch = retry_count q ch).
Proof.
  intros q q' Hle.
  assert (Hra : forall t, retry_after q' !! ch = Some t <-> retry_after q !! ch = Some t /\ (now < t)%Z).
  { intros t. unfold q'. rewrite retained_retry_after. destruct (retry_after q !! ch); [|naive_solver].
    case_decide; naive_solver. }
  assert (Hqu : queue_of q' ch = queue_of q ch) by by destruct q.
  assert (Hfl : in_flight_channels q' = in_flight_channels q) by by destruct q.
  split; [|split; [by destruct q|split; [done|]]].
  - unfold eligible. rewrite Hqu, Hfl. setoid_rewrite Hra.
    split; intros (Hne & Hnf & Ht); (split; [done|split; [done|]]); intros t Et.
    + destruct (Z.lt_ge_cases now t); [apply Ht; by split|lia].
    + apply Ht, Et.
  - intros Hkeep. unfold retry_count. unfold q', compact_expired_state in *.
    destruct q. unfold queue_of in *. cbn in *. rewrite map_lookup_filter.
    destruct (retry_counts !! ch) as [n|]; simpl; [|done]. rewrite option_guard_True; [done|]. tauto.
Qed.
End channel_properties.

(** ** Thread tags *)

Section threads.
Context `{NostrApi}.

(** The value of an [e] tag marked [m], and of a [p] tag. *)
Definition marked (m : string) (parts : Tag) : option string :=
  match parts with
  | name :: v :: _ :: marker :: _ => if decide (name = "e" /\ marker = m) then Some v else None
  | _ => None
  end.

Definition mention (parts : Tag) : option string :=
  match parts with
  | name :: v :: _ => if decide (name = "p") then Some v else None
  | _ => None
  end.

Lemma last_snoc_or {A} (l : list A) (o : option A) (f : option A) :
  last (l ++ match o with Some x => [x] | None => [] end) =
  match o with Some x => Some x | None => last l end.
Proof. destruct o; [by rewrite last_snoc|by rewrite app_nil_r]. Qed.

Lemma scan_thread_tag_step s parts :
  scan_thread_tag s parts =
  {| ts_root := match marked "root" parts with Some v => Some v | None => ts_root s end;
     ts_reply := match marked "reply" parts with Some v => Some v | None => ts_reply s end;
     ts_mentions := ts_mentions s ++ match mention parts with Some v => [v] | None => [] end |}.
Proof.
  destruct s as [r p ms]. unfold scan_thread_tag, marked, mention.
  destruct parts as [|name [|v rest]]; simpl; [by rewrite app_nil_r..|].
  destruct rest as [|x [|marker rest]];
    repeat case_decide; try match goal with X : _ /\ _ |- _ => destruct X end; subst;
    try done; rewrite ?app_nil_r; try done; exfalso; intuition congruence.
Qed.

Lemma scan_thread_tags_spec ts s :
  fold_left scan_thread_tag ts s =
  {| ts_root := match last (omap (marked "root") ts) with Some v => Some v | None => ts_root s end;
     ts_reply := match last (omap (marked "reply") ts) with Some v => Some v | None => ts_reply s end;
     ts_mentions := ts_mentions s ++ omap mention ts |}.
Proof.
  revert s. induction ts as [|t ts IH]; intros s; cbn [fold_left].
  { simpl. rewrite app_nil_r. by destruct s. }
  rewrite IH, scan_thread_tag_step. cbn [ts_root ts_reply ts_mentions omap list_omap].
  f_equal.
  - destruct (marked "root" t); [|done]. rewrite last_cons.
    by destruct (last (omap (marked "root") ts)).
  - destruct (marked "reply" t); [|done]. rewrite last_cons.
    by destruct (last (omap (marked "reply") ts)).
  - destruct (mention t); simpl; by rewrite <-?app_assoc, ?app_nil_r.
Qed.

(** The thread of an event: its root is the last [root]-marked [e] tag, or else the
    last [reply]-marked one; its parent the last [reply]-marked one, or else the root;
    both are absent when no tag is marked; the mentions are the [p] values in order. *)
Theorem parse_thread_tags_markers ev :
  let root := last (omap (marked "root") (tags ev)) in
  let reply := last (omap (marked "reply") (tags ev)) in
  root_event_id (parse_thread_tags ev) = union root reply /\
  parent_event_id (parse_thread_tags ev) = union reply root /\
  mentioned_pubkeys (parse_thread_tags ev) = omap mention (tags ev).
Proof.
  unfold parse_thread_tags. rewrite scan_thread_tags_spec. cbn [ts_root ts_reply ts_mentions].
  by destruct (last (omap (marked "root") (tags ev))), (last (omap (marked "reply") (tags ev))).
Qed.
End threads.

(** ** Concrete runs *)

Section example.
#[local] Existing Instance nostr_api.
#[local] Existing Instance map_order.
#[local] Existing Instance exact_f64.
#[local] Existing Instance exact_f64_laws.

Definition first_event : QueuedEvent :=
  {| qe_channel_id := 7%N; qe_event := example_event 1 eq_refl 50; qe_received_at := 100;
     qe_prompt_tag := "mention" |}.

Definition second_event : QueuedEvent :=
  {| qe_channel_id := 7%N; qe_event := example_event 2 eq_refl 60; qe_received_at := 300;
     qe_prompt_tag := "reply" |}.

Definition first_batch : FlushBatch :=
  {| fb_channel_id := 7%N; fb_events := [to_batch_event first_event]; fb_cancelled_events := [];
     fb_cancel_reason := None |}.

(** The first event is dispatched and its turn cancelled by a second one. *)
Definition steered_ops : list QueueOp :=
  [OpPush first_event; OpFlush 200; OpPush second_event; OpCancelled first_batch Steer;
   OpComplete 400 7%N].

Definition steered_flush : EventQueue * FlushBatch :=
  flush_channel 500 (expire 500 (run_queue Queue steered_ops)) 7%N.

Lemma steered_flush_next :
  flush_next 500 (run_queue Queue steered_ops) = (steered_flush.1, Some steered_flush.2).
Proof. reflexivity. Qed.

Lemma pool_exhaustion_restores_witness :
  held (expire 500 (run_queue Queue steered_ops)) 7%N ≡ₚ
    fb_cancelled_events steered_flush.2 ++
    held (dispatch_exhausted 500 501 (run_queue Queue steered_ops)) 7%N.
Proof.
  refine (proj1 (pool_exhaustion_restores Queue steered_ops 500 501 steered_flush.1 steered_flush.2
    steered_flush_next _)).
  apply Nat.leb_le. reflexivity.
Defined.

(** An event can be lost without any queue being full: a cancelled event merged into
    a batch that is flushed while no agent is free is held before the attempt and no
    longer held after it. *)
Theorem pool_exhaustion_loses_cancelled :
  exists mode ops now now' ch be,
    be ∈ held (run_queue mode ops) ch /\
    be ∉ held (dispatch_exhausted now now' (run_queue mode ops)) ch.
Proof.
  exists Queue, steered_ops, 500%Z, 501%Z, 7%N, (to_batch_event first_event). split.
  - change (to_batch_event first_event ∈ [to_batch_event second_event; to_batch_event first_event]).
    right. by left.
  - change (to_batch_event first_event ∉ [to_batch_event second_event]).
    intros Hin%list_elem_of_singleton. discriminate (f_equal be_prompt_tag Hin).
Qed.

(** A batch is flushed, fails, and completes a millisecond later, ten times in a row; every
    turn starts when the backoff of the previous one is over. *)
Definition failed_turn (n : nat) : list QueueOp :=
  let t := (Z.of_nat (S n) * 400000000000)%Z in
  [OpFlush t; OpRequeue t 500000000 first_batch; OpComplete (t + 1000000) 7%N].

Definition poisoned_ops : list QueueOp := flat_map failed_turn (seq 0 10).

(** What the queue hands out at the eleventh turn. *)
Definition eleventh_flush : EventQueue * option FlushBatch :=
  flush_next 4400000000000 (run_queue Queue (OpPush first_event :: poisoned_ops)).

Lemma retry_delay_bounds_witness :
  exists t, retry_after (requeue 300 500000000 (run_queue Queue [OpPush first_event; OpFlush 200]) first_batch).1
    !! 7%N = Some t /\ (300 + 5 * 800000000 <= t <= 300 + 5 * 1200000000)%Z.
Proof.
  assert (Hn : retry_count (run_queue Queue [OpPush first_event; OpFlush 200]) 7%N = 0) by (vm_compute; reflexivity).
  pose proof (retry_delay_bounds Queue [OpPush first_event; OpFlush 200] 300 500000000 first_batch) as Hb.
  cbv zeta in Hb. change (fb_channel_id first_batch) with 7%N in Hb. rewrite Hn in Hb.
  refine (proj1 (Hb _ _)); [reflexivity|apply Nat.ltb_lt; reflexivity].
Defined.

(** The eleventh failure of the same batch is handed back. *)
Lemma poison_batch_dead_lettered_witness :
  eleventh_flush.2 = Some first_batch /\
  failed_attempts 7%N (poisoned_ops ++ [OpFlush 4400000000000]) = 10 /\
  (requeue 4400000001000 0 (run_queue Queue ([OpPush first_event] ++ poisoned_ops ++ [OpFlush 4400000000000]))
     first_batch).2 = Some first_batch.
Proof.
  split; [reflexivity|]. split; [reflexivity|].
  pose proof (poison_batch_dead_lettered Queue [OpPush first_event] (poisoned_ops ++ [OpFlush 4400000000000])
    4400000001000 0 first_batch) as Hp.
  cbv zeta in Hp. change (fb_channel_id first_batch) with 7%N in Hp.
  destruct (requeue _ _ _ _) as [q' dead]. rewrite decide_True in Hp by (vm_compute; reflexivity).
  apply Hp; vm_compute; reflexivity.
Defined.

Lemma compaction_unobservable_witness :
  (100 <= 200)%Z /\
  (eligible 200 (compact_expired_state 100 (run_queue Queue steered_ops)) 7%N <->
   eligible 200 (run_queue Queue steered_ops) 7%N).
Proof.
  split; [lia|]. refine (proj1 (compaction_unobservable Queue steered_ops 100 200 7%N _)). lia.
Defined.
End example.
