(* ===== verification/Pairing.v ===== *)
(** * Device pairing ([crates/buzz-core/src/pairing/])

    One side of the NIP-AB exchange: the key derivations of [crypto.rs], the messages of
    [types.rs] and the state machine of [session.rs].  The cryptographic and encoding
    crates are the operations of [PairingApi]; byte strings are [string]s.  Every
    operation takes the environment it reads ([Env]: the monotonic clock, the wall
    clock and the random draws) and returns the session, which it mutates, and its
    result.  Zeroization of secrets has no functional effect and is left out, as are
    the accessors and the QR URI. *)

From S2P Require Import Prelude Nostr.
From stdpp Require Import pretty.

(** [PairingError] ([mod.rs]), with the messages of the code. *)
Inductive PairingError :=
| InvalidQr (s : string)
| InvalidSessionId
| SasMismatch
| TranscriptMismatch
| UnexpectedMessage (expected got : string)
| SessionExpired
| Nip44 (e : string)
| Json (e : string)
| InvalidPubkey (s : string)
| SigningError (s : string).

Inductive PayloadType := Nsec | Bunker | Connect | Custom.
Inductive AbortReason := AbortSasMismatch | UserDenied | Timeout | ProtocolError | Unknown.

Inductive PairingMessage :=
| Offer (session_id : string) (version : N)
| SasConfirm (transcript_hash : string)
| Payload (payload_type : PayloadType) (payload : string)
| Complete (success : bool)
| Abort (reason : AbortReason).

Inductive Role := Source | Target.

Inductive SessionState :=
| Waiting | Confirming | AwaitingConfirmation | Transferring | PayloadExchanged
| Completed | Aborted.

#[export] Instance Role_eq_dec : EqDecision Role.
Proof. solve_decision. Defined.
#[export] Instance SessionState_eq_dec : EqDecision SessionState.
Proof. solve_decision. Defined.

(** The third-party operations: key pairs, ECDH, HKDF ([nostr::util]), hexadecimal
    ([hex]), NIP-44 ([nostr::nips::nip44]), JSON ([serde_json]) and events
    ([EventBuilder], [Event::verify]).  Fallible ones carry their error text. *)
Class PairingApi `{NostrApi} := {
  Keys : Type;
  public_key : Keys -> PublicKey;
  pk_to_bytes : PublicKey -> string;
  pk_to_hex : PublicKey -> string;
  event_id_to_bytes : EventId -> string;
  generate_shared_key : Keys -> PublicKey -> Result string string;
  hkdf_extract : string -> string -> string;
  hkdf_expand : string -> string -> N -> string;
  hex_encode : string -> string;
  hex_decode : string -> option string;
  nip44_encrypt : N -> Keys -> PublicKey -> string -> Result string string;
  nip44_decrypt : Keys -> PublicKey -> string -> Result string string;
  message_to_json : PairingMessage -> Result string string;
  message_from_json : string -> Result PairingMessage string;
  sign_event : Keys -> Kind -> string -> list Tag -> N -> Result Event string;
  verify_event : Event -> Result unit string;
}.

Definition PAIRING_KIND : Kind := 24134%N.

(** Nanoseconds. *)
Definition DEFAULT_TIMEOUT : Z := 120000000000.

Record Env := {
  env_now : Z;
  env_unix_secs : N;
  env_random_u64 : N;
  env_nonce : N;
}.

(** Byte [i] of a byte string. *)
Definition byte_at (i : nat) (s : string) : N :=
  match String.get i s with
  | Some a => Ascii.N_of_ascii a
  | None => 0
  end.

(** [u32::from_be_bytes] of the first four bytes *)
Definition be_u32 (s : string) : N :=
  (byte_at 0 s * 16777216 + byte_at 1 s * 65536 + byte_at 2 s * 256 + byte_at 3 s)%N.

(** [format!("{code:06}")] *)
Fixpoint zeros (n : nat) : string :=
  match n with
  | O => EmptyString
  | S n => String "0"%char (zeros n)
  end.

Definition format_sas (code : N) : string :=
  (zeros (6 - String.length (pretty code)) ++ pretty code)%string.

(** Constant-time comparison of two arrays. *)
Definition ct_eq (a b : string) : bool := bool_decide (a = b).

(** The name of a message's variant, and [unexpected]. *)
Definition message_name (m : PairingMessage) : string :=
  match m with
  | Offer _ _ => "offer"
  | SasConfirm _ => "sas-confirm"
  | Payload _ _ => "payload"
  | Complete _ => "complete"
  | Abort _ => "abort"
  end.

Definition unexpected (expected : string) (got : PairingMessage) : PairingError :=
  UnexpectedMessage expected (message_name got).

(** The [Debug] names. *)
Definition state_name (st : SessionState) : string :=
  match st with
  | Waiting => "Waiting"
  | Confirming => "Confirming"
  | AwaitingConfirmation => "AwaitingConfirmation"
  | Transferring => "Transferring"
  | PayloadExchanged => "PayloadExchanged"
  | Completed => "Completed"
  | Aborted => "Aborted"
  end.

Definition role_name (r : Role) : string :=
  match r with
  | Source => "Source"
  | Target => "Target"
  end.

Record QrPayload := {
  qr_version : N;
  source_pubkey : PublicKey;
  qr_session_secret : string;
  relays : list string;
}.

Record PairingSession `{PairingApi} := {
  role : Role;
  state : SessionState;
  keys : Keys;
  session_secret : string;
  relay_urls : list string;
  peer_pubkey : option PublicKey;
  session_id : string;
  sas_code : option N;
  sas_input : option string;
  processed_ids : list string;
  session_created_at : Z;
  timeout : Z;
}.

(** [ok_or] *)
Definition ok_or {A E} (o : option A) (e : E) : Result A E :=
  match o with
  | Some a => Ok a
  | None => Err e
  end.

Definition ensure {E} (b : bool) (e : E) : Result unit E := if b then Ok tt else Err e.

Section pairing.
Context `{PairingApi}.
Implicit Types (s : PairingSession) (ev : Event) (env : Env).

(** ** Key derivation ([crypto.rs]) *)

Definition hkdf32 (salt ikm info : string) : string :=
  hkdf_expand (hkdf_extract salt ikm) info 32.

Definition derive_session_id (secret : string) : string :=
  hkdf32 "" secret "nostr-pair-session-id".

Definition derive_sas (ecdh_shared secret : string) : N * string :=
  let sas_input := hkdf32 secret ecdh_shared "nostr-pair-sas-v1" in
  ((be_u32 sas_input mod 1000000)%N, sas_input).

Definition derive_transcript_hash (sid source_pk target_pk sas_in secret : string) : string :=
  hkdf32 secret (sid ++ source_pk ++ target_pk ++ sas_in)%string "nostr-pair-transcript-v1".

(** [hex::decode(..).ok().and_then(|b| <[u8; 32]>::try_from(b).ok())] *)
Definition decode32 (h : string) : option string :=
  b ← hex_decode h; if decide (String.length b = 32) then Some b else None.

(** ** Field updates *)

Definition set_state st s : PairingSession :=
  let '(Build_PairingSession _ _ a _ c d e f g h i j k l) := s in
  Build_PairingSession _ _ a st c d e f g h i j k l.

Definition set_peer p s : PairingSession :=
  let '(Build_PairingSession _ _ a b c d e _ g h i j k l) := s in
  Build_PairingSession _ _ a b c d e p g h i j k l.

Definition set_sas code input s : PairingSession :=
  let '(Build_PairingSession _ _ a b c d e f g _ _ j k l) := s in
  Build_PairingSession _ _ a b c d e f g code input j k l.

(** [record_event] *)
Definition record_event ev s : PairingSession :=
  let '(Build_PairingSession _ _ a b c d e f g h i j k l) := s in
  Build_PairingSession _ _ a b c d e f g h i (event_id_to_bytes (id ev) :: j) k l.

(** ** Guards *)

Definition is_expired env s : bool := bool_decide (timeout s < env_now env - session_created_at s)%Z.

Definition check_expired env s : Result unit PairingError :=
  ensure (negb (is_expired env s)) SessionExpired.

Definition expect_state s (expected : SessionState) : Result unit PairingError :=
  ensure (bool_decide (state s = expected))
    (UnexpectedMessage ("state " ++ state_name expected) ("state " ++ state_name (state s))).

Definition expect_role s (expected : Role) : Result unit PairingError :=
  ensure (bool_decide (role s = expected))
    (UnexpectedMessage ("role " ++ role_name expected) ("role " ++ role_name (role s))).

(** [check_expired], [expect_state] and [expect_role], in the order of the code. *)
Definition guard_step env s (st : SessionState) (r : Role) : Result unit PairingError :=
  let? _ := check_expired env s in
  let? _ := expect_state s st in
  expect_role s r.

Definition has_p_tag ev (pk_hex : string) : bool :=
  existsb (fun t => match t with
                    | name :: v :: _ => bool_decide (name = "p") && bool_decide (v = pk_hex)
                    | _ => false
                    end) (tags ev).

Definition validate_event_basics s ev : Result unit PairingError :=
  let? _ := map_err (fun e => InvalidPubkey ("event verification failed: " ++ e)) (verify_event ev) in
  let? _ := ensure (negb (bool_decide (event_id_to_bytes (id ev) ∈ processed_ids s)))
              (UnexpectedMessage "new event" "duplicate event id") in
  let? _ := ensure (bool_decide (kind ev = PAIRING_KIND))
              (UnexpectedMessage ("kind " ++ pretty PAIRING_KIND) ("kind " ++ pretty (kind ev))) in
  ensure (has_p_tag ev (pk_to_hex (public_key (keys s))))
    (InvalidPubkey "event p-tag does not match our ephemeral pubkey").

Definition validate_event_from_peer s ev : Result unit PairingError :=
  let? _ := validate_event_basics s ev in
  match peer_pubkey s with
  | Some expected =>
      ensure (bool_decide (pubkey ev = expected))
        (InvalidPubkey ("event from " ++ pk_to_hex (pubkey ev) ++ " but expected "
                          ++ pk_to_hex expected))
  | None => Ok tt
  end.

(** ** Messages *)

Definition build_event env s (message : PairingMessage) : Result Event PairingError :=
  let? peer := ok_or (peer_pubkey s) (InvalidPubkey "no peer pubkey set") in
  let? plaintext := map_err Json (message_to_json message) in
  let? encrypted := map_err Nip44 (nip44_encrypt (env_nonce env) (keys s) peer plaintext) in
  let ts := (env_unix_secs env - env_random_u64 env mod 31)%N in
  map_err SigningError
    (sign_event (keys s) PAIRING_KIND encrypted [["p"; pk_to_hex peer]] ts).

Definition decrypt_message s ev : Result PairingMessage PairingError :=
  let content_len := String.length (content ev) in
  let? _ := ensure (bool_decide (132 <= Z.of_nat content_len <= 87472)%Z)
              (UnexpectedMessage "NIP-44 content (132–87472 chars)"
                 (pretty (N.of_nat content_len) ++ " chars")) in
  let? decrypted := map_err Nip44 (nip44_decrypt (keys s) (pubkey ev) (content ev)) in
  let? _ := ensure (bool_decide (Z.of_nat (String.length decrypted) <= 65535)%Z)
              (UnexpectedMessage "plaintext ≤ 65535 bytes"
                 (pretty (N.of_nat (String.length decrypted)) ++ " bytes")) in
  map_err Json (message_from_json decrypted).

(** ** Source side *)

(** [Keys::generate()] and the random secret are arguments. *)
Definition new_source env (k : Keys) (secret : string) (relay_url : string) :
    PairingSession * QrPayload :=
  ({| role := Source; state := Waiting; keys := k; session_secret := secret;
      relay_urls := [relay_url]; peer_pubkey := None; session_id := derive_session_id secret;
      sas_code := None; sas_input := None; processed_ids := [];
      session_created_at := env_now env; timeout := DEFAULT_TIMEOUT |},
   {| qr_version := 1; source_pubkey := public_key k; qr_session_secret := secret;
      relays := [relay_url] |}).

Definition handle_offer env s ev : PairingSession * Result string PairingError :=
  match (let? _ := guard_step env s Waiting Source in
         let? _ := validate_event_basics s ev in
         decrypt_message s ev) with
  | Err e => (s, Err e)
  | Ok (Offer session_id_hex version) =>
      if decide (version <> 1%N)
      then (s, Err (UnexpectedMessage "version 1" ("version " ++ pretty version)))
      else match decode32 session_id_hex with
           | Some received_id =>
               if ct_eq received_id (session_id s) then
                 let s := set_peer (Some (pubkey ev)) s in
                 match generate_shared_key (keys s) (pubkey ev) with
                 | Err e => (s, Err (SigningError e))
                 | Ok ecdh =>
                     let '(code, input) := derive_sas ecdh (session_secret s) in
                     let s := set_sas (Some code) (Some input) s in
                     let s := set_state Confirming s in
                     (record_event ev s, Ok (format_sas code))
                 end
               else (s, Err InvalidSessionId)
           | None => (s, Err InvalidSessionId)
           end
  | Ok other => (s, Err (unexpected "offer" other))
  end.

Definition confirm_sas env s : PairingSession * Result Event PairingError :=
  match (let? _ := guard_step env s Confirming Source in
         let? sas_in := ok_or (sas_input s) SasMismatch in
         let? peer := ok_or (peer_pubkey s) (InvalidPubkey "no peer") in
         let transcript_hash :=
           derive_transcript_hash (session_id s) (pk_to_bytes (public_key (keys s)))
             (pk_to_bytes peer) sas_in (session_secret s) in
         build_event env s (SasConfirm (hex_encode transcript_hash))) with
  | Err e => (s, Err e)
  | Ok ev => (set_state Transferring s, Ok ev)
  end.

Definition send_payload env s (payload_type : PayloadType) (payload : string) :
    PairingSession * Result Event PairingError :=
  match (let? _ := guard_step env s Transferring Source in
         build_event env s (Payload payload_type payload)) with
  | Err e => (s, Err e)
  | Ok ev => (set_state PayloadExchanged s, Ok ev)
  end.

Definition handle_complete env s ev : PairingSession * Result unit PairingError :=
  match (let? _ := guard_step env s PayloadExchanged Source in
         let? _ := validate_event_from_peer s ev in
         decrypt_message s ev) with
  | Err e => (s, Err e)
  | Ok (Complete true) => (record_event ev (set_state Completed s), Ok tt)
  | Ok (Complete false) =>
      (set_state Aborted s,
       Err (UnexpectedMessage "complete(success=true)" "complete(success=false)"))
  | Ok other => (s, Err (unexpected "complete" other))
  end.

(** ** Target side *)

Definition new_target env (k : Keys) (qr : QrPayload) :
    Result (PairingSession * Event) PairingError :=
  let? ecdh := map_err SigningError (generate_shared_key k (source_pubkey qr)) in
  let '(code, input) := derive_sas ecdh (qr_session_secret qr) in
  let sid := derive_session_id (qr_session_secret qr) in
  let s := {| role := Target; state := Waiting; keys := k;
              session_secret := qr_session_secret qr; relay_urls := relays qr;
              peer_pubkey := Some (source_pubkey qr); session_id := sid;
              sas_code := Some code; sas_input := Some input; processed_ids := [];
              session_created_at := env_now env; timeout := DEFAULT_TIMEOUT |} in
  let? ev := build_event env s (Offer (hex_encode sid) 1) in
  Ok (set_state Confirming s, ev).

Definition handle_sas_confirm env s ev : PairingSession * Result string PairingError :=
  match (let? _ := guard_step env s Confirming Target in
         let? _ := validate_event_from_peer s ev in
         decrypt_message s ev) with
  | Err e => (s, Err e)
  | Ok (SasConfirm received_hash) =>
      match (let? sas_in := ok_or (sas_input s) SasMismatch in
             let? peer := ok_or (peer_pubkey s) (InvalidPubkey "no peer") in
             Ok (derive_transcript_hash (session_id s) (pk_to_bytes peer)
                   (pk_to_bytes (public_key (keys s))) sas_in (session_secret s))) with
      | Err e => (s, Err e)
      | Ok expected_hash =>
          let matches := match decode32 received_hash with
                         | Some rb => ct_eq rb expected_hash
                         | None => false
                         end in
          if matches then
            let s := record_event ev (set_state AwaitingConfirmation s) in
            (s, let? code := ok_or (sas_code s) SasMismatch in Ok (format_sas code))
          else (set_state Aborted s, Err TranscriptMismatch)
      end
  | Ok other => (s, Err (unexpected "sas-confirm" other))
  end.

Definition confirm_target_sas env s : PairingSession * Result unit PairingError :=
  match guard_step env s AwaitingConfirmation Target with
  | Err e => (s, Err e)
  | Ok _ => (set_state Transferring s, Ok tt)
  end.

Definition handle_payload env s ev :
    PairingSession * Result (PayloadType * string) PairingError :=
  match (let? _ := guard_step env s Transferring Target in
         let? _ := validate_event_from_peer s ev in
         decrypt_message s ev) with
  | Err e => (s, Err e)
  | Ok (Payload payload_type payload) =>
      (record_event ev (set_state PayloadExchanged s), Ok (payload_type, payload))
  | Ok other => (s, Err (unexpected "payload" other))
  end.

Definition send_complete env s : PairingSession * Result Event PairingError :=
  match (let? _ := guard_step env s PayloadExchanged Target in
         build_event env s (Complete true)) with
  | Err e => (s, Err e)
  | Ok ev => (set_state Completed s, Ok ev)
  end.

(** ** Abort *)

Definition terminal (st : SessionState) : bool :=
  match st with
  | Completed | Aborted => true
  | _ => false
  end.

Definition terminal_error s : PairingError :=
  UnexpectedMessage "non-terminal state" ("state " ++ state_name (state s)).

Definition abort env s (reason : AbortReason) :
    PairingSession * Result (option Event) PairingError :=
  if terminal (state s) then (s, Err (terminal_error s))
  else match peer_pubkey s with
       | None => (set_state Aborted s, Ok None)
       | Some _ =>
           match build_event env s (Abort reason) with
           | Err e => (s, Err e)
           | Ok ev => (set_state Aborted s, Ok (Some ev))
           end
       end.

Definition handle_abort s ev : PairingSession * Result AbortReason PairingError :=
  if terminal (state s) then (s, Err (terminal_error s))
  else match peer_pubkey s with
       | None => (s, Err (InvalidPubkey "cannot accept abort before peer is known"))
       | Some _ =>
           match (let? _ := validate_event_from_peer s ev in decrypt_message s ev) with
           | Err e => (s, Err e)
           | Ok (Abort reason) => (record_event ev (set_state Aborted s), Ok reason)
           | Ok other => (s, Err (unexpected "abort" other))
           end
       end.
End pairing.
