(* ===== verification/PairingProps.v ===== *)
(** * Properties of device pairing

    The protocol script followed by each side, atomicity of failures, authenticity of
    accepted events and expiry, for any implementation of the cryptographic operations. *)

From S2P Require Import Prelude Nostr Pairing.
From stdpp Require Import pretty.

Section runs.
Context `{PairingApi}.
Implicit Types (s : PairingSession) (ev : Event) (env : Env).

Inductive PairOp :=
| HandleOffer (ev : Event)
| ConfirmSas
| SendPayload (t : PayloadType) (p : string)
| HandleComplete (ev : Event)
| HandleSasConfirm (ev : Event)
| ConfirmTargetSas
| HandlePayload (ev : Event)
| SendComplete
| DoAbort (reason : AbortReason)
| HandleAbort (ev : Event).

(** Forget the value of a successful result. *)
Definition drop_value {A E} (r : Result A E) : option E :=
  match r with
  | Ok _ => None
  | Err e => Some e
  end.

(** The session after an operation, and its error if it failed. *)
Definition run_pair_op env s (op : PairOp) : PairingSession * option PairingError :=
  match op with
  | HandleOffer ev => let '(s', r) := handle_offer env s ev in (s', drop_value r)
  | ConfirmSas => let '(s', r) := confirm_sas env s in (s', drop_value r)
  | SendPayload t p => let '(s', r) := send_payload env s t p in (s', drop_value r)
  | HandleComplete ev => let '(s', r) := handle_complete env s ev in (s', drop_value r)
  | HandleSasConfirm ev => let '(s', r) := handle_sas_confirm env s ev in (s', drop_value r)
  | ConfirmTargetSas => let '(s', r) := confirm_target_sas env s in (s', drop_value r)
  | HandlePayload ev => let '(s', r) := handle_payload env s ev in (s', drop_value r)
  | SendComplete => let '(s', r) := send_complete env s in (s', drop_value r)
  | DoAbort reason => let '(s', r) := abort env s reason in (s', drop_value r)
  | HandleAbort ev => let '(s', r) := handle_abort s ev in (s', drop_value r)
  end.

(** A run, with the operations that succeeded, in order. *)
Fixpoint run_pairing s (steps : list (Env * PairOp)) : PairingSession * list PairOp :=
  match steps with
  | [] => (s, [])
  | (env, op) :: steps =>
      let '(s', err) := run_pair_op env s op in
      let '(s'', accepted) := run_pairing s' steps in
      (s'', match err with None => op :: accepted | Some _ => accepted end)
  end.

(** ** The script of each role *)

Inductive Step :=
| StepOffer | StepConfirm | StepSend | StepComplete
| StepSasConfirm | StepTargetConfirm | StepPayload | StepSendComplete.

Definition step_of (op : PairOp) : option Step :=
  match op with
  | HandleOffer _ => Some StepOffer
  | ConfirmSas => Some StepConfirm
  | SendPayload _ _ => Some StepSend
  | HandleComplete _ => Some StepComplete
  | HandleSasConfirm _ => Some StepSasConfirm
  | ConfirmTargetSas => Some StepTargetConfirm
  | HandlePayload _ => Some StepPayload
  | SendComplete => Some StepSendComplete
  | DoAbort _ | HandleAbort _ => None
  end.

Definition script (r : Role) : list Step :=
  match r with
  | Source => [StepOffer; StepConfirm; StepSend; StepComplete]
  | Target => [StepSasConfirm; StepTargetConfirm; StepPayload; StepSendComplete]
  end.

(** The state after [n] steps of the script. *)
Definition stage (r : Role) (n : nat) : SessionState :=
  match r, n with
  | Source, 0 => Waiting
  | Source, 1 => Confirming
  | Target, 0 => Confirming
  | Target, 1 => AwaitingConfirmation
  | _, 2 => Transferring
  | _, 3 => PayloadExchanged
  | _, _ => Completed
  end.

(** The event an operation consumes. *)
Definition event_of (op : PairOp) : option Event :=
  match op with
  | HandleOffer ev | HandleComplete ev | HandleSasConfirm ev | HandlePayload ev
  | HandleAbort ev => Some ev
  | _ => None
  end.

(** A session that has its peer and SAS as soon as its stage needs them. *)
Definition has_sas s : Prop :=
  is_Some (peer_pubkey s) /\ is_Some (sas_code s) /\ is_Some (sas_input s).

Definition session_wf s : Prop :=
  (role s = Target -> has_sas s) /\
  (role s = Source -> state s = Waiting \/ state s = Aborted \/ has_sas s) /\
  (exists n, n <= 4 /\ (state s = stage (role s) n \/ state s = Aborted)).

(** ** Guards *)

Lemma ensure_ok {E} b (e : E) : ensure b e = Ok tt <-> b = true.
Proof. by destruct b. Qed.

Lemma guard_step_ok env s st r :
  guard_step env s st r = Ok tt <-> is_expired env s = false /\ state s = st /\ role s = r.
Proof.
  unfold guard_step, check_expired, expect_state, expect_role.
  destruct (is_expired env s); simpl; [split; [done|naive_solver]|].
  destruct (decide (state s = st)) as [E1|E1];
    [rewrite bool_decide_eq_true_2 by done|rewrite bool_decide_eq_false_2 by done]; simpl;
    [|split; [done|naive_solver]].
  destruct (decide (role s = r)) as [E2|E2];
    [rewrite bool_decide_eq_true_2 by done|rewrite bool_decide_eq_false_2 by done]; simpl;
    naive_solver.
Qed.

Record authentic s ev : Prop := {
  auth_verified : verify_event ev = Ok tt;
  auth_fresh : event_id_to_bytes (id ev) ∉ processed_ids s;
  auth_kind : kind ev = PAIRING_KIND;
  auth_to_us : has_p_tag ev (pk_to_hex (public_key (keys s))) = true;
}.

Lemma validate_event_basics_ok s ev : validate_event_basics s ev = Ok tt <-> authentic s ev.
Proof.
  unfold validate_event_basics. split.
  - intros Hv. apply result_bind_ok in Hv as ([] & Hv1%map_err_ok & Hv).
    apply result_bind_ok in Hv as ([] & Hv2%ensure_ok & Hv).
    apply result_bind_ok in Hv as ([] & Hv3%ensure_ok & Hv4%ensure_ok). bool_to_prop. by split.
  - intros [-> Hf Hk Ht]. simpl. rewrite bool_decide_eq_false_2, bool_decide_eq_true_2 by done.
    simpl. by rewrite Ht.
Qed.

Lemma validate_event_from_peer_ok s ev p :
  peer_pubkey s = Some p ->
  validate_event_from_peer s ev = Ok tt <-> authentic s ev /\ pubkey ev = p.
Proof.
  intros Hp. unfold validate_event_from_peer. rewrite Hp. split.
  - intros Hv. apply result_bind_ok in Hv as ([] & Hv1 & Hv2%ensure_ok). bool_to_prop.
    by rewrite validate_event_basics_ok in Hv1.
  - intros [Ha Heq]. apply validate_event_basics_ok in Ha as ->. simpl.
    by rewrite bool_decide_eq_true_2.
Qed.

(** ** One operation *)

(** What a failure may leave behind: nothing, an abort, or the peer of an offer whose
    key could not be used. *)
Definition failure_effect s (op : PairOp) (e : PairingError) s' : Prop :=
  s' = s \/
  (s' = set_state Aborted s /\
     (e = TranscriptMismatch \/
      e = UnexpectedMessage "complete(success=true)" "complete(success=false)")) \/
  (exists ev msg, op = HandleOffer ev /\ s' = set_peer (Some (pubkey ev)) s /\
     e = SigningError msg /\ state s = Waiting).

(** What a success does: the next step of the script, or an abort. *)
Definition success_effect s (op : PairOp) s' : Prop :=
  role s' = role s /\ keys s' = keys s /\
  (forall ev, event_of op = Some ev -> authentic s ev /\ peer_pubkey s' = Some (pubkey ev) /\
     processed_ids s' = event_id_to_bytes (id ev) :: processed_ids s) /\
  (event_of op = None -> processed_ids s' = processed_ids s /\ peer_pubkey s' = peer_pubkey s) /\
  (forall p, peer_pubkey s = Some p -> state s <> Waiting -> peer_pubkey s' = Some p) /\
  match step_of op with
  | Some st => exists n, state s = stage (role s) n /\ script (role s) !! n = Some st /\
                 state s' = stage (role s) (S n)
  | None => terminal (state s) = false /\ state s' = Aborted
  end.

Lemma recv_inv env s ev st r m p :
  peer_pubkey s = Some p ->
  (let? _ := guard_step env s st r in let? _ := validate_event_from_peer s ev in
   decrypt_message s ev) = Ok m ->
  state s = st /\ role s = r /\ authentic s ev /\ pubkey ev = p.
Proof.
  intros Hp Hr. apply result_bind_ok in Hr as ([] & Hg & Hr).
  apply result_bind_ok in Hr as ([] & Hv & _). apply guard_step_ok in Hg as (_ & ? & ?).
  apply (validate_event_from_peer_ok _ _ p) in Hv as [? ?]; by try done.
Qed.

Lemma send_inv env s st r m ev :
  (let? _ := guard_step env s st r in build_event env s m) = Ok ev -> state s = st /\ role s = r.
Proof. intros Hr. apply result_bind_ok in Hr as ([] & (_ & ? & ?)%guard_step_ok & _). done. Qed.

Lemma wf_has_sas s : session_wf s -> state s <> Waiting -> state s <> Aborted -> has_sas s.
Proof.
  intros (Ht & Hs & _) Hw Ha. destruct (role s) eqn:E; [|auto].
  destruct (Hs eq_refl) as [?|[?|?]]; done.
Qed.

(** Close the success case of a step that keeps the peer. *)
Ltac solve_success n :=
  match goal with
  | s : PairingSession |- _ =>
      unfold success_effect; destruct s; cbn in *; subst; split_and!; try done; try naive_solver;
      by exists n
  end.

Lemma handle_offer_effect env s ev s' r :
  handle_offer env s ev = (s', r) ->
  match drop_value r with
  | None => success_effect s (HandleOffer ev) s' /\ has_sas s'
  | Some e => failure_effect s (HandleOffer ev) e s'
  end.
Proof.
  unfold handle_offer. intros Hh.
  destruct (let? _ := guard_step env s Waiting Source in _) as [m|e] eqn:Hg;
    [|injection Hh as <- <-; by left].
  apply result_bind_ok in Hg as ([] & (_ & Hst & Hro)%guard_step_ok & Hg).
  apply result_bind_ok in Hg as ([] & Hau%validate_event_basics_ok & _).
  destruct m as [sid v| | | |]; try (injection Hh as <- <-; by left).
  case_decide; [injection Hh as <- <-; by left|].
  destruct (decode32 sid) as [rid|]; [|injection Hh as <- <-; by left].
  destruct (ct_eq rid (session_id s)); [|injection Hh as <- <-; by left].
  destruct (generate_shared_key _ _) as [ecdh|msg].
  - destruct (derive_sas ecdh _) as [code input]. injection Hh as <- <-. cbn [drop_value].
    split; [|destruct s; repeat split; by eexists].
    destruct s; cbn in *; subst. unfold success_effect. cbn. split_and!; try done.
    + intros ? [= <-]. by split.
    + by exists 0.
  - injection Hh as <- <-. cbn [drop_value]. right. right. exists ev, msg. by destruct s.
Qed.

Lemma recv_effect env s op ev st r n st' m :
  session_wf s -> st <> Waiting -> st <> Aborted ->
  event_of op = Some ev -> step_of op <> None ->
  stage r n = st -> script r !! n = step_of op -> stage r (S n) = st' ->
  (let? _ := guard_step env s st r in let? _ := validate_event_from_peer s ev in
   decrypt_message s ev) = Ok m ->
  success_effect s op (record_event ev (set_state st' s)).
Proof.
  intros Hwf Hw Ha Hev Hstep Hst Hsc Hst' Hres.
  assert (Hs : state s = st).
  { apply result_bind_ok in Hres as ([] & (_ & ? & _)%guard_step_ok & _). done. }
  destruct (wf_has_sas s Hwf) as ([p Hp] & _); [congruence..|].
  destruct (recv_inv _ _ _ _ _ _ _ Hp Hres) as (_ & Hr & Hau & Hpk).
  unfold success_effect. rewrite Hev.
  destruct s; cbn in *; subst. split_and!; try done.
  - intros ? [= <-]. by split.
  - destruct (step_of op) as [k|]; [|done]. by exists n.
Qed.

Definition effect s (op : PairOp) s' (err : option PairingError) : Prop :=
  match err with
  | None => success_effect s op s' /\ (has_sas s' \/ (step_of op = None /\ (has_sas s -> has_sas s')))
  | Some e => failure_effect s op e s'
  end.

Lemma effect_refused s op e : effect s op s (Some e).
Proof. by left. Qed.

Lemma has_sas_kept s st :
  session_wf s -> state s <> Waiting -> state s <> Aborted ->
  has_sas (set_state st s) /\ forall ev, has_sas (record_event ev (set_state st s)).
Proof. intros Hwf Hw Ha. pose proof (wf_has_sas s Hwf Hw Ha) as Hs. by destruct s. Qed.

Lemma sas_confirm_effect env s ev s' r :
  session_wf s -> handle_sas_confirm env s ev = (s', r) ->
  effect s (HandleSasConfirm ev) s' (drop_value r).
Proof.
  intros Hwf. unfold handle_sas_confirm. intros Hrun.
  destruct (let? _ := guard_step env s Confirming Target in _) as [m|e] eqn:Hg;
    [|injection Hrun as <- <-; apply effect_refused].
  destruct m as [|h| | |]; try (injection Hrun as <- <-; apply effect_refused).
  assert (Hst : state s = Confirming).
  { apply result_bind_ok in Hg as ([] & (_ & ? & _)%guard_step_ok & _). done. }
  destruct (wf_has_sas s Hwf) as ([p Hp] & [c Hc] & [i Hi]); [congruence..|].
  rewrite Hp, Hi in Hrun. cbn [ok_or result_bind] in Hrun.
  destruct (match decode32 h with Some rb => _ | None => false end).
  - assert (Hc' : sas_code (record_event ev (set_state AwaitingConfirmation s)) = Some c)
      by by destruct s.
    rewrite Hc' in Hrun. injection Hrun as <- <-.
    split; [by apply (recv_effect env s _ _ Confirming Target 0 _ (SasConfirm h))|].
    left. apply has_sas_kept; congruence.
  - injection Hrun as <- <-. right. left. split; [done|by left].
Qed.

Lemma abort_effect env s reason s' r :
  abort env s reason = (s', r) -> effect s (DoAbort reason) s' (drop_value r).
Proof.
  unfold abort. intros Hrun. destruct (terminal (state s)) eqn:Ht;
    [injection Hrun as <- <-; apply effect_refused|].
  destruct (peer_pubkey s) as [p|] eqn:Hp.
  - destruct (build_event env s (Abort reason)) as [ev|e]; injection Hrun as <- <-;
      [|apply effect_refused].
    split; [|right; by destruct s]. unfold success_effect. destruct s; cbn in *. by split_and!.
  - injection Hrun as <- <-. split; [|right; by destruct s].
    unfold success_effect. destruct s; cbn in *. by split_and!.
Qed.

Lemma handle_abort_effect s ev s' r :
  handle_abort s ev = (s', r) -> effect s (HandleAbort ev) s' (drop_value r).
Proof.
  unfold handle_abort. intros Hrun. destruct (terminal (state s)) eqn:Ht;
    [injection Hrun as <- <-; apply effect_refused|].
  destruct (peer_pubkey s) as [p|] eqn:Hp; [|injection Hrun as <- <-; apply effect_refused].
  destruct (let? _ := validate_event_from_peer s ev in _) as [m|e] eqn:Hg;
    [|injection Hrun as <- <-; apply effect_refused].
  destruct m as [| | | |reason]; injection Hrun as <- <-; try apply effect_refused.
  apply result_bind_ok in Hg as ([] & Hv & _).
  apply (validate_event_from_peer_ok _ _ p Hp) in Hv as [Hau Hpk].
  split; [|right; by destruct s]. unfold success_effect. destruct s; cbn in *. split_and!; try done.
  intros ? [= <-]. split_and!; try done. congruence.
Qed.

Lemma op_effect env s op s' err :
  session_wf s -> run_pair_op env s op = (s', err) -> effect s op s' err.
Proof.
  intros Hwf Hrun. pose proof (has_sas_kept s) as Hkeep.
  destruct op as [ev| |t p|ev|ev| |ev| |reason|ev]; cbn [run_pair_op] in Hrun.
  - destruct (handle_offer env s ev) as [s1 r] eqn:Hh. injection Hrun as <- <-.
    apply handle_offer_effect in Hh. unfold effect. destruct (drop_value r); [done|].
    destruct Hh; auto.
  - unfold confirm_sas in Hrun.
    destruct (let? _ := guard_step env s Confirming Source in _) as [e1|e] eqn:Hg;
      injection Hrun as <- <-; [|apply effect_refused].
    apply result_bind_ok in Hg as ([] & (_ & Hst & Hro)%guard_step_ok & _).
    split; [|left; apply Hkeep; congruence]. clear Hkeep. solve_success 1.
  - unfold send_payload in Hrun.
    destruct (let? _ := guard_step env s Transferring Source in _) as [e1|e] eqn:Hg;
      injection Hrun as <- <-; [|apply effect_refused].
    pose proof (send_inv _ _ _ _ _ _ Hg) as [Hst Hro].
    split; [|left; apply Hkeep; congruence]. clear Hkeep. solve_success 2.
  - unfold handle_complete in Hrun.
    destruct (let? _ := guard_step env s PayloadExchanged Source in _) as [m|e] eqn:Hg;
      [|injection Hrun as <- <-; apply effect_refused].
    destruct m as [| | |[|]|]; injection Hrun as <- <-; try apply effect_refused.
    + split; [by apply (recv_effect env s _ _ PayloadExchanged Source 3 _ (Complete true))|].
      left. apply result_bind_ok in Hg as ([] & (_ & Hst & _)%guard_step_ok & _).
      apply Hkeep; congruence.
    + right. left. split; [done|by right].
  - destruct (handle_sas_confirm env s ev) as [s1 r] eqn:Hh. injection Hrun as <- <-.
    by eapply sas_confirm_effect.
  - unfold confirm_target_sas in Hrun.
    destruct (guard_step env s AwaitingConfirmation Target) as [[]|e] eqn:Hg;
      injection Hrun as <- <-; [|apply effect_refused].
    apply guard_step_ok in Hg as (_ & Hst & Hro).
    split; [|left; apply Hkeep; congruence]. clear Hkeep. solve_success 1.
  - unfold handle_payload in Hrun.
    destruct (let? _ := guard_step env s Transferring Target in _) as [m|e] eqn:Hg;
      [|injection Hrun as <- <-; apply effect_refused].
    destruct m as [| |t p| |]; injection Hrun as <- <-; try apply effect_refused.
    split; [by apply (recv_effect env s _ _ Transferring Target 2 _ (Payload t p))|].
    left. apply result_bind_ok in Hg as ([] & (_ & Hst & _)%guard_step_ok & _).
    apply Hkeep; congruence.
  - unfold send_complete in Hrun.
    destruct (let? _ := guard_step env s PayloadExchanged Target in _) as [e1|e] eqn:Hg;
      injection Hrun as <- <-; [|apply effect_refused].
    pose proof (send_inv _ _ _ _ _ _ Hg) as [Hst Hro].
    split; [|left; apply Hkeep; congruence]. clear Hkeep. solve_success 3.
  - destruct (abort env s reason) as [s1 r] eqn:Hh. injection Hrun as <- <-.
    by eapply abort_effect.
  - destruct (handle_abort s ev) as [s1 r] eqn:Hh. injection Hrun as <- <-.
    by eapply handle_abort_effect.
Qed.

(** *** Runs *)

Lemma failure_effect_wf s op e s' : session_wf s -> failure_effect s op e s' -> session_wf s'.
Proof.
  intros (Ht & Hs & n & Hn & Hst) [-> |[[-> _]|(ev & msg & -> & -> & _)]].
  - split; [done|split; [done|by exists n]].
  - destruct s; cbn in *. split_and!; cbn; [done|auto|]. exists n. by auto.
  - destruct s as [ro st ? ? ? pe ? sc si ? ? ?]; cbn in *. unfold session_wf, has_sas in *. cbn in *.
    split_and!; [naive_solver|naive_solver|by exists n].
Qed.

Lemma success_effect_wf s op s' :
  session_wf s -> success_effect s op s' ->
  has_sas s' \/ (step_of op = None /\ (has_sas s -> has_sas s')) -> session_wf s'.
Proof.
  intros (Ht & Hs & n & Hn & Hst) (Hro & _ & _ & _ & _ & Hstep) Hsas.
  split; [|split].
  - intros Hr. rewrite Hro in Hr. destruct Hsas as [|[_ Hkeep]]; auto.
  - intros _. destruct Hsas as [|[Hnone _]]; [auto|]. rewrite Hnone in Hstep. right. left.
    apply Hstep.
  - destruct (step_of op) as [k|].
    + destruct Hstep as (m & _ & Hk & Hst'). exists (S m). rewrite Hro. split; [|by left].
      apply lookup_lt_Some in Hk. by destruct (role s); simpl in Hk; lia.
    + destruct Hstep as [_ Hab]. exists n. auto.
Qed.

Lemma run_op_wf env s op : session_wf s -> session_wf (run_pair_op env s op).1.
Proof.
  intros Hwf. destruct (run_pair_op env s op) as [s' [e|]] eqn:Hrun;
    apply op_effect in Hrun; try done; simpl.
  - by eapply failure_effect_wf.
  - destruct Hrun. by eapply success_effect_wf.
Qed.

Lemma stage_inj r n m : n <= 4 -> m <= 4 -> stage r n = stage r m -> n = m.
Proof. destruct r; destruct n as [|[|[|[|[|n]]]]], m as [|[|[|[|[|m]]]]]; simpl; try done; lia. Qed.

Lemma stage_not_aborted r n : stage r n <> Aborted.
Proof. destruct r, n as [|[|[|[|n]]]]; done. Qed.

Lemma stage_S_not_waiting r n : stage r (S n) <> Waiting.
Proof. destruct r, n as [|[|[|n]]]; done. Qed.

Lemma failure_effect_frame s op e s' :
  failure_effect s op e s' ->
  role s' = role s /\ keys s' = keys s /\ processed_ids s' = processed_ids s /\
  (state s' = state s \/ state s' = Aborted) /\
  (state s <> Waiting -> peer_pubkey s' = peer_pubkey s).
Proof.
  intros [-> |[[-> _]|(ev & msg & -> & -> & _ & Hw)]]; [by split_and!; auto| |]; destruct s; cbn in *;
    split_and!; auto; congruence.
Qed.

(** Nothing succeeds in an aborted session. *)
Lemma success_not_aborted s op s' : success_effect s op s' -> state s <> Aborted.
Proof.
  intros (_ & _ & _ & _ & _ & Hstep). destruct (step_of op).
  - destruct Hstep as (n & -> & _). apply stage_not_aborted.
  - destruct Hstep as [Ht _]. by destruct (state s).
Qed.

Lemma run_pairing_cons s env op steps :
  run_pairing s ((env, op) :: steps) =
  ((run_pairing (run_pair_op env s op).1 steps).1,
   match (run_pair_op env s op).2 with
   | None => op :: (run_pairing (run_pair_op env s op).1 steps).2
   | Some _ => (run_pairing (run_pair_op env s op).1 steps).2
   end).
Proof.
  cbn [run_pairing]. destruct (run_pair_op env s op) as [s1 err]. cbn [fst snd].
  by destruct (run_pairing s1 steps).
Qed.

Lemma run_aborted s steps :
  session_wf s -> state s = Aborted ->
  (run_pairing s steps).2 = [] /\ state (run_pairing s steps).1 = Aborted /\
  role (run_pairing s steps).1 = role s.
Proof.
  revert s. induction steps as [|[env op] steps IH]; intros s Hwf Hab; [done|].
  rewrite run_pairing_cons. pose proof (run_op_wf env s op Hwf) as Hwf1.
  destruct (run_pair_op env s op) as [s1 err] eqn:Hop. cbn [fst snd] in *.
  apply op_effect in Hop; [|done]. destruct err as [e|].
  - apply failure_effect_frame in Hop as (Hro & _ & _ & Hst & _).
    destruct (IH s1) as (-> & -> & ->); [done|destruct Hst; congruence|]. done.
  - destruct Hop as [Hs _]. by apply success_not_aborted in Hs.
Qed.

Lemma omap_cons {A B} (f : A -> option B) x l :
  omap f (x :: l) = match f x with Some y => y :: omap f l | None => omap f l end.
Proof. done. Qed.

Lemma run_script s steps n :
  session_wf s -> n <= 4 -> state s = stage (role s) n ->
  let '(s', acc) := run_pairing s steps in
  role s' = role s /\ exists m, n <= m <= 4 /\
    omap step_of acc = take (m - n) (drop n (script (role s))) /\
    (state s' = stage (role s) m \/ state s' = Aborted).
Proof.
  revert s n. induction steps as [|[env op] steps IH]; intros s n Hwf Hn Hst.
  { cbn. split; [done|]. exists n. rewrite Nat.sub_diag. split_and!; auto. }
  rewrite run_pairing_cons. pose proof (run_op_wf env s op Hwf) as Hwf1.
  destruct (run_pair_op env s op) as [s1 err] eqn:Hop. cbn [fst snd] in *.
  apply op_effect in Hop; [|done].
  assert (Haborted : role s1 = role s -> state s1 = Aborted ->
    role (run_pairing s1 steps).1 = role s /\ exists m, n <= m <= 4 /\
      omap step_of (run_pairing s1 steps).2 = take (m - n) (drop n (script (role s))) /\
      (state (run_pairing s1 steps).1 = stage (role s) m \/ state (run_pairing s1 steps).1 = Aborted)).
  { intros Hro Hab. destruct (run_aborted s1 steps Hwf1 Hab) as (-> & -> & ->).
    split; [done|]. exists n. rewrite Nat.sub_diag. split_and!; auto. }
  destruct err as [e|].
  - apply failure_effect_frame in Hop as (Hro & _ & _ & [Hst1|Hab] & _); [|by apply Haborted].
    specialize (IH s1 n Hwf1 Hn). rewrite Hro, Hst1 in IH. specialize (IH Hst).
    by destruct (run_pairing s1 steps).
  - destruct Hop as [(Hro & _ & _ & _ & _ & Hstep) _]. rewrite omap_cons.
    destruct (step_of op) as [k|]; [|destruct Hstep; by apply Haborted].
    destruct Hstep as (n' & Hst' & Hk & Hst1). pose proof (lookup_lt_Some _ _ _ Hk) as Hlt.
    assert (length (script (role s)) = 4) as Hlen by by destruct (role s).
    assert (n' = n) as -> by (apply (stage_inj (role s)); [lia|done|congruence]).
    specialize (IH s1 (S n) Hwf1). rewrite Hro in IH. specialize (IH ltac:(lia) Hst1).
    destruct (run_pairing s1 steps) as [s2 acc]. cbn [fst snd].
    destruct IH as (Hro2 & m & Hm & Hacc & Hst2). split; [done|]. exists m. split; [lia|].
    split; [|done]. rewrite Hacc, (drop_S _ _ _ Hk).
    by replace (m - n) with (S (m - S n)) by lia.
Qed.

(** *** Accepted events *)

Definition event_key ev : string := event_id_to_bytes (id ev).

Lemma success_not_waiting s op s' ev :
  success_effect s op s' -> event_of op = Some ev -> state s' <> Waiting.
Proof.
  intros (_ & _ & _ & _ & _ & Hstep) _. destruct (step_of op).
  - destruct Hstep as (n & _ & _ & ->). apply stage_S_not_waiting.
  - destruct Hstep as [_ ->]. done.
Qed.

Lemma success_peer s op s' p :
  success_effect s op s' -> peer_pubkey s = Some p -> state s <> Waiting ->
  peer_pubkey s' = Some p.
Proof. intros (_ & _ & _ & _ & Hp & _). auto. Qed.

Lemma success_state s op s' : success_effect s op s' -> state s <> Waiting -> state s' <> Waiting.
Proof.
  intros (_ & _ & _ & _ & _ & Hstep) _. destruct (step_of op).
  - destruct Hstep as (n & _ & _ & ->). apply stage_S_not_waiting.
  - destruct Hstep as [_ ->]. done.
Qed.

Lemma run_keeps_peer s steps p :
  session_wf s -> state s <> Waiting -> peer_pubkey s = Some p ->
  peer_pubkey (run_pairing s steps).1 = Some p.
Proof.
  revert s. induction steps as [|[env op] steps IH]; intros s Hwf Hst Hp; [done|].
  rewrite run_pairing_cons. pose proof (run_op_wf env s op Hwf) as Hwf1.
  destruct (run_pair_op env s op) as [s1 err] eqn:Hop. cbn [fst snd] in *.
  apply op_effect in Hop; [|done]. destruct err as [e|].
  - apply failure_effect_frame in Hop as (_ & _ & _ & Hs & Hpe).
    apply IH; [done|destruct Hs; congruence|by rewrite Hpe].
  - destruct Hop as [Hs _]. apply IH; [done|by eapply success_state|by eapply success_peer].
Qed.

(** The accepted events of a run against its final session. *)
Definition accepted_ok s s' (evs : list Event) : Prop :=
  NoDup (event_key <$> evs) /\
  Forall (fun ev => verify_event ev = Ok tt /\ kind ev = PAIRING_KIND /\
    has_p_tag ev (pk_to_hex (public_key (keys s))) = true /\
    event_key ev ∉ processed_ids s /\ peer_pubkey s' = Some (pubkey ev)) evs.

Lemma run_accepted s steps :
  session_wf s ->
  accepted_ok s (run_pairing s steps).1 (omap event_of (run_pairing s steps).2).
Proof.
  revert s. induction steps as [|[env op] steps IH]; intros s Hwf; [by repeat constructor|].
  rewrite run_pairing_cons. pose proof (run_op_wf env s op Hwf) as Hwf1.
  destruct (run_pair_op env s op) as [s1 err] eqn:Hop. cbn [fst snd] in *.
  apply op_effect in Hop; [|done]. specialize (IH s1 Hwf1). destruct err as [e|].
  - apply failure_effect_frame in Hop as (_ & Hk & Hpr & _). unfold accepted_ok in *.
    by rewrite Hk, Hpr in IH.
  - destruct Hop as [Hs _]. pose proof Hs as (_ & Hk & Hev & Hnone & _ & _). rewrite omap_cons.
    destruct (event_of op) as [ev|] eqn:Heo.
    + destruct (Hev ev eq_refl) as ([Hver Hfresh Hkind Htous] & Hpeer & Hproc).
      destruct IH as [Hnd Hall]. rewrite Hk, Hproc in Hall.
      split.
      * rewrite fmap_cons. constructor; [|done]. intros (ev' & Heq & Hin)%list_elem_of_fmap.
        rewrite Forall_forall in Hall. destruct (Hall ev' Hin) as (_ & _ & _ & Hni & _).
        apply Hni. rewrite <-Heq. by left.
      * constructor.
        -- split_and!; try done. apply run_keeps_peer; [done|by eapply success_not_waiting|done].
        -- eapply Forall_impl; [exact Hall|]. intros ev' (? & ? & ? & Hni & ?). split_and!; try done.
           intros Hin. apply Hni. by right.
    + destruct (Hnone eq_refl) as [Hpr _]. unfold accepted_ok in *. by rewrite Hk, Hpr in IH.
Qed.

(** ** Fresh sessions *)

Definition fresh_session s : Prop :=
  (exists env k secret url, s = (new_source env k secret url).1) \/
  (exists env k qr ev, new_target env k qr = Ok (s, ev)).

Lemma fresh_session_spec s :
  fresh_session s ->
  session_wf s /\ state s = stage (role s) 0 /\ processed_ids s = [].
Proof.
  intros [(env & k & secret & url & ->)|(env & k & qr & ev & Hn)].
  - split; [|done]. split; [done|]. split; [by left|]. exists 0. split; [lia|by left].
  - unfold new_target in Hn. apply result_bind_ok in Hn as (ecdh & _ & Hn).
    destruct (derive_sas ecdh _) as [code input].
    apply result_bind_ok in Hn as (e & _ & [= <- _]). cbn.
    split; [|done]. split; [intros _; repeat split; by eexists|]. split; [done|].
    exists 0. split; [lia|by left].
Qed.
End runs.

(** ** Properties *)

Section properties.
Context `{PairingApi}.
Implicit Types (s : PairingSession) (ev : Event) (env : Env).

(** C3: each side follows its script: whatever events arrive and whatever the caller
    asks, in any order, the steps that succeed are the first [n] of its role's script
    (offer, confirm, send, complete for the source; sas-confirm, the user's
    confirmation, payload, complete for the target), and the session is then in the
    state of that point or aborted.  In particular a payload is sent or accepted only
    after both the peer's and the user's confirmation, once, and a finished session
    never moves again. *)
Theorem session_follows_script s steps s' accepted :
  fresh_session s -> run_pairing s steps = (s', accepted) ->
  role s' = role s /\
  exists n, n <= 4 /\ omap step_of accepted = take n (script (role s)) /\
    (state s' = stage (role s) n \/ state s' = Aborted).
Proof.
  intros (Hwf & Hst & _)%fresh_session_spec Hrun.
  pose proof (run_script s steps 0 Hwf ltac:(lia) Hst) as Hscript. rewrite Hrun in Hscript.
  destruct Hscript as (Hro & n & Hn & Hacc & Hs). split; [done|]. exists n.
  rewrite Nat.sub_0_r, drop_0 in Hacc. split_and!; [lia|done|done].
Qed.

(** C19: only authentic events count: in any run from a fresh session, every event
    accepted was verified, is of the pairing kind, is tagged with this session's key
    and comes from the one peer of the session, and no event id is accepted twice. *)
Theorem accepted_events_authentic s steps s' accepted :
  fresh_session s -> run_pairing s steps = (s', accepted) ->
  let evs := omap event_of accepted in
  NoDup (event_key <$> evs) /\
  (forall ev, ev ∈ evs -> verify_event ev = Ok tt /\ kind ev = PAIRING_KIND /\
     has_p_tag ev (pk_to_hex (public_key (keys s))) = true /\ peer_pubkey s' = Some (pubkey ev)).
Proof.
  intros (Hwf & _ & _)%fresh_session_spec Hrun. pose proof (run_accepted s steps Hwf) as [Hnd Hall].
  rewrite Hrun in Hnd, Hall. split; [done|]. intros ev Hin. rewrite Forall_forall in Hall.
  destruct (Hall ev Hin) as (? & ? & ? & _ & ?). done.
Qed.

(** A failed operation leaves the session as it was, except that a wrong transcript
    hash or an unsuccessful completion aborts it, and that an offer whose key cannot be
    used leaves its author as the peer of a session still waiting. *)
Theorem failed_operation_effect s steps env op e :
  fresh_session s ->
  let s1 := (run_pairing s steps).1 in
  (run_pair_op env s1 op).2 = Some e ->
  failure_effect s1 op e (run_pair_op env s1 op).1.
Proof.
  intros (Hwf & _ & _)%fresh_session_spec s1 Herr.
  assert (Hwf1 : session_wf s1).
  { unfold s1. clear -Hwf. revert s Hwf. induction steps as [|[env op] steps IH]; intros s Hwf; [done|].
    rewrite run_pairing_cons. by apply IH, run_op_wf. }
  destruct (run_pair_op env s1 op) as [s2 err] eqn:Hop. apply op_effect in Hop; [|done].
  simpl in Herr. by subst err.
Qed.

(** Once its time is over a session makes no progress: every operation but the two
    aborts fails with [SessionExpired] and changes nothing. *)
Theorem expired_session_rejects env s op :
  is_expired env s = true -> step_of op <> None ->
  run_pair_op env s op = (s, Some SessionExpired).
Proof.
  intros Hexp Hstep.
  assert (Hguard : forall {A} st r (k : unit -> Result A PairingError),
    (let? x := guard_step env s st r in k x) = Err SessionExpired).
  { intros A st r k. unfold guard_step, check_expired. by rewrite Hexp. }
  destruct op; try done; cbn [run_pair_op];
    unfold handle_offer, confirm_sas, send_payload, handle_complete, handle_sas_confirm,
      handle_payload, send_complete; rewrite ?Hguard; try done.
  unfold confirm_target_sas, guard_step, check_expired. by rewrite Hexp.
Qed.
End properties.
