(* ===== verification/PairingFlow.v ===== *)
(** * The complete pairing exchange

    The laws of the cryptographic and encoding operations, the end-to-end theorem of a
    successful pairing, and a concrete implementation that satisfies the laws. *)

From S2P Require Import Prelude Nostr Pairing PairingProps.
From stdpp Require Import pretty.

#[global] Open Scope nat_scope.

(** The string fields of a message, whose size decides whether it can be encrypted. *)
Definition message_size (m : PairingMessage) : nat :=
  match m with
  | Offer sid _ => String.length sid
  | SasConfirm h => String.length h
  | Payload _ p => String.length p
  | Complete _ | Abort _ => 0
  end.

(** The documented behaviour of the third-party operations on the inputs of a pairing:
    HKDF yields the length asked for, hexadecimal, JSON and NIP-44 decode what they
    encode, a JSON string escapes a byte to at most six, NIP-44 accepts 1 to 65535
    bytes and yields 132 to 87472, ECDH is symmetric, and a signed event carries its
    fields and verifies. *)
Class PairingLaws `{PairingApi} := {
  hkdf_length : forall prk info, String.length (hkdf_expand prk info 32) = 32;
  hex_round_trip : forall b, hex_decode (hex_encode b) = Some b;
  hex_length : forall b, String.length (hex_encode b) = 2 * String.length b;
  json_round_trip : forall m,
    match m with Offer _ v => (v < 4294967296)%N | _ => True end ->
    exists j, message_to_json m = Ok j /\ message_from_json j = Ok m /\
      1 <= String.length j <= 200 + 6 * message_size m;
  nip44_round_trip : forall n k1 k2 p,
    1 <= String.length p -> (Z.of_nat (String.length p) <= 65535)%Z ->
    exists c, nip44_encrypt n k1 (public_key k2) p = Ok c /\
      nip44_decrypt k2 (public_key k1) c = Ok p /\
      (132 <= Z.of_nat (String.length c) <= 87472)%Z;
  ecdh_symmetric : forall k1 k2, exists shared,
    generate_shared_key k1 (public_key k2) = Ok shared /\
    generate_shared_key k2 (public_key k1) = Ok shared;
  sign_round_trip : forall k knd c ts t,
    exists ev, sign_event k knd c ts t = Ok ev /\ verify_event ev = Ok tt /\
      pubkey ev = public_key k /\ kind ev = knd /\ content ev = c /\ tags ev = ts;
}.

Section flow.
Context `{PairingApi}.
Implicit Types (s : PairingSession) (ev : Event) (env : Env).

(** [ev] is message [m] from the holder of [k] to the holder of [k']. *)
Record delivers (k k' : Keys) (m : PairingMessage) ev : Prop := {
  del_verified : verify_event ev = Ok tt;
  del_kind : kind ev = PAIRING_KIND;
  del_from : pubkey ev = public_key k;
  del_to : has_p_tag ev (pk_to_hex (public_key k')) = true;
  del_content : (132 <= Z.of_nat (String.length (content ev)) <= 87472)%Z;
  del_plain : exists j, nip44_decrypt k' (public_key k) (content ev) = Ok j /\
    message_from_json j = Ok m /\ (Z.of_nat (String.length j) <= 65535)%Z;
}.

Lemma build_event_delivers `{!PairingLaws} env s k' m :
  peer_pubkey s = Some (public_key k') ->
  match m with Offer _ v => (v < 4294967296)%N | _ => True end ->
  (200 + 6 * Z.of_nat (message_size m) <= 65535)%Z ->
  exists ev, build_event env s m = Ok ev /\ delivers (keys s) k' m ev.
Proof.
  intros Hp Hv Hsize. unfold build_event. rewrite Hp. cbn [ok_or result_bind].
  destruct (json_round_trip m Hv) as (j & -> & Hj & Hlen). cbn [map_err result_bind].
  destruct (nip44_round_trip (env_nonce env) (keys s) k' j) as (c & -> & Hdec & Hc); [lia..|].
  cbn [map_err result_bind].
  destruct (sign_round_trip (keys s) PAIRING_KIND c [["p"; pk_to_hex (public_key k')]]
    (env_unix_secs env - env_random_u64 env mod 31)) as (ev & -> & Hver & Hpk & Hk & Hcon & Htags).
  exists ev. split; [done|]. split; try done.
  - unfold has_p_tag. rewrite Htags. simpl. by rewrite bool_decide_eq_true_2.
  - by rewrite Hcon.
  - rewrite Hcon. exists j. split_and!; [done|done|lia].
Qed.

(** A delivered message is accepted by its addressee. *)
Lemma delivers_decrypt s k m ev : delivers k (keys s) m ev -> decrypt_message s ev = Ok m.
Proof.
  intros [_ _ Hfrom _ Hc (j & Hdec & Hj & Hlen)]. unfold decrypt_message.
  rewrite bool_decide_eq_true_2 by done. cbn [ensure result_bind]. rewrite Hfrom, Hdec.
  cbn [map_err result_bind]. rewrite bool_decide_eq_true_2 by done. cbn. by rewrite Hj.
Qed.

Lemma delivers_basics s k m ev :
  delivers k (keys s) m ev -> event_key ev ∉ processed_ids s -> validate_event_basics s ev = Ok tt.
Proof. intros [] Hfresh. by apply validate_event_basics_ok. Qed.

Lemma delivers_from_peer s k m ev :
  delivers k (keys s) m ev -> event_key ev ∉ processed_ids s ->
  peer_pubkey s = Some (public_key k) -> validate_event_from_peer s ev = Ok tt.
Proof.
  intros Hd Hfresh Hp. apply (validate_event_from_peer_ok _ _ _ Hp).
  split; [by apply validate_event_basics_ok, (delivers_basics _ _ _ _ Hd)|apply Hd].
Qed.

Lemma guard_step_passes env s st r :
  is_expired env s = false -> state s = st -> role s = r -> guard_step env s st r = Ok tt.
Proof. intros. by apply guard_step_ok. Qed.

Lemma decode32_encode `{!PairingLaws} b : String.length b = 32 -> decode32 (hex_encode b) = Some b.
Proof. intros Hb. unfold decode32. rewrite hex_round_trip. cbn. by rewrite decide_True. Qed.

Lemma hkdf32_length `{!PairingLaws} salt ikm info : String.length (hkdf32 salt ikm info) = 32.
Proof. apply hkdf_length. Qed.

(** What both sides hold once the source has seen the offer. *)
Record agreed (secret : string) (k k' : Keys) s : Prop := {
  ag_keys : keys s = k;
  ag_secret : session_secret s = secret;
  ag_peer : peer_pubkey s = Some (public_key k');
  ag_sid : session_id s = derive_session_id secret;
  ag_sas : exists shared, generate_shared_key k (public_key k') = Ok shared /\
    sas_code s = Some (derive_sas shared secret).1 /\
    sas_input s = Some (derive_sas shared secret).2;
}.

(** The two ends of one pairing, [src] having displayed the QR code. *)
Definition transcript (secret : string) (src tgt : Keys) (shared : string) : string :=
  derive_transcript_hash (derive_session_id secret) (pk_to_bytes (public_key src))
    (pk_to_bytes (public_key tgt)) (derive_sas shared secret).2 secret.

Definition live env s : Prop := is_expired env s = false.

Lemma agreed_set_state secret k k' st s : agreed secret k k' s -> agreed secret k k' (set_state st s).
Proof. intros []. by destruct s; split. Qed.

Lemma agreed_record secret k k' ev s : agreed secret k k' s -> agreed secret k k' (record_event ev s).
Proof. intros []. by destruct s; split. Qed.

Lemma new_target_ok `{!PairingLaws} env k src secret urls :
  exists t offer, new_target env k {| qr_version := 1; source_pubkey := public_key src;
      qr_session_secret := secret; relays := urls |} = Ok (t, offer) /\
    agreed secret k src t /\ state t = Confirming /\ role t = Target /\ processed_ids t = [] /\
    session_created_at t = env_now env /\ timeout t = DEFAULT_TIMEOUT /\
    delivers k src (Offer (hex_encode (derive_session_id secret)) 1) offer.
Proof.
  unfold new_target. cbn [source_pubkey qr_session_secret relays].
  destruct (ecdh_symmetric k src) as (shared & Hsh & _). rewrite Hsh. cbn [map_err result_bind].
  destruct (derive_sas shared secret) as [code input] eqn:Hsas.
  set (t := {| role := Target; state := Waiting; keys := k; session_secret := secret;
               relay_urls := urls; peer_pubkey := Some (public_key src);
               session_id := derive_session_id secret; sas_code := Some code;
               sas_input := Some input; processed_ids := [];
               session_created_at := env_now env; timeout := DEFAULT_TIMEOUT |}).
  destruct (build_event_delivers env t src (Offer (hex_encode (derive_session_id secret)) 1))
    as (ev & Hev & Hd); [done|done| |].
  { simpl. rewrite hex_length. unfold derive_session_id. rewrite hkdf32_length. lia. }
  rewrite Hev. cbn [result_bind]. exists (set_state Confirming t), ev.
  split_and!; try done. split; try done. exists shared. by rewrite Hsas.
Qed.

Lemma handle_offer_ok `{!PairingLaws} env s tgt secret offer :
  live env s -> state s = Waiting -> role s = Source -> session_secret s = secret ->
  session_id s = derive_session_id secret -> event_key offer ∉ processed_ids s ->
  delivers tgt (keys s) (Offer (hex_encode (derive_session_id secret)) 1) offer ->
  exists s' shared, generate_shared_key (keys s) (public_key tgt) = Ok shared /\
    handle_offer env s offer = (s', Ok (format_sas (derive_sas shared secret).1)) /\
    agreed secret (keys s) tgt s' /\ state s' = Confirming /\ role s' = Source /\
    processed_ids s' = event_key offer :: processed_ids s /\
    session_created_at s' = session_created_at s /\ timeout s' = timeout s.
Proof.
  intros Hl Hst Hro Hsec Hsid Hfresh Hd. unfold handle_offer.
  rewrite guard_step_passes by done. cbn [result_bind].
  rewrite (delivers_basics _ _ _ _ Hd Hfresh). cbn [result_bind].
  rewrite (delivers_decrypt _ _ _ _ Hd). rewrite decide_False by (intros []; done).
  rewrite decode32_encode by apply hkdf32_length. unfold ct_eq.
  rewrite Hsid, bool_decide_eq_true_2 by done. rewrite (del_from _ _ _ _ Hd).
  destruct (ecdh_symmetric (keys s) tgt) as (shared & Hsh & _).
  replace (keys (set_peer _ s)) with (keys s) by by destruct s. rewrite Hsh.
  replace (session_secret (set_peer _ s)) with secret by by destruct s.
  destruct (derive_sas shared secret) as [code input] eqn:Hsas.
  exists (record_event offer (set_state Confirming
    (set_sas (Some code) (Some input) (set_peer (Some (public_key tgt)) s)))), shared.
  rewrite Hsas. destruct s. cbn in *. split_and!; try done.
  split; try done. exists shared. by rewrite Hsas.
Qed.

Lemma confirm_sas_ok `{!PairingLaws} env s src tgt secret :
  live env s -> state s = Confirming -> role s = Source -> agreed secret src tgt s ->
  exists ev shared, generate_shared_key src (public_key tgt) = Ok shared /\
    confirm_sas env s = (set_state Transferring s, Ok ev) /\
    delivers src tgt (SasConfirm (hex_encode (transcript secret src tgt shared))) ev.
Proof.
  intros Hl Hst Hro [Hk Hsec Hp Hsid (shared & Hsh & _ & Hi)]. unfold confirm_sas.
  rewrite guard_step_passes by done. cbn [result_bind]. rewrite Hi, Hp, Hk, Hsec, Hsid.
  cbn [ok_or result_bind]. fold (transcript secret src tgt shared).
  destruct (build_event_delivers env s tgt (SasConfirm (hex_encode (transcript secret src tgt shared))))
    as (ev & -> & Hd); [done|done| |].
  { simpl. rewrite hex_length. unfold transcript, derive_transcript_hash. rewrite hkdf32_length. lia. }
  rewrite Hk in Hd. by exists ev, shared.
Qed.

Lemma handle_sas_confirm_ok `{!PairingLaws} env t src tgt secret shared ev :
  live env t -> state t = Confirming -> role t = Target -> agreed secret tgt src t ->
  generate_shared_key src (public_key tgt) = Ok shared -> event_key ev ∉ processed_ids t ->
  delivers src tgt (SasConfirm (hex_encode (transcript secret src tgt shared))) ev ->
  handle_sas_confirm env t ev =
    (record_event ev (set_state AwaitingConfirmation t),
     Ok (format_sas (derive_sas shared secret).1)).
Proof.
  intros Hl Hst Hro [Hk Hsec Hp Hsid (shared' & Hsh' & Hc & Hi)] Hsh Hfresh Hd.
  assert (shared' = shared) as ->.
  { destruct (ecdh_symmetric src tgt) as (z & Hz1 & Hz2). congruence. }
  rewrite <-Hk in Hd. unfold handle_sas_confirm. rewrite guard_step_passes by done.
  cbn [result_bind]. rewrite (delivers_from_peer _ _ _ _ Hd Hfresh Hp). cbn [result_bind].
  rewrite (delivers_decrypt _ _ _ _ Hd), Hi, Hp. cbn [ok_or result_bind].
  unfold transcript. rewrite decode32_encode by apply hkdf32_length.
  rewrite Hsid, Hsec, Hk. unfold ct_eq. rewrite bool_decide_eq_true_2 by done.
  destruct t. cbn in *. by rewrite Hc.
Qed.

Lemma send_payload_ok `{!PairingLaws} env s src tgt secret typ payload :
  live env s -> state s = Transferring -> role s = Source -> agreed secret src tgt s ->
  (200 + 6 * Z.of_nat (String.length payload) <= 65535)%Z ->
  exists ev, send_payload env s typ payload = (set_state PayloadExchanged s, Ok ev) /\
    delivers src tgt (Payload typ payload) ev.
Proof.
  intros Hl Hst Hro [Hk _ Hp _ _] Hsize. unfold send_payload.
  rewrite guard_step_passes by done. cbn [result_bind].
  destruct (build_event_delivers env s tgt (Payload typ payload)) as (ev & -> & Hd); [done..|].
  rewrite Hk in Hd. by exists ev.
Qed.

Lemma handle_payload_ok env t src tgt secret typ payload ev :
  live env t -> state t = Transferring -> role t = Target -> agreed secret tgt src t ->
  event_key ev ∉ processed_ids t -> delivers src tgt (Payload typ payload) ev ->
  handle_payload env t ev =
    (record_event ev (set_state PayloadExchanged t), Ok (typ, payload)).
Proof.
  intros Hl Hst Hro [Hk _ Hp _ _] Hfresh Hd. rewrite <-Hk in Hd. unfold handle_payload.
  rewrite guard_step_passes by done. cbn [result_bind].
  rewrite (delivers_from_peer _ _ _ _ Hd Hfresh Hp). cbn [result_bind].
  by rewrite (delivers_decrypt _ _ _ _ Hd).
Qed.

Lemma send_complete_ok `{!PairingLaws} env t src tgt secret :
  live env t -> state t = PayloadExchanged -> role t = Target -> agreed secret tgt src t ->
  exists ev, send_complete env t = (set_state Completed t, Ok ev) /\ delivers tgt src (Complete true) ev.
Proof.
  intros Hl Hst Hro [Hk _ Hp _ _]. unfold send_complete.
  rewrite guard_step_passes by done. cbn [result_bind].
  destruct (build_event_delivers env t src (Complete true)) as (ev & -> & Hd); [done|done|simpl; lia|].
  rewrite Hk in Hd. by exists ev.
Qed.

Lemma handle_complete_ok env s src tgt secret ev :
  live env s -> state s = PayloadExchanged -> role s = Source -> agreed secret src tgt s ->
  event_key ev ∉ processed_ids s -> delivers tgt src (Complete true) ev ->
  handle_complete env s ev = (record_event ev (set_state Completed s), Ok tt).
Proof.
  intros Hl Hst Hro [Hk _ Hp _ _] Hfresh Hd. rewrite <-Hk in Hd. unfold handle_complete.
  rewrite guard_step_passes by done. cbn [result_bind].
  rewrite (delivers_from_peer _ _ _ _ Hd Hfresh Hp). cbn [result_bind].
  by rewrite (delivers_decrypt _ _ _ _ Hd).
Qed.
End flow.

(** ** The exchange *)

Section frames.
Context `{PairingApi}.
Implicit Types (s : PairingSession).

Lemma role_set_state st s : role (set_state st s) = role s.
Proof. by destruct s. Qed.
Lemma state_set_state st s : state (set_state st s) = st.
Proof. by destruct s. Qed.
Lemma processed_set_state st s : processed_ids (set_state st s) = processed_ids s.
Proof. by destruct s. Qed.
Lemma created_set_state st s : session_created_at (set_state st s) = session_created_at s.
Proof. by destruct s. Qed.
Lemma timeout_set_state st s : timeout (set_state st s) = timeout s.
Proof. by destruct s. Qed.
Lemma role_record ev s : role (record_event ev s) = role s.
Proof. by destruct s. Qed.
Lemma state_record ev s : state (record_event ev s) = state s.
Proof. by destruct s. Qed.
Lemma processed_record ev s : processed_ids (record_event ev s) = event_key ev :: processed_ids s.
Proof. by destruct s. Qed.
Lemma created_record ev s : session_created_at (record_event ev s) = session_created_at s.
Proof. by destruct s. Qed.
Lemma timeout_record ev s : timeout (record_event ev s) = timeout s.
Proof. by destruct s. Qed.

Lemma live_within env s : (env_now env <= session_created_at s + timeout s)%Z -> live env s.
Proof. intros Ht. unfold live, is_expired. apply bool_decide_eq_false_2. lia. Qed.
End frames.

Create HintDb pairing.
Create Rewrite HintDb pairing.
#[export] Hint Rewrite @role_set_state @state_set_state @processed_set_state @created_set_state
  @timeout_set_state @role_record @state_record @processed_record @created_record
  @timeout_record : pairing.
#[export] Hint Resolve agreed_set_state agreed_record live_within : pairing.

Section exchange.
Context `{PairingApi}.

(** C25: a pairing completes: under the laws of the cryptographic operations, with every
    step taken within two minutes of the start of its side and a payload of fewer than
    10,800 bytes, the source that displays its code and the target that scans it show
    the same SAS code, the target receives exactly the payload sent, and both end in
    [Completed] (the two events each side receives having distinct ids). *)
Theorem pairing_completes `{!PairingLaws} (e : nat -> Env) src tgt secret url typ payload :
  (forall i, (env_now (e i) <= env_now (e 0%nat) + DEFAULT_TIMEOUT)%Z /\
             (env_now (e i) <= env_now (e 1%nat) + DEFAULT_TIMEOUT)%Z) ->
  (Z.of_nat (String.length payload) < 10800)%Z ->
  let '(s0, qr) := new_source (e 0) src secret url in
  exists t0 offer s1 code confirm pay,
    new_target (e 1) tgt qr = Ok (t0, offer) /\
    handle_offer (e 2) s0 offer = (s1, Ok code) /\
    confirm_sas (e 3) s1 = (set_state Transferring s1, Ok confirm) /\
    handle_sas_confirm (e 4) t0 confirm =
      (record_event confirm (set_state AwaitingConfirmation t0), Ok code) /\
    exists s3 t2 t3 done_ s4,
      confirm_target_sas (e 5) (record_event confirm (set_state AwaitingConfirmation t0)) =
        (t2, Ok tt) /\
      send_payload (e 6) (set_state Transferring s1) typ payload = (s3, Ok pay) /\
      (event_key pay <> event_key confirm ->
         handle_payload (e 7) t2 pay = (t3, Ok (typ, payload)) /\
         send_complete (e 8) t3 = (set_state Completed t3, Ok done_) /\
         (event_key done_ <> event_key offer ->
            handle_complete (e 9) s3 done_ = (s4, Ok tt) /\ state s4 = Completed)).
Proof.
  intros Htime Hsize. cbn [new_source].
  destruct (new_target_ok (e 1) tgt src secret [url])
    as (t0 & offer & Ht0 & Hat & Hst & Hro & Hpr & Hcr & Hto & Hoffer).
  set (s0 := (new_source (e 0) src secret url).1).
  destruct (handle_offer_ok (e 2) s0 tgt secret offer)
    as (s1 & shared & Hsh & Hs1 & Has & Hst1 & Hro1 & Hpr1 & Hcr1 & Hto1); try done.
  { apply live_within. apply Htime. }
  { unfold s0. simpl. set_solver. }
  change (keys s0) with src in Hsh, Has.
  assert (Hlive_s : forall i st, live (e i) (set_state st s1)).
  { intros i st. apply live_within. autorewrite with pairing. rewrite Hcr1, Hto1. apply Htime. }
  assert (Hlive_t : forall i f, session_created_at f = env_now (e 1) -> timeout f = DEFAULT_TIMEOUT ->
    live (e i) f).
  { intros i f Hc Ht. apply live_within. rewrite Hc, Ht. apply Htime. }
  destruct (confirm_sas_ok (e 3) s1 src tgt secret) as (confirm & shared' & Hsh' & Hconf & Hdc); try done.
  { apply live_within. rewrite Hcr1, Hto1. apply Htime. }
  assert (shared' = shared) as -> by congruence.
  pose proof (handle_sas_confirm_ok (e 4) t0 src tgt secret shared confirm) as Htc.
  specialize (Htc ltac:(by apply Hlive_t) Hst Hro Hat Hsh ltac:(rewrite Hpr; set_solver) Hdc).
  destruct (send_payload_ok (e 6) (set_state Transferring s1) src tgt secret typ payload)
    as (pay & Hpay & Hdp); autorewrite with pairing; auto with pairing; [lia|].
  set (t1 := record_event confirm (set_state AwaitingConfirmation t0)) in *.
  set (t2 := set_state Transferring t1).
  set (t3 := record_event pay (set_state PayloadExchanged t2)).
  assert (Hrot : role t1 = Target /\ role t2 = Target /\ role t3 = Target).
  { unfold t3, t2, t1. by autorewrite with pairing. }
  assert (Hlt : forall i, live (e i) t1 /\ live (e i) t2 /\ live (e i) t3).
  { intros i. split_and!; apply Hlive_t; unfold t3, t2, t1; autorewrite with pairing; done. }
  assert (Hat2 : agreed secret tgt src t2) by (unfold t2, t1; auto with pairing).
  assert (Hat3 : agreed secret tgt src t3) by (unfold t3; auto with pairing).
  destruct (send_complete_ok (e 8) t3 src tgt secret) as (fin & Hfin & Hdf);
    [apply Hlt|unfold t3; by autorewrite with pairing|apply Hrot|done|].
  exists t0, offer, s1, (format_sas (derive_sas shared secret).1), confirm, pay.
  split_and!; try done.
  exists (set_state PayloadExchanged (set_state Transferring s1)), t2, t3, fin.
  exists (record_event fin (set_state Completed (set_state PayloadExchanged (set_state Transferring s1)))).
  split; [|split; [done|]].
  { unfold confirm_target_sas. rewrite guard_step_passes; [done|apply Hlt| |apply Hrot].
    unfold t1. by autorewrite with pairing. }
  intros Hne. split; [|split; [done|]].
  - apply (handle_payload_ok (e 7) t2 src tgt secret); [apply Hlt| |apply Hrot|done| |done];
      unfold t2, t1; autorewrite with pairing; [done|]. rewrite Hpr. set_solver.
  - intros Hne'. split; [|by autorewrite with pairing].
    apply (handle_complete_ok (e 9) _ src tgt secret); autorewrite with pairing; auto with pairing.
    + apply live_within. autorewrite with pairing. rewrite Hcr1, Hto1. apply Htime.
    + rewrite Hpr1. unfold s0. simpl. set_solver.
Qed.
End exchange.

(** ** The events of an exchange *)

Section events.
Context `{NostrApi} `{PairingApi}.
Context (e : nat -> Env) (src tgt : Keys) (secret url : string) (typ : PayloadType) (payload : string).

(** The source and the code it displays. *)
Definition displayed : PairingSession * QrPayload := new_source (e 0%nat) src secret url.

(** The four events, as the two sides make them. *)
Definition exchange_events : option (Event * Event * Event * Event) :=
  match new_target (e 1%nat) tgt displayed.2 with
  | Err _ => None
  | Ok (t0, offer) =>
      match confirm_sas (e 3%nat) (handle_offer (e 2%nat) displayed.1 offer).1 with
      | (_, Err _) => None
      | (s2, Ok confirm) =>
          match send_payload (e 6%nat) s2 typ payload with
          | (_, Err _) => None
          | (_, Ok pay) =>
              let t1 := (handle_sas_confirm (e 4%nat) t0 confirm).1 in
              let t2 := (confirm_target_sas (e 5%nat) t1).1 in
              match send_complete (e 8%nat) (handle_payload (e 7%nat) t2 pay).1 with
              | (_, Err _) => None
              | (_, Ok fin) => Some (offer, confirm, pay, fin)
              end
          end
      end
  end.

(** The two that a side receives differ in their ids. *)
Definition distinct_ids (x : option (Event * Event * Event * Event)) : bool :=
  match x with
  | Some (offer, confirm, pay, fin) =>
      bool_decide (event_key pay <> event_key confirm) && bool_decide (event_key fin <> event_key offer)
  | None => false
  end.

Lemma exchange_distinct t0 offer s1 code confirm pay s2 t1 s3 t2 u v :
  distinct_ids exchange_events = true ->
  new_target (e 1%nat) tgt displayed.2 = Ok (t0, offer) -> handle_offer (e 2%nat) displayed.1 offer = (s1, code) ->
  confirm_sas (e 3%nat) s1 = (s2, Ok confirm) -> handle_sas_confirm (e 4%nat) t0 confirm = (t1, u) ->
  confirm_target_sas (e 5%nat) t1 = (t2, v) -> send_payload (e 6%nat) s2 typ payload = (s3, Ok pay) ->
  event_key pay <> event_key confirm /\
  forall t3 w t4 fin, handle_payload (e 7%nat) t2 pay = (t3, w) -> send_complete (e 8%nat) t3 = (t4, Ok fin) ->
    event_key fin <> event_key offer.
Proof.
  unfold exchange_events. intros Hd Hn Ho Hc Hs Ht Hp. rewrite Hn, Ho in Hd. cbn [fst] in Hd.
  rewrite Hc, Hp, Hs in Hd. cbn [fst] in Hd. rewrite Ht in Hd. cbn [fst] in Hd. split.
  - destruct (send_complete _ _) as [? [?|?]] in Hd; [|done]. cbn [distinct_ids] in Hd.
    by apply andb_true_iff in Hd as [?%bool_decide_eq_true _].
  - intros t3 w t4 fin Hh Hf. rewrite Hh in Hd. cbn [fst] in Hd. rewrite Hf in Hd. cbn [distinct_ids] in Hd.
    by apply andb_true_iff in Hd as [_ ?%bool_decide_eq_true].
Qed.
End events.

(** ** A concrete implementation of the operations

    Not cryptography: functions that satisfy the laws, to run the exchange on. *)

Fixpoint checksum (s : string) : N :=
  match s with
  | EmptyString => 7
  | String a s => Ascii.N_of_ascii a + 31 * checksum s
  end.

Fixpoint drop_bytes (n : nat) (s : string) : string :=
  match n, s with
  | O, _ => s
  | S n, String _ s => drop_bytes n s
  | S _, EmptyString => EmptyString
  end.

(** A four-byte prefix. *)
Definition put_u32 (v : N) (s : string) : string :=
  String (Ascii.ascii_of_N (v / 16777216)) (String (Ascii.ascii_of_N (v / 65536 mod 256))
    (String (Ascii.ascii_of_N (v / 256 mod 256)) (String (Ascii.ascii_of_N (v mod 256)) s))).

Definition type_char (t : PayloadType) : Ascii.ascii :=
  match t with
  | Nsec => "n" | Bunker => "b" | Connect => "c" | Custom => "u"
  end%char.

Definition reason_char (r : AbortReason) : Ascii.ascii :=
  match r with
  | AbortSasMismatch => "s" | UserDenied => "d" | Timeout => "t" | ProtocolError => "p"
  | Unknown => "u"
  end%char.

Definition toy_to_json (m : PairingMessage) : string :=
  match m with
  | Offer sid v => String "o" (put_u32 v sid)
  | SasConfirm h => String "s" h
  | Payload t p => String "p" (String (type_char t) p)
  | Complete b => String "c" (if b then "1" else "0")%string
  | Abort r => String "a" (String (reason_char r) EmptyString)
  end.

Definition toy_from_json (s : string) : Result PairingMessage string :=
  match s with
  | String "o" rest => Ok (Offer (drop_bytes 4 rest) (be_u32 rest))
  | String "s" h => Ok (SasConfirm h)
  | String "p" (String c p) =>
      Ok (Payload (if decide (c = "n"%char) then Nsec else if decide (c = "b"%char) then Bunker
                   else if decide (c = "c"%char) then Connect else Custom) p)
  | String "c" b => Ok (Complete (bool_decide (b = "1")))
  | String "a" (String c _) =>
      Ok (Abort (if decide (c = "s"%char) then AbortSasMismatch
                 else if decide (c = "d"%char) then UserDenied
                 else if decide (c = "t"%char) then Timeout
                 else if decide (c = "p"%char) then ProtocolError else Unknown))
  | _ => Err "bad message"
  end.

Definition toy_id (n : N) : Id32 := id32 (n mod 2 ^ 256) (N.mod_lt n (2 ^ 256) ltac:(done)).

Definition toy_api : @PairingApi nostr_api :=
  {| Keys := N;
     public_key k := k;
     pk_to_bytes p := to_hex 32 p;
     pk_to_hex p := to_hex 64 p;
     event_id_to_bytes (i : @EventId nostr_api) := to_hex 64 (proj1_sig (i : Id32));
     generate_shared_key k p := Ok (to_hex 32 (k * p));
     hkdf_extract salt ikm := (salt ++ ikm)%string;
     hkdf_expand prk info _ := to_hex 32 (checksum prk + checksum info);
     hex_encode := bytes_to_hex;
     hex_decode := hex_to_bytes;
     nip44_encrypt _ _ _ p := Ok (zeros 132 ++ p)%string;
     nip44_decrypt _ _ c := Ok (drop_bytes 132 c);
     message_to_json m := Ok (toy_to_json m);
     message_from_json := toy_from_json;
     sign_event k knd c ts t :=
       Ok {| id := toy_id t : @EventId nostr_api; pubkey := k; created_at := t; kind := knd;
             tags := ts; content := c; sig := "" |};
     verify_event _ := Ok tt |}.

Lemma drop_zeros n p : drop_bytes n (zeros n ++ p) = p.
Proof. induction n; simpl; auto. Qed.

Lemma length_zeros n : String.length (zeros n) = n.
Proof. induction n; simpl; auto. Qed.

Lemma be_u32_put v s : (v < 4294967296)%N -> be_u32 (put_u32 v s) = v.
Proof.
  intros Hv. unfold be_u32, put_u32, byte_at. simpl String.get. cbv iota beta.
  replace (v / 65536)%N with (v / 256 / 256)%N by by rewrite N.Div0.div_div.
  replace (v / 16777216)%N with (v / 256 / 256 / 256)%N by by rewrite !N.Div0.div_div.
  assert (Hq : (v / 256 / 256 / 256 < 256)%N)
    by by rewrite !N.Div0.div_div; apply N.Div0.div_lt_upper_bound.
  rewrite !Ascii.N_ascii_embedding by first [done|by apply N.mod_lt].
  pose proof (N.div_mod v 256). pose proof (N.div_mod (v / 256) 256).
  pose proof (N.div_mod (v / 256 / 256) 256). lia.
Qed.

Lemma toy_json_round_trip m :
  match m with Offer _ v => (v < 4294967296)%N | _ => True end ->
  toy_from_json (toy_to_json m) = Ok m /\
  1 <= String.length (toy_to_json m) <= 200 + 6 * message_size m.
Proof.
  destruct m as [sid v|h|t p|b|r]; intros Hv.
  - split; [|cbn; lia]. cbn [toy_to_json toy_from_json].
    by rewrite be_u32_put.
  - split; [done|cbn; lia].
  - split; [by destruct t|cbn; lia].
  - split; [by destruct b|destruct b; cbn; lia].
  - split; [by destruct r|cbn; lia].
Qed.

Lemma toy_laws : @PairingLaws nostr_api toy_api.
Proof.
  split.
  - intros prk info. exact (to_hex_length 32 (checksum prk + checksum info)).
  - exact hex_bytes_round_trip.
  - exact length_bytes_to_hex.
  - intros m Hm. destruct (toy_json_round_trip m Hm). by exists (toy_to_json m).
  - intros n k1 k2 p H1 H2. exists (zeros 132 ++ p)%string. split; [done|]. split.
    + exact (f_equal Ok (drop_zeros 132 p)).
    + rewrite length_app_str, length_zeros. lia.
  - intros k1 k2. exists (to_hex 32 (k1 * k2)). split; [done|].
    exact (f_equal (fun x => Ok (to_hex 32 x)) (N.mul_comm k2 k1)).
  - intros k knd c ts t. eexists. split; [reflexivity|]. by repeat split.
Qed.

Definition example_env (i : nat) : Env :=
  {| env_now := Z.of_nat i; env_unix_secs := 1000 + N.of_nat i; env_random_u64 := 0; env_nonce := 0 |}.

#[local] Existing Instance nostr_api.
#[local] Existing Instance toy_api.

Definition source_keys : @Keys nostr_api toy_api := 3%N.
Definition target_keys : @Keys nostr_api toy_api := 5%N.

Definition example_time (i : nat) : Env := example_env (Nat.min i 9).

Definition example_displayed : PairingSession * QrPayload := displayed example_time source_keys "s" "wss://r".

Notation example_exchange := (exchange_events example_time source_keys target_keys "s" "wss://r" Nsec "nsec1").

Lemma example_exchange_distinct : distinct_ids example_exchange = true.
Proof. vm_compute. reflexivity. Qed.

(** The whole exchange: the target gets the payload and both sides complete. *)
Lemma pairing_completes_witness :
  exists t0 offer s1 code confirm pay s3 t2 t3 fin s4,
    new_target (example_time 1) target_keys example_displayed.2 = Ok (t0, offer) /\
    handle_offer (example_time 2) example_displayed.1 offer = (s1, Ok code) /\
    confirm_sas (example_time 3) s1 = (set_state Transferring s1, Ok confirm) /\
    send_payload (example_time 6) (set_state Transferring s1) Nsec "nsec1" = (s3, Ok pay) /\
    handle_payload (example_time 7) t2 pay = (t3, Ok (Nsec, "nsec1")) /\
    send_complete (example_time 8) t3 = (set_state Completed t3, Ok fin) /\
    handle_complete (example_time 9) s3 fin = (s4, Ok tt) /\ state s4 = Completed.
Proof.
  assert (Ht : forall i, (env_now (example_time i) <= env_now (example_env 0) + DEFAULT_TIMEOUT)%Z /\
    (env_now (example_time i) <= env_now (example_env 1) + DEFAULT_TIMEOUT)%Z).
  { intros i. unfold example_time, example_env, DEFAULT_TIMEOUT. cbn [env_now]. lia. }
  pose proof (@pairing_completes nostr_api toy_api toy_laws example_time source_keys target_keys "s" "wss://r"
    Nsec "nsec1" Ht ltac:(done)) as Hp.
  destruct Hp as (t0 & offer & s1 & code & confirm & pay & Hn & Ho & Hc & Hs & s3 & t2 & t3 & fin & s4 & Ht2 & Hpay & Hrest).
  destruct (exchange_distinct _ _ _ _ _ _ _ _ _ _ _ _ _ _ _ _ _ _ _ example_exchange_distinct Hn Ho Hc Hs Ht2 Hpay) as [Hne Hne'].
  destruct (Hrest Hne) as (Hh & Hf & Hlast). destruct (Hlast (Hne' _ _ _ _ Hh Hf)) as [Hfin Hst].
  exists t0, offer, s1, code, confirm, pay, s3, t2, t3, fin, s4.
  exact (conj Hn (conj Ho (conj Hc (conj Hpay (conj Hh (conj Hf (conj Hfin Hst))))))).
Defined.

(** A source that is asked to confirm before any offer, then aborted. *)
Definition example_source : PairingSession :=
  (new_source (example_env 0) source_keys "s" "wss://r").1.

Definition example_steps : list (Env * PairOp) :=
  [(example_env 1, ConfirmSas); (example_env 2, DoAbort UserDenied); (example_env 3, SendComplete)].

Lemma example_source_fresh : fresh_session example_source.
Proof. left. by exists (example_env 0), source_keys, "s", "wss://r". Qed.

Lemma session_follows_script_witness :
  (run_pairing example_source example_steps).2 = [DoAbort UserDenied] /\
  exists n, n <= 4 /\ omap step_of (run_pairing example_source example_steps).2 = take n (script Source).
Proof.
  split; [reflexivity|].
  destruct (session_follows_script example_source example_steps _ _ example_source_fresh
    (surjective_pairing _)) as (_ & n & Hn & Hacc & _). by exists n.
Defined.

(** The source of the exchange, to which the offer and the completion are each delivered
    twice. *)
Definition source_steps_of (offer fin : Event) : list (Env * PairOp) :=
  [(example_time 2, HandleOffer offer); (example_time 2, HandleOffer offer); (example_time 3, ConfirmSas);
   (example_time 6, SendPayload Nsec "nsec1"); (example_time 9, HandleComplete fin);
   (example_time 9, HandleComplete fin)].

Definition source_steps : list (Env * PairOp) :=
  default [] ((fun x => source_steps_of x.1.1.1 x.2) <$> example_exchange).

(** It accepts each of the two once, and both are authentic. *)
Lemma accepted_events_authentic_witness :
  let accepted := omap event_of (run_pairing example_displayed.1 source_steps).2 in
  length accepted = 2 /\ NoDup (event_key <$> accepted) /\
  Forall (fun ev => verify_event ev = Ok tt /\ kind ev = PAIRING_KIND /\
    has_p_tag ev (pk_to_hex (public_key (keys example_displayed.1))) = true /\
    peer_pubkey (run_pairing example_displayed.1 source_steps).1 = Some (pubkey ev)) accepted.
Proof.
  intros accepted. split; [vm_compute; reflexivity|].
  destruct (accepted_events_authentic example_displayed.1 source_steps _ _
    ltac:(left; by exists (example_time 0), source_keys, "s", "wss://r") (surjective_pairing _)) as [Hn Ha].
  split; [exact Hn|]. apply Forall_forall. exact Ha.
Defined.

Lemma failed_operation_effect_witness :
  failure_effect (run_pairing example_source []).1 ConfirmSas
    (UnexpectedMessage "state Confirming" "state Waiting")
    (run_pair_op (example_env 1) (run_pairing example_source []).1 ConfirmSas).1.
Proof. by apply (failed_operation_effect example_source [] (example_env 1) ConfirmSas _ example_source_fresh). Defined.

Lemma expired_session_rejects_witness :
  run_pair_op {| env_now := 999000000000; env_unix_secs := 0; env_random_u64 := 0; env_nonce := 0 |}
    example_source ConfirmSas = (example_source, Some SessionExpired).
Proof. by apply expired_session_rejects. Defined.
