(* ===== verification/AudioRoom.v ===== *)
(** * Audio rooms ([crates/buzz-relay/src/audio/room.rs])

    The peer registry of a huddle: the admission guard (index allocator, ended flag,
    version pin, roster revision), joining and leaving, the frame fan-out, and the
    registry of rooms.  The [mpsc] channels of a peer are the operations of [Mpsc];
    [roster_tx] is the list of the deltas published so far.  Every method that takes
    the guard's lock is one step, as are the iterations over the peers; the fresh peer
    id of [Uuid::new_v4] is an argument.  A panic while the lock is held is the flag
    [guard_poisoned]. *)

From S2P Require Import Prelude Nostr.

(** The sending half of a bounded [tokio::sync::mpsc] channel. *)
Class Mpsc (A : Type) := {
  Sender : Type;
  channel : nat -> Sender;
  try_send : Sender -> A -> Sender * bool;
}.
Arguments Sender A {_}.

Inductive PeerCtrl :=
| Json (s : string)
| Close.

Definition AUDIO_CHANNEL_CAPACITY : nat := 8.
Definition CTRL_CHANNEL_CAPACITY : nat := 32.
Definition MAX_PEERS_PER_ROOM : nat := 25.

(** Rust's [u8] and [u64] arithmetic on the values used here. *)
Definition u8_saturating_add (a b : N) : N := N.min 255 (a + b).
Definition u64_wrapping_add (a b : Z) : Z := (a + b) mod 2 ^ 64.

Record RosterPeer := {
  rp_pubkey : string;
  rp_peer_index : N;
}.

Record RosterSnapshot := {
  rs_revision : Z;
  rs_peers : list RosterPeer;
}.

Record RosterDelta := {
  rd_revision : Z;
  joined : option RosterPeer;
  left : option RosterPeer;
}.

Inductive AdmissionError :=
| Ended
| Full
| VersionMismatch (pinned requested : N).

#[export] Instance RosterPeer_eq_dec : EqDecision RosterPeer.
Proof. solve_decision. Defined.
#[export] Instance AdmissionError_eq_dec : EqDecision AdmissionError.
Proof. solve_decision. Defined.

Record AdmissionGuard := {
  next_fresh : N;
  free : list N;
  ended : bool;
  pinned_version : option N;
  roster_revision : Z;
}.

Definition AdmissionGuard_new : AdmissionGuard :=
  {| next_fresh := 0; free := []; ended := false; pinned_version := None;
     roster_revision := 0 |}.

Definition set_free (f : list N) (g : AdmissionGuard) : AdmissionGuard :=
  {| next_fresh := next_fresh g; free := f; ended := ended g;
     pinned_version := pinned_version g; roster_revision := roster_revision g |}.
Definition set_next_fresh (n : N) (g : AdmissionGuard) : AdmissionGuard :=
  {| next_fresh := n; free := free g; ended := ended g;
     pinned_version := pinned_version g; roster_revision := roster_revision g |}.
Definition set_ended (b : bool) (g : AdmissionGuard) : AdmissionGuard :=
  {| next_fresh := next_fresh g; free := free g; ended := b;
     pinned_version := pinned_version g; roster_revision := roster_revision g |}.
(** [pinned_version.get_or_insert(v)]. *)
Definition pin_version (v : N) (g : AdmissionGuard) : AdmissionGuard :=
  {| next_fresh := next_fresh g; free := free g; ended := ended g;
     pinned_version := Some (default v (pinned_version g));
     roster_revision := roster_revision g |}.
Definition bump_revision (g : AdmissionGuard) : AdmissionGuard :=
  {| next_fresh := next_fresh g; free := free g; ended := ended g;
     pinned_version := pinned_version g;
     roster_revision := u64_wrapping_add (roster_revision g) 1 |}.

(** [Vec::pop]: the last element. *)
Definition vec_pop {A} (l : list A) : option (A * list A) :=
  match last l with
  | Some x => Some (x, removelast l)
  | None => None
  end.

Definition alloc (g : AdmissionGuard) : option (N * AdmissionGuard) :=
  match vec_pop (free g) with
  | Some (idx, rest) => Some (idx, set_free rest g)
  | None =>
      if bool_decide (next_fresh g = 255%N) then None
      else Some (next_fresh g, set_next_fresh (next_fresh g + 1) g)
  end.

Definition release (idx : N) (g : AdmissionGuard) : AdmissionGuard :=
  set_free (free g ++ [idx]) g.

(** The version check of both admissions. *)
Definition check_version (g : AdmissionGuard) (requested : N) : Result unit AdmissionError :=
  match pinned_version g with
  | Some pinned =>
      if bool_decide (pinned <> requested) then Err (VersionMismatch pinned requested)
      else Ok tt
  | None => Ok tt
  end.

Section room.
Context `{Mpsc Bytes} `{Mpsc PeerCtrl}.

Record AudioPeer := {
  pubkey : string;
  audio_tx : Sender Bytes;
  ctrl_tx : Sender PeerCtrl;
  peer_index : N;
}.

Record Room := {
  community_id : CommunityId;
  channel_id : Uuid;
  peers : gmap Uuid AudioPeer;
  guard : AdmissionGuard;
  guard_poisoned : bool;
  roster_tx : list RosterDelta;
}.

Definition Room_new (c : CommunityId) (ch : Uuid) : Room :=
  {| community_id := c; channel_id := ch; peers := ∅; guard := AdmissionGuard_new;
     guard_poisoned := false; roster_tx := [] |}.

Definition set_guard (g : AdmissionGuard) (r : Room) : Room :=
  {| community_id := community_id r; channel_id := channel_id r; peers := peers r;
     guard := g; guard_poisoned := guard_poisoned r; roster_tx := roster_tx r |}.
Definition set_peers (ps : gmap Uuid AudioPeer) (r : Room) : Room :=
  {| community_id := community_id r; channel_id := channel_id r; peers := ps;
     guard := guard r; guard_poisoned := guard_poisoned r; roster_tx := roster_tx r |}.

(** [self.guard.lock()]; [None] when the mutex is poisoned. *)
Definition lock (r : Room) : option AdmissionGuard :=
  if guard_poisoned r then None else Some (guard r).

(** Bump the revision and send the delta, under the lock. *)
Definition publish (j l : option RosterPeer) (r : Room) : Room :=
  let g := bump_revision (guard r) in
  {| community_id := community_id r; channel_id := channel_id r; peers := peers r;
     guard := g; guard_poisoned := guard_poisoned r;
     roster_tx := roster_tx r ++
       [{| rd_revision := roster_revision g; joined := j; left := l |}] |}.

Definition is_empty (r : Room) : bool := bool_decide (peers r = ∅).

Definition mark_ended (r : Room) : Room * bool :=
  match lock r with
  | Some g => (set_guard (set_ended true g) r, is_empty r)
  | None => (r, false)
  end.

Definition clear_ended (r : Room) : Room :=
  match lock r with
  | Some g => set_guard (set_ended false g) r
  | None => r
  end.

(** The insertion and publication both admissions end with. *)
Definition insert_peer (peer_id : Uuid) (pk : string) (idx : N) (g : AdmissionGuard)
    (r : Room) : Room :=
  let peer := {| pubkey := pk; audio_tx := channel AUDIO_CHANNEL_CAPACITY;
                 ctrl_tx := channel CTRL_CHANNEL_CAPACITY; peer_index := idx |} in
  publish (Some {| rp_pubkey := pk; rp_peer_index := idx |}) None
    (set_peers (<[peer_id := peer]> (peers r)) (set_guard g r)).

Definition add_peer (peer_id : Uuid) (pk : string) (requested_version : N) (r : Room)
    : Room * Result (Uuid * N) AdmissionError :=
  match lock r with
  | None => (r, Err Ended)
  | Some g =>
      if ended g then (r, Err Ended)
      else if bool_decide (MAX_PEERS_PER_ROOM <= size (peers r)) then (r, Err Full)
      else match check_version g requested_version with
      | Err e => (r, Err e)
      | Ok _ =>
          match alloc g with
          | None => (r, Err Full)
          | Some (idx, g) =>
              (insert_peer peer_id pk idx (pin_version requested_version g) r,
               Ok (peer_id, idx))
          end
      end
  end.

Definition index_taken (idx : N) (r : Room) : bool :=
  existsb (fun p => bool_decide (peer_index p.2 = idx)) (map_to_list (peers r)).

(** Reserve an index assigned by the owner. *)
Definition reserve (idx : N) (g : AdmissionGuard) : AdmissionGuard :=
  let g := set_free (filter (.≠ idx) (free g)) g in
  if bool_decide (next_fresh g <= idx)%N
  then set_next_fresh (u8_saturating_add idx 1) g else g.

Definition add_peer_at_index (peer_id : Uuid) (pk : string) (requested_version idx : N)
    (r : Room) : Room * Result Uuid AdmissionError :=
  match lock r with
  | None => (r, Err Ended)
  | Some g =>
      if ended g then (r, Err Ended)
      else if bool_decide (MAX_PEERS_PER_ROOM <= size (peers r)) || index_taken idx r
      then (r, Err Full)
      else match check_version g requested_version with
      | Err e => (r, Err e)
      | Ok _ =>
          (insert_peer peer_id pk idx (reserve idx (pin_version requested_version g)) r,
           Ok peer_id)
      end
  end.

(** What both removals do to a present peer under the lock. *)
Definition take_peer (peer_id : Uuid) (peer : AudioPeer) (g : AdmissionGuard) (r : Room)
    : Room :=
  publish None (Some {| rp_pubkey := pubkey peer; rp_peer_index := peer_index peer |})
    (set_peers (delete peer_id (peers r)) (set_guard (release (peer_index peer) g) r)).

Definition remove_peer (peer_id : Uuid) (r : Room) : Room :=
  match lock r with
  | None => r
  | Some g =>
      match peers r !! peer_id with
      | Some peer => take_peer peer_id peer g r
      | None => r
      end
  end.

Definition remove_peer_and_check_ended (peer_id : Uuid) (r : Room)
    : Room * option (N * bool) :=
  match lock r with
  | None => (r, None)
  | Some g =>
      match peers r !! peer_id with
      | None => (r, None)
      | Some peer =>
          let r' := take_peer peer_id peer g r in
          if negb (ended g) && is_empty r'
          then (set_guard (set_ended true (guard r')) r', Some (peer_index peer, true))
          else (r', Some (peer_index peer, false))
      end
  end.

Definition send_audio (frame : Bytes) (p : AudioPeer) : AudioPeer :=
  {| pubkey := pubkey p; audio_tx := (try_send (audio_tx p) frame).1;
     ctrl_tx := ctrl_tx p; peer_index := peer_index p |}.
Definition send_ctrl (c : PeerCtrl) (p : AudioPeer) : AudioPeer :=
  {| pubkey := pubkey p; audio_tx := audio_tx p;
     ctrl_tx := (try_send (ctrl_tx p) c).1; peer_index := peer_index p |}.

Definition broadcast_frame (sender_id : Uuid) (frame : Bytes) (r : Room) : Room :=
  match peers r !! sender_id with
  | None => r
  | Some p =>
      let prefixed := peer_index p :: frame in
      set_peers (map_imap (fun id q =>
        Some (if bool_decide (id = sender_id) then q else send_audio prefixed q))
        (peers r)) r
  end.

Definition deliver_prefixed (author_index : N) (prefixed : Bytes) (r : Room) : Room :=
  set_peers ((fun q =>
    if bool_decide (peer_index q = author_index) then q else send_audio prefixed q)
    <$> peers r) r.

Definition broadcast_control (json : string) (r : Room) : Room :=
  set_peers (send_ctrl (Json json) <$> peers r) r.

(** The participants in the order of [self.peers.iter()]. *)
Definition peer_entries `{HashMapIter} (r : Room) : list RosterPeer :=
  (fun p => {| rp_pubkey := pubkey p.2; rp_peer_index := peer_index p.2 |})
    <$> iter_entries (peers r).

Definition roster_snapshot `{HashMapIter} (r : Room) : RosterSnapshot :=
  {| rs_revision := roster_revision (guard r);
     rs_peers := sort_by_key (fun p => Z.of_N (rp_peer_index p)) (peer_entries r) |}.

Definition peer_pubkeys `{HashMapIter} (r : Room) : list (string * N) :=
  (fun p => (pubkey p.2, peer_index p.2)) <$> iter_entries (peers r).

(** ** The registry of rooms ([AudioRoomManager]); the rooms behind the [Arc]s live in
    a store, a room being named by its address. *)
Record AudioRoomManager := {
  rooms : gmap (CommunityId * Uuid) positive;
  store : gmap positive Room;
}.

Definition AudioRoomManager_new : AudioRoomManager := {| rooms := ∅; store := ∅ |}.

Definition get_or_create (c : CommunityId) (ch : Uuid) (m : AudioRoomManager)
    : AudioRoomManager * positive :=
  match rooms m !! (c, ch) with
  | Some a => (m, a)
  | None =>
      let a := fresh (dom (store m)) in
      ({| rooms := <[(c, ch) := a]> (rooms m); store := <[a := Room_new c ch]> (store m) |}, a)
  end.

Definition get (c : CommunityId) (ch : Uuid) (m : AudioRoomManager) : option positive :=
  rooms m !! (c, ch).

Definition get_unambiguous_by_channel `{HashMapIter} (ch : Uuid) (m : AudioRoomManager)
    : option positive :=
  match filter (fun e => e.1.2 = ch) (iter_entries (rooms m)) with
  | [e] => Some e.2
  | _ => None
  end.

Definition cleanup_if_empty (c : CommunityId) (ch : Uuid) (m : AudioRoomManager)
    : AudioRoomManager * bool :=
  match rooms m !! (c, ch) with
  | Some a =>
      if from_option is_empty true (store m !! a)
      then ({| rooms := delete (c, ch) (rooms m); store := store m |}, true)
      else (m, false)
  | None => (m, false)
  end.

(** An operation on the room at an address. *)
Definition update_room (a : positive) (f : Room -> Room) (m : AudioRoomManager)
    : AudioRoomManager := {| rooms := rooms m; store := alter f a (store m) |}.
End room.
