(* ===== verification/AudioRoomProps.v ===== *)
(** * Properties of audio rooms ([AudioRoom])

    The steps of a room, its invariant (peer indices are unique and never handed out
    twice), the outcome of an admission, the automatic end, the fan-out, and the roster
    revisions published to subscribers. *)

From S2P Require Import Prelude Nostr AudioRoom.

(** What the roster shows of a peer. *)
Definition peer_view `{Mpsc Bytes} `{Mpsc PeerCtrl} (p : AudioPeer) : RosterPeer :=
  {| rp_pubkey := pubkey p; rp_peer_index := peer_index p |}.

Definition members `{Mpsc Bytes} `{Mpsc PeerCtrl} (r : Room) : gmap Uuid RosterPeer :=
  peer_view <$> peers r.

(** The steps of a room, whatever task makes them: the methods, and the receiving
    tasks draining a peer's channels ([step_poll]). *)
Inductive room_step `{Mpsc Bytes} `{Mpsc PeerCtrl} (owner : bool) : Room -> Room -> Prop :=
| step_add r id pk v : peers r !! id = None -> room_step owner r (add_peer id pk v r).1
| step_add_at r id pk v idx : owner = false -> peers r !! id = None -> (idx <= 255)%N ->
    room_step owner r (add_peer_at_index id pk v idx r).1
| step_remove r id : room_step owner r (remove_peer id r)
| step_remove_check r id : room_step owner r (remove_peer_and_check_ended id r).1
| step_mark_ended r : room_step owner r (mark_ended r).1
| step_clear_ended r : room_step owner r (clear_ended r)
| step_broadcast r id f : room_step owner r (broadcast_frame id f r)
| step_deliver r i f : room_step owner r (deliver_prefixed i f r)
| step_control r j : room_step owner r (broadcast_control j r)
| step_poll r id p p' : peers r !! id = Some p -> peer_view p' = peer_view p ->
    room_step owner r (set_peers (<[id := p']> (peers r)) r).

(** An index the allocator has already passed. *)
Definition passed (g : AdmissionGuard) (idx : N) : Prop :=
  (idx < next_fresh g)%N \/ (idx = 255%N /\ next_fresh g = 255%N).

Record guard_wf (ms : gmap Uuid RosterPeer) (g : AdmissionGuard) : Prop := {
  wf_unique : forall i j p q, ms !! i = Some p -> ms !! j = Some q ->
    rp_peer_index p = rp_peer_index q -> i = j;
  wf_not_free : forall i p, ms !! i = Some p -> rp_peer_index p ∉ free g;
  wf_free : NoDup (free g);
  wf_passed : forall i p, ms !! i = Some p -> passed g (rp_peer_index p);
  wf_free_passed : forall idx, idx ∈ free g -> passed g idx;
  wf_next : (next_fresh g <= 255)%N;
  wf_size : size ms <= MAX_PEERS_PER_ROOM;
  wf_pin : ms <> ∅ -> is_Some (pinned_version g);
}.

Lemma vec_pop_Some {A} (l : list A) x rest : vec_pop l = Some (x, rest) -> l = rest ++ [x].
Proof.
  unfold vec_pop. destruct (last l) eqn:E; [|done]. intros [= <- <-].
  apply last_Some in E as [l' ->]. by rewrite removelast_last.
Qed.

Lemma vec_pop_None {A} (l : list A) : vec_pop l = None -> l = [].
Proof. unfold vec_pop. destruct (last l) eqn:E; [done|]. by apply last_None in E. Qed.

(** What [alloc] hands out. *)
Lemma alloc_Some g idx g' :
  alloc g = Some (idx, g') ->
  (exists rest, free g = rest ++ [idx] /\ g' = set_free rest g) \/
  (free g = [] /\ idx = next_fresh g /\ next_fresh g <> 255%N /\
   g' = set_next_fresh (next_fresh g + 1) g).
Proof.
  unfold alloc. destruct (vec_pop (free g)) as [[i rest]|] eqn:E.
  - apply vec_pop_Some in E. intros [= <- <-]. eauto.
  - apply vec_pop_None in E. case_bool_decide; [done|]. intros [= <- <-]. auto.
Qed.

Lemma alloc_None g : alloc g = None <-> free g = [] /\ next_fresh g = 255%N.
Proof.
  unfold alloc. destruct (vec_pop (free g)) as [[i rest]|] eqn:E.
  - apply vec_pop_Some in E. split; [done|]. intros [Hf _]. rewrite Hf in E.
    by destruct rest.
  - apply vec_pop_None in E. case_bool_decide; naive_solver.
Qed.

Section wf.
Context `{Mpsc Bytes} `{Mpsc PeerCtrl}.
Implicit Types r : Room.

Lemma members_lookup r id : members r !! id = peer_view <$> peers r !! id.
Proof. apply lookup_fmap. Qed.

Lemma size_members r : size (members r) = size (peers r).
Proof. apply map_size_fmap. Qed.

Lemma members_empty r : members r = ∅ <-> peers r = ∅.
Proof. apply fmap_empty_iff. Qed.

Lemma members_send r f (Hf : forall id p, peer_view (f id p) = peer_view p) :
  peer_view <$> map_imap (fun id p => Some (f id p)) (peers r) = members r.
Proof.
  apply map_eq; intros id. rewrite lookup_fmap, map_lookup_imap, members_lookup.
  destruct (peers r !! id); simpl; by rewrite ?Hf.
Qed.

(** The steps that do not touch the roster. *)
Lemma broadcast_frame_members r id f :
  members (broadcast_frame id f r) = members r /\ guard (broadcast_frame id f r) = guard r /\
  roster_tx (broadcast_frame id f r) = roster_tx r.
Proof.
  unfold broadcast_frame. destruct (peers r !! id) as [p|]; [|done]. split_and!; [|done..].
  apply members_send. intros. by case_bool_decide.
Qed.

Lemma deliver_prefixed_members r i f :
  members (deliver_prefixed i f r) = members r.
Proof.
  unfold members; simpl. rewrite <-map_fmap_compose. apply map_fmap_ext; intros; simpl.
  by case_bool_decide.
Qed.

Lemma broadcast_control_members r j : members (broadcast_control j r) = members r.
Proof. unfold members; simpl. rewrite <-map_fmap_compose. by apply map_fmap_ext. Qed.

Lemma poll_members r id p p' :
  peers r !! id = Some p -> peer_view p' = peer_view p ->
  members (set_peers (<[id := p']> (peers r)) r) = members r.
Proof.
  intros Hp Hv. unfold members; simpl. rewrite fmap_insert, Hv. apply insert_id.
  by rewrite lookup_fmap, Hp.
Qed.

Lemma insert_peer_members r id pk idx g :
  members (insert_peer id pk idx g r) =
  <[id := {| rp_pubkey := pk; rp_peer_index := idx |}]> (members r).
Proof. unfold members, insert_peer; simpl. by rewrite fmap_insert. Qed.

Lemma take_peer_members r id p g : members (take_peer id p g r) = delete id (members r).
Proof. unfold members, take_peer; simpl. by rewrite fmap_delete. Qed.

(** A case analysis of each operation, used by every theorem below. *)
Lemma add_peer_cases r id pk v :
  (exists e, add_peer id pk v r = (r, Err e)) \/
  exists idx g, guard_poisoned r = false /\ ended (guard r) = false /\
    size (peers r) < MAX_PEERS_PER_ROOM /\ check_version (guard r) v = Ok tt /\
    alloc (guard r) = Some (idx, g) /\
    add_peer id pk v r = (insert_peer id pk idx (pin_version v g) r, Ok (id, idx)).
Proof.
  unfold add_peer, lock. destruct (guard_poisoned r); [eauto|].
  destruct (ended (guard r)) eqn:?; [eauto|]. case_bool_decide; [eauto|].
  destruct (check_version (guard r) v) as [[]|] eqn:?; [|eauto].
  destruct (alloc (guard r)) as [[idx g]|] eqn:?; [|eauto].
  right. exists idx, g. split_and!; auto; lia.
Qed.

Lemma index_taken_true r idx :
  index_taken idx r = true <-> exists id p, members r !! id = Some p /\ rp_peer_index p = idx.
Proof.
  unfold index_taken. rewrite existsb_exists. split.
  - intros [[id p] [Hin Hb]]. apply list_elem_of_In, elem_of_map_to_list in Hin.
    apply bool_decide_eq_true in Hb. exists id, (peer_view p).
    by rewrite members_lookup, Hin.
  - intros (id & p & Hp & <-). rewrite members_lookup in Hp.
    destruct (peers r !! id) as [q|] eqn:Hq; simplify_eq/=. exists (id, q).
    split; [by apply list_elem_of_In, elem_of_map_to_list | by apply bool_decide_eq_true].
Qed.

Lemma add_peer_at_index_cases r id pk v idx :
  (exists e, add_peer_at_index id pk v idx r = (r, Err e)) \/
  guard_poisoned r = false /\ ended (guard r) = false /\
    size (peers r) < MAX_PEERS_PER_ROOM /\ index_taken idx r = false /\
    check_version (guard r) v = Ok tt /\
    add_peer_at_index id pk v idx r =
      (insert_peer id pk idx (reserve idx (pin_version v (guard r))) r, Ok id).
Proof.
  unfold add_peer_at_index, lock. destruct (guard_poisoned r); [eauto|].
  destruct (ended (guard r)) eqn:?; [eauto|]. case_bool_decide; simpl; [eauto|].
  destruct (index_taken idx r) eqn:?; [eauto|].
  destruct (check_version (guard r) v) as [[]|] eqn:?; [|eauto].
  right. split_and!; auto; lia.
Qed.

Lemma remove_peer_cases r id :
  remove_peer id r = r \/
  exists p, guard_poisoned r = false /\ peers r !! id = Some p /\
    remove_peer id r = take_peer id p (guard r) r.
Proof.
  unfold remove_peer, lock. destruct (guard_poisoned r); [auto|].
  destruct (peers r !! id) eqn:?; eauto 6.
Qed.

(** The checked removal is a removal, possibly followed by setting the flag. *)
Lemma remove_check_cases r id :
  remove_peer_and_check_ended id r = (r, None) \/
  exists p, guard_poisoned r = false /\ peers r !! id = Some p /\
    let r' := take_peer id p (guard r) r in
    (ended (guard r) = false /\ peers r' = ∅ /\ remove_peer_and_check_ended id r =
       (set_guard (set_ended true (guard r')) r', Some (peer_index p, true))) \/
    ((ended (guard r) = true \/ peers r' <> ∅) /\ remove_peer_and_check_ended id r =
       (r', Some (peer_index p, false))).
Proof.
  unfold remove_peer_and_check_ended, lock. destruct (guard_poisoned r); [auto|].
  destruct (peers r !! id) as [p|] eqn:?; [|auto]. right. exists p. split_and!; [done..|].
  unfold is_empty. case_bool_decide; destruct (ended (guard r)); simpl; auto.
Qed.
End wf.

(** ** The invariant is kept *)

Lemma guard_wf_ext ms g g' :
  guard_wf ms g -> next_fresh g' = next_fresh g -> free g' = free g ->
  pinned_version g' = pinned_version g -> guard_wf ms g'.
Proof.
  intros [] En Ef Ep. split; unfold passed in *; rewrite ?En, ?Ef, ?Ep; auto.
Qed.

Lemma guard_wf_insert ms g g' id p :
  guard_wf ms g -> ms !! id = None -> size ms < MAX_PEERS_PER_ROOM ->
  (forall i q, ms !! i = Some q -> rp_peer_index q <> rp_peer_index p) ->
  free g' ⊆ free g -> NoDup (free g') -> rp_peer_index p ∉ free g' ->
  (forall idx, passed g idx -> passed g' idx) -> passed g' (rp_peer_index p) ->
  (next_fresh g' <= 255)%N -> is_Some (pinned_version g') ->
  guard_wf (<[id := p]> ms) g'.
Proof.
  intros [] Hid Hsz Hnew Hsub Hnd Hnf Hpass Hp Hn Hpin. split; try done.
  - intros i j q q' Hi Hj E. map_cases; eauto; exfalso; eapply Hnew; eauto.
  - intros i q Hi. map_cases; [done|]. intros Hin. by eapply wf_not_free0, Hsub.
  - intros i q Hi. map_cases; eauto.
  - eauto.
  - rewrite map_size_insert_None by done. lia.
Qed.

Lemma passed_next_fresh g : ~ passed g (next_fresh g) \/ next_fresh g = 255%N.
Proof. unfold passed. destruct (decide (next_fresh g = 255%N)); [auto|left; lia]. Qed.

(** The index [alloc] gives is in no peer's hands. *)
Lemma alloc_unused ms g idx g' :
  guard_wf ms g -> alloc g = Some (idx, g') ->
  forall i q, ms !! i = Some q -> rp_peer_index q <> idx.
Proof.
  intros [] [(rest & Hf & ->)|(Hf & -> & Hn & ->)]%alloc_Some i q Hi Heq.
  - apply (wf_not_free0 i q Hi). rewrite Hf, Heq. set_solver.
  - specialize (wf_passed0 i q Hi). rewrite Heq in wf_passed0.
    by destruct (passed_next_fresh g).
Qed.

Lemma guard_wf_alloc ms g idx g' id pk v :
  guard_wf ms g -> ms !! id = None -> size ms < MAX_PEERS_PER_ROOM ->
  alloc g = Some (idx, g') ->
  guard_wf (<[id := {| rp_pubkey := pk; rp_peer_index := idx |}]> ms)
    (bump_revision (pin_version v g')).
Proof.
  intros Hwf Hid Hsz Ha. pose proof (alloc_unused _ _ _ _ Hwf Ha) as Hun.
  apply alloc_Some in Ha as [(rest & Hf & ->)|(Hf & -> & Hn & ->)].
  - pose proof (wf_free _ _ Hwf) as Hnd. rewrite Hf in Hnd. apply NoDup_app in Hnd.
    destruct Hnd as (Hnd & Hd & _).
    apply guard_wf_insert with g; simpl; try done.
    + rewrite Hf. set_solver.
    + intros Hin. apply (Hd _ Hin). set_solver.
    + apply (wf_free_passed _ _ Hwf). rewrite Hf. set_solver.
    + by apply (wf_next _ _ Hwf).
  - pose proof (wf_next _ _ Hwf). apply guard_wf_insert with g; simpl; try done.
    + apply (wf_free _ _ Hwf).
    + rewrite Hf. set_solver.
    + unfold passed; simpl. intros. lia.
    + left; simpl. lia.
    + lia.
Qed.

Lemma guard_wf_reserve ms g idx id pk v :
  guard_wf ms g -> ms !! id = None -> size ms < MAX_PEERS_PER_ROOM ->
  (idx <= 255)%N -> (forall i q, ms !! i = Some q -> rp_peer_index q <> idx) ->
  guard_wf (<[id := {| rp_pubkey := pk; rp_peer_index := idx |}]> ms)
    (bump_revision (reserve idx (pin_version v g))).
Proof.
  intros Hwf Hid Hsz Hidx Hun. pose proof (wf_next _ _ Hwf).
  unfold reserve, u8_saturating_add, passed.
  case_bool_decide; apply guard_wf_insert with g; try done; unfold passed; simpl in *;
    try (by apply NoDup_filter, (wf_free _ _ Hwf)); try by eexists.
  all: try (intros i; rewrite list_elem_of_filter; tauto).
  all: try (rewrite list_elem_of_filter; tauto).
  all: intros; lia.
Qed.

Lemma guard_wf_release ms g id p :
  guard_wf ms g -> ms !! id = Some p ->
  guard_wf (delete id ms) (bump_revision (release (rp_peer_index p) g)).
Proof.
  intros [] Hid. split; unfold passed in *; simpl.
  - intros i j q q' Hi Hj E. map_cases. eauto.
  - intros i q Hi. map_cases. rewrite elem_of_app, list_elem_of_singleton.
    intros [Hin|E]; [by eapply wf_not_free0|]. by eapply H, wf_unique0.
  - apply NoDup_app. split_and!; [done| |apply NoDup_singleton].
    intros x Hx ->%list_elem_of_singleton. by eapply wf_not_free0.
  - intros i q Hi. map_cases. eauto.
  - intros idx. rewrite elem_of_app, list_elem_of_singleton. intros [?| ->]; eauto.
  - done.
  - rewrite map_size_delete, Hid. unfold MAX_PEERS_PER_ROOM in *. lia.
  - intros Hne. apply wf_pin0. intros ->. by rewrite lookup_empty in Hid.
Qed.

Section invariant.
Context `{Mpsc Bytes} `{Mpsc PeerCtrl}.
Implicit Types r : Room.

Definition room_wf r : Prop := guard_wf (members r) (guard r).

Lemma room_wf_new c ch : room_wf (Room_new c ch).
Proof.
  unfold room_wf. replace (members (Room_new c ch)) with (∅ : gmap Uuid RosterPeer)
    by (symmetry; apply members_empty; reflexivity).
  split; simpl; try (intros *; rewrite lookup_empty; done); try done.
  - constructor.
  - intros idx []%not_elem_of_nil.
  - rewrite map_size_empty. unfold MAX_PEERS_PER_ROOM. lia.
Qed.

Lemma room_wf_step owner r r' : room_step owner r r' -> room_wf r -> room_wf r'.
Proof.
  unfold room_wf. intros Hs Hwf. pose proof (wf_size _ _ Hwf) as Hsz.
  destruct Hs as [r id pk v Hid|r id pk v idx _ Hid Hidx|r id|r id|r|r|r id f|r i f|r j|r id p p' Hp Hv].
  - destruct (add_peer_cases r id pk v) as [[e ->]|(idx & g & _ & _ & Hlt & _ & Ha & ->)]; [done|].
    simpl fst. rewrite insert_peer_members. apply guard_wf_alloc with (guard r); try done.
    + by rewrite members_lookup, Hid.
    + by rewrite size_members.
  - destruct (add_peer_at_index_cases r id pk v idx) as [[e ->]|(_ & _ & Hlt & Ht & _ & ->)]; [done|].
    simpl fst. rewrite insert_peer_members. apply guard_wf_reserve; try done.
    + by rewrite members_lookup, Hid.
    + by rewrite size_members.
    + intros i q Hi E. assert (index_taken idx r = true) by (apply index_taken_true; eauto).
      congruence.
  - destruct (remove_peer_cases r id) as [->|(p & _ & Hp & ->)]; [done|].
    rewrite take_peer_members. apply (guard_wf_release _ _ _ (peer_view p)); [done|].
    by rewrite members_lookup, Hp.
  - destruct (remove_check_cases r id) as [->|(p & _ & Hp & Hc)]; [done|].
    assert (guard_wf (delete id (members r)) (bump_revision (release (peer_index p) (guard r)))).
    { apply (guard_wf_release _ _ _ (peer_view p)); [done|]. by rewrite members_lookup, Hp. }
    destruct Hc as [(_ & _ & ->)|[_ ->]]; simpl fst.
    + change (members (set_guard _ ?r')) with (members r'). rewrite take_peer_members.
      by eapply guard_wf_ext.
    + by rewrite take_peer_members.
  - unfold mark_ended. destruct (lock r) eqn:E; [|done].
    unfold lock in E. destruct (guard_poisoned r); simplify_eq. by eapply guard_wf_ext.
  - unfold clear_ended. destruct (lock r) eqn:E; [|done].
    unfold lock in E. destruct (guard_poisoned r); simplify_eq. by eapply guard_wf_ext.
  - destruct (broadcast_frame_members r id f) as (-> & -> & _). done.
  - by rewrite deliver_prefixed_members.
  - by rewrite broadcast_control_members.
  - by rewrite (poll_members r id p p').
Qed.

Lemma room_wf_reachable owner c ch r :
  rtc (room_step owner) (Room_new c ch) r -> room_wf r.
Proof.
  intros Hr. remember (Room_new c ch) as r0 eqn:E.
  assert (room_wf r0) as Hw by (subst; apply room_wf_new). clear E.
  induction Hr; eauto using room_wf_step.
Qed.
End invariant.

(** ** Indices *)

(** In a room whose owner admits every peer, all the indices passed are in use or free. *)
Definition compact (ms : gmap Uuid RosterPeer) (g : AdmissionGuard) : Prop :=
  next_fresh g = N.of_nat (size ms + length (free g)) /\
  (next_fresh g <= N.of_nat MAX_PEERS_PER_ROOM)%N.

Section indices.
Context `{Mpsc Bytes} `{Mpsc PeerCtrl}.
Implicit Types r : Room.

Lemma compact_ext ms g g' :
  compact ms g -> next_fresh g' = next_fresh g -> free g' = free g -> compact ms g'.
Proof. unfold compact. by intros ? -> ->. Qed.

Lemma compact_alloc ms g idx g' id p v :
  compact ms g -> ms !! id = None -> size ms < MAX_PEERS_PER_ROOM ->
  alloc g = Some (idx, g') -> compact (<[id := p]> ms) (bump_revision (pin_version v g')).
Proof.
  unfold compact. intros [Hn Hle] Hid Hsz Ha. rewrite map_size_insert_None by done.
  apply alloc_Some in Ha as [(rest & Hf & ->)|(Hf & -> & _ & ->)]; simpl;
    rewrite Hf, ?length_app in *; simpl in *; lia.
Qed.

Lemma compact_release ms g id p :
  compact ms g -> ms !! id = Some p ->
  compact (delete id ms) (bump_revision (release (rp_peer_index p) g)).
Proof.
  unfold compact. intros [Hn Hle] Hid. simpl. rewrite length_app, map_size_delete, Hid.
  assert (size ms <> 0) by (apply map_size_ne_0_lookup; eauto). simpl. lia.
Qed.

Lemma compact_step r r' :
  room_step true r r' -> compact (members r) (guard r) -> compact (members r') (guard r').
Proof.
  intros Hs Hc.
  destruct Hs as [r id pk v Hid|????? [=]|r id|r id|r|r|r id f|r i f|r j|r id p p' Hp Hv].
  - destruct (add_peer_cases r id pk v) as [[e ->]|(idx & g & _ & _ & Hlt & _ & Ha & ->)]; [done|].
    simpl fst. rewrite insert_peer_members. apply compact_alloc with (guard r) idx; try done.
    + by rewrite members_lookup, Hid.
    + by rewrite size_members.
  - destruct (remove_peer_cases r id) as [->|(p & _ & Hp & ->)]; [done|].
    rewrite take_peer_members. apply (compact_release _ _ _ (peer_view p)); [done|].
    by rewrite members_lookup, Hp.
  - destruct (remove_check_cases r id) as [->|(p & _ & Hp & Hr)]; [done|].
    assert (compact (delete id (members r)) (bump_revision (release (peer_index p) (guard r)))).
    { apply (compact_release _ _ _ (peer_view p)); [done|]. by rewrite members_lookup, Hp. }
    destruct Hr as [(_ & _ & ->)|[_ ->]]; simpl fst.
    + change (members (set_guard _ ?r')) with (members r'). by rewrite take_peer_members.
    + by rewrite take_peer_members.
  - unfold mark_ended, lock. by destruct (guard_poisoned r).
  - unfold clear_ended, lock. by destruct (guard_poisoned r).
  - by destruct (broadcast_frame_members r id f) as (-> & -> & _).
  - by rewrite deliver_prefixed_members.
  - by rewrite broadcast_control_members.
  - by rewrite (poll_members r id p p').
Qed.

Lemma compact_reachable c ch r :
  rtc (room_step true) (Room_new c ch) r -> compact (members r) (guard r).
Proof.
  intros Hr. remember (Room_new c ch) as r0 eqn:E.
  assert (compact (members r0) (guard r0)) as Hw by (subst; split; reflexivity || done).
  clear E. induction Hr; eauto using compact_step.
Qed.

(** C20: in every state a room can reach, two peers never share an index, the next index
    the allocator gives out is nobody's, and the room holds at most 25 peers; in a room
    whose peers were all admitted by the room itself (the owner's room), every index is
    below 25 and the allocator is never exhausted while a seat is free. *)
Theorem peer_indices_unique owner c ch r :
  rtc (room_step owner) (Room_new c ch) r ->
  (forall i j p q, peers r !! i = Some p -> peers r !! j = Some q ->
     peer_index p = peer_index q -> i = j) /\
  (forall idx g, alloc (guard r) = Some (idx, g) ->
     (idx <= 255)%N /\ forall i p, peers r !! i = Some p -> peer_index p <> idx) /\
  size (peers r) <= MAX_PEERS_PER_ROOM /\
  (owner = true ->
     (forall i p, peers r !! i = Some p -> (peer_index p < 25)%N) /\
     (size (peers r) < MAX_PEERS_PER_ROOM -> is_Some (alloc (guard r)))).
Proof.
  intros Hr. pose proof (room_wf_reachable _ _ _ _ Hr) as Hwf.
  assert (forall i p, peers r !! i = Some p -> members r !! i = Some (peer_view p)) as Hm
    by (intros i p Hp; by rewrite members_lookup, Hp).
  split_and!.
  - intros i j p q Hp Hq E. by apply (wf_unique _ _ Hwf i j (peer_view p) (peer_view q)); auto.
  - intros idx g Ha. split.
    + pose proof (wf_next _ _ Hwf). apply alloc_Some in Ha as [(rest & Hf & _)|(_ & -> & _)]; [|done].
      destruct (wf_free_passed _ _ Hwf idx) as [?|[-> _]]; [rewrite Hf; set_solver|lia|lia].
    + intros i p Hp. apply (alloc_unused _ _ _ _ Hwf Ha i (peer_view p)); auto.
  - rewrite <-size_members. apply (wf_size _ _ Hwf).
  - intros ->. destruct (compact_reachable _ _ _ Hr) as [Hc Hle].
    unfold MAX_PEERS_PER_ROOM in *. split.
    + intros i p Hp. destruct (wf_passed _ _ Hwf i (peer_view p)) as [?|[_ ?]]; [auto|simpl in *; lia..].
    + intros Hsz. destruct (alloc (guard r)) eqn:Ha; [by eexists|].
      apply alloc_None in Ha as [Hf Hn]. rewrite size_members, Hf, Hn in Hc. simpl in Hc. lia.
Qed.
End indices.

(** ** Admission *)

(** The requested version agrees with the pin, if any. *)
Definition version_ok (g : AdmissionGuard) (v : N) : Prop :=
  pinned_version g = None \/ pinned_version g = Some v.

Lemma check_version_Ok g v : check_version g v = Ok tt <-> version_ok g v.
Proof.
  unfold check_version, version_ok. destruct (pinned_version g); [case_bool_decide|];
    naive_solver.
Qed.

Lemma check_version_Err g v e :
  check_version g v = Err e <->
  exists p, e = VersionMismatch p v /\ pinned_version g = Some p /\ p <> v.
Proof.
  unfold check_version. destruct (pinned_version g); [case_bool_decide|]; naive_solver.
Qed.

Lemma pin_version_ok g v : version_ok g v -> pinned_version (pin_version v g) = Some v.
Proof. by intros [E|E]; simpl; rewrite E. Qed.

Lemma alloc_pinned g idx g' :
  alloc g = Some (idx, g') -> pinned_version g' = pinned_version g /\ ended g' = ended g.
Proof. by intros [(? & _ & ->)|(_ & _ & _ & ->)]%alloc_Some. Qed.

Section admission.
Context `{Mpsc Bytes} `{Mpsc PeerCtrl}.
Implicit Types r : Room.

Definition closed_room r : Prop := guard_poisoned r = true \/ ended (guard r) = true.

Lemma open_room r : ~ closed_room r <-> guard_poisoned r = false /\ ended (guard r) = false.
Proof. unfold closed_room. destruct (guard_poisoned r), (ended (guard r)); naive_solver. Qed.

Lemma pin_stable owner r r' w :
  room_step owner r r' -> pinned_version (guard r) = Some w -> pinned_version (guard r') = Some w.
Proof.
  intros Hs Hp.
  destruct Hs as [r id pk v _|r id pk v idx _ _ _|r id|r id|r|r|r id f| | |]; try done.
  - destruct (add_peer_cases r id pk v) as [[e ->]|(idx & g & _ & _ & _ & _ & Ha & ->)]; [done|].
    simpl. apply alloc_pinned in Ha as [-> _]. by rewrite Hp.
  - destruct (add_peer_at_index_cases r id pk v idx) as [[e ->]|(_ & _ & _ & _ & _ & ->)]; [done|].
    simpl. unfold reserve. case_bool_decide; simpl; by rewrite Hp.
  - by destruct (remove_peer_cases r id) as [->|(p & _ & _ & ->)].
  - destruct (remove_check_cases r id) as [->|(p & _ & _ & [(_ & _ & ->)|[_ ->]])]; done.
  - unfold mark_ended, lock. by destruct (guard_poisoned r).
  - unfold clear_ended, lock. by destruct (guard_poisoned r).
  - by destruct (broadcast_frame_members r id f) as (_ & -> & _).
Qed.

Lemma pin_reachable r r' w :
  rtc (room_step false) r r' -> pinned_version (guard r) = Some w -> pinned_version (guard r') = Some w.
Proof. induction 1; eauto using pin_stable. Qed.

(** The error a client that cannot join is told, in the documented order of precedence. *)
Definition refusal r v : option AdmissionError :=
  if decide (guard_poisoned r = true \/ ended (guard r) = true) then Some Ended
  else if decide (MAX_PEERS_PER_ROOM <= size (peers r)) then Some Full
  else match pinned_version (guard r) with
       | Some w => if decide (w = v) then None else Some (VersionMismatch w v)
       | None => None
       end.

(** A room that assigned all its indices itself still has an unused one, below 25, for every
    free seat. *)
Lemma owner_alloc c ch r :
  rtc (room_step true) (Room_new c ch) r -> size (peers r) < MAX_PEERS_PER_ROOM ->
  exists idx g, alloc (guard r) = Some (idx, g) /\ (idx < 25)%N /\
    forall i p, peers r !! i = Some p -> peer_index p <> idx.
Proof.
  intros Hr Hsz. pose proof (room_wf_reachable _ _ _ _ Hr) as Hwf.
  destruct (compact_reachable _ _ _ Hr) as [Hc Hle]. rewrite size_members in Hc.
  unfold MAX_PEERS_PER_ROOM in *. destruct (alloc (guard r)) as [[idx g]|] eqn:Ha.
  - exists idx, g. split; [done|]. split.
    + apply alloc_Some in Ha as [(rest & Hf & _)|(Hf & -> & _)]; [|rewrite Hf in Hc; simpl in Hc; lia].
      destruct (wf_free_passed _ _ Hwf idx) as [?|[_ ?]]; [rewrite Hf; set_solver|lia..].
    + intros i p Hp. apply (alloc_unused _ _ _ _ Hwf Ha i (peer_view p)). by rewrite members_lookup, Hp.
  - apply alloc_None in Ha as [Hf Hn]. rewrite Hf, Hn in Hc. simpl in Hc. lia.
Qed.

(** C35: in a room that admits all its peers itself, an admission is refused exactly as
    documented, [Ended] before [Full] before [VersionMismatch], and then changes nothing;
    in every other case it succeeds: the client gets an index below 25 that no peer has, it
    is the only change to the roster, and the room is pinned to the version asked for
    whatever happens later. *)
Theorem admission_outcome c ch r id pk v :
  rtc (room_step true) (Room_new c ch) r ->
  match refusal r v with
  | Some e => add_peer id pk v r = (r, Err e)
  | None => exists r' idx, add_peer id pk v r = (r', Ok (id, idx)) /\ (idx < 25)%N /\
      (forall i p, peers r !! i = Some p -> peer_index p <> idx) /\
      members r' = <[id := {| rp_pubkey := pk; rp_peer_index := idx |}]> (members r) /\
      (forall i, i <> id -> peers r' !! i = peers r !! i) /\
      (forall r'', rtc (room_step false) r' r'' -> pinned_version (guard r'') = Some v)
  end.
Proof.
  intros Hr. unfold refusal, add_peer, lock. case_decide as Hc.
  { destruct Hc as [Hp|He]; [by rewrite Hp|]. destruct (guard_poisoned r); [done|by rewrite He]. }
  apply open_room in Hc as [Hp He]. rewrite Hp, He. case_decide; [by rewrite bool_decide_true|].
  rewrite bool_decide_false by done.
  destruct (owner_alloc _ _ _ Hr) as (idx & g & Ha & Hlt & Hu); [lia|].
  assert (version_ok (guard r) v -> pinned_version (pin_version v g) = Some v) as Hpin.
  { intros Hv. apply pin_version_ok. apply alloc_pinned in Ha as [Ha _]. unfold version_ok. by rewrite Ha. }
  destruct (pinned_version (guard r)) as [w|] eqn:Hv; [case_decide as Hw|];
    first [rewrite (proj2 (check_version_Ok _ v)) by (unfold version_ok; naive_solver)
          |by rewrite (proj2 (check_version_Err _ _ (VersionMismatch w v))) by eauto].
  all: rewrite Ha; eexists _, idx; split_and!; [done..|apply insert_peer_members| |];
    [intros i Hi; simpl; by rewrite lookup_insert_ne|].
  all: intros r'' Hr''; refine (pin_reachable _ _ _ Hr'' _); apply Hpin; unfold version_ok; naive_solver.
Qed.

(** ** The automatic end *)

Lemma closed_empty_step owner r r' :
  room_step owner r r' -> r' <> clear_ended r ->
  ended (guard r) = true -> peers r = ∅ -> ended (guard r') = true /\ peers r' = ∅.
Proof.
  intros Hs Hne He Hemp.
  destruct Hs as [r id pk v _|r id pk v idx _ _ _|r id|r id|r|r|r id f|r i f|r j|r id p p' Hp _];
    try done.
  - destruct (add_peer_cases r id pk v) as [[e ->]|(idx & g & _ & ? & _)]; [done|congruence].
  - destruct (add_peer_at_index_cases r id pk v idx) as [[e ->]|(_ & ? & _)]; [done|congruence].
  - destruct (remove_peer_cases r id) as [->|(p & _ & Hp & _)]; [done|].
    by rewrite Hemp, lookup_empty in Hp.
  - destruct (remove_check_cases r id) as [->|(p & _ & Hp & _)]; [done|].
    by rewrite Hemp, lookup_empty in Hp.
  - unfold mark_ended, lock. by destruct (guard_poisoned r).
  - unfold broadcast_frame. by rewrite Hemp, lookup_empty.
  - split; [done|]. simpl. by rewrite Hemp, fmap_empty.
  - split; [done|]. simpl. by rewrite Hemp, fmap_empty.
  - by rewrite Hemp, lookup_empty in Hp.
Qed.

(** The steps but the rollback of the ended flag. *)
Definition step_no_rollback r r' : Prop := room_step false r r' /\ r' <> clear_ended r.

(** Removing a peer asks for the automatic end of the huddle exactly when it removes
    the last peer of a room not yet ended; the room is then empty and ended, and until the
    flag is rolled back nobody is admitted and no other removal asks for the end again. *)
Theorem auto_end_once r id p r' b :
  remove_peer_and_check_ended id r = (r', Some (p, b)) ->
  (b = true <-> ended (guard r) = false /\ peers r' = ∅) /\
  (b = true -> forall r'', rtc step_no_rollback r' r'' ->
     peers r'' = ∅ /\
     (forall i pk v, add_peer i pk v r'' = (r'', Err Ended)) /\
     (forall i pk v x, add_peer_at_index i pk v x r'' = (r'', Err Ended)) /\
     (forall i, (remove_peer_and_check_ended i r'').2 = None)).
Proof.
  intros Hr. destruct (remove_check_cases r id) as [E|(q & _ & Hq & Hc)]; [congruence|].
  assert (b = true -> ended (guard r') = true /\ peers r' = ∅) as Hb.
  { intros ->. destruct Hc as [(He & Hemp & E)|[_ E]]; rewrite E in Hr; simplify_eq. done. }
  split.
  - destruct Hc as [(He & Hemp & E)|[Hor E]]; rewrite E in Hr; simplify_eq; [done|].
    split; [done|]. intros [Hf Hemp]. destruct Hor; congruence.
  - intros Ht r'' Hs. apply Hb in Ht. clear -Ht Hs.
    assert (ended (guard r'') = true /\ peers r'' = ∅) as [He Hemp].
    { induction Hs as [|? ? ? [Hs Hn] _ IH]; [done|]. apply IH.
      destruct Ht. eauto using closed_empty_step. }
    split; [done|]. unfold add_peer, add_peer_at_index, remove_peer_and_check_ended, lock.
    destruct (guard_poisoned r''); [auto|]. by rewrite He, Hemp.
Qed.
End admission.

(** ** Fan-out *)

(** [try_send] appends to the queue while there is room and the receiver lives, and
    changes nothing otherwise. *)
Class MpscLaws (A : Type) `{Mpsc A} := {
  queued : Sender A -> list A;
  capacity : Sender A -> nat;
  receiver_open : Sender A -> bool;
  queued_channel n : queued (channel n) = [] /\ capacity (channel n) = n /\
    receiver_open (channel n) = true;
  try_send_spec s x :
    if receiver_open s && bool_decide (length (queued s) < capacity s)
    then (try_send s x).2 = true /\ queued (try_send s x).1 = queued s ++ [x]
    else try_send s x = (s, false);
}.

(** The bounded queue itself, for concrete inputs. *)
Definition queue_mpsc (A : Type) : Mpsc A :=
  {| Sender := nat * list A;
     channel n := (n, []);
     try_send s x := if bool_decide (length s.2 < s.1) then ((s.1, s.2 ++ [x]), true)
                     else (s, false) |}.

Definition queue_mpsc_laws (A : Type) : @MpscLaws A (queue_mpsc A).
Proof.
  refine (@Build_MpscLaws A (queue_mpsc A) snd fst (fun _ => true) _ _).
  - done.
  - intros [c q] x. simpl. by case_bool_decide.
Defined.

Section fan_out.
Context `{MpscLaws Bytes} `{MpscLaws PeerCtrl}.
Implicit Types r : Room.

(** A peer after one frame was tried on its audio queue. *)
Definition received (frame : Bytes) (p p' : AudioPeer) : Prop :=
  peer_view p' = peer_view p /\ ctrl_tx p' = ctrl_tx p /\
  (if receiver_open (audio_tx p) && bool_decide (length (queued (audio_tx p)) < capacity (audio_tx p))
   then queued (audio_tx p') = queued (audio_tx p) ++ [frame] else p' = p).

Lemma send_audio_received frame p : received frame p (send_audio frame p).
Proof.
  pose proof (try_send_spec (audio_tx p) frame) as Hs. split_and!; [done..|].
  destruct (_ && _); [by destruct Hs|]. unfold send_audio. rewrite Hs. by destruct p.
Qed.

(** A frame broadcast by a peer of the room is tried once, prefixed with the sender's
    index, on the audio queue of every other peer and on no other; a full or closed queue
    drops it and nothing waits; a sender who is not in the room reaches nobody.  A frame
    that arrives over the mesh already prefixed with the index of a peer of the room
    reaches the same peers as that peer's own broadcast. *)
Theorem fan_out_reach r id frame :
  (peers r !! id = None -> broadcast_frame id frame r = r) /\
  (forall p, peers r !! id = Some p ->
     let r' := broadcast_frame id frame r in
     peers r' !! id = Some p /\ dom (peers r') = dom (peers r) /\
     (forall j q, j <> id -> peers r !! j = Some q ->
        exists q', peers r' !! j = Some q' /\ received (peer_index p :: frame) q q') /\
     (room_wf r -> deliver_prefixed (peer_index p) (peer_index p :: frame) r = r')).
Proof.
  split; [intros Hp|intros p Hp]; unfold broadcast_frame; rewrite Hp; [done|].
  - simpl. split_and!.
    + rewrite map_lookup_imap, Hp. simpl. by rewrite bool_decide_true.
    + apply set_eq; intros j. rewrite !elem_of_dom, map_lookup_imap.
      by destruct (peers r !! j).
    + intros j q Hj Hq. rewrite map_lookup_imap, Hq. simpl.
      rewrite bool_decide_false by done. eauto using send_audio_received.
    + intros Hwf. unfold deliver_prefixed. f_equal. apply map_eq; intros j.
      rewrite lookup_fmap, map_lookup_imap. destruct (peers r !! j) as [q|] eqn:Hq; [|done].
      simpl. f_equal. destruct (decide (j = id)) as [->|Hne].
      * rewrite !bool_decide_true by congruence. done.
      * rewrite !bool_decide_false; [done|done|]. intros E. apply Hne.
        apply (wf_unique _ _ Hwf j id (peer_view q) (peer_view p)); [| |done];
          by rewrite members_lookup, ?Hq, ?Hp.
Qed.
End fan_out.

(** ** The registry *)

Section manager.
Context `{Mpsc Bytes} `{Mpsc PeerCtrl}.
Implicit Types m : AudioRoomManager.

(** The steps of the registry; [step_update] is any operation on a room somebody holds. *)
Inductive manager_step m : AudioRoomManager -> Prop :=
| step_get_or_create c ch : manager_step m (get_or_create c ch m).1
| step_update a f : (forall r, community_id (f r) = community_id r /\ channel_id (f r) = channel_id r) ->
    manager_step m (update_room a f m)
| step_cleanup c ch : manager_step m (cleanup_if_empty c ch m).1.

(** A key's room is the room of that community and channel. *)
Definition manager_wf m : Prop :=
  forall c ch a, rooms m !! (c, ch) = Some a ->
    exists r, store m !! a = Some r /\ community_id r = c /\ channel_id r = ch.

Lemma manager_wf_step m m' : manager_step m m' -> manager_wf m -> manager_wf m'.
Proof.
  intros Hs Hwf. destruct Hs as [c ch|a f Hf|c ch]; intros c' ch' a' Ha'.
  - unfold get_or_create in *. destruct (rooms m !! (c, ch)) eqn:E; [by apply Hwf|].
    set (a := fresh _) in *. simpl in *. destruct (decide ((c, ch) = (c', ch'))) as [Ek|Ek].
    + rewrite Ek, lookup_insert_eq in Ha'. simplify_eq.
      eexists. by rewrite lookup_insert_eq.
    + rewrite lookup_insert_ne in Ha' by done. destruct (Hwf _ _ _ Ha') as (r & Hr & ?).
      exists r. split; [|done]. rewrite lookup_insert_ne; [done|]. intros E'.
      apply (is_fresh (dom (store m))). fold a. rewrite E'. by eapply elem_of_dom_2.
  - simpl in *. destruct (Hwf _ _ _ Ha') as (r & Hr & Hc & Hch).
    destruct (decide (a = a')) as [->|Hne].
    + exists (f r). rewrite lookup_alter_eq, Hr. destruct (Hf r). naive_solver.
    + exists r. by rewrite lookup_alter_ne.
  - unfold cleanup_if_empty in Ha'. unfold cleanup_if_empty.
    destruct (rooms m !! (c, ch)) as [a|] eqn:E; [|by apply Hwf].
    destruct (from_option is_empty true (store m !! a)); [|by apply Hwf].
    simpl in *. apply lookup_delete_Some in Ha' as [_ Ha']. by apply Hwf.
Qed.

Lemma manager_wf_reachable m : rtc manager_step AudioRoomManager_new m -> manager_wf m.
Proof.
  revert m. apply rtc_ind_r; [|eauto using manager_wf_step].
  intros c ch a Ha. simpl in Ha. by rewrite lookup_empty in Ha.
Qed.

(** The rooms of a channel UUID, whatever the community. *)
Definition rooms_of_channel (ch : Uuid) m : gmap (CommunityId * Uuid) positive :=
  filter (fun e => e.1.2 = ch) (rooms m).

Lemma get_unambiguous_Some `{HashMapIter} ch m a :
  get_unambiguous_by_channel ch m = Some a <-> exists c, rooms_of_channel ch m = {[ (c, ch) := a ]}.
Proof.
  unfold get_unambiguous_by_channel, rooms_of_channel.
  assert (filter (fun e : CommunityId * Uuid * positive => e.1.2 = ch) (iter_entries (rooms m)) ≡ₚ
    map_to_list (filter (fun e => e.1.2 = ch) (rooms m))) as Hp.
  { apply NoDup_Permutation; [apply NoDup_filter, NoDup_iter_entries|apply NoDup_map_to_list|].
    intros [k x]. rewrite list_elem_of_filter, elem_of_iter_entries, elem_of_map_to_list,
      map_lookup_filter_Some. naive_solver. }
  split.
  - destruct (filter _ _) as [|[[c ch'] a'] [|]] eqn:E; intros; simplify_eq/=.
    assert (ch' = ch) as ->.
    { assert ((c, ch', a) ∈ filter (fun e : CommunityId * Uuid * positive => e.1.2 = ch)
        (iter_entries (rooms m))) as Hin by (rewrite E; set_solver).
      by apply list_elem_of_filter in Hin as [? _]. }
    exists c. apply map_to_list_inj. by rewrite <-Hp, map_to_list_singleton.
  - intros [c E]. rewrite E, map_to_list_singleton in Hp.
    by apply Permutation_singleton_r in Hp as ->.
Qed.

(** Rooms of different communities never mix: in every state of the registry the
    room under a key carries that key's community and channel, two keys never share a
    room, and an operation on one room changes no other; a datagram that names only a
    channel is delivered exactly when a single community has a room for that channel, and
    to that room; a room is only dropped from the registry when it is empty. *)
Theorem communities_isolated `{HashMapIter} m :
  rtc manager_step AudioRoomManager_new m ->
  (forall c ch a, get c ch m = Some a ->
     exists r, store m !! a = Some r /\ community_id r = c /\ channel_id r = ch) /\
  (forall k k' a, rooms m !! k = Some a -> rooms m !! k' = Some a -> k = k') /\
  (forall k k' a a' f, rooms m !! k = Some a -> rooms m !! k' = Some a' -> k <> k' ->
     store (update_room a f m) !! a' = store m !! a') /\
  (forall ch a, get_unambiguous_by_channel ch m = Some a <->
     exists c, get c ch m = Some a /\ forall c' a', get c' ch m = Some a' -> c' = c) /\
  (forall c ch a, (cleanup_if_empty c ch m).2 = true -> get c ch m = Some a ->
     exists r, store m !! a = Some r /\ peers r = ∅).
Proof.
  intros Hr. pose proof (manager_wf_reachable _ Hr) as Hwf.
  assert (forall k k' a, rooms m !! k = Some a -> rooms m !! k' = Some a -> k = k') as Hinj.
  { intros [c ch] [c' ch'] a Hk Hk'. apply Hwf in Hk, Hk'. naive_solver. }
  split_and!; [exact Hwf|exact Hinj|..].
  - intros k k' a a' f Hk Hk' Hne. simpl. apply lookup_alter_ne. intros ->. eauto.
  - intros ch a. rewrite get_unambiguous_Some. unfold get, rooms_of_channel. split.
    + intros [c E]. exists c. split.
      * assert (filter (fun e : CommunityId * Uuid * positive => e.1.2 = ch) (rooms m) !! (c, ch) = Some a)
          as Hl by (rewrite E; apply lookup_singleton_eq).
        by apply map_lookup_filter_Some in Hl as [? _].
      * intros c' a' Hc'.
        assert (filter (fun e : CommunityId * Uuid * positive => e.1.2 = ch) (rooms m) !! (c', ch) = Some a')
          as Hl by (by apply map_lookup_filter_Some).
        rewrite E in Hl. apply lookup_singleton_Some in Hl. naive_solver.
    + intros (c & Hc & Hu). exists c. apply map_eq; intros [c' ch'].
      apply option_eq; intros a'. rewrite map_lookup_filter_Some, lookup_singleton_Some. simpl.
      split; [intros [Ha ->]|]; [|naive_solver]. pose proof (Hu _ _ Ha) as ->. naive_solver.
  - intros c ch a Hc Ha. unfold get in Ha. unfold cleanup_if_empty in Hc. rewrite Ha in Hc.
    destruct (Hwf _ _ _ Ha) as (r & Hr' & _). rewrite Hr' in Hc. simpl in Hc.
    unfold is_empty in Hc. exists r. split; [done|]. by case_bool_decide.
Qed.
End manager.

(** ** A concrete room *)

#[local] Instance bytes_mpsc : Mpsc Bytes := queue_mpsc Bytes.
#[local] Instance ctrl_mpsc : Mpsc PeerCtrl := queue_mpsc PeerCtrl.
#[local] Instance bytes_mpsc_laws : MpscLaws Bytes := queue_mpsc_laws Bytes.
#[local] Instance ctrl_mpsc_laws : MpscLaws PeerCtrl := queue_mpsc_laws PeerCtrl.

Definition room0 : Room := Room_new 1%N 2%N.
Definition room1 : Room := (add_peer 10%N "alice" 2%N room0).1.
Definition room2 : Room := (add_peer 11%N "bob" 2%N room1).1.
Definition room3 : Room := remove_peer 10%N room2.

Lemma room1_reachable : rtc (room_step true) room0 room1.
Proof. apply rtc_once. by apply step_add. Qed.
Lemma room2_reachable : rtc (room_step true) room0 room2.
Proof. eapply rtc_r; [apply room1_reachable|]. by apply step_add. Qed.
Lemma room3_reachable : rtc (room_step true) room2 room3.
Proof. apply rtc_once. apply step_remove. Qed.

Lemma peer_indices_unique_witness :
  (forall p q, peers room2 !! 10%N = Some p -> peers room2 !! 11%N = Some q ->
     peer_index p <> peer_index q) /\ is_Some (alloc (guard room2)).
Proof.
  pose proof (peer_indices_unique true 1%N 2%N room2 room2_reachable) as (Hu & _ & _ & Ho).
  split.
  - intros p q Hp Hq E. discriminate (Hu _ _ _ _ Hp Hq E).
  - apply Ho; [reflexivity|]. vm_compute. lia.
Defined.

(** Alice left the room she opened with version 2: Carol is refused with version 1 and takes
    Alice's place with version 2. *)
Lemma admission_outcome_witness :
  add_peer 12%N "carol" 1%N room3 = (room3, Err (VersionMismatch 2 1)) /\
  exists r' idx, add_peer 12%N "carol" 2%N room3 = (r', Ok (12%N, idx)) /\ (idx < 25)%N.
Proof.
  assert (rtc (room_step true) (Room_new 1%N 2%N) room3) as Hr
    by (etrans; [apply room2_reachable|apply room3_reachable]).
  split; [exact (admission_outcome 1%N 2%N room3 12%N "carol" 1%N Hr)|].
  destruct (admission_outcome 1%N 2%N room3 12%N "carol" 2%N Hr) as (r' & idx & Ha & Hlt & _).
  exists r', idx. split; [exact Ha|exact Hlt].
Defined.

Lemma auto_end_once_witness :
  let r := (remove_peer_and_check_ended 10%N room1).1 in
  peers r = ∅ /\ (forall i pk v, add_peer i pk v r = (r, Err Ended)).
Proof.
  destruct (auto_end_once room1 10%N 0%N (remove_peer_and_check_ended 10%N room1).1 true)
    as [_ Hend]; [reflexivity|].
  destruct (Hend eq_refl _ (rtc_refl _ _)) as (He & Ha & _). split; [exact He|exact Ha].
Defined.

Lemma fan_out_reach_witness :
  exists q, peers (broadcast_frame 10%N [7%N] room2) !! 11%N = Some q /\
    queued (audio_tx q) = [[0%N; 7%N]].
Proof.
  pose proof (fan_out_reach room2 10%N [7%N]) as [_ Hf].
  destruct (peers room2 !! 10%N) as [p|] eqn:Hp; [|discriminate Hp].
  destruct (peers room2 !! 11%N) as [q|] eqn:Hq; [|discriminate Hq].
  destruct (Hf p Hp) as (_ & _ & Ho & _).
  destruct (Ho 11%N q) as (q' & Hq' & Hr); [discriminate|exact Hq|].
  exists q'. split; [exact Hq'|]. destruct Hr as (_ & _ & Hr).
  injection Hp as <-. injection Hq as <-. exact Hr.
Defined.

(** ** Two remarks on the documented index space *)

(** A mirrored index 255, outside the documented range 0 to 254, is later handed out by
    the allocator itself. *)
Lemma index_255_reused :
  let r1 := (add_peer_at_index 10%N "alice" 2%N 255%N room0).1 in
  let r2 := remove_peer 10%N r1 in
  (add_peer 11%N "bob" 2%N r2).2 = Ok (11%N, 255%N).
Proof. reflexivity. Qed.

(** With no index left, a client of another version learns the pinned version instead of
    being told that the room is full. *)
Lemma exhausted_room_tells_version :
  let r1 := (add_peer_at_index 10%N "alice" 2%N 254%N room0).1 in
  alloc (guard r1) = None /\
  (add_peer 11%N "bob" 1%N r1).2 = Err (VersionMismatch 2 1).
Proof. split; reflexivity. Qed.

Lemma communities_isolated_witness :
  let m := (get_or_create 2%N 9%N (get_or_create 1%N 9%N AudioRoomManager_new).1).1 in
  get 1%N 9%N m <> get 2%N 9%N m /\ @get_unambiguous_by_channel _ _ map_order 9%N m = None.
Proof.
  pose (m := (get_or_create 2%N 9%N (get_or_create 1%N 9%N AudioRoomManager_new).1).1).
  assert (rtc manager_step AudioRoomManager_new m) as Hm.
  { eapply rtc_l; [apply step_get_or_create|]. apply rtc_once, step_get_or_create. }
  pose proof (@communities_isolated _ _ map_order m Hm) as (_ & Hi & _). split.
  - change (get 1%N 9%N m <> get 2%N 9%N m). destruct (get 1%N 9%N m) eqn:E1; [|discriminate E1].
    intros E2. symmetry in E2. discriminate (Hi _ _ _ E1 E2).
  - reflexivity.
Defined.
