(* ===== verification/RosterSync.v ===== *)
(** * Roster synchronisation ([audio/join.rs], [desktop/src-tauri/src/huddle/playout.rs])

    The owner of a huddle publishes its roster as snapshots and revision-numbered deltas
    ([roster_snapshot_msg], [roster_delta_msg]); an ingress node follows them and forwards
    them to its client ([read_owner_control]); the desktop client keeps the map from peer
    index to public key and the audio state of each index ([playout] text messages).
    A stream frame is the result of [recv_frame] with its payload decoded ([postcard]);
    the JSON text of a client message is the value it denotes.  Whether the client's
    channel and the stream accept a message is an input of the step. *)

From S2P Require Import Prelude Nostr AudioRoom.

Record RosterEntry := {
  re_pubkey : string;
  re_peer_index : N;
}.

Inductive GoodbyeReason := StaleGeneration | Draining | SessionEnded.

(** The owner's control messages an ingress node can receive; [OtherControl] stands for
    the registration messages, which the follower skips. *)
Inductive HuddleControlMsg :=
| RosterSnapshotMsg (revision : Z) (peers : list RosterEntry)
| RosterDeltaMsg (revision : Z) (joined left : option RosterEntry)
| RosterResync
| OtherControl.

Inductive HuddleTeardownCause :=
| OwnerLost
| OwnerDraining
| CauseSessionEnded
| StreamClosed.

Definition from_goodbye (reason : GoodbyeReason) : HuddleTeardownCause :=
  match reason with
  | StaleGeneration => OwnerLost
  | Draining => OwnerDraining
  | SessionEnded => CauseSessionEnded
  end.

(** ** The owner's side *)

Definition RosterEntry_from (p : RosterPeer) : RosterEntry :=
  {| re_pubkey := rp_pubkey p; re_peer_index := rp_peer_index p |}.

Definition roster_snapshot_msg `{Mpsc Bytes} `{Mpsc PeerCtrl} `{HashMapIter} (r : Room)
    : HuddleControlMsg :=
  let s := roster_snapshot r in
  RosterSnapshotMsg (rs_revision s) (RosterEntry_from <$> rs_peers s).

Definition roster_delta_msg (d : RosterDelta) : HuddleControlMsg :=
  RosterDeltaMsg (rd_revision d) (RosterEntry_from <$> joined d) (RosterEntry_from <$> left d).

(** ** The ingress node *)

(** What [stream.recv_frame()] can give, with the payload decoded. *)
Inductive OwnerFrame :=
| Goodbye (reason : GoodbyeReason)
| Data (payload : option HuddleControlMsg)
| OtherFrame
| EndOfStream
| StreamError.

(** The JSON objects sent to the client. *)
Inductive ClientMsg :=
| RosterMsg (revision : Z) (peers : list RosterEntry)
| JoinedMsg (revision : Z) (peer : RosterEntry) (peers : list RosterEntry)
| LeftMsg (revision : Z) (peer : RosterEntry).

(** The outcome of one turn of the loop: its revision, what it sent to the client and to
    the owner, and the cause when it returns. *)
Record FollowStep := {
  fs_revision : Z;
  fs_client : list ClientMsg;
  fs_owner : list HuddleControlMsg;
  fs_return : option HuddleTeardownCause;
}.

(** Await [ctrl_tx.send]: it fails when the client's task is gone. *)
Definition forward (ctrl_open : bool) (revision : Z) (m : ClientMsg) : FollowStep :=
  {| fs_revision := revision; fs_client := if ctrl_open then [m] else []; fs_owner := [];
     fs_return := if ctrl_open then None else Some CauseSessionEnded |}.
Definition skip (revision : Z) : FollowStep :=
  {| fs_revision := revision; fs_client := []; fs_owner := []; fs_return := None |}.
Definition stop (revision : Z) (c : HuddleTeardownCause) : FollowStep :=
  {| fs_revision := revision; fs_client := []; fs_owner := []; fs_return := Some c |}.
Definition request_resync (link_ok : bool) (revision : Z) : FollowStep :=
  if link_ok then {| fs_revision := revision; fs_client := []; fs_owner := [RosterResync];
                     fs_return := None |}
  else stop revision StreamClosed.

Definition read_owner_step (ctrl_open link_ok : bool) (revision : Z) (f : OwnerFrame)
    : FollowStep :=
  match f with
  | Goodbye reason => stop revision (from_goodbye reason)
  | Data (Some (RosterSnapshotMsg next ps)) => forward ctrl_open next (RosterMsg next ps)
  | Data (Some (RosterDeltaMsg next j l)) =>
      if bool_decide (next = u64_wrapping_add revision 1) then
        match j, l with
        | Some p, _ => forward ctrl_open next (JoinedMsg next p [p])
        | None, Some p => forward ctrl_open next (LeftMsg next p)
        | None, None => skip next
        end
      else if bool_decide (next <= revision)%Z then skip revision
      else request_resync link_ok revision
  | Data (Some RosterResync) | Data (Some OtherControl) => skip revision
  | Data None => skip revision
  | OtherFrame => skip revision
  | EndOfStream => stop revision StreamClosed
  | StreamError => stop revision StreamClosed
  end.

(** The loop on the frames the stream delivers, the client and the link staying up: the
    revision reached, the messages sent to the client, and the number of resync
    requests. *)
Fixpoint read_owner_control (revision : Z) (fs : list OwnerFrame)
    : Z * list ClientMsg * nat * option HuddleTeardownCause :=
  match fs with
  | [] => (revision, [], 0, None)
  | f :: fs =>
      let s := read_owner_step true true revision f in
      match fs_return s with
      | Some c => (fs_revision s, fs_client s, length (fs_owner s), Some c)
      | None =>
          let '(rev, ms, n, c) := read_owner_control (fs_revision s) fs in
          (rev, fs_client s ++ ms, length (fs_owner s) + n, c)
      end
  end.

(** ** The desktop client *)

Section playout.
Context {PeerSlot : Type}.

Record Playout := {
  slots : gmap N PeerSlot;
  index_to_pubkey : gmap N string;
  active_indices : gset N;
  frame_counts : gmap N N;
}.

Definition as_u8 (n : N) : N := (n mod 256)%N.

(** One entry of the [peers] of a "joined" message. *)
Definition joined_step (s : Playout) (p : RosterEntry) : Playout :=
  let key := as_u8 (re_peer_index p) in
  if bool_decide (index_to_pubkey s !! key <> Some (re_pubkey p)) then
    {| slots := delete key (slots s);
       index_to_pubkey := <[key := re_pubkey p]> (index_to_pubkey s);
       active_indices := active_indices s ∖ {[ key ]};
       frame_counts := delete key (frame_counts s) |}
  else
    {| slots := slots s;
       index_to_pubkey := <[key := re_pubkey p]> (index_to_pubkey s);
       active_indices := active_indices s;
       frame_counts := frame_counts s |}.

Definition replacement (ps : list RosterEntry) : gmap N string :=
  fold_left (fun m p => <[as_u8 (re_peer_index p) := re_pubkey p]> m) ps ∅.

Definition identity_unchanged (new old : gmap N string) (idx : N) : Prop :=
  new !! idx = old !! idx.
#[global] Instance identity_unchanged_dec new old idx :
  Decision (identity_unchanged new old idx).
Proof. unfold identity_unchanged. apply _. Defined.

Definition on_text (s : Playout) (m : ClientMsg) : Playout :=
  match m with
  | JoinedMsg _ _ ps => fold_left joined_step ps s
  | RosterMsg _ ps =>
      let new := replacement ps in
      let keep := identity_unchanged new (index_to_pubkey s) in
      {| slots := filter (fun e => keep e.1) (slots s);
         index_to_pubkey := new;
         active_indices := filter keep (active_indices s);
         frame_counts := filter (fun e => keep e.1) (frame_counts s) |}
  | LeftMsg _ p =>
      let key := as_u8 (re_peer_index p) in
      {| slots := delete key (slots s);
         index_to_pubkey := delete key (index_to_pubkey s);
         active_indices := active_indices s;
         frame_counts := delete key (frame_counts s) |}
  end.
End playout.
Arguments Playout : clear implicits.
