(* ===== verification/RosterSyncProps.v ===== *)
(** * The roster a client shows is the owner's ([RosterSync])

    The deltas a room publishes replay to its roster; a follower fed any mixture of the
    room's snapshots and deltas, lost, repeated or out of order, gives the client exactly
    the roster of the revision it stands at. *)

From S2P Require Import Prelude Nostr AudioRoom AudioRoomProps RosterSync.

(** ** Rosters as maps from index to key *)

Definition entry_of (p : RosterPeer) : N * string := (rp_peer_index p, rp_pubkey p).

Definition roster_of (ms : gmap Uuid RosterPeer) : gmap N string :=
  list_to_map (entry_of <$> (map_to_list ms).*2).

Definition apply_delta (m : gmap N string) (d : RosterDelta) : gmap N string :=
  let m := from_option (fun p => delete (rp_peer_index p) m) m (left d) in
  from_option (fun p => <[rp_peer_index p := rp_pubkey p]> m) m (joined d).

Definition replay (ds : list RosterDelta) : gmap N string := foldl apply_delta ∅ ds.

(** The uniqueness of the indices. *)
Definition unique_indices (ms : gmap Uuid RosterPeer) : Prop :=
  forall i j p q, ms !! i = Some p -> ms !! j = Some q ->
    rp_peer_index p = rp_peer_index q -> i = j.

Lemma NoDup_entries ms : unique_indices ms -> NoDup (entry_of <$> (map_to_list ms).*2).*1.
Proof.
  intros Hu. rewrite <-!list_fmap_compose. apply NoDup_fmap_2_strong.
  - intros [i p] [j q] Hp Hq E. simpl in E.
    apply elem_of_map_to_list in Hp, Hq. pose proof (Hu _ _ _ _ Hp Hq E). by simplify_eq.
  - apply NoDup_map_to_list.
Qed.

Lemma roster_of_lookup ms idx pk :
  unique_indices ms ->
  roster_of ms !! idx = Some pk <->
  exists id, ms !! id = Some {| rp_pubkey := pk; rp_peer_index := idx |}.
Proof.
  intros Hu. unfold roster_of. rewrite <-elem_of_list_to_map by by apply NoDup_entries.
  rewrite list_elem_of_fmap. setoid_rewrite list_elem_of_fmap. split.
  - intros (p & E & [id q] & -> & Hin). apply elem_of_map_to_list in Hin.
    exists id. simpl in *. unfold entry_of in E. destruct q. by simplify_eq.
  - intros [id Hid]. eexists. split; [|eexists (id, _); split; [reflexivity|]].
    2: by apply elem_of_map_to_list. done.
Qed.

Lemma roster_of_None ms idx :
  unique_indices ms ->
  roster_of ms !! idx = None <-> forall id p, ms !! id = Some p -> rp_peer_index p <> idx.
Proof.
  intros Hu. rewrite eq_None_not_Some. split.
  - intros Hn id [pk idx'] Hp E. simpl in E. subst. apply Hn. exists pk.
    apply roster_of_lookup; eauto.
  - intros Hn [pk [id Hid]%roster_of_lookup]; [|done]. by eapply Hn.
Qed.

Lemma roster_of_insert ms id p :
  unique_indices (<[id := p]> ms) -> ms !! id = None ->
  roster_of (<[id := p]> ms) = <[rp_peer_index p := rp_pubkey p]> (roster_of ms).
Proof.
  intros Hu Hid. unfold roster_of. apply map_eq; intros idx.
  rewrite <-list_to_map_cons. f_equal. apply list_to_map_proper; [by apply NoDup_entries|].
  by rewrite map_to_list_insert.
Qed.

Lemma roster_of_delete ms id p :
  unique_indices ms -> ms !! id = Some p ->
  roster_of (delete id ms) = delete (rp_peer_index p) (roster_of ms).
Proof.
  intros Hu Hid. rewrite <-(insert_delete_id ms id p) at 2 by done.
  rewrite roster_of_insert.
  - rewrite delete_insert_id; [done|]. apply roster_of_None.
    + intros i j q q' Hi Hj. map_cases. by apply Hu.
    + intros i q Hi E. map_cases. apply H. symmetry. by apply (Hu i id q p).
  - by rewrite insert_delete_id.
  - apply lookup_delete_eq.
Qed.

(** ** The log of a room *)

Section log.
Context `{Mpsc Bytes} `{Mpsc PeerCtrl}.
Implicit Types r : Room.

(** A delta is one join or one leave, of a [u8] index. *)
Definition delta_shape (d : RosterDelta) : Prop :=
  exists p, (rp_peer_index p <= 255)%N /\
    ((joined d = Some p /\ left d = None) \/ (joined d = None /\ left d = Some p)).

Record log_ok r : Prop := {
  lo_revision : roster_revision (guard r) = (Z.of_nat (length (roster_tx r)) mod 2 ^ 64)%Z;
  lo_numbers k d : roster_tx r !! k = Some d -> rd_revision d = (Z.of_nat (S k) mod 2 ^ 64)%Z;
  lo_replay : roster_of (members r) = replay (roster_tx r);
  lo_shape : Forall delta_shape (roster_tx r);
}.

(** A step publishes nothing and leaves the roster, or publishes the one delta that
    makes the new roster. *)
Definition publishes r r' (ds : list RosterDelta) : Prop :=
  roster_tx r' = roster_tx r ++ ds /\
  match ds with
  | [] => members r' = members r /\ roster_revision (guard r') = roster_revision (guard r)
  | [d] => delta_shape d /\ rd_revision d = u64_wrapping_add (roster_revision (guard r)) 1 /\
      roster_revision (guard r') = rd_revision d /\
      roster_of (members r') = apply_delta (roster_of (members r)) d
  | _ => False
  end.

Lemma publishes_refl r : publishes r r [].
Proof. split; [by rewrite app_nil_r|done]. Qed.

Lemma passed_u8 ms g id p : guard_wf ms g -> ms !! id = Some p -> (rp_peer_index p <= 255)%N.
Proof.
  intros Hwf Hp. pose proof (wf_next _ _ Hwf).
  destruct (wf_passed _ _ Hwf id p Hp) as [?|[? _]]; lia.
Qed.

Lemma publishes_insert r id pk idx g :
  peers r !! id = None -> roster_revision g = roster_revision (guard r) ->
  room_wf (insert_peer id pk idx g r) ->
  exists ds, publishes r (insert_peer id pk idx g r) ds.
Proof.
  intros Hid Hg Hwf. eexists [_]. split; [reflexivity|]. split_and!; [| |done|].
  - eexists. split; [|by left].
    apply (passed_u8 (members (insert_peer id pk idx g r)) _ id _ Hwf).
    by rewrite insert_peer_members, lookup_insert_eq.
  - simpl. by rewrite Hg.
  - pose proof (wf_unique _ _ Hwf) as Hu. rewrite insert_peer_members in *.
    rewrite roster_of_insert; [done..|]. by rewrite members_lookup, Hid.
Qed.

Lemma publishes_take r id p :
  peers r !! id = Some p -> room_wf r ->
  exists ds, publishes r (take_peer id p (guard r) r) ds.
Proof.
  intros Hid Hwf. eexists [_]. split; [reflexivity|].
  assert (members r !! id = Some (peer_view p)) as Hm by (by rewrite members_lookup, Hid).
  split_and!; [|done..|].
  - eexists. split; [|by right]. by apply (passed_u8 _ _ id _ Hwf).
  - rewrite take_peer_members. rewrite (roster_of_delete _ _ (peer_view p)); [done| |done].
    exact (wf_unique _ _ Hwf).
Qed.

Lemma alloc_revision g idx g' :
  alloc g = Some (idx, g') -> roster_revision g' = roster_revision g.
Proof. by intros [(? & _ & ->)|(_ & _ & _ & ->)]%alloc_Some. Qed.

Lemma step_publishes owner r r' :
  room_step owner r r' -> room_wf r -> exists ds, publishes r r' ds.
Proof.
  intros Hs Hwf. pose proof (room_wf_step _ _ _ Hs Hwf) as Hwf'.
  assert (forall r1, roster_tx r1 = roster_tx r -> members r1 = members r ->
    roster_revision (guard r1) = roster_revision (guard r) -> exists ds, publishes r r1 ds) as Hsame.
  { intros r1 E ? ?. exists []. split; [by rewrite app_nil_r|done]. }
  destruct Hs as [r id pk v Hid|r id pk v idx _ Hid Hidx|r id|r id|r|r|r id f|r i f|r j|r id p p' Hp Hv].
  - destruct (add_peer_cases r id pk v) as [[e E]|(idx & g & _ & _ & _ & _ & Ha & E)];
      rewrite E in *; [by apply Hsame|]. apply publishes_insert; [done| |done].
    simpl. by apply alloc_revision in Ha.
  - destruct (add_peer_at_index_cases r id pk v idx) as [[e E]|(_ & _ & _ & _ & _ & E)];
      rewrite E in *; [by apply Hsame|]. apply publishes_insert; [done| |done].
    unfold reserve. by case_bool_decide.
  - destruct (remove_peer_cases r id) as [->|(p & _ & Hp & ->)]; [by apply Hsame|].
    by apply publishes_take.
  - destruct (remove_check_cases r id) as [->|(p & _ & Hp & Hc)]; [by apply Hsame|].
    destruct (publishes_take r id p Hp Hwf) as [ds Hds].
    destruct Hc as [(_ & _ & ->)|[_ ->]]; exists ds; exact Hds.
  - unfold mark_ended, lock in *. destruct (guard_poisoned r); by apply Hsame.
  - unfold clear_ended, lock in *. destruct (guard_poisoned r); by apply Hsame.
  - destruct (broadcast_frame_members r id f) as (? & E & ?). apply Hsame; [done..|].
    by rewrite E.
  - apply Hsame; [done|apply deliver_prefixed_members|done].
  - apply Hsame; [done|apply broadcast_control_members|done].
  - apply Hsame; [done|by apply (poll_members r id p p')|done].
Qed.

Lemma log_ok_publishes r r' ds : publishes r r' ds -> log_ok r -> log_ok r'.
Proof.
  intros [Htx Hds] []. destruct ds as [|d [|]]; [| |done].
  - destruct Hds as [Hm Hr]. rewrite app_nil_r in Htx.
    split; rewrite ?Htx, ?Hm, ?Hr; done.
  - destruct Hds as (Hs & Hd & Hr & Hm). unfold u64_wrapping_add in Hd.
    assert (rd_revision d = (Z.of_nat (S (length (roster_tx r))) mod 2 ^ 64)%Z) as Hrev.
    { rewrite Hd, lo_revision0, Zplus_mod_idemp_l. f_equal. lia. }
    split.
    + rewrite Hr, Htx, length_app, Hrev. do 2 f_equal. simpl. lia.
    + intros k d'. rewrite Htx. intros [Hk|[Hk Hlen]]%lookup_app_Some; [by apply lo_numbers0|].
      apply list_lookup_singleton_Some in Hlen as [Hz <-]. rewrite Hrev. do 2 f_equal. lia.
    + rewrite Hm, Htx, lo_replay0. unfold replay. by rewrite foldl_app.
    + rewrite Htx. apply Forall_app. by split; [|constructor].
Qed.

Lemma log_ok_reachable owner c ch r :
  rtc (room_step owner) (Room_new c ch) r -> log_ok r.
Proof.
  revert r. apply rtc_ind_r.
  - split; reflexivity || done || constructor.
  - intros r r' Hr Hs IH.
    destruct (step_publishes _ _ _ Hs (room_wf_reachable _ _ _ _ Hr)) as [ds Hds].
    by eapply log_ok_publishes.
Qed.

(** The log only grows. *)
Lemma log_prefix owner c ch r r' :
  rtc (room_step owner) (Room_new c ch) r -> rtc (room_step owner) r r' ->
  exists ds, roster_tx r' = roster_tx r ++ ds.
Proof.
  intros Hr. revert r'. apply rtc_ind_r.
  - exists []. by rewrite app_nil_r.
  - intros r1 r2 H1r Hs [ds E].
    destruct (step_publishes _ _ _ Hs) as [ds' [E' _]].
    + eapply room_wf_reachable. by etrans.
    + exists (ds ++ ds'). by rewrite E', E, app_assoc.
Qed.
End log.

(** ** Snapshots *)

Lemma fold_insert_union {A B} (k : A -> N) (v : A -> B) (l : list A) (m : gmap N B) :
  NoDup (k <$> l) ->
  fold_left (fun m x => <[k x := v x]> m) l m = list_to_map ((fun x => (k x, v x)) <$> l) ∪ m.
Proof.
  revert m. induction l as [|x l IH]; intros m; simpl; [by rewrite map_empty_union|].
  intros [Hx Hnd]%NoDup_cons. rewrite IH by done. rewrite <-insert_union_l.
  symmetry. apply insert_union_r, not_elem_of_list_to_map_1. by rewrite <-list_fmap_compose.
Qed.

Lemma as_u8_id n : (n <= 255)%N -> as_u8 n = n.
Proof. intros. apply N.mod_small. lia. Qed.

Section snapshot.
Context `{Mpsc Bytes} `{Mpsc PeerCtrl} `{HashMapIter}.

Lemma snapshot_entries (r : Room) :
  rs_peers (roster_snapshot r) ≡ₚ (map_to_list (members r)).*2.
Proof.
  unfold roster_snapshot, peer_entries, members; simpl.
  rewrite sort_by_key_perm, iter_entries_perm, map_to_list_fmap.
  by rewrite <-!list_fmap_compose.
Qed.

Lemma snapshot_replacement (r : Room) :
  room_wf r -> replacement (RosterEntry_from <$> rs_peers (roster_snapshot r)) = roster_of (members r).
Proof.
  intros Hwf. pose proof (snapshot_entries r) as Hp.
  assert (forall p, p ∈ rs_peers (roster_snapshot r) -> as_u8 (rp_peer_index p) = rp_peer_index p) as H8.
  { intros p. rewrite Hp, list_elem_of_fmap. intros ([i q] & -> & Hin).
    apply elem_of_map_to_list in Hin. apply as_u8_id. by apply (passed_u8 _ _ i _ Hwf). }
  pose proof (NoDup_entries _ (wf_unique _ _ Hwf)) as Hnd. rewrite <-Hp in Hnd.
  assert ((fun x => (as_u8 (re_peer_index x), re_pubkey x)) <$>
    (RosterEntry_from <$> rs_peers (roster_snapshot r)) =
    entry_of <$> rs_peers (roster_snapshot r)) as E.
  { rewrite <-list_fmap_compose. apply list_fmap_ext. intros k p Hk. simpl. unfold entry_of.
    by rewrite H8 by by eapply list_elem_of_lookup_2. }
  unfold replacement. rewrite fold_insert_union.
  - rewrite map_union_empty, E. apply list_to_map_proper; [done|]. by rewrite Hp.
  - rewrite <-E, <-list_fmap_compose in Hnd. exact Hnd.
Qed.
End snapshot.

(** ** The follower and its client *)

Section follow.
Context `{Mpsc Bytes} `{Mpsc PeerCtrl} `{HashMapIter} {PeerSlot : Type}.
Implicit Types r : Room.
Implicit Types s : Playout PeerSlot.

(** The frames of the stream of a room that is now in state [r]: snapshots it gave at
    any time, deltas it published, and anything that is neither. *)
Inductive genuine (owner : bool) (c : CommunityId) (ch : Uuid) r : OwnerFrame -> Prop :=
| genuine_snapshot r1 : rtc (room_step owner) (Room_new c ch) r1 -> rtc (room_step owner) r1 r ->
    genuine owner c ch r (Data (Some (roster_snapshot_msg r1)))
| genuine_delta d : d ∈ roster_tx r -> genuine owner c ch r (Data (Some (roster_delta_msg d)))
| genuine_other f :
    match f with
    | Data (Some (RosterSnapshotMsg _ _)) | Data (Some (RosterDeltaMsg _ _ _)) => False
    | _ => True
    end -> genuine owner c ch r f.

(** The roster [m] is the one of revision [rev] in the log. *)
Definition at_revision (log : list RosterDelta) (rev : Z) (m : gmap N string) : Prop :=
  exists k, rev = Z.of_nat k /\ k <= length log /\ m = replay (take k log).

Definition short_log r : Prop := (Z.of_nat (length (roster_tx r)) < 2 ^ 64)%Z.

Lemma at_revision_room owner c ch r1 r :
  rtc (room_step owner) (Room_new c ch) r1 -> rtc (room_step owner) r1 r -> short_log r ->
  at_revision (roster_tx r) (roster_revision (guard r1)) (roster_of (members r1)).
Proof.
  intros H1r Hr Hs. destruct (log_prefix _ _ _ _ _ H1r Hr) as [ds E].
  destruct (log_ok_reachable _ _ _ _ H1r) as [Hrev _ Hrep _]. unfold short_log in Hs.
  rewrite E, length_app in Hs. exists (length (roster_tx r1)). split_and!.
  - rewrite Hrev. apply Z.mod_small. lia.
  - rewrite E, length_app. lia.
  - by rewrite E, take_app_length.
Qed.

Lemma at_revision_delta owner c ch r k d m rev :
  rtc (room_step owner) (Room_new c ch) r -> short_log r -> roster_tx r !! k = Some d ->
  at_revision (roster_tx r) rev m -> rd_revision d = u64_wrapping_add rev 1 ->
  at_revision (roster_tx r) (rd_revision d) (apply_delta m d).
Proof.
  intros Hr Hs Hk (j & -> & Hj & ->) E. unfold short_log in Hs.
  pose proof (lo_numbers _ (log_ok_reachable _ _ _ _ Hr) _ _ Hk) as Hd.
  apply lookup_lt_Some in Hk as Hlt. unfold u64_wrapping_add in E.
  rewrite Z.mod_small in Hd by lia.
  assert (k = j) as ->.
  { destruct (decide (Z.of_nat j + 1 < 2 ^ 64)%Z) as [Hlt2|Hge].
    - rewrite Z.mod_small in E by lia. lia.
    - replace (Z.of_nat j + 1)%Z with (2 ^ 64)%Z in E by lia.
      rewrite Z_mod_same_full in E. lia. }
  exists (S j). split_and!; [done|lia|].
  unfold replay. by rewrite (take_S_r _ _ d), foldl_app.
Qed.

(** What a delta makes the follower and its client do. *)
Lemma delta_cases d rev :
  delta_shape d ->
  let st := read_owner_step true true rev (Data (Some (roster_delta_msg d))) in
  (rd_revision d = u64_wrapping_add rev 1 /\ fs_revision st = rd_revision d /\
   fs_owner st = [] /\ fs_return st = None /\
   exists m, fs_client st = [m] /\
     forall s, index_to_pubkey (on_text s m) = apply_delta (index_to_pubkey s) d) \/
  (rd_revision d <> u64_wrapping_add rev 1 /\ (rd_revision d <= rev)%Z /\ st = skip rev) \/
  (rd_revision d <> u64_wrapping_add rev 1 /\ ~ (rd_revision d <= rev)%Z /\
   st = request_resync true rev).
Proof.
  intros (p & Hp & Hor). cbn zeta. unfold read_owner_step, roster_delta_msg, apply_delta.
  case_bool_decide; [left|case_bool_decide; auto].
  destruct Hor as [[Ej El]|[Ej El]]; rewrite Ej, El; split_and!; try done;
    (eexists; split; [reflexivity|]; intros s; simpl; unfold joined_step; simpl;
     rewrite as_u8_id by done; by repeat case_bool_decide).
Qed.

Lemma follow_step owner c ch r rev s f :
  rtc (room_step owner) (Room_new c ch) r -> short_log r -> genuine owner c ch r f ->
  at_revision (roster_tx r) rev (index_to_pubkey s) ->
  let st := read_owner_step true true rev f in
  at_revision (roster_tx r) (fs_revision st) (index_to_pubkey (fold_left on_text (fs_client st) s)).
Proof.
  intros Hr Hs Hg Hat. destruct Hg as [r1 H1r Hrr|d [k Hd]%list_elem_of_lookup_1|f Hf].
  - change (at_revision (roster_tx r) (roster_revision (guard r1))
      (replacement (RosterEntry_from <$> rs_peers (roster_snapshot r1)))).
    rewrite snapshot_replacement by by eapply room_wf_reachable.
    by eapply at_revision_room.
  - pose proof (lo_shape _ (log_ok_reachable _ _ _ _ Hr)) as Hsh.
    rewrite Forall_lookup in Hsh. specialize (Hsh _ _ Hd). cbn zeta.
    destruct (delta_cases d rev Hsh) as [(E & -> & _ & _ & m & -> & Hm)|[(_ & _ & ->)|(_ & _ & ->)]];
      [|done..].
    simpl. rewrite Hm. by eapply at_revision_delta.
  - destruct f as [| [[]|] | | |]; done.
Qed.

Lemma read_owner_control_cons rev f fs :
  read_owner_control rev (f :: fs) =
  let s := read_owner_step true true rev f in
  match fs_return s with
  | Some c => (fs_revision s, fs_client s, length (fs_owner s), Some c)
  | None =>
      let '(rev, ms, n, c) := read_owner_control (fs_revision s) fs in
      (rev, fs_client s ++ ms, length (fs_owner s) + n, c)
  end.
Proof. done. Qed.

(** The view at the last revision is the roster. *)
Lemma at_revision_latest owner c ch r rev m :
  rtc (room_step owner) (Room_new c ch) r -> short_log r ->
  at_revision (roster_tx r) rev m -> rev = roster_revision (guard r) -> m = roster_of (members r).
Proof.
  intros Hr Hs (k & -> & Hk & ->) E. destruct (log_ok_reachable _ _ _ _ Hr) as [Hrev _ -> _].
  unfold short_log in Hs. rewrite Hrev, Z.mod_small in E by lia. by rewrite take_ge by lia.
Qed.

Lemma follow_control owner c ch r fs rev s :
  rtc (room_step owner) (Room_new c ch) r -> short_log r -> Forall (genuine owner c ch r) fs ->
  at_revision (roster_tx r) rev (index_to_pubkey s) ->
  let '(rev', ms, _, _) := read_owner_control rev fs in
  at_revision (roster_tx r) rev' (index_to_pubkey (fold_left on_text ms s)).
Proof.
  intros Hcr Hs Hfs. revert rev s. induction Hfs as [|f fs Hf _ IH]; intros rev s Hat; [done|].
  pose proof (follow_step _ _ _ _ _ _ _ Hcr Hs Hf Hat) as Hst.
  rewrite read_owner_control_cons. cbn zeta in *.
  destruct (read_owner_step true true rev f) as [rev' ms' os [cause|]]; simpl in *; [done|].
  specialize (IH _ _ Hst). destruct (read_owner_control rev' fs) as [[[rev2 ms2] n] c'].
  by rewrite fold_left_app.
Qed.

(** C14: an ingress node that starts from a snapshot of the owner's room and then receives
    any sequence of its snapshots and deltas, in any order, some lost, some repeated, with
    any other frames between them, always shows its client exactly the roster the owner
    had at the revision the node stands at; at the owner's latest revision the client's
    map from peer index to key is the owner's roster. *)
Theorem client_roster_exact owner c ch r r0 fs s :
  rtc (room_step owner) (Room_new c ch) r0 -> rtc (room_step owner) r0 r -> short_log r ->
  Forall (genuine owner c ch r) fs ->
  index_to_pubkey s = roster_of (members r0) ->
  let '(rev, ms, _, _) := read_owner_control (roster_revision (guard r0)) fs in
  let s' := fold_left on_text ms s in
  at_revision (roster_tx r) rev (index_to_pubkey s') /\
  (rev = roster_revision (guard r) -> index_to_pubkey s' = roster_of (members r)).
Proof.
  intros H0r Hr Hs Hfs Hi.
  assert (rtc (room_step owner) (Room_new c ch) r) as Hcr by by etrans.
  pose proof (at_revision_room _ _ _ _ _ H0r Hr Hs) as Hat. rewrite <-Hi in Hat.
  pose proof (follow_control _ _ _ _ _ _ _ Hcr Hs Hfs Hat) as Hf.
  destruct (read_owner_control _ fs) as [[[rev ms] n] c']. eauto using at_revision_latest.
Qed.

(** The frames that carry the deltas of a log. *)
Definition delta_frames (ds : list RosterDelta) : list OwnerFrame :=
  (fun d => Data (Some (roster_delta_msg d))) <$> ds.

Lemma catch_up_from log j k :
  Forall delta_shape log -> (Z.of_nat (length log) < 2 ^ 64)%Z ->
  (forall k d, log !! k = Some d -> rd_revision d = (Z.of_nat (S k) mod 2 ^ 64)%Z) ->
  j <= k -> k <= length log ->
  exists ms, read_owner_control (Z.of_nat k) (delta_frames (drop j log)) =
    (Z.of_nat (length log), ms, 0, None).
Proof.
  intros Hsh Hlen Hnum. remember (length log - j) as n eqn:En. revert j k En.
  induction n as [|n IH]; intros j k En Hjk Hk.
  { rewrite drop_ge by lia. exists []. assert (k = length log) as -> by lia. done. }
  destruct (lookup_lt_is_Some_2 log j) as [d Hd]; [lia|].
  rewrite (drop_S _ d) by done. unfold delta_frames. rewrite fmap_cons, read_owner_control_cons.
  specialize (Hnum _ _ Hd) as Hdn. rewrite Z.mod_small in Hdn by lia.
  assert (delta_shape d) as Hshd by (by eapply Forall_lookup in Hsh).
  destruct (delta_cases d (Z.of_nat k) Hshd) as [(E & Hr & Ho & Hret & _)|[(_ & Hle & Hst)|(Hn & Hn2 & _)]].
  - cbn zeta. rewrite Hret, Ho, Hr, Hdn.
    assert (j = k) as ->.
    { unfold u64_wrapping_add in E. destruct (decide (Z.of_nat k + 1 = 2 ^ 64)%Z) as [Ek|].
      - rewrite Ek, Z_mod_same_full in E. lia.
      - rewrite Z.mod_small in E by lia. lia. }
    destruct (IH (S k) (S k)) as [ms E']; [lia..|]. unfold delta_frames in E'. rewrite E'.
    by eexists.
  - cbn zeta. rewrite Hst. simpl. destruct (IH (S j) k) as [ms E']; [lia..|].
    unfold delta_frames in E'. rewrite E'. by eexists.
  - exfalso. unfold u64_wrapping_add in Hn. rewrite Z.mod_small in Hn by lia. lia.
Qed.

(** An ingress node that subscribes, then takes a snapshot of the owner's room, and
    receives in order every delta published since it subscribed, reaches the owner's
    latest revision without asking for a resync or stopping, and its client then shows the
    owner's roster, the deltas the snapshot already held being ignored. *)
Theorem follower_catches_up owner c ch r r0 j s :
  rtc (room_step owner) (Room_new c ch) r0 -> rtc (room_step owner) r0 r -> short_log r ->
  j <= length (roster_tx r0) ->
  index_to_pubkey s = roster_of (members r0) ->
  exists ms,
    read_owner_control (roster_revision (guard r0)) (delta_frames (drop j (roster_tx r))) =
      (roster_revision (guard r), ms, 0, None) /\
    index_to_pubkey (fold_left on_text ms s) = roster_of (members r).
Proof.
  intros H0r Hr Hs Hj Hi.
  assert (rtc (room_step owner) (Room_new c ch) r) as Hcr by by etrans.
  destruct (log_ok_reachable _ _ _ _ Hcr) as [Hrev Hnum _ Hsh].
  destruct (log_ok_reachable _ _ _ _ H0r) as [Hrev0 _ _ _].
  destruct (log_prefix _ _ _ _ _ H0r Hr) as [ds E].
  pose proof (at_revision_room _ _ _ _ _ H0r Hr Hs) as Hat. rewrite <-Hi in Hat.
  assert (length (roster_tx r0) <= length (roster_tx r)) by (rewrite E, length_app; lia).
  unfold short_log in Hs. rewrite Z.mod_small in Hrev, Hrev0 by lia.
  destruct (catch_up_from (roster_tx r) j (length (roster_tx r0))) as [ms Hms]; try done.
  exists ms. rewrite Hrev0, Hms, Hrev. split; [done|].
  assert (Forall (genuine owner c ch r) (delta_frames (drop j (roster_tx r)))) as Hfs.
  { apply Forall_fmap, Forall_forall. intros d Hd. apply genuine_delta.
    eapply subseteq_drop, Hd. }
  pose proof (follow_control _ _ _ _ _ _ _ Hcr Hs Hfs Hat) as Hf. rewrite Hrev0, Hms in Hf.
  by eapply at_revision_latest.
Qed.
End follow.

(** ** The audio state of an index *)

Section flush.
Context {PeerSlot : Type}.
Implicit Types s : Playout PeerSlot.

(** What a message may do to the per-index state: nothing appears, and an index whose key
    changed has lost its slot and its frame count. *)
Definition flushed s s' : Prop :=
  slots s' ⊆ slots s /\ frame_counts s' ⊆ frame_counts s /\
  active_indices s' ⊆ active_indices s /\
  forall idx, index_to_pubkey s' !! idx <> index_to_pubkey s !! idx ->
    slots s' !! idx = None /\ frame_counts s' !! idx = None /\
    (is_Some (index_to_pubkey s' !! idx) -> idx ∉ active_indices s').

Lemma flushed_refl s : flushed s s.
Proof. split_and!; done. Qed.

Lemma subseteq_None {A} (m1 m2 : gmap N A) i : m1 ⊆ m2 -> m2 !! i = None -> m1 !! i = None.
Proof. intros Hs Hn. by eapply lookup_weaken_None. Qed.

Lemma flushed_trans s1 s2 s3 : flushed s1 s2 -> flushed s2 s3 -> flushed s1 s3.
Proof.
  intros (Hs & Hf & Ha & Hc) (Hs' & Hf' & Ha' & Hc'). split_and!; [by etrans..|set_solver|].
  intros idx Hne. destruct (decide (index_to_pubkey s3 !! idx = index_to_pubkey s2 !! idx)) as [E|E].
  - rewrite E in *. destruct (Hc idx Hne) as (? & ? & ?).
    split_and!; [by eapply subseteq_None..|]. intros Hsome Hin. eapply H1; eauto.
  - by apply Hc'.
Qed.

Lemma joined_step_flushed s p : flushed s (joined_step s p).
Proof.
  unfold joined_step. set (key := as_u8 _). case_bool_decide as Hk.
  - split_and!; simpl; try apply delete_subseteq; [set_solver|].
    intros idx Hne. destruct (decide (idx = key)) as [->|].
    + rewrite !lookup_delete_eq. split_and!; [done..|set_solver].
    + by rewrite lookup_insert_ne in Hne.
  - split_and!; simpl; [done..|]. intros idx Hne. exfalso. apply Hne.
    destruct (decide (idx = key)) as [->|]; [|by rewrite lookup_insert_ne].
    rewrite lookup_insert_eq. destruct (decide (index_to_pubkey s !! key = Some (re_pubkey p))); done.
Qed.

(** No text message brings audio state into being, and an index that a message gives
    to another participant, or takes away, has lost the player, the jitter buffer and the
    speech count of whoever held it before; one given to another is not shown as speaking
    either. *)
Theorem slots_never_inherited s m : flushed s (on_text s m).
Proof.
  destruct m as [rev ps|rev p ps|rev p].
  - split_and!; simpl; try apply map_filter_subseteq; [set_solver|].
    intros idx Hne. split_and!.
    + apply map_lookup_filter_None. right. intros x _ Hk. by apply Hne.
    + apply map_lookup_filter_None. right. intros x _ Hk. by apply Hne.
    + intros _ [Hk _]%elem_of_filter. by apply Hne.
  - simpl. revert s. induction ps as [|q ps IH]; intros s; [apply flushed_refl|].
    simpl. eapply flushed_trans; [apply joined_step_flushed|apply IH].
  - split_and!; simpl; try apply delete_subseteq; [done|].
    intros idx Hne. set (key := as_u8 _) in *. destruct (decide (idx = key)) as [->|].
    + rewrite !lookup_delete_eq. split_and!; [done..|]. by intros [? ?].
    + by rewrite lookup_delete_ne in Hne.
Qed.
End flush.

(** ** A concrete huddle *)

#[local] Existing Instance bytes_mpsc.
#[local] Existing Instance ctrl_mpsc.
#[local] Existing Instance map_order.

Definition playout0 (r : Room) : Playout unit :=
  {| slots := ∅; index_to_pubkey := roster_of (members r); active_indices := ∅;
     frame_counts := ∅ |}.

Lemma short_log_room3 : short_log room3.
Proof. reflexivity. Qed.

Lemma client_roster_exact_witness :
  exists m, at_revision (roster_tx room3) 2 m.
Proof.
  pose proof (client_roster_exact true 1%N 2%N room3 room2 [Data None] (playout0 room2)
    room2_reachable room3_reachable short_log_room3) as Hc.
  destruct Hc as [Hc _]; [|reflexivity|by eexists].
  apply Forall_singleton. by apply genuine_other.
Defined.

Lemma follower_catches_up_witness :
  exists ms,
    read_owner_control 2 (delta_frames (drop 1 (roster_tx room3))) = (3%Z, ms, 0, None) /\
    index_to_pubkey (fold_left on_text ms (playout0 room2)) = {[ 1%N := "bob" ]}.
Proof.
  destruct (follower_catches_up true 1%N 2%N room3 room2 1 (playout0 room2)
    room2_reachable room3_reachable short_log_room3) as (ms & Hms & Hi);
    [vm_compute; lia|reflexivity|].
  exists ms. split; [exact Hms|]. rewrite Hi. reflexivity.
Defined.
