(* ===== verification/Conformance.v ===== *)
(** * The trace conformance checker ([crates/buzz-conformance])

    The checker replays the trace a request emitted against the tenant-isolation
    specification.  The trace schema ([lib.rs]), the step check ([transitions.rs]) and the
    trace check ([checker.rs]) are modelled whole; the text of an error is kept as the
    arguments it formats ([Detail]).  The theorem at the end states the accepted traces
    without the checker's order of tests. *)

From S2P Require Import Prelude Nostr.

Definition CommunityLabel := Uuid.
Definition ChannelLabel := Uuid.
Definition OpaqueId := string.
Definition HostLabel := string.
Definition ActorLabel := string.

Definition SCHEMA_VERSION : N := 1.

Inductive Verdict := Allow | Deny.
Inductive SanitizedReason := Restricted | Invalid | ServerError.

Record AbstractState := {
  resolved_community : CommunityLabel;
  bound_host : HostLabel;
  actor : ActorLabel;
}.

Inductive TraceAction :=
| WriteInsert (msg_id : OpaqueId) (channel : ChannelLabel)
    (claimed_community : option CommunityLabel)
| WriteInsertGlobal (msg_id : OpaqueId) (claimed_community : option CommunityLabel)
| WriteDuplicate (msg_id : OpaqueId) (channel : ChannelLabel)
    (claimed_community : option CommunityLabel)
| SanitizedError (reason : SanitizedReason)
| AuthCheck (channel : ChannelLabel) (claimed_community : option CommunityLabel)
    (verdict : Verdict)
| ReadMessageRows (channel : option ChannelLabel) (row_communities : list CommunityLabel)
| ReadByIdRows (channel : option ChannelLabel) (row_communities : list CommunityLabel)
| ReadHostFeedRows (row_communities : list CommunityLabel)
| ImplBug (kind : string).

Definition action_kind (a : TraceAction) : string :=
  match a with
  | WriteInsert _ _ _ => "write_insert"
  | WriteInsertGlobal _ _ => "write_insert_global"
  | WriteDuplicate _ _ _ => "write_duplicate"
  | SanitizedError _ => "sanitized_error"
  | AuthCheck _ _ _ => "auth_check"
  | ReadMessageRows _ _ => "read_message_rows"
  | ReadByIdRows _ _ => "read_by_id_rows"
  | ReadHostFeedRows _ => "read_host_feed_rows"
  | ImplBug _ => "impl_bug"
  end.

Definition action_channel (a : TraceAction) : option ChannelLabel :=
  match a with
  | WriteInsert _ channel _ | WriteDuplicate _ channel _ | AuthCheck channel _ _ => Some channel
  | ReadMessageRows channel _ | ReadByIdRows channel _ => channel
  | WriteInsertGlobal _ _ | ReadHostFeedRows _ | SanitizedError _ | ImplBug _ => None
  end.

Record TraceStep := {
  schema_version : N;
  action : TraceAction;
  state_after : AbstractState;
}.

(** What the [detail] of an error formats. *)
Inductive Detail :=
| CommunityChanged (bootstrap step : CommunityLabel)
| HostChanged (bootstrap step : HostLabel)
| ActorChanged (bootstrap step : ActorLabel)
| AllowForeignClaim (claimed resolved : CommunityLabel)
| ForeignRow (foreign resolved : CommunityLabel)
| GuardBug (kind : string)
| EmptyTrace
| SchemaVersion (found : N)
| MissingActions (missing : gset string).

Inductive TransitionError :=
| IllegalTransition (step_index : nat) (detail : Detail)
| StateMismatch (step_index : nat) (detail : Detail)
| NonInterference (step_index : nat) (detail : Detail)
| CoverageBreach (detail : Detail).

Record ModelState := {
  m_resolved_community : CommunityLabel;
  m_bound_host : HostLabel;
  m_actor : ActorLabel;
}.

Definition bootstrap (first : AbstractState) : ModelState :=
  {| m_resolved_community := resolved_community first; m_bound_host := bound_host first;
     m_actor := actor first |}.

Definition check_row_labels (step_index : nat) (model : ModelState)
    (row_communities : list CommunityLabel) : Result unit TransitionError :=
  match find (fun c => bool_decide (c <> m_resolved_community model)) row_communities with
  | Some foreign =>
      Err (NonInterference step_index (ForeignRow foreign (m_resolved_community model)))
  | None => Ok tt
  end.

Definition check_step (step_index : nat) (model : ModelState) (step : TraceStep)
    : Result unit TransitionError :=
  let st := state_after step in
  if bool_decide (resolved_community st <> m_resolved_community model) then
    Err (StateMismatch step_index
           (CommunityChanged (m_resolved_community model) (resolved_community st)))
  else if bool_decide (bound_host st <> m_bound_host model) then
    Err (StateMismatch step_index (HostChanged (m_bound_host model) (bound_host st)))
  else if bool_decide (actor st <> m_actor model) then
    Err (StateMismatch step_index (ActorChanged (m_actor model) (actor st)))
  else
    match action step with
    | WriteInsert _ _ _ | WriteInsertGlobal _ _ | WriteDuplicate _ _ _ => Ok tt
    | SanitizedError Restricted | SanitizedError Invalid | SanitizedError ServerError => Ok tt
    | AuthCheck _ (Some c) Allow =>
        if bool_decide (c <> m_resolved_community model)
        then Err (IllegalTransition step_index
                    (AllowForeignClaim c (m_resolved_community model)))
        else Ok tt
    | AuthCheck _ _ _ => Ok tt
    | ReadMessageRows _ rows | ReadByIdRows _ rows | ReadHostFeedRows rows =>
        check_row_labels step_index model rows
    | ImplBug k => Err (CoverageBreach (GuardBug k))
    end.

Record Scenario := {
  trace : list TraceStep;
  required_critical_actions : gset string;
}.

Definition unstructured (t : list TraceStep) : Scenario :=
  {| trace := t; required_critical_actions := ∅ |}.

Definition require (s : Scenario) (kind : string) : Scenario :=
  {| trace := trace s; required_critical_actions := {[ kind ]} ∪ required_critical_actions s |}.

(** The body of the loop of [check_trace]. *)
Definition check_versioned (model : ModelState) (i : nat) (step : TraceStep)
    : Result unit TransitionError :=
  if bool_decide (schema_version step <> SCHEMA_VERSION)
  then Err (IllegalTransition i (SchemaVersion (schema_version step)))
  else check_step i model step.

Fixpoint check_steps (model : ModelState) (i : nat) (steps : list TraceStep)
    : Result unit TransitionError :=
  match steps with
  | [] => Ok tt
  | step :: steps =>
      let? _ := check_versioned model i step in check_steps model (S i) steps
  end.

Definition seen_kinds (t : list TraceStep) : gset string :=
  list_to_set ((fun s => action_kind (action s)) <$> t).

Definition check_trace (sc : Scenario) : Result unit TransitionError :=
  match trace sc with
  | [] => Err (CoverageBreach EmptyTrace)
  | first :: _ =>
      if bool_decide (schema_version first <> SCHEMA_VERSION)
      then Err (IllegalTransition 0 (SchemaVersion (schema_version first)))
      else
        let model := bootstrap (state_after first) in
        let? _ := check_steps model 0 (trace sc) in
        let missing := required_critical_actions sc ∖ seen_kinds (trace sc) in
        if bool_decide (missing = ∅) then Ok tt
        else Err (CoverageBreach (MissingActions missing))
  end.

(** ** The specification *)

(** The communities of the rows an action returned. *)
Definition row_labels (a : TraceAction) : list CommunityLabel :=
  match a with
  | ReadMessageRows _ rows | ReadByIdRows _ rows | ReadHostFeedRows rows => rows
  | _ => []
  end.

(** A step that respects the tenant [st]: it ran in [st], returned rows of its community
    only, allowed no foreign claim and is not the coverage guard's. *)
Definition confined (st : AbstractState) (s : TraceStep) : Prop :=
  schema_version s = SCHEMA_VERSION /\ state_after s = st /\
  Forall (.= resolved_community st) (row_labels (action s)) /\
  (forall ch c, action s = AuthCheck ch (Some c) Allow -> c = resolved_community st) /\
  (forall k, action s <> ImplBug k).

Lemma check_row_labels_Ok i m rows :
  check_row_labels i m rows = Ok tt <-> Forall (.= m_resolved_community m) rows.
Proof.
  unfold check_row_labels. induction rows as [|c rows IH]; simpl; [by rewrite Forall_nil|].
  rewrite Forall_cons. case_bool_decide; [naive_solver|]. rewrite IH.
  destruct (decide (c = m_resolved_community m)); naive_solver.
Qed.

(** An error is always one of the step checked. *)
Definition error_index (e : TransitionError) : option nat :=
  match e with
  | IllegalTransition i _ | StateMismatch i _ | NonInterference i _ => Some i
  | CoverageBreach _ => None
  end.

Lemma check_versioned_Ok st i s :
  check_versioned (bootstrap st) i s = Ok tt <-> confined st s.
Proof.
  unfold check_versioned, check_step, confined. destruct s as [v a [c h x]], st as [c' h' x'].
  cbn [schema_version state_after resolved_community bound_host actor bootstrap
    m_resolved_community m_bound_host m_actor action].
  assert (forall A (P : Prop) `{!Decision P} (r q : A), (if bool_decide (~ P) then r else q) =
    if decide P then q else r) as Hif.
  { intros A P ? r q. case_bool_decide; destruct (decide P); tauto. }
  rewrite !Hif. repeat (case_decide; [|by naive_solver]). simplify_eq.
  destruct a as [| | |[]|ch [cl|] []|? rows|? rows|rows|k]; cbn [row_labels];
    rewrite ?Hif, ?check_row_labels_Ok, ?Forall_nil; try case_decide; naive_solver.
Qed.

Lemma check_steps_Ok st i ss :
  check_steps (bootstrap st) i ss = Ok tt <-> Forall (confined st) ss.
Proof.
  revert i. induction ss as [|s ss IH]; intros i; simpl; [by rewrite Forall_nil|].
  rewrite result_bind_ok, Forall_cons, <-(check_versioned_Ok st i), <-(IH (S i)).
  split; [by intros ([] & ? & ?)|]. intros [? ?]. by exists tt.
Qed.

Lemma check_steps_Err m i ss e :
  check_steps m i ss = Err e <->
  exists pre s post, ss = pre ++ s :: post /\
    check_steps m i pre = Ok tt /\ check_versioned m (i + length pre) s = Err e.
Proof.
  revert i. induction ss as [|s ss IH]; intros i; simpl.
  { split; [done|]. by intros ([|] & ? & ? & ? & _). }
  rewrite result_bind_err. split.
  - intros [Hs|([] & Hs & Hr)].
    + exists [], s, ss. split_and!; [done..|]. by rewrite Nat.add_0_r.
    + apply IH in Hr as (pre & s' & post & -> & Hp & He). exists (s :: pre), s', post.
      split_and!; [done| |].
      * simpl. by rewrite Hs.
      * simpl. by rewrite <-Nat.add_succ_comm.
  - intros (pre & s' & post & E & Hp & He). destruct pre as [|s0 pre]; simplify_eq/=.
    + left. by rewrite Nat.add_0_r in He.
    + right. apply result_bind_ok in Hp as ([] & Hs & Hp). exists tt. split; [done|].
      apply IH. exists pre, s', post. split_and!; [done..|]. by rewrite Nat.add_succ_comm.
Qed.

(** C28: the checker accepts a trace exactly when it is not empty, every step ran in the
    tenant of the first one and at this schema version, every row returned is of that
    tenant's community, no authorisation was allowed on a foreign claim, no step is the
    coverage guard's, and every required action occurs; when a step breaks this, the error
    is the one of the first such step, whatever actions are required. *)
Theorem check_trace_accepts sc :
  (check_trace sc = Ok tt <->
   exists st, state_after <$> head (trace sc) = Some st /\
     Forall (confined st) (trace sc) /\ required_critical_actions sc ⊆ seen_kinds (trace sc)) /\
  (forall st pre s post, state_after <$> head (trace sc) = Some st ->
     trace sc = pre ++ s :: post -> Forall (confined st) pre -> ~ confined st s ->
     exists e, check_trace sc = Err e /\ check_versioned (bootstrap st) (length pre) s = Err e).
Proof.
  unfold check_trace. destruct (trace sc) as [|s0 ss] eqn:Et.
  { simpl. split; [naive_solver|by intros ? [|]]. }
  assert (forall i, schema_version s0 <> SCHEMA_VERSION ->
    check_versioned (bootstrap (state_after s0)) i s0 =
      Err (IllegalTransition i (SchemaVersion (schema_version s0)))) as Hv.
  { intros i Hv. unfold check_versioned. by rewrite bool_decide_true. }
  assert (forall st, state_after <$> head (s0 :: ss) = Some st -> st = state_after s0) as Hst
    by (simpl; naive_solver).
  split.
  - case_bool_decide as Hs.
    { split; [done|]. intros (st & ->%Hst & [Hc _]%Forall_cons & _). by destruct Hc. }
    rewrite result_bind_ok. split.
    + intros ([] & Hc%check_steps_Ok & Hm). case_bool_decide; [|done].
      exists (state_after s0). split_and!; [done..|].
      by apply empty_difference_subseteq_L.
    + intros (st & ->%Hst & Hc & Hm). exists tt. split; [by apply check_steps_Ok|].
      rewrite bool_decide_true; [done|].
      by apply subseteq_empty_difference_L.
  - intros st pre s post ->%Hst Esp Hpre Hs.
    destruct (check_versioned (bootstrap (state_after s0)) (length pre) s) as [[]|e] eqn:He.
    { by apply check_versioned_Ok in He. }
    exists e. split; [|done]. case_bool_decide as Hsv.
    + destruct pre as [|p pre]; simplify_eq/=.
      * by rewrite Hv in He.
      * apply Forall_cons in Hpre as [[Hp _] _]. done.
    + apply result_bind_err. left. apply check_steps_Err. exists pre, s, post.
      split_and!; [done| |done]. by apply check_steps_Ok.
Qed.
