(* ===== verification/SessionDirectory.v ===== *)
(** * The fenced session directory ([crates/buzz-relay/src/tunnel/directory.rs])

    Redis arbitrates which relay owns a tunnel session: a lease key that expires and a
    generation counter that does not.  The Lua scripts and the Rust around them are
    modelled whole, with the huddle join that consults them ([audio/join.rs],
    [resolve_join]) and the generation floor of a pod ([audio/mesh.rs]).  Redis itself is
    the interface [Redis], each script being one atomic step; a command may fail before or
    after its effect ([Conn]).  The text of an error is kept as its arguments. *)

From S2P Require Import Prelude Text Nostr.

(** ** Redis and hexadecimal strings *)

(** The commands the scripts call, the conversion of a Lua number to a string, and the
    expiry of keys as time passes. *)
Class Redis := {
  Store : Type;
  redis_empty : Store;
  GET : Store -> string -> option string;
  INCR : Store -> string -> Store * N;
  SET_PX : Store -> string -> string -> Z -> Store;
  PEXPIRE : Store -> string -> Z -> Store;
  DEL : Store -> string -> Store;
  expires : Store -> Store -> Prop;
  tostring : N -> string;
}.

Class Hex := {
  hex_encode : string -> string;
  hex_decode : string -> option string;
}.

(** ** Data *)

(** The 32 bytes of a runtime's key. *)
Definition RuntimeId := string.

Inductive Profile := ReliableStream | RealtimeMedia | HuddleControl.

Record FencedHeader := {
  fh_session_id : Uuid;
  fh_generation : N;
  fh_owner_runtime_id : RuntimeId;
}.

Record SessionLease := {
  sl_community_id : CommunityId;
  sl_session_id : Uuid;
  sl_owner_runtime_id : RuntimeId;
  sl_generation : N;
  sl_profile : Profile;
}.

Inductive AcquireResult :=
| Acquired (l : SessionLease)
| Exists (l : SessionLease).

Inductive RenewResult :=
| Renewed (l : SessionLease)
| RenewLost (current : option SessionLease) (known_generation : option N).

Inductive ReleaseResult :=
| Released (l : SessionLease)
| NotOwner (current : option SessionLease) (known_generation : option N).

Inductive DirectoryError :=
| Pool (e : string)
| RedisError (e : string)
| MalformedLease (community_id : CommunityId) (session_id : Uuid) (value : string)
| MalformedGeneration (community_id : CommunityId) (session_id : Uuid) (value : string)
| UnexpectedScriptStatus (status : string)
| InvalidLeaseTtl.

(** [MeshError] of the mesh crate.  The text of [Transport] is the failure it prints, of the
    directory or of a connection ([TransportIo]). *)
Inductive MeshError :=
| Encode (e : string)
| Decode (e : string)
| UnknownWireVersion (v : N)
| EmptyFrame
| FrameTooLarge (size max : N)
| DatagramTooLarge (size max : N)
| PeerNotConnected (runtime_id : RuntimeId)
| TransportIo (e : string)
| StaleGeneration (session_id : Uuid) (frame_generation known_generation : N)
| NoActiveLease (session_id : Uuid) (frame_generation known_generation : N)
    (frame_owner_runtime_id : RuntimeId)
| OwnerMismatch (session_id : Uuid) (generation : N)
    (frame_owner_runtime_id current_owner_runtime_id : RuntimeId)
| FutureGeneration (session_id : Uuid) (frame_generation known_generation : N)
| Transport (e : DirectoryError)
| MeshRedis (e : string).

Definition as_wire_str (p : Profile) : string :=
  match p with
  | ReliableStream => "reliable-stream"
  | RealtimeMedia => "realtime-media"
  | HuddleControl => "huddle-control"
  end.

Definition profile_from_wire (value : string) : option Profile :=
  if decide (value = "reliable-stream") then Some ReliableStream
  else if decide (value = "realtime-media") then Some RealtimeMedia
  else if decide (value = "huddle-control") then Some HuddleControl
  else None.

Definition fenced_header (l : SessionLease) : FencedHeader :=
  {| fh_session_id := sl_session_id l; fh_generation := sl_generation l;
     fh_owner_runtime_id := sl_owner_runtime_id l |}.

(** [i64::try_from(ttl.as_millis())], positive. *)
Definition ttl_ms (ttl_millis : Z) : Result Z DirectoryError :=
  if ((0 <? ttl_millis) && (ttl_millis <? 2 ^ 63))%Z then Ok ttl_millis else Err InvalidLeaseTtl.

Section directory.
Context `{NostrApi} `{Redis} `{Hex}.

Definition keys_base (c : CommunityId) (s : Uuid) : string :=
  "buzz:" ++ uuid_to_string c ++ ":tunnel:" ++ uuid_to_string s.
Definition lease_key (c : CommunityId) (s : Uuid) : string := keys_base c s ++ ":lease".
Definition generation_key (c : CommunityId) (s : Uuid) : string := keys_base c s ++ ":generation".

(** ** The Lua scripts *)

Definition Reply : Type := string * string * string.

(** [redis.call('GET', key) or d] *)
Definition get_or (st : Store) (key d : string) : string := default d (GET st key).

(** The value a lease is stored as. *)
Definition lease_value (owner : string) (generation : N) (profile : string) : string :=
  owner ++ "|" ++ tostring generation ++ "|" ++ profile.

(** [string.match(current, '^([^|]+)|([^|]+)|([^|]+)$')] *)
Definition match_lease (current : string) : option (string * string * string) :=
  match split_on "|" current with
  | [a; b; c] =>
      if decide (a <> "" /\ b <> "" /\ c <> "") then Some (a, b, c) else None
  | _ => None
  end.

Definition ACQUIRE_SCRIPT (lease generation_k owner profile : string) (ttl : Z) (st : Store)
    : Store * Reply :=
  match GET st lease with
  | Some current => (st, ("exists", current, get_or st generation_k ""))
  | None =>
      let '(st, generation) := INCR st generation_k in
      let value := lease_value owner generation profile in
      (SET_PX st lease value ttl, ("acquired", value, tostring generation))
  end.

Definition owned_by (current owner generation : string) : bool :=
  match match_lease current with
  | Some (o, g, _) => bool_decide (o = owner) && bool_decide (g = generation)
  | None => false
  end.

(** The generation a script reports beside the lease [current]. *)
Definition lost_generation (st : Store) (generation_k current : string) : string :=
  get_or st generation_k (from_option (fun m => m.1.2) "" (match_lease current)).

Definition RENEW_SCRIPT (lease generation_k owner generation : string) (ttl : Z) (st : Store)
    : Store * Reply :=
  match GET st lease with
  | None => (st, ("missing", "", get_or st generation_k ""))
  | Some current =>
      if owned_by current owner generation then
        let st := PEXPIRE st lease ttl in
        (st, ("renewed", current, lost_generation st generation_k current))
      else (st, ("lost", current, lost_generation st generation_k current))
  end.

Definition RELEASE_SCRIPT (lease generation_k owner generation : string) (st : Store)
    : Store * Reply :=
  match GET st lease with
  | None => (st, ("missing", "", get_or st generation_k ""))
  | Some current =>
      if owned_by current owner generation then
        let st := DEL st lease in
        (st, ("released", current, lost_generation st generation_k current))
      else (st, ("lost", current, lost_generation st generation_k current))
  end.

Definition VALIDATE_SCRIPT (lease generation_k : string) (st : Store) : string * string :=
  (get_or st lease "", get_or st generation_k "").

(** ** The directory *)

(** How a command goes: it runs, the pool gives no connection, or the command fails,
    having run or not. *)
Inductive Conn :=
| Up
| PoolDown (e : string)
| Broken (ran : bool) (e : string).

Definition invoke {R} (conn : Conn) (script : Store -> Store * R) (st : Store)
    : Store * Result R DirectoryError :=
  match conn with
  | Up => let '(st, r) := script st in (st, Ok r)
  | PoolDown e => (st, Err (Pool e))
  | Broken ran e => (if ran then (script st).1 else st, Err (RedisError e))
  end.

Definition parse_lease (c : CommunityId) (s : Uuid) (value : string)
    : Result SessionLease DirectoryError :=
  let malformed := Err (MalformedLease c s value) in
  match split_on "|" value with
  | [owner_hex; generation; profile] =>
      match parse_u64 generation, profile_from_wire profile, hex_decode owner_hex with
      | Some generation, Some profile, Some owner =>
          if decide (generation = 0%N) then malformed
          else if decide (String.length owner = 32) then
            Ok {| sl_community_id := c; sl_session_id := s; sl_owner_runtime_id := owner;
                  sl_generation := generation; sl_profile := profile |}
          else malformed
      | _, _, _ => malformed
      end
  | _ => malformed
  end.

Definition parse_optional_lease (c : CommunityId) (s : Uuid) (value : string)
    : Result (option SessionLease) DirectoryError :=
  if decide (value = "") then Ok None
  else let? l := parse_lease c s value in Ok (Some l).

Definition parse_optional_generation (c : CommunityId) (s : Uuid) (value : string)
    : Result (option N) DirectoryError :=
  if decide (value = "") then Ok None
  else
    match parse_u64 value with
    | Some generation =>
        if decide (generation = 0%N) then Err (MalformedGeneration c s value)
        else Ok (Some generation)
    | None => Err (MalformedGeneration c s value)
    end.

Definition acquire (lease_ttl : Z) (c : CommunityId) (s : Uuid) (owner : RuntimeId)
    (profile : Profile) (conn : Conn) (st : Store) : Store * Result AcquireResult DirectoryError :=
  match ttl_ms lease_ttl with
  | Err e => (st, Err e)
  | Ok ttl =>
      let '(st, r) := invoke conn (ACQUIRE_SCRIPT (lease_key c s) (generation_key c s)
                                     (hex_encode owner) (as_wire_str profile) ttl) st in
      (st,
       let? (status, value, _) := r in
       let? lease := parse_lease c s value in
       if decide (status = "acquired") then Ok (Acquired lease)
       else if decide (status = "exists") then Ok (Exists lease)
       else Err (UnexpectedScriptStatus status))
  end.

(** [expect] on the lease of a successful renewal or release; [None] is its panic. *)
Definition expect_lease {A} (f : SessionLease -> A) (current : option SessionLease)
    : option (Result A DirectoryError) := (fun l => Ok (f l)) <$> current.

Definition renew (lease_ttl : Z) (lease : SessionLease) (conn : Conn) (st : Store)
    : Store * option (Result RenewResult DirectoryError) :=
  let c := sl_community_id lease in
  let s := sl_session_id lease in
  match ttl_ms lease_ttl with
  | Err e => (st, Some (Err e))
  | Ok ttl =>
      let '(st, r) := invoke conn (RENEW_SCRIPT (lease_key c s) (generation_key c s)
                         (hex_encode (sl_owner_runtime_id lease))
                         (decimal (sl_generation lease)) ttl) st in
      (st,
       match r with
       | Err e => Some (Err e)
       | Ok (status, value, known_generation) =>
           match parse_optional_lease c s value with
           | Err e => Some (Err e)
           | Ok current =>
               if decide (status = "renewed") then expect_lease Renewed current
               else if decide (status = "missing" \/ status = "lost") then
                 Some (let? known := parse_optional_generation c s known_generation in
                       Ok (RenewLost current known))
               else Some (Err (UnexpectedScriptStatus status))
           end
       end)
  end.

Definition release (lease : SessionLease) (conn : Conn) (st : Store)
    : Store * option (Result ReleaseResult DirectoryError) :=
  let c := sl_community_id lease in
  let s := sl_session_id lease in
  let '(st, r) := invoke conn (RELEASE_SCRIPT (lease_key c s) (generation_key c s)
                     (hex_encode (sl_owner_runtime_id lease))
                     (decimal (sl_generation lease))) st in
  (st,
   match r with
   | Err e => Some (Err e)
   | Ok (status, value, known_generation) =>
       match parse_optional_lease c s value with
       | Err e => Some (Err e)
       | Ok current =>
           if decide (status = "released") then expect_lease Released current
           else if decide (status = "missing" \/ status = "lost") then
             Some (let? known := parse_optional_generation c s known_generation in
                   Ok (NotOwner current known))
           else Some (Err (UnexpectedScriptStatus status))
       end
   end).

Definition lookup (c : CommunityId) (s : Uuid) (conn : Conn) (st : Store)
    : Result (option SessionLease) DirectoryError :=
  let? value := (invoke conn (fun st => (st, GET st (lease_key c s))) st).2 in
  match value with
  | Some v => let? l := parse_lease c s v in Ok (Some l)
  | None => Ok None
  end.

Definition known_generation (c : CommunityId) (s : Uuid) (conn : Conn) (st : Store)
    : Result (option N) DirectoryError :=
  let? value := (invoke conn (fun st => (st, GET st (generation_key c s))) st).2 in
  match value with
  | Some v => parse_optional_generation c s v
  | None => Ok None
  end.

Definition mesh_error (e : DirectoryError) : MeshError :=
  match e with
  | RedisError e => MeshRedis e
  | e => Transport e
  end.

Definition validate_fenced_header (c : CommunityId) (fenced : FencedHeader) (conn : Conn)
    (st : Store) : Result unit MeshError :=
  let s := fh_session_id fenced in
  let? (lease_value, known) :=
    map_err mesh_error (invoke conn (fun st =>
      (st, VALIDATE_SCRIPT (lease_key c s) (generation_key c s) st)) st).2 in
  let? known_from_counter := map_err Transport (parse_optional_generation c s known) in
  let known_from_counter := default 0%N known_from_counter in
  let? current := map_err Transport (parse_optional_lease c s lease_value) in
  let known := N.max (from_option sl_generation known_from_counter current) known_from_counter in
  if ((0 <? known) && (fh_generation fenced <? known))%N then
    Err (StaleGeneration s (fh_generation fenced) known)
  else
    match current with
    | None =>
        Err (NoActiveLease s (fh_generation fenced) known (fh_owner_runtime_id fenced))
    | Some current =>
        if decide (fh_generation fenced <> sl_generation current) then
          Err (FutureGeneration s (fh_generation fenced) (sl_generation current))
        else if decide (fh_owner_runtime_id fenced <> sl_owner_runtime_id current) then
          Err (OwnerMismatch s (fh_generation fenced) (fh_owner_runtime_id fenced)
                 (sl_owner_runtime_id current))
        else Ok tt
    end.
End directory.
