(* ===== verification/SessionDirectoryProps.v ===== *)
(** * Fencing by the session directory ([SessionDirectory])

    In every state the relays can bring the directory to, a session's live lease carries
    the number of the last grant of that session.  So a frame is accepted only from the
    last owner granted, while its lease lives, and every earlier owner is fenced out. *)

From S2P Require Import Prelude Text Nostr SessionDirectory.
From Stdlib Require Import DecimalString DecimalN DecimalPos.

(** The documented behaviour of the commands: [SET .. PX] writes one key and makes it
    expire, [INCR] counts from 0 and keeps the expiry of its key, time only removes keys
    that expire; Lua prints a number below 10^14 in decimal. *)
Class RedisLaws `{Redis} := {
  volatile : Store -> string -> Prop;
  get_empty k : GET redis_empty k = None;
  volatile_empty k : ~ volatile redis_empty k;
  get_set_px s k v t k' : GET (SET_PX s k v t) k' = if decide (k = k') then Some v else GET s k';
  volatile_set_px s k v t k' : volatile (SET_PX s k v t) k' -> k = k' \/ volatile s k';
  get_pexpire s k t k' : (0 < t)%Z -> GET (PEXPIRE s k t) k' = GET s k';
  volatile_pexpire s k t k' : volatile (PEXPIRE s k t) k' -> k = k' \/ volatile s k';
  get_del s k k' : GET (DEL s k) k' = if decide (k = k') then None else GET s k';
  volatile_del s k k' : volatile (DEL s k) k' -> volatile s k';
  incr_absent s k : GET s k = None -> (INCR s k).2 = 1%N;
  incr_present s k n : GET s k = Some (decimal n) -> (n < 2 ^ 63 - 1)%N -> (INCR s k).2 = (n + 1)%N;
  get_incr s k k' :
    GET (INCR s k).1 k' = if decide (k = k') then Some (decimal (INCR s k).2) else GET s k';
  volatile_incr s k k' : volatile (INCR s k).1 k' -> volatile s k';
  get_expires s s' k : expires s s' -> GET s' k = GET s k \/ (volatile s k /\ GET s' k = None);
  volatile_expires s s' k : expires s s' -> volatile s' k -> volatile s k;
  tostring_decimal n : (n < 10 ^ 14)%N -> tostring n = decimal n;
}.

Class HexLaws `{Hex} := {
  hex_decode_encode b : hex_decode (hex_encode b) = Some b;
  hex_no_bar b : all_bytes (fun a => bool_decide (a <> "|"%char)) (hex_encode b) = true;
  hex_nonempty b : b <> "" -> hex_encode b <> "";
}.

(** A UUID prints without a colon, and differently for different UUIDs. *)
Class UuidLaws `{NostrApi} := {
  uuid_inj :: Inj (=) (=) uuid_to_string;
  uuid_no_colon u : all_bytes (fun a => bool_decide (a <> ":"%char)) (uuid_to_string u) = true;
}.

(** ** Decimal numbers *)

Definition no_bar (s : string) : Prop := all_bytes (fun a => bool_decide (a <> "|"%char)) s = true.

Definition is_digit (a : Ascii.ascii) : bool := byte_in 48 57 a.

Lemma uint_digits d : all_bytes is_digit (NilEmpty.string_of_uint d) = true.
Proof. induction d; simpl; done. Qed.

Lemma decimal_digits n : all_bytes is_digit (decimal n) = true /\ decimal n <> "".
Proof.
  unfold decimal, NilZero.string_of_uint. destruct (N.to_uint n) eqn:E; [done|..];
    rewrite <-E; (split; [apply uint_digits|rewrite E; done]).
Qed.

Lemma decimal_no_bar n : no_bar (decimal n).
Proof.
  eapply all_bytes_impl; [|apply decimal_digits]. intros a Ha.
  apply bool_decide_eq_true. intros ->. discriminate Ha.
Qed.

Lemma parse_decimal n : (n < 2 ^ 64)%N -> parse_u64 (decimal n) = Some n.
Proof.
  intros Hn. unfold parse_u64. destruct (decimal_digits n) as [Hd _].
  assert (match decimal n with String "+" rest => rest | _ => decimal n end = decimal n) as ->.
  { destruct (decimal n) as [|[[] [] [] [] [] [] [] []] s]; try reflexivity. discriminate Hd. }
  unfold decimal. rewrite NilZero.usu.
  - rewrite DecimalN.Unsigned.of_to. by rewrite (proj2 (N.ltb_lt _ _)).
  - destruct n; simpl; [done|]. apply DecimalPos.Unsigned.to_uint_nonnil.
Qed.

Lemma decimal_inj n m : decimal n = decimal m -> n = m.
Proof.
  assert (forall n, N.of_uint <$> NilZero.uint_of_string (decimal n) = Some n) as Hd.
  { intros k. unfold decimal. rewrite NilZero.usu; [simpl; by rewrite DecimalN.Unsigned.of_to|].
    destruct k; simpl; [done|]. apply DecimalPos.Unsigned.to_uint_nonnil. }
  intros E. pose proof (Hd n) as Hn. rewrite E, Hd in Hn. congruence.
Qed.

(** ** Keys *)

Section keys.
Context `{UuidLaws} `{Redis}.

(** The parts of a key. *)
Lemma key_parts c s suffix :
  all_bytes (fun a => bool_decide (a <> ":"%char)) suffix = true ->
  split_on ":" (keys_base c s ++ String ":" suffix) =
    ["buzz"; uuid_to_string c; "tunnel"; uuid_to_string s; suffix]%string.
Proof.
  intros Hs. unfold keys_base. rewrite <-!string_app_assoc.
  change ("buzz:" ++ uuid_to_string c ++ ":tunnel:" ++ uuid_to_string s ++ String ":" suffix)%string
    with (join_with ":" ["buzz"; uuid_to_string c; "tunnel"; uuid_to_string s; suffix]%string).
  apply split_on_join; [done|]. by repeat constructor; try apply uuid_no_colon.
Qed.

Lemma key_inj c s c' s' x y :
  all_bytes (fun a => bool_decide (a <> ":"%char)) x = true ->
  all_bytes (fun a => bool_decide (a <> ":"%char)) y = true ->
  (keys_base c s ++ String ":" x)%string = (keys_base c' s' ++ String ":" y)%string ->
  (c, s) = (c', s') /\ x = y.
Proof.
  intros Hx Hy E. apply (f_equal (split_on ":")) in E. rewrite !key_parts in E by done.
  injection E as ->%(inj uuid_to_string) ->%(inj uuid_to_string) ->. done.
Qed.

Lemma lease_key_inj c s c' s' : lease_key c s = lease_key c' s' -> (c, s) = (c', s').
Proof. by intros [? _]%key_inj. Qed.

Lemma generation_key_inj c s c' s' : generation_key c s = generation_key c' s' -> (c, s) = (c', s').
Proof. by intros [? _]%key_inj. Qed.

Lemma lease_generation_key c s c' s' : lease_key c s <> generation_key c' s'.
Proof. by intros [_ ?]%key_inj. Qed.
End keys.

(** ** The stored lease *)

Section lease.
Context `{NostrApi} `{RedisLaws} `{HexLaws}.

Lemma as_wire_str_no_bar p : no_bar (as_wire_str p) /\ as_wire_str p <> "".
Proof. by destruct p. Qed.

Lemma profile_round_trip p : profile_from_wire (as_wire_str p) = Some p.
Proof. by destruct p. Qed.

Lemma split_lease_value o n p :
  (n < 10 ^ 14)%N ->
  split_on "|" (lease_value (hex_encode o) n (as_wire_str p)) =
    [hex_encode o; decimal n; as_wire_str p].
Proof.
  intros Hn. unfold lease_value. rewrite tostring_decimal by done.
  change (hex_encode o ++ "|" ++ decimal n ++ "|" ++ as_wire_str p)%string
    with (join_with "|" [hex_encode o; decimal n; as_wire_str p]).
  apply split_on_join; [done|]. repeat constructor;
    [apply hex_no_bar|apply decimal_no_bar|apply as_wire_str_no_bar].
Qed.

Lemma match_lease_value o n p :
  String.length o = 32 -> (n < 10 ^ 14)%N ->
  match_lease (lease_value (hex_encode o) n (as_wire_str p)) =
    Some (hex_encode o, decimal n, as_wire_str p).
Proof.
  intros Ho Hn. unfold match_lease. rewrite split_lease_value by done.
  rewrite decide_True; [done|]. split_and!.
  - apply hex_nonempty. by intros ->.
  - apply decimal_digits.
  - apply as_wire_str_no_bar.
Qed.

Lemma parse_lease_value c s o n p :
  String.length o = 32 -> (0 < n < 10 ^ 14)%N ->
  parse_lease c s (lease_value (hex_encode o) n (as_wire_str p)) =
    Ok {| sl_community_id := c; sl_session_id := s; sl_owner_runtime_id := o;
          sl_generation := n; sl_profile := p |}.
Proof.
  intros Ho [H0n Hn]. unfold parse_lease. rewrite split_lease_value by done.
  rewrite parse_decimal, profile_round_trip, hex_decode_encode by lia.
  rewrite decide_False by lia. by rewrite decide_True.
Qed.

Lemma lease_value_nonempty o n p : lease_value o n p <> "".
Proof. unfold lease_value. by destruct o. Qed.

Lemma parse_optional_lease_value c s o n p :
  String.length o = 32 -> (0 < n < 10 ^ 14)%N ->
  parse_optional_lease c s (lease_value (hex_encode o) n (as_wire_str p)) =
    Ok (Some {| sl_community_id := c; sl_session_id := s; sl_owner_runtime_id := o;
          sl_generation := n; sl_profile := p |}).
Proof.
  intros Ho Hn. unfold parse_optional_lease.
  rewrite decide_False by apply lease_value_nonempty. by rewrite parse_lease_value.
Qed.

Lemma parse_optional_generation_decimal c s n :
  (0 < n < 2 ^ 64)%N -> parse_optional_generation c s (decimal n) = Ok (Some n).
Proof.
  intros Hn. unfold parse_optional_generation.
  rewrite decide_False by apply decimal_digits. rewrite parse_decimal by lia.
  by rewrite decide_False by lia.
Qed.
End lease.

(** ** Runs of the directory *)

(** What was granted, per session: the owners in the order of their generations. *)
Notation Grants := (gmap (CommunityId * Uuid) (list (RuntimeId * Profile))).

Definition grants_of (h : Grants) (c : CommunityId) (s : Uuid) : list (RuntimeId * Profile) :=
  default [] (h !! (c, s)).

Definition grant (h : Grants) (c : CommunityId) (s : Uuid) (o : RuntimeId) (p : Profile) : Grants :=
  <[(c, s) := grants_of h c s ++ [(o, p)]]> h.

Lemma grants_of_grant h c s o p c' s' :
  grants_of (grant h c s o p) c' s' =
  if decide ((c, s) = (c', s')) then grants_of h c s ++ [(o, p)] else grants_of h c' s'.
Proof.
  unfold grant, grants_of. rewrite lookup_insert. by case_decide.
Qed.

Section run.
Context `{UuidLaws} `{RedisLaws} `{HexLaws}.
Implicit Types st : Store.
Implicit Types h : Grants.

(** Whether a command reaches the store. *)
Definition reaches (conn : Conn) : bool :=
  match conn with Up | Broken true _ => true | _ => false end.

(** One step of the directory, by any relay for any session: an acquisition grants the
    next generation when no lease is live.  The generations of a session stay below
    10^14, which Lua prints in decimal. *)
Inductive dir_step : Store * Grants -> Store * Grants -> Prop :=
| dir_acquire st h ttl c s o p conn :
    String.length o = 32 -> (N.of_nat (length (grants_of h c s)) < 10 ^ 14 - 1)%N ->
    dir_step (st, h)
      ((acquire ttl c s o p conn st).1,
       if reaches conn && is_ok (ttl_ms ttl) && bool_decide (GET st (lease_key c s) = None)
       then grant h c s o p else h)
| dir_renew st h ttl l conn : dir_step (st, h) ((renew ttl l conn st).1, h)
| dir_release st h l conn : dir_step (st, h) ((release l conn st).1, h)
| dir_expire st h st' : expires st st' -> dir_step (st, h) (st', h).

(** A live lease is the last grant, under its number, and the counter is the number of
    grants. *)
Definition session_inv st h (c : CommunityId) (s : Uuid) : Prop :=
  let g := grants_of h c s in
  Forall (fun e => String.length e.1 = 32) g /\
  (N.of_nat (length g) < 10 ^ 14)%N /\
  GET st (generation_key c s) = (if decide (g = []) then None else Some (decimal (N.of_nat (length g)))) /\
  ~ volatile st (generation_key c s) /\
  (GET st (lease_key c s) = None \/
   exists o p, last g = Some (o, p) /\
     GET st (lease_key c s) = Some (lease_value (hex_encode o) (N.of_nat (length g)) (as_wire_str p))).

Definition dir_inv (x : Store * Grants) : Prop := forall c s, session_inv x.1 x.2 c s.

(** An effect that writes no key of the session. *)
Lemma session_inv_same st st' h c s :
  session_inv st h c s ->
  (forall k, k = lease_key c s \/ k = generation_key c s -> GET st' k = GET st k) ->
  (volatile st' (generation_key c s) -> volatile st (generation_key c s)) ->
  session_inv st' h c s.
Proof.
  intros (Ho & Hn & Hg & Hv & Hl) Hk Hv'. split_and!; [done..| | |].
  - rewrite Hk by auto. done.
  - auto.
  - rewrite Hk by auto. done.
Qed.

Lemma session_inv_deleted st st' h c s :
  session_inv st h c s ->
  GET st' (lease_key c s) = None -> GET st' (generation_key c s) = GET st (generation_key c s) ->
  (volatile st' (generation_key c s) -> volatile st (generation_key c s)) ->
  session_inv st' h c s.
Proof.
  intros (Ho & Hn & Hg & Hv & Hl) Hk Hk' Hv'. split_and!; [done..| | |].
  - by rewrite Hk'.
  - auto.
  - by left.
Qed.

(** The effect of each script on the store. *)
Lemma invoke_effect {R} conn (script : Store -> Store * R) st :
  (invoke conn script st).1 = if reaches conn then (script st).1 else st.
Proof. destruct conn as [| |[] ?]; simpl; try done. by destruct (script st). Qed.

Lemma acquire_effect ttl c s o p conn st :
  (acquire ttl c s o p conn st).1 =
  if reaches conn && is_ok (ttl_ms ttl) && bool_decide (GET st (lease_key c s) = None) then
    let '(st', n) := INCR st (generation_key c s) in
    SET_PX st' (lease_key c s) (lease_value (hex_encode o) n (as_wire_str p)) ttl
  else st.
Proof.
  unfold acquire, ttl_ms. destruct ((_ && _)%bool); simpl; [|by rewrite andb_false_r].
  destruct (invoke _ _ _) as [st' r] eqn:E. simpl.
  change st' with ((st', r).1). rewrite <-E, invoke_effect. unfold ACQUIRE_SCRIPT.
  destruct (reaches conn); simpl; [|done].
  destruct (GET st (lease_key c s)); [done|]. by destruct (INCR st _).
Qed.

Lemma renew_effect ttl l conn st :
  (renew ttl l conn st).1 = st \/
  ((0 < ttl)%Z /\
   (renew ttl l conn st).1 = PEXPIRE st (lease_key (sl_community_id l) (sl_session_id l)) ttl).
Proof.
  unfold renew, ttl_ms. destruct ((_ && _)%bool) eqn:Ht; [|by left].
  apply andb_true_iff in Ht as [Ht _]. apply Z.ltb_lt in Ht.
  destruct (invoke _ _ _) as [st' r] eqn:E. simpl.
  change st' with ((st', r).1). rewrite <-E, invoke_effect. unfold RENEW_SCRIPT.
  destruct (reaches conn); simpl; [|by left].
  destruct (GET st _); simpl; [|by left]. destruct (owned_by _ _ _); simpl; auto.
Qed.

Lemma release_effect l conn st :
  (release l conn st).1 = st \/
  (release l conn st).1 = DEL st (lease_key (sl_community_id l) (sl_session_id l)).
Proof.
  unfold release. destruct (invoke _ _ _) as [st' r] eqn:E. simpl.
  change st' with ((st', r).1). rewrite <-E, invoke_effect. unfold RELEASE_SCRIPT.
  destruct (reaches conn); simpl; [|by left].
  destruct (GET st _); simpl; [|by left]. destruct (owned_by _ _ _); simpl; auto.
Qed.

(** A grant makes the new owner's lease live under the next number. *)
Lemma session_inv_grant st h ttl c s o p c' s' :
  dir_inv (st, h) -> String.length o = 32 ->
  (N.of_nat (length (grants_of h c s)) < 10 ^ 14 - 1)%N ->
  let '(st1, n) := INCR st (generation_key c s) in
  session_inv (SET_PX st1 (lease_key c s) (lease_value (hex_encode o) n (as_wire_str p)) ttl)
    (grant h c s o p) c' s'.
Proof.
  intros Hinv Ho Hlt. destruct (INCR st (generation_key c s)) as [st1 n] eqn:Ei.
  assert (n = N.of_nat (S (length (grants_of h c s)))) as Hn.
  { destruct (Hinv c s) as (_ & _ & Hg & _). simpl in Hg. change n with ((st1, n).2). rewrite <-Ei.
    case_decide as Hnil.
    - rewrite incr_absent by done. by rewrite Hnil.
    - rewrite (incr_present _ _ _ Hg) by lia. lia. }
  assert (forall k, GET st1 k = if decide (generation_key c s = k) then Some (decimal n) else GET st k)
    as Hget by (intros k; pose proof (get_incr st (generation_key c s) k) as E; by rewrite Ei in E).
  assert (forall k, volatile st1 k -> volatile st k) as Hvol
    by (intros k; pose proof (volatile_incr st (generation_key c s) k) as E; by rewrite Ei in E).
  destruct (decide ((c, s) = (c', s'))) as [[= <- <-]|Hne].
  - destruct (Hinv c s) as (Hg32 & _ & _ & Hv & _). simpl in Hg32, Hv.
    unfold session_inv. rewrite grants_of_grant, decide_True by done. rewrite length_app, Nat.add_1_r.
    rewrite !get_set_px, !Hget. rewrite <-Hn. split_and!.
    + apply Forall_app. split; [done|]. by repeat constructor.
    + lia.
    + rewrite decide_False by apply lease_generation_key. rewrite decide_True by done.
      rewrite decide_False; [done|]. by intros [_ [=]]%app_nil.
    + intros [E|?%Hvol]%volatile_set_px; [by eapply lease_generation_key|done].
    + right. exists o, p. rewrite last_snoc, decide_True by done. done.
  - apply session_inv_same with st.
    + pose proof (Hinv c' s') as Hi. unfold session_inv in *. simpl in Hi.
      rewrite grants_of_grant, decide_False by done. exact Hi.
    + intros k Hk. rewrite get_set_px, Hget.
      rewrite !decide_False; [done|..]; destruct Hk as [-> | ->]; intros E.
      * symmetry in E. by eapply lease_generation_key.
      * by apply generation_key_inj in E.
      * by apply lease_key_inj in E.
      * by eapply lease_generation_key.
    + intros [E|?]%volatile_set_px; [by eapply lease_generation_key in E|auto].
Qed.

Lemma dir_inv_step x y : dir_step x y -> dir_inv x -> dir_inv y.
Proof.
  intros Hs Hinv c' s'. destruct Hs as [st h ttl c s o p conn Ho Hlt|st h ttl l conn|st h l conn|st h st' He].
  - simpl. rewrite acquire_effect. destruct (_ && _); [|apply Hinv].
    pose proof (session_inv_grant st h ttl c s o p c' s' Hinv Ho Hlt) as Hg.
    by destruct (INCR st _).
  - simpl. destruct (renew_effect ttl l conn st) as [->|[Ht ->]]; [apply Hinv|].
    apply session_inv_same with st; [apply Hinv| |].
    + intros k _. by apply get_pexpire.
    + intros [E|?]%volatile_pexpire; [by eapply lease_generation_key in E|done].
  - simpl. destruct (release_effect l conn st) as [->| ->]; [apply Hinv|].
    set (c := sl_community_id l). set (s := sl_session_id l).
    assert (GET (DEL st (lease_key c s)) (generation_key c' s') = GET st (generation_key c' s')) as Hgk
      by (rewrite get_del, decide_False; [done|apply lease_generation_key]).
    destruct (decide ((c, s) = (c', s'))) as [[= -> ->]|Hne].
    + apply session_inv_deleted with st; [apply Hinv| |done|apply volatile_del].
      by rewrite get_del, decide_True.
    + apply session_inv_same with st; [apply Hinv| |apply volatile_del].
      intros k [-> | ->]; [|done]. rewrite get_del, decide_False; [done|].
      by intros ?%lease_key_inj.
  - simpl. pose proof (Hinv c' s') as Hi. simpl in Hi. pose proof Hi as (_ & _ & _ & Hv & _).
    assert (GET st' (generation_key c' s') = GET st (generation_key c' s')) as Hgk.
    { destruct (get_expires _ _ (generation_key c' s') He) as [|[? _]]; done. }
    destruct (get_expires _ _ (lease_key c' s') He) as [E|[_ E]].
    + apply session_inv_same with st; [done| |by eapply volatile_expires].
      by intros k [-> | ->].
    + apply session_inv_deleted with st; [done|done|done|by eapply volatile_expires].
Qed.

Lemma dir_inv_reachable x : rtc dir_step (redis_empty, ∅) x -> dir_inv x.
Proof.
  revert x. apply rtc_ind_r; [|eauto using dir_inv_step].
  intros c s. unfold session_inv, grants_of; simpl. rewrite lookup_empty. simpl. split_and!.
  - constructor.
  - lia.
  - apply get_empty.
  - apply volatile_empty.
  - left. apply get_empty.
Qed.

(** The grants of a session are only ever appended to. *)
Lemma grants_step x y c s :
  dir_step x y -> grants_of x.2 c s `prefix_of` grants_of y.2 c s.
Proof.
  intros Hs. destruct Hs as [st h ttl c' s' o p conn Ho Hlt| | |]; simpl; try done.
  destruct (_ && _); [|done]. rewrite grants_of_grant. case_decide; [|done].
  simplify_eq. by eexists.
Qed.

Lemma grants_run x y c s :
  rtc dir_step x y -> grants_of x.2 c s `prefix_of` grants_of y.2 c s.
Proof. induction 1 as [|x y z Hs _ IH]; [done|]. etrans; [by apply grants_step|exact IH]. Qed.

(** ** What the operations answer in such states *)

(** The lease of the last grant. *)
Definition lease_of (c : CommunityId) (s : Uuid) (g : list (RuntimeId * Profile))
    : option SessionLease :=
  (fun e => {| sl_community_id := c; sl_session_id := s; sl_owner_runtime_id := e.1;
               sl_generation := N.of_nat (length g); sl_profile := e.2 |}) <$> last g.

(** The live lease. *)
Definition live st h (c : CommunityId) (s : Uuid) : option SessionLease :=
  if decide (GET st (lease_key c s) = None) then None else lease_of c s (grants_of h c s).

Lemma inv_live st h c s :
  session_inv st h c s ->
  (GET st (lease_key c s) = None /\ live st h c s = None) \/
  exists l v, live st h c s = Some l /\ GET st (lease_key c s) = Some v /\
    String.length (sl_owner_runtime_id l) = 32 /\
    (0 < sl_generation l < 10 ^ 14)%N /\ sl_community_id l = c /\ sl_session_id l = s /\
    sl_generation l = N.of_nat (length (grants_of h c s)) /\
    v = lease_value (hex_encode (sl_owner_runtime_id l)) (sl_generation l) (as_wire_str (sl_profile l)) /\
    parse_lease c s v = Ok l /\ parse_optional_lease c s v = Ok (Some l).
Proof.
  intros (H32 & Hn & _ & _ & [Hl|(o & p & Hlast & Hl)]); unfold live; rewrite Hl; [by left|right].
  rewrite decide_False by done. unfold lease_of. rewrite Hlast.
  apply last_Some in Hlast as [g' Hg]. assert (String.length o = 32) as Ho.
  { rewrite Hg in H32. apply Forall_app in H32 as [_ H32]. by inversion H32. }
  assert (0 < N.of_nat (length (grants_of h c s)))%N by (rewrite Hg, length_app; simpl; lia).
  eexists _, _. split; [reflexivity|]. simpl.
  split_and!; try done; [by apply parse_lease_value|by apply parse_optional_lease_value].
Qed.

(** The counter as the operations read it. *)
Lemma inv_counter st h c s :
  session_inv st h c s ->
  parse_optional_generation c s (get_or st (generation_key c s) "") =
    Ok (if decide (grants_of h c s = []) then None else Some (N.of_nat (length (grants_of h c s)))).
Proof.
  intros (_ & Hn & Hg & _ & _). unfold get_or. rewrite Hg. case_decide as E; [done|]. simpl.
  apply parse_optional_generation_decimal. destruct (grants_of h c s); [done|]. simpl in *. lia.
Qed.

(** ** Validation *)

Lemma validate_spec st h c f :
  session_inv st h c (fh_session_id f) ->
  let s := fh_session_id f in
  let n := N.of_nat (length (grants_of h c s)) in
  validate_fenced_header c f Up st =
  if (fh_generation f <? n)%N then Err (StaleGeneration s (fh_generation f) n)
  else match live st h c s with
       | None => Err (NoActiveLease s (fh_generation f) n (fh_owner_runtime_id f))
       | Some l =>
           if decide (fh_generation f <> n) then Err (FutureGeneration s (fh_generation f) n)
           else if decide (fh_owner_runtime_id f <> sl_owner_runtime_id l)
           then Err (OwnerMismatch s (fh_generation f) (fh_owner_runtime_id f) (sl_owner_runtime_id l))
           else Ok tt
       end.
Proof.
  intros Hinv s n. unfold validate_fenced_header, VALIDATE_SCRIPT.
  cbn [invoke map_err result_bind snd]. fold s in Hinv |- *.
  rewrite (inv_counter _ _ _ _ Hinv). cbn [map_err result_bind].
  assert (default 0%N (if decide (grants_of h c s = []) then None
                       else Some (N.of_nat (length (grants_of h c s)))) = n) as ->.
  { case_decide as E; [|done]. unfold n. by rewrite E. }
  unfold get_or. destruct (inv_live _ _ _ _ Hinv) as [[Hk Hl]|(l & v & Hl & Hk & H32 & Hgen & _ & _ & Hn & _ & _ & Hp)];
    rewrite Hk, Hl; simpl.
  - rewrite N.max_id. destruct (fh_generation f <? n)%N eqn:E; [|by rewrite andb_false_r].
    apply N.ltb_lt in E. by rewrite (proj2 (N.ltb_lt _ _)) by lia.
  - rewrite Hp. simpl. fold n in Hn. rewrite Hn, N.max_id.
    rewrite (proj2 (N.ltb_lt _ _)) by lia. done.
Qed.

Lemma live_header st h c s l f :
  session_inv st h c s -> live st h c s = Some l ->
  fh_session_id f = s ->
  (f = fenced_header l <->
   fh_generation f = N.of_nat (length (grants_of h c s)) /\
   fh_owner_runtime_id f = sl_owner_runtime_id l).
Proof.
  intros Hinv Hl Hs. destruct (inv_live _ _ _ _ Hinv) as [[_ E]|(l' & v & E & _ & _ & _ & _ & Hsl & Hn & _)];
    rewrite Hl in E; [done|]. injection E as <-. unfold fenced_header. destruct f as [s' g o]; simpl in *.
  rewrite Hn, Hsl. subst. naive_solver.
Qed.

Lemma validate_accepts st h c f :
  session_inv st h c (fh_session_id f) ->
  validate_fenced_header c f Up st = Ok tt <->
  exists l, live st h c (fh_session_id f) = Some l /\ f = fenced_header l.
Proof.
  intros Hinv. rewrite (validate_spec _ _ _ _ Hinv). cbn zeta. split.
  - destruct (_ <? _)%N; [done|]. destruct (live _ _ _ _) as [l|] eqn:Hl; [|done].
    case_decide as Hg; [done|]. case_decide as Ho; [done|]. intros _. exists l. split; [done|].
    apply (live_header _ _ _ _ _ _ Hinv Hl); [done|]. done.
  - intros (l & Hl & Hf). rewrite Hl. apply (live_header _ _ _ _ _ _ Hinv Hl) in Hf as [Hg Ho]; [|done].
    rewrite (proj2 (N.ltb_ge _ _)) by lia. by repeat (case_decide; [tauto|]).
Qed.

(** The grant behind a live lease. *)
Lemma live_grant st h c s l :
  live st h c s = Some l ->
  last (grants_of h c s) = Some (sl_owner_runtime_id l, sl_profile l) /\
  sl_generation l = N.of_nat (length (grants_of h c s)).
Proof.
  unfold live, lease_of. case_decide; [done|]. destruct (last _) as [[o p]|]; [|done].
  by intros [= <-].
Qed.

(** C4: a session frame is accepted exactly when its generation and owner are those of the
    lease now live in Redis, whatever relays acquired, renewed and released, whatever
    leases expired and whatever replies were lost before; the generations accepted for a
    session never go back, no generation is ever accepted from two different owners, and
    as soon as a newer owner was granted the session every frame of an older generation is
    rejected as stale. *)
Theorem directory_fencing st h st' h' c :
  rtc dir_step (redis_empty, ∅) (st, h) -> rtc dir_step (st, h) (st', h') ->
  (forall f, validate_fenced_header c f Up st' = Ok tt <->
     exists l, live st' h' c (fh_session_id f) = Some l /\ f = fenced_header l) /\
  (forall f f', fh_session_id f = fh_session_id f' ->
     validate_fenced_header c f Up st = Ok tt -> validate_fenced_header c f' Up st' = Ok tt ->
     (fh_generation f <= fh_generation f')%N /\
     (fh_generation f = fh_generation f' -> fh_owner_runtime_id f = fh_owner_runtime_id f')) /\
  (forall f, validate_fenced_header c f Up st = Ok tt ->
     grants_of h' c (fh_session_id f) <> grants_of h c (fh_session_id f) ->
     exists known, (fh_generation f < known)%N /\
       validate_fenced_header c f Up st' =
         Err (StaleGeneration (fh_session_id f) (fh_generation f) known)).
Proof.
  intros Hr Hr'. assert (rtc dir_step (redis_empty, ∅) (st', h')) as Hr2 by by etrans.
  assert (forall c s, session_inv st h c s) as Hinv by exact (dir_inv_reachable _ Hr).
  assert (forall c s, session_inv st' h' c s) as Hinv' by exact (dir_inv_reachable _ Hr2).
  assert (forall f, validate_fenced_header c f Up st = Ok tt ->
    fh_generation f = N.of_nat (length (grants_of h c (fh_session_id f))) /\
    exists p, last (grants_of h c (fh_session_id f)) = Some (fh_owner_runtime_id f, p)) as Hacc.
  { intros f (l & Hl & Hf)%(validate_accepts _ _ _ _ (Hinv c _)).
    apply live_grant in Hl as [Hl Hn].
    assert (fh_generation f = sl_generation l) as -> by (by rewrite Hf).
    assert (fh_owner_runtime_id f = sl_owner_runtime_id l) as -> by (by rewrite Hf). eauto. }
  split_and!.
  - intros f. apply (validate_accepts _ _ _ _ (Hinv' c _)).
  - intros f f' Hs [Hg [p Hp]]%Hacc (l & Hl & Hf')%(validate_accepts _ _ _ _ (Hinv' c _)).
    apply live_grant in Hl as [Hl Hn]. rewrite <-Hs in Hl, Hn.
    destruct (grants_run _ _ c (fh_session_id f) Hr') as [ext Hext]; simpl in Hext.
    rewrite Hext in Hl, Hn. rewrite length_app in Hn.
    assert (fh_generation f' = sl_generation l) as -> by (by rewrite Hf').
    assert (fh_owner_runtime_id f' = sl_owner_runtime_id l) as -> by (by rewrite Hf').
    rewrite Hg, Hn. split; [lia|]. intros E. destruct ext; [|simpl in E; lia].
    rewrite app_nil_r, Hp in Hl. by simplify_eq.
  - intros f [Hg _]%Hacc Hne. rewrite (validate_spec _ _ _ _ (Hinv' c _)). cbn zeta.
    destruct (grants_run _ _ c (fh_session_id f) Hr') as [ext Hext]; simpl in *.
    assert (0 < length ext) as Hlen.
    { destruct ext; simpl; [|lia]. by rewrite app_nil_r in Hext. }
    assert (fh_generation f < N.of_nat (length (grants_of h' c (fh_session_id f))))%N as Hlt
      by (rewrite Hext, length_app, Hg; lia).
    rewrite (proj2 (N.ltb_lt _ _)) by done. eauto.
Qed.

(** ** Acquisition, renewal and release *)

Lemma hex_encode_inj a b : hex_encode a = hex_encode b -> a = b.
Proof. intros E. apply (f_equal hex_decode) in E. rewrite !hex_decode_encode in E. congruence. Qed.

(** The caller's lease is the one live. *)
Definition holds st h (l : SessionLease) : option SessionLease :=
  match live st h (sl_community_id l) (sl_session_id l) with
  | Some l' =>
      if decide (sl_owner_runtime_id l' = sl_owner_runtime_id l /\ sl_generation l' = sl_generation l)
      then Some l' else None
  | None => None
  end.

Lemma owned_by_value l l' :
  String.length (sl_owner_runtime_id l') = 32 -> (sl_generation l' < 10 ^ 14)%N ->
  (sl_generation l < 2 ^ 64)%N ->
  owned_by (lease_value (hex_encode (sl_owner_runtime_id l')) (sl_generation l') (as_wire_str (sl_profile l')))
    (hex_encode (sl_owner_runtime_id l)) (decimal (sl_generation l)) =
  bool_decide (sl_owner_runtime_id l' = sl_owner_runtime_id l /\ sl_generation l' = sl_generation l).
Proof.
  intros Ho Hn Hn'. unfold owned_by. rewrite match_lease_value by done.
  rewrite bool_decide_and. f_equal; apply bool_decide_ext.
  - split; [apply hex_encode_inj|by intros ->].
  - split; [apply decimal_inj|by intros ->].
Qed.

Lemma lost_generation_value st h c s l :
  session_inv st h c s -> live st h c s = Some l ->
  forall st' v, GET st' (generation_key c s) = GET st (generation_key c s) ->
  lost_generation st' (generation_key c s) v = get_or st (generation_key c s) "".
Proof.
  intros (_ & _ & Hg & _) Hl st' v E. apply live_grant in Hl as [Hl _].
  unfold lost_generation, get_or. rewrite E, Hg. rewrite decide_False; [done|].
  intros Hn. by rewrite Hn in Hl.
Qed.

(** The counter as a lost renewal or release reports it. *)
Definition known st h c s : option N :=
  if decide (grants_of h c s = []) then None else Some (N.of_nat (length (grants_of h c s))).

Lemma ttl_ok ttl : (0 < ttl < 2 ^ 63)%Z -> ttl_ms ttl = Ok ttl.
Proof.
  intros [? ?]. unfold ttl_ms.
  by rewrite (proj2 (Z.ltb_lt _ _)), (proj2 (Z.ltb_lt _ _)) by done.
Qed.

Lemma lookup_live st h c s : session_inv st h c s -> lookup c s Up st = Ok (live st h c s).
Proof.
  intros Hinv. unfold lookup. simpl.
  destruct (inv_live _ _ _ _ Hinv) as [[-> ->]|(l & v & -> & -> & _ & _ & _ & _ & _ & _ & Hp & _)];
    simpl; [done|]. by rewrite Hp.
Qed.

Lemma incr_grant st h c s :
  session_inv st h c s -> (N.of_nat (length (grants_of h c s)) < 10 ^ 14 - 1)%N ->
  (INCR st (generation_key c s)).2 = N.of_nat (S (length (grants_of h c s))).
Proof.
  intros (_ & _ & Hg & _) Hlt. case_decide as Hnil.
  - rewrite incr_absent by done. by rewrite Hnil.
  - rewrite (incr_present _ _ _ Hg) by lia. lia.
Qed.

Lemma acquire_live st h ttl c s o p l' :
  session_inv st h c s -> (0 < ttl < 2 ^ 63)%Z -> live st h c s = Some l' ->
  acquire ttl c s o p Up st = (st, Ok (Exists l')).
Proof.
  intros Hinv Ht Hl. unfold acquire. rewrite ttl_ok by done. simpl. unfold ACQUIRE_SCRIPT.
  destruct (inv_live _ _ _ _ Hinv) as [[_ E]|(l & v & E & -> & _ & _ & _ & _ & _ & _ & Hp & _)];
    rewrite Hl in E; [done|]. injection E as <-. simpl. by rewrite Hp.
Qed.

Lemma acquire_grant st h ttl c s o p :
  session_inv st h c s -> (0 < ttl < 2 ^ 63)%Z -> String.length o = 32 ->
  (N.of_nat (length (grants_of h c s)) < 10 ^ 14 - 1)%N -> live st h c s = None ->
  exists st',
    let l' := {| sl_community_id := c; sl_session_id := s; sl_owner_runtime_id := o;
                 sl_generation := N.of_nat (S (length (grants_of h c s))); sl_profile := p |} in
    acquire ttl c s o p Up st = (st', Ok (Acquired l')) /\
    live st' (grant h c s o p) c s = Some l'.
Proof.
  intros Hinv Ht Ho Hlt Hl. unfold acquire. rewrite ttl_ok by done. simpl. unfold ACQUIRE_SCRIPT.
  destruct (inv_live _ _ _ _ Hinv) as [[-> _]|(l & v & E & _)]; [|by rewrite Hl in E].
  pose proof (incr_grant _ _ _ _ Hinv Hlt) as Hn.
  destruct (INCR st (generation_key c s)) as [st1 n]. simpl in Hn. subst n. simpl.
  eexists. split.
  - rewrite parse_lease_value by (done || lia). done.
  - unfold live. rewrite get_set_px, (decide_True (P := lease_key c s = lease_key c s)) by done.
    rewrite decide_False by done.
    unfold lease_of. rewrite grants_of_grant, decide_True by done.
    rewrite last_snoc, length_app, Nat.add_1_r. done.
Qed.

Lemma lost_answers st h c s :
  session_inv st h c s -> live st h c s = None ->
  GET st (lease_key c s) = None.
Proof.
  intros Hinv Hl. destruct (inv_live _ _ _ _ Hinv) as [[? _]|(l & v & E & _)]; [done|].
  by rewrite Hl in E.
Qed.

Lemma renew_release_held st h ttl l l' :
  session_inv st h (sl_community_id l) (sl_session_id l) -> (0 < ttl < 2 ^ 63)%Z ->
  (sl_generation l < 2 ^ 64)%N -> holds st h l = Some l' ->
  (renew ttl l Up st).2 = Some (Ok (Renewed l')) /\
  (release l Up st).2 = Some (Ok (Released l')) /\
  live (release l Up st).1 h (sl_community_id l) (sl_session_id l) = None.
Proof.
  unfold holds. set (c := sl_community_id l). set (s := sl_session_id l). intros Hinv Ht Hg Hh.
  destruct (inv_live _ _ _ _ Hinv) as [[_ E]|(l1 & v & Hl & Hk & Ho & Hn & _ & _ & _ & Hv & _ & Hp)];
    [by rewrite E in Hh|]. rewrite Hl in Hh. case_decide as Hown; [|done]. injection Hh as ->.
  pose proof (owned_by_value l l' Ho (proj2 Hn) Hg) as Hob. rewrite <-Hv in Hob.
  rewrite bool_decide_true in Hob by done.
  unfold renew, release. fold c s. rewrite ttl_ok by done. simpl.
  unfold RENEW_SCRIPT, RELEASE_SCRIPT. rewrite Hk, Hob. simpl. rewrite Hp. simpl.
  split_and!; [done..|]. unfold live. rewrite get_del.
  rewrite (decide_True (P := lease_key c s = lease_key c s)) by done. by rewrite decide_True by done.
Qed.

Lemma renew_release_lost st h ttl l :
  session_inv st h (sl_community_id l) (sl_session_id l) -> (0 < ttl < 2 ^ 63)%Z ->
  (sl_generation l < 2 ^ 64)%N -> holds st h l = None ->
  let cur := live st h (sl_community_id l) (sl_session_id l) in
  let kn := known st h (sl_community_id l) (sl_session_id l) in
  renew ttl l Up st = (st, Some (Ok (RenewLost cur kn))) /\
  release l Up st = (st, Some (Ok (NotOwner cur kn))).
Proof.
  unfold holds. set (c := sl_community_id l). set (s := sl_session_id l). intros Hinv Ht Hg Hh.
  pose proof (inv_counter _ _ _ _ Hinv) as Hcnt. fold (known st h c s) in Hcnt.
  unfold renew, release. fold c s. rewrite ttl_ok by done. simpl.
  unfold RENEW_SCRIPT, RELEASE_SCRIPT.
  destruct (inv_live _ _ _ _ Hinv) as [[Hk Hl]|(l1 & v & Hl & Hk & Ho & Hn & _ & _ & _ & Hv & _ & Hp)];
    rewrite Hk, Hl in *; simpl.
  - rewrite Hcnt. done.
  - case_decide as Hown; [done|].
    pose proof (owned_by_value l l1 Ho (proj2 Hn) Hg) as Hob. rewrite <-Hv in Hob.
    rewrite bool_decide_false in Hob by done. rewrite Hob. simpl.
    rewrite (lost_generation_value _ _ _ _ _ Hinv Hl) by done. by rewrite Hp, Hcnt.
Qed.

(** C34: with Redis reachable, the directory answers as one owner register per session:
    acquiring returns the live lease if there is one and otherwise grants the caller the
    next generation; renewing and releasing succeed exactly for the owner and generation
    of the live lease, the release leaving none, and otherwise change nothing and report
    the live lease and the last generation; no stored value is ever malformed. *)
Theorem directory_answers st h ttl c s o p l :
  rtc dir_step (redis_empty, ∅) (st, h) -> (0 < ttl < 2 ^ 63)%Z ->
  String.length o = 32 -> (N.of_nat (length (grants_of h c s)) < 10 ^ 14 - 1)%N ->
  (sl_generation l < 2 ^ 64)%N ->
  lookup c s Up st = Ok (live st h c s) /\
  (match live st h c s with
   | Some l' => acquire ttl c s o p Up st = (st, Ok (Exists l'))
   | None => exists st',
       let l' := {| sl_community_id := c; sl_session_id := s; sl_owner_runtime_id := o;
                    sl_generation := N.of_nat (S (length (grants_of h c s))); sl_profile := p |} in
       acquire ttl c s o p Up st = (st', Ok (Acquired l')) /\
       live st' (grant h c s o p) c s = Some l'
   end) /\
  (match holds st h l with
   | Some l' =>
       (renew ttl l Up st).2 = Some (Ok (Renewed l')) /\
       (release l Up st).2 = Some (Ok (Released l')) /\
       live (release l Up st).1 h (sl_community_id l) (sl_session_id l) = None
   | None =>
       let cur := live st h (sl_community_id l) (sl_session_id l) in
       let kn := known st h (sl_community_id l) (sl_session_id l) in
       renew ttl l Up st = (st, Some (Ok (RenewLost cur kn))) /\
       release l Up st = (st, Some (Ok (NotOwner cur kn)))
   end).
Proof.
  intros Hr Ht Ho Hlt Hg.
  assert (forall c s, session_inv st h c s) as Hinv by exact (dir_inv_reachable _ Hr).
  split_and!; [by apply lookup_live| |].
  - destruct (live st h c s) eqn:Hl; [by eapply acquire_live|by apply acquire_grant].
  - destruct (holds st h l) eqn:Hh; [by apply renew_release_held|by apply renew_release_lost].
Qed.
End run.

(** ** A concrete Redis *)

(** Keys with their values and whether they expire. *)
Definition toy_redis : Redis :=
  {| Store := gmap string (string * bool);
     redis_empty := ∅;
     GET m k := fst <$> m !! k;
     INCR m k :=
       let n := (default 0 (v ← m !! k; parse_u64 v.1) + 1)%N in
       (<[k := (decimal n, from_option snd false (m !! k))]> m, n);
     SET_PX m k v _ := <[k := (v, true)]> m;
     PEXPIRE m k _ := alter (fun v => (v.1, true)) k m;
     DEL m k := delete k m;
     expires m m' := forall k, m' !! k = m !! k \/ (exists v, m !! k = Some (v, true) /\ m' !! k = None);
     tostring := decimal |}.

Definition toy_hex : Hex := {| hex_encode := bytes_to_hex; hex_decode := hex_to_bytes |}.

(** The UUIDs in decimal. *)
Definition uuid_api : NostrApi :=
  {| EventId := @EventId nostr_api; event_id_to_hex := @event_id_to_hex nostr_api;
     uuid_to_string := decimal; letter_to_string := @letter_to_string nostr_api;
     tag_kind := @tag_kind nostr_api; tag_content := @tag_content nostr_api |}.

Lemma bytes_to_hex_no_bar s : no_bar (bytes_to_hex s).
Proof.
  unfold no_bar. induction s as [|a s IH]; [done|]. cbn [bytes_to_hex all_bytes].
  rewrite IH. assert (forall n, (n < 16)%N -> hex_digit n <> "|"%char) as Hd.
  { intros n Hn E. apply (f_equal unhex_digit) in E. by rewrite unhex_hex_digit in E. }
  pose proof (Ascii.N_ascii_bounded a) as Ha.
  rewrite !bool_decide_true; [done| |];
    apply Hd; [apply N.mod_lt; lia|apply N.Div0.div_lt_upper_bound; lia].
Qed.

Definition toy_hex_laws : @HexLaws toy_hex.
Proof.
  split; simpl.
  - apply hex_bytes_round_trip.
  - apply bytes_to_hex_no_bar.
  - by intros [|a b].
Defined.

Definition uuid_laws : @UuidLaws uuid_api.
Proof.
  split; simpl.
  - intros u v. apply decimal_inj.
  - intros u. eapply all_bytes_impl; [|apply decimal_digits]. intros a Ha.
    apply bool_decide_eq_true. intros ->. discriminate Ha.
Defined.

(** Unsigned 64-bit numbers as Redis reads them back. *)
Lemma toy_incr_present (m : gmap string (string * bool)) k n :
  fst <$> m !! k = Some (decimal n) -> (n < 2 ^ 63 - 1)%N ->
  (default 0 (v ← m !! k; parse_u64 v.1) + 1)%N = (n + 1)%N.
Proof.
  destruct (m !! k) as [[v b]|]; [|done]. intros [= ->] Hn. simpl. by rewrite parse_decimal by lia.
Qed.

Definition toy_volatile (m : gmap string (string * bool)) (k : string) : Prop :=
  exists v, m !! k = Some (v, true).

Definition toy_redis_laws : @RedisLaws toy_redis.
Proof.
  refine (@Build_RedisLaws toy_redis toy_volatile _ _ _ _ _ _ _ _ _ _ _ _ _ _ _);
    simpl; unfold toy_volatile.
  - intros k. by rewrite lookup_empty.
  - intros k [v Hv]. by rewrite lookup_empty in Hv.
  - intros m k v _ k'. rewrite lookup_insert. by case_decide.
  - intros m k v _ k'. rewrite lookup_insert. case_decide; auto.
  - intros m k t k' _. destruct (decide (k = k')) as [->|].
    + rewrite lookup_alter_eq. by destruct (m !! k').
    + by rewrite lookup_alter_ne.
  - intros m k _ k'. destruct (decide (k = k')); [by left|]. rewrite lookup_alter_ne by done. auto.
  - intros m k k'. rewrite lookup_delete. by case_decide.
  - intros m k k'. rewrite lookup_delete. case_decide; [by intros [? ?]|done].
  - intros m k Hk. by destruct (m !! k).
  - intros m k n. apply toy_incr_present.
  - intros m k k'. rewrite lookup_insert. by case_decide.
  - intros m k k'. rewrite lookup_insert. case_decide as E; [|done]. subst.
    intros [v Hv]. destruct (m !! k') as [[w b]|]; simplify_eq/=. by exists w.
  - intros m m' k He. destruct (He k) as [->|(v & Hv & ->)]; [by left|right].
    split; [by exists v|done].
  - intros m m' k He [v Hv]. destruct (He k) as [E|(w & _ & E)]; rewrite E in Hv; [by exists v|done].
  - done.
Defined.

#[local] Existing Instance uuid_api.
#[local] Existing Instance uuid_laws.
#[local] Existing Instance toy_redis.
#[local] Existing Instance toy_redis_laws.
#[local] Existing Instance toy_hex.
#[local] Existing Instance toy_hex_laws.

Definition pod (n : N) : RuntimeId := to_hex 32 n.

Definition session1 : Store := (acquire 30000 1%N 2%N (pod 7) HuddleControl Up redis_empty).1.

Lemma session1_reachable :
  rtc dir_step (redis_empty, ∅) (session1, grant ∅ 1%N 2%N (pod 7) HuddleControl).
Proof.
  apply rtc_once.
  exact (dir_acquire redis_empty ∅ 30000 1%N 2%N (pod 7) HuddleControl Up eq_refl eq_refl).
Qed.

(** After the lease expires another pod takes the session over and the first is fenced. *)
Definition session2 : Store := DEL session1 (lease_key 1%N 2%N).
Definition session3 : Store := (acquire 30000 1%N 2%N (pod 8) HuddleControl Up session2).1.
Definition grants3 : Grants :=
  grant (grant ∅ 1%N 2%N (pod 7) HuddleControl) 1%N 2%N (pod 8) HuddleControl.

Lemma session3_reachable :
  rtc dir_step (session1, grant ∅ 1%N 2%N (pod 7) HuddleControl) (session3, grants3).
Proof.
  eapply rtc_l; [|apply rtc_once].
  - apply (dir_release session1 _ {| sl_community_id := 1%N; sl_session_id := 2%N;
      sl_owner_runtime_id := pod 7; sl_generation := 1%N; sl_profile := HuddleControl |} Up).
  - exact (dir_acquire session2 (grant ∅ 1%N 2%N (pod 7) HuddleControl) 30000 1%N 2%N (pod 8)
      HuddleControl Up eq_refl eq_refl).
Qed.

Lemma directory_fencing_witness :
  exists known,
    validate_fenced_header 1%N
      {| fh_session_id := 2%N; fh_generation := 1; fh_owner_runtime_id := pod 7 |} Up session3 =
    Err (StaleGeneration 2%N 1 known).
Proof.
  destruct (directory_fencing _ _ _ _ 1%N session1_reachable session3_reachable) as (_ & _ & Hf).
  destruct (Hf {| fh_session_id := 2%N; fh_generation := 1; fh_owner_runtime_id := pod 7 |})
    as (known & _ & Hk); [reflexivity|discriminate|]. by exists known.
Defined.

Lemma directory_answers_witness :
  (renew 30000 {| sl_community_id := 1%N; sl_session_id := 2%N; sl_owner_runtime_id := pod 7;
     sl_generation := 1%N; sl_profile := HuddleControl |} Up session1).2 <> None.
Proof.
  destruct (directory_answers session1 _ 30000 1%N 2%N (pod 8) HuddleControl
    {| sl_community_id := 1%N; sl_session_id := 2%N; sl_owner_runtime_id := pod 7;
       sl_generation := 1%N; sl_profile := HuddleControl |} session1_reachable)
    as (_ & _ & Hr); [lia|reflexivity|reflexivity|reflexivity|].
  destruct (holds _ _ _) as [l'|]; [destruct Hr as [-> _]|destruct Hr as [-> _]]; discriminate.
Defined.
