(* ===== verification/Concurrent.v ===== *)
(** * Programs that await, and their interleavings

    Code that awaits between its calls is a tree of calls, [Prog]: every call is one atomic
    step of a shared world and the program goes on with its answer.  [exec] runs one program
    against a world that changes between its calls; [pool_step] runs any number of programs
    against one world.  [wp] is the assume-guarantee rule for them: under an invariant that
    every call of every program keeps, and an order [ext] in which worlds only grow, each
    program can be verified on its own. *)

From S2P Require Import Prelude.

Inductive Prog (Call : Type -> Type) (A : Type) : Type :=
| Ret (a : A)
| Do (R : Type) (call : Call R) (k : R -> Prog Call A).
Arguments Ret {Call A} a.
Arguments Do {Call A R} call k.

Fixpoint bind {Call A B} (p : Prog Call A) (f : A -> Prog Call B) : Prog Call B :=
  match p with
  | Ret a => f a
  | Do call k => Do call (fun r => bind (k r) f)
  end.

(** One call. *)
Definition call {Call R} (c : Call R) : Prog Call R := Do c Ret.

(** [p.await?] *)
Definition bind_ok {Call A B E} (p : Prog Call (Result A E)) (f : A -> Prog Call (Result B E))
    : Prog Call (Result B E) :=
  bind p (fun r => match r with Ok a => f a | Err e => Ret (Err e) end).

(** [p.await.map_err(g)] *)
Definition map_err_await {Call A E F} (g : E -> F) (p : Prog Call (Result A E))
    : Prog Call (Result A F) :=
  bind p (fun r => Ret (map_err g r)).

Notation "'let!' x ':=' p 'in' k" := (bind p (fun x => k))
  (at level 10, x pattern, p at level 200, k at level 200) : buzz_scope.
Notation "'let!?' x ':=' p 'in' k" := (bind_ok p (fun x => k))
  (at level 10, x pattern, p at level 200, k at level 200) : buzz_scope.

(** ** Programs that make only calls of some kind *)

Section only.
Context {Call : Type -> Type} (P : forall R, Call R -> Prop).

Fixpoint only {A} (p : Prog Call A) : Prop :=
  match p with
  | Ret _ => True
  | Do c k => P _ c /\ forall r, only (k r)
  end.

Lemma only_bind {A B} (p : Prog Call A) (f : A -> Prog Call B) : only p -> (forall a, only (f a)) -> only (bind p f).
Proof. intros Hp Hf. induction p as [a|R c k IH]; cbn [bind]; [apply Hf|]. destruct Hp. split; [done|auto]. Qed.

Lemma only_bind_ok {A B E} (p : Prog Call (Result A E)) (f : A -> Prog Call (Result B E)) :
  only p -> (forall a, only (f a)) -> only (bind_ok p f).
Proof. intros Hp Hf. apply only_bind; [done|]. by intros [a|e]. Qed.
End only.

(** ** What a program returns, whatever it is answered *)

Section always.
Context {Call : Type -> Type}.

Fixpoint always {A} (p : Prog Call A) (Q : A -> Prop) : Prop :=
  match p with
  | Ret a => Q a
  | Do c k => forall r, always (k r) Q
  end.

Lemma always_mono {A} (p : Prog Call A) (Q Q' : A -> Prop) : (forall a, Q a -> Q' a) -> always p Q -> always p Q'.
Proof. intros HQ. induction p as [a|R c k IH]; cbn [always]; auto. Qed.

(** A program with some of the answers it is given written down beside its result. *)
Context {S : Type} (note : forall R, Call R -> R -> S -> S).

Fixpoint noted {A} (p : Prog Call A) (s : S) : Prog Call (A * S) :=
  match p with
  | Ret a => Ret (a, s)
  | Do c k => Do c (fun r => noted (k r) (note _ c r s))
  end.

Lemma always_noted_bind {A B} (p : Prog Call A) (f : A -> Prog Call B) s Q :
  always (noted p s) (fun x => always (noted (f x.1) x.2) Q) -> always (noted (bind p f) s) Q.
Proof. revert s. induction p as [a|R c k IH]; intros s; cbn [bind noted always]; auto. Qed.
End always.

(** ** One program in a changing world *)

Section exec.
Context {Call : Type -> Type} {W : Type}.
Context (env : W -> W -> Prop) (answer : forall R, Call R -> W -> W -> R -> Prop).

(** Before every call and at the end the surroundings take any number of steps. *)
Fixpoint exec {A} (p : Prog Call A) (w w' : W) (a : A) : Prop :=
  match p with
  | Ret a' => rtc env w w' /\ a = a'
  | Do call k => exists w1 w2 r,
      rtc env w w1 /\ answer _ call w1 w2 r /\ exec (k r) w2 w' a
  end.

Lemma exec_bind {A B} (p : Prog Call A) (f : A -> Prog Call B) w w' b :
  exec (bind p f) w w' b -> exists w1 a, exec p w w1 a /\ exec (f a) w1 w' b.
Proof.
  revert w. induction p as [a|R call k IH]; intros w; simpl.
  - intros He. exists w, a. split; [|done]. split; [apply rtc_refl|done].
  - intros (w1 & w2 & r & Hs & Ha & (w3 & a & He & Hf)%IH). eauto 10.
Qed.
End exec.

Lemma always_exec {Call : Type -> Type} {W A : Type} (env : W -> W -> Prop) (answer : forall R, Call R -> W -> W -> R -> Prop)
    (p : Prog Call A) w w' a Q : exec env answer p w w' a -> always p Q -> Q a.
Proof.
  revert w. induction p as [a'|R c k IH]; intros w; cbn [exec always]; [by intros [_ ->]|].
  intros (w1 & w2 & r & _ & _ & He) Hp. by eapply IH.
Qed.

(** Notes leave a run as it is. *)
Lemma exec_noted {Call : Type -> Type} {W A S : Type} (env : W -> W -> Prop) (answer : forall R, Call R -> W -> W -> R -> Prop)
    (note : forall R, Call R -> R -> S -> S) (p : Prog Call A) s w w' a s' :
  exec env answer (noted note p s) w w' (a, s') -> exec env answer p w w' a.
Proof.
  revert s w. induction p as [a'|R c k IH]; intros s w; cbn [noted exec]; [by intros [? [= -> _]]|].
  intros (w1 & w2 & r & ? & ? & He). exists w1, w2, r. split_and!; [done..|]. by eapply IH.
Qed.

(** ** Assume-guarantee *)

Section wp.
Context {Call : Type -> Type} {W : Type}.
Context (answer : forall R, Call R -> W -> W -> R -> Prop).
Context (inv : W -> Prop) (ext : W -> W -> Prop) `{!PreOrder ext}.

(** Every call of [p], made in any later world, keeps the invariant, and every result of
    [p] satisfies [Q] from then on. *)
Fixpoint wp {A} (p : Prog Call A) (w : W) (Q : A -> W -> Prop) : Prop :=
  match p with
  | Ret a => forall w1, ext w w1 -> inv w1 -> Q a w1
  | Do call k => forall w1 w2 r, ext w w1 -> inv w1 -> answer _ call w1 w2 r ->
      inv w2 /\ ext w1 w2 /\ wp (k r) w2 Q
  end.

Lemma wp_ext {A} (p : Prog Call A) w w' Q : ext w w' -> wp p w Q -> wp p w' Q.
Proof.
  intros Hw. destruct p as [a|R call k]; simpl.
  - intros Hp w1 Hw1. apply Hp. by etrans.
  - intros Hp w1 w2 r Hw1. apply Hp. by etrans.
Qed.

Lemma wp_mono {A} (p : Prog Call A) w (Q Q' : A -> W -> Prop) :
  (forall a w1, ext w w1 -> inv w1 -> Q a w1 -> Q' a w1) -> wp p w Q -> wp p w Q'.
Proof.
  revert w. induction p as [a|R call k IH]; simpl; intros w HQ Hp.
  - intros w1 Hw1 Hi. by apply HQ, Hp.
  - intros w1 w2 r Hw1 Hi Ha. destruct (Hp w1 w2 r Hw1 Hi Ha) as (? & Hw2 & ?).
    split_and!; [done..|]. apply IH; [|done]. intros a w3 Hw3. apply HQ. etrans; [done|by etrans].
Qed.

Lemma wp_bind {A B} (p : Prog Call A) (f : A -> Prog Call B) w Q :
  wp p w (fun a w1 => wp (f a) w1 Q) -> inv w -> wp (bind p f) w Q.
Proof.
  revert w. induction p as [a|R call k IH]; simpl; intros w Hp Hi.
  - by apply Hp.
  - intros w1 w2 r Hw1 Hi1 Ha. destruct (Hp w1 w2 r Hw1 Hi1 Ha) as (? & ? & ?).
    split_and!; [done..|]. by apply IH.
Qed.

Lemma wp_and {A} (p : Prog Call A) w (Q Q' : A -> W -> Prop) :
  wp p w Q -> wp p w Q' -> wp p w (fun a w1 => Q a w1 /\ Q' a w1).
Proof.
  revert w. induction p as [a|R call k IH]; simpl; intros w Hp Hp'; [auto|].
  intros w1 w2 r Hw1 Hi1 Ha. destruct (Hp w1 w2 r Hw1 Hi1 Ha) as (? & ? & ?), (Hp' w1 w2 r Hw1 Hi1 Ha) as (? & ? & ?).
  auto.
Qed.

(** A call whose answer satisfies [P] in the world it leaves. *)
Lemma wp_call {R} (c : Call R) w (P : R -> W -> Prop) :
  (forall w1 w2 r, ext w w1 -> inv w1 -> answer _ c w1 w2 r ->
     inv w2 /\ ext w1 w2 /\ forall w3, ext w2 w3 -> inv w3 -> P r w3) ->
  wp (call c) w P.
Proof. intros Hc. exact Hc. Qed.

(** A sequence, by what its first part establishes. *)
Lemma wp_seq {A B} (p : Prog Call A) (f : A -> Prog Call B) w P Q :
  wp p w P -> inv w ->
  (forall a w1, ext w w1 -> inv w1 -> P a w1 -> wp (f a) w1 Q) -> wp (bind p f) w Q.
Proof. intros Hp Hi Hf. apply wp_bind; [|done]. by eapply wp_mono, Hp. Qed.

Lemma wp_seq_ok {A B E} (p : Prog Call (Result A E)) (f : A -> Prog Call (Result B E)) w
    (P : Result A E -> W -> Prop) (Q : Result B E -> W -> Prop) :
  wp p w P -> inv w ->
  (forall a w1, ext w w1 -> inv w1 -> P (Ok a) w1 -> wp (f a) w1 Q) ->
  (forall e w1 w2, ext w w1 -> ext w1 w2 -> inv w2 -> P (Err e) w1 -> Q (Err e) w2) ->
  wp (bind_ok p f) w Q.
Proof.
  intros Hp Hi Hf He. eapply wp_seq; [exact Hp|done|]. intros [a|e] w1 Hw1 Hi1 HP; [by apply Hf|].
  intros w2 Hw2 Hi2. by eapply He.
Qed.

Lemma wp_map_err {A E F} (g : E -> F) (p : Prog Call (Result A E)) w
    (P : Result A E -> W -> Prop) (Q : Result A F -> W -> Prop) :
  wp p w P -> inv w ->
  (forall r w1 w2, ext w w1 -> ext w1 w2 -> inv w2 -> P r w1 -> Q (map_err g r) w2) ->
  wp (map_err_await g p) w Q.
Proof.
  intros Hp Hi HQ. eapply wp_seq; [exact Hp|done|]. intros r w1 Hw1 Hi1 HP w2 Hw2 Hi2. by eapply HQ.
Qed.

(** Programs with notes. *)
Section noted.
Context {S : Type} (note : forall R, Call R -> R -> S -> S).
Notation noted := (noted note).

Lemma wp_noted_bind {A B} (p : Prog Call A) (f : A -> Prog Call B) s w Q :
  wp (noted p s) w (fun x w1 => wp (noted (f x.1) x.2) w1 Q) -> inv w -> wp (noted (bind p f) s) w Q.
Proof.
  revert s w. induction p as [a|R c k IH]; intros s w Hp Hi; simpl in *; [by apply Hp|].
  intros w1 w2 r Hw1 Hi1 Ha. destruct (Hp w1 w2 r Hw1 Hi1 Ha) as (? & ? & ?).
  split_and!; [done..|]. by apply IH.
Qed.

(** Notes that are complete do not change. *)
Lemma wp_noted {A} (p : Prog Call A) s w (Q : A -> W -> Prop) :
  (forall R (c : Call R) r, note R c r s = s) -> wp p w Q -> wp (noted p s) w (fun x w1 => Q x.1 w1 /\ x.2 = s).
Proof.
  intros Hs. revert w. induction p as [a|R c k IH]; intros w Hp; simpl in *; [auto|].
  intros w1 w2 r Hw1 Hi1 Ha. destruct (Hp w1 w2 r Hw1 Hi1 Ha) as (? & ? & ?).
  split_and!; [done..|]. rewrite Hs. by apply IH.
Qed.
End noted.

(** A verified program, run in surroundings that keep the invariant. *)
Section exec.
Context (env : W -> W -> Prop) (env_ok : forall w w', env w w' -> inv w -> inv w' /\ ext w w').

Lemma env_steps w w' : rtc env w w' -> inv w -> inv w' /\ ext w w'.
Proof.
  induction 1 as [w|w1 w2 w3 Hs _ IH]; intros Hi; [done|].
  destruct (env_ok w1 w2 Hs Hi) as [Hi2 ?], (IH Hi2) as [? ?]. split; [done|by etrans].
Qed.

Lemma wp_exec {A} (p : Prog Call A) w w' a Q :
  exec env answer p w w' a -> inv w -> wp p w Q -> inv w' /\ ext w w' /\ Q a w'.
Proof.
  revert w. induction p as [a'|R call k IH]; simpl; intros w.
  - intros [Hs ->] Hi Hp. destruct (env_steps w w' Hs Hi) as [? ?]. auto.
  - intros (w1 & w2 & r & Hs & Ha & He) Hi Hp. destruct (env_steps w w1 Hs Hi) as [Hi1 Hw1].
    destruct (Hp w1 w2 r Hw1 Hi1 Ha) as (Hi2 & Hw2 & Hk).
    destruct (IH r w2 He Hi2 Hk) as (? & ? & ?). split_and!; [done|by repeat (etrans; [eassumption|])|done].
Qed.
End exec.

(** Any number of tasks, started at any time. *)
Section pool.
Context {T : Type} {A : T -> Type} (program : forall t, Prog Call (A t)).

Record Thread := thread { th_task : T; th_rest : Prog Call (A th_task) }.

Inductive pool_step : W * list Thread -> W * list Thread -> Prop :=
| pool_spawn w ts t : pool_step (w, ts) (w, ts ++ [thread t (program t)])
| pool_call w w' ts i t R (c : Call R) k r :
    ts !! i = Some (thread t (Do c k)) -> answer _ c w w' r ->
    pool_step (w, ts) (w', <[i := thread t (k r)]> ts).

Context (spec : forall t, A t -> W -> Prop).

Definition pool_ok (x : W * list Thread) : Prop :=
  inv x.1 /\ Forall (fun th => wp (th_rest th) x.1 (spec (th_task th))) x.2.

Context (program_ok : forall t w, inv w -> wp (program t) w (spec t)).

Lemma pool_step_ok x y : pool_step x y -> pool_ok x -> pool_ok y /\ ext x.1 y.1.
Proof.
  intros Hs [Hi Hts]. unfold pool_ok. destruct Hs as [w ts t|w w' ts i t R c k r Hlk Ha]; simpl in *.
  - split; [|done]. split; [done|]. apply Forall_app. split; [done|]. by repeat constructor; apply program_ok.
  - pose proof (Forall_lookup_1 _ _ _ _ Hts Hlk) as Hp. simpl in Hp.
    destruct (Hp w w' r ltac:(done) Hi Ha) as (Hi' & Hw & Hk). split; [|done]. split; [done|].
    apply Forall_insert; [|done]. eapply Forall_impl; [exact Hts|].
    intros th. by apply wp_ext.
Qed.

Lemma pool_steps_ok x y : rtc pool_step x y -> pool_ok x -> pool_ok y /\ ext x.1 y.1.
Proof.
  induction 1 as [x|x y z Hs _ IH]; intros Hx; [done|].
  destruct (pool_step_ok x y Hs Hx) as [Hy Hxy]. destruct (IH Hy) as [Hz Hyz]. split; [done|by etrans].
Qed.

Lemma pool_start_ok w : inv w -> pool_ok (w, []).
Proof. intros Hi. by split; [|constructor]. Qed.

(** A task that has finished has the result it was verified for. *)
Lemma pool_result w ts t a : pool_ok (w, ts) -> thread t (Ret a) ∈ ts -> spec t a w.
Proof.
  intros [Hi Hts] Hin. rewrite Forall_forall in Hts. exact (Hts _ Hin w (reflexivity w) Hi).
Qed.
End pool.
End wp.

(** ** Programs that own something

    Tasks that each hold at most one resource, such as a database session, which the others
    leave alone.  [rely h] is what the others may do to the world while a task holds [h];
    [busy] tells which resources are held. *)

Section owned.
Context {Call : Type -> Type} {W K : Type}.
Context (answer : forall R, Call R -> W -> W -> R -> Prop).
Context (inv : W -> Prop) (busy : W -> K -> Prop) (rely : option K -> W -> W -> Prop).
Context `{!forall h, PreOrder (rely h)}.

(** [h'] is what another task than the holder of [h] may hold. *)
Definition other (h : option K) (w : W) (h' : option K) : Prop :=
  forall k, h' = Some k -> busy w k /\ h <> Some k.

(** Every call keeps the invariant and what the other tasks rely on; what is held after it was
    held before or free. *)
Fixpoint owp {A} (h : option K) (p : Prog Call A) (w : W) (Q : option K -> A -> W -> Prop) : Prop :=
  match p with
  | Ret a => forall w1, rely h w w1 -> inv w1 -> Q h a w1
  | Do call k => forall w1 w2 r, rely h w w1 -> inv w1 -> answer _ call w1 w2 r ->
      inv w2 /\ (forall h', other h w1 h' -> rely h' w1 w2) /\
      exists h', (forall k, h' = Some k -> busy w2 k /\ (h = Some k \/ ~ busy w1 k)) /\ owp h' (k r) w2 Q
  end.

Lemma owp_rely {A} h (p : Prog Call A) w w' Q : rely h w w' -> owp h p w Q -> owp h p w' Q.
Proof.
  intros Hw. destruct p as [a|R call k]; simpl.
  - intros Hp w1 Hw1. apply Hp. by etrans.
  - intros Hp w1 w2 r Hw1. apply Hp. by etrans.
Qed.

Lemma owp_mono {A} h (p : Prog Call A) w (Q Q' : option K -> A -> W -> Prop) :
  (forall h a w1, inv w1 -> Q h a w1 -> Q' h a w1) -> owp h p w Q -> owp h p w Q'.
Proof.
  intros HQ. revert h w. induction p as [a|R call k IH]; simpl; intros h w Hp.
  - intros w1 Hw1 Hi. by apply HQ, Hp.
  - intros w1 w2 r Hw1 Hi Ha. destruct (Hp w1 w2 r Hw1 Hi Ha) as (? & ? & h' & ? & ?). eauto 10.
Qed.

Lemma owp_bind {A B} h (p : Prog Call A) (f : A -> Prog Call B) w Q :
  owp h p w (fun h' a w1 => owp h' (f a) w1 Q) -> inv w -> owp h (bind p f) w Q.
Proof.
  revert h w. induction p as [a|R call k IH]; simpl; intros h w Hp Hi; [by apply Hp|].
  intros w1 w2 r Hw1 Hi1 Ha. destruct (Hp w1 w2 r Hw1 Hi1 Ha) as (? & ? & h' & ? & ?). eauto 10.
Qed.

(** A sequence, by what its first part establishes. *)
Lemma owp_seq {A B} h (p : Prog Call A) (f : A -> Prog Call B) w P Q :
  owp h p w P -> inv w -> (forall h' a w1, inv w1 -> P h' a w1 -> owp h' (f a) w1 Q) ->
  owp h (bind p f) w Q.
Proof. intros Hp Hi Hf. apply owp_bind; [|done]. by eapply owp_mono, Hp. Qed.

(** *** Calls that keep the invariant and that every task may rely on *)

Definition holds (h : option K) (w : W) : Prop := forall k, h = Some k -> busy w k.

Lemma owp_return {A} h (a : A) w (Q : option K -> A -> W -> Prop) :
  (forall w1, rely h w w1 -> inv w1 -> Q h a w1) -> owp h (Ret a) w Q.
Proof. done. Qed.

Section quiet.
Context (rely_keeps : forall k w w', rely (Some k) w w' -> busy w k -> busy w' k).
Context (quiet : forall R, Call R -> Prop).
Context (quiet_ok : forall R (c : Call R) w w' r,
  quiet R c -> answer R c w w' r -> inv w -> inv w' /\ forall h, rely h w w').

Lemma holds_rely h w w' : rely h w w' -> holds h w -> holds h w'.
Proof. intros Hr Hh k ->. by eapply rely_keeps, Hh. Qed.

Lemma owp_quiet {A R} h (c : Call R) (k : R -> Prog Call A) w Q :
  quiet R c -> holds h w ->
  (forall w1 w2 r, rely h w w1 -> rely h w w2 -> answer R c w1 w2 r -> inv w2 -> holds h w2 -> owp h (k r) w2 Q) ->
  owp h (Do c k) w Q.
Proof.
  intros Hc Hh Hk w1 w2 r Hw1 Hi1 Ha. destruct (quiet_ok _ _ _ _ _ Hc Ha Hi1) as [Hi2 Hr].
  assert (rely h w w2) as Hw2 by (by etrans; [|apply Hr]).
  pose proof (holds_rely _ _ _ Hw2 Hh) as Hh2.
  split_and!; [done|by intros|]. exists h. split; [naive_solver|]. by apply (Hk w1).
Qed.

Lemma owp_only {A} h (p : Prog Call A) w Q :
  only quiet p -> holds h w -> (forall a w1, rely h w w1 -> inv w1 -> Q h a w1) -> owp h p w Q.
Proof.
  revert w. induction p as [a|R c k IH]; intros w Hp Hh HQ.
  - intros w1 Hr Hi. by apply HQ.
  - destruct Hp as [Hc Hk]. apply owp_quiet; [done|done|]. intros w1 w2 r _ Hr _ _ Hh2.
    apply IH; [done|done|]. intros a w3 Hw3. apply HQ. by etrans.
Qed.
End quiet.

Section pool.
Context {T : Type} {A : T -> Type} (program : forall t, Prog Call (A t)).
Context (spec : forall t, option K -> A t -> W -> Prop).
Context (rely_busy : forall k w w', rely (Some k) w w' -> busy w k -> busy w' k).
Context (program_ok : forall t w, inv w -> owp None (program t) w (spec t)).

Notation thread_ok w th h := (owp h (th_rest th) w (spec (th_task th))).

(** Each task is on its way, and no two hold the same. *)
Record owned_ok (x : W * list (Thread (A := A))) (hs : list (option K)) : Prop := {
  owned_inv : inv x.1;
  owned_threads : Forall2 (fun th h => thread_ok x.1 th h) x.2 hs;
  owned_busy i k : hs !! i = Some (Some k) -> busy x.1 k;
  owned_once i j k : hs !! i = Some (Some k) -> hs !! j = Some (Some k) -> i = j;
}.

Lemma owned_other x hs i h j h' :
  owned_ok x hs -> hs !! i = Some h -> hs !! j = Some h' -> i <> j -> other h x.1 h'.
Proof.
  intros Hok Hi Hj Hne k ->. split; [by eapply owned_busy|]. intros ->. by apply Hne, (owned_once _ _ Hok _ _ k).
Qed.

Lemma owned_step x y hs :
  pool_step answer program x y -> owned_ok x hs -> rely None x.1 y.1 /\ exists hs', owned_ok y hs'.
Proof.
  intros Hs Hok. destruct Hs as [w ts t|w w' ts i t R c k r Hlk Ha].
  - split; [done|]. exists (hs ++ [None]). destruct Hok as [Hi Hts Hb Ho]. simpl in *. split; simpl; [done|..].
    + apply Forall2_app; [done|]. constructor; [by apply program_ok|constructor].
    + intros j k [?|[? E]]%lookup_app_Some; [eauto|]. by apply list_lookup_singleton_Some in E as [_ ?].
    + intros j1 j2 k [?|[? E]]%lookup_app_Some [?|[? E']]%lookup_app_Some; [eauto|..];
        by apply list_lookup_singleton_Some in E as [_ ?] || by apply list_lookup_singleton_Some in E' as [_ ?].
  - pose proof Hok as [Hi Hts Hb Ho]. simpl in *.
    destruct (Forall2_lookup_l _ _ _ _ _ Hts Hlk) as (h & Hh & Hp). simpl in Hp.
    destruct (Hp w w' r ltac:(done) Hi Ha) as (Hi' & Hr & h' & Hh' & Hk).
    split; [by apply Hr|]. exists (<[i := h']> hs).
    pose proof (lookup_lt_Some _ _ _ Hh) as Hlt. split; simpl; [done|..].
    + apply Forall2_same_length_lookup. split; [by rewrite !length_insert; eapply Forall2_length|].
      intros j th g Hth Hg. destruct (decide (i = j)) as [<-|Hne].
      * rewrite list_lookup_insert_eq in Hth by (by eapply lookup_lt_Some).
        rewrite list_lookup_insert_eq in Hg by done. by simplify_eq.
      * rewrite list_lookup_insert_ne in Hth by done. rewrite list_lookup_insert_ne in Hg by done.
        eapply owp_rely; [|by eapply (Forall2_lookup_lr _ _ _ _ _ _ Hts)].
        apply Hr. by eapply (owned_other (w, ts)).
    + intros j k' Hj. destruct (decide (i = j)) as [<-|Hne].
      * rewrite list_lookup_insert_eq in Hj by done. injection Hj as ->. by apply Hh'.
      * rewrite list_lookup_insert_ne in Hj by done.
        apply (rely_busy k' w w'); [|eauto]. apply Hr. by eapply (owned_other (w, ts)).
    + assert (forall j k', i <> j -> hs !! j = Some (Some k') -> h' <> Some k') as Hnew.
      { intros j k' Hne Hj ->. destruct (Hh' k' eq_refl) as [_ [->|Hfree]]; [by apply Hne, (Ho i j k')|].
        apply Hfree. eauto. }
      intros j1 j2 k' H1 H2.
      destruct (decide (i = j1)) as [<-|Hn1], (decide (i = j2)) as [<-|Hn2]; [done|..];
        rewrite ?list_lookup_insert_eq, ?list_lookup_insert_ne in H1 by done;
        rewrite ?list_lookup_insert_eq, ?list_lookup_insert_ne in H2 by done; simplify_eq.
      * by destruct (Hnew j2 k').
      * by destruct (Hnew j1 k').
      * eauto.
Qed.

Lemma owned_steps x y hs :
  rtc (pool_step answer program) x y -> owned_ok x hs -> rely None x.1 y.1 /\ exists hs', owned_ok y hs'.
Proof.
  intros Hs. revert hs. induction Hs as [x|x y z Hs _ IH]; intros hs Hok; [by split; [|exists hs]|].
  destruct (owned_step x y hs Hs Hok) as [Hxy [hs' Hy]]. destruct (IH hs' Hy) as [Hyz Hz].
  split; [by etrans|done].
Qed.

Lemma owned_start w : inv w -> owned_ok (w, []) [].
Proof. intros Hi. split; [done|constructor|done..]. Qed.

(** A task that has finished has the result it was verified for. *)
Lemma owned_result_at w ts hs i t a :
  owned_ok (w, ts) hs -> ts !! i = Some (thread t (Ret a)) -> exists h, hs !! i = Some h /\ spec t h a w.
Proof.
  intros [Hi Hts _ _] Hlk. destruct (Forall2_lookup_l _ _ _ _ _ Hts Hlk) as (h & Hh & Hp).
  exists h. split; [done|]. exact (Hp w (reflexivity w) Hi).
Qed.

Lemma owned_result w ts hs t a : owned_ok (w, ts) hs -> thread t (Ret a) ∈ ts -> exists h, spec t h a w.
Proof.
  intros Hok [i Hlk]%list_elem_of_lookup. destruct (owned_result_at _ _ _ _ _ _ Hok Hlk) as (h & _ & ?). eauto.
Qed.

(** Two tasks that have finished do not hold the same. *)
Lemma owned_results w ts hs i j t t' a a' :
  owned_ok (w, ts) hs -> i <> j -> ts !! i = Some (thread t (Ret a)) -> ts !! j = Some (thread t' (Ret a')) ->
  exists h h', spec t h a w /\ spec t' h' a' w /\ forall k, h = Some k -> h' <> Some k.
Proof.
  intros Hok Hne Hi Hj. destruct (owned_result_at _ _ _ _ _ _ Hok Hi) as (h & Hh & Hs).
  destruct (owned_result_at _ _ _ _ _ _ Hok Hj) as (h' & Hh' & Hs'). exists h, h'. split_and!; [done..|].
  intros k -> ->. by apply Hne, (owned_once _ _ Hok _ _ k).
Qed.
End pool.
End owned.

(** ** Running a pool

    One run of a pool, for evaluating on concrete inputs: a schedule, and an answer to every
    call. *)

Section schedule.
Context {Call : Type -> Type} {W : Type} (answer : forall R, Call R -> W -> W -> R -> Prop).
Context {T : Type} {A : T -> Type} (program : forall t, Prog Call (A t)).
Context (respond : forall R, Call R -> W -> option (W * R)).

Inductive Turn :=
| Spawn (t : T)
| Run (i calls : nat).

(** At most that many calls of one thread. *)
Fixpoint run_calls (n i : nat) (x : W * list (Thread (Call := Call) (A := A)))
    : option (W * list (Thread (Call := Call) (A := A))) :=
  match n with
  | 0 => Some x
  | S n =>
      match x.2 !! i with
      | Some (thread t (Do c k)) =>
          '(w, r) ← respond _ c x.1; run_calls n i (w, <[i := thread t (k r)]> x.2)
      | _ => Some x
      end
  end.

Definition run_turn (x : W * list (Thread (Call := Call) (A := A))) (turn : Turn) :=
  match turn with
  | Spawn t => Some (x.1, x.2 ++ [thread t (program t)])
  | Run i n => run_calls n i x
  end.

Fixpoint run_schedule (turns : list Turn) (x : W * list (Thread (Call := Call) (A := A))) :=
  match turns with
  | [] => Some x
  | turn :: turns => x ← run_turn x turn; run_schedule turns x
  end.

Context (respond_ok : forall R (c : Call R) w w' r, respond R c w = Some (w', r) -> answer R c w w' r).

Lemma run_calls_steps n i x y : run_calls n i x = Some y -> rtc (pool_step answer program) x y.
Proof.
  revert x. induction n as [|n IH]; intros [w ts]; simpl; [by intros [= ->]|].
  destruct (ts !! i) as [[t [a|R c k]]|] eqn:Hi; [by intros [= ->]| |by intros [= ->]].
  destruct (respond R c w) as [[w' r]|] eqn:Hr; [|done]. simpl. intros Hn.
  eapply rtc_l; [|exact (IH _ Hn)]. eapply pool_call; [exact Hi|]. by apply respond_ok.
Qed.

Lemma run_schedule_steps turns x y :
  run_schedule turns x = Some y -> rtc (pool_step answer program) x y.
Proof.
  revert x. induction turns as [|turn turns IH]; intros [w ts]; [by intros [= ->]|]. simpl.
  destruct turn as [t|i n]; simpl.
  - intros Hs. eapply rtc_l; [apply pool_spawn|exact (IH _ Hs)].
  - destruct (run_calls n i (w, ts)) as [x|] eqn:Hn; [|done]. simpl. intros Hs.
    etrans; [by eapply run_calls_steps|by apply IH].
Qed.
End schedule.
