(* ===== verification/GitManifest.v ===== *)
(** * Git manifests ([crates/buzz-relay/src/api/git/manifest.rs])

    The content-addressed snapshot of a repository's published state, the predicates that
    writers and readers share, and its canonical bytes.  JSON is the interface
    [ManifestSerde]. *)

From S2P Require Import Prelude Text Nostr.

Definition MANIFEST_VERSION : N := 1.
Definition MAX_MANIFEST_PACKS : nat := 128.
Definition PACK_COMPACTION_THRESHOLD : nat := MAX_MANIFEST_PACKS * 3 / 4.
Definition MAX_MANIFEST_REFS : N := 10000.

Record Manifest := {
  m_version : N;
  m_head : string;
  m_refs : gmap string string;
  m_packs : list string;
  m_parent : option string;
}.

Inductive ManifestError :=
| Serde (e : string)
| UnsupportedVersion (got expected : N)
| UnsafeRefName (name : string)
| MalformedOid (refname oid : string)
| EmptyHead
| MalformedParent (parent : string)
| TooManyPacks (got max : nat)
| TooManyRefs (got max : N)
| MalformedPackKey (key : string).

(** [serde_json] at the type [Manifest]. *)
Class ManifestSerde := {
  to_vec : Manifest -> Result string string;
  from_slice : string -> Result Manifest string;
}.

(** ** Predicates *)

Definition refname_byte (a : Ascii.ascii) : bool :=
  is_ascii_alphanumeric a || bool_decide (a = "/"%char) || bool_decide (a = "_"%char)
  || bool_decide (a = "."%char) || bool_decide (a = "-"%char).

Definition is_safe_refname (s : string) : bool :=
  if negb (starts_with s "refs/") then false
  else if contains_str s ".." || contains_str s "//" || starts_with s "/" || ends_with_byte s "/"
  then false
  else all_bytes refname_byte s.

Definition is_hex_oid (s : string) : bool :=
  (bool_decide (String.length s = 40) || bool_decide (String.length s = 64))
  && all_bytes is_ascii_hexdigit s.

Definition is_manifest_digest (s : string) : bool :=
  bool_decide (String.length s = 64) && all_bytes is_lower_hexdigit s.

Definition is_pack_key (s : string) : bool :=
  match strip_prefix s "packs/" with
  | Some digest => is_manifest_digest digest
  | None => false
  end.

Definition pointer_key `{NostrApi} (community : CommunityId) (owner repo : string) : string :=
  let repo := default repo (strip_suffix repo ".git") in
  "repos/" ++ uuid_to_string community ++ "/" ++ owner ++ "/" ++ repo ++ "/pointer".

(** ** Validation *)

(** [if !b { return Err(e) }] *)
Definition check {E} (b : bool) (e : E) : Result unit E := if b then Ok tt else Err e.

Definition validate_ref (_ : unit) (e : string * string) : Result unit ManifestError :=
  let? _ := check (is_safe_refname e.1) (UnsafeRefName e.1) in
  check (is_hex_oid e.2) (MalformedOid e.1 e.2).

Definition validate_pack (_ : unit) (key : string) : Result unit ManifestError :=
  check (is_pack_key key) (MalformedPackKey key).

Definition validate (m : Manifest) : Result unit ManifestError :=
  let packs_len := length (m_packs m) in
  let refs_len := N.of_nat (size (m_refs m)) in
  let? _ := check (packs_len <=? MAX_MANIFEST_PACKS)%nat (TooManyPacks packs_len MAX_MANIFEST_PACKS) in
  let? _ := check (refs_len <=? MAX_MANIFEST_REFS)%N (TooManyRefs refs_len MAX_MANIFEST_REFS) in
  let? _ := check (bool_decide (m_head m <> "")) EmptyHead in
  let? _ := check (is_safe_refname (m_head m)) (UnsafeRefName (m_head m)) in
  let? _ := fold_result validate_ref tt (btree_iter (m_refs m)) in
  let? _ := fold_result validate_pack tt (m_packs m) in
  match m_parent m with
  | Some p => check (is_manifest_digest p) (MalformedParent p)
  | None => Ok tt
  end.

(** ** Bytes *)

Definition with_packs (packs : list string) (m : Manifest) : Manifest :=
  {| m_version := m_version m; m_head := m_head m; m_refs := m_refs m; m_packs := packs;
     m_parent := m_parent m |}.

Section bytes.
Context `{ManifestSerde}.

Definition canonical_bytes (m : Manifest) : Result string ManifestError :=
  map_err Serde (to_vec (with_packs (dedup (sort_strings (m_packs m))) m)).

Definition from_bytes (bytes : string) : Result Manifest ManifestError :=
  let? m := map_err Serde (from_slice bytes) in
  if decide (m_version m <> MANIFEST_VERSION)
  then Err (UnsupportedVersion (m_version m) MANIFEST_VERSION)
  else Ok m.
End bytes.
