(* ===== verification/GitStore.v ===== *)
(** * The object store of git repositories ([crates/buzz-relay/src/api/git/store.rs])

    Content-addressed, create-only objects and the compare-and-swap pointer.  Requests to
    the S3 service are the calls [GitCall], with the git subprocesses and file operations of
    the publishing code beside them; their answers come from the surroundings.  The startup
    conformance probe of the file is not modelled. *)

From S2P Require Import Prelude Text Concurrent GitManifest.

Definition ETag := string.

Inductive Precond :=
| IfNoneMatchStar
| IfMatch (e : ETag).

Inductive CasOutcome :=
| Won (e : ETag)
| LostRace.

Inductive S3Error :=
| HttpFailWithBody (code : N) (body : string)
| S3Transport (e : string).

Inductive StoreError :=
| NotFound (key : string)
| ObjectTooLarge (key : string) (size max : N)
| DigestMismatch (key expected actual : string)
| Backend (e : S3Error)
| Config (e : string)
| Probe (phase : string) (round : nat) (key reason : string).

Record S3Response := {
  status_code : N;
  resp_etag : option string;
  resp_body : string;
}.

(** The failures of hydration ([hydrate.rs]). *)
Inductive HydrateError :=
| InvalidPointer
| HManifest (e : ManifestError)
| HStore (e : StoreError)
| Hydrate (what : string)
| HResourceLimit (what : string).

(** The files of one compacted pack. *)
Record CompactedPack := {
  pack_path : string;
  idx_path : string;
  pack_bytes : N;
}.

(** What the code awaits: requests to the object store, and the subprocesses and files of
    a workspace, which answer with an error text when they fail. *)
Inductive GitCall : Type -> Type :=
| PutObject (key body : string) (precond : Precond) : GitCall (Result S3Response S3Error)
| GetObject (key : string) : GitCall (Result S3Response S3Error)
| HeadObject (key : string) : GitCall (Result (option Z * N) S3Error)
| ForEachRef : GitCall (Result string string)
| SymbolicRef : GitCall (Result (option string) string)
| PackObjects (stdin : string) : GitCall (Result string string)
| CountObjects : GitCall (Result string string)
| CompactPackObjects (stdin : string) (max_pack_bytes : N) : GitCall (Result (list (CompactedPack * Result N string)) string)
| ReadFile (path : string) : GitCall (Result string string)
| IndexPack (pack : string) : GitCall (Result string string)
| CompactionPermit : GitCall (Result unit string)
| TimeoutElapsed : GitCall bool
| InitBareRepo : GitCall (Result unit string)
| MaterializePack (key digest : string) (max_pack_bytes : N) : GitCall (Result N HydrateError)
| WriteRef (refname oid : string) : GitCall (Result unit string)
| WriteHead (head : string) : GitCall (Result unit string)
| InstallHook : GitCall (Result unit string)
| ReceivePack (body : string) : GitCall (Result (string * bool) N)
| EmitRefState (head : string) (refs : gmap string string) : GitCall unit.

Notation GitProg := (Prog GitCall).

(** [hex::encode] of SHA-256, and which strings [HeaderValue] accepts. *)
Class GitCrypto := {
  sha256_hex : string -> string;
  header_value_ok : string -> bool;
}.

(** 2xx *)
Definition is_success (status : N) : bool := ((200 <=? status) && (status <? 300))%N.

Section store.
Context `{GitCrypto}.

Definition content_key (prefix bytes : string) : string := prefix ++ "/" ++ sha256_hex bytes.

Definition idx_key_for_pack_digest (pack_digest : string) : Result string StoreError :=
  if bool_decide (String.length pack_digest <> 64) || negb (all_bytes is_ascii_hexdigit pack_digest)
  then Err (Backend (HttpFailWithBody 400 "invalid pack digest for idx sidecar"))
  else Ok ("idx/" ++ pack_digest)%string.

(** A create-only write: the key already being there is success. *)
Definition put_create_only (key bytes : string) : GitProg (Result string StoreError) :=
  let! r := call (PutObject key bytes IfNoneMatchStar) in
  Ret (match r with
       | Ok resp =>
           if is_success (status_code resp) then Ok key
           else Err (Backend (HttpFailWithBody (status_code resp) "unexpected status"))
       | Err (HttpFailWithBody 412 _) => Ok key
       | Err e => Err (Backend e)
       end).

Definition put_immutable (prefix bytes : string) : GitProg (Result string StoreError) :=
  put_create_only (content_key prefix bytes) bytes.

Definition put_pack (bytes : string) : GitProg (Result string StoreError) :=
  put_immutable "packs" bytes.

Definition put_idx (pack_digest idx_bytes : string) : GitProg (Result string StoreError) :=
  match idx_key_for_pack_digest pack_digest with
  | Err e => Ret (Err e)
  | Ok key => put_create_only key idx_bytes
  end.

Definition put_manifest (bytes : string) : GitProg (Result string StoreError) :=
  put_immutable "manifests" bytes.

Definition get (key : string) : GitProg (Result string StoreError) :=
  let! r := call (GetObject key) in
  Ret (match r with
       | Ok resp => Ok (resp_body resp)
       | Err (HttpFailWithBody 404 _) => Err (NotFound key)
       | Err e => Err (Backend e)
       end).

(** The check of the bytes against their digest. *)
Definition verified (key expected_digest bytes : string) : Result string StoreError :=
  let actual := sha256_hex bytes in
  if decide (actual <> expected_digest) then Err (DigestMismatch key expected_digest actual)
  else Ok bytes.

Definition get_verified (key expected_digest : string) : GitProg (Result string StoreError) :=
  let!? bytes := get key in Ret (verified key expected_digest bytes).

(** [u64::try_from(n).unwrap_or(u64::MAX)] *)
Definition try_u64 (n : Z) : N := if (0 <=? n)%Z then Z.to_N n else (2 ^ 64 - 1)%N.

Definition get_limited (key : string) (max_bytes : N) : GitProg (Result string StoreError) :=
  let! r := call (HeadObject key) in
  let head :=
    match r with
    | Err (HttpFailWithBody 404 _) => Err (NotFound key)
    | Err e => Err (Backend e)
    | Ok (content_length, status) =>
        if decide (status = 404%N) then Err (NotFound key)
        else if negb (is_success status)
        then Err (Backend (HttpFailWithBody status "unexpected status"))
        else
          match content_length with
          | Some n =>
              if (max_bytes <? try_u64 n)%N then Err (ObjectTooLarge key (try_u64 n) max_bytes)
              else Ok tt
          | None => Ok tt
          end
    end in
  match head with
  | Err e => Ret (Err e)
  | Ok _ =>
      let!? bytes := get key in
      let size := N.of_nat (String.length bytes) in
      Ret (if (max_bytes <? size)%N then Err (ObjectTooLarge key size max_bytes) else Ok bytes)
  end.

Definition get_verified_limited (key expected_digest : string) (max_bytes : N)
    : GitProg (Result string StoreError) :=
  let!? bytes := get_limited key max_bytes in Ret (verified key expected_digest bytes).

Definition get_idx (pack_digest : string) (max_bytes : N)
    : GitProg (Result (option string) StoreError) :=
  match idx_key_for_pack_digest pack_digest with
  | Err e => Ret (Err e)
  | Ok key =>
      let! r := get_limited key max_bytes in
      Ret (match r with
           | Ok bytes => Ok (Some bytes)
           | Err (NotFound _) => Ok None
           | Err e => Err e
           end)
  end.

Definition get_pointer (key : string) : GitProg (Result (option (ETag * string)) StoreError) :=
  let! r := call (GetObject key) in
  Ret (match r with
       | Ok resp =>
           match resp_etag resp with
           | Some etag => Ok (Some (etag, resp_body resp))
           | None => Err (Backend (HttpFailWithBody 500 "GET pointer: response missing ETag"))
           end
       | Err (HttpFailWithBody 404 _) => Ok None
       | Err e => Err (Backend e)
       end).

Definition classify_cas (result : Result S3Response S3Error) : Result CasOutcome StoreError :=
  match result with
  | Ok resp =>
      if is_success (status_code resp) then
        match resp_etag resp with
        | Some etag => Ok (Won etag)
        | None =>
            Err (Backend (HttpFailWithBody (status_code resp) "CAS succeeded but response missing ETag"))
        end
      else Err (Backend (HttpFailWithBody (status_code resp) "unexpected status"))
  | Err (HttpFailWithBody 412 _) => Ok LostRace
  | Err e => Err (Backend e)
  end.

Definition put_pointer (key body : string) (precond : Precond)
    : GitProg (Result CasOutcome StoreError) :=
  let invalid :=
    match precond with
    | IfMatch tag => negb (header_value_ok tag)
    | IfNoneMatchStar => false
    end in
  if invalid then Ret (Err (Backend (HttpFailWithBody 400 "invalid etag")))
  else let! r := call (PutObject key body precond) in Ret (classify_cas r).
End store.
