(* ===== verification/GitPublish.v ===== *)
(** * Publishing a push ([crates/buzz-relay/src/api/git]: [hydrate.rs], [cas_publish.rs],
      [transport.rs])

    A push hydrates a workspace from the published manifest, lets git change it, composes
    the next manifest from what it finds there, and installs it by compare-and-swap of the
    repository's pointer.  An announcement seeds the pointer with an empty manifest
    ([handlers/side_effects.rs]).  Git and the file system answer as they like; the text of
    an error is abbreviated to what failed. *)

From S2P Require Import Prelude Text Nostr Concurrent GitManifest GitStore.

Inductive CasError :=
| Conflict (winner_manifest : Manifest) (winner_manifest_key : string)
| ManifestReadFailed (what : string)
| ManifestInvalid (e : ManifestError)
| CasBackend (e : StoreError)
| PackCapture (what : string)
| ResourceLimit (what : string).

Record PublishLimits := {
  parent_hydrated_bytes : N;
  max_pack_bytes : N;
  max_repo_bytes : N;
}.

Record CasSuccess := {
  cs_manifest : Manifest;
  cs_manifest_key : string;
}.

Record ParentState := {
  if_match : option ETag;
  parent_digest : option string;
  ps_parent : Manifest;
}.

Definition fresh : ParentState :=
  {| if_match := None; parent_digest := None;
     ps_parent := {| m_version := MANIFEST_VERSION; m_head := ""; m_refs := ∅; m_packs := [];
                     m_parent := None |} |}.

Definition from_loaded (etag : ETag) (digest : string) (parent : Manifest) : ParentState :=
  {| if_match := Some etag; parent_digest := Some digest; ps_parent := parent |}.

(** [checked_add] on [u64]. *)
Definition checked_add (a b : N) : option N := if (a + b <? 2 ^ 64)%N then Some (a + b)%N else None.

Definition str_len (s : string) : N := N.of_nat (String.length s).

(** ** Reading the published state *)

Definition MAX_MANIFEST_BYTES : N := 4 * 1024 * 1024.

Record HydratedRepo := {
  hydrated_bytes : N;
  hydrated_packs : nat;
}.

(** A pointer's body as a manifest digest. *)
Definition pointer_digest (body : string) : option string :=
  let digest := if valid_utf8 body then trim body else "" in
  if bool_decide (String.length digest <> 64) || negb (all_bytes is_ascii_hexdigit digest)
  then None else Some digest.

Section publish.
Context `{NostrApi} `{GitCrypto} `{ManifestSerde}.

Definition hydrate_get_verified_limited (key digest : string) (max_bytes : N)
    : GitProg (Result string HydrateError) :=
  let! r := get_verified_limited key digest max_bytes in
  Ret (match r with
       | Ok bytes => Ok bytes
       | Err (ObjectTooLarge _ _ _) => Err (HResourceLimit "object too large")
       | Err e => Err (HStore e)
       end).

Definition load_pointer (pkey : string) : GitProg (Result (option (ETag * string * Manifest)) HydrateError) :=
  let!? p := map_err_await HStore (get_pointer pkey) in
  match p with
  | None => Ret (Ok None)
  | Some (etag, pointer_bytes) =>
      match pointer_digest pointer_bytes with
      | None => Ret (Err InvalidPointer)
      | Some digest =>
          let!? manifest_bytes :=
            hydrate_get_verified_limited ("manifests/" ++ digest) digest MAX_MANIFEST_BYTES in
          Ret (let? manifest := map_err HManifest (from_bytes manifest_bytes) in
               let? _ := map_err HManifest (validate manifest) in
               Ok (Some (etag, digest, manifest)))
      end
  end.

(** The packs, one at a time, within the budget. *)
Fixpoint materialize_packs (max_pack max_repo : N) (packs : list string) (total : N)
    : GitProg (Result N HydrateError) :=
  match packs with
  | [] => Ret (Ok total)
  | key :: packs =>
      match strip_prefix key "packs/" with
      | None => Ret (Err (Hydrate "malformed pack key"))
      | Some digest =>
          let!? bytes := call (MaterializePack key digest max_pack) in
          if (max_pack <? bytes)%N then Ret (Err (HResourceLimit "pack"))
          else
            match checked_add total bytes with
            | None => Ret (Err (HResourceLimit "repo byte count overflowed u64"))
            | Some total =>
                if (max_repo <? total)%N then Ret (Err (HResourceLimit "repo"))
                else materialize_packs max_pack max_repo packs total
            end
      end
  end.

Fixpoint write_refs (entries : list (string * string)) : GitProg (Result unit HydrateError) :=
  match entries with
  | [] => Ret (Ok tt)
  | (refname, oid) :: entries =>
      if negb (is_safe_refname refname) then Ret (Err (Hydrate "manifest contains unsafe refname"))
      else if negb (is_hex_oid oid) then Ret (Err (Hydrate "manifest ref has malformed oid"))
      else
        let!? _ := map_err_await Hydrate (call (WriteRef refname oid)) in
        write_refs entries
  end.

Definition materialize_manifest (manifest : Manifest) (max_pack max_repo : N)
    : GitProg (Result HydratedRepo HydrateError) :=
  let!? _ := map_err_await Hydrate (call InitBareRepo) in
  let!? bytes := materialize_packs max_pack max_repo (m_packs manifest) 0 in
  let!? _ := write_refs (btree_iter (m_refs manifest)) in
  if negb (is_safe_refname (m_head manifest)) then
    Ret (Err (Hydrate "manifest head is not a safe ref name"))
  else
    let!? _ := map_err_await Hydrate (call (WriteHead (m_head manifest))) in
    Ret (Ok {| hydrated_bytes := bytes; hydrated_packs := length (m_packs manifest) |}).

Definition hydrate_for_read (pkey : string) (max_pack max_repo : N)
    : GitProg (Result (option HydratedRepo) HydrateError) :=
  let!? p := load_pointer pkey in
  match p with
  | None => Ret (Ok None)
  | Some (_, _, manifest) =>
      let!? repo := materialize_manifest manifest max_pack max_repo in Ret (Ok (Some repo))
  end.

Definition hydrate_for_write (pkey : string) (max_pack max_repo : N)
    : GitProg (Result (HydratedRepo * ParentState) HydrateError) :=
  let!? p := load_pointer pkey in
  match p with
  | Some (etag, digest, manifest) =>
      let!? repo := materialize_manifest manifest max_pack max_repo in
      Ret (Ok (repo, from_loaded etag digest manifest))
  | None =>
      let!? _ := map_err_await Hydrate (call InitBareRepo) in
      Ret (Ok ({| hydrated_bytes := 0; hydrated_packs := 0 |}, fresh))
  end.

(** ** The state git left *)

Definition MAX_REF_SNAPSHOT_BYTES : N := 4 * 1024 * 1024.

(** One line of [git for-each-ref]. *)
Definition snapshot_line (refs : gmap string string) (line : string)
    : Result (gmap string string) CasError :=
  match split_once " " line with
  | None => Ok refs
  | Some (name, oid) =>
      if bool_decide (String.length oid <> 40) || negb (all_bytes is_ascii_hexdigit oid) then Ok refs
      else if (MAX_MANIFEST_REFS <=? N.of_nat (size refs))%N && bool_decide (refs !! name = None)
      then Err (ResourceLimit "workspace refs")
      else Ok (<[name := oid]> refs)
  end.

(** [from_utf8(..).unwrap_or_default().lines()] *)
Definition snapshot_lines (refs_stdout : string) : list string :=
  lines (if valid_utf8 refs_stdout then refs_stdout else "").

(** The standard output of [git symbolic-ref] comes decoded. *)
Definition snapshot_workspace_state : GitProg (Result (gmap string string * string) CasError) :=
  let!? refs_stdout := map_err_await PackCapture (call ForEachRef) in
  if (MAX_REF_SNAPSHOT_BYTES <? str_len refs_stdout)%N then Ret (Err (ResourceLimit "ref snapshot"))
  else
    match fold_result snapshot_line ∅ (snapshot_lines refs_stdout) with
    | Err e => Ret (Err e)
    | Ok refs =>
        let!? head_out := map_err_await PackCapture (call SymbolicRef) in
        Ret (Ok (refs, match head_out with Some out => trim out | None => "" end))
    end.

Definition is_published_branch (refs : gmap string string) (name : string) : bool :=
  starts_with name "refs/heads/" && bool_decide (refs !! name <> None).

Definition resolve_published_head (refs : gmap string string) (observed_head parent_head : string)
    : string :=
  if is_published_branch refs observed_head then observed_head
  else if is_published_branch refs parent_head then parent_head
  else if bool_decide (refs !! "refs/heads/main" <> None) then "refs/heads/main"
  else if bool_decide (refs !! "refs/heads/master" <> None) then "refs/heads/master"
  else
    match List.find (fun e => starts_with e.1 "refs/heads/") (btree_iter refs) with
    | Some (branch, _) => branch
    | None => if decide (observed_head <> "") then observed_head else parent_head
    end.

(** ** Packs *)

Definition digest_from_pack_key (key : string) : Result string CasError :=
  let bad := Err (CasBackend (Backend (HttpFailWithBody 500 "put_pack returned non-standard key"))) in
  match strip_prefix key "packs/" with
  | Some digest =>
      if bool_decide (String.length digest = 64) && all_bytes is_ascii_hexdigit digest then Ok digest
      else bad
  | None => bad
  end.

Definition write_idx_sidecar (pack_key pack_bytes : string) : GitProg (Result unit CasError) :=
  match digest_from_pack_key pack_key with
  | Err e => Ret (Err e)
  | Ok pack_digest =>
      let!? idx_bytes := map_err_await PackCapture (call (IndexPack pack_bytes)) in
      let!? _ := map_err_await CasBackend (put_idx pack_digest idx_bytes) in
      Ret (Ok tt)
  end.

Definition newline : string := String (Ascii.ascii_of_N 10) "".

Definition oid_lines (mark : string) (entries : list (string * string)) : string :=
  foldr (fun e s => mark ++ e.2 ++ newline ++ s)%string "" entries.

Definition capture_pack (refs_before refs_after : gmap string string) (max_pack : N)
    : GitProg (Result (option string) CasError) :=
  if decide (refs_after = ∅) then Ret (Ok None)
  else
    let stdin :=
      (oid_lines "" (btree_iter refs_after) ++ oid_lines "^" (btree_iter refs_before))%string in
    let!? stdout := map_err_await PackCapture (call (PackObjects stdin)) in
    Ret (if (max_pack <? str_len stdout)%N then Err (ResourceLimit "pack-objects output")
         else if decide (str_len stdout = 0%N) then Ok None
         else Ok (Some stdout)).

Definition should_compact (parent_pack_count threshold : nat) : bool :=
  (threshold <=? parent_pack_count)%nat.

Definition compacted_pack_set_is_usable (parent_pack_count compacted_pack_count : nat) : bool :=
  (compacted_pack_count <? parent_pack_count)%nat
  || ((MAX_MANIFEST_PACKS <=? parent_pack_count)%nat
      && (compacted_pack_count <=? MAX_MANIFEST_PACKS)%nat).

Definition MAX_COUNT_OBJECTS_OUTPUT_BYTES : N := 64 * 1024.
Definition MAX_COMPACTION_OBJECTS : N := 1000000.

Definition parse_count (output name : string) : Result N CasError :=
  match head (omap (fun line => strip_prefix line name) (lines output)) ≫= (fun v => parse_u64 (trim v)) with
  | Some n => Ok n
  | None => Err (PackCapture "count-objects omitted a count")
  end.

Definition enforce_compaction_object_limit : GitProg (Result unit CasError) :=
  let!? output := map_err_await PackCapture (call CountObjects) in
  Ret (if (MAX_COUNT_OBJECTS_OUTPUT_BYTES <? str_len output)%N
       then Err (ResourceLimit "count-objects output")
       else
         let? loose := parse_count output "count:" in
         let? packed := parse_count output "in-pack:" in
         match checked_add loose packed with
         | None => Err (ResourceLimit "compaction object count overflowed u64")
         | Some n =>
             if (MAX_COMPACTION_OBJECTS <? n)%N then Err (ResourceLimit "objects") else Ok tt
         end).

(** The distinct object ids, in the order of their refs. *)
Definition distinct_oids (refs : gmap string string) : list string :=
  dedup_first (snd <$> btree_iter refs).

(** The size checks of the packs git wrote. *)
Definition admit_compacted (limits : PublishLimits) (acc : list CompactedPack * N)
    (p : CompactedPack * Result N string) : Result (list CompactedPack * N) CasError :=
  if (max_pack_bytes limits <? pack_bytes p.1)%N then Err (ResourceLimit "compacted pack")
  else
    match checked_add acc.2 (pack_bytes p.1) with
    | None => Err (ResourceLimit "compacted byte count overflowed u64")
    | Some total =>
        if (max_repo_bytes limits <? total)%N then Err (ResourceLimit "compacted repo")
        else
          let? idx_bytes := map_err PackCapture p.2 in
          if (max_pack_bytes limits <? idx_bytes)%N then Err (ResourceLimit "compacted idx")
          else Ok ((acc.1 ++ [p.1])%list, total)
    end.

(** The packs with their total size. *)
Definition capture_compacted_packs (refs_after : gmap string string) (limits : PublishLimits)
    : GitProg (Result (list CompactedPack * N) CasError) :=
  if decide (refs_after = ∅) then Ret (Ok ([], 0%N))
  else
    let!? _ := enforce_compaction_object_limit in
    let stdin := foldr (fun oid s => oid ++ newline ++ s)%string "" (distinct_oids refs_after) in
    let!? packs := map_err_await PackCapture (call (CompactPackObjects stdin (max_pack_bytes limits))) in
    Ret (if (MAX_MANIFEST_PACKS <? length packs)%nat then Err (ResourceLimit "compacted packs")
         else fold_result (admit_compacted limits) ([], 0%N) packs).

Fixpoint upload_packs (packs : list CompactedPack) (keys : list string)
    : GitProg (Result (list string) CasError) :=
  match packs with
  | [] => Ret (Ok keys)
  | pack :: packs =>
      let!? bytes := map_err_await PackCapture (call (ReadFile (pack_path pack))) in
      if decide (str_len bytes <> pack_bytes pack)
      then Ret (Err (PackCapture "compacted pack changed after size validation"))
      else
        let!? pack_key := map_err_await CasBackend (put_pack bytes) in
        match digest_from_pack_key pack_key with
        | Err e => Ret (Err e)
        | Ok pack_digest =>
            let! idx := call (ReadFile (idx_path pack)) in
            let! _ :=
              match idx with
              | Ok idx_bytes => put_idx pack_digest idx_bytes
              | Err _ => Ret (Ok "")
              end in
            upload_packs packs (keys ++ [pack_key])%list
        end
  end.

Definition upload_compacted_packs (packs : list CompactedPack) : GitProg (Result (list string) CasError) :=
  let!? keys := upload_packs packs [] in Ret (Ok (dedup (sort_strings keys))).

(** [pack_keys] of the prepared compaction. *)
Definition prepare_compaction (refs_after : gmap string string) (limits : PublishLimits)
    (packs_before : nat) : GitProg (Result (list string) CasError) :=
  let!? (packs, _) := capture_compacted_packs refs_after limits in
  if negb (compacted_pack_set_is_usable packs_before (length packs))
  then Ret (Err (ResourceLimit "compaction did not reduce pack count"))
  else upload_compacted_packs packs.

(** [tokio::time::timeout]: the operation may be dropped wherever it awaits. *)
Fixpoint with_timeout {A E} (e : E) (p : GitProg (Result A E)) : GitProg (Result A E) :=
  match p with
  | Ret a => Do TimeoutElapsed (fun late => Ret (if (late : bool) then Err e else a))
  | Do c k =>
      Do TimeoutElapsed (fun late =>
        if (late : bool) then Ret (Err e) else Do c (fun r => with_timeout e (k r)))
  end.

(** ** Composition *)

Definition compose_after (parent : Manifest) (parent_digest : option string) (head : string)
    (refs : gmap string string) (new_pack_key : option string) : Manifest :=
  let packs :=
    match new_pack_key with
    | Some k => if decide (k ∈ m_packs parent) then m_packs parent else (m_packs parent ++ [k])%list
    | None => m_packs parent
    end in
  {| m_version := MANIFEST_VERSION; m_head := head; m_refs := refs;
     m_packs := dedup (sort_strings packs); m_parent := parent_digest |}.

Definition compose_compacted_after (parent_digest : option string) (head : string)
    (refs : gmap string string) (compacted_pack_keys : list string) : Manifest :=
  {| m_version := MANIFEST_VERSION; m_head := head; m_refs := refs;
     m_packs := dedup (sort_strings compacted_pack_keys); m_parent := parent_digest |}.

Definition digest_from_manifest_key (key : string) : Result string CasError :=
  match strip_prefix key "manifests/" with
  | Some digest => Ok digest
  | None => Err (CasBackend (Backend (HttpFailWithBody 500 "put_manifest returned non-standard key")))
  end.

(** The compacted manifest, or why there is none when one was due. *)
Definition try_compaction (ps : ParentState) (limits : PublishLimits) (threshold : nat)
    (refs_after : gmap string string) (head : string) : GitProg (option Manifest * option CasError) :=
  let packs_before := length (m_packs (ps_parent ps)) in
  if should_compact packs_before threshold then
    let! permit := call CompactionPermit in
    match permit with
    | Err e => Ret (None, Some (PackCapture e))
    | Ok _ =>
        let! r := with_timeout (PackCapture "pack compaction operation timed out")
                    (prepare_compaction refs_after limits packs_before) in
        Ret (match r with
             | Ok keys => (Some (compose_compacted_after (parent_digest ps) head refs_after keys), None)
             | Err e => (None, Some e)
             end)
    end
  else Ret (None, None).

(** The manifest that adds the push's own objects to the parent's packs. *)
Definition delta_manifest (ps : ParentState) (limits : PublishLimits) (failure : option CasError)
    (refs_after : gmap string string) (head : string) : GitProg (Result Manifest CasError) :=
  let packs_before := length (m_packs (ps_parent ps)) in
  let!? pack := capture_pack (m_refs (ps_parent ps)) refs_after (max_pack_bytes limits) in
  match pack with
  | None => Ret (Ok (compose_after (ps_parent ps) (parent_digest ps) head refs_after None))
  | Some bytes =>
      if (MAX_MANIFEST_PACKS <=? packs_before)%nat
      then Ret (Err (default (ResourceLimit "repository already at its packs") failure))
      else
        match checked_add (parent_hydrated_bytes limits) (str_len bytes) with
        | None => Ret (Err (ResourceLimit "repo byte count overflowed u64"))
        | Some total =>
            if (max_repo_bytes limits <? total)%N then Ret (Err (ResourceLimit "repo"))
            else
              let!? pack_key := map_err_await CasBackend (put_pack bytes) in
              let! _ := write_idx_sidecar pack_key bytes in
              Ret (Ok (compose_after (ps_parent ps) (parent_digest ps) head refs_after (Some pack_key)))
        end
  end.

(** ** The commit *)

Definition read_winner_after_conflict (pkey : string) : GitProg (Result (Manifest * string) CasError) :=
  let!? p := map_err_await CasBackend (get_pointer pkey) in
  match p with
  | None => Ret (Err (ManifestReadFailed "pointer vanished after LostRace"))
  | Some (_, body) =>
      match pointer_digest body with
      | None => Ret (Err (ManifestReadFailed "winner pointer body"))
      | Some digest =>
          let manifest_key := ("manifests/" ++ digest)%string in
          let! r := get_verified manifest_key digest in
          Ret (let? bytes :=
                 map_err (fun e => match e with
                                   | DigestMismatch _ _ _ => ManifestReadFailed "winner manifest digest mismatch"
                                   | NotFound _ => ManifestReadFailed "winner pointer names missing manifest"
                                   | other => CasBackend other
                                   end) r in
               let? winner := map_err (fun _ => ManifestReadFailed "parse winner manifest") (from_bytes bytes) in
               Ok (winner, manifest_key))
      end
  end.

(** Steps 6 and 7: the manifest object, then the pointer. *)
Definition commit (pkey : string) (ps : ParentState) (m_after : Manifest)
    : GitProg (Result CasSuccess CasError) :=
  match map_err ManifestInvalid (let? _ := validate m_after in canonical_bytes m_after) with
  | Err e => Ret (Err e)
  | Ok manifest_bytes =>
      let!? manifest_key := map_err_await CasBackend (put_manifest manifest_bytes) in
      match digest_from_manifest_key manifest_key with
      | Err e => Ret (Err e)
      | Ok manifest_digest =>
          let precond := match if_match ps with Some e => IfMatch e | None => IfNoneMatchStar end in
          let!? outcome := map_err_await CasBackend (put_pointer pkey manifest_digest precond) in
          match outcome with
          | Won _ => Ret (Ok {| cs_manifest := m_after; cs_manifest_key := manifest_key |})
          | LostRace =>
              let!? (winner, key) := read_winner_after_conflict pkey in
              Ret (Err (Conflict winner key))
          end
      end
  end.

(** What follows the snapshot. *)
Definition publish_snapshot (pkey : string) (ps : ParentState) (limits : PublishLimits)
    (threshold : nat) (refs_after : gmap string string) (head_observed : string)
    : GitProg (Result CasSuccess CasError) :=
  let head := resolve_published_head refs_after head_observed (m_head (ps_parent ps)) in
  let! (compacted, failure) := try_compaction ps limits threshold refs_after head in
  let!? m_after :=
    match compacted with
    | Some manifest => Ret (Ok manifest)
    | None => delta_manifest ps limits failure refs_after head
    end in
  commit pkey ps m_after.

Definition cas_publish_inner (pkey : string) (ps : ParentState) (limits : PublishLimits)
    (threshold : nat) : GitProg (Result CasSuccess CasError) :=
  let!? (refs_after, head_observed) := snapshot_workspace_state in
  publish_snapshot pkey ps limits threshold refs_after head_observed.

Definition cas_publish (pkey : string) (ps : ParentState) (limits : PublishLimits)
    : GitProg (Result CasSuccess CasError) :=
  cas_publish_inner pkey ps limits PACK_COMPACTION_THRESHOLD.
End publish.
