(* ===== verification/GitPush.v ===== *)
(** * Serving a push ([crates/buzz-relay/src/api/git/transport.rs])

    The request handler of [git-receive-pack] from the hydration of its workspace to the
    response, the scan of git's report for rejected refs, and the seeding of a repository's
    pointer when it is announced ([handlers/side_effects.rs]). *)

From S2P Require Import Prelude Text Nostr Concurrent GitManifest GitStore GitPublish.

(** ** Git's report *)

Definition hex_value (a : Ascii.ascii) : option N :=
  let n := Ascii.N_of_ascii a in
  if is_ascii_digit a then Some (n - 48)%N
  else if byte_in 65 70 a then Some (n - 55)%N
  else if byte_in 97 102 a then Some (n - 87)%N
  else None.

Fixpoint hex_digits (acc : N) (s : string) : option N :=
  match s with
  | EmptyString => Some acc
  | String a s => v ← hex_value a; hex_digits (acc * 16 + v) s
  end.

(** [usize::from_str_radix(s, 16)], which allows a plus sign. *)
Definition from_str_radix_16 (s : string) : option N :=
  let digits := match s with String "+" rest => rest | _ => s end in
  if decide (digits = "") then None else hex_digits 0 digits.

(** The payloads that [PktLineIter] yields; every turn consumes at least four bytes. *)
Fixpoint pkt_lines_fuel (fuel : nat) (buf : string) : list string :=
  match fuel with
  | 0 => []
  | S fuel =>
      if (String.length buf <? 4)%nat then []
      else
        let len_hex := String.substring 0 4 buf in
        match (if valid_utf8 len_hex then from_str_radix_16 len_hex else None) with
        | None => []
        | Some len =>
            let len := N.to_nat len in
            let rest n := String.substring n (String.length buf - n) buf in
            if (len <? 4)%nat then pkt_lines_fuel fuel (rest 4)
            else if (String.length buf <? len)%nat then []
            else String.substring 4 (len - 4) buf :: pkt_lines_fuel fuel (rest len)
        end
  end.

Definition pkt_lines (buf : string) : list string := pkt_lines_fuel (String.length buf) buf.

Definition is_ng (line : string) : bool := starts_with line "ng ".

Definition payload_rejected (payload : string) : bool :=
  match payload with
  | EmptyString => false
  | String b rest =>
      let n := Ascii.N_of_ascii b in
      if decide (n = 1%N) then existsb is_ng (pkt_lines rest)
      else if decide (n = 2%N \/ n = 3%N) then false
      else is_ng payload
  end.

Definition receive_pack_report_rejected (stdout : string) : bool :=
  existsb payload_rejected (pkt_lines stdout).

(** ** The handler *)

Record PackOutput := {
  po_stdout : string;
  po_ok : bool;
}.

Definition RECEIVE_PACK_MAX_OUTPUT_BYTES : N := 1024 * 1024.

(** An HTTP response: git's own output with status 200, or a status with a text. *)
Inductive Response :=
| GitResponse (body : string)
| Status (code : N) (body : string).

Definition run_git_at (body : string) : GitProg (Result PackOutput Response) :=
  let! r := call (ReceivePack body) in
  Ret (match r with
       | Err code => Err (Status code "git error")
       | Ok (stdout, success) =>
           if (RECEIVE_PACK_MAX_OUTPUT_BYTES <? str_len stdout)%N
           then Err (Status 413 "git output exceeds relay limits")
           else Ok {| po_stdout := stdout;
                      po_ok := success && negb (receive_pack_report_rejected stdout) |}
       end).

Definition cas_error_response (e : CasError) : Response :=
  match e with
  | Conflict _ _ => Status 409 "push superseded by a concurrent writer; pull and retry"
  | ManifestInvalid _ => Status 400 "push produced invalid manifest state"
  | ResourceLimit _ => Status 413 "repository exceeds relay resource limits"
  | _ => Status 500 "git backend error"
  end.

Definition hydrate_error_to_response (e : HydrateError) : Response :=
  match e with
  | HResourceLimit _ => Status 413 "repository exceeds relay resource limits"
  | _ => Status 500 "git backend hydration failed"
  end.

Section push.
Context `{NostrApi} `{GitCrypto} `{ManifestSerde}.

Definition manifest_changed (before after : option string) : bool :=
  match before, after with
  | Some before, Some after => bool_decide (before <> after)
  | _, _ => true
  end.

Definition finalize_push (pkey : string) (pack : PackOutput) (ps : ParentState) (limits : PublishLimits)
    : GitProg Response :=
  if negb (po_ok pack) then Ret (GitResponse (po_stdout pack))
  else
    let! r := cas_publish pkey ps limits in
    match r with
    | Err e => Ret (cas_error_response e)
    | Ok success =>
        let after_digest := strip_prefix (cs_manifest_key success) "manifests/" in
        let! _ :=
          if manifest_changed (parent_digest ps) after_digest
          then call (EmitRefState (m_head (cs_manifest success)) (m_refs (cs_manifest success)))
          else Ret tt in
        Ret (GitResponse (po_stdout pack))
    end.

(** [Err] is an early response. *)
Definition receive_pack (community : CommunityId) (owner repo body : string) (max_pack max_repo : N)
    : GitProg Response :=
  let pkey := pointer_key community owner repo in
  let! r := hydrate_for_write pkey max_pack max_repo in
  match r with
  | Err e => Ret (hydrate_error_to_response e)
  | Ok (hydrated, ps) =>
      let! hook := call InstallHook in
      match hook with
      | Err _ => Ret (Status 500 "git hook install failed")
      | Ok _ =>
          let! pack := run_git_at body in
          match pack with
          | Err resp => Ret resp
          | Ok pack =>
              finalize_push pkey pack ps
                {| parent_hydrated_bytes := hydrated_bytes hydrated; max_pack_bytes := max_pack;
                   max_repo_bytes := max_repo |}
          end
      end
  end.

(** ** Announcing a repository *)

Definition DEFAULT_HEAD : string := "refs/heads/main".

Definition empty_manifest : Manifest :=
  {| m_version := MANIFEST_VERSION; m_head := DEFAULT_HEAD; m_refs := ∅; m_packs := []; m_parent := None |}.

Definition seed_manifest_pointer (pkey : string) : GitProg (Result unit string) :=
  match (let? _ := validate empty_manifest in canonical_bytes empty_manifest) with
  | Err _ => Ret (Err "empty manifest")
  | Ok bytes =>
      let!? manifest_key := map_err_await (fun _ => "put_manifest"%string) (put_manifest bytes) in
      match strip_prefix manifest_key "manifests/" with
      | None => Ret (Err "put_manifest returned non-standard key")
      | Some digest =>
          let!? outcome :=
            map_err_await (fun _ => "put_pointer"%string) (put_pointer pkey digest IfNoneMatchStar) in
          match outcome with
          | Won _ => Ret (Ok tt)
          | LostRace =>
              let!? p := map_err_await (fun _ => "re-read pointer"%string) (get_pointer pkey) in
              match p with
              | None => Ret (Err "pointer vanished after LostRace race")
              | Some (_, body) =>
                  Ret (if negb (valid_utf8 body) then Err "pointer body not utf-8"
                       else if decide (trim body <> digest) then Err "already has a non-empty pointer"
                       else Ok tt)
              end
          end
      end
  end.

Definition ensure_manifest_pointer (pkey : string) : GitProg (Result unit string) :=
  let!? existing := map_err_await (fun _ => "get_pointer"%string) (get_pointer pkey) in
  match existing with
  | Some _ => Ret (Ok tt)
  | None => seed_manifest_pointer pkey
  end.
End push.
