(* ===== verification/GitHistory.v ===== *)
(** * The store under concurrent pushes ([GitPush])

    Any number of pushes, announcements and reads, on any number of relays, run against one
    object store between whose requests anything else may happen.  This file has the model
    of that store ([S3], its laws and the answers it may give), the invariant the programs
    keep, and the verification of each program on its own with [Concurrent.wp]. *)

From S2P Require Import Prelude Text Nostr Concurrent GitManifest GitStore GitPublish GitPush.

(** ** The S3 service *)

(** What the server does with a request: an object with its ETag, and the ETag a write was
    stored under, unless its precondition failed. *)
Class S3 := {
  Bucket : Type;
  empty_bucket : Bucket;
  s3_get : Bucket -> string -> option (string * ETag);
  s3_put : Bucket -> string -> string -> Precond -> Bucket * option ETag;
}.

Definition precond_holds `{S3} (b : Bucket) (k : string) (p : Precond) : Prop :=
  match p with
  | IfNoneMatchStar => s3_get b k = None
  | IfMatch e => exists v, s3_get b k = Some (v, e)
  end.

(** The documented behaviour of conditional writes, and of an ETag: it stands for one
    content of its object. *)
Class S3Laws `{S3} := {
  s3_get_empty k : s3_get empty_bucket k = None;
  s3_put_stored b k v p b' e :
    s3_put b k v p = (b', Some e) ->
    precond_holds b k p /\ s3_get b' k = Some (v, e) /\
    forall k', k' <> k -> s3_get b' k' = s3_get b k';
  s3_put_refused b k v p b' : s3_put b k v p = (b', None) -> b' = b /\ ~ precond_holds b k p;
  s3_etag b b' k v v' e : s3_get b k = Some (v, e) -> s3_get b' k = Some (v', e) -> v = v';
}.

(** SHA-256 in hexadecimal. *)
Class GitCryptoLaws `{GitCrypto} := {
  sha256_hex_digest bytes : is_manifest_digest (sha256_hex bytes) = true;
}.

(** A manifest is read back from its bytes. *)
Class ManifestSerdeLaws `{ManifestSerde} := {
  from_slice_to_vec m bytes : to_vec m = Ok bytes -> from_slice bytes = Ok m;
}.

(** ** The world and its answers *)

Section world.
Context `{S3} `{GitCrypto}.

(** The bucket, and every object stored so far with its key, in order. *)
Record GitWorld := {
  w_bucket : Bucket;
  w_log : list (string * string);
}.

(** A failure that is neither of the two statuses the code reads. *)
Definition other_error (e : S3Error) : Prop :=
  match e with
  | HttpFailWithBody code _ => code <> 404%N /\ code <> 412%N
  | S3Transport _ => True
  end.

(** A write runs or does not, and its answer may be lost; 412 says that the precondition
    does not hold, be it because the write itself was retried.  No two contents that meet
    at a key have the same SHA-256. *)
Definition put_answer (k v : string) (p : Precond) (w w' : GitWorld)
    (r : Result S3Response S3Error) : Prop :=
  (forall v0 e, s3_get (w_bucket w) k = Some (v0, e) -> sha256_hex v0 = sha256_hex v -> v0 = v) /\
  exists o : option ETag,
    (o = None /\ w' = w \/
     exists e, o = Some e /\ s3_put (w_bucket w) k v p = (w_bucket w', Some e) /\
       w_log w' = (w_log w ++ [(k, v)])%list) /\
    ((exists e et, o = Some e /\ (et = Some e \/ et = None) /\
        r = Ok {| status_code := 200; resp_etag := et; resp_body := "" |}) \/
     (exists text, ~ precond_holds (w_bucket w') k p /\ r = Err (HttpFailWithBody 412 text)) \/
     exists e, other_error e /\ r = Err e).

Definition read_answer {A} (k : string) (w : GitWorld) (ok : string -> ETag -> A)
    (r : Result A S3Error) : Prop :=
  (exists v e, s3_get (w_bucket w) k = Some (v, e) /\ r = Ok (ok v e)) \/
  (exists text, s3_get (w_bucket w) k = None /\ r = Err (HttpFailWithBody 404 text)) \/
  exists e, other_error e /\ r = Err e.

Definition git_answer (R : Type) (c : GitCall R) (w w' : GitWorld) : R -> Prop :=
  match c in GitCall R return R -> Prop with
  | PutObject k v p => put_answer k v p w w'
  | GetObject k => fun r => w' = w /\
      read_answer k w (fun v e => {| status_code := 200; resp_etag := Some e; resp_body := v |}) r
  | HeadObject k => fun r => w' = w /\
      read_answer k w (fun v _ => (Some (Z.of_nat (String.length v)), 200%N)) r
  | _ => fun _ => w' = w
  end.
End world.

(** ** The invariant *)

Section invariant.
Context `{NostrApi} `{S3} `{GitCrypto} `{ManifestSerde}.

Definition stored (w : GitWorld) (k v : string) : Prop :=
  exists e, s3_get (w_bucket w) k = Some (v, e).

(** Every content a key has had. *)
Definition hist (w : GitWorld) (k : string) : list string :=
  snd <$> filter (fun o => o.1 = k) (w_log w).

(** A pack under the key of its content. *)
Definition present (w : GitWorld) (p : string) : Prop :=
  exists v, p = content_key "packs" v /\ stored w p v.

(** The manifest of a digest, in the store with every pack it names. *)
Definition published (w : GitWorld) (d : string) (m : Manifest) : Prop :=
  exists bytes, stored w ("manifests/" ++ d) bytes /\ sha256_hex bytes = d /\
    from_bytes bytes = Ok m /\ validate m = Ok tt /\
    Forall (present w) (m_packs m).

(** Every digest names a published manifest whose parent is the digest before it. *)
Fixpoint linked (w : GitWorld) (prev : option string) (h : list string) : Prop :=
  match h with
  | [] => True
  | d :: h => exists m, published w d m /\ m_parent m = prev /\ linked w (Some d) h
  end.

Definition is_pointer (k : string) : Prop := exists c o r, k = pointer_key c o r.
Definition immutable (prefix : string) : Prop := prefix = "packs" \/ prefix = "manifests".

Record git_inv (w : GitWorld) : Prop := {
  inv_current k : fst <$> s3_get (w_bucket w) k = last (hist w k);
  inv_content prefix d v : immutable prefix -> stored w (prefix ++ "/" ++ d) v -> sha256_hex v = d;
  inv_linked k : is_pointer k -> linked w None (hist w k);
}.

(** Objects are only added, and packs and manifests stay. *)
Record git_ext (w w' : GitWorld) : Prop := {
  ext_log : w_log w `prefix_of` w_log w';
  ext_content prefix d v : immutable prefix ->
    stored w (prefix ++ "/" ++ d) v -> stored w' (prefix ++ "/" ++ d) v;
}.

#[export] Instance git_ext_preorder : PreOrder git_ext.
Proof.
  split.
  - by intros w.
  - intros w1 w2 w3 [L1 C1] [L2 C2]. split; [by etrans|]. eauto.
Qed.

Definition empty_world : GitWorld := {| w_bucket := empty_bucket; w_log := [] |}.

Notation gwp := (wp git_answer git_inv git_ext).

(** ** Facts *)

Lemma stored_fun w k v v' : stored w k v -> stored w k v' -> v = v'.
Proof. intros [e He] [e' He']. congruence. Qed.

Lemma published_fun w d m m' : published w d m -> published w d m' -> m = m'.
Proof.
  intros (b & Hb & _ & Hm & _) (b' & Hb' & _ & Hm' & _).
  assert (b = b') as -> by by eapply stored_fun. congruence.
Qed.

Lemma present_ext w w' p : git_ext w w' -> present w p -> present w' p.
Proof.
  intros [_ Hc] (v & -> & Hs). exists v. split; [done|]. apply (Hc "packs"); [by left|done].
Qed.

Lemma published_ext w w' d m : git_ext w w' -> published w d m -> published w' d m.
Proof.
  intros Hext (b & Hb & Hsha & Hm & Hv & Hp). exists b. split_and!; [|done..|].
  - apply (ext_content _ _ Hext "manifests" d); [by right|done].
  - eapply Forall_impl; [exact Hp|]. intros p. by apply present_ext.
Qed.

Lemma linked_ext w w' prev h : git_ext w w' -> linked w prev h -> linked w' prev h.
Proof.
  intros Hext. revert prev. induction h as [|d h IH]; intros prev; simpl; [done|].
  intros (m & Hm & Hp & Hl). exists m. eauto using published_ext.
Qed.

Lemma linked_snoc w prev h d m :
  linked w prev h -> published w d m -> m_parent m = (if last h is Some p then Some p else prev) ->
  linked w prev (h ++ [d]).
Proof.
  revert prev. induction h as [|d0 h IH]; intros prev; simpl.
  - intros _ Hm Hp. by exists m.
  - intros (m0 & Hm0 & Hp0 & Hl) Hm Hp. exists m0. split_and!; [done..|]. apply IH; [done..|].
    rewrite Hp. clear. destruct h as [|d1 h]; [done|].
    change (last (d0 :: d1 :: h)) with (last (d1 :: h)).
    by destruct (last_is_Some (d1 :: h)) as [_ [x ->]].
Qed.

(** What a link is, by position. *)
Lemma linked_lookup w prev h i d :
  linked w prev h -> h !! i = Some d ->
  exists m, published w d m /\ m_parent m = match i with 0 => prev | S j => h !! j end.
Proof.
  revert prev i. induction h as [|d0 h IH]; intros prev i; [done|].
  intros (m0 & Hm0 & Hp0 & Hl) Hi. destruct i as [|i]; simpl in *; [simplify_eq; eauto|].
  destruct (IH _ _ Hl Hi) as (m & Hm & Hp). exists m. split; [done|]. by destruct i.
Qed.

Lemma linked_elem w h d : linked w None h -> d ∈ h -> exists m, published w d m.
Proof.
  intros Hl [i Hi]%list_elem_of_lookup. destruct (linked_lookup _ _ _ _ _ Hl Hi) as (m & Hm & _). eauto.
Qed.

(** Digests do not repeat: going back along equal parents would end at a first manifest
    with a parent. *)
Lemma linked_NoDup w h : linked w None h -> NoDup h.
Proof.
  intros Hl. apply NoDup_alt. intros i j d Hi Hj.
  assert (forall i j d, h !! i = Some d -> h !! j = Some d -> i <= j -> i = j) as Hle.
  { clear i j d Hi Hj. induction i as [|i IH]; intros j d Hi Hj Hij.
    - destruct j as [|j]; [done|]. exfalso.
      destruct (linked_lookup _ _ _ _ _ Hl Hi) as (m & Hm & Hp).
      destruct (linked_lookup _ _ _ _ _ Hl Hj) as (m' & Hm' & Hp'). simpl in *.
      rewrite (published_fun _ _ _ _ Hm Hm'), Hp' in Hp.
      destruct (lookup_lt_is_Some_2 h j) as [x Hx]; [apply lookup_lt_Some in Hj; lia|congruence].
    - destruct j as [|j]; [lia|]. f_equal.
      destruct (linked_lookup _ _ _ _ _ Hl Hi) as (m & Hm & Hp).
      destruct (linked_lookup _ _ _ _ _ Hl Hj) as (m' & Hm' & Hp'). simpl in *.
      rewrite (published_fun _ _ _ _ Hm Hm'), Hp' in Hp.
      destruct (lookup_lt_is_Some_2 h i) as [x Hx]; [apply lookup_lt_Some in Hi; lia|].
      apply (IH j x); [done|congruence|lia]. }
  destruct (decide (i <= j)); [by eapply Hle|symmetry; eapply Hle; [done..|lia]].
Qed.

(** No manifest has two successors. *)
Lemma linked_no_fork w h d d' m m' :
  linked w None h -> d ∈ h -> d' ∈ h -> published w d m -> published w d' m' ->
  m_parent m = m_parent m' -> d = d'.
Proof.
  intros Hl [i Hi]%list_elem_of_lookup [j Hj]%list_elem_of_lookup Hm Hm' E.
  destruct (linked_lookup _ _ _ _ _ Hl Hi) as (m1 & Hm1 & Hp1).
  destruct (linked_lookup _ _ _ _ _ Hl Hj) as (m2 & Hm2 & Hp2).
  rewrite (published_fun _ _ _ _ Hm Hm1), (published_fun _ _ _ _ Hm' Hm2), Hp1, Hp2 in E.
  pose proof (linked_NoDup _ _ Hl) as Hn.
  assert (forall i, S i < length h -> is_Some (h !! i)) as Hpred
    by (intros n Hlt; apply lookup_lt_is_Some_2; lia).
  apply lookup_lt_Some in Hi as Hi', Hj as Hj'.
  assert (i = j) as ->; [|congruence]. destruct i as [|i], j as [|j]; [done|..].
  - by destruct (Hpred j Hj') as [x Hx]; rewrite Hx in E.
  - by destruct (Hpred i Hi') as [x Hx]; rewrite Hx in E.
  - destruct (Hpred i Hi') as [x Hx]. f_equal. eapply NoDup_lookup; [done|exact Hx|congruence].
Qed.

Lemma hist_app w w' k : git_ext w w' -> hist w k `prefix_of` hist w' k.
Proof.
  intros [[l Hl] _]. unfold hist. rewrite Hl, filter_app, fmap_app. by eexists.
Qed.

Lemma elem_of_hist_ext w w' k d : git_ext w w' -> d ∈ hist w k -> d ∈ hist w' k.
Proof. intros Hext Hd. destruct (hist_app _ _ k Hext) as [h ->]. apply elem_of_app. by left. Qed.

Lemma stored_hist w k v : git_inv w -> stored w k v -> last (hist w k) = Some v.
Proof. intros Hi [e He]. by rewrite <-(inv_current w Hi), He. Qed.

Lemma empty_world_inv `{!S3Laws} : git_inv empty_world.
Proof.
  split.
  - intros k. simpl. by rewrite s3_get_empty.
  - intros prefix d v _ [e He]. simpl in He. by rewrite s3_get_empty in He.
  - done.
Qed.
End invariant.

Notation gwp := (wp git_answer git_inv git_ext).
Notation gwp_seq := (wp_seq git_answer git_inv git_ext).
Notation gwp_seq_ok := (wp_seq_ok git_answer git_inv git_ext).
Notation gwp_map_err := (wp_map_err git_answer git_inv git_ext).
