(* ===== verification/GitStoreProps.v ===== *)
(** * The store operations under the invariant of [GitHistory]

    Which writes keep the invariant, and what each operation of [GitStore] has done or read
    when it returns, whatever else runs against the store in between. *)

From S2P Require Import Prelude Text Nostr Concurrent GitManifest GitStore GitPublish GitPush GitHistory.

(** ** Strings *)

Lemma digest_length d : is_manifest_digest d = true -> String.length d = 64.
Proof. unfold is_manifest_digest. by intros [?%bool_decide_eq_true _]%andb_true_iff. Qed.

Section byte_classes.
Implicit Types (a : Ascii.ascii) (s : string).

Lemma lower_hexdigit_range a : is_lower_hexdigit a = true -> byte_in 33 126 a = true /\ is_ascii_hexdigit a = true.
Proof.
  unfold is_lower_hexdigit, is_ascii_hexdigit, is_ascii_digit, byte_in. intros Ha.
  repeat match goal with
  | H : orb _ _ = true |- _ => apply orb_true_iff in H as [?|?]
  | H : andb _ _ = true |- _ => apply andb_true_iff in H as [?%N.leb_le ?%N.leb_le]
  end; (split; [apply andb_true_iff; split; apply N.leb_le; lia|]);
    rewrite !orb_true_iff, !andb_true_iff, !N.leb_le; lia.
Qed.

Lemma all_bytes_rev p acc s :
  all_bytes p (string_rev acc s) = all_bytes p s && all_bytes p acc.
Proof.
  revert acc. induction s as [|a s IH]; intros acc; simpl; [done|]. rewrite IH. simpl.
  by destruct (p a), (all_bytes p s).
Qed.

Lemma visible_utf8 s : all_bytes (byte_in 33 126) s = true -> valid_utf8 s = true.
Proof.
  induction s as [|a s IH]; cbn [all_bytes valid_utf8]; [done|]. intros [Ha Hs]%andb_true_iff.
  assert (byte_in 0 127 a = true) as ->; [|by apply IH].
  unfold byte_in in *. rewrite andb_true_iff, !N.leb_le in *. lia.
Qed.

(** White space starts with no visible character, read in either direction. *)
Definition starts_invisible (p : string) : bool :=
  match p with EmptyString => false | String b _ => negb (byte_in 33 126 b) end.

Lemma strip_any_visible ps s :
  forallb starts_invisible ps = true ->
  all_bytes (byte_in 33 126) s = true -> strip_any ps s = None.
Proof.
  intros Hps Hs. unfold strip_any. induction ps as [|p ps IH]; [done|]. simpl.
  cbn [forallb] in Hps. apply andb_true_iff in Hps as [Hp Hps]. specialize (IH Hps).
  destruct p as [|b p]; [done|]. destruct s as [|a s]; [exact IH|]. simpl.
  rewrite decide_False; [exact IH|]. intros ->. simpl in Hs, Hp. by destruct (byte_in 33 126 a).
Qed.

Lemma trim_start_visible ps s :
  forallb starts_invisible ps = true ->
  all_bytes (byte_in 33 126) s = true -> trim_start ps s = s.
Proof.
  intros Hps Hs. unfold trim_start. destruct (String.length s); [done|]. simpl.
  by rewrite strip_any_visible.
Qed.

Lemma trim_visible s : all_bytes (byte_in 33 126) s = true -> trim s = s.
Proof.
  intros Hs. unfold trim. rewrite (trim_start_visible white_space s); [|reflexivity|done].
  rewrite trim_start_visible; [by rewrite string_rev_rev|reflexivity|].
  by rewrite all_bytes_rev, Hs.
Qed.
End byte_classes.

(** A digest is a pointer body as it stands. *)
Lemma pointer_digest_of d : is_manifest_digest d = true -> pointer_digest d = Some d /\ trim d = d /\ valid_utf8 d = true.
Proof.
  intros Hd. pose proof (digest_length d Hd) as Hlen. unfold is_manifest_digest in Hd.
  apply andb_true_iff in Hd as [_ Hd].
  assert (all_bytes (byte_in 33 126) d = true) as Hv
    by (eapply all_bytes_impl, Hd; by intros a [? _]%lower_hexdigit_range).
  assert (all_bytes is_ascii_hexdigit d = true) as Hx
    by (eapply all_bytes_impl, Hd; by intros a [_ ?]%lower_hexdigit_range).
  unfold pointer_digest. rewrite visible_utf8, trim_visible, Hx by done.
  by rewrite bool_decide_eq_false_2 by lia.
Qed.

(** ** Writes *)

Section writes.
Context `{NostrApi} `{S3Laws} `{GitCryptoLaws} `{ManifestSerdeLaws}.
Implicit Types (w : GitWorld) (k v d prefix : string).

Lemma content_key_neq prefix prefix' d d' :
  immutable prefix -> immutable prefix' -> (prefix ++ "/" ++ d = prefix' ++ "/" ++ d')%string ->
  prefix = prefix' /\ d = d'.
Proof. intros [-> | ->] [-> | ->]; cbn; intros E; by simplify_eq. Qed.

Lemma pointer_not_content k prefix d : is_pointer k -> immutable prefix -> k <> (prefix ++ "/" ++ d)%string.
Proof. intros (c & o & r & ->) [-> | ->]; unfold pointer_key; cbn; discriminate. Qed.

(** An object that was stored, with the log that says so. *)
Record stored_at w w' k v : Prop := {
  at_new : stored w' k v;
  at_old k' : k' <> k -> s3_get (w_bucket w') k' = s3_get (w_bucket w) k';
  at_log : w_log w' = (w_log w ++ [(k, v)])%list;
}.

Lemma stored_at_hist w w' k v k' :
  stored_at w w' k v -> hist w' k' = (hist w k' ++ if decide (k = k') then [v] else [])%list.
Proof.
  intros [_ _ Hl]. unfold hist. rewrite Hl, filter_app, fmap_app. f_equal.
  rewrite filter_cons. simpl. by case_decide.
Qed.

(** A write keeps the invariant when a content-addressed key is new and holds its content,
    and a pointer moves to a manifest whose parent was current. *)
Lemma stored_at_inv w w' k v :
  git_inv w -> stored_at w w' k v ->
  (forall prefix d, immutable prefix -> k = (prefix ++ "/" ++ d)%string ->
     sha256_hex v = d /\ s3_get (w_bucket w) k = None) ->
  (is_pointer k -> exists m, published w v m /\ m_parent m = last (hist w k)) ->
  git_inv w' /\ git_ext w w'.
Proof.
  intros Hi Hat Hc Hp.
  assert (git_ext w w') as Hext.
  { destruct Hat as [Hn Ho Hl]. split; [rewrite Hl; by eexists|].
    intros prefix d v' Hpre [e He]. exists e. rewrite Ho; [done|]. intros E.
    destruct (Hc prefix d Hpre (eq_sym E)) as [_ Hnone]. by rewrite E, Hnone in He. }
  split; [|done]. split.
  - intros k'. rewrite (stored_at_hist _ _ _ _ k' Hat). destruct Hat as [[e He] Ho _].
    case_decide as E; [subst k'; by rewrite last_snoc, He|].
    rewrite app_nil_r, Ho by done. apply inv_current, Hi.
  - intros prefix d v' Hpre Hv'. destruct (decide (k = prefix ++ "/" ++ d)%string) as [E|E].
    + destruct (Hc prefix d Hpre E) as [Hsha _]. rewrite <-E in Hv'.
      by rewrite (stored_fun _ _ _ _ Hv' (at_new _ _ _ _ Hat)).
    + apply (inv_content w Hi prefix); [done|]. destruct Hv' as [e He]. exists e.
      by rewrite <-(at_old _ _ _ _ Hat).
  - intros k' Hk'. rewrite (stored_at_hist _ _ _ _ k' Hat).
    pose proof (linked_ext _ _ _ _ Hext (inv_linked w Hi k' Hk')) as Hl.
    case_decide as E; [|by rewrite app_nil_r]. subst k'. destruct (Hp Hk') as (m & Hm & Hpar).
    apply (linked_snoc _ _ _ _ m); [done|by eapply published_ext|]. rewrite Hpar.
    by destruct (last (hist w k)).
Qed.

(** What an answered write has done. *)
Lemma put_answer_cases k v p w w' r :
  put_answer k v p w w' r ->
  (w' = w \/ precond_holds (w_bucket w) k p /\ stored_at w w' k v) /\
  ((exists et, r = Ok {| status_code := 200; resp_etag := et; resp_body := "" |} /\ stored w' k v /\
      precond_holds (w_bucket w) k p /\ stored_at w w' k v) \/
   (exists text, r = Err (HttpFailWithBody 412 text) /\ ~ precond_holds (w_bucket w') k p) \/
   exists e, other_error e /\ r = Err e) /\
  forall v0, stored w k v0 -> sha256_hex v0 = sha256_hex v -> v0 = v.
Proof.
  intros (Hcol & o & Ho & Hr).
  assert (forall e, o = Some e -> precond_holds (w_bucket w) k p /\ stored_at w w' k v) as Hdone.
  { intros e He. destruct Ho as [[? ?]|(e' & He' & Hput & Hlog)]; [congruence|].
    destruct (s3_put_stored _ _ _ _ _ _ Hput) as (Hpre & Hget & Hold). split; [done|].
    split; [by exists e'|done|done]. }
  split_and!.
  - destruct Ho as [[_ ->]|(e & He & _)]; [by left|right; by eapply Hdone].
  - destruct Hr as [(e & et & He & _ & ->)|[(text & Hn & ->)|(e & He & ->)]]; [|by eauto|by eauto].
    left. exists et. destruct (Hdone e He) as [Hpre Hat]. split_and!; [done|apply Hat|done|done].
  - intros v0 [e He] Hsha. by eapply Hcol.
Qed.

(** ** Programs that write nothing *)

Definition quiet_call {R} (c : GitCall R) : bool := match c with PutObject _ _ _ => false | _ => true end.

Fixpoint quiet {A} (p : GitProg A) : Prop :=
  match p with
  | Ret _ => True
  | Do c k => quiet_call c = true /\ forall r, quiet (k r)
  end.

Lemma quiet_answer {R} (c : GitCall R) w w' r : quiet_call c = true -> git_answer R c w w' r -> w' = w.
Proof. destruct c; simpl; naive_solver. Qed.

Lemma quiet_bind {A B} (p : GitProg A) (f : A -> GitProg B) :
  quiet p -> (forall a, quiet (f a)) -> quiet (bind p f).
Proof. induction p as [a|R c k IH]; simpl; [auto|]. intros [Hc Hk] Hf. split; [done|]. auto. Qed.

Lemma quiet_bind_ok {A B E} (p : GitProg (Result A E)) (f : A -> GitProg (Result B E)) :
  quiet p -> (forall a, quiet (f a)) -> quiet (bind_ok p f).
Proof. intros Hp Hf. apply quiet_bind; [done|]. by intros []. Qed.

Lemma quiet_map_err {A E F} (g : E -> F) (p : GitProg (Result A E)) : quiet p -> quiet (map_err_await g p).
Proof. intros Hp. by apply quiet_bind. Qed.

Lemma wp_quiet {A} (p : GitProg A) w (Q : A -> GitWorld -> Prop) :
  quiet p -> (forall a w1, git_ext w w1 -> git_inv w1 -> Q a w1) -> gwp p w Q.
Proof.
  revert w. induction p as [a|R c k IH]; simpl; intros w Hq HQ; [auto|].
  destruct Hq as [Hc Hk]. intros w1 w2 r Hw1 Hi1 Ha. rewrite (quiet_answer c w1 w2 r Hc Ha).
  split_and!; [done..|]. apply IH; [done|]. intros a w3 Hw3. apply HQ. by etrans.
Qed.

Lemma wp_quiet_seq {A B} (p : GitProg A) (f : A -> GitProg B) w (Q : B -> GitWorld -> Prop) :
  quiet p -> git_inv w ->
  (forall a w1, git_ext w w1 -> git_inv w1 -> gwp (f a) w1 Q) -> gwp (bind p f) w Q.
Proof.
  intros Hp Hi Hf. apply (gwp_seq _ _ _ (fun _ _ => True)); [|done|by intros; apply Hf].
  by apply wp_quiet.
Qed.

(** ** Writing *)

Lemma put_content_inv prefix v w w' r :
  immutable prefix -> git_inv w -> put_answer (content_key prefix v) v IfNoneMatchStar w w' r ->
  git_inv w' /\ git_ext w w'.
Proof.
  intros Hpre Hi Ha. destruct (put_answer_cases _ _ _ _ _ _ Ha) as ([->|[Hnone Hat]] & _); [done|].
  apply (stored_at_inv _ _ _ _ Hi Hat).
  - intros prefix' d Hpre' E. apply content_key_neq in E as [_ <-]; [|done..]. done.
  - intros Hp. by destruct (pointer_not_content _ _ _ Hp Hpre eq_refl).
Qed.

Lemma put_failed e key :
  other_error e -> exists e',
    match e with HttpFailWithBody 412 _ => Ok key | e => Err (Backend e) end = Err e' :> Result string StoreError.
Proof. destruct e as [code text|]; [|by eauto]. intros [_ Hne]. repeat case_match; by eauto. Qed.

(** After a content-addressed write that reports success, the object is there. *)
Lemma wp_put_immutable prefix v w :
  immutable prefix ->
  gwp (put_immutable prefix v) w (fun r w' =>
    forall key, r = Ok key -> key = content_key prefix v /\ stored w' key v).
Proof.
  intros Hpre. unfold put_immutable, put_create_only, call. simpl. intros w1 w2 r Hw1 Hi1 Ha.
  destruct (put_content_inv _ _ _ _ _ Hpre Hi1 Ha) as [Hi2 Hw2]. split_and!; [done..|].
  intros w3 Hw3 Hi3 key.
  assert (stored w2 (content_key prefix v) v -> stored w3 (content_key prefix v) v) as Hlater
    by by apply ext_content.
  destruct (put_answer_cases _ _ _ _ _ _ Ha) as (Hstep & Hr & Hcol).
  destruct Hr as [(et & -> & Hst & _)|[(text & -> & Hn)|(e & He & ->)]]; simpl.
  - intros [= <-]. auto.
  - intros [= <-]. split; [done|]. apply Hlater. destruct Hstep as [->|[_ Hat]]; [|apply Hat].
    destruct (s3_get (w_bucket w1) (content_key prefix v)) as [[v0 e0]|] eqn:Hget; [|by destruct Hn].
    assert (stored w1 (content_key prefix v) v0) as Hst by by exists e0.
    assert (v0 = v) as ->; [|done]. apply Hcol; [done|]. by apply (inv_content w1 Hi1 prefix).
  - destruct (put_failed e (content_key prefix v) He) as [e' ->]. done.
Qed.

Lemma wp_put_idx d idx_bytes w :
  git_inv w -> gwp (put_idx d idx_bytes) w (fun _ _ => True).
Proof.
  intros Hi. unfold put_idx, idx_key_for_pack_digest.
  destruct (bool_decide _ || _); [by intros w1 _ _|].
  unfold put_create_only, call. simpl. intros w1 w2 r Hw1 Hi1 Ha.
  assert (git_inv w2 /\ git_ext w1 w2) as [Hi2 Hw2]; [|done].
  destruct (put_answer_cases _ _ _ _ _ _ Ha) as ([->|[_ Hat]] & _); [done|].
  apply (stored_at_inv _ _ _ _ Hi1 Hat).
  - by intros prefix d' [-> | ->] E.
  - intros (c & o & n & E). by unfold pointer_key in E.
Qed.

(** What a pointer may be moved to. *)
Definition parent_current (k : string) (p : Precond) (prev : option string) : Prop :=
  match p with
  | IfNoneMatchStar => prev = None
  | IfMatch e => exists b d, s3_get b k = Some (d, e) /\ prev = Some d
  end.

(** A manifest's digest was the pointer right after the manifest's parent. *)
Definition installed (w : GitWorld) (k : string) (prev : option string) (d : string) (m : Manifest) : Prop :=
  exists h1 h2, hist w k = h1 ++ d :: h2 /\ last h1 = prev /\ published w d m.

Lemma installed_ext w w' k prev d m : git_ext w w' -> installed w k prev d m -> installed w' k prev d m.
Proof.
  intros Hext (h1 & h2 & Hh & Hl & Hm). destruct (hist_app _ _ k Hext) as [h Hh'].
  exists h1, (h2 ++ h). split_and!; [by rewrite Hh', Hh, <-app_assoc|done|by eapply published_ext].
Qed.

Lemma wp_put_pointer k d p prev m w :
  is_pointer k -> parent_current k p prev -> published w d m -> m_parent m = prev ->
  gwp (put_pointer k d p) w (fun r w' =>
    match r with
    | Ok (Won _) => installed w' k prev d m
    | Ok LostRace => True
    | Err e => exists e', e = Backend e'
    end).
Proof.
  intros Hk Hcur Hm Hpar. unfold put_pointer. case_match; [by intros w1 _ _; eauto|]. unfold call. simpl.
  intros w1 w2 r Hw1 Hi1 Ha.
  assert (forall w', precond_holds (w_bucket w1) k p -> stored_at w1 w' k d ->
    git_inv w' /\ git_ext w1 w' /\ installed w' k prev d m) as Hdone.
  { intros w' Hpre Hat.
    assert (last (hist w1 k) = prev) as Hlast.
    { rewrite <-(inv_current w1 Hi1). destruct p as [|e]; simpl in *.
      - by rewrite Hcur, Hpre.
      - destruct Hcur as (b & d0 & Hb & ->), Hpre as [v Hv]. rewrite Hv.
        by rewrite (s3_etag _ _ _ _ _ _ Hv Hb). }
    pose proof (published_ext _ _ _ _ Hw1 Hm) as Hm1.
    destruct (stored_at_inv _ _ _ _ Hi1 Hat) as [Hi' Hw'].
    - intros prefix d' Hpre' E. by destruct (pointer_not_content _ _ _ Hk Hpre' E).
    - intros _. exists m. by rewrite Hlast.
    - split_and!; [done..|]. exists (hist w1 k), [].
      rewrite (stored_at_hist _ _ _ _ k Hat), decide_True by done.
      split_and!; [done|done|]. by eapply published_ext. }
  destruct (put_answer_cases _ _ _ _ _ _ Ha) as (Hstep & Hr & _).
  assert (git_inv w2 /\ git_ext w1 w2) as [Hi2 Hw2].
  { destruct Hstep as [->|[Hpre Hat]]; [done|]. by destruct (Hdone w2 Hpre Hat) as (? & ? & _). }
  split_and!; [done..|]. intros w3 Hw3 Hi3.
  destruct Hr as [(et & -> & _ & Hpre & Hat)|[(text & -> & _)|(e & He & ->)]]; simpl.
  - destruct et; [|by eauto]. eapply installed_ext; [exact Hw3|]. by apply Hdone.
  - done.
  - destruct e as [code text|]; [|by eauto]. destruct He as [_ Hne]. repeat case_match; simplify_eq; by eauto.
Qed.

(** ** Reading *)

Lemma wp_get_pointer k w :
  gwp (get_pointer k) w (fun r w' =>
    match r with
    | Ok None => True
    | Ok (Some (e, v)) => (exists b, s3_get b k = Some (v, e)) /\ v ∈ hist w' k
    | Err e => exists e', e = Backend e' /\ other_error e'
    end).
Proof.
  unfold get_pointer, call. simpl. intros w1 w2 r Hw1 Hi1 [-> Ha]. split_and!; [done..|].
  intros w3 Hw3 Hi3. destruct Ha as [(v & e & Hg & ->)|[(text & Hg & ->)|(e & He & ->)]]; simpl.
  - split; [by eauto|]. destruct (hist_app _ _ k Hw3) as [h ->].
    apply elem_of_app. left. apply (list_elem_of_In). 
    assert (last (hist w1 k) = Some v) as Hl by (apply stored_hist; [done|by exists e]).
    apply list_elem_of_In. by apply last_Some_elem_of.
  - done.
  - destruct e as [code text|]; [|by eauto]. pose proof He as [Hne _].
    repeat case_match; simplify_eq; by eauto.
Qed.

(** An object that is in the store is read, or the service fails. *)
Lemma wp_get_stored prefix d v w :
  immutable prefix -> stored w (prefix ++ "/" ++ d) v ->
  gwp (get (prefix ++ "/" ++ d)) w (fun r _ =>
    match r with Ok v' => v' = v | Err e => exists e', e = Backend e' /\ other_error e' end).
Proof.
  intros Hpre Hst. unfold get, call. simpl. intros w1 w2 r Hw1 Hi1 [-> Ha]. split_and!; [done..|].
  intros w3 Hw3 Hi3. apply (ext_content _ _ Hw1) in Hst; [|done].
  destruct Ha as [(v' & e & Hg & ->)|[(text & Hg & ->)|(e & He & ->)]]; simpl.
  - eapply stored_fun; [by exists e|done].
  - destruct Hst as [e Hst]. congruence.
  - destruct e as [code text|]; [|by eauto]. pose proof He as [Hne _].
    repeat case_match; simplify_eq; by eauto.
Qed.

Lemma wp_get_verified prefix d v w :
  git_inv w -> immutable prefix -> stored w (prefix ++ "/" ++ d) v ->
  gwp (get_verified (prefix ++ "/" ++ d) d) w (fun r _ =>
    match r with Ok v' => v' = v | Err e => exists e', e = Backend e' /\ other_error e' end).
Proof.
  intros Hi Hpre Hst. eapply gwp_seq_ok; [by apply wp_get_stored|done|..]; simpl.
  - intros v' w1 Hw1 Hi1 ->. intros w2 _ _. unfold verified. rewrite decide_False; [done|].
    rewrite (inv_content w Hi prefix d v Hpre Hst). auto.
  - naive_solver.
Qed.

(** The object's content, or that it is over the limit, or a failure of the service. *)
Definition read_within (max : N) (v : string) (r : Result string StoreError) : Prop :=
  match r with
  | Ok v' => v' = v
  | Err (ObjectTooLarge _ _ _) => (max < N.of_nat (String.length v))%N
  | Err e => exists e', e = Backend e' /\ other_error e'
  end.

Lemma wp_get_limited prefix d v max w :
  immutable prefix -> stored w (prefix ++ "/" ++ d) v ->
  gwp (get_limited (prefix ++ "/" ++ d) max) w (fun r _ => read_within max v r).
Proof.
  intros Hpre Hst w1 w2 r Hw1 Hi1 [-> Ha]. split_and!; [done..|].
  apply (ext_content _ _ Hw1) in Hst; [|done].
  destruct Ha as [(v' & e & Hg & ->)|[(text & Hg & ->)|(e & He & ->)]]; cbn -[wp get bind_ok].
  - assert (v' = v) as -> by (eapply stored_fun; [by exists e|done]). rewrite decide_False by done.
    unfold try_u64. rewrite (proj2 (Z.leb_le _ _)), <-nat_N_Z, N2Z.id by lia.
    destruct (max <? N.of_nat (String.length v))%N eqn:Hmax;
      [intros w3 _ _; by apply N.ltb_lt in Hmax|].
    eapply gwp_seq_ok; [by apply wp_get_stored|done|..]; simpl.
    + intros v' w3 _ _ -> w4 _ _. rewrite Hmax. done.
    + intros e' w3 w4 _ _ _ (e'' & -> & He). simpl. eauto.
  - destruct Hst as [e Hst]. congruence.
  - destruct e as [code text|]; [|by intros ? ? ?; simpl; eauto]. pose proof He as [Hne _].
    repeat case_match; simplify_eq; intros ? ? ?; simpl; by eauto.
Qed.

Lemma wp_get_verified_limited prefix d v max w :
  git_inv w -> immutable prefix -> stored w (prefix ++ "/" ++ d) v ->
  gwp (get_verified_limited (prefix ++ "/" ++ d) d max) w (fun r _ => read_within max v r).
Proof.
  intros Hi Hpre Hst. eapply gwp_seq_ok; [by apply wp_get_limited|done|..]; simpl; [|done].
  intros v' w1 Hw1 Hi1 -> w2 _ _. unfold verified. rewrite decide_False; [done|].
  rewrite (inv_content w Hi prefix d v Hpre Hst). auto.
Qed.
End writes.
