(* ===== verification/GitPushProps.v ===== *)
(** * What a push, an announcement and a read achieve

    Each program of [GitPublish] and [GitPush] is verified on its own, with
    [Concurrent.wp], under the invariant of [GitHistory]. *)

From S2P Require Import Prelude Text Nostr Concurrent GitManifest GitStore GitPublish GitPush GitHistory GitStoreProps.

Section programs.
Context `{NostrApi} `{S3Laws} `{GitCryptoLaws} `{ManifestSerdeLaws}.
Implicit Types (w : GitWorld) (k : string) (ps : ParentState) (m : Manifest).

(** ** Reading the published state *)

(** A pointer's body is a digest. *)
Lemma published_digest w d m : published w d m -> is_manifest_digest d = true.
Proof. intros (b & _ & <- & _). apply sha256_hex_digest. Qed.

(** A pointer read names a published manifest; a read fails only when the service does, or
    when the manifest is over the reader's limit. *)
Definition load_outcome k (r : Result (option (ETag * string * Manifest)) HydrateError) w : Prop :=
  match r with
  | Ok None => True
  | Ok (Some (e, d, m)) => (exists b, s3_get b k = Some (d, e)) /\ d ∈ hist w k /\ published w d m
  | Err (HStore (Backend e)) => other_error e
  | Err (HResourceLimit _) => exists d bytes, d ∈ hist w k /\ stored w ("manifests/" ++ d) bytes /\
      (MAX_MANIFEST_BYTES < N.of_nat (String.length bytes))%N
  | Err _ => False
  end.

Lemma wp_hydrate_get d v max w :
  git_inv w -> stored w ("manifests/" ++ d) v ->
  gwp (hydrate_get_verified_limited ("manifests/" ++ d) d max) w (fun r _ =>
    match r with
    | Ok v' => v' = v
    | Err (HResourceLimit _) => (max < N.of_nat (String.length v))%N
    | Err e => exists e', e = HStore (Backend e') /\ other_error e'
    end).
Proof.
  intros Hi Hst. eapply gwp_seq;
    [by apply (wp_get_verified_limited "manifests"); [|right|]|done|].
  intros [v'|e] w1 _ _; simpl; [by intros -> w2 _ _|].
  destruct e; intros Hr; intros w2 _ _; try naive_solver.
Qed.

Lemma wp_load_pointer k w :
  git_inv w -> is_pointer k -> gwp (load_pointer k) w (load_outcome k).
Proof.
  intros Hi Hk. eapply gwp_seq_ok.
  - eapply gwp_map_err; [apply (wp_get_pointer k)|done|]. intros r w1 w2 _ Hw2 Hi2 Hr.
    instantiate (1 := fun r w => match r with
      | Ok None => True
      | Ok (Some (e, v)) => (exists b, s3_get b k = Some (v, e)) /\ v ∈ hist w k
      | Err e => exists e', e = HStore (Backend e') /\ other_error e'
      end).
    destruct r as [[[e v]|]|e]; simpl in *; [|done|naive_solver].
    destruct Hr as [Hb Hd]. split; [done|by eapply elem_of_hist_ext].
  - done.
  - intros [[e d]|] w1 Hw1 Hi1; [|by intros _ w2 _ _]. intros [Hb Hd].
    destruct (linked_elem _ _ _ (inv_linked w1 Hi1 k Hk) Hd) as [m Hm].
    destruct (pointer_digest_of d (published_digest _ _ _ Hm)) as [-> _].
    pose proof Hm as (bytes & Hst & Hsha & Hfrom & Hval & Hpacks).
    eapply gwp_seq_ok; [by apply wp_hydrate_get|done|..]; simpl.
    + intros v' w2 Hw2 Hi2 -> w3 Hw3 Hi3. rewrite Hfrom. simpl. rewrite Hval. simpl.
      assert (git_ext w1 w3) by by etrans.
      split_and!; [done|by eapply elem_of_hist_ext|by eapply published_ext].
    + intros e' w2 w3 Hw2 Hw3 Hi3 He'. assert (git_ext w1 w3) as Hw by by etrans.
      destruct e'; try naive_solver. exists d, bytes.
      split_and!; [by eapply elem_of_hist_ext|by apply (ext_content _ _ Hw "manifests"); [right|]|done].
  - intros e w1 w2 _ _ _ (e' & -> & He'). done.
Qed.

(** ** The parent of a push *)

(** The state a push started from is one the pointer had. *)
Definition parent_known k ps w : Prop :=
  ps = fresh \/ exists e d m, ps = from_loaded e d m /\ (exists b, s3_get b k = Some (d, e)) /\ published w d m.

Lemma parent_known_ext k ps w w' : git_ext w w' -> parent_known k ps w -> parent_known k ps w'.
Proof.
  intros Hw [->|(e & d & m & -> & Hb & Hm)]; [by left|right]. exists e, d, m.
  split_and!; [done|done|by eapply published_ext].
Qed.

Lemma parent_known_current k ps w :
  parent_known k ps w ->
  parent_current k (match if_match ps with Some e => IfMatch e | None => IfNoneMatchStar end) (parent_digest ps).
Proof. intros [->|(e & d & m & -> & [b Hb] & Hm)]; [done|]. by exists b, d. Qed.

Lemma parent_packs k ps w : parent_known k ps w -> Forall (present w) (m_packs (ps_parent ps)).
Proof. intros [->|(e & d & m & -> & _ & (bytes & ?))]; [by constructor|naive_solver]. Qed.

Lemma quiet_materialize_packs max_pack max_repo packs total :
  quiet (materialize_packs max_pack max_repo packs total).
Proof.
  revert total. induction packs as [|p packs IH]; intros total; simpl; [done|].
  case_match; [|done]. split; [done|]. intros [bytes|e]; simpl; [|done]. dmatch; done.
Qed.

Lemma quiet_write_refs entries : quiet (write_refs entries).
Proof.
  induction entries as [|[name oid] entries IH]; simpl; [done|]. do 2 (case_match; [done|]).
  split; [done|]. by intros [].
Qed.

Lemma quiet_materialize m max_pack max_repo : quiet (materialize_manifest m max_pack max_repo).
Proof.
  apply quiet_bind_ok; [by apply quiet_map_err|]. intros _.
  apply quiet_bind_ok; [apply quiet_materialize_packs|]. intros bytes.
  apply quiet_bind_ok; [apply quiet_write_refs|]. intros _. case_match; [done|].
  apply quiet_bind_ok; [by apply quiet_map_err|done].
Qed.

Lemma wp_hydrate_for_write k max_pack max_repo w :
  git_inv w -> is_pointer k ->
  gwp (hydrate_for_write k max_pack max_repo) w (fun r w' =>
    match r with Ok (_, ps) => parent_known k ps w' | Err _ => True end).
Proof.
  intros Hi Hk. eapply gwp_seq_ok; [by apply wp_load_pointer|done|..]; [|done].
  intros [[[e d] m]|] w1 Hw1 Hi1 Hr.
  - destruct Hr as (Hb & Hd & Hm). apply wp_quiet_seq; [apply quiet_materialize|done|].
    intros [repo|err] w2 Hw2 Hi2; [|by intros w3 _ _]. intros w3 Hw3 Hi3. right. exists e, d, m.
    split_and!; [done|done|]. eapply published_ext, Hm. by etrans.
  - intros w2 w3 r Hw2 Hi2 ->. split_and!; [done..|]. destruct r; intros ? ? ?; [by left|done].
Qed.

(** ** The commit *)

(** A composed manifest: its packs are in the store, sorted and distinct. *)
Record ready ps m w : Prop := {
  ready_version : m_version m = MANIFEST_VERSION;
  ready_packs : dedup (sort_strings (m_packs m)) = m_packs m;
  ready_present : Forall (present w) (m_packs m);
  ready_parent : m_parent m = parent_digest ps;
}.

Lemma ready_ext ps m w w' : git_ext w w' -> ready ps m w -> ready ps m w'.
Proof.
  intros Hw [Hv Hp Hpr Hpa]. split; [done..| |done].
  eapply Forall_impl; [exact Hpr|]. intros p. by apply present_ext.
Qed.

Lemma ready_bytes ps m w bytes :
  ready ps m w -> canonical_bytes m = Ok bytes -> from_bytes bytes = Ok m.
Proof.
  intros [Hv Hp _ _]. unfold canonical_bytes, from_bytes, with_packs. rewrite Hp.
  intros Hb%map_err_ok%from_slice_to_vec. rewrite Hb. simpl. destruct m; simpl in *.
  by rewrite Hv, decide_False by (intros Hn; by apply Hn).
Qed.

(** The outcome of a publication whose manifest satisfies [spec]. *)
Definition publish_outcome k ps (spec : Manifest -> Prop) (r : Result CasSuccess CasError) w : Prop :=
  match r with
  | Ok s => exists d, cs_manifest_key s = ("manifests/" ++ d)%string /\
      installed w k (parent_digest ps) d (cs_manifest s) /\ spec (cs_manifest s)
  | Err (Conflict winner key) => exists d, key = ("manifests/" ++ d)%string /\ d ∈ hist w k /\ published w d winner
  | Err _ => True
  end.

Lemma wp_read_winner k w :
  git_inv w -> is_pointer k ->
  gwp (read_winner_after_conflict k) w (fun r w' =>
    match r with
    | Ok (winner, key) => exists d, key = ("manifests/" ++ d)%string /\ d ∈ hist w' k /\ published w' d winner
    | Err (Conflict _ _) => False
    | Err _ => True
    end).
Proof.
  intros Hi Hk. eapply gwp_seq_ok.
  - eapply gwp_map_err; [apply (wp_get_pointer k)|done|]. intros r w1 w2 _ Hw2 Hi2 Hr.
    instantiate (1 := fun r w => match r with
      | Ok (Some (e, v)) => v ∈ hist w k | Ok None => True | Err e => exists e', e = CasBackend e' end).
    destruct r as [[[e v]|]|e]; simpl in *; [|done|by eauto].
    destruct Hr as [_ Hd]. by eapply elem_of_hist_ext.
  - done.
  - intros [[e d]|] w1 Hw1 Hi1; [|by intros _ w2 _ _]. intros Hd.
    destruct (linked_elem _ _ _ (inv_linked w1 Hi1 k Hk) Hd) as [m Hm].
    destruct (pointer_digest_of d (published_digest _ _ _ Hm)) as [-> _].
    pose proof Hm as (bytes & Hst & Hsha & Hfrom & Hval & Hpacks).
    eapply gwp_seq; [by apply (wp_get_verified "manifests"); [|right|]|done|].
    intros [v'|e'] w2 Hw2 Hi2; simpl.
    + intros -> w3 Hw3 Hi3. simpl. rewrite Hfrom. simpl. exists d. assert (git_ext w1 w3) by by etrans.
      split_and!; [done|by eapply elem_of_hist_ext|by eapply published_ext].
    + intros (e'' & -> & _) w3 _ _. done.
  - intros e w1 w2 _ _ _ (e' & ->). done.
Qed.

Lemma publish_outcome_ext k ps spec r w w' :
  git_ext w w' -> publish_outcome k ps spec r w -> publish_outcome k ps spec r w'.
Proof.
  intros Hw. destruct r as [s|[winner key| | | | |]]; simpl; [| |done..].
  - intros (d & ? & ? & ?). exists d. split_and!; [done|by eapply installed_ext|done].
  - intros (d & ? & ? & ?). exists d.
    split_and!; [done|by eapply elem_of_hist_ext|by eapply published_ext].
Qed.

Lemma put_manifest_published ps m bytes w :
  ready ps m w -> validate m = Ok tt -> canonical_bytes m = Ok bytes ->
  stored w (content_key "manifests" bytes) bytes -> published w (sha256_hex bytes) m.
Proof.
  intros Hr Hv Hb Hst. exists bytes.
  split_and!; [exact Hst|done|by eapply ready_bytes|done|by eapply ready_present].
Qed.

Lemma wp_commit k ps m w :
  git_inv w -> is_pointer k -> parent_known k ps w -> ready ps m w ->
  gwp (commit k ps m) w (publish_outcome k ps (eq m)).
Proof.
  intros Hi Hk Hps Hm. unfold commit.
  destruct (let? _ := validate m in canonical_bytes m) as [bytes|e] eqn:Hb; [|by intros w1 _ _].
  cbn [map_err]. apply result_bind_ok in Hb as ([] & Hval & Hb).
  eapply gwp_seq_ok; [|done|..].
  - eapply gwp_map_err; [by apply (wp_put_immutable "manifests" bytes); right|done|].
    intros r w1 w2 _ Hw2 Hi2 Hr.
    instantiate (1 := fun r w => match r with
      | Ok key => key = content_key "manifests" bytes /\ stored w key bytes
      | Err e => exists e', e = CasBackend e' end).
    destruct r as [key|e]; simpl; [|by eauto]. destruct (Hr key eq_refl) as [-> Hst].
    split; [done|]. by apply (ext_content _ _ Hw2 "manifests"); [right|].
  - intros key w1 Hw1 Hi1 [-> Hst]. unfold digest_from_manifest_key, content_key.
    change ("manifests" ++ "/" ++ sha256_hex bytes)%string with ("manifests/" ++ sha256_hex bytes)%string.
    rewrite strip_prefix_app.
    pose proof (ready_ext _ _ _ _ Hw1 Hm) as Hm1. pose proof (parent_known_ext _ _ _ _ Hw1 Hps) as Hps1.
    pose proof (put_manifest_published _ _ _ _ Hm1 Hval Hb Hst) as Hpub.
    eapply gwp_seq_ok; [|done|..].
    + eapply gwp_map_err; [by eapply wp_put_pointer;
        [done|eapply parent_known_current|exact Hpub|eapply ready_parent]|done|].
      intros r w2 w3 _ Hw3 Hi3 Hr.
      instantiate (1 := fun r w => match r with
        | Ok (Won _) => installed w k (parent_digest ps) (sha256_hex bytes) m
        | Ok LostRace => True
        | Err e => exists e', e = CasBackend e' end).
      destruct r as [[]|e]; simpl; [by eapply installed_ext|done|by eauto].
    + intros [etag|] w2 Hw2 Hi2 Hr.
      * intros w3 Hw3 Hi3. exists (sha256_hex bytes). split_and!; [done|by eapply installed_ext|done].
      * eapply gwp_seq_ok; [by apply wp_read_winner|done|..].
        -- intros [winner key] w3 Hw3 Hi3 Hwin w4 Hw4 Hi4.
           by apply (publish_outcome_ext k ps (eq m) (Err (Conflict winner key)) w3).
        -- intros [] w3 w4 _ _ _; done.
    + intros e w2 w3 _ _ _ (e' & ->). done.
  - intros e w1 w2 _ _ _ (e' & ->). done.
Qed.

(** ** Uploads *)

Lemma wp_timeout {A E} (e : E) (p : GitProg (Result A E)) w (Q : Result A E -> GitWorld -> Prop) :
  gwp p w Q -> (forall w', Q (Err e) w') -> gwp (with_timeout e p) w Q.
Proof.
  intros Hp He. revert w Hp. induction p as [a|R c k IH]; simpl; intros w Hp.
  - intros w1 w2 [] Hw1 Hi1 ->; (split_and!; [done..|]); intros w3 Hw3 Hi3; [apply He|].
    apply Hp; [by etrans|done].
  - intros w1 w2 [] Hw1 Hi1 ->; (split_and!; [done..|]); [intros w3 _ _; apply He|].
    intros w3 w4 r Hw3 Hi3 Ha. destruct (Hp w3 w4 r) as (? & ? & Hk); [by etrans|done|done|].
    split_and!; [done..|]. by apply IH.
Qed.

Lemma wp_put_pack v w :
  git_inv w ->
  gwp (map_err_await CasBackend (put_pack v)) w (fun r w' =>
    match r with Ok key => present w' key | Err e => exists e', e = CasBackend e' end).
Proof.
  intros Hi. eapply gwp_map_err; [by apply (wp_put_immutable "packs"); left|done|].
  intros [key|e] w1 w2 _ Hw2 Hi2 Hr; simpl; [|by eauto]. destruct (Hr key eq_refl) as [-> Hst].
  apply (present_ext w1); [done|]. by exists v.
Qed.

Lemma wp_write_idx_sidecar key v w :
  git_inv w -> gwp (write_idx_sidecar key v) w (fun _ _ => True).
Proof.
  intros Hi. unfold write_idx_sidecar. case_match; [|by intros w1 _ _].
  eapply gwp_seq_ok; [by apply (wp_quiet _ _ (fun _ _ => True))|done|..]; [|done].
  intros idx w1 Hw1 Hi1 _. eapply gwp_seq_ok; [|done|..].
  - eapply gwp_map_err; [by apply wp_put_idx|done|]. by instantiate (1 := fun _ _ => True).
  - by intros s w2 _ _ _ w3 _ _.
  - done.
Qed.

Lemma Forall_present_ext w w' l : git_ext w w' -> Forall (present w) l -> Forall (present w') l.
Proof. intros Hw Hl. eapply Forall_impl; [exact Hl|]. intros p. by apply present_ext. Qed.

Lemma wp_upload_packs packs keys w :
  git_inv w -> Forall (present w) keys ->
  gwp (upload_packs packs keys) w (fun r w' =>
    match r with Ok keys => Forall (present w') keys | Err _ => True end).
Proof.
  revert keys w. induction packs as [|pack packs IH]; intros keys w Hi Hkeys.
  { intros w1 Hw1 _. by eapply Forall_present_ext. }
  cbn [upload_packs].
  eapply gwp_seq_ok; [by apply (wp_quiet _ _ (fun _ _ => True))|done|..]; [|done].
  intros v w1 Hw1 Hi1 _. case_decide; [by intros w2 _ _|].
  eapply gwp_seq_ok; [by apply wp_put_pack|done|..]; [|done]. intros key w2 Hw2 Hi2 Hkey.
  case_match; [|by intros w3 _ _]. apply wp_quiet_seq; [done|done|]. intros idx w3 Hw3 Hi3.
  eapply gwp_seq.
  - instantiate (1 := fun _ _ => True). case_match; [by apply wp_put_idx|by intros w4 _ _].
  - done.
  - intros _ w4 Hw4 Hi4 _. apply IH; [done|]. apply Forall_app. split.
    + eapply Forall_present_ext, Hkeys. exact (transitivity Hw1 (transitivity Hw2 (transitivity Hw3 Hw4))).
    + repeat constructor. eapply present_ext, Hkey. by etrans.
Qed.

Lemma Forall_dedup_sort (P : string -> Prop) l : Forall P l -> Forall P (dedup (sort_strings l)).
Proof.
  rewrite !Forall_forall. intros Hl x. rewrite elem_of_dedup, sort_strings_perm. apply Hl.
Qed.

Lemma quiet_capture_compacted refs limits : quiet (capture_compacted_packs refs limits).
Proof.
  unfold capture_compacted_packs. case_decide; [done|].
  apply quiet_bind_ok; [apply quiet_bind_ok; [by apply quiet_map_err|done]|]. intros _.
  apply quiet_bind_ok; [by apply quiet_map_err|done].
Qed.

Lemma wp_prepare_compaction refs limits n w :
  git_inv w ->
  gwp (prepare_compaction refs limits n) w (fun r w' =>
    match r with Ok keys => Forall (present w') keys | Err _ => True end).
Proof.
  intros Hi. apply wp_quiet_seq; [apply quiet_capture_compacted|done|].
  intros [[packs total]|e] w1 Hw1 Hi1; [|by intros w2 _ _]. case_match; [by intros w2 _ _|].
  eapply gwp_seq_ok; [by apply wp_upload_packs|done|..]; [|done].
  intros keys w2 Hw2 Hi2 Hkeys w3 Hw3 Hi3. apply Forall_dedup_sort. by eapply Forall_present_ext.
Qed.

(** ** The manifest of a push *)

(** The published head is a branch when there is one. *)
Lemma resolve_published_head_branch refs observed parent_head :
  (exists b, starts_with b "refs/heads/" = true /\ refs !! b <> None) ->
  starts_with (resolve_published_head refs observed parent_head) "refs/heads/" = true /\
  refs !! resolve_published_head refs observed parent_head <> None.
Proof.
  intros (b & Hb & Hin). unfold resolve_published_head, is_published_branch.
  destruct (starts_with observed _ && _) eqn:Ho; [by apply andb_true_iff in Ho as [? ?%bool_decide_eq_true]|].
  destruct (starts_with parent_head _ && _) eqn:Hp; [by apply andb_true_iff in Hp as [? ?%bool_decide_eq_true]|].
  destruct (bool_decide (refs !! "refs/heads/main" <> None)) eqn:Hmain; [by apply bool_decide_eq_true in Hmain|].
  destruct (bool_decide (refs !! "refs/heads/master" <> None)) eqn:Hmaster; [by apply bool_decide_eq_true in Hmaster|].
  destruct (List.find _ _) as [[branch oid]|] eqn:Hf.
  - apply List.find_some in Hf as [Hf Hs]. apply list_elem_of_In in Hf.
    unfold btree_iter in Hf. rewrite merge_sort_Permutation, elem_of_map_to_list in Hf.
    simpl in Hs. rewrite Hf. by split.
  - destruct (refs !! b) as [oid|] eqn:Hlk; [|done].
    assert ((b, oid) ∈ btree_iter refs) as Hbi
      by (unfold btree_iter; by rewrite merge_sort_Permutation, elem_of_map_to_list).
    apply list_elem_of_In in Hbi. apply (List.find_none _ _ Hf) in Hbi. simpl in Hbi. congruence.
Qed.

(** The refs and the head are those of the workspace; the parent's packs stay unless the
    parent was due for compaction. *)
Record snapshot_manifest ps (threshold : nat) (refs : gmap string string) (head : string) m : Prop := {
  sm_refs : m_refs m = refs;
  sm_head : m_head m = head;
  sm_parent : m_parent m = parent_digest ps;
  sm_packs : m_packs (ps_parent ps) ⊆ m_packs m \/ threshold <= length (m_packs (ps_parent ps));
}.

Lemma compose_after_ready ps head refs key threshold w :
  Forall (present w) (m_packs (ps_parent ps)) -> (forall k, key = Some k -> present w k) ->
  ready ps (compose_after (ps_parent ps) (parent_digest ps) head refs key) w /\
  snapshot_manifest ps threshold refs head (compose_after (ps_parent ps) (parent_digest ps) head refs key).
Proof.
  intros Hp Hk. split; split; try done; simpl.
  - apply dedup_sort_idemp.
  - apply Forall_dedup_sort. destruct key as [k|]; [|done]. case_decide; [done|].
    apply Forall_app. split; [done|]. repeat constructor. by apply Hk.
  - left. intros p Hin. rewrite elem_of_dedup, sort_strings_perm.
    destruct key; [|done]. case_decide; [done|]. set_solver.
Qed.

Lemma wp_try_compaction k ps limits threshold refs head w :
  git_inv w ->
  gwp (try_compaction ps limits threshold refs head) w (fun r w' =>
    match r.1 with
    | Some m => ready ps m w' /\ snapshot_manifest ps threshold refs head m
    | None => True
    end).
Proof.
  intros Hi. unfold try_compaction, should_compact. destruct (threshold <=? _)%nat eqn:Hdue; [|by intros w1 _ _].
  apply Nat.leb_le in Hdue. apply wp_quiet_seq; [done|done|]. intros [[]|e] w1 Hw1 Hi1; [|by intros w2 _ _].
  eapply gwp_seq; [by apply wp_timeout; [apply wp_prepare_compaction|]|done|].
  intros [keys|e] w2 Hw2 Hi2 Hkeys w3 Hw3 Hi3; [|done]. simpl. split; split; try done; simpl.
  - apply dedup_sort_idemp.
  - apply Forall_dedup_sort. by eapply Forall_present_ext.
  - by right.
Qed.

Lemma quiet_capture_pack before after max : quiet (capture_pack before after max).
Proof. unfold capture_pack. case_decide; [done|]. by apply quiet_bind_ok. Qed.

Lemma wp_delta_manifest k ps limits failure refs head threshold w :
  git_inv w -> parent_known k ps w ->
  gwp (delta_manifest ps limits failure refs head) w (fun r w' =>
    match r with
    | Ok m => ready ps m w' /\ snapshot_manifest ps threshold refs head m
    | Err _ => True
    end).
Proof.
  intros Hi Hps. apply wp_quiet_seq; [apply quiet_capture_pack|done|].
  intros [[bytes|]|e] w1 Hw1 Hi1; [| |by intros w2 _ _].
  - case_match; [by intros w2 _ _|]. case_match; [|by intros w2 _ _]. case_match; [by intros w2 _ _|].
    eapply gwp_seq_ok; [by apply wp_put_pack|done|..]; [|done]. intros key w2 Hw2 Hi2 Hkey.
    eapply gwp_seq; [by apply wp_write_idx_sidecar|done|]. intros _ w3 Hw3 Hi3 _ w4 Hw4 Hi4.
    apply compose_after_ready.
    + eapply Forall_present_ext, parent_packs, Hps. exact (transitivity Hw1 (transitivity Hw2 (transitivity Hw3 Hw4))).
    + intros ? [= <-]. eapply present_ext, Hkey. exact (transitivity Hw3 Hw4).
  - intros w2 Hw2 Hi2. apply compose_after_ready; [|done].
    eapply Forall_present_ext, parent_packs, Hps. exact (transitivity Hw1 Hw2).
Qed.

(** ** Publishing *)

Definition publish_result k ps (spec : Manifest -> Prop) (r : Result CasSuccess CasError) w : Prop :=
  forall s, r = Ok s -> publish_outcome k ps spec r w.

Lemma wp_publish_snapshot k ps limits threshold refs observed w :
  git_inv w -> is_pointer k -> parent_known k ps w ->
  gwp (publish_snapshot k ps limits threshold refs observed) w
    (publish_result k ps (snapshot_manifest ps threshold refs
       (resolve_published_head refs observed (m_head (ps_parent ps))))).
Proof.
  intros Hi Hk Hps. eapply gwp_seq; [by apply (wp_try_compaction k)|done|].
  intros [compacted failure] w1 Hw1 Hi1 Hc. pose proof (parent_known_ext _ _ _ _ Hw1 Hps) as Hps1.
  eapply gwp_seq_ok.
  - instantiate (1 := fun r w => match r with
      | Ok m => ready ps m w /\ snapshot_manifest ps threshold refs
          (resolve_published_head refs observed (m_head (ps_parent ps))) m
      | Err _ => True end).
    destruct compacted as [m|]; [|by apply (wp_delta_manifest k)].
    intros w2 Hw2 Hi2. split; [by eapply ready_ext, Hc|apply Hc].
  - done.
  - intros m w2 Hw2 Hi2 [Hr Hs].
    apply (wp_mono _ _ _ _ _ (publish_outcome k ps (eq m)));
      [|by apply wp_commit; [..|eapply parent_known_ext|]].
    intros r w3 _ _ Hout s ->. destruct Hout as (d & ? & ? & Hm). exists d.
    split_and!; [done|done|by rewrite <-Hm].
  - done.
Qed.

Lemma quiet_snapshot : quiet snapshot_workspace_state.
Proof.
  apply quiet_bind_ok; [by apply quiet_map_err|]. intros out. case_match; [done|]. case_match; [|done].
  by apply quiet_bind_ok; [apply quiet_map_err|].
Qed.

(** The first answers of git to [for-each-ref] and [symbolic-ref]. *)
Record GitReports := {
  for_each_ref : option (Result string string);
  symbolic_ref : option (Result (option string) string);
}.

Definition no_reports : GitReports := {| for_each_ref := None; symbolic_ref := None |}.

Definition note_report (R : Type) (c : GitCall R) : R -> GitReports -> GitReports :=
  match c in GitCall R return R -> GitReports -> GitReports with
  | ForEachRef => fun r g => if for_each_ref g is Some _ then g
      else {| for_each_ref := Some r; symbolic_ref := symbolic_ref g |}
  | SymbolicRef => fun r g => if symbolic_ref g is Some _ then g
      else {| for_each_ref := for_each_ref g; symbolic_ref := Some r |}
  | _ => fun _ g => g
  end.

(** The object id a line of [for-each-ref] lists for a ref. *)
Definition listed (name line : string) : option string :=
  match split_once " " line with
  | Some (n, oid) =>
      if decide (n = name /\ String.length oid = 40 /\ all_bytes is_ascii_hexdigit oid = true) then Some oid else None
  | None => None
  end.

Lemma snapshot_line_listed refs line refs' name :
  snapshot_line refs line = Ok refs' ->
  refs' !! name = match listed name line with Some oid => Some oid | None => refs !! name end.
Proof.
  unfold snapshot_line, listed. destruct (split_once " " line) as [[n oid]|]; [|by intros [= ->]].
  destruct (bool_decide (String.length oid <> 40) || negb (all_bytes is_ascii_hexdigit oid)) eqn:Hbad.
  - intros [= ->]. rewrite decide_False; [done|]. intros (_ & Hl & Hh). rewrite Hh, Hl in Hbad. done.
  - apply orb_false_iff in Hbad as [Hl%bool_decide_eq_false Hh%negb_false_iff].
    apply dec_stable in Hl. case_match; [done|]. intros [= <-]. case_decide as Hn.
    + destruct Hn as (-> & _). apply lookup_insert_eq.
    + apply lookup_insert_ne. intros ->. by apply Hn.
Qed.

(** The last line for a ref counts. *)
Lemma snapshot_lines_listed ls refs refs' name :
  fold_result snapshot_line refs ls = Ok refs' ->
  refs' !! name = match last (omap (listed name) ls) with Some oid => Some oid | None => refs !! name end.
Proof.
  revert refs. induction ls as [|l ls IH]; intros refs; [by intros [= ->]|].
  cbn [fold_result]. destruct (snapshot_line refs l) as [refs1|e] eqn:Hl; [|done]. intros Hf.
  rewrite (IH _ Hf), (snapshot_line_listed _ _ _ name Hl).
  change (omap (listed name) (l :: ls)) with
    (match listed name l with Some oid => oid :: omap (listed name) ls | None => omap (listed name) ls end).
  destruct (listed name l) as [oid|]; [|done]. rewrite last_cons.
  by destruct (last (omap (listed name) ls)).
Qed.

(** What the snapshot takes from git's answers. *)
Definition snapshot_of (g : GitReports) (refs : gmap string string) (head : string) : Prop :=
  exists out head_out, g = {| for_each_ref := Some (Ok out); symbolic_ref := Some (Ok head_out) |} /\
    (forall name, refs !! name = last (omap (listed name) (snapshot_lines out))) /\
    head = match head_out with Some o => trim o | None => "" end.

Lemma wp_snapshot w :
  git_inv w ->
  gwp (noted note_report snapshot_workspace_state no_reports) w (fun x _ =>
    forall refs head, x.1 = Ok (refs, head) -> snapshot_of x.2 refs head).
Proof.
  intros Hi w1 w2 r Hw1 Hi1 ->. split_and!; [done..|]. destruct r as [out|e]; [|by intros w2 _ _].
  simpl. case_match; [by intros w2 _ _|]. destruct (fold_result snapshot_line ∅ (snapshot_lines out)) as [refs|e] eqn:Hf;
    [|by intros w2 _ _]. intros w2 w3 r Hw2 Hi2 ->. split_and!; [done..|].
  destruct r as [head_out|e]; [|by intros w4 _ _]. intros w4 _ _ ? ? [= <- <-]. exists out, head_out.
  split_and!; [done| |done]. intros name. rewrite (snapshot_lines_listed _ _ _ name Hf), lookup_empty.
  by destruct (last _).
Qed.

(** A publication, with what git reported about the workspace. *)
Lemma wp_cas_publish_noted k ps limits threshold w :
  git_inv w -> is_pointer k -> parent_known k ps w ->
  gwp (noted note_report (cas_publish_inner k ps limits threshold) no_reports) w (fun x w' =>
    forall s, x.1 = Ok s -> exists refs head, snapshot_of x.2 refs head /\
      publish_outcome k ps (snapshot_manifest ps threshold refs
        (resolve_published_head refs head (m_head (ps_parent ps)))) x.1 w').
Proof.
  intros Hi Hk Hps. apply (wp_noted_bind git_answer git_inv git_ext); [|exact Hi]. eapply (wp_mono git_answer git_inv git_ext); [|by apply wp_snapshot].
  intros [[[refs head]|e] g] w1 Hw1 Hi1 Hg; [|by intros w2 _ _ s]. specialize (Hg _ _ eq_refl). simpl in *.
  eapply (wp_mono git_answer git_inv git_ext); [|apply (wp_noted _ _ _ note_report); [|apply wp_publish_snapshot]].
  - intros [r g'] w2 _ _ [Hr Heq] s Hs. simpl in *. subst g'. exists refs, head. split; [done|]. by apply (Hr s).
  - destruct Hg as (out & ho & -> & _). by intros R [].
  - done.
  - done.
  - by eapply parent_known_ext.
Qed.

Lemma wp_cas_publish k ps limits w :
  git_inv w -> is_pointer k -> parent_known k ps w ->
  gwp (cas_publish k ps limits) w (publish_result k ps (fun _ => True)).
Proof.
  intros Hi Hk Hps. apply wp_quiet_seq; [apply quiet_snapshot|done|].
  intros [[refs observed]|e] w1 Hw1 Hi1; [|by intros w2 _ _ s].
  eapply (wp_mono git_answer git_inv git_ext); [|apply wp_publish_snapshot; [done|done|by eapply parent_known_ext]].
  intros r w2 _ _ Hr s ->. destruct (Hr s eq_refl) as (d & ? & ? & _). by exists d.
Qed.

(** An installed digest is never its parent's. *)
Lemma installed_changed w k prev d m :
  git_inv w -> is_pointer k -> installed w k prev d m -> manifest_changed prev (Some d) = true.
Proof.
  intros Hi Hk (h1 & h2 & Hh & <- & _). unfold manifest_changed.
  destruct (last h1) as [p|] eqn:Hp; [|done]. apply bool_decide_eq_true. intros ->.
  pose proof (linked_NoDup _ _ (inv_linked w Hi k Hk)) as Hn. rewrite Hh in Hn.
  apply NoDup_app in Hn as (_ & Hn & _). apply (Hn d); [by apply last_Some_elem_of|by left].
Qed.

(** Git's report is passed on after the manifest is installed, or when git rejected the
    push. *)
Definition push_result k ps (pack : PackOutput) (r : Response) w : Prop :=
  match r with
  | GitResponse body => body = po_stdout pack /\
      (po_ok pack = false \/ exists d m, installed w k (parent_digest ps) d m)
  | Status code _ => po_ok pack = true /\ (400 <= code)%N
  end.

Lemma wp_finalize_push k pack ps limits w :
  git_inv w -> is_pointer k -> parent_known k ps w ->
  gwp (finalize_push k pack ps limits) w (push_result k ps pack).
Proof.
  intros Hi Hk Hps. unfold finalize_push. destruct (po_ok pack) eqn:Hok; [|by intros w1 _ _; split; auto]. cbn [negb].
  eapply gwp_seq; [by apply wp_cas_publish|done|]. intros [s|e] w1 Hw1 Hi1 Hr.
  - destruct (Hr s eq_refl) as (d & _ & Hd & _). apply wp_quiet_seq; [by case_match|done|].
    intros _ w2 Hw2 Hi2 w3 Hw3 Hi3. split; [done|right]. exists d, (cs_manifest s).
    eapply installed_ext, Hd. exact (transitivity Hw2 Hw3).
  - intros w2 _ _. destruct e; simpl; (split; [done|lia]).
Qed.

Lemma quiet_run_git body : quiet (run_git_at body).
Proof. by apply quiet_bind. Qed.

Lemma wp_receive_pack c o r body max_pack max_repo w :
  git_inv w -> gwp (receive_pack c o r body max_pack max_repo) w (fun _ _ => True).
Proof.
  intros Hi. eapply gwp_seq; [by apply wp_hydrate_for_write; [|by eexists _, _, _]|done|].
  intros [[hydrated ps]|e] w1 Hw1 Hi1 Hps; [|by intros w2 _ _].
  apply wp_quiet_seq; [done|done|]. intros [hook|e] w2 Hw2 Hi2; [|by intros w3 _ _].
  apply wp_quiet_seq; [apply quiet_run_git|done|]. intros [pack|resp] w3 Hw3 Hi3; [|by intros w4 _ _].
  eapply (wp_mono git_answer git_inv git_ext); [|apply wp_finalize_push; [done|by eexists _, _, _|]]; [done|].
  eapply parent_known_ext, Hps. exact (transitivity Hw2 Hw3).
Qed.

(** ** Announcements and reads *)

(** The first manifest of the repository is the empty one. *)
Definition seeded k w : Prop := exists d h, hist w k = d :: h /\ published w d empty_manifest.

Lemma seeded_ext k w w' : git_ext w w' -> seeded k w -> seeded k w'.
Proof.
  intros Hw (d & h & Hh & Hm). destruct (hist_app _ _ k Hw) as [h' Hh'].
  exists d, (h ++ h'). split; [by rewrite Hh', Hh|by eapply published_ext].
Qed.

(** A manifest without a parent is the first. *)
Lemma first_seeded k d w :
  git_inv w -> is_pointer k -> d ∈ hist w k -> published w d empty_manifest -> seeded k w.
Proof.
  intros Hi Hk [i Hd]%list_elem_of_lookup Hm.
  destruct (linked_lookup _ _ _ _ _ (inv_linked w Hi k Hk) Hd) as (m & Hm' & Hpar).
  rewrite <-(published_fun _ _ _ _ Hm Hm') in Hpar. destruct i as [|i].
  - destruct (hist w k) as [|d' h] eqn:Hh; [done|]. injection Hd as ->. by exists d, h.
  - apply lookup_lt_Some in Hd. destruct (lookup_lt_is_Some_2 (hist w k) i) as [x Hx]; [lia|].
    by rewrite Hx in Hpar.
Qed.

Lemma wp_seed k w :
  git_inv w -> is_pointer k ->
  gwp (seed_manifest_pointer k) w (fun r w' => r = Ok tt -> seeded k w').
Proof.
  intros Hi Hk. unfold seed_manifest_pointer.
  destruct (let? _ := validate empty_manifest in canonical_bytes empty_manifest) as [bytes|e] eqn:Hb;
    [|by intros w1 _ _].
  apply result_bind_ok in Hb as ([] & Hval & Hb).
  eapply gwp_seq_ok; [|done|..].
  - eapply gwp_map_err; [by apply (wp_put_immutable "manifests" bytes); right|done|].
    intros r w1 w2 _ Hw2 Hi2 Hr.
    instantiate (1 := fun r w => forall key, r = Ok key -> key = content_key "manifests" bytes /\ stored w key bytes).
    destruct r as [key|e]; simpl; [|done]. intros ? [= <-]. destruct (Hr key eq_refl) as [-> Hst].
    split; [done|]. by apply (ext_content _ _ Hw2 "manifests"); [right|].
  - intros key w1 Hw1 Hi1 Hr. destruct (Hr key eq_refl) as [-> Hst]. unfold content_key.
    change ("manifests" ++ "/" ++ sha256_hex bytes)%string with ("manifests/" ++ sha256_hex bytes)%string.
    rewrite strip_prefix_app.
    assert (ready fresh empty_manifest w1) as Hready by by split.
    pose proof (put_manifest_published _ _ _ _ Hready Hval Hb Hst) as Hpub.
    eapply gwp_seq_ok; [|done|..].
    + eapply gwp_map_err; [by eapply (wp_put_pointer k _ IfNoneMatchStar None)|done|].
      intros r w2 w3 _ Hw3 Hi3 Hr'.
      instantiate (1 := fun r w => r <> Ok LostRace ->
        forall etag, r = Ok (Won etag) -> installed w k None (sha256_hex bytes) empty_manifest).
      destruct r as [[]|e]; simpl; intros Hne etag' [= <-]. by eapply installed_ext.
    + intros [etag|] w2 Hw2 Hi2 Hr'.
      * intros w3 Hw3 Hi3 _. apply (seeded_ext k w2); [done|].
        destruct (Hr' ltac:(done) etag eq_refl) as (h1 & h2 & Hh & Hl & Hm).
        apply (first_seeded k (sha256_hex bytes)); [done|done|rewrite Hh; set_solver|done].
      * eapply gwp_seq_ok; [|done|..].
        -- eapply gwp_map_err; [apply (wp_get_pointer k)|done|]. intros r w3 w4 _ Hw4 Hi4 Hg.
           instantiate (1 := fun r w => forall e v, r = Ok (Some (e, v)) -> v ∈ hist w k).
           destruct r as [[[e v]|]|e]; simpl; try done. intros ? ? [= <- <-].
           destruct Hg as [_ Hg]. by eapply elem_of_hist_ext.
        -- intros [[e v]|] w3 Hw3 Hi3 Hg; [|by intros w4 _ _]. specialize (Hg e v eq_refl).
           intros w4 Hw4 Hi4. destruct (linked_elem _ _ _ (inv_linked w3 Hi3 k Hk) Hg) as [m Hm].
           destruct (pointer_digest_of v (published_digest _ _ _ Hm)) as (_ & Htrim & ->).
           simpl. rewrite Htrim. case_decide as Hv; [done|]. intros _. subst v.
           assert (git_ext w1 w4) as Hw by exact (transitivity Hw2 (transitivity Hw3 Hw4)).
           apply (first_seeded k (sha256_hex bytes)); [done|done|by apply (elem_of_hist_ext w3)|].
           by eapply published_ext.
        -- done.
    + done.
  - done.
Qed.

Lemma wp_ensure k w :
  git_inv w -> is_pointer k ->
  gwp (ensure_manifest_pointer k) w (fun r w' => r = Ok tt -> hist w' k <> []).
Proof.
  intros Hi Hk. eapply gwp_seq_ok; [|done|..].
  - eapply gwp_map_err; [apply (wp_get_pointer k)|done|]. intros r w1 w2 _ Hw2 Hi2 Hr.
    instantiate (1 := fun r w => forall e v, r = Ok (Some (e, v)) -> v ∈ hist w k).
    destruct r as [[[e v]|]|e]; simpl; try done. intros ? ? [= <- <-].
    destruct Hr as [_ Hr]. by eapply elem_of_hist_ext.
  - intros [[e v]|] w1 Hw1 Hi1 Hr.
    + intros w2 Hw2 Hi2 _ Hnil. specialize (Hr e v eq_refl). apply (elem_of_hist_ext _ _ k v Hw2) in Hr.
      rewrite Hnil in Hr. set_solver.
    + eapply (wp_mono git_answer git_inv git_ext); [|by apply wp_seed]. intros r w2 _ _ Hs Hr'.
      destruct (Hs Hr') as (d & h & -> & _). done.
  - done.
Qed.

(** Every result of a program. *)
Fixpoint returns {A} (P : A -> Prop) (p : GitProg A) : Prop :=
  match p with
  | Ret a => P a
  | Do c k => forall r, returns P (k r)
  end.

Lemma returns_bind {A B} (P : B -> Prop) (p : GitProg A) (f : A -> GitProg B) :
  (forall a, returns P (f a)) -> returns P (bind p f).
Proof. intros Hf. induction p; simpl; auto. Qed.

Lemma wp_returns {A} (p : GitProg A) w (P : A -> Prop) : quiet p -> returns P p -> gwp p w (fun a _ => P a).
Proof.
  revert w. induction p as [a|R c k IH]; simpl; intros w Hq HP; [done|]. destruct Hq as [Hc Hk].
  intros w1 w2 r Hw1 Hi1 Ha. rewrite (quiet_answer c w1 w2 r Hc Ha). split_and!; [done..|]. by apply IH.
Qed.

(** A hydrated workspace is that of a published manifest, with all its packs. *)
Definition read_result k (r : Result (option HydratedRepo) HydrateError) w : Prop :=
  forall repo, r = Ok (Some repo) ->
  exists d m, d ∈ hist w k /\ published w d m /\ hydrated_packs repo = length (m_packs m).

Lemma wp_hydrate_for_read k max_pack max_repo w :
  git_inv w -> is_pointer k -> gwp (hydrate_for_read k max_pack max_repo) w (read_result k).
Proof.
  intros Hi Hk. eapply gwp_seq_ok; [by apply wp_load_pointer|done|..]; [|done].
  intros [[[e d] m]|] w1 Hw1 Hi1 Hr; [|by intros w2 _ _ repo]. destruct Hr as (_ & Hd & Hm).
  eapply gwp_seq_ok; [|done|..].
  - apply (wp_returns _ _ (fun r => forall repo, r = Ok repo -> hydrated_packs repo = length (m_packs m)));
      [apply quiet_materialize|].
    do 3 (apply returns_bind; intros [?|?]; [|done]). case_match; [done|].
    apply returns_bind. intros [?|?]; [|done]. by intros repo [= <-].
  - intros repo w2 Hw2 Hi2 Hrepo w3 Hw3 Hi3 ? [= <-]. exists d, m.
    assert (git_ext w1 w3) by exact (transitivity Hw2 Hw3).
    split_and!; [by eapply elem_of_hist_ext|by eapply published_ext|by apply Hrepo].
  - done.
Qed.
End programs.
