(* ===== verification/GitHistoryProps.v ===== *)
(** * The published history of a repository

    Any number of pushes, announcements and reads, interleaved at their requests to the
    store in every order: the history each pointer goes through, and what the clients of the
    relay may conclude from their answers. *)

From S2P Require Import Prelude Text Nostr Concurrent GitManifest GitStore GitPublish GitPush GitHistory GitStoreProps GitPushProps.

(** ** The tasks of the relays *)

(** [FinishTask] is the handler of a push from its hydration on, with what git reported, and
    [PublishTask] the publication alone, with git's answers about the workspace beside its result. *)
Inductive GitTask :=
| PushTask (c : CommunityId) (owner repo body : string) (max_pack max_repo : N)
| PublishTask (c : CommunityId) (owner repo : string) (max_pack max_repo : N) (limits : PublishLimits)
    (threshold : nat)
| FinishTask (c : CommunityId) (owner repo : string) (max_pack max_repo : N) (limits : PublishLimits)
    (pack : PackOutput)
| SeedTask (c : CommunityId) (owner repo : string)
| EnsureTask (c : CommunityId) (owner repo : string)
| LoadTask (c : CommunityId) (owner repo : string)
| ReadTask (c : CommunityId) (owner repo : string) (max_pack max_repo : N).

Definition git_result (t : GitTask) : Type :=
  match t with
  | PushTask _ _ _ _ _ _ => Response
  | PublishTask _ _ _ _ _ _ _ => Result (ParentState * (Result CasSuccess CasError * GitReports)) HydrateError
  | FinishTask _ _ _ _ _ _ _ => Result (ParentState * Response) HydrateError
  | SeedTask _ _ _ | EnsureTask _ _ _ => Result unit string
  | LoadTask _ _ _ => Result (option (ETag * string * Manifest)) HydrateError
  | ReadTask _ _ _ _ _ => Result (option HydratedRepo) HydrateError
  end.

Section tasks.
Context `{NostrApi} `{S3Laws} `{GitCryptoLaws} `{ManifestSerdeLaws}.

Definition git_program (t : GitTask) : GitProg (git_result t) :=
  match t with
  | PushTask c o r body mp mr => receive_pack c o r body mp mr
  | PublishTask c o r mp mr limits threshold =>
      let!? (_, ps) := hydrate_for_write (pointer_key c o r) mp mr in
      let! res := noted note_report (cas_publish_inner (pointer_key c o r) ps limits threshold) no_reports in
      Ret (Ok (ps, res))
  | FinishTask c o r mp mr limits pack =>
      let!? (_, ps) := hydrate_for_write (pointer_key c o r) mp mr in
      let! res := finalize_push (pointer_key c o r) pack ps limits in
      Ret (Ok (ps, res))
  | SeedTask c o r => seed_manifest_pointer (pointer_key c o r)
  | EnsureTask c o r => ensure_manifest_pointer (pointer_key c o r)
  | LoadTask c o r => load_pointer (pointer_key c o r)
  | ReadTask c o r mp mr => hydrate_for_read (pointer_key c o r) mp mr
  end.

Definition git_spec (t : GitTask) : git_result t -> GitWorld -> Prop :=
  match t return git_result t -> GitWorld -> Prop with
  | PushTask _ _ _ _ _ _ => fun _ _ => True
  | PublishTask c o r _ _ _ threshold => fun res w =>
      forall ps s g, res = Ok (ps, (Ok s, g)) -> exists refs head, snapshot_of g refs head /\
        publish_outcome (pointer_key c o r) ps (snapshot_manifest ps threshold refs
          (resolve_published_head refs head (m_head (ps_parent ps)))) (Ok s) w
  | FinishTask c o r _ _ _ pack => fun res w =>
      forall ps x, res = Ok (ps, x) -> push_result (pointer_key c o r) ps pack x w
  | SeedTask c o r => fun res w => res = Ok tt -> seeded (pointer_key c o r) w
  | EnsureTask c o r => fun res w => res = Ok tt -> hist w (pointer_key c o r) <> []
  | LoadTask c o r => load_outcome (pointer_key c o r)
  | ReadTask c o r _ _ => read_result (pointer_key c o r)
  end.

Lemma git_program_ok t w : git_inv w -> gwp (git_program t) w (git_spec t).
Proof.
  intros Hi. assert (forall c o r, is_pointer (pointer_key c o r)) as Hk by (intros c o r; by exists c, o, r).
  destruct t as [c o r body mp mr|c o r mp mr limits threshold|c o r mp mr limits pack|c o r|c o r|c o r|c o r mp mr];
    cbn [git_program git_spec git_result]; [|..|by apply wp_seed|by apply wp_ensure|by apply wp_load_pointer|by apply wp_hydrate_for_read].
  - by apply wp_receive_pack.
  - eapply gwp_seq_ok; [by apply wp_hydrate_for_write|done|..]; [|done]. intros [repo ps] w1 Hw1 Hi1 Hps.
    eapply gwp_seq; [by apply wp_cas_publish_noted|done|].
    intros [x g] w2 Hw2 Hi2 Hx w3 Hw3 Hi3 ? s ? [= <- -> <-].
    destruct (Hx s eq_refl) as (refs & head & Hg & Hout). exists refs, head. split; [done|].
    by eapply publish_outcome_ext.
  - eapply gwp_seq_ok; [by apply wp_hydrate_for_write|done|..]; [|done]. intros [repo ps] w1 Hw1 Hi1 Hps.
    eapply gwp_seq; [by apply wp_finalize_push|done|].
    intros x w2 Hw2 Hi2 Hx w3 Hw3 Hi3 ? ? [= <- <-]. destruct x as [body|code text]; [|done].
    destruct Hx as [Hbody [Hx|(d & m & Hx)]]; (split; [done|]); [by left|right].
    exists d, m. by eapply installed_ext.
Qed.

(** The store and the tasks of all relays, at any time. *)
Definition git_step := pool_step git_answer git_program.

Lemma git_reachable_ok x y :
  rtc git_step (empty_world, []) x -> rtc git_step x y ->
  pool_ok git_answer git_inv git_ext git_spec x /\ pool_ok git_answer git_inv git_ext git_spec y /\
  git_ext x.1 y.1.
Proof.
  intros Hx Hy.
  destruct (pool_steps_ok git_answer git_inv git_ext git_program git_spec git_program_ok _ _ Hx) as [Hokx _].
  { apply pool_start_ok, empty_world_inv. }
  split; [done|].
  apply (pool_steps_ok git_answer git_inv git_ext git_program git_spec git_program_ok _ _ Hy Hokx).
Qed.

Notation finished t a := (thread (A := git_result) t (Ret a)).

(** C2: however pushes, announcements and reads interleave at their store requests, and
    whichever requests fail, are retried or lose their answers, the contents of a repository's
    pointer form one chain of distinct manifests: each is in the store under its digest,
    valid, with all its packs, and names as its parent exactly the one before it, so no
    manifest ever has two successors.  The pointer is the last of them.  The chain is only
    extended, and what was published stays. *)
Theorem git_history_linear w ts w' ts' c o r :
  rtc git_step (empty_world, []) (w, ts) -> rtc git_step (w, ts) (w', ts') ->
  let k := pointer_key c o r in let h := hist w k in
  fst <$> s3_get (w_bucket w) k = last h /\ NoDup h /\
  (forall i d, h !! i = Some d -> exists m, published w d m /\
     m_parent m = match i with 0 => None | S j => h !! j end) /\
  (forall d d' m m', d ∈ h -> d' ∈ h -> published w d m -> published w d' m' ->
     m_parent m = m_parent m' -> d = d') /\
  h `prefix_of` hist w' k /\
  forall d m, published w d m -> published w' d m.
Proof.
  intros Hrun Hlater k h. destruct (git_reachable_ok _ _ Hrun Hlater) as ([Hi _] & _ & Hext). simpl in *.
  assert (is_pointer k) as Hk by (by exists c, o, r).
  pose proof (inv_linked w Hi k Hk) as Hl.
  split_and!; [apply inv_current, Hi|by apply (linked_NoDup w)|by intros i d; apply linked_lookup| |
    by apply hist_app|by intros d m; apply published_ext].
  intros d d' m m'. by apply linked_no_fork.
Qed.

(** C8: a publication that reports success has put its manifest right after the one the push
    was hydrated from, naming it as parent and keeping its packs unless compaction was due.
    Its refs are those git listed in the workspace, each at the object id of its last line
    (none when the listing is not UTF-8), and nothing else; its head is the branch HEAD
    names when that is listed, and some listed branch whenever there is one.  Git's accepting
    report reaches the client, unchanged, only after a manifest is installed on top of the
    push's parent. *)
Theorem push_acknowledged w ts c o r mp mr limits threshold pack ps :
  rtc git_step (empty_world, []) (w, ts) ->
  let k := pointer_key c o r in
  (forall s g, finished (PublishTask c o r mp mr limits threshold) (Ok (ps, (Ok s, g))) ∈ ts ->
     exists d h1 h2 out head_out, cs_manifest_key s = ("manifests/" ++ d)%string /\
       hist w k = h1 ++ d :: h2 /\ last h1 = parent_digest ps /\ published w d (cs_manifest s) /\
       m_parent (cs_manifest s) = parent_digest ps /\
       (m_packs (ps_parent ps) ⊆ m_packs (cs_manifest s) \/ threshold <= length (m_packs (ps_parent ps))) /\
       g = {| for_each_ref := Some (Ok out); symbolic_ref := Some (Ok head_out) |} /\
       (forall name, m_refs (cs_manifest s) !! name = last (omap (listed name) (snapshot_lines out))) /\
       (forall head, head_out = Some head -> is_published_branch (m_refs (cs_manifest s)) (trim head) = true ->
          m_head (cs_manifest s) = trim head) /\
       ((exists b, starts_with b "refs/heads/" = true /\ m_refs (cs_manifest s) !! b <> None) ->
         starts_with (m_head (cs_manifest s)) "refs/heads/" = true /\
         m_refs (cs_manifest s) !! m_head (cs_manifest s) <> None)) /\
  (forall body, finished (FinishTask c o r mp mr limits pack) (Ok (ps, GitResponse body)) ∈ ts ->
     body = po_stdout pack /\
     (po_ok pack = true -> exists d m h1 h2, hist w k = h1 ++ d :: h2 /\
        last h1 = parent_digest ps /\ published w d m)).
Proof.
  intros Hrun k. destruct (git_reachable_ok _ _ Hrun (rtc_refl _ _)) as (Hok & _ & _). split.
  - intros s g Hin.
    destruct (pool_result _ _ _ _ _ _ _ _ Hok Hin ps s g eq_refl) as (refs & head & (out & ho & Hg & Hrefs & ->) & Hout).
    destruct Hout as (d & Hkey & (h1 & h2 & Hh & Hl & Hm) & [Hr Hhead Hpar Hpacks]).
    exists d, h1, h2, out, ho. rewrite Hr, Hhead. split_and!; try done.
    + intros head -> Hb. unfold resolve_published_head. by rewrite Hb.
    + apply resolve_published_head_branch.
  - intros body Hin. destruct (pool_result _ _ _ _ _ _ _ _ Hok Hin ps (GitResponse body) eq_refl)
      as [Hbody Hinst]. split; [done|]. intros Hpo. destruct Hinst as [Hf|(d & m & h1 & h2 & ?)]; [congruence|].
    by exists d, m, h1, h2.
Qed.

(** C23: a reader never meets a dangling, malformed or corrupt published state.  Loading a
    pointer gives the manifest of a digest the pointer has had; it fails only when a request
    fails otherwise than by a missing object, or when a manifest is over the reader's limit
    of 4 MiB, which no writer checks.  A hydrated workspace has all the packs of a published
    manifest.  After a successful announcement the repository's history starts with the
    empty manifest, and after a successful check of its pointer it is not empty. *)
Theorem published_state_readable w ts c o r :
  rtc git_step (empty_world, []) (w, ts) ->
  let k := pointer_key c o r in
  (forall res, finished (LoadTask c o r) res ∈ ts -> load_outcome k res w) /\
  (forall mp mr repo, finished (ReadTask c o r mp mr) (Ok (Some repo)) ∈ ts ->
     exists d m, d ∈ hist w k /\ published w d m /\ hydrated_packs repo = length (m_packs m)) /\
  (finished (SeedTask c o r) (Ok tt) ∈ ts ->
     exists d h, hist w k = d :: h /\ published w d empty_manifest) /\
  (finished (EnsureTask c o r) (Ok tt) ∈ ts -> hist w k <> []).
Proof.
  intros Hrun k. destruct (git_reachable_ok _ _ Hrun (rtc_refl _ _)) as (Hok & _ & _). split_and!.
  - intros res Hin. exact (pool_result _ _ _ _ _ _ _ _ Hok Hin).
  - intros mp mr repo Hin. exact (pool_result _ _ _ _ _ _ _ _ Hok Hin repo eq_refl).
  - intros Hin. exact (pool_result _ _ _ _ _ _ _ _ Hok Hin eq_refl).
  - intros Hin. exact (pool_result _ _ _ _ _ _ _ _ Hok Hin eq_refl).
Qed.
End tasks.
