(* ===== verification/GitReport.v ===== *)
(** * Git's report

    The scan of [GitPush] against the pkt-line streams git writes. *)

From S2P Require Import Prelude Text Nostr Concurrent GitManifest GitStore GitPublish GitPush GitStoreProps.

(** ** Pkt-line streams *)

(** A payload, or one of the packets without one: flush, delimiter and response end. *)
Inductive Packet :=
| Data (payload : string)
| Control (n : N).

Definition packet_ok (p : Packet) : Prop :=
  match p with
  | Data payload => (str_len payload + 4 < 65536)%N
  | Control n => (n < 4)%N
  end.

Definition packet_bytes (p : Packet) : string :=
  match p with
  | Data payload => to_hex 4 (str_len payload + 4) ++ payload
  | Control n => to_hex 4 n
  end.

Definition stream_bytes (ps : list Packet) : string := foldr (fun p s => packet_bytes p ++ s)%string "" ps.

Definition payloads (ps : list Packet) : list string :=
  omap (fun p => match p with Data s => Some s | Control _ => None end) ps.

(** ** Facts *)

Lemma substring_whole s : String.substring 0 (String.length s) s = s.
Proof. induction s as [|a s IH]; [done|]. simpl. by rewrite IH. Qed.

Lemma substring_left a b : String.substring 0 (String.length a) (a ++ b) = a.
Proof. induction a as [|x a IH]; [by destruct b|]. rewrite string_app_cons. simpl. by rewrite IH. Qed.

Lemma substring_skip a b n m : String.substring (String.length a + n) m (a ++ b) = String.substring n m b.
Proof. induction a as [|x a IH]; [done|]. rewrite string_app_cons. exact IH. Qed.

Lemma substring_right a b : String.substring (String.length a) (String.length b) (a ++ b) = b.
Proof. rewrite <-(Nat.add_0_r (String.length a)), substring_skip. apply substring_whole. Qed.

Lemma hex_value_digit n : (n < 16)%N -> hex_value (hex_digit n) = Some n.
Proof. intros Hn. destruct n as [|p]; [done|]. do 4 (destruct p as [p|p|]; try done); lia. Qed.

Lemma hex_digits_to_hex acc len n :
  hex_digits acc (to_hex len n) = Some (acc * 16 ^ N.of_nat len + n mod 16 ^ N.of_nat len)%N.
Proof.
  revert acc. induction len as [|len IH]; intros acc; cbn [to_hex hex_digits].
  - f_equal. change (16 ^ N.of_nat 0)%N with 1%N. rewrite N.mod_1_r. lia.
  - rewrite hex_value_digit by by apply N.mod_lt. cbn [mbind option_bind]. rewrite IH. f_equal.
    rewrite Nat2N.inj_succ, N.pow_succ_r', (N.mul_comm 16), N.Div0.mod_mul_r. lia.
Qed.

Lemma hex_digit_visible n : (n < 16)%N -> byte_in 33 126 (hex_digit n) = true /\ hex_digit n <> "+"%char.
Proof. intros Hn. destruct n as [|p]; [done|]. do 4 (destruct p as [p|p|]; try done); lia. Qed.

Lemma to_hex_visible len n : all_bytes (byte_in 33 126) (to_hex len n) = true.
Proof.
  induction len as [|len IH]; cbn [to_hex all_bytes]; [done|].
  destruct (hex_digit_visible (n / 16 ^ N.of_nat len mod 16)) as [-> _]; [by apply N.mod_lt|done].
Qed.

(** The length prefix is read back. *)
Lemma from_str_radix_to_hex n : (n < 65536)%N -> from_str_radix_16 (to_hex 4 n) = Some n.
Proof.
  intros Hn. unfold from_str_radix_16. set (l := 4). cbn [to_hex]. subst l. cbn [to_hex].
  set (d := hex_digit (n / 16 ^ N.of_nat 3 mod 16)).
  assert (d <> "+"%char) as Hd by (apply hex_digit_visible; by apply N.mod_lt).
  assert (forall s, match String d s with String "+" rest => rest | _ => String d s end = String d s) as ->.
  { intros s. destruct d as [[] [] [] [] [] [] [] []]; done. }
  rewrite decide_False by done. change (String d _) with (to_hex 4 n).
  rewrite hex_digits_to_hex, N.mod_small; [done|]. exact Hn.
Qed.

Lemma pkt_lines_fuel_step fuel p s :
  packet_ok p ->
  pkt_lines_fuel (S fuel) (packet_bytes p ++ s) =
    match p with Data payload => [payload] | Control _ => [] end ++ pkt_lines_fuel fuel s.
Proof.
  intros Hp.
  set (n := match p with Data payload => (str_len payload + 4)%N | Control n => n end).
  set (rest := match p with Data payload => (payload ++ s)%string | Control _ => s end).
  assert (packet_bytes p ++ s = to_hex 4 n ++ rest)%string as ->
    by (destruct p; simpl; by rewrite <-?string_app_assoc).
  assert (n < 65536)%N as Hn by (destruct p; simpl in *; lia).
  cbn [pkt_lines_fuel]. rewrite length_app_str, to_hex_length.
  assert ((4 + String.length rest <? 4)%nat = false) as -> by (apply Nat.ltb_ge; lia).
  pose proof (from_str_radix_to_hex n Hn) as Hlen. pose proof (to_hex_visible 4 n) as Hvis.
  pose proof (to_hex_length 4 n) as Hh. set (h := to_hex 4 n) in *. clearbody h.
  assert (String.substring 0 4 (h ++ rest) = h) as -> by (rewrite <-Hh at 1; apply substring_left).
  rewrite (visible_utf8 h Hvis), Hlen.
  destruct p as [payload|c]; subst n rest; cbn [packet_ok app] in *.
  - unfold str_len in *.
    assert (N.to_nat (N.of_nat (String.length payload) + 4) = 4 + String.length payload) as -> by lia.
    rewrite length_app_str.
    assert ((4 + String.length payload <? 4)%nat = false) as -> by (apply Nat.ltb_ge; lia).
    assert ((4 + (String.length payload + String.length s) <? 4 + String.length payload)%nat = false) as ->
      by (apply Nat.ltb_ge; lia).
    f_equal.
    + rewrite <-Hh at 1. rewrite <-(Nat.add_0_r (String.length h)), substring_skip.
      replace (4 + String.length payload - 4) with (String.length payload) by lia. apply substring_left.
    + rewrite <-Hh at 1. rewrite substring_skip.
      replace (4 + (String.length payload + String.length s) - (4 + String.length payload))
        with (String.length s) by lia.
      by rewrite substring_right.
  - assert ((N.to_nat c <? 4)%nat = true) as -> by (apply Nat.ltb_lt; lia).
    rewrite <-Hh at 1. replace (4 + String.length s - 4) with (String.length s) by lia.
    by rewrite substring_right.
Qed.

(** A stream of packets is read back. *)
Lemma pkt_lines_stream ps : Forall packet_ok ps -> pkt_lines (stream_bytes ps) = payloads ps.
Proof.
  intros Hps. unfold pkt_lines. generalize (Nat.le_refl (String.length (stream_bytes ps))).
  generalize (String.length (stream_bytes ps)) at 2 3. induction Hps as [|p ps Hp _ IH]; intros fuel Hf.
  - by destruct fuel.
  - change (stream_bytes (p :: ps)) with (packet_bytes p ++ stream_bytes ps)%string in *.
    rewrite length_app_str in Hf.
    assert (4 <= String.length (packet_bytes p)) as Hlen
      by (destruct p; simpl; rewrite ?length_app_str, ?to_hex_length; lia).
    destruct fuel as [|fuel]; [lia|]. rewrite pkt_lines_fuel_step, IH by (done || lia).
    by destruct p.
Qed.

(** ** The scan *)

(** The side band for data. *)
Definition band1 (s : string) : string := String (Ascii.ascii_of_N 1) s.

Lemma band1_inj s s' : band1 s = band1 s' -> s = s'.
Proof. unfold band1. congruence. Qed.

Lemma payload_rejected_band1 s : payload_rejected (band1 s) = existsb is_ng (pkt_lines s).
Proof. reflexivity. Qed.

Lemma payload_rejected_ng line : is_ng line = true -> payload_rejected line = true.
Proof.
  intros Hng. pose proof Hng as Hline. unfold is_ng, starts_with in Hng.
  destruct line as [|a line]; [done|]. cbn [String.prefix] in Hng.
  destruct (Ascii.ascii_dec "n" a) as [<-|]; [|done]. exact Hline.
Qed.

(** A rejected payload is a status line, or carries one on the data band. *)
Lemma payload_rejected_inv payload :
  payload_rejected payload = true ->
  is_ng payload = true \/ exists s, payload = band1 s /\ existsb is_ng (pkt_lines s) = true.
Proof.
  destruct payload as [|a s]; [done|]. unfold payload_rejected. case_decide as Ha.
  - intros Hs. right. exists s. split; [|done]. unfold band1. by rewrite <-Ha, Ascii.ascii_N_embedding.
  - case_decide; [done|]. by left.
Qed.

(** C31: the scan of git's report reads back every pkt-line stream git writes, and finds a
    rejected ref exactly when one of its lines is an [ng] line, be it a packet of its own or
    a line of a stream that one packet of the data side band carries whole; lines of the
    progress and error bands are never taken for status lines. *)
Theorem report_scan_exact ps :
  Forall packet_ok ps ->
  (forall s, band1 s ∈ payloads ps -> exists qs, Forall packet_ok qs /\ s = stream_bytes qs) ->
  pkt_lines (stream_bytes ps) = payloads ps /\
  (receive_pack_report_rejected (stream_bytes ps) = true <->
    (exists line, line ∈ payloads ps /\ is_ng line = true) \/
    (exists qs line, band1 (stream_bytes qs) ∈ payloads ps /\ Forall packet_ok qs /\
       line ∈ payloads qs /\ is_ng line = true)).
Proof.
  intros Hps Hband. split; [by apply pkt_lines_stream|].
  unfold receive_pack_report_rejected. rewrite pkt_lines_stream, existsb_exists by done. split.
  - intros (payload & Hin%list_elem_of_In & [Hng|(s & -> & Hs)]%payload_rejected_inv); [by left; exists payload|].
    right. destruct (Hband s Hin) as (qs & Hqs & ->). rewrite pkt_lines_stream, existsb_exists in Hs by done.
    destruct Hs as (line & Hline%list_elem_of_In & Hng). by exists qs, line.
  - intros [(line & Hin & Hng)|(qs & line & Hin & Hqs & Hline & Hng)].
    + exists line. split; [by apply list_elem_of_In|by apply payload_rejected_ng].
    + exists (band1 (stream_bytes qs)). split; [by apply list_elem_of_In|].
      rewrite payload_rejected_band1, pkt_lines_stream, existsb_exists by done.
      exists line. split; [by apply list_elem_of_In|done].
Qed.

Definition accepted_lines : list Packet := [Data "unpack ok"; Data "ok refs/heads/a"].
Definition rejected_lines : list Packet := accepted_lines ++ [Data "ng refs/heads/b denied"; Control 0].

Lemma report_scan_exact_witness :
  receive_pack_report_rejected (stream_bytes [Data (band1 (stream_bytes rejected_lines)); Control 0]) = true /\
  ~ (exists line, line ∈ payloads accepted_lines /\ is_ng line = true).
Proof.
  split.
  - apply report_scan_exact.
    + repeat constructor; vm_compute; reflexivity.
    + intros s Hs. exists rejected_lines. split; [repeat constructor; vm_compute; reflexivity|].
      apply list_elem_of_singleton in Hs. by apply band1_inj.
    + right. exists rejected_lines, "ng refs/heads/b denied". split_and!; [by left| |set_solver|done].
      repeat constructor; vm_compute; reflexivity.
  - intros Hng. assert (receive_pack_report_rejected (stream_bytes accepted_lines) = false) as Hf by (vm_compute; reflexivity).
    assert (receive_pack_report_rejected (stream_bytes accepted_lines) = true) as Ht; [|congruence].
    apply report_scan_exact; [repeat constructor; vm_compute; reflexivity| |by left].
    by intros s [[=]|[[=]|[]%elem_of_nil]%elem_of_cons]%elem_of_cons.
Defined.

(** A report that the side band splits between two packets is not read: its [ng] line in
    the second one goes unnoticed. *)
Lemma split_report_missed :
  let report := stream_bytes rejected_lines in
  let first := String.substring 0 40 report in
  let second := String.substring 40 (String.length report - 40) report in
  (first ++ second)%string = report /\ existsb is_ng (payloads rejected_lines) = true /\
  receive_pack_report_rejected (stream_bytes [Data (band1 first); Data (band1 second); Control 0]) = false.
Proof. vm_compute. repeat split. Qed.
