(* ===== verification/GitRuns.v ===== *)
(** * A run of pushes

    A concrete object store, digest and serialization, and a run in which an announcement
    seeds a repository, two pushes start from it, one of them wins and a reader loads the
    result: the theorems of [GitHistoryProps] at a concrete input. *)

From S2P Require Import Prelude Text Nostr SessionDirectoryProps Concurrent GitManifest GitStore GitPublish GitPush GitHistory GitStoreProps GitPushProps GitHistoryProps.

(** ** The surroundings *)

(** A bucket whose ETags are the contents themselves. *)
Definition toy_get (b : gmap string string) (k : string) : option (string * ETag) :=
  (fun v => (v, v)) <$> b !! k.

Definition toy_store (b : gmap string string) (k v : string) (p : Precond) : gmap string string * option ETag :=
  let current := match p with IfNoneMatchStar => None | IfMatch e => Some e end in
  if decide (b !! k = current) then (<[k := v]> b, Some v) else (b, None).

Definition toy_s3 : S3 :=
  {| Bucket := gmap string string; empty_bucket := ∅; s3_get := toy_get; s3_put := toy_store |}.

Lemma toy_get_Some b k v e : toy_get b k = Some (v, e) <-> b !! k = Some v /\ e = v.
Proof. unfold toy_get. destruct (b !! k); simpl; naive_solver. Qed.

Lemma toy_precond (b : gmap string string) k p :
  @precond_holds toy_s3 b k p <-> b !! k = match p with IfNoneMatchStar => None | IfMatch e => Some e end.
Proof.
  destruct p as [|e]; simpl.
  - unfold toy_get. destruct (b !! k); naive_solver.
  - setoid_rewrite toy_get_Some. naive_solver.
Qed.

Lemma toy_s3_laws : @S3Laws toy_s3.
Proof.
  split.
  - intros k. reflexivity.
  - intros b k v p b' e. rewrite toy_precond. cbn. unfold toy_store. case_decide; [|done].
    intros [= <- <-]. unfold toy_get. split_and!; [done|by rewrite lookup_insert, decide_True|].
    intros k' Hk'. by rewrite lookup_insert_ne.
  - intros b k v p b'. rewrite toy_precond. cbn. unfold toy_store. case_decide; [done|]. by intros [= <-].
  - intros b b' k v v' e [_ ->]%toy_get_Some [_ ->]%toy_get_Some. done.
Qed.

(** A digest of 256 bits. *)
Fixpoint toy_sum (acc : N) (s : string) : N :=
  match s with
  | EmptyString => acc
  | String a s => toy_sum ((acc * 31 + Ascii.N_of_ascii a + 1) mod 2 ^ 256) s
  end.

Definition toy_crypto : GitCrypto :=
  {| sha256_hex s := to_hex 64 (toy_sum 7 s); header_value_ok _ := true |}.

Lemma hex_digit_lower n : (n < 16)%N -> is_lower_hexdigit (hex_digit n) = true.
Proof. intros Hn. destruct n as [|p]; [done|]. do 4 (destruct p as [p|p|]; try done); lia. Qed.

Lemma to_hex_lower len n : all_bytes is_lower_hexdigit (to_hex len n) = true.
Proof.
  induction len as [|len IH]; cbn [to_hex all_bytes]; [done|].
  rewrite IH, hex_digit_lower; [done|]. by apply N.mod_lt.
Qed.

Lemma toy_crypto_laws : @GitCryptoLaws toy_crypto.
Proof.
  split. intros bytes. change (is_manifest_digest (to_hex 64 (toy_sum 7 bytes)) = true).
  unfold is_manifest_digest. by rewrite to_hex_length, to_hex_lower.
Qed.

Definition oid (a : Ascii.ascii) : string := String.string_of_list_ascii (replicate 40 a).
Definition main_at (a : Ascii.ascii) : gmap string string := {["refs/heads/main" := oid a]}.

(** The pack of a push, and the manifest of a first push. *)
Definition pack_of (a : Ascii.ascii) : string := ("pack of " ++ oid a ++ newline)%string.

Definition first_push (a : Ascii.ascii) : Manifest :=
  {| m_version := 1; m_head := "refs/heads/main"; m_refs := main_at a;
     m_packs := [("packs/" ++ @sha256_hex toy_crypto (pack_of a))%string];
     m_parent := Some (@sha256_hex toy_crypto "") |}.

(** A push of "c" after one of "a". *)
Definition second_pack : string := ("pack of " ++ oid "c" ++ newline ++ "^" ++ oid "a" ++ newline)%string.

Definition second_push : Manifest :=
  {| m_version := 1; m_head := "refs/heads/main"; m_refs := main_at "c";
     m_packs := dedup (sort_strings
       (m_packs (first_push "a") ++ [("packs/" ++ @sha256_hex toy_crypto second_pack)%string])%list);
     m_parent := Some (@sha256_hex toy_crypto "m") |}.

(** The manifests that have bytes, in unary. *)
Definition documents : list Manifest := [empty_manifest; first_push "a"; first_push "b"; second_push].

#[export] Instance manifest_eq_dec : EqDecision Manifest.
Proof. solve_decision. Defined.

Definition toy_serde : ManifestSerde :=
  {| to_vec m := match list_find (eq m) documents with
                 | Some (i, _) => Ok (String.string_of_list_ascii (replicate i "m"%char))
                 | None => Err "no bytes"
                 end;
     from_slice s := match documents !! String.length s with Some m => Ok m | None => Err "malformed" end |}.

Lemma toy_serde_laws : @ManifestSerdeLaws toy_serde.
Proof.
  split. intros m bytes. unfold to_vec, from_slice, toy_serde.
  destruct (list_find (eq m) documents) as [[i m']|] eqn:Hf; [|done]. intros [= <-].
  apply list_find_Some in Hf as (Hi & <- & _). by rewrite length_string_of_list, length_replicate, Hi.
Qed.

#[export] Existing Instances uuid_api toy_s3 toy_s3_laws toy_crypto toy_crypto_laws toy_serde toy_serde_laws.

(** ** The answers *)

(** Two contents of one digest: then there is no answer. *)
Definition collides (v : string) (o : option (string * ETag)) : bool :=
  match o with
  | Some (v0, _) => bool_decide (sha256_hex v0 = sha256_hex v) && bool_decide (v0 <> v)
  | None => false
  end.

Definition toy_put (k v : string) (p : Precond) (w : GitWorld) : option (GitWorld * Result S3Response S3Error) :=
  if collides v (s3_get (w_bucket w) k)
  then None
  else
    match s3_put (w_bucket w) k v p with
    | (b, Some e) =>
        Some ({| w_bucket := b; w_log := (w_log w ++ [(k, v)])%list |},
              Ok {| status_code := 200; resp_etag := Some e; resp_body := "" |})
    | (_, None) => Some (w, Err (HttpFailWithBody 412 ""))
    end.

(** The commit in the workspace that is listed next. *)
Definition workspace_of (w : GitWorld) : Ascii.ascii :=
  if (length (w_log w) <=? 2)%nat then "a" else if (length (w_log w) <=? 6)%nat then "b" else "c".

Definition toy_respond (R : Type) (c : GitCall R) (w : GitWorld) : option (GitWorld * R) :=
  match c in GitCall R return option (GitWorld * R) with
  | PutObject k v p => toy_put k v p w
  | GetObject k => Some (w, match s3_get (w_bucket w) k with
      | Some (v, e) => Ok {| status_code := 200; resp_etag := Some e; resp_body := v |}
      | None => Err (HttpFailWithBody 404 "") end)
  | HeadObject k => Some (w, match s3_get (w_bucket w) k with
      | Some (v, _) => Ok (Some (Z.of_nat (String.length v)), 200%N)
      | None => Err (HttpFailWithBody 404 "") end)
  | ForEachRef => Some (w, Ok ("refs/heads/main " ++ oid (workspace_of w) ++ newline)%string)
  | SymbolicRef => Some (w, Ok (Some "refs/heads/main"))
  | PackObjects stdin => Some (w, Ok ("pack of " ++ stdin)%string)
  | CountObjects | CompactPackObjects _ _ | ReadFile _ | CompactionPermit => Some (w, Err "unused")
  | IndexPack _ => Some (w, Ok "idx")
  | TimeoutElapsed => Some (w, false)
  | InitBareRepo | WriteRef _ _ | WriteHead _ | InstallHook => Some (w, Ok tt)
  | MaterializePack _ _ _ => Some (w, Ok 100%N)
  | ReceivePack _ => Some (w, Ok ("", true))
  | EmitRefState _ _ => Some (w, tt)
  end.

Lemma toy_put_ok k v p w w' r : toy_put k v p w = Some (w', r) -> put_answer k v p w w' r.
Proof.
  unfold toy_put. case_match eqn:Hcol; [done|].
  assert (forall v0 e, s3_get (w_bucket w) k = Some (v0, e) -> sha256_hex v0 = sha256_hex v -> v0 = v) as Hok.
  { intros v0 e Hv0 Hsha. rewrite Hv0 in Hcol. unfold collides in Hcol.
    rewrite bool_decide_eq_true_2 in Hcol by done. by apply bool_decide_eq_false, dec_stable in Hcol. }
  destruct (s3_put (w_bucket w) k v p) as [b [e|]] eqn:Hput; intros [= <- <-]; split; try done.
  - exists (Some e). split; [right; exists e; by rewrite Hput|]. left. exists e, (Some e). auto.
  - exists None. split; [by left|]. right. left. exists "". split; [|done].
    by apply (s3_put_refused _ _ _ _ _ Hput).
Qed.

Lemma toy_read_ok {A} k w (ok : string -> ETag -> A) :
  read_answer k w ok
    (match s3_get (w_bucket w) k with Some (v, e) => Ok (ok v e) | None => Err (HttpFailWithBody 404 "") end).
Proof. unfold read_answer. destruct (s3_get (w_bucket w) k) as [[v e]|]; [left|right; left]; eauto. Qed.

Lemma toy_respond_ok R (c : GitCall R) w w' r : toy_respond R c w = Some (w', r) -> git_answer R c w w' r.
Proof.
  destruct c; cbn [toy_respond git_answer]; try by intros [= <- <-].
  - intros Hp. by apply toy_put_ok.
  - intros [= <- <-]. split; [done|]. apply (toy_read_ok key w (fun v e => Build_S3Response 200 (Some e) v)).
  - intros [= <- <-]. split; [done|]. apply (toy_read_ok key w (fun v _ => (Some (Z.of_nat (String.length v)), 200%N))).
Qed.

(** ** The run *)

Definition toy_limits : PublishLimits :=
  {| parent_hydrated_bytes := 0; max_pack_bytes := 1000000; max_repo_bytes := 1000000 |}.

Definition publish_task : GitTask := PublishTask 7%N "owner" "repo" 1000000 1000000 toy_limits 96.

Definition finish_task : GitTask :=
  FinishTask 7%N "owner" "repo" 1000000 1000000 toy_limits {| po_stdout := "ok"; po_ok := true |}.

(** Both pushes hydrate before either commits; then a third one follows. *)
Definition race : list (Turn (T := GitTask)) :=
  [Spawn (SeedTask 7%N "owner" "repo"); Run 0 10; Spawn publish_task; Spawn publish_task;
   Run 1 6; Run 2 5; Run 1 60; Run 2 60; Spawn finish_task; Run 3 80;
   Spawn (LoadTask 7%N "owner" "repo.git"); Run 4 60; Spawn (ReadTask 7%N "owner" "repo" 1000 1000); Run 5 60;
   Spawn (EnsureTask 7%N "owner" "repo"); Run 6 60].

Definition race_state : GitWorld * list (Thread (Call := GitCall) (A := git_result)) :=
  default (empty_world, []) (run_schedule git_program toy_respond race (empty_world, [])).

Lemma race_reached : rtc git_step (empty_world, []) race_state.
Proof.
  assert (race_ends : (if run_schedule git_program toy_respond race (empty_world, []) is Some _ then true else false) = true)
    by (vm_compute; reflexivity).
  unfold race_state. destruct (run_schedule _ _ race _) as [x|] eqn:Hx; [|done].
  eapply run_schedule_steps; [exact toy_respond_ok|exact Hx].
Qed.

Lemma race_split : race_state = (race_state.1, race_state.2).
Proof. apply surjective_pairing. Qed.

Definition the_key : string := pointer_key 7%N "owner" "repo".
Definition digests : list string := sha256_hex <$> [""; "m"; "mmm"].

(** Three digests, the third pushed on top of the first of the two racing pushes. *)
Lemma git_history_linear_witness :
  hist race_state.1 the_key = digests /\ NoDup digests /\
  (exists m, published race_state.1 (sha256_hex "mmm") m /\ m_parent m = Some (sha256_hex "m")).
Proof.
  pose proof race_reached as Hrun. rewrite race_split in Hrun.
  destruct (git_history_linear _ _ _ _ 7%N "owner" "repo" Hrun (rtc_refl _ _)) as (_ & Hn & Hl & _).
  assert (hist race_state.1 the_key = digests) as Hh by (vm_compute; reflexivity).
  unfold the_key in Hh. rewrite Hh in Hn. split_and!; [exact Hh|exact Hn|].
  destruct (Hl 2 (sha256_hex "mmm")) as (m & Hm & Hp); [by rewrite Hh|]. exists m. split; [exact Hm|].
  rewrite Hp, Hh. reflexivity.
Defined.

Lemma manifest_key_inj d d' : ("manifests/" ++ d = "manifests/" ++ d')%string -> d = d'.
Proof. intros E. by apply string_app_inj in E as [_ E]. Qed.

Definition race_parent (d : string) (m : Manifest) : ParentState := from_loaded d d m.

(** What git reported to the push that won. *)
Definition winner_reports : GitReports :=
  {| for_each_ref := Some (Ok ("refs/heads/main " ++ oid "a" ++ newline)%string);
     symbolic_ref := Some (Ok (Some "refs/heads/main")) |}.

Lemma push_acknowledged_witness :
  (exists h1 h2, hist race_state.1 the_key = h1 ++ sha256_hex "m" :: h2 /\ last h1 = Some (sha256_hex "") /\
     published race_state.1 (sha256_hex "m") (first_push "a") /\
     m_refs (first_push "a") !! "refs/heads/main" = Some (oid "a")) /\
  exists d m h1 h2, hist race_state.1 the_key = h1 ++ d :: h2 /\ last h1 = Some (sha256_hex "m") /\
     published race_state.1 d m.
Proof.
  pose proof race_reached as Hrun. rewrite race_split in Hrun.
  split.
  - destruct (push_acknowledged _ _ 7%N "owner" "repo" 1000000 1000000 toy_limits 96
      {| po_stdout := ""; po_ok := true |} (race_parent (sha256_hex "") empty_manifest) Hrun) as [Hp _].
    destruct (Hp {| cs_manifest := first_push "a"; cs_manifest_key := "manifests/" ++ sha256_hex "m" |} winner_reports)
      as (d & h1 & h2 & out & ho & Hkey & Hh & Hl & Hm & _ & _ & Hg & Hrefs & _).
    { apply (list_elem_of_lookup_2 _ 1). vm_compute. reflexivity. }
    assert (d = sha256_hex "m") as ->; [|exists h1, h2; split_and!; [exact Hh|exact Hl|exact Hm|]].
    + cbn [cs_manifest_key] in Hkey. symmetry. exact (manifest_key_inj _ _ Hkey).
    + injection Hg as <- _. refine (eq_trans (Hrefs "refs/heads/main") _). vm_compute. reflexivity.
  - destruct (push_acknowledged _ _ 7%N "owner" "repo" 1000000 1000000 toy_limits 96
      {| po_stdout := "ok"; po_ok := true |} (race_parent (sha256_hex "m") (first_push "a")) Hrun) as [_ Hf].
    destruct (Hf "ok") as [_ Hinst]; [|exact (Hinst eq_refl)].
    apply (list_elem_of_lookup_2 _ 3). vm_compute. reflexivity.
Defined.

Lemma published_state_readable_witness :
  load_outcome the_key (Ok (Some (sha256_hex "mmm", sha256_hex "mmm", second_push))) race_state.1 /\
  (exists d m, d ∈ hist race_state.1 the_key /\ published race_state.1 d m /\ 2 = length (m_packs m)) /\
  hist race_state.1 the_key <> [].
Proof.
  pose proof race_reached as Hrun. rewrite race_split in Hrun.
  destruct (published_state_readable _ _ 7%N "owner" "repo" Hrun) as (_ & Hread & _ & Hensure).
  split_and!.
  - destruct (published_state_readable _ _ 7%N "owner" "repo.git" Hrun) as (Hload & _).
    apply (Hload (Ok (Some (sha256_hex "mmm", sha256_hex "mmm", second_push)))).
    apply (list_elem_of_lookup_2 _ 4). vm_compute. reflexivity.
  - apply (Hread 1000%N 1000%N {| hydrated_bytes := 200; hydrated_packs := 2 |}).
    apply (list_elem_of_lookup_2 _ 5). vm_compute. reflexivity.
  - apply Hensure. apply (list_elem_of_lookup_2 _ 6). vm_compute. reflexivity.
Defined.
