(* ===== verification/Json.v ===== *)
(** * JSON values ([serde_json])

    [serde_json] is a third-party crate: its [Value] is the documented enumeration, an object
    being the list of its entries, in any order and with distinct keys; its numbers and its
    printing are the operations of [SerdeNumber] and [SerdeJson]. *)

From S2P Require Import Prelude Text.

Class SerdeNumber := {
  Number : Type;
  (** [Number::is_f64] *)
  is_f64 : Number -> bool;
}.

Module Value.
Section value.
Context `{SerdeNumber}.

Unset Elimination Schemes.

Inductive t :=
| Null
| Bool (b : bool)
| Number (n : Number)
| String (s : string)
| Array (arr : list t)
| Object (map : list (string * t)).

Set Elimination Schemes.

Lemma t_ind (P : t -> Prop) :
  P Null -> (forall b, P (Bool b)) -> (forall n, P (Number n)) -> (forall s, P (String s)) ->
  (forall arr, Forall P arr -> P (Array arr)) ->
  (forall map, Forall (fun e => P e.2) map -> P (Object map)) ->
  forall v, P v.
Proof.
  intros Hnull Hbool Hnum Hstr Harr Hobj. fix IH 1. intros [|b|n|s|arr|map].
  - exact Hnull.
  - apply Hbool.
  - apply Hnum.
  - apply Hstr.
  - apply Harr. induction arr as [|v arr IHarr]; constructor; [apply IH|exact IHarr].
  - apply Hobj. induction map as [|[k v] map IHmap]; constructor; [apply IH|exact IHmap].
Qed.

(** The order of an object's entries does not matter to its value: [normalize] sorts them
    at every level. *)
Fixpoint normalize (v : t) : t :=
  match v with
  | Array arr => Array (normalize <$> arr)
  | Object map => Object (merge_sort entry_le ((fun e => (e.1, normalize e.2)) <$> map))
  | v => v
  end.

(** The keys of an object are distinct. *)
Fixpoint distinct_keys (v : t) : Prop :=
  match v with
  | Array arr => foldr (fun v P => distinct_keys v /\ P) True arr
  | Object map => NoDup map.*1 /\ foldr (fun e P => distinct_keys e.2 /\ P) True map
  | _ => True
  end.

(** No number is a floating-point number. *)
Fixpoint no_floats (v : t) : bool :=
  match v with
  | Number n => negb (is_f64 n)
  | Array arr => forallb no_floats arr
  | Object map => forallb (fun e => no_floats e.2) map
  | _ => true
  end.

Definition is_object (v : t) : bool :=
  match v with
  | Object _ => true
  | _ => false
  end.
End value.
End Value.

Class SerdeJson `{SerdeNumber} := {
  SerdeError : Type;
  (** [serde_json::to_string] of a value, and of a [&str]. *)
  to_string : Value.t -> Result string SerdeError;
  to_string_str : string -> Result string SerdeError;
}.

(** A byte that may continue a number. *)
Definition number_byte (a : Ascii.ascii) : bool :=
  byte_in 48 57 a || bool_decide (a ∈ ["+"; "-"; "."; "e"; "E"]%char).

(** A text no byte of which belongs to a number before it. *)
Definition ends_number (s : string) : Prop :=
  match s with
  | EmptyString => True
  | String a _ => number_byte a = false
  end.

Definition quote : Ascii.ascii := "034"%char.

(** The text is JSON: the literals of RFC 8259; numbers in their characters, beginning with a
    digit or a minus sign, distinct numbers differently; strings between quotes, which tell
    where a string ends and which one it is. *)
Class SerdeJsonLaws `{SerdeJson} := {
  to_string_null : to_string Value.Null = Ok "null";
  to_string_bool b : to_string (Value.Bool b) = Ok (if b then "true" else "false");
  to_string_number n : exists a t, to_string (Value.Number n) = Ok (String a t) /\
    (byte_in 48 57 a || bool_decide (a = "-"%char) = true) /\ all_bytes number_byte t = true;
  to_string_number_inj n n' : to_string (Value.Number n) = to_string (Value.Number n') -> n = n';
  to_string_string s : to_string (Value.String s) = to_string_str s;
  to_string_quoted s : exists t, to_string_str s = Ok (String quote t);
  to_string_str_delimited s s' t t' x y :
    to_string_str s = Ok t -> to_string_str s' = Ok t' -> (t ++ x)%string = (t' ++ y)%string ->
    s = s' /\ x = y;
}.
