(* ===== verification/AuditLog.v ===== *)
(** * The audit log ([crates/buzz-audit/src])

    A hash chain per community in the table [audit_log]: what is hashed ([hash.rs]), the
    actions ([action.rs]), and the service that appends to a chain, verifies a range of it
    and reads it ([service.rs]).  Every statement the service runs is a call of
    [AuditCall]; [AuditDb] models the database that answers them. *)

From S2P Require Import Prelude Text Nostr Json Concurrent.

(** ** Actions *)

Inductive AuditAction :=
| EventCreated
| EventDeleted
| ChannelCreated
| ChannelUpdated
| ChannelDeleted
| MemberAdded
| MemberRemoved
| AuthSuccess
| AuthFailure
| RateLimitExceeded
| MediaUploaded.

#[export] Instance AuditAction_eq_dec : EqDecision AuditAction.
Proof. solve_decision. Defined.

Module AuditAction.
Definition as_str (a : AuditAction) : string :=
  match a with
  | EventCreated => "event_created"
  | EventDeleted => "event_deleted"
  | ChannelCreated => "channel_created"
  | ChannelUpdated => "channel_updated"
  | ChannelDeleted => "channel_deleted"
  | MemberAdded => "member_added"
  | MemberRemoved => "member_removed"
  | AuthSuccess => "auth_success"
  | AuthFailure => "auth_failure"
  | RateLimitExceeded => "rate_limit_exceeded"
  | MediaUploaded => "media_uploaded"
  end.

Definition ALL : list AuditAction :=
  [EventCreated; EventDeleted; ChannelCreated; ChannelUpdated; ChannelDeleted; MemberAdded;
   MemberRemoved; AuthSuccess; AuthFailure; RateLimitExceeded; MediaUploaded].

(** [FromStr]; the error message is left out. *)
Definition from_str (s : string) : option AuditAction :=
  List.find (fun a => String.eqb (as_str a) s) ALL.
End AuditAction.

(** ** Entries *)

(** The nanoseconds of an instant since the Unix epoch. *)
Definition DateTime := Z.

Section entries.
Context `{SerdeNumber}.

(** Byte strings are the [string]s of their bytes. *)
Record AuditEntry := {
  community_id : Uuid;
  seq : Z;
  hash : string;
  prev_hash : option string;
  action : AuditAction;
  actor_pubkey : option string;
  object_id : option string;
  detail : Value.t;
  created_at : DateTime;
}.

Definition set_hash (h : string) (e : AuditEntry) : AuditEntry :=
  {| community_id := community_id e; seq := seq e; hash := h; prev_hash := prev_hash e;
     action := action e; actor_pubkey := actor_pubkey e; object_id := object_id e;
     detail := detail e; created_at := created_at e |}.

Record NewAuditEntry := {
  ne_community_id : CommunityId;
  ne_action : AuditAction;
  ne_actor_pubkey : option string;
  ne_object_id : option string;
  ne_detail : Value.t;
}.
End entries.

(** What [sqlx] reports: the constraint a statement violates, or anything else. *)
Inductive SqlxError :=
| UniqueViolation (constraint : string)
| SqlxFailure (what : string).

Inductive AuditError `{SerdeJson} :=
| Database (e : SqlxError)
| ChainViolation (seq : Z)
| HashMismatch (seq : Z)
| UnknownAction
| Serialization (e : SerdeError).

(** ** The hash *)

(** [sha2] and [chrono]: the 32 bytes of a digest, and [DateTime::to_rfc3339] in UTC. *)
Class AuditApi := {
  sha256 : string -> string;
  to_rfc3339 : DateTime -> string;
}.

Definition GENESIS_HASH : string := String.string_of_list_ascii (replicate 32 "000"%char).

(** [trunc_subsecs(6)] *)
Definition to_storage_precision (created_at : DateTime) : DateTime :=
  (created_at - created_at mod 1000)%Z.

(** [i64::to_be_bytes] *)
Definition i64_be_bytes (n : Z) : string := bytes_str (be_bytes 8 (Z.to_N (n mod 2 ^ 64)%Z)).

Section hash.
Context `{SerdeJson} `{AuditApi} `{UuidBytes}.

Fixpoint canonical_json (value : Value.t) : Result string SerdeError :=
  match value with
  | Value.Object map =>
      let sorted := merge_sort entry_le ((fun e => (e.1, canonical_json e.2)) <$> map) in
      let? entries := collect ((fun e : string * Result string SerdeError =>
        let? k := to_string_str e.1 in let? v := e.2 in Ok (k ++ ":" ++ v)%string) <$> sorted) in
      Ok ("{" ++ join_with "," entries ++ "}")%string
  | Value.Array arr =>
      let? items := collect (canonical_json <$> arr) in
      Ok ("[" ++ join_with "," items ++ "]")%string
  | other => to_string other
  end.

(** A presence tag, and the bytes if there are any. *)
Definition tagged (o : option string) : string :=
  match o with
  | Some s => String "001" s
  | None => String "000" EmptyString
  end.

(** The bytes fed to the hasher. *)
Definition hash_input (entry : AuditEntry) : Result string SerdeError :=
  let? text := canonical_json (detail entry) in
  Ok (bytes_str (uuid_as_bytes (community_id entry)) ++ i64_be_bytes (seq entry) ++
      to_rfc3339 (to_storage_precision (created_at entry)) ++
      AuditAction.as_str (action entry) ++
      tagged (actor_pubkey entry) ++ tagged (object_id entry) ++ text ++
      default GENESIS_HASH (prev_hash entry))%string.

Definition compute_hash (entry : AuditEntry) : Result string AuditError :=
  let? input := map_err Serialization (hash_input entry) in Ok (sha256 input).
End hash.

(** ** The service *)

Definition Session := positive.

Section service.
Context `{NostrApi} `{SerdeJson} `{AuditApi} `{UuidBytes}.

(** A row of [audit_log]. *)
Record Row := {
  row_community_id : Uuid;
  row_seq : Z;
  row_hash : string;
  row_prev_hash : option string;
  row_action : string;
  row_actor_pubkey : option string;
  row_object_id : option string;
  row_detail : Value.t;
  row_created_at : DateTime;
}.

(** The calls of the service.  A connection taken from the pool is a session of the
    database, until it goes back ([Release]). *)
Inductive AuditCall : Type -> Type :=
| Acquire : AuditCall (Result Session SqlxError)
| Release (s : Session) : AuditCall unit
| AdvisoryLock (s : Session) (key : string) : AuditCall (Result unit SqlxError)
| AdvisoryUnlock (s : Session) (key : string) : AuditCall (Result unit SqlxError)
| Begin (s : Session) : AuditCall (Result unit SqlxError)
| Rollback (s : Session) : AuditCall unit
| SelectHead (s : Session) (c : Uuid) : AuditCall (Result (option (Z * string)) SqlxError)
| UtcNow : AuditCall DateTime
| Insert (s : Session) (row : Row) : AuditCall (Result unit SqlxError)
| Commit (s : Session) : AuditCall (Result unit SqlxError)
| SelectRange (c : Uuid) (from_seq to_seq : Z) : AuditCall (Result (list Row) SqlxError)
| SelectFrom (c : Uuid) (from_seq limit : Z) : AuditCall (Result (list Row) SqlxError).

Definition AuditProg := Prog AuditCall.

(** A statement whose failure is [AuditError::Database]. *)
Definition query {A} (c : AuditCall (Result A SqlxError)) : AuditProg (Result A AuditError) :=
  map_err_await Database (call c).

Definition log_timestamp : AuditProg DateTime :=
  let! now := call UtcNow in Ret (to_storage_precision now).

Definition AUDIT_LOCK_NAMESPACE : string := "buzz_audit:".
Definition lock_key (c : CommunityId) : string := (AUDIT_LOCK_NAMESPACE ++ uuid_to_string c)%string.

(** [prev_seq + 1], in a release build *)
Definition i64_wrapping_succ (n : Z) : Z := ((n + 1 + 2 ^ 63) mod 2 ^ 64 - 2 ^ 63)%Z.

(** The entry that follows [head]. *)
Definition next_entry (entry : NewAuditEntry) (head : option (Z * string)) (now : DateTime)
    : AuditEntry :=
  let '(prev_seq, prev_hash) := match head with Some (n, h) => (n, Some h) | None => (0%Z, None) end in
  {| community_id := ne_community_id entry; seq := i64_wrapping_succ prev_seq; hash := "";
     prev_hash := prev_hash; action := ne_action entry; actor_pubkey := ne_actor_pubkey entry;
     object_id := ne_object_id entry; detail := ne_detail entry; created_at := now |}.

(** The values bound to the [INSERT]. *)
Definition entry_row (e : AuditEntry) : Row :=
  {| row_community_id := community_id e; row_seq := seq e; row_hash := hash e;
     row_prev_hash := prev_hash e; row_action := AuditAction.as_str (action e);
     row_actor_pubkey := actor_pubkey e; row_object_id := object_id e; row_detail := detail e;
     row_created_at := created_at e |}.

(** The statements of the transaction, up to the commit. *)
Definition append_entry (s : Session) (entry : NewAuditEntry) : AuditProg (Result AuditEntry AuditError) :=
  let!? head := query (SelectHead s (ne_community_id entry)) in
  let! now := log_timestamp in
  let audit_entry := next_entry entry head now in
  match compute_hash audit_entry with
  | Err e => Ret (Err e)
  | Ok h =>
      let audit_entry := set_hash h audit_entry in
      let!? _ := query (Insert s (entry_row audit_entry)) in
      let!? _ := query (Commit s) in
      Ret (Ok audit_entry)
  end.

(** A transaction dropped before its commit is rolled back. *)
Definition log_inner (s : Session) (entry : NewAuditEntry) : AuditProg (Result AuditEntry AuditError) :=
  let!? _ := query (Begin s) in
  let! result := append_entry s entry in
  match result with
  | Ok e => Ret (Ok e)
  | Err e => let! _ := call (Rollback s) in Ret (Err e)
  end.

(** The connection goes back to the pool at every return. *)
Definition log (entry : NewAuditEntry) : AuditProg (Result AuditEntry AuditError) :=
  let!? s := query Acquire in
  let! locked := query (AdvisoryLock s (lock_key (ne_community_id entry))) in
  let! result :=
    match locked with
    | Err e => Ret (Err e)
    | Ok _ =>
        let! result := log_inner s entry in
        let! _ := call (AdvisoryUnlock s (lock_key (ne_community_id entry))) in
        Ret result
    end in
  let! _ := call (Release s) in
  Ret result.

Definition row_to_audit_entry (row : Row) : Result AuditEntry AuditError :=
  match AuditAction.from_str (row_action row) with
  | None => Err UnknownAction
  | Some a =>
      Ok {| community_id := row_community_id row; seq := row_seq row; hash := row_hash row;
            prev_hash := row_prev_hash row; action := a; actor_pubkey := row_actor_pubkey row;
            object_id := row_object_id row; detail := row_detail row;
            created_at := row_created_at row |}
  end.

(** The loop of [verify_chain]: one row. *)
Definition verify_row (expected_prev : option string) (row : Row) : Result (option string) AuditError :=
  let? entry := row_to_audit_entry row in
  if match expected_prev with
     | Some expected => bool_decide (prev_hash entry <> Some expected)
     | None => false
     end
  then Err (ChainViolation (seq entry))
  else
    let? computed := compute_hash entry in
    if bool_decide (computed <> hash entry)
    then Err (HashMismatch (seq entry))
    else Ok (Some (hash entry)).

Definition verify_rows (rows : list Row) : Result bool AuditError :=
  match rows with
  | [] => Ok false
  | _ => let? _ := fold_result verify_row None rows in Ok true
  end.

Definition verify_chain (community : CommunityId) (from_seq to_seq : Z) : AuditProg (Result bool AuditError) :=
  let!? rows := query (SelectRange community from_seq to_seq) in
  Ret (verify_rows rows).

Definition get_entries (community : CommunityId) (from_seq limit : Z)
    : AuditProg (Result (list AuditEntry) AuditError) :=
  let!? rows := query (SelectFrom community from_seq limit) in
  Ret (collect (row_to_audit_entry <$> rows)).

End service.
