(* ===== verification/AuditHash.v ===== *)
(** * What an audit hash covers ([AuditLog])

    The canonical text of a JSON value is a prefix code and tells the value up to the order
    of its entries; the bytes hashed for an entry tell its fields, given that the byte
    strings in it can be told apart from what follows them. *)

From S2P Require Import Prelude Text Nostr Json Concurrent AuditLog.

(** ** Byte strings *)

(** Two strings of bytes of one kind, each followed by a byte of another kind. *)
Lemma span_inj (p : Ascii.ascii -> bool) s s' x y :
  let other z := match z with EmptyString => True | String a _ => p a = false end in
  all_bytes p s = true -> all_bytes p s' = true -> other x -> other y ->
  (s ++ x)%string = (s' ++ y)%string -> s = s' /\ x = y.
Proof.
  intros other. revert s'. induction s as [|a s IH]; intros [|a' s'] Hs Hs' Hx Hy E;
    rewrite ?string_app_cons, ?string_app_nil in E; simpl in Hs, Hs'.
  - done.
  - subst x. simpl in Hx. by rewrite Hx in Hs'.
  - subst y. simpl in Hy. by rewrite Hy in Hs.
  - injection E as <- E. apply andb_true_iff in Hs as [_ Hs], Hs' as [_ Hs'].
    by destruct (IH s' Hs Hs' Hx Hy E) as [<- ->].
Qed.

Lemma string_app_length_inj_r a b x y :
  String.length x = String.length y -> (a ++ x)%string = (b ++ y)%string -> a = b /\ x = y.
Proof.
  intros Hl E. apply string_app_inj; [|done].
  apply (f_equal String.length) in E. rewrite !length_app_str in E. lia.
Qed.

Lemma string_app_inv_head s x y : (s ++ x)%string = (s ++ y)%string -> x = y.
Proof. intros E. by destruct (string_app_inj s s x y eq_refl E). Qed.

(** The elements after the first of a [join_with]. *)
Fixpoint join_tail (c : Ascii.ascii) (l : list string) : string :=
  match l with
  | [] => EmptyString
  | s :: l => String c (s ++ join_tail c l)
  end.

Lemma join_with_cons c s l : join_with c (s :: l) = (s ++ join_tail c l)%string.
Proof.
  revert s. induction l as [|s' l IH]; intros s; [by rewrite string_app_nil_r|].
  change (join_with c (s :: s' :: l)) with (s ++ String c (join_with c (s' :: l)))%string. by rewrite IH.
Qed.

(** ** Sorted entries *)

Lemma sort_entries_perm {A} (l : list (string * A)) : merge_sort entry_le l ≡ₚ l.
Proof. apply merge_sort_Permutation. Qed.

#[export] Instance entry_le_total {A} : Total (@entry_le A).
Proof. intros a b. apply (total string_le). Qed.

#[export] Instance entry_le_trans {A} : Transitive (@entry_le A).
Proof. intros a b c. unfold entry_le. apply string_le_trans. Qed.

Lemma sort_entries_sorted {A} (l : list (string * A)) : StronglySorted entry_le (merge_sort entry_le l).
Proof. apply StronglySorted_merge_sort; apply _. Qed.

(** Distinct keys have one order. *)
Lemma sort_entries_unique {A} (l l' : list (string * A)) :
  NoDup l.*1 -> StronglySorted entry_le l' -> l' ≡ₚ l -> merge_sort entry_le l = l'.
Proof.
  intros Hn Hs Hp. apply (StronglySorted_unique_strong entry_le);
    [|apply sort_entries_sorted|done|by rewrite sort_entries_perm].
  intros [k v] [k' v'] H1 H2 Hle Hle'. rewrite sort_entries_perm in H1. rewrite Hp in H2.
  assert (k = k') as -> by by apply (anti_symm string_le).
  f_equal. apply list_elem_of_lookup in H1 as [i Hi], H2 as [j Hj].
  assert (i = j) as ->; [|congruence].
  eapply NoDup_lookup; [exact Hn| |]; rewrite list_lookup_fmap; [by rewrite Hi|by rewrite Hj].
Qed.

Lemma sorted_entries_fmap {A B} (f : string * A -> B) (l : list (string * A)) :
  StronglySorted entry_le l -> StronglySorted entry_le ((fun e => (e.1, f e)) <$> l).
Proof.
  induction 1 as [|e m Hs IH He]; simpl; constructor; [done|].
  rewrite Forall_fmap. eapply Forall_impl; [exact He|]. intros e' Hle. exact Hle.
Qed.

Lemma keys_fmap {A B} (f : string * A -> B) (l : list (string * A)) :
  ((fun e => (e.1, f e)) <$> l).*1 = l.*1.
Proof. by rewrite <-list_fmap_compose. Qed.

Lemma sort_entries_fmap {A B} (f : string * A -> B) (l : list (string * A)) :
  NoDup l.*1 ->
  merge_sort entry_le ((fun e => (e.1, f e)) <$> l) = (fun e => (e.1, f e)) <$> merge_sort entry_le l.
Proof.
  intros Hn. apply sort_entries_unique.
  - by rewrite keys_fmap.
  - apply sorted_entries_fmap, sort_entries_sorted.
  - by rewrite sort_entries_perm.
Qed.

(** ** The canonical text *)

Section canonical.
Context `{SerdeJsonLaws}.

Lemma to_string_str_ok s : exists t, to_string_str s = Ok t.
Proof. destruct (to_string_quoted s) as [t Ht]. eauto. Qed.

Lemma distinct_keys_array arr : Value.distinct_keys (Value.Array arr) <-> Forall Value.distinct_keys arr.
Proof. simpl. induction arr as [|v arr IH]; simpl; [by split; [constructor|]|]. by rewrite IH, Forall_cons. Qed.

Lemma distinct_keys_object map :
  Value.distinct_keys (Value.Object map) <->
  NoDup map.*1 /\ Forall (fun e => Value.distinct_keys e.2) map.
Proof.
  simpl. split; intros [Hn Hd]; (split; [done|]); clear Hn; induction map as [|e map IH]; simpl in *; try done.
  - constructor; [apply Hd|]. by apply IH, Hd.
  - inversion Hd; subst. split; [done|]. by apply IH.
Qed.

(** The text of an entry. *)
Definition entry_text (k : string) (v : Result string SerdeError) : Result string SerdeError :=
  let? k := to_string_str k in let? v := v in Ok (k ++ ":" ++ v)%string.

Lemma canonical_array arr t :
  canonical_json (Value.Array arr) = Ok t <->
  exists ts, canonical_json <$> arr = Ok <$> ts /\ t = ("[" ++ join_with "," ts ++ "]")%string.
Proof.
  simpl. rewrite result_bind_ok. setoid_rewrite collect_ok. naive_solver.
Qed.

Lemma canonical_object map t :
  NoDup map.*1 ->
  canonical_json (Value.Object map) = Ok t <->
  exists ts, (fun e => entry_text e.1 (canonical_json e.2)) <$> merge_sort entry_le map = Ok <$> ts /\
    t = ("{" ++ join_with "," ts ++ "}")%string.
Proof.
  intros Hn. simpl. rewrite (sort_entries_fmap (fun e => canonical_json e.2)) by done.
  rewrite <-list_fmap_compose, result_bind_ok. setoid_rewrite collect_ok. unfold compose, entry_text. simpl.
  naive_solver.
Qed.

Lemma entry_text_ok k v t :
  entry_text k v = Ok t <->
  exists tk tv, to_string_str k = Ok tk /\ v = Ok tv /\ t = (tk ++ ":" ++ tv)%string.
Proof. unfold entry_text. rewrite result_bind_ok. setoid_rewrite result_bind_ok. naive_solver. Qed.

Lemma canonical_json_ok v : exists t, canonical_json v = Ok t.
Proof.
  induction v as [|b|n|s|arr IH|map IH] using Value.t_ind.
  - simpl. rewrite to_string_null. eauto.
  - simpl. rewrite to_string_bool. eauto.
  - simpl. destruct (to_string_number n) as (a & t & -> & _). eauto.
  - simpl. rewrite to_string_string. apply to_string_str_ok.
  - destruct (collected_ok canonical_json arr) as [ts Hts]; [by apply Forall_forall|].
    eexists. apply canonical_array. eauto.
  - simpl. set (sorted := merge_sort _ _).
    destruct (collected_ok (fun e => entry_text e.1 e.2) sorted) as [ts Hts].
    { intros [k r] Hin. unfold sorted in Hin. rewrite sort_entries_perm in Hin.
      apply list_elem_of_fmap in Hin as ([k' v] & [= -> ->] & Hin). rewrite Forall_forall in IH.
      destruct (IH _ Hin) as [t Ht]. destruct (to_string_str_ok k') as [tk Hk].
      eexists. apply entry_text_ok. eauto 10. }
    eexists. apply result_bind_ok. exists ts. split; [by apply collect_ok|done].
Qed.

(** *** The first byte of a text tells what it is *)

Definition value_kind (v : Value.t) : nat :=
  match v with
  | Value.Null => 0
  | Value.Bool true => 1
  | Value.Bool false => 2
  | Value.Number _ => 3
  | Value.String _ => 4
  | Value.Array _ => 5
  | Value.Object _ => 6
  end.

Definition byte_kind (a : Ascii.ascii) : nat :=
  if decide (a = "n"%char) then 0
  else if decide (a = "t"%char) then 1
  else if decide (a = "f"%char) then 2
  else if byte_in 48 57 a || bool_decide (a = "-"%char) then 3
  else if decide (a = quote) then 4
  else if decide (a = "["%char) then 5
  else if decide (a = "{"%char) then 6
  else 7.

Lemma number_kind a : byte_in 48 57 a || bool_decide (a = "-"%char) = true -> byte_kind a = 3.
Proof. destruct a as [[] [] [] [] [] [] [] []]; by vm_compute. Qed.

Lemma number_kind_byte a : byte_in 48 57 a || bool_decide (a = "-"%char) = true -> number_byte a = true.
Proof. destruct a as [[] [] [] [] [] [] [] []]; by vm_compute. Qed.

Lemma canonical_head v t :
  Value.distinct_keys v -> canonical_json v = Ok t ->
  exists a s, t = String a s /\ byte_kind a = value_kind v.
Proof.
  intros Hd. destruct v as [|b|n|s|arr|map].
  - simpl. rewrite to_string_null. intros [= <-]. by eexists _, _.
  - simpl. rewrite to_string_bool. intros [= <-]. by destruct b; eexists _, _.
  - simpl. destruct (to_string_number n) as (a & s & -> & Ha & _). intros [= <-].
    eexists _, _. split; [done|by apply number_kind].
  - simpl. rewrite to_string_string. destruct (to_string_quoted s) as [t' ->]. intros [= <-].
    by eexists _, _.
  - intros (ts & _ & ->)%canonical_array. by eexists _, _.
  - apply distinct_keys_object in Hd as [Hn _].
    intros (ts & _ & ->)%canonical_object; [|done]. by eexists _, _.
Qed.

(** *** A text tells where it ends *)

(** The items of a list, up to its closing byte. *)
Section items.
Context (close : Ascii.ascii) (Hclose : close = "]"%char \/ close = "}"%char).

Definition is_item (t : string) : Prop := exists a s, t = String a s /\ byte_kind a < 7.

Definition delimited (t t' : string) : Prop := forall x y,
  ends_number x -> ends_number y -> (t ++ x)%string = (t' ++ y)%string -> t = t' /\ x = y.

Lemma join_tail_ends_number ts x : ends_number (join_tail "," ts ++ String close x).
Proof. destruct ts; [by destruct Hclose; subst|done]. Qed.

Lemma join_tail_delimited ts ts' x y :
  (forall t t', t ∈ ts -> t' ∈ ts' -> delimited t t') ->
  (join_tail "," ts ++ String close x)%string = (join_tail "," ts' ++ String close y)%string ->
  ts = ts' /\ x = y.
Proof.
  revert ts'. induction ts as [|t ts IH]; intros [|t' ts'] Hd E; cbn [join_tail] in E;
    rewrite ?string_app_cons, ?string_app_nil, <-?string_app_assoc in E.
  - by injection E as ->.
  - by destruct Hclose; subst.
  - by destruct Hclose; subst.
  - injection E as E.
    destruct (Hd t t' ltac:(set_solver) ltac:(set_solver) _ _
      (join_tail_ends_number ts x) (join_tail_ends_number ts' y) E) as [-> E'].
    destruct (IH ts') as [-> ->]; [set_solver|done|done].
Qed.

Lemma items_delimited ts ts' x y :
  Forall is_item ts -> Forall is_item ts' ->
  (forall t t', t ∈ ts -> t' ∈ ts' -> delimited t t') ->
  (join_with "," ts ++ String close x)%string = (join_with "," ts' ++ String close y)%string ->
  ts = ts' /\ x = y.
Proof.
  intros Hi Hi' Hd E.
  assert (forall t ts z z', is_item t -> (String close z) <> (join_with "," (t :: ts) ++ z')%string) as Hno.
  { intros t ts0 z z' (a & s & -> & Ha). rewrite join_with_cons, !string_app_cons. intros [= <- _].
    destruct Hclose; subst; vm_compute in Ha; lia. }
  destruct ts as [|t ts], ts' as [|t' ts'].
  - rewrite !string_app_nil in E. by injection E as ->.
  - inversion Hi'; subst. by apply Hno in E.
  - inversion Hi; subst. symmetry in E. by apply Hno in E.
  - rewrite !join_with_cons, <-!string_app_assoc in E.
    destruct (Hd t t' ltac:(set_solver) ltac:(set_solver) _ _
      (join_tail_ends_number ts x) (join_tail_ends_number ts' y) E) as [-> E'].
    destruct (join_tail_delimited ts ts' x y) as [-> ->]; [set_solver|done|done].
Qed.
End items.

(** Two texts of which the first tells where it ends, in every context of a list. *)
Definition self_delimiting (v v' : Value.t) : Prop := forall t t' x y,
  canonical_json v = Ok t -> canonical_json v' = Ok t' ->
  (value_kind v = 3 -> ends_number x /\ ends_number y) ->
  (t ++ x)%string = (t' ++ y)%string -> t = t' /\ x = y.

Lemma is_item_canonical v t : Value.distinct_keys v -> canonical_json v = Ok t -> is_item t.
Proof.
  intros Hd Ht. destruct (canonical_head v t Hd Ht) as (a & s & -> & Hk). exists a, s. split; [done|].
  rewrite Hk. destruct v as [|[]|?|?|?|?]; simpl; lia.
Qed.

Lemma is_item_entry k v t : entry_text k v = Ok t -> is_item t.
Proof.
  intros (tk & tv & Hk & _ & ->)%entry_text_ok. destruct (to_string_quoted k) as [t Ht].
  rewrite Ht in Hk. injection Hk as <-. eexists _, _. split; [done|]. vm_compute. lia.
Qed.

Lemma array_texts arr ts :
  Forall Value.distinct_keys arr -> canonical_json <$> arr = Ok <$> ts -> Forall is_item ts.
Proof.
  rewrite !Forall_forall. intros Hd Hts t (v & Hv & Ht)%(collected_elem _ _ _ _ Hts).
  eapply is_item_canonical; [|exact Ht]. by apply Hd.
Qed.

Lemma object_texts (entries : list (string * Value.t)) ts :
  (fun e => entry_text e.1 (canonical_json e.2)) <$> entries = Ok <$> ts -> Forall is_item ts.
Proof.
  intros Hts. apply Forall_forall. intros t (e & _ & Ht)%(collected_elem _ _ _ _ Hts). by eapply is_item_entry.
Qed.

Lemma array_texts_delimited arr arr' ts ts' :
  Forall Value.distinct_keys arr -> Forall Value.distinct_keys arr' ->
  Forall (fun v => forall v', Value.distinct_keys v' -> self_delimiting v v') arr ->
  canonical_json <$> arr = Ok <$> ts -> canonical_json <$> arr' = Ok <$> ts' ->
  forall t t', t ∈ ts -> t' ∈ ts' -> delimited t t'.
Proof.
  rewrite !Forall_forall. intros Hd Hd' IH Hts Hts' t t' (v & Hv & Ht)%(collected_elem _ _ _ _ Hts)
    (v' & Hv' & Ht')%(collected_elem _ _ _ _ Hts') x y Hx Hy.
  by apply (IH v Hv v' (Hd' v' Hv') t t' x y Ht Ht').
Qed.

Lemma object_texts_delimited (entries entries' : list (string * Value.t)) ts ts' :
  Forall (fun e => Value.distinct_keys e.2) entries' ->
  Forall (fun e => forall v', Value.distinct_keys v' -> self_delimiting e.2 v') entries ->
  (fun e => entry_text e.1 (canonical_json e.2)) <$> entries = Ok <$> ts ->
  (fun e => entry_text e.1 (canonical_json e.2)) <$> entries' = Ok <$> ts' ->
  forall t t', t ∈ ts -> t' ∈ ts' -> delimited t t'.
Proof.
  rewrite !Forall_forall. intros Hd' IH Hts Hts' t t' (e & He & Ht)%(collected_elem _ _ _ _ Hts)
    (e' & He' & Ht')%(collected_elem _ _ _ _ Hts') x y Hx Hy E.
  apply entry_text_ok in Ht as (tk & tv & Hk & Hv & ->), Ht' as (tk' & tv' & Hk' & Hv' & ->).
  rewrite <-!string_app_assoc in E.
  destruct (to_string_str_delimited _ _ _ _ _ _ Hk Hk' E) as [Ek Er%string_app_inv_head].
  rewrite Ek, Hk' in Hk. injection Hk as <-.
  destruct (IH e He e'.2 (Hd' e' He') tv tv' x y Hv Hv' (fun _ => conj Hx Hy) Er) as [-> ->]. done.
Qed.

Lemma array_delimited arr arr' :
  Forall (fun v => forall v', Value.distinct_keys v' -> self_delimiting v v') arr ->
  Value.distinct_keys (Value.Array arr) -> Value.distinct_keys (Value.Array arr') ->
  self_delimiting (Value.Array arr) (Value.Array arr').
Proof.
  rewrite !distinct_keys_array. intros IH Hd Hd' t t' x y
    (ts & Hts & ->)%canonical_array (ts' & Hts' & ->)%canonical_array _ E.
  rewrite <-!string_app_assoc in E. apply string_app_inv_head in E.
  destruct (items_delimited "]" ltac:(by left) ts ts' x y) as [-> ->]; [..|exact E|done].
  - exact (array_texts _ _ Hd Hts).
  - exact (array_texts _ _ Hd' Hts').
  - exact (array_texts_delimited _ _ _ _ Hd Hd' IH Hts Hts').
Qed.

Lemma Forall_sorted {A} (P : string * A -> Prop) l : Forall P l -> Forall P (merge_sort entry_le l).
Proof. by rewrite sort_entries_perm. Qed.

Lemma object_delimited map map' :
  Forall (fun e => forall v', Value.distinct_keys v' -> self_delimiting e.2 v') map ->
  Value.distinct_keys (Value.Object map) -> Value.distinct_keys (Value.Object map') ->
  self_delimiting (Value.Object map) (Value.Object map').
Proof.
  rewrite !distinct_keys_object. intros IH [Hn Hd] [Hn' Hd'] t t' x y
    (ts & Hts & ->)%canonical_object (ts' & Hts' & ->)%canonical_object _ E; [|done..].
  rewrite <-!string_app_assoc in E. apply string_app_inv_head in E.
  destruct (items_delimited "}" ltac:(by right) ts ts' x y) as [-> ->]; [..|exact E|done].
  - exact (object_texts _ _ Hts).
  - exact (object_texts _ _ Hts').
  - eapply object_texts_delimited; [| |exact Hts|exact Hts']; by apply Forall_sorted.
Qed.

Lemma canonical_delimited v v' :
  Value.distinct_keys v -> Value.distinct_keys v' -> self_delimiting v v'.
Proof.
  intros Hd. revert v'. induction v as [|b|n|s|arr IH|map IH] using Value.t_ind; intros v' Hd' t t' x y Ht Ht' Hx E.
  all: pose proof (canonical_head _ _ Hd Ht) as (a & r & Et & Ha);
    pose proof (canonical_head _ _ Hd' Ht') as (a' & r' & Et' & Ha');
    assert (a = a') as <- by (rewrite Et, Et', !string_app_cons in E; by injection E as E _);
    rewrite Ha in Ha'; clear Et Et' Ha; try destruct b;
    destruct v' as [|[]|n'|s'|arr'|map']; try done; clear Ha'.
  - simpl in Ht, Ht'. rewrite to_string_null in *. injection Ht as <-. injection Ht' as <-.
    split; [done|]. by apply string_app_inv_head in E.
  - simpl in Ht, Ht'. rewrite to_string_bool in *. injection Ht as <-. injection Ht' as <-.
    split; [done|]. by apply string_app_inv_head in E.
  - simpl in Ht, Ht'. rewrite to_string_bool in *. injection Ht as <-. injection Ht' as <-.
    split; [done|]. by apply string_app_inv_head in E.
  - simpl in Ht, Ht'. destruct Hx as [Hx Hy]; [done|].
    destruct (to_string_number n) as (b & s & Hs & Hb & Hall), (to_string_number n') as (b' & s' & Hs' & Hb' & Hall').
    rewrite Hs in Ht. rewrite Hs' in Ht'. injection Ht as <-. injection Ht' as <-.
    apply (span_inj number_byte (String b s) (String b' s') x y); [| |exact Hx|exact Hy|exact E]; simpl;
      by rewrite ?Hall, ?Hall', number_kind_byte.
  - simpl in Ht, Ht'. rewrite to_string_string in *.
    destruct (to_string_str_delimited _ _ _ _ _ _ Ht Ht' E) as [-> ->]. rewrite Ht in Ht'. by injection Ht'.
  - apply (array_delimited arr arr'); try done. rewrite distinct_keys_array in Hd.
    rewrite !Forall_forall in *. intros v Hv v' Hdv. apply IH; [done|by apply Hd|done].
  - apply (object_delimited map map'); try done. apply distinct_keys_object in Hd as [_ Hd].
    rewrite !Forall_forall in *. intros e He v' Hdv. apply IH; [done|by apply Hd|done].
Qed.

(** *** A text tells its value *)

Lemma fmap_agree {A B C} (f : A -> B) (g : A -> C) (l l' : list A) :
  f <$> l = f <$> l' -> (forall a a', a ∈ l -> a' ∈ l' -> f a = f a' -> g a = g a') -> g <$> l = g <$> l'.
Proof.
  revert l'. induction l as [|a l IH]; intros [|a' l'] E Hg; try done.
  injection E as Ea E. rewrite !fmap_cons. f_equal; [apply Hg; set_solver|]. apply IH; [done|set_solver].
Qed.

Lemma object_normalized map :
  NoDup map.*1 ->
  Value.normalize (Value.Object map) =
  Value.Object ((fun e => (e.1, Value.normalize e.2)) <$> merge_sort entry_le map).
Proof. intros Hn. simpl. by rewrite (sort_entries_fmap (fun e => Value.normalize e.2)). Qed.

(** Values with one canonical text differ in the order of their entries only. *)
Lemma canonical_json_inj v v' :
  Value.distinct_keys v -> Value.distinct_keys v' -> canonical_json v = canonical_json v' ->
  Value.normalize v = Value.normalize v'.
Proof.
  intros Hd. revert v'. induction v as [|b|n|s|arr IH|map IH] using Value.t_ind; intros v' Hd' E;
    destruct (canonical_json_ok v') as [t Ht'].
  all: pose proof E as Ht; rewrite Ht' in Ht; pose proof (canonical_head _ _ Hd Ht) as (a & r & Et & Ha);
    pose proof (canonical_head _ _ Hd' Ht') as (a' & r' & Et' & Ha');
    assert (a = a') as <- by (rewrite Et in Et'; by injection Et' as Et' _);
    rewrite Ha in Ha'; clear Et Et' Ha; try destruct b;
    destruct v' as [|[]|n'|s'|arr'|map']; try done; clear Ha'.
  - simpl in E. by rewrite (to_string_number_inj n n' E).
  - simpl in E. rewrite !to_string_string in E. simpl in Ht, Ht'. rewrite to_string_string in Ht, Ht'.
    destruct (to_string_str_delimited _ _ _ _ "" "" Ht Ht' eq_refl) as [-> _]. done.
  - apply distinct_keys_array in Hd, Hd'.
    apply canonical_array in Ht as (ts & Hts & ->), Ht' as (ts' & Hts' & Et). apply string_app_inv_head in Et.
    assert (ts = ts') as <-.
    { apply (items_delimited "]" ltac:(by left) ts ts' "" "");
        [exact (array_texts _ _ Hd Hts)|exact (array_texts _ _ Hd' Hts')| |exact Et].
      eapply array_texts_delimited; [exact Hd|exact Hd'| |exact Hts|exact Hts'].
      eapply Forall_impl; [exact Hd|]. intros v Hv v' Hv'. by apply canonical_delimited. }
    rewrite <-Hts' in Hts. simpl. f_equal. eapply fmap_agree; [exact Hts|].
    rewrite Forall_forall in IH, Hd, Hd'. intros v v' Hv Hv' Ev. by apply IH; [|apply Hd|apply Hd'|].
  - apply distinct_keys_object in Hd as [Hn Hd], Hd' as [Hn' Hd'].
    apply canonical_object in Ht as (ts & Hts & ->), Ht' as (ts' & Hts' & Et); [|done..].
    apply string_app_inv_head in Et.
    assert (ts = ts') as <-.
    { apply (items_delimited "}" ltac:(by right) ts ts' "" "");
        [exact (object_texts _ _ Hts)|exact (object_texts _ _ Hts')| |exact Et].
      eapply object_texts_delimited; [by apply Forall_sorted| |exact Hts|exact Hts'].
      apply Forall_sorted. eapply Forall_impl; [exact Hd|]. intros e He v' Hv'. by apply canonical_delimited. }
    rewrite <-Hts' in Hts. rewrite !object_normalized by done. f_equal. eapply fmap_agree; [exact Hts|].
    apply Forall_sorted in IH, Hd, Hd'. rewrite Forall_forall in IH, Hd, Hd'.
    intros [k v] [k' v'] Hv Hv' Ev. destruct (canonical_json_ok v) as [tv Htv], (canonical_json_ok v') as [tv' Htv'].
    simpl in Ev. rewrite Htv, Htv' in Ev. unfold entry_text in Ev.
    destruct (to_string_str_ok k) as [tk Htk], (to_string_str_ok k') as [tk' Htk']. rewrite Htk, Htk' in Ev.
    injection Ev as Ev. destruct (to_string_str_delimited _ _ _ _ _ _ Htk Htk' Ev) as [-> Et'].
    simpl. f_equal. apply (IH _ Hv (Hd _ Hv) _ (Hd' _ Hv')). simpl.
    apply string_app_inv_head in Et'. by rewrite Htv, Htv', Et'.
Qed.

(** The order of the entries does not matter to the text. *)
Lemma canonical_json_normalize v :
  Value.distinct_keys v -> canonical_json (Value.normalize v) = canonical_json v.
Proof.
  induction v as [|b|n|s|arr IH|map IH] using Value.t_ind; intros Hd; try done.
  - apply distinct_keys_array in Hd. simpl. rewrite <-list_fmap_compose. f_equal. f_equal.
    apply list_fmap_ext. intros i v Hv%list_elem_of_lookup_2. rewrite Forall_forall in IH, Hd. simpl. auto.
  - apply distinct_keys_object in Hd as [Hn Hd]. rewrite object_normalized by done. simpl.
    set (sorted := merge_sort entry_le map).
    assert (NoDup sorted.*1) as Hns by (unfold sorted; by rewrite sort_entries_perm).
    rewrite (sort_entries_fmap (fun e => canonical_json e.2)) by by rewrite keys_fmap.
    rewrite sort_entries_unique with (l' := (fun e => (e.1, Value.normalize e.2)) <$> sorted);
      [|by rewrite keys_fmap|apply sorted_entries_fmap, sort_entries_sorted|done].
    rewrite (sort_entries_fmap (fun e => canonical_json e.2)) by done. f_equal. f_equal.
    rewrite <-!list_fmap_compose. apply list_fmap_ext. intros i e He%list_elem_of_lookup_2.
    apply Forall_sorted in IH, Hd. rewrite Forall_forall in IH, Hd. simpl. by rewrite (IH e He (Hd e He)).
Qed.

Lemma canonical_json_agree v v' :
  Value.distinct_keys v -> Value.distinct_keys v' -> Value.normalize v = Value.normalize v' ->
  canonical_json v = canonical_json v'.
Proof.
  intros Hd Hd' E. by rewrite <-(canonical_json_normalize v Hd), E, canonical_json_normalize.
Qed.

(** C30: the canonical text of a JSON value always exists, is the same for two values exactly
    when they differ in the order of object entries only, and tells where it ends, numbers
    excepted: no continuation of it is a continuation of another value's text. *)
Theorem canonical_json_exact v v' :
  Value.distinct_keys v -> Value.distinct_keys v' ->
  (exists t, canonical_json v = Ok t) /\
  (canonical_json v = canonical_json v' <-> Value.normalize v = Value.normalize v') /\
  forall t t' x y, canonical_json v = Ok t -> canonical_json v' = Ok t' -> (t ++ x)%string = (t' ++ y)%string ->
    (forall n, v = Value.Number n -> ends_number x /\ ends_number y) ->
    Value.normalize v = Value.normalize v' /\ x = y.
Proof.
  intros Hd Hd'. split; [apply canonical_json_ok|]. split.
  - split; [by apply canonical_json_inj|by apply canonical_json_agree].
  - intros t t' x y Ht Ht' E Hn.
    destruct (canonical_delimited v v' Hd Hd' t t' x y Ht Ht') as [<- ->]; [|done|].
    + destruct v as [|[]| | | |]; try done. eauto.
    + split; [|done]. apply canonical_json_inj; congruence.
Qed.

End canonical.

(** ** The bytes of an entry *)

(** A digest has 32 bytes; RFC 3339 has no lower-case letters as chrono prints it, and tells
    the instant. *)
Class AuditLaws `{AuditApi} := {
  length_sha256 s : String.length (sha256 s) = 32;
  to_rfc3339_inj t t' : to_rfc3339 t = to_rfc3339 t' -> t = t';
  to_rfc3339_no_lower t : all_bytes (fun a => negb (byte_in 97 122 a)) (to_rfc3339 t) = true;
}.

Lemma bytes_str_inj l l' :
  Forall (fun b => (b < 256)%N) l -> Forall (fun b => (b < 256)%N) l' -> bytes_str l = bytes_str l' -> l = l'.
Proof.
  unfold bytes_str. intros Hl Hl' E.
  apply (f_equal String.list_ascii_of_string) in E. rewrite !String.list_ascii_of_string_of_list_ascii in E.
  apply (f_equal (fmap Ascii.N_of_ascii)) in E. rewrite <-!list_fmap_compose in E.
  assert (forall k, Forall (fun b => (b < 256)%N) k -> (Ascii.N_of_ascii ∘ Ascii.ascii_of_N <$> k) = k) as Hid.
  { intros k Hk. induction Hk as [|b k Hb _ IH]; [done|]. rewrite fmap_cons, IH. unfold compose.
    by rewrite Ascii.N_ascii_embedding. }
  by rewrite !Hid in E.
Qed.

Definition is_i64 (n : Z) : Prop := (- 2 ^ 63 <= n < 2 ^ 63)%Z.

Lemma i64_be_bytes_inj n n' : is_i64 n -> is_i64 n' -> i64_be_bytes n = i64_be_bytes n' -> n = n'.
Proof.
  unfold i64_be_bytes, is_i64. intros Hn Hn' E.
  apply bytes_str_inj in E; [|apply be_bytes_bytes..]. apply (f_equal be_value) in E.
  pose proof (Z.mod_pos_bound n (2 ^ 64) ltac:(lia)). pose proof (Z.mod_pos_bound n' (2 ^ 64) ltac:(lia)).
  rewrite !be_value_bytes in E by (change (256 ^ N.of_nat 8)%N with 18446744073709551616%N; lia).
  pose proof (Z.div_mod n (2 ^ 64)). pose proof (Z.div_mod n' (2 ^ 64)). lia.
Qed.

Definition action_byte (a : Ascii.ascii) : bool := byte_in 97 122 a || bool_decide (a = "_"%char).

Lemma as_str_bytes a : all_bytes action_byte (AuditAction.as_str a) = true.
Proof. by destruct a. Qed.

Lemma from_str_as_str a : AuditAction.from_str (AuditAction.as_str a) = Some a.
Proof. by destruct a. Qed.

Lemma as_str_from_str s a : AuditAction.from_str s = Some a -> AuditAction.as_str a = s.
Proof. intros Hf. apply List.find_some in Hf as [_ E]. by apply String.eqb_eq. Qed.

Lemma as_str_inj a a' : AuditAction.as_str a = AuditAction.as_str a' -> a = a'.
Proof. intros E. apply (f_equal AuditAction.from_str) in E. rewrite !from_str_as_str in E. by injection E. Qed.

Section input.
Context `{SerdeJsonLaws} `{AuditLaws} `{UuidBytesLaws}.

(** The fields that end before the next begins: raw public keys, ids without a brace, objects
    with distinct keys. *)
Record columns_wf (e : AuditEntry) : Prop := {
  wf_actor_pubkey pk : actor_pubkey e = Some pk -> String.length pk = 32;
  wf_object_id id : object_id e = Some id -> all_bytes (fun a => bool_decide (a <> "{"%char)) id = true;
  wf_detail : Value.is_object (detail e) = true;
  wf_keys : Value.distinct_keys (detail e);
}.

(** The bytes after the action. *)
Definition context_input (e : AuditEntry) (text : string) : string :=
  (tagged (actor_pubkey e) ++ tagged (object_id e) ++ text ++ default GENESIS_HASH (prev_hash e))%string.

Lemma length_i64_be_bytes n : String.length (i64_be_bytes n) = 8.
Proof. unfold i64_be_bytes. by rewrite length_bytes_str, length_be_bytes. Qed.

Lemma as_str_lower a x :
  match (AuditAction.as_str a ++ x)%string with
  | EmptyString => True
  | String c _ => negb (byte_in 97 122 c) = false
  end.
Proof. by destruct a. Qed.

Lemma tagged_no_action o x :
  match (tagged o ++ x)%string with EmptyString => True | String c _ => action_byte c = false end.
Proof. by destruct o. Qed.

Lemma tagged_inj o o' x y :
  (forall s s', o = Some s -> o' = Some s' -> (s ++ x)%string = (s' ++ y)%string -> s = s' /\ x = y) ->
  (tagged o ++ x)%string = (tagged o' ++ y)%string -> o = o' /\ x = y.
Proof.
  intros Hs. destruct o as [s|], o' as [s'|]; cbn [tagged]; rewrite !string_app_cons, ?string_app_nil; try done.
  - intros [= E]. by destruct (Hs s s' eq_refl eq_refl E) as [-> ->].
  - by intros [= ->].
Qed.

(** The entries are the same up to the order in the detail and the digits below microseconds. *)
Definition same_entry (a b : AuditEntry) : Prop :=
  uuid_as_bytes (community_id a) = uuid_as_bytes (community_id b) /\ seq a = seq b /\
  to_storage_precision (created_at a) = to_storage_precision (created_at b) /\ action a = action b /\
  actor_pubkey a = actor_pubkey b /\ object_id a = object_id b /\
  Value.normalize (detail a) = Value.normalize (detail b).

Lemma object_text v t :
  Value.is_object v = true -> Value.distinct_keys v -> canonical_json v = Ok t -> exists s, t = String "{" s.
Proof.
  intros Ho Hd Ht. destruct v; try done. apply distinct_keys_object in Hd as [Hn _].
  apply canonical_object in Ht as (ts & _ & ->); [|done]. by eexists.
Qed.

Lemma hash_input_ok e p :
  hash_input e = Ok p <-> exists text, canonical_json (detail e) = Ok text /\
    p = (bytes_str (uuid_as_bytes (community_id e)) ++ i64_be_bytes (seq e) ++
      to_rfc3339 (to_storage_precision (created_at e)) ++ AuditAction.as_str (action e) ++
      context_input e text)%string.
Proof. unfold hash_input, context_input. rewrite result_bind_ok. naive_solver. Qed.

(** What every two entries with the same bytes share. *)
Lemma hash_input_head a b p :
  is_i64 (seq a) -> is_i64 (seq b) -> hash_input a = Ok p -> hash_input b = Ok p ->
  uuid_as_bytes (community_id a) = uuid_as_bytes (community_id b) /\ seq a = seq b /\
  to_storage_precision (created_at a) = to_storage_precision (created_at b) /\ action a = action b /\
  exists ta tb, canonical_json (detail a) = Ok ta /\ canonical_json (detail b) = Ok tb /\
    context_input a ta = context_input b tb.
Proof.
  intros Ha Hb (ta & Hta & Ea)%hash_input_ok (tb & Htb & Eb)%hash_input_ok. rewrite Ea in Eb. clear Ea.
  apply string_app_inj in Eb as [Eu Eb]; [|by rewrite !length_bytes_str, !length_uuid_as_bytes].
  apply bytes_str_inj in Eu; [|apply uuid_as_bytes_range..].
  apply string_app_inj in Eb as [Es%i64_be_bytes_inj Eb]; [|done|done|by rewrite !length_i64_be_bytes].
  apply (span_inj (fun a => negb (byte_in 97 122 a))) in Eb as [Et%to_rfc3339_inj Eb];
    [|apply to_rfc3339_no_lower|apply to_rfc3339_no_lower|apply as_str_lower|apply as_str_lower].
  apply (span_inj action_byte) in Eb as [Ea%as_str_inj Ec]; [|apply as_str_bytes|apply as_str_bytes|apply tagged_no_action|apply tagged_no_action].
  eauto 10.
Qed.

(** Entries with the same bytes are the same, their columns being well formed. *)
Lemma hash_input_inj a b p :
  is_i64 (seq a) -> is_i64 (seq b) -> columns_wf a -> columns_wf b ->
  hash_input a = Ok p -> hash_input b = Ok p ->
  same_entry a b /\ default GENESIS_HASH (prev_hash a) = default GENESIS_HASH (prev_hash b).
Proof.
  intros Ha Hb Hwa Hwb Hpa Hpb.
  destruct (hash_input_head a b p Ha Hb Hpa Hpb) as (Eu & Es & Et & Eact & ta & tb & Hta & Htb & Ec).
  unfold context_input in Ec.
  apply tagged_inj in Ec as [Epk Ec].
  2: { intros s s' Hs Hs' E. apply string_app_inj; [|done].
       by rewrite (wf_actor_pubkey a Hwa s Hs), (wf_actor_pubkey b Hwb s' Hs'). }
  destruct (object_text _ _ (wf_detail a Hwa) (wf_keys a Hwa) Hta) as [sa Esa].
  destruct (object_text _ _ (wf_detail b Hwb) (wf_keys b Hwb) Htb) as [sb Esb].
  apply tagged_inj in Ec as [Eid Ec].
  2: { intros s s' Hs Hs' E.
       apply (span_inj (fun a => bool_decide (a <> "{"%char))) in E; [done|..].
       - exact (wf_object_id a Hwa s Hs).
       - exact (wf_object_id b Hwb s' Hs').
       - by rewrite Esa.
       - by rewrite Esb. }
  destruct (canonical_delimited _ _ (wf_keys a Hwa) (wf_keys b Hwb) ta tb
    (default GENESIS_HASH (prev_hash a)) (default GENESIS_HASH (prev_hash b)) Hta Htb)
    as [Etext Eprev]; [|exact Ec|].
  { pose proof (wf_detail a Hwa). by destruct (detail a). }
  split; [|done]. unfold same_entry. split_and!; try done.
  apply canonical_json_inj; [by apply wf_keys|by apply wf_keys|by rewrite Hta, Htb, Etext].
Qed.

End input.
