(* ===== verification/AuditChain.v ===== *)
(** * Verifying rows ([AuditLog.verify_rows])

    What the verification of a list of rows answers, and what two verified lists that end in
    the same hash have in common. *)

From S2P Require Import Prelude Text Nostr Json Concurrent AuditLog AuditHash.

Section chain.
Context `{NostrApi} `{SerdeJsonLaws} `{AuditLaws} `{UuidBytesLaws}.

(** A row whose hash is that of its entry. *)
Definition row_valid (row : Row) : Prop := exists e input,
  row_to_audit_entry row = Ok e /\ hash_input e = Ok input /\ sha256 input = row_hash row.

Definition follows (prev : option string) (row : Row) : Prop :=
  match prev with
  | Some h => row_prev_hash row = Some h
  | None => True
  end.

#[export] Instance follows_dec prev row : Decision (follows prev row).
Proof. unfold follows. destruct prev; apply _. Defined.

(** Every row names the hash of the one before it. *)
Fixpoint chained (prev : option string) (rows : list Row) : Prop :=
  match rows with
  | [] => True
  | row :: rows => follows prev row /\ chained (Some (row_hash row)) rows
  end.

Lemma row_to_audit_entry_ok row e :
  row_to_audit_entry row = Ok e <->
  AuditAction.as_str (action e) = row_action row /\ community_id e = row_community_id row /\
  seq e = row_seq row /\ hash e = row_hash row /\ prev_hash e = row_prev_hash row /\
  actor_pubkey e = row_actor_pubkey row /\ object_id e = row_object_id row /\
  detail e = row_detail row /\ created_at e = row_created_at row.
Proof.
  unfold row_to_audit_entry. split.
  - destruct (AuditAction.from_str (row_action row)) as [a|] eqn:Ha; [|done].
    apply as_str_from_str in Ha. by intros [= <-].
  - destruct e, row; simpl. intros (<- & -> & -> & -> & -> & -> & -> & -> & ->).
    by rewrite from_str_as_str.
Qed.

(** Why a row is refused. *)
Definition row_defect (prev : option string) (row : Row) (e : AuditError) : Prop :=
  match e with
  | UnknownAction => AuditAction.from_str (row_action row) = None
  | ChainViolation n => n = row_seq row /\ ~ follows prev row
  | HashMismatch n => n = row_seq row /\ follows prev row /\ ~ row_valid row
  | _ => False
  end.

Lemma compute_hash_ok e : exists input, hash_input e = Ok input /\ compute_hash e = Ok (sha256 input).
Proof.
  destruct (canonical_json_ok (detail e)) as [t Ht]. unfold compute_hash, hash_input. rewrite Ht. simpl. eauto.
Qed.

Lemma verify_row_spec prev row :
  match verify_row prev row with
  | Ok x => x = Some (row_hash row) /\ row_valid row /\ follows prev row
  | Err e => row_defect prev row e
  end.
Proof.
  unfold verify_row. destruct (row_to_audit_entry row) as [e|er] eqn:He.
  - simpl. pose proof He as (_ & _ & Hseq & Hhash & Hprev & _)%row_to_audit_entry_ok.
    assert (match prev with Some expected => bool_decide (prev_hash e <> Some expected) | None => false end =
      bool_decide (~ follows prev row)) as ->.
    { unfold follows. destruct prev; [rewrite Hprev|done]. by apply bool_decide_ext. }
    case_bool_decide as Hf; [done|].
    destruct (compute_hash_ok e) as (input & Hin & ->). simpl. rewrite Hhash. case_bool_decide as Hc.
    + split_and!; [done..|]. intros (e' & input' & He' & Hin' & Hs). rewrite He in He'.
      injection He' as <-. rewrite Hin in Hin'. injection Hin' as <-. done.
    + split_and!; [done| |done]. exists e, input. by split_and!.
  - unfold row_to_audit_entry in He. simpl. destruct (AuditAction.from_str (row_action row)) eqn:Hf; [done|].
    by injection He as <-.
Qed.

Lemma fold_verify_spec prev rows :
  match fold_result verify_row prev rows with
  | Ok _ => Forall row_valid rows /\ chained prev rows
  | Err e => exists good row rest, rows = good ++ row :: rest /\ Forall row_valid good /\ chained prev good /\
      row_defect (if last good is Some p then Some (row_hash p) else prev) row e
  end.
Proof.
  revert prev. induction rows as [|row rows IH]; intros prev; simpl; [by split; [constructor|]|].
  pose proof (verify_row_spec prev row) as Hrow. destruct (verify_row prev row) as [x|e]; simpl.
  - destruct Hrow as (-> & Hv & Hf). specialize (IH (Some (row_hash row))).
    destruct (fold_result verify_row (Some (row_hash row)) rows) as [y|e].
    + destruct IH as [Hvs Hc]. by split; [constructor|].
    + destruct IH as (good & bad & rest & -> & Hg & Hc & Hd). exists (row :: good), bad, rest.
      split_and!; [done|by constructor|done..|].
      rewrite last_cons. by destruct (last good).
  - by exists [], row, rows.
Qed.

Lemma chained_app prev good row rest :
  chained prev (good ++ row :: rest) -> follows (if last good is Some p then Some (row_hash p) else prev) row.
Proof.
  revert prev. induction good as [|g good IH]; intros prev; [by intros [Hf _]|]. intros [_ Hc].
  apply IH in Hc. rewrite last_cons. by destruct (last good).
Qed.

Lemma row_defect_refused prev row e : row_valid row -> follows prev row -> ~ row_defect prev row e.
Proof.
  intros Hv Hf. destruct e; simpl; try naive_solver. destruct Hv as (e & _ & He & _).
  apply row_to_audit_entry_ok in He as (<- & _). by rewrite from_str_as_str.
Qed.

Lemma verify_rows_true rows :
  verify_rows rows = Ok true <-> rows <> [] /\ Forall row_valid rows /\ chained None rows.
Proof.
  unfold verify_rows. destruct rows as [|row rows]; [naive_solver|].
  pose proof (fold_verify_spec None (row :: rows)) as Hs.
  destruct (fold_result verify_row None (row :: rows)) as [x|e]; [naive_solver|].
  split; [done|]. intros (_ & Hv & Hc). exfalso. destruct Hs as (good & bad & rest & E & _ & _ & Hd).
  rewrite E in Hv, Hc. apply Forall_app in Hv as [_ [Hv _]%Forall_cons].
  eapply row_defect_refused; [exact Hv|by eapply chained_app|exact Hd].
Qed.

(** ** Two verified lists with one last hash *)

(** The bytes hashed for a row. *)
Definition row_input (row : Row) (input : string) : Prop :=
  exists e, row_to_audit_entry row = Ok e /\ hash_input e = Ok input.

(** No two different inputs among those of these rows have one digest. *)
Definition no_collision (rows : list Row) : Prop := forall r r' p p',
  r ∈ rows -> r' ∈ rows -> row_input r p -> row_input r' p' -> sha256 p = sha256 p' -> p = p'.

(** The rows have one hash, and what is hashed is the same: in any case the community, the
    sequence number, the time and the action; the other columns if they are well formed. *)
Definition row_agrees (a b : Row) : Prop :=
  row_hash a = row_hash b /\ row_seq a = row_seq b /\
  to_storage_precision (row_created_at a) = to_storage_precision (row_created_at b) /\
  row_action a = row_action b /\
  (exists input, row_input a input /\ row_input b input) /\
  forall ea eb, row_to_audit_entry a = Ok ea -> row_to_audit_entry b = Ok eb ->
    columns_wf ea -> columns_wf eb -> same_entry ea eb.

Lemma chained_reverse prev rows i p r :
  chained prev rows -> reverse rows !! i = Some r -> reverse rows !! S i = Some p ->
  row_prev_hash r = Some (row_hash p).
Proof.
  revert prev i. induction rows as [|row rows IH]; intros prev i; [done|]. intros [_ Hc].
  rewrite reverse_cons. intros Hr Hp. destruct (decide (S i < length (reverse rows))) as [Hlt|Hge].
  - rewrite lookup_app_l in Hr, Hp by lia. by eapply IH.
  - apply lookup_snoc_Some in Hp as [[? _]|[E <-]]; [lia|]. rewrite lookup_app_l in Hr by lia.
    destruct rows as [|row' rows]; [done|]. destruct Hc as [Hf _]. simpl in Hf.
    rewrite reverse_cons in Hr, E. rewrite length_app in E. simpl in E.
    apply lookup_snoc_Some in Hr as [[? _]|[_ <-]]; [lia|done].
Qed.

Lemma hash_input_tail e p : hash_input e = Ok p -> exists q, p = (q ++ default GENESIS_HASH (prev_hash e))%string.
Proof.
  intros (t & _ & ->)%hash_input_ok. unfold context_input. rewrite !string_app_assoc. by eexists.
Qed.

Lemma row_valid_input row : row_valid row -> exists p, row_input row p /\ sha256 p = row_hash row.
Proof. intros (e & p & He & Hp & Hs). exists p. split; [by exists e|done]. Qed.

(** Valid rows with one hash agree, and name the same row before them. *)
Lemma same_hash_agrees a b :
  row_valid a -> row_valid b -> is_i64 (row_seq a) -> is_i64 (row_seq b) ->
  (forall p p', row_input a p -> row_input b p' -> sha256 p = sha256 p' -> p = p') ->
  row_hash a = row_hash b ->
  row_agrees a b /\
  forall ha hb, row_prev_hash a = Some ha -> row_prev_hash b = Some hb ->
    String.length ha = 32 -> String.length hb = 32 -> ha = hb.
Proof.
  intros (ea & p & Ha & Hpa & Hsa) (eb & p' & Hb & Hpb & Hsb) Hia Hib Hnc E.
  assert (p = p') as <- by (apply Hnc; [by exists ea|by exists eb|congruence]).
  pose proof Ha as (Haa & _ & Hqa & _ & Hpva & _ & _ & _ & Hta)%row_to_audit_entry_ok.
  pose proof Hb as (Hab & _ & Hqb & _ & Hpvb & _ & _ & _ & Htb)%row_to_audit_entry_ok.
  rewrite <-Hqa in Hia. rewrite <-Hqb in Hib.
  destruct (hash_input_head ea eb p Hia Hib Hpa Hpb) as (_ & Es & Et & Eact & _).
  split.
  - split_and!; [done|congruence|congruence|congruence|exists p; split; [by exists ea|by exists eb]|].
    intros ea' eb' Ha' Hb' Hwa Hwb. rewrite Ha in Ha'. rewrite Hb in Hb'. injection Ha' as <-. injection Hb' as <-.
    by destruct (hash_input_inj ea eb p Hia Hib Hwa Hwb Hpa Hpb).
  - intros ha hb Eha Ehb Hla Hlb. rewrite <-Hpva in Eha. rewrite <-Hpvb in Ehb.
    destruct (hash_input_tail _ _ Hpa) as [q Hq], (hash_input_tail _ _ Hpb) as [q' Hq'].
    rewrite Hq, Eha, Ehb in Hq'. by apply string_app_length_inj_r in Hq' as [_ Hh]; [|simpl; congruence].
Qed.

Lemma aligned before after :
  verify_rows before = Ok true -> verify_rows after = Ok true ->
  Forall (fun r => is_i64 (row_seq r)) (before ++ after) -> no_collision (before ++ after) ->
  row_hash <$> last before = row_hash <$> last after ->
  forall i a b, reverse before !! i = Some a -> reverse after !! i = Some b -> row_agrees a b.
Proof.
  intros (_ & Hv & Hc)%verify_rows_true (_ & Hv' & Hc')%verify_rows_true Hi Hnc Hlast.
  apply Forall_app in Hi as [Hi Hi']. rewrite Forall_forall in Hv, Hv', Hi, Hi'.
  assert (forall i a, reverse before !! i = Some a -> a ∈ before) as Hin
    by (intros i a Ha%list_elem_of_lookup_2; exact (proj1 (elem_of_reverse _ _) Ha)).
  assert (forall i a, reverse after !! i = Some a -> a ∈ after) as Hin'
    by (intros i a Ha%list_elem_of_lookup_2; exact (proj1 (elem_of_reverse _ _) Ha)).
  assert (forall i a b, reverse before !! i = Some a -> reverse after !! i = Some b ->
    row_hash a = row_hash b) as Hhash.
  { intros i. induction i as [|i IH]; intros a b Ha Hb.
    - rewrite <-head_lookup, head_reverse in Ha, Hb. rewrite Ha, Hb in Hlast. by injection Hlast.
    - assert (exists a' b', reverse before !! i = Some a' /\ reverse after !! i = Some b') as (a' & b' & Ha' & Hb').
      { apply lookup_lt_Some in Ha, Hb.
        destruct (lookup_lt_is_Some_2 (reverse before) i ltac:(lia)), (lookup_lt_is_Some_2 (reverse after) i ltac:(lia)).
        eauto. }
      pose proof (chained_reverse _ _ _ _ _ Hc Ha' Ha) as Ea. pose proof (chained_reverse _ _ _ _ _ Hc' Hb' Hb) as Eb.
      destruct (same_hash_agrees a' b') as [_ Hp]; [eauto..| | |].
      + intros p p'. apply Hnc; set_solver.
      + by apply IH.
      + apply Hp; [done|done|..].
        * destruct (Hv _ (Hin _ _ Ha)) as (? & ? & _ & _ & <-). apply length_sha256.
        * destruct (Hv' _ (Hin' _ _ Hb)) as (? & ? & _ & _ & <-). apply length_sha256. }
  intros i a b Ha Hb. apply same_hash_agrees; [eauto..| |by eapply Hhash].
  intros p p'. apply Hnc; set_solver.
Qed.

End chain.
