(* ===== verification/AuditDb.v ===== *)
(** * The database under the audit log ([AuditLog])

    What PostgreSQL does with the calls of [AuditLog.AuditCall]: committed rows, open
    transactions, and advisory locks, which belong to sessions.  Before every call any
    sessions may die, and every call may fail, having run or not. *)

From S2P Require Import Prelude Text Nostr Json Concurrent AuditLog AuditHash AuditChain.

(** The key of a named advisory lock; a [JSONB] value as it is read back, if it is accepted. *)
Class Postgres `{SerdeNumber} := {
  hashtextextended : string -> Z;
  jsonb : Value.t -> option Value.t;
}.

(** [JSONB] keeps integers, strings and structure, in an order of its own.  (A floating-point
    number may come back as an integer.) *)
Class PostgresLaws `{Postgres} := {
  jsonb_kept v v' : jsonb v = Some v' -> Value.no_floats v = true -> Value.distinct_keys v ->
    Value.distinct_keys v' /\ Value.normalize v' = Value.normalize v;
}.

Section db.
Context `{SerdeNumber} `{!Postgres}.

Record PgWorld := {
  w_rows : gmap (Uuid * Z) Row;
  w_locks : gmap Z Session;
  w_open : gmap Session (list Row);
  w_busy : gset Session;
  w_alive : gset Session;
}.

Definition set_rows (rows : gmap (Uuid * Z) Row) w : PgWorld :=
  {| w_rows := rows; w_locks := w_locks w; w_open := w_open w; w_busy := w_busy w; w_alive := w_alive w |}.
Definition set_locks (locks : gmap Z Session) w : PgWorld :=
  {| w_rows := w_rows w; w_locks := locks; w_open := w_open w; w_busy := w_busy w; w_alive := w_alive w |}.
Definition set_open (open : gmap Session (list Row)) w : PgWorld :=
  {| w_rows := w_rows w; w_locks := w_locks w; w_open := open; w_busy := w_busy w; w_alive := w_alive w |}.
Definition set_sessions (busy alive : gset Session) w : PgWorld :=
  {| w_rows := w_rows w; w_locks := w_locks w; w_open := w_open w; w_busy := busy; w_alive := alive |}.

Definition empty_world : PgWorld :=
  {| w_rows := ∅; w_locks := ∅; w_open := ∅; w_busy := ∅; w_alive := ∅ |}.

(** A session ends: its locks are released and its transaction is undone. *)
Definition kill (s : Session) (w : PgWorld) : PgWorld :=
  {| w_rows := w_rows w; w_locks := filter (fun kv => kv.2 <> s) (w_locks w);
     w_open := delete s (w_open w); w_busy := w_busy w; w_alive := w_alive w ∖ {[s]} |}.

(** A row as it is stored: [TIMESTAMPTZ] has microseconds. *)
Definition pg_row (r : Row) : option Row :=
  d ← jsonb (row_detail r);
  Some {| row_community_id := row_community_id r; row_seq := row_seq r; row_hash := row_hash r;
          row_prev_hash := row_prev_hash r; row_action := row_action r;
          row_actor_pubkey := row_actor_pubkey r; row_object_id := row_object_id r;
          row_detail := d; row_created_at := to_storage_precision (row_created_at r) |}.

Definition row_key (r : Row) : Uuid * Z := (row_community_id r, row_seq r).

(** The constraints of the table: [PRIMARY KEY (community_id, seq)] and
    [UNIQUE (community_id, hash)]. *)
Definition PKEY : string := "audit_log_pkey".
Definition HASH_INDEX : string := "idx_audit_log_hash".

Definition violates (rows : gmap (Uuid * Z) Row) (r : Row) (constraint : string) : Prop :=
  constraint = PKEY /\ is_Some (rows !! row_key r) \/
  constraint = HASH_INDEX /\ exists n r', rows !! (row_community_id r, n) = Some r' /\ row_hash r' = row_hash r.

(** The rows a session sees: the committed ones and its own. *)
Definition visible (w : PgWorld) (s : Session) : gmap (Uuid * Z) Row :=
  foldl (fun rows r => <[row_key r := r]> rows) (w_rows w) (default [] (w_open w !! s)).

(** [ORDER BY seq DESC LIMIT 1] *)
Definition head_of (rows : gmap (Uuid * Z) Row) (c : Uuid) (head : option (Z * string)) : Prop :=
  match head with
  | Some (n, h) => (exists r, rows !! (c, n) = Some r /\ row_hash r = h) /\
      forall m, (n < m)%Z -> rows !! (c, m) = None
  | None => forall m, rows !! (c, m) = None
  end.

(** [ORDER BY seq ASC] *)
Definition selected (rows : gmap (Uuid * Z) Row) (c : Uuid) (P : Z -> Prop) (l : list Row) : Prop :=
  StronglySorted (fun a b => (row_seq a < row_seq b)%Z) l /\
  forall r, r ∈ l <-> rows !! (c, row_seq r) = Some r /\ P (row_seq r).

Definition failed {A} (r : Result A SqlxError) : Prop := exists what, r = Err (SqlxFailure what).

(** A statement that ran, whether or not its answer arrived. *)
Definition ran {A} (a : A) (r : Result A SqlxError) : Prop := r = Ok a \/ failed r.

(** What a call does.  A lock is granted when no other session has it; an insert waits for
    another transaction that has its key; a table has less than 2^62 rows. *)
Definition pg_effect (R : Type) (c : AuditCall R) (w w' : PgWorld) : R -> Prop :=
  match c in AuditCall R return R -> Prop with
  | Acquire => fun r =>
      failed r /\ w' = w \/
      exists s, s ∉ w_busy w /\ r = Ok s /\ w' = set_sessions (w_busy w ∪ {[s]}) (w_alive w ∪ {[s]}) w
  | Release s => fun _ => w' = set_sessions (w_busy w ∖ {[s]}) (w_alive w) w
  | AdvisoryLock s key => fun r =>
      failed r /\ w' = w \/
      s ∈ w_alive w /\ (forall s', w_locks w !! hashtextextended key = Some s' -> s' = s) /\
      w' = set_locks (<[hashtextextended key := s]> (w_locks w)) w /\ ran tt r
  | AdvisoryUnlock s key => fun r =>
      w' = w \/
      w_locks w !! hashtextextended key = Some s /\
      w' = set_locks (delete (hashtextextended key) (w_locks w)) w
  | Begin s => fun r =>
      failed r /\ w' = w \/ s ∈ w_alive w /\ w' = set_open (<[s := []]> (w_open w)) w /\ ran tt r
  | Rollback s => fun _ => w' = w \/ w' = set_open (delete s (w_open w)) w
  | SelectHead s c => fun r => w' = w /\
      (failed r \/ s ∈ w_alive w /\ exists head, r = Ok head /\ head_of (visible w s) c head)
  | UtcNow => fun _ => w' = w
  | Insert s row => fun r =>
      failed r /\ w' = w \/
      s ∈ w_alive w /\ (Z.of_nat (size (w_rows w)) < 2 ^ 62)%Z /\ exists pending, w_open w !! s = Some pending /\
        ((exists name, violates (visible w s) row name /\ r = Err (UniqueViolation name) /\ w' = w) \/
         exists row', pg_row row = Some row' /\ (forall name, ~ violates (visible w s) row name) /\
           (forall s' rs, s' <> s -> w_open w !! s' = Some rs -> Forall (fun r => row_key r <> row_key row) rs) /\
           w' = set_open (<[s := pending ++ [row']]> (w_open w)) w /\ ran tt r)
  | Commit s => fun r =>
      failed r /\ (w' = w \/ w' = set_open (delete s (w_open w)) w) \/
      s ∈ w_alive w /\ is_Some (w_open w !! s) /\
      w' = set_open (delete s (w_open w)) (set_rows (visible w s) w) /\ ran tt r
  | SelectRange c lo hi => fun r => w' = w /\
      (failed r \/ exists l, r = Ok l /\ selected (w_rows w) c (fun n => lo <= n <= hi)%Z l)
  | SelectFrom c lo limit => fun r => w' = w /\
      (failed r \/ exists l, r = Ok (take (Z.to_nat limit) l) /\ selected (w_rows w) c (fun n => lo <= n)%Z l)
  end.

Definition pg_answer (R : Type) (c : AuditCall R) (w w' : PgWorld) (r : R) : Prop :=
  exists dead : list Session, pg_effect R c (foldr kill w dead) w' r.

End db.
