(* ===== verification/AuditProps.v ===== *)
(** * Every community has one intact chain ([AuditLog] over [AuditDb])

    Any number of appends, verifications and reads, on any relays, interleaved at their
    statements.  An append works on a session of its own ([Concurrent.owp]): while the session
    lives, its lock keeps every other append of the community out, so the entry it computed
    from the head of the chain is still the next one when it commits. *)

From S2P Require Import Prelude Text Nostr Json Concurrent AuditLog AuditHash AuditChain AuditDb.

Section audit.
Context `{NostrApi} `{SerdeNumber} `{!SerdeJson} `{!SerdeJsonLaws} `{AuditApi} `{!AuditLaws}.
Context `{UuidBytes} `{!UuidBytesLaws} `{!Postgres} `{!PostgresLaws}.

(** ** The invariant *)

(** A committed row: valid, under its own key, and the first of its community or linked to the
    row before it. *)
Record row_ok (rows : gmap (Uuid * Z) Row) (c : Uuid) (n : Z) (r : Row) : Prop := {
  row_ok_key : row_key r = (c, n);
  row_ok_pos : (1 <= n)%Z;
  row_ok_valid : row_valid r;
  row_ok_prev : if decide (n = 1%Z) then row_prev_hash r = None
    else exists p, rows !! (c, n - 1)%Z = Some p /\ row_prev_hash r = Some (row_hash p);
}.

Definition audit_inv (w : PgWorld) : Prop := forall c n r, w_rows w !! (c, n) = Some r -> row_ok (w_rows w) c n r.

Definition lock_id (c : Uuid) : Z := hashtextextended (lock_key c).

(** What others may do: rows stay; while my session lives, so do its locks, its transaction
    and the chains it has locked. *)
Record keeps_session (s : Session) (w w' : PgWorld) : Prop := {
  keeps_busy : s ∈ w_busy w';
  keeps_alive : s ∈ w_alive w' -> s ∈ w_alive w;
  keeps_locks k : s ∈ w_alive w' -> w_locks w !! k = Some s <-> w_locks w' !! k = Some s;
  keeps_open : s ∈ w_alive w' -> w_open w' !! s = w_open w !! s;
  keeps_rows c n : s ∈ w_alive w' -> w_locks w !! lock_id c = Some s ->
    w_rows w' !! (c, n) = w_rows w !! (c, n);
}.

Definition audit_rely (h : option Session) (w w' : PgWorld) : Prop :=
  w_rows w ⊆ w_rows w' /\ forall s, h = Some s -> s ∈ w_busy w -> keeps_session s w w'.

#[export] Instance audit_rely_preorder h : PreOrder (audit_rely h).
Proof.
  split.
  - intros w. split; [done|]. intros s _ Hs. by split.
  - intros w1 w2 w3 [R1 K1] [R2 K2]. split; [by etrans|]. intros s Hh Hs.
    destruct (K1 s Hh Hs) as [B1 A1 L1 O1 W1]. destruct (K2 s Hh B1) as [B2 A2 L2 O2 W2].
    split; [done|auto|..].
    + intros k Ha. rewrite L1 by auto. auto.
    + intros Ha. rewrite O2 by done. auto.
    + intros c n Ha Hl. rewrite W2; [auto|done|]. apply L1; auto.
Qed.

Definition audit_busy (w : PgWorld) (s : Session) : Prop := s ∈ w_busy w.

Notation aowp := (owp pg_answer audit_inv audit_busy audit_rely).
Notation aowp_seq := (owp_seq pg_answer audit_inv audit_busy audit_rely).

Lemma audit_rely_busy s w w' : audit_rely (Some s) w w' -> audit_busy w s -> audit_busy w' s.
Proof. intros [_ K] Hs. by apply (K s eq_refl Hs). Qed.

(** Sessions that die. *)
Lemma kill_all_rows dead w : w_rows (foldr kill w dead) = w_rows w.
Proof. induction dead as [|s dead IH]; simpl; [done|]. exact IH. Qed.

Lemma kill_all_busy dead w : w_busy (foldr kill w dead) = w_busy w.
Proof. induction dead as [|s dead IH]; simpl; [done|]. exact IH. Qed.

Lemma kill_all_keeps dead w s : s ∈ w_busy w -> keeps_session s w (foldr kill w dead).
Proof.
  intros Hs. induction dead as [|d dead IH]; [by split|]. simpl. set (w0 := foldr kill w dead) in *.
  destruct IH as [B A L O R]. split; simpl.
  - done.
  - intros [Ha _]%elem_of_difference. auto.
  - intros k [Ha Hd]%elem_of_difference. rewrite L by done. rewrite map_lookup_filter_Some. simpl. set_solver.
  - intros [Ha Hd]%elem_of_difference. rewrite lookup_delete_ne by set_solver. auto.
  - intros c n [Ha _]%elem_of_difference. by apply R.
Qed.

Lemma kill_all_rely dead h w : audit_rely h w (foldr kill w dead).
Proof. split; [by rewrite kill_all_rows|]. intros s _ Hs. by apply kill_all_keeps. Qed.

Lemma kill_all_inv dead w : audit_inv w -> audit_inv (foldr kill w dead).
Proof. unfold audit_inv. by rewrite kill_all_rows. Qed.

(** ** One call of a session's task *)

(** What a call of the task that holds [s] leaves alone. *)
Definition spares (s : Session) (w w' : PgWorld) : Prop :=
  w_rows w ⊆ w_rows w' /\ forall s', s' ∈ w_busy w -> s' <> s -> keeps_session s' w w'.

Definition stable (s : Session) (P : PgWorld -> Prop) : Prop :=
  forall w w', audit_rely (Some s) w w' -> P w -> P w'.

Lemma owp_session_call {R} s (c : AuditCall R) w (P : PgWorld -> Prop) (Q : R -> PgWorld -> Prop) :
  stable s P -> (forall w, P w -> s ∈ w_busy w) -> (forall r, stable s (Q r)) -> P w ->
  (forall w1 w2 r, audit_inv w1 -> P w1 -> pg_effect _ c w1 w2 r ->
     audit_inv w2 /\ spares s w1 w2 /\ s ∈ w_busy w2 /\ Q r w2) ->
  aowp (Some s) (call c) w (fun h r w => h = Some s /\ Q r w).
Proof.
  intros HP Hbusy HQ Hw Hc w1 w2 r Hr Hi [dead He].
  assert (audit_rely (Some s) w (foldr kill w1 dead)) as Hr' by (etrans; [exact Hr|apply kill_all_rely]).
  destruct (Hc _ w2 r (kill_all_inv dead w1 Hi) (HP _ _ Hr' Hw) He) as (Hi2 & [Hrows Hsp] & Hb & Hq).
  split; [done|]. split.
  - intros h' Ho. etrans; [apply (kill_all_rely dead)|]. split; [done|]. intros s' -> Hs'.
    apply Hsp; [done|]. intros ->. by destruct (Ho s eq_refl) as [_ ?].
  - exists (Some s). split; [intros k [= <-]; split; [done|by left]|].
    intros w3 Hw3 _. split; [done|]. by eapply HQ.
Qed.

Lemma spares_refl s w : spares s w w.
Proof. split; [done|]. intros s' Hs' _. by split. Qed.

Lemma spares_open s open w :
  (forall s', s' <> s -> open !! s' = w_open w !! s') -> spares s w (set_open open w).
Proof. intros Ho. split; [done|]. intros s' Hs' Hne. split; simpl; try done. intros _. by apply Ho. Qed.

Lemma spares_locks s locks w :
  (forall k s', s' <> s -> w_locks w !! k = Some s' <-> locks !! k = Some s') -> spares s w (set_locks locks w).
Proof. intros Hl. split; [done|]. intros s' Hs' Hne. split; simpl; try done. intros k _. by apply Hl. Qed.

(** *** What a task knows of its session *)

Definition locked (s : Session) (c : Uuid) (w : PgWorld) : Prop :=
  s ∈ w_busy w /\ (s ∈ w_alive w -> w_locks w !! lock_id c = Some s).

(** The transaction is open with these rows, and the head of the chain is known. *)
Definition opened (s : Session) (c : Uuid) (pending : list Row) (w : PgWorld) : Prop :=
  locked s c w /\ (s ∈ w_alive w -> w_open w !! s = Some pending).

Definition headed (s : Session) (c : Uuid) (pending : list Row) (head : option (Z * string)) (w : PgWorld) : Prop :=
  opened s c pending w /\ (s ∈ w_alive w -> head_of (w_rows w) c head).

Lemma stable_busy s : stable s (fun w => s ∈ w_busy w).
Proof. intros w w' [_ K] Hs. by apply (K s eq_refl Hs). Qed.

Lemma stable_locked s c : stable s (locked s c).
Proof.
  intros w w' [_ K] [Hs Hl]. destruct (K s eq_refl Hs) as [B A L _ _].
  split; [done|]. intros Ha. apply L; auto.
Qed.

Lemma stable_opened s c pending : stable s (opened s c pending).
Proof.
  intros w w' Hr [Hl Ho]. split; [by eapply stable_locked|]. destruct Hr as [_ K], Hl as [Hs _].
  destruct (K s eq_refl Hs) as [_ A _ O _]. intros Ha. rewrite O by done. auto.
Qed.

Lemma head_of_ext rows rows' c head :
  (forall n, rows' !! (c, n) = rows !! (c, n)) -> head_of rows c head -> head_of rows' c head.
Proof. intros E. destruct head as [[n h]|]; simpl; setoid_rewrite E; done. Qed.

Lemma stable_headed s c pending head : stable s (headed s c pending head).
Proof.
  intros w w' Hr [Ho Hh]. split; [by eapply stable_opened|]. destruct Hr as [_ K], Ho as [[Hs Hl] _].
  destruct (K s eq_refl Hs) as [_ A _ _ R]. intros Ha. apply (head_of_ext (w_rows w)); [|auto].
  intros n. apply R; auto.
Qed.

(** *** Statements *)

Lemma owp_ret {A} s (a : A) w (Q : PgWorld -> Prop) (R : option Session -> A -> PgWorld -> Prop) :
  stable s Q -> Q w -> (forall w, Q w -> R (Some s) a w) -> aowp (Some s) (Ret a) w R.
Proof. intros HQ Hw HR w1 Hw1 _. apply HR. by eapply HQ. Qed.

(** A statement of the session's task, by what it does. *)
Definition answered {A} (Q : A -> PgWorld -> Prop) (E : SqlxError -> PgWorld -> Prop) (r : Result A SqlxError)
    (w : PgWorld) : Prop := match r with Ok a => Q a w | Err e => E e w end.

Section query.
Context {A : Type} (s : Session) (c : AuditCall (Result A SqlxError)).
Context (P : PgWorld -> Prop) (Q : A -> PgWorld -> Prop) (E : SqlxError -> PgWorld -> Prop).
Context (HP : stable s P) (Hbusy : forall w, P w -> s ∈ w_busy w).
Context (HQ : forall a, stable s (Q a)) (HE : forall e, stable s (E e)).
Context (Hc : forall w1 w2 r, audit_inv w1 -> P w1 -> pg_effect _ c w1 w2 r ->
  audit_inv w2 /\ spares s w1 w2 /\ s ∈ w_busy w2 /\ answered Q E r w2).

Lemma stable_answered r : stable s (answered Q E r).
Proof. destruct r; [apply HQ|apply HE]. Qed.

Lemma owp_query w : P w -> audit_inv w ->
  aowp (Some s) (query c) w (fun h r w => h = Some s /\ exists r0, r = map_err Database r0 /\ answered Q E r0 w).
Proof.
  intros Hw Hi. eapply aowp_seq; [|exact Hi|].
  - apply (owp_session_call s c w P (answered Q E) HP Hbusy stable_answered Hw Hc).
  - intros h r w1 Hi1 [-> Hr].
    apply (owp_ret s _ w1 (answered Q E r)); [apply stable_answered|exact Hr|]. intros w2 Hw2. eauto.
Qed.

Lemma owp_query_ok {B} (f : A -> AuditProg (Result B AuditError)) w R :
  P w -> audit_inv w -> (forall e w1, E e w1 -> R (Some s) (Err (Database e)) w1) ->
  (forall a w1, audit_inv w1 -> Q a w1 -> aowp (Some s) (f a) w1 R) ->
  aowp (Some s) (let!? a := query c in f a) w R.
Proof.
  intros Hw Hi HErr Hf. unfold bind_ok. eapply aowp_seq; [by apply owp_query|exact Hi|].
  intros h r w1 Hi1 (-> & [a|e] & -> & Hr); simpl in Hr |- *; [by apply Hf|].
  apply (owp_ret s _ w1 (E e)); [done|done|]. apply HErr.
Qed.
End query.

(** ** The next entry *)

Definition next_seq (head : option (Z * string)) : Z :=
  match head with Some (n, _) => n + 1 | None => 1 end.

Lemma to_storage_precision_idemp t : to_storage_precision (to_storage_precision t) = to_storage_precision t.
Proof. unfold to_storage_precision. pose proof (Z.div_mod t 1000). rewrite Zminus_mod_idemp_r, Z.sub_diag, Zmod_0_l. lia. Qed.

Lemma chain_down w c n r m :
  audit_inv w -> w_rows w !! (c, n) = Some r -> (1 <= m <= n)%Z -> is_Some (w_rows w !! (c, m)).
Proof.
  intros Hi Hr [Hm Hle]. remember (Z.to_nat (n - m)) as k eqn:Hk. revert m Hm Hle Hk.
  induction k as [|k IH]; intros m Hm Hle Hk; [by replace m with n by lia|].
  destruct (IH (m + 1)%Z ltac:(lia) ltac:(lia) ltac:(lia)) as [r' Hr'].
  pose proof (row_ok_prev _ _ _ _ (Hi _ _ _ Hr')) as Hp. rewrite decide_False in Hp by lia.
  destruct Hp as (p & Hp & _). replace (m + 1 - 1)%Z with m in Hp by lia. eauto.
Qed.

(** A chain is no longer than its table. *)
Lemma chain_size w c n r : audit_inv w -> w_rows w !! (c, n) = Some r -> (n <= Z.of_nat (size (w_rows w)))%Z.
Proof.
  intros Hi Hr. pose proof (row_ok_pos _ _ _ _ (Hi _ _ _ Hr)) as Hpos.
  set (keys := (fun i => (c, Z.of_nat i + 1)%Z) <$> List.seq 0 (Z.to_nat n)).
  assert (NoDup keys) as Hnd by (apply (NoDup_fmap_2_strong _ _); [intros i j _ _ [= E]; lia|apply NoDup_seq]).
  assert (list_to_set keys ⊆ dom (w_rows w)) as Hsub.
  { intros k. rewrite elem_of_list_to_set, elem_of_dom. intros (i & -> & Hin)%list_elem_of_fmap.
    apply elem_of_seq in Hin. eapply chain_down; [done|exact Hr|lia]. }
  apply subseteq_size in Hsub. rewrite size_list_to_set, size_dom in Hsub by done.
  unfold keys in Hsub. rewrite length_fmap, length_seq in Hsub. lia.
Qed.

(** A head is at most 2^62, so its successor does not wrap around. *)
Lemma head_bound w c n h :
  audit_inv w -> head_of (w_rows w) c (Some (n, h)) -> (Z.of_nat (size (w_rows w)) < 2 ^ 62)%Z ->
  i64_wrapping_succ n = (n + 1)%Z.
Proof.
  intros Hi [(r & Hr & _) _] Hs. pose proof (chain_size w c n r Hi Hr).
  pose proof (row_ok_pos _ _ _ _ (Hi _ _ _ Hr)). unfold i64_wrapping_succ. rewrite Z.mod_small by lia. lia.
Qed.

Lemma next_entry_seq w entry head now :
  audit_inv w -> head_of (w_rows w) (ne_community_id entry) head -> (Z.of_nat (size (w_rows w)) < 2 ^ 62)%Z ->
  seq (next_entry entry head now) = next_seq head.
Proof. intros Hi Hh Hs. destruct head as [[n h]|]; [|done]. simpl. by eapply head_bound. Qed.

(** The entry after the head has no row, and its row extends the chain. *)
Lemma next_seq_free rows c head m : head_of rows c head -> (next_seq head <= m)%Z -> rows !! (c, m) = None.
Proof. destruct head as [[n h]|]; simpl; [|by intros Hn]. intros [_ Hn] Hm. apply Hn. lia. Qed.

Lemma stored_row_valid e h r :
  Value.no_floats (detail e) = true -> Value.distinct_keys (detail e) ->
  compute_hash e = Ok h -> pg_row (entry_row (set_hash h e)) = Some r -> row_valid r.
Proof.
  intros Hf Hd. unfold compute_hash. rewrite result_bind_ok. intros (input & Hin%map_err_ok & [= <-]).
  unfold pg_row. destruct (jsonb (row_detail (entry_row (set_hash (sha256 input) e)))) as [d|] eqn:Hj; [|done].
  simpl in Hj |- *. intros [= <-]. destruct (jsonb_kept _ _ Hj Hf Hd) as [Hd' Hn].
  exists {| community_id := community_id e; seq := seq e; hash := sha256 input; prev_hash := prev_hash e;
    action := action e; actor_pubkey := actor_pubkey e; object_id := object_id e; detail := d;
    created_at := to_storage_precision (created_at e) |}, input.
  split_and!; [by apply row_to_audit_entry_ok| |done].
  apply hash_input_ok in Hin as (t & Ht & ->). apply hash_input_ok. exists t. simpl.
  by rewrite to_storage_precision_idemp, (canonical_json_agree d (detail e)).
Qed.

Lemma row_ok_mono rows rows' c n r : rows ⊆ rows' -> row_ok rows c n r -> row_ok rows' c n r.
Proof.
  intros Hsub [Hk Hp Hv Hl]. split; [done..|]. case_decide; [done|]. destruct Hl as (p & Hlk & E).
  exists p. split; [by eapply lookup_weaken|done].
Qed.

(** The row of the next entry. *)
Record next_row (c : Uuid) (head : option (Z * string)) (r : Row) : Prop := {
  next_row_key : row_key r = (c, next_seq head);
  next_row_valid : row_valid r;
  next_row_prev : row_prev_hash r = snd <$> head;
}.

Lemma next_row_ok w c head r :
  audit_inv w -> head_of (w_rows w) c head -> next_row c head r ->
  w_rows w ⊆ <[row_key r := r]> (w_rows w) /\ audit_inv (set_rows (<[row_key r := r]> (w_rows w)) w).
Proof.
  intros Hi Hh [Hk Hv Hp]. rewrite Hk.
  assert (w_rows w !! (c, next_seq head) = None) as Hfree by (by eapply next_seq_free).
  assert (w_rows w ⊆ <[(c, next_seq head) := r]> (w_rows w)) as Hsub by by apply insert_subseteq.
  split; [done|]. intros c' n' r'. simpl. rewrite lookup_insert. case_decide as E.
  - intros [= <-]. injection E as <- <-. destruct head as [[n h]|].
    + destruct Hh as [(p & Hlk & Hhash) _]. pose proof (row_ok_pos _ _ _ _ (Hi _ _ _ Hlk)) as Hpos.
      simpl in Hk, Hp, Hfree, Hsub |- *. split; [done|lia|done|].
      rewrite decide_False by lia. exists p. rewrite Hp, Hhash.
      split; [|done]. replace (n + 1 - 1)%Z with n by lia. by eapply lookup_weaken.
    + simpl in *. split; [done|lia|done|]. by rewrite decide_True.
  - intros Hlk. eapply row_ok_mono; [exact Hsub|]. by apply Hi.
Qed.

Lemma next_entry_row w entry head now h r :
  audit_inv w -> head_of (w_rows w) (ne_community_id entry) head -> (Z.of_nat (size (w_rows w)) < 2 ^ 62)%Z ->
  Value.no_floats (ne_detail entry) = true -> Value.distinct_keys (ne_detail entry) ->
  compute_hash (next_entry entry head now) = Ok h ->
  pg_row (entry_row (set_hash h (next_entry entry head now))) = Some r ->
  next_row (ne_community_id entry) head r.
Proof.
  intros Hi Hh Hs Hf Hd Hc Hr. pose proof (next_entry_seq w entry head now Hi Hh Hs) as Hseq.
  assert (Hv : row_valid r) by (eapply stored_row_valid; [| |exact Hc|exact Hr]; by destruct head as [[]|]).
  unfold pg_row in Hr. destruct (jsonb _) as [d|]; [|done]. injection Hr as <-. split; [|done|].
  - unfold row_key. simpl. rewrite Hseq. by destruct head as [[]|].
  - by destruct head as [[]|].
Qed.

(** ** An append *)

(** The entry is in the table as it was given. *)
Definition appended (entry : NewAuditEntry) (e : AuditEntry) (w : PgWorld) : Prop :=
  community_id e = ne_community_id entry /\ action e = ne_action entry /\
  actor_pubkey e = ne_actor_pubkey entry /\ object_id e = ne_object_id entry /\
  detail e = ne_detail entry /\
  exists r, pg_row (entry_row e) = Some r /\ w_rows w !! (ne_community_id entry, seq e) = Some r.

(** A failed append failed in the database, and not because another entry took its place. *)
Definition log_error (e : AuditError) : Prop :=
  match e with
  | Database e => e <> UniqueViolation PKEY
  | _ => False
  end.

Definition log_result (entry : NewAuditEntry) (r : Result AuditEntry AuditError) (w : PgWorld) : Prop :=
  match r with
  | Ok e => appended entry e w
  | Err e => log_error e
  end.

Lemma stable_log_result s entry r : stable s (fun w => s ∈ w_busy w /\ log_result entry r w).
Proof.
  intros w w' Hr [Hs Hl]. split; [by eapply stable_busy|]. destruct r as [e|e]; [|done].
  destruct Hl as (? & ? & ? & ? & ? & r & ? & ?). unfold log_result, appended. split_and!; [done..|].
  exists r. split; [done|]. by eapply lookup_weaken, Hr.
Qed.

Lemma stable_error s e : stable s (fun w => s ∈ w_busy w /\ e <> UniqueViolation PKEY).
Proof. intros w w' Hr [Hs He]. split; [by eapply stable_busy|done]. Qed.

Definition held (s : Session) (entry : NewAuditEntry) (h : option Session) (r : Result AuditEntry AuditError)
    (w : PgWorld) : Prop := h = Some s /\ s ∈ w_busy w /\ log_result entry r w.

Lemma visible_pending w s pending :
  w_open w !! s = Some pending -> visible w s = foldl (fun rows r => <[row_key r := r]> rows) (w_rows w) pending.
Proof. unfold visible. by intros ->. Qed.

Lemma failed_error {A} (r : Result A SqlxError) a : failed r -> r <> Ok a /\ forall e, r = Err e -> e <> UniqueViolation PKEY.
Proof. intros [what ->]. split; [done|]. by intros e [= <-]. Qed.

Section append.
Context (s : Session) (entry : NewAuditEntry).
Context (Hfloats : Value.no_floats (ne_detail entry) = true) (Hkeys : Value.distinct_keys (ne_detail entry)).
Let c := ne_community_id entry.

Lemma select_head_effect w1 w2 r :
  audit_inv w1 -> opened s c [] w1 -> pg_effect _ (SelectHead s c) w1 w2 r ->
  audit_inv w2 /\ spares s w1 w2 /\ s ∈ w_busy w2 /\
  match r with Ok head => headed s c [] head w2 | Err e => s ∈ w_busy w2 /\ e <> UniqueViolation PKEY end.
Proof.
  intros Hi Ho [-> He]. pose proof Ho as [[Hs Hl] Hop]. split_and!; [done|apply spares_refl|done|].
  destruct He as [[what ->]|(Ha & head & -> & Hh)]; [done|].
  split; [done|]. intros _. by rewrite (visible_pending _ _ _ (Hop Ha)) in Hh.
Qed.

Let e head now h := set_hash h (next_entry entry head now).

(** The row of the entry is pending. *)
Definition inserted head now h (w : PgWorld) : Prop :=
  exists r, pg_row (entry_row (e head now h)) = Some r /\ next_row c head r /\
    seq (e head now h) = next_seq head /\ headed s c [r] head w.

Lemma insert_effect head now h w1 w2 r :
  compute_hash (next_entry entry head now) = Ok h ->
  audit_inv w1 -> headed s c [] head w1 -> pg_effect _ (Insert s (entry_row (e head now h))) w1 w2 r ->
  audit_inv w2 /\ spares s w1 w2 /\ s ∈ w_busy w2 /\
  match r with Ok _ => inserted head now h w2 | Err e => s ∈ w_busy w2 /\ e <> UniqueViolation PKEY end.
Proof.
  intros Hc Hi Hh [[[what ->] ->]|(Ha & Hsize & pending & Hp & He)].
  { pose proof Hh as [[[Hs _] _] _]. split_and!; [done|apply spares_refl|done..]. }
  pose proof Hh as [[[Hs Hl] Hop] Hhead]. rewrite (Hop Ha) in Hp. injection Hp as <-.
  rewrite (visible_pending _ _ _ (Hop Ha)) in He. simpl in He.
  pose proof (next_entry_seq w1 entry head now Hi (Hhead Ha) Hsize) as Hseq.
  destruct He as [(name & Hv & -> & ->)|(row & Hrow & _ & _ & -> & Hr)].
  - split_and!; [done|apply spares_refl|done|done|]. intros [= ->].
    destruct Hv as [[_ [r Hr]]|[? _]]; [|done].
    unfold row_key, e in Hr. simpl in Hr. rewrite Hseq in Hr.
    replace (community_id (next_entry entry head now)) with c in Hr by (by destruct head as [[]|]).
    by rewrite (next_seq_free _ _ _ _ (Hhead Ha)) in Hr.
  - split_and!; [done| |done|].
    + apply spares_open. intros s' Hne. by rewrite lookup_insert_ne.
    + destruct Hr as [->|[what ->]]; [|done]. exists row.
      split_and!; [done|exact (next_entry_row w1 entry head now h row Hi (Hhead Ha) Hsize Hfloats Hkeys Hc Hrow)|done|].
      split; [split; [done|]|done]. intros _. simpl. by rewrite lookup_insert_eq.
Qed.

Lemma commit_effect head now h w1 w2 r :
  audit_inv w1 -> inserted head now h w1 -> pg_effect _ (Commit s) w1 w2 r ->
  audit_inv w2 /\ spares s w1 w2 /\ s ∈ w_busy w2 /\
  match r with
  | Ok _ => s ∈ w_busy w2 /\ log_result entry (Ok (e head now h)) w2
  | Err e => s ∈ w_busy w2 /\ e <> UniqueViolation PKEY
  end.
Proof.
  intros Hi (row & Hrow & Hnext & Hseq & [[[Hs Hl] Hop] Hhead]) [[[what ->] Hw]|(Ha & _ & -> & Hr)].
  { assert (spares s w1 w2) as Hsp.
    { destruct Hw as [->| ->]; [apply spares_refl|]. apply spares_open. intros s' Hne. by rewrite lookup_delete_ne. }
    by destruct Hw as [->| ->]; split_and!. }
  rewrite (visible_pending _ _ _ (Hop Ha)). cbn [foldl].
  destruct (next_row_ok w1 c head row Hi (Hhead Ha) Hnext) as [Hsub Hinv].
  split_and!; [exact Hinv| |done|].
  - split; [done|]. intros s' Hs' Hne. split; simpl; try done.
    + intros _. by rewrite lookup_delete_ne.
    + intros c' n _ Hl'. apply lookup_insert_ne. rewrite (next_row_key _ _ _ Hnext). intros [= <- _].
      rewrite (Hl Ha) in Hl'. by injection Hl'.
  - destruct Hr as [->|[what ->]]; [|done]. split; [done|]. unfold log_result, appended, e.
    split_and!; try by destruct head as [[]|]. exists row. split; [done|]. cbn [set_open set_rows w_rows].
    unfold e in Hseq. rewrite Hseq, (next_row_key _ _ _ Hnext). by rewrite lookup_insert_eq.
Qed.

Lemma compute_hash_never_fails f : exists h, compute_hash f = Ok h.
Proof. destruct (compute_hash_ok f) as (input & _ & ->). eauto. Qed.

Lemma headed_busy head pending w : headed s c pending head w -> s ∈ w_busy w.
Proof. by intros [[[Hs _] _] _]. Qed.

Lemma stable_inserted head now h : stable s (inserted head now h).
Proof.
  intros w w' Hr (r & ? & ? & ? & Hh). exists r. split_and!; [done..|]. by eapply stable_headed.
Qed.

Definition query_error (e : SqlxError) (w : PgWorld) : Prop := s ∈ w_busy w /\ e <> UniqueViolation PKEY.
Definition committed (r : Result AuditEntry AuditError) (w : PgWorld) : Prop :=
  s ∈ w_busy w /\ log_result entry r w.

Lemma held_error err w : query_error err w -> held s entry (Some s) (Err (Database err)) w.
Proof. by intros [Hs He]. Qed.

(** From the open transaction on: the entry is committed, or the database failed. *)
Lemma owp_append_entry w :
  opened s c [] w -> audit_inv w -> aowp (Some s) (append_entry s entry) w (held s entry).
Proof.
  intros Hw Hi. unfold append_entry.
  apply (owp_query_ok s _ (opened s c []) (headed s c []) query_error);
    [apply stable_opened|by intros w0 [[Hs _] _]|intros head; apply stable_headed|apply stable_error
    |apply select_head_effect|exact Hw|exact Hi|apply held_error|].
  intros head w1 Hi1 Hh1. unfold log_timestamp.
  eapply aowp_seq with (P := fun h (now : DateTime) w => h = Some s /\ headed s c [] head w); [|exact Hi1|].
  { eapply aowp_seq; [|exact Hi1|].
    - apply (owp_session_call s UtcNow w1 (headed s c [] head) (fun _ => headed s c [] head));
        [apply stable_headed|apply headed_busy|intros _; apply stable_headed|exact Hh1|].
      intros w2 w3 r Hi2 Hh2 ->. split_and!; [done|apply spares_refl|by eapply headed_busy|done].
    - intros h r w2 Hi2 [-> Hh2]. by apply (owp_ret s _ w2 (headed s c [] head)); [apply stable_headed|..]. }
  intros h now w2 Hi2 [-> Hh2]. cbv zeta.
  destruct (compute_hash_never_fails (next_entry entry head now)) as [hash Hhash]. rewrite Hhash.
  apply (owp_query_ok s _ (headed s c [] head) (fun _ => inserted head now hash) query_error);
    [apply stable_headed|apply headed_busy|intros _; apply stable_inserted|apply stable_error
    |intros w3 w4 r; by apply insert_effect|exact Hh2|exact Hi2|apply held_error|].
  intros _ w3 Hi3 Hins.
  apply (owp_query_ok s _ (inserted head now hash) (fun _ => committed (Ok (e head now hash))) query_error);
    [apply stable_inserted|by intros w4 (r & _ & _ & _ & Hh%headed_busy)|intros _; apply stable_log_result|apply stable_error
    |apply commit_effect|exact Hins|exact Hi3|apply held_error|].
  intros _ w4 Hi4 Hres. by apply (owp_ret s _ w4 (committed (Ok (e head now hash)))); [apply stable_log_result|..].
Qed.

(** A call of the session that only cleans up. *)
Lemma owp_cleanup {X} (r : Result AuditEntry AuditError) (cleanup : AuditCall X) w :
  committed r w -> audit_inv w ->
  (forall w1 w2 u, pg_effect _ cleanup w1 w2 u ->
     w_rows w2 = w_rows w1 /\ w_busy w2 = w_busy w1 /\ spares s w1 w2) ->
  aowp (Some s) (let! _ := call cleanup in Ret r) w (held s entry).
Proof.
  intros Hw Hi Hc. eapply aowp_seq; [|exact Hi|].
  - apply (owp_session_call s cleanup w (committed r) (fun _ => committed r));
      [apply stable_log_result|by intros w0 [Hs _]|intros _; apply stable_log_result|exact Hw|].
    intros w1 w2 u Hi1 [Hs Hr] He. destruct (Hc w1 w2 u He) as (Erows & Ebusy & Hsp).
    unfold audit_inv, committed, log_result, appended in *. rewrite Erows, Ebusy. by split_and!.
  - intros h u w1 Hi1 [-> Hr]. by apply (owp_ret s _ w1 (committed r)); [apply stable_log_result|..].
Qed.

Lemma begin_effect w1 w2 r :
  audit_inv w1 -> locked s c w1 -> pg_effect _ (Begin s) w1 w2 r ->
  audit_inv w2 /\ spares s w1 w2 /\ s ∈ w_busy w2 /\ answered (fun _ => opened s c []) query_error r w2.
Proof.
  intros Hi Hl [[[what ->] ->]|(Ha & -> & Hr)]; pose proof Hl as [Hs _].
  - by split_and!; [|apply spares_refl|..].
  - split_and!; [done|apply spares_open; intros s' Hne; by rewrite lookup_insert_ne|done|].
    destruct Hr as [->|[what ->]]; [|done]. split; [done|]. intros _. simpl. by rewrite lookup_insert_eq.
Qed.

Lemma owp_log_inner w : locked s c w -> audit_inv w -> aowp (Some s) (log_inner s entry) w (held s entry).
Proof.
  intros Hw Hi. unfold log_inner.
  apply (owp_query_ok s _ (locked s c) (fun _ => opened s c []) query_error);
    [apply stable_locked|by intros w0 [Hs _]|intros _; apply stable_opened|apply stable_error
    |apply begin_effect|exact Hw|exact Hi|apply held_error|].
  intros _ w1 Hi1 Ho. eapply aowp_seq; [by apply owp_append_entry|exact Hi1|].
  intros h r w2 Hi2 [-> Hr]. destruct r as [en|err].
  - by apply (owp_ret s _ w2 (committed (Ok en))); [apply stable_log_result|..].
  - apply owp_cleanup; [exact Hr|exact Hi2|]. intros w3 w4 u [->| ->]; [by split_and!; [..|apply spares_refl]|].
    split_and!; [done..|]. apply spares_open. intros s' Hne. by rewrite lookup_delete_ne.
Qed.

Lemma lock_effect w1 w2 r :
  audit_inv w1 -> s ∈ w_busy w1 -> pg_effect _ (AdvisoryLock s (lock_key c)) w1 w2 r ->
  audit_inv w2 /\ spares s w1 w2 /\ s ∈ w_busy w2 /\ answered (fun _ => locked s c) query_error r w2.
Proof.
  intros Hi Hs [[[what ->] ->]|(Ha & Hfree & -> & Hr)].
  - by split_and!; [|apply spares_refl|..].
  - split_and!; [done| |done|].
    + apply spares_locks. intros k s' Hne. rewrite lookup_insert. case_decide as E; [|done]. subst k.
      split; [intros Hk; by apply Hfree in Hk|by intros [= ->]].
    + destruct Hr as [->|[what ->]]; [|done]. split; [done|]. intros _. simpl. apply lookup_insert_eq.
Qed.

Lemma unlock_effect w1 w2 r :
  pg_effect _ (AdvisoryUnlock s (lock_key c)) w1 w2 r ->
  w_rows w2 = w_rows w1 /\ w_busy w2 = w_busy w1 /\ spares s w1 w2.
Proof.
  intros [->|(Hs & ->)]; [by split_and!; [..|apply spares_refl]|]. split_and!; [done..|].
  apply spares_locks. intros k s' Hne. rewrite lookup_delete. case_decide as E; [|done]. subst k.
  rewrite Hs. split; [by intros [= ->]|done].
Qed.

(** The session goes back. *)
Lemma owp_release r w :
  committed r w -> audit_inv w -> aowp (Some s) (let! _ := call (Release s) in Ret r) w (fun _ => log_result entry).
Proof.
  intros Hw Hi w1 w2 u Hr Hi1 [dead He]. simpl in He. set (w0 := foldr kill w1 dead) in *. subst w2.
  assert (committed r w0) as [Hs Hres].
  { eapply stable_log_result, Hw. etrans; [exact Hr|apply kill_all_rely]. }
  split; [exact (kill_all_inv dead w1 Hi1)|]. split.
  - intros h' Ho. etrans; [apply (kill_all_rely dead)|]. split; [done|]. intros k -> Hk.
    destruct (Ho k eq_refl) as [_ Hne]. split; simpl; try done. apply elem_of_difference. set_solver.
  - exists None. split; [done|]. intros w3 [Hrows _] _. destruct r as [en|err]; [|done].
    destruct Hres as (? & ? & ? & ? & ? & row & ? & Hrow). unfold log_result, appended. split_and!; [done..|].
    exists row. split; [done|]. eapply lookup_weaken; [exact Hrow|exact Hrows].
Qed.

End append.

Lemma owp_acquire w : audit_inv w ->
  aowp None (query Acquire) w (fun h r w => match r with
    | Ok s => h = Some s /\ s ∈ w_busy w
    | Err e => h = None /\ log_error e
    end).
Proof.
  intros Hi. eapply aowp_seq with (P := fun h r w => match r with
    | Ok s => h = Some s /\ s ∈ w_busy w
    | Err e => h = None /\ e <> UniqueViolation PKEY
    end); [|exact Hi|].
  - intros w1 w2 r Hr Hi1 [dead He]. simpl in He. set (w0 := foldr kill w1 dead) in *.
    assert (w_busy w0 = w_busy w1) as Ebusy by apply kill_all_busy.
    destruct He as [[[what ->] ->]|(s & Hs & -> & ->)].
    + split; [exact (kill_all_inv dead w1 Hi1)|]. split; [intros h' _; apply (kill_all_rely dead)|].
      exists None. split; [done|]. intros w3 _ _. done.
    + split; [exact (kill_all_inv dead w1 Hi1)|]. split.
      * intros h' Ho. etrans; [apply (kill_all_rely dead)|]. split; [done|]. intros k -> Hk.
        fold w0 in Hk |- *. assert (k <> s) by congruence. split; simpl; try done; set_solver.
      * exists (Some s). split.
        -- intros k [= <-]. unfold audit_busy. simpl. rewrite Ebusy in Hs. split; [set_solver|by right].
        -- intros w3 Hw3 _. split; [done|]. eapply stable_busy; [exact Hw3|]. simpl. set_solver.
  - intros h r w1 Hi1 Hr. intros w2 Hw2 _. destruct r as [s|e]; simpl.
    + destruct Hr as [-> Hs]. split; [done|]. by eapply stable_busy.
    + by destruct Hr as [-> He].
Qed.

Lemma owp_log entry w :
  Value.no_floats (ne_detail entry) = true -> Value.distinct_keys (ne_detail entry) -> audit_inv w ->
  aowp None (log entry) w (fun _ => log_result entry).
Proof.
  intros Hf Hd Hi. unfold log, bind_ok. eapply aowp_seq; [by apply owp_acquire|exact Hi|].
  intros h [s|e] w1 Hi1; [|by intros [-> He] w2 _ _]. intros [-> Hs].
  eapply aowp_seq; [|exact Hi1|].
  { apply (owp_query s _ (fun w => s ∈ w_busy w) (fun _ => locked s (ne_community_id entry)) (query_error s));
      [apply stable_busy|done|intros _; apply stable_locked|apply stable_error|apply lock_effect|exact Hs|exact Hi1]. }
  intros h r w2 Hi2 (-> & r0 & -> & Hr).
  eapply aowp_seq with (P := held s entry); [|exact Hi2|].
  - destruct r0 as [u|err]; cbn [map_err answered] in Hr |- *.
    + eapply aowp_seq; [by apply owp_log_inner|exact Hi2|]. intros h r w3 Hi3 [-> Hr3].
      apply owp_cleanup; [exact Hr3|exact Hi3|]. apply unlock_effect.
    + apply (owp_ret s _ w2 (query_error s err)); [apply stable_error|exact Hr|]. apply held_error.
  - intros h r w3 Hi3 [-> Hr3]. by apply owp_release.
Qed.

(** ** Reading a chain *)

Section selected.
Context (w : PgWorld) (Hi : audit_inv w) (c : Uuid) (lo : Z) (upto : Z -> Prop).
Context (Hupto : forall m n, (m <= n)%Z -> upto n -> upto m).
Context (l : list Row) (Hl : selected (w_rows w) c (fun n => (lo <= n)%Z /\ upto n) l).

Lemma selected_row i r : l !! i = Some r -> row_ok (w_rows w) c (row_seq r) r /\ (lo <= row_seq r)%Z /\ upto (row_seq r).
Proof.
  destruct Hl as [_ Hin]. intros Hr%list_elem_of_lookup_2. apply Hin in Hr as (Hr & Hlo & Hup).
  split; [by apply Hi|done].
Qed.

Lemma selected_lt i j a b : l !! i = Some a -> l !! j = Some b -> (row_seq a < row_seq b)%Z -> i < j.
Proof.
  destruct Hl as [Hs _]. intros Ha Hb Hlt. destruct (decide (i < j)) as [|Hge]; [done|].
  destruct (decide (i = j)) as [->|Hne]; [rewrite Ha in Hb; injection Hb as ->; lia|].
  pose proof (sorted_lookup _ _ j i b a Hs ltac:(lia) Hb Ha). simpl in *. lia.
Qed.

(** A row between the bounds is among them. *)
Lemma selected_find m : (lo <= m)%Z -> upto m -> is_Some (w_rows w !! (c, m)) ->
  exists i r, l !! i = Some r /\ row_seq r = m.
Proof.
  intros Hlo Hup [r Hr]. pose proof (row_ok_key _ _ _ _ (Hi _ _ _ Hr)) as Hk. unfold row_key in Hk.
  injection Hk as _ Hseq. destruct Hl as [_ Hin].
  assert (r ∈ l) as [i Hlk]%list_elem_of_lookup by (apply Hin; by rewrite Hseq). eauto.
Qed.

Lemma selected_adjacent i a b :
  l !! i = Some a -> l !! S i = Some b ->
  row_seq b = (row_seq a + 1)%Z /\ row_prev_hash b = Some (row_hash a).
Proof.
  intros Ha Hb. destruct (selected_row i a Ha) as (Hoka & Hloa & Hupa), (selected_row (S i) b Hb) as (Hokb & Hlob & Hupb).
  destruct Hl as [Hs _]. pose proof (sorted_lookup _ _ i (S i) a b Hs ltac:(lia) Ha Hb) as Hlt. simpl in Hlt.
  pose proof (row_ok_pos _ _ _ _ Hoka). destruct Hokb as [Hkb Hpb _ Hprev]. rewrite decide_False in Hprev by lia.
  destruct Hprev as (p & Hp & Hprev).
  destruct (selected_find (row_seq b - 1)) as (j & x & Hx & Hseq);
    [lia|eapply Hupto; [|exact Hupb]; lia|by exists p|].
  assert (j < S i) by (eapply selected_lt; [exact Hx|exact Hb|lia]).
  assert (j = i) as ->.
  { destruct (decide (j = i)); [done|]. pose proof (sorted_lookup _ _ j i x a Hs ltac:(lia) Hx Ha). simpl in *. lia. }
  rewrite Ha in Hx. injection Hx as <-. split; [lia|]. rewrite Hprev. f_equal.
  destruct (selected_row i a Ha) as (_ & _ & _). destruct Hl as [_ Hin].
  apply list_elem_of_lookup_2, Hin in Ha as [Ha _]. rewrite Hseq, Hp in Ha. by injection Ha as ->.
Qed.

Lemma selected_seq i r : l !! i = Some r -> row_seq r = (Z.max lo 1 + Z.of_nat i)%Z.
Proof.
  revert r. induction i as [|i IH]; intros r Hr.
  - destruct (selected_row 0 r Hr) as (Hok & Hlo & Hup). pose proof (row_ok_pos _ _ _ _ Hok).
    destruct Hl as [Hs Hin]. pose proof Hr as Hr'. apply list_elem_of_lookup_2, Hin in Hr' as [Hr' _].
    destruct (selected_find (Z.max lo 1)) as (j & x & Hx & Hseq);
      [lia|eapply Hupto; [|exact Hup]; lia|eapply chain_down; [done|exact Hr'|lia]|].
    destruct j as [|j]; [rewrite Hr in Hx; injection Hx as ->; lia|].
    pose proof (sorted_lookup _ _ 0 (S j) r x Hs ltac:(lia) Hr Hx). simpl in *. lia.
  - destruct (lookup_lt_is_Some_2 l i) as [a Ha]; [apply lookup_lt_Some in Hr; lia|].
    destruct (selected_adjacent i a r Ha Hr) as [-> _]. rewrite (IH a Ha). lia.
Qed.

Lemma chained_adjacent prev rows :
  (forall r, rows !! 0 = Some r -> follows prev r) ->
  (forall i a b, rows !! i = Some a -> rows !! S i = Some b -> row_prev_hash b = Some (row_hash a)) ->
  chained prev rows.
Proof.
  revert prev. induction rows as [|r rows IH]; intros prev Hf Hadj; simpl; [done|]. split; [by apply Hf|].
  apply IH; [|intros i; apply (Hadj (S i))]. intros r' Hr'. simpl. by apply (Hadj 0 r r').
Qed.

(** What is read from a chain verifies. *)
Lemma selected_verifies : verify_rows l = Ok (bool_decide (l <> [])).
Proof.
  destruct (decide (l = [])) as [->|Hne]; [done|]. rewrite bool_decide_true by done.
  apply verify_rows_true. split_and!; [done|..].
  - apply Forall_lookup. intros i r Hr. destruct (selected_row i r Hr) as (Hok & _). by eapply row_ok_valid.
  - apply chained_adjacent; [done|]. intros i a b Ha Hb. by destruct (selected_adjacent i a b Ha Hb).
Qed.
End selected.

End audit.
