(* ===== verification/AuditHistory.v ===== *)
(** * The chains of a relay, and tampering with them

    Any number of appends, verifications and reads over [AuditDb]: every community has one
    unbroken chain, which only grows and always verifies; and a table that was tampered with
    afterwards cannot both verify and end in the hash the chain had, but for the loss of its
    oldest rows. *)

From S2P Require Import Prelude Text Nostr Json Concurrent AuditLog AuditHash AuditChain AuditDb AuditProps.

(** ** The tasks of the relays *)

Section tasks.
Context `{NostrApi} `{SerdeNumber} `{!SerdeJson} `{!SerdeJsonLaws} `{AuditApi} `{!AuditLaws}.
Context `{UuidBytes} `{!UuidBytesLaws} `{!Postgres} `{!PostgresLaws}.

(** The detail of an entry is a map of integers, strings and the like, as every caller builds
    it. *)
Inductive AuditTask :=
| LogTask (entry : NewAuditEntry) (Hfloats : Value.no_floats (ne_detail entry) = true)
    (Hkeys : Value.distinct_keys (ne_detail entry))
| VerifyTask (c : CommunityId) (from_seq to_seq : Z)
| GetTask (c : CommunityId) (from_seq limit : Z).

Definition audit_answer (t : AuditTask) : Type :=
  match t with
  | LogTask _ _ _ => Result AuditEntry AuditError
  | VerifyTask _ _ _ => Result bool AuditError
  | GetTask _ _ _ => Result (list AuditEntry) AuditError
  end.

Definition audit_program (t : AuditTask) : AuditProg (audit_answer t) :=
  match t with
  | LogTask entry _ _ => log entry
  | VerifyTask c from_seq to_seq => verify_chain c from_seq to_seq
  | GetTask c from_seq limit => get_entries c from_seq limit
  end.

Definition db_failure (e : AuditError) : Prop := exists what, e = Database (SqlxFailure what).

(** A chain that verifies: its range was not empty. *)
Definition verify_result (c : CommunityId) (lo hi : Z) (r : Result bool AuditError) (w : PgWorld) : Prop :=
  match r with
  | Ok b => b = true -> exists n, (lo <= n <= hi)%Z /\ is_Some (w_rows w !! (c, n))
  | Err e => db_failure e
  end.

(** Entries in order and without gaps, from the first one at or after [from_seq]. *)
Definition get_result (c : CommunityId) (lo limit : Z) (r : Result (list AuditEntry) AuditError) (w : PgWorld) : Prop :=
  match r with
  | Ok es => length es <= Z.to_nat limit /\
      forall i e, es !! i = Some e -> seq e = (Z.max lo 1 + Z.of_nat i)%Z /\
        exists r, w_rows w !! (c, seq e) = Some r /\ row_to_audit_entry r = Ok e
  | Err e => db_failure e
  end.

Definition audit_spec (t : AuditTask) : audit_answer t -> PgWorld -> Prop :=
  match t return audit_answer t -> PgWorld -> Prop with
  | LogTask entry _ _ => log_result entry
  | VerifyTask c lo hi => verify_result c lo hi
  | GetTask c lo limit => get_result c lo limit
  end.

Notation aowp := (owp pg_answer audit_inv audit_busy audit_rely).
Notation aowp_seq := (owp_seq pg_answer audit_inv audit_busy audit_rely).

(** A statement that only reads, of a task without a session. *)
Lemma owp_read {A} (c : AuditCall (Result A SqlxError)) (Q : A -> PgWorld -> Prop) w :
  audit_inv w ->
  (forall w1 w2 r, pg_effect _ c w1 w2 r -> w2 = w1 /\ (failed r \/ exists a, r = Ok a /\ (audit_inv w1 -> Q a w1))) ->
  (forall a w1 w2, w_rows w1 ⊆ w_rows w2 -> Q a w1 -> Q a w2) ->
  aowp None (query c) w (fun h r w => match r with Ok a => Q a w | Err e => db_failure e end).
Proof.
  intros Hi Hc Hmono.
  eapply aowp_seq with (P := fun h r w => match r with Ok a => Q a w | Err e => exists what, e = SqlxFailure what end);
    [|exact Hi|].
  - intros w1 w2 r Hr Hi1 [dead He]. destruct (Hc _ _ _ He) as [-> Hq].
    split; [exact (kill_all_inv dead w1 Hi1)|]. split; [intros h' _; apply (kill_all_rely dead)|].
    exists None. split; [done|]. intros w3 [Hsub _] _.
    destruct Hq as [[what ->]|(a & -> & Hq)]; [by exists what|].
    eapply Hmono; [exact Hsub|]. apply Hq. exact (kill_all_inv dead w1 Hi1).
  - intros h r w1 Hi1 Hr w2 [Hsub _] _. destruct r as [a|e]; simpl; [by eapply Hmono|].
    destruct Hr as [what ->]. by exists what.
Qed.

Lemma get_result_mono c lo limit r w1 w2 :
  w_rows w1 ⊆ w_rows w2 -> get_result c lo limit r w1 -> get_result c lo limit r w2.
Proof.
  intros Hsub. destruct r as [es|e]; [|done]. intros [Hlen Hes]. split; [done|].
  intros i e He. destruct (Hes i e He) as (Hseq & r & Hr & Hre). split; [done|]. exists r.
  split; [by eapply lookup_weaken|done].
Qed.

Lemma selected_get w c lo limit l :
  audit_inv w -> selected (w_rows w) c (fun n => lo <= n)%Z l ->
  get_result c lo limit (collect (row_to_audit_entry <$> take (Z.to_nat limit) l)) w.
Proof.
  intros Hi [Hs Hin].
  assert (selected (w_rows w) c (fun n => (lo <= n)%Z /\ True) l) as Hl by (split; [done|]; intros r; rewrite Hin; naive_solver).
  destruct (collected_ok row_to_audit_entry (take (Z.to_nat limit) l)) as [es Hes].
  { intros r (i & Hr%list_elem_of_lookup_2 & _)%elem_of_take. apply Hin in Hr as [Hr _]. destruct (row_ok_valid _ _ _ _ (Hi _ _ _ Hr)) as (e & _ & He & _).
    eauto. }
  rewrite (proj2 (collect_ok _ es) Hes). split.
  - apply (f_equal length) in Hes. rewrite !length_fmap, length_take in Hes. lia.
  - intros i e He. apply (f_equal (lookup i)) in Hes. rewrite !list_lookup_fmap, He in Hes. simpl in Hes.
    destruct (take (Z.to_nat limit) l !! i) as [r|] eqn:Hr; [|done]. injection Hes as Hre.
    rewrite lookup_take_Some in Hr. destruct Hr as [Hr _].
    pose proof (selected_seq w Hi c lo (fun _ => True) (fun _ _ _ Hn => Hn) l Hl i r Hr) as Hseq.
    pose proof Hre as (_ & _ & Heq & _)%row_to_audit_entry_ok.
    split; [by rewrite Heq|]. exists r. split; [|done]. rewrite Heq. by apply list_elem_of_lookup_2, Hin in Hr as [Hr _].
Qed.

Lemma audit_program_ok t w : audit_inv w -> aowp None (audit_program t) w (fun _ => audit_spec t).
Proof.
  intros Hi. destruct t as [entry Hf Hd|c lo hi|c lo limit]; cbn [audit_program audit_answer audit_spec].
  - by apply owp_log.
  - unfold verify_chain, bind_ok. eapply aowp_seq; [|exact Hi|].
    + apply (owp_read _ (fun rows w => verify_rows rows = Ok true /\ (exists n, (lo <= n <= hi)%Z /\ is_Some (w_rows w !! (c, n)))
        \/ verify_rows rows = Ok false)); [done| |].
      * intros w1 w2 r [-> [He|(l & -> & Hl)]]; (split; [done|]); [by left|]. right. exists l. split; [done|].
        intros Hi1. pose proof (selected_verifies w1 Hi1 c lo (fun n => (n <= hi)%Z) (fun m n => Z.le_trans m n hi) l Hl) as Hv.
        rewrite Hv. destruct l as [|r l]; [by right|]. left. split; [done|]. exists (row_seq r).
        destruct Hl as [_ Hin]. destruct (proj1 (Hin r) ltac:(set_solver)) as [Hr Hb]. split; [exact Hb|by exists r].
      * intros rows w1 w2 Hsub [[Hv (n & Hn & r & Hr)]|Hv]; [left|by right]. split; [done|]. exists n.
        split; [done|]. exists r. by eapply lookup_weaken.
    + intros h [rows|e] w1 Hi1 Hr w2 [Hsub _] _; [|done]. simpl.
      destruct Hr as [[-> (n & Hn & r & Hr)]| ->]; [|done]. intros _. exists n. split; [done|]. exists r.
      by eapply lookup_weaken.
  - unfold get_entries, bind_ok. eapply aowp_seq; [|exact Hi|].
    + apply (owp_read _ (fun (rows : list Row) w => get_result c lo limit (collect (row_to_audit_entry <$> rows)) w)); [done| |].
      * intros w1 w2 r [-> [He|(l & -> & Hl)]]; (split; [done|]); [by left|]. right.
        exists (take (Z.to_nat limit) l). split; [done|]. intros Hi1. by apply selected_get.
      * intros rows w1 w2 Hsub. by apply get_result_mono.
    + intros h [rows|e] w1 Hi1 Hr w2 [Hsub _] _; [|done]. by eapply get_result_mono.
Qed.

(** ** The chain of a community *)

(** The rows of a community, from its first on: each valid, and naming the hash of the one
    before it. *)
Record is_chain (w : PgWorld) (c : Uuid) (l : list Row) : Prop := {
  chain_rows n r : w_rows w !! (c, n) = Some r <-> exists i, n = (Z.of_nat i + 1)%Z /\ l !! i = Some r;
  chain_valid : Forall row_valid l;
  chain_links i r : l !! i = Some r -> row_prev_hash r = match i with 0 => None | S j => row_hash <$> l !! j end;
}.

Lemma chain_prefix w c k :
  (forall m, (1 <= m <= Z.of_nat k)%Z -> is_Some (w_rows w !! (c, m))) ->
  exists l, length l = k /\ forall i r, l !! i = Some r -> w_rows w !! (c, Z.of_nat i + 1)%Z = Some r.
Proof.
  induction k as [|k IH]; intros Hall; [by exists []|].
  destruct IH as (l & Hlen & Hl); [intros m Hm; apply Hall; lia|].
  destruct (Hall (Z.of_nat k + 1)%Z ltac:(lia)) as [r Hr]. exists (l ++ [r]).
  split; [rewrite length_app; simpl; lia|]. intros i r' [Hi|[Hi Hr']]%lookup_app_Some; [by apply Hl|].
  apply list_lookup_singleton_Some in Hr' as [Hz <-]. by replace (Z.of_nat i) with (Z.of_nat k) by lia.
Qed.

(** The greatest number in use, or 0. *)
Lemma chain_top (rows : gmap (Uuid * Z) Row) c :
  exists k, (0 <= k)%Z /\ (k = 0%Z \/ is_Some (rows !! (c, k))) /\ forall n r, rows !! (c, n) = Some r -> (n <= k)%Z.
Proof.
  induction rows as [|[c' n'] r' rows Hfresh IH] using map_ind; [by exists 0%Z; split_and!; [lia|left|]|].
  destruct IH as (k & Hk0 & Hk & Hmax). destruct (decide (c' = c /\ (k < n')%Z)) as [[-> Hlt]|Hno].
  - exists n'. split_and!; [lia|right; by rewrite lookup_insert_eq|]. intros n r. rewrite lookup_insert.
    case_decide as E; [injection E as ->; lia|]. intros Hr. pose proof (Hmax n r Hr). lia.
  - exists k. split_and!; [done| |].
    + destruct Hk as [->|Hk]; [by left|right]. rewrite lookup_insert. by case_decide.
    + intros n r. rewrite lookup_insert. case_decide as E; [|apply Hmax]. injection E as -> ->.
      intros _. destruct (decide (k < n)%Z); [by destruct Hno|lia].
Qed.

Lemma chain_exists w c : audit_inv w -> exists l, is_chain w c l.
Proof.
  intros Hi. destruct (chain_top (w_rows w) c) as (k & Hk0 & Hk & Hmax).
  assert (forall m, (1 <= m <= k)%Z -> is_Some (w_rows w !! (c, m))) as Hall.
  { intros m Hm. destruct Hk as [->|[r Hr]]; [lia|]. by eapply chain_down. }
  destruct (chain_prefix w c (Z.to_nat k)) as (l & Hlen & Hl); [intros m Hm; apply Hall; lia|].
  assert (forall n r, w_rows w !! (c, n) = Some r -> l !! Z.to_nat (n - 1) = Some r) as Hback.
  { intros n r Hr. pose proof (Hmax n r Hr). pose proof (row_ok_pos _ _ _ _ (Hi _ _ _ Hr)).
    destruct (lookup_lt_is_Some_2 l (Z.to_nat (n - 1)) ltac:(lia)) as [r' Hr'].
    pose proof (Hl _ _ Hr') as Hr''. replace (Z.of_nat (Z.to_nat (n - 1)) + 1)%Z with n in Hr'' by lia. congruence. }
  exists l. split.
  - intros n r. split.
    + intros Hr. pose proof (row_ok_pos _ _ _ _ (Hi _ _ _ Hr)). exists (Z.to_nat (n - 1)). split; [lia|auto].
    + intros (i & -> & Hr). auto.
  - apply Forall_lookup. intros i r Hr%Hl. by eapply row_ok_valid, Hi.
  - intros i r Hr. pose proof (row_ok_prev _ _ _ _ (Hi _ _ _ (Hl _ _ Hr))) as Hp. destruct i as [|j].
    + rewrite decide_True in Hp; done.
    + rewrite decide_False in Hp by lia. destruct Hp as (p & Hp & ->).
      rewrite (Hback _ _ Hp) || (apply Hback in Hp; replace (Z.to_nat _) with j in Hp by lia; by rewrite Hp).
Qed.

Lemma chain_grows w w' c l l' :
  w_rows w ⊆ w_rows w' -> is_chain w c l -> is_chain w' c l' -> l `prefix_of` l'.
Proof.
  intros Hsub Hc Hc'.
  assert (forall i r, l !! i = Some r -> l' !! i = Some r) as Hl.
  { intros i r Hr. assert (w_rows w !! (c, Z.of_nat i + 1)%Z = Some r) as Hlk by (apply (chain_rows _ _ _ Hc); eauto).
    apply (lookup_weaken _ _ _ _ Hlk), (chain_rows _ _ _ Hc') in Hsub as (j & Hj & Hr').
    by replace i with j by lia. }
  exists (drop (length l) l'). rewrite <-(take_drop (length l) l') at 1. f_equal. apply list_eq. intros i.
  destruct (l !! i) as [r|] eqn:Hr.
  - rewrite lookup_take_lt by by eapply lookup_lt_Some. auto.
  - apply lookup_ge_None in Hr. by rewrite lookup_take_ge.
Qed.

(** The database and the tasks of all relays, at any time. *)
Definition audit_step := pool_step pg_answer audit_program.

Lemma no_audit_inv : audit_inv empty_world.
Proof. intros c n r. cbn [empty_world w_rows]. by rewrite lookup_empty. Qed.

Lemma audit_reachable w ts w' ts' :
  rtc audit_step (empty_world, []) (w, ts) -> rtc audit_step (w, ts) (w', ts') ->
  audit_inv w /\ audit_inv w' /\ w_rows w ⊆ w_rows w' /\
  forall t a, thread (A := audit_answer) t (Ret a) ∈ ts -> audit_spec t a w.
Proof.
  intros Hrun Hlater.
  pose proof (owned_start pg_answer audit_inv audit_busy audit_rely (fun t _ => audit_spec t) empty_world no_audit_inv) as Hstart.
  destruct (owned_steps pg_answer audit_inv audit_busy audit_rely audit_program (fun t _ => audit_spec t) audit_rely_busy
    audit_program_ok _ _ _ Hrun Hstart) as [_ [hs Hok]].
  destruct (owned_steps pg_answer audit_inv audit_busy audit_rely audit_program (fun t _ => audit_spec t) audit_rely_busy
    audit_program_ok _ _ _ Hlater Hok) as [[Hsub _] [hs' Hok']].
  split_and!; [apply Hok|apply Hok'|exact Hsub|].
  intros t a Hin. by destruct (owned_result pg_answer audit_inv audit_busy audit_rely (fun t _ => audit_spec t) _ _ _ _ _ Hok Hin).
Qed.

(** C7: however appends, verifications and reads on any relays interleave at their
    statements, whichever statements fail and whichever sessions die, the rows of a community
    are one chain, numbered from 1 without gaps, each with the hash of its content and of the
    row before it; the chain only grows.  Verifying any range of it answers whether the range
    is empty, and never an error.  An append that answered an entry has stored it in the chain
    as it was given; one that failed did not lose the race for its number.  A verification
    never reports tampering, and a read returns the entries in order without gaps. *)
Theorem audit_chain_integrity w ts w' ts' c :
  rtc audit_step (empty_world, []) (w, ts) -> rtc audit_step (w, ts) (w', ts') ->
  (exists l l', is_chain w c l /\ is_chain w' c l' /\ l `prefix_of` l') /\
  (forall lo hi rows, selected (w_rows w) c (fun n => lo <= n <= hi)%Z rows ->
     verify_rows rows = Ok (bool_decide (rows <> []))) /\
  (forall entry Hf Hk r, thread (A := audit_answer) (LogTask entry Hf Hk) (Ret r) ∈ ts ->
     match r with
     | Ok e => community_id e = ne_community_id entry /\ action e = ne_action entry /\
         actor_pubkey e = ne_actor_pubkey entry /\ object_id e = ne_object_id entry /\ detail e = ne_detail entry /\
         exists row, pg_row (entry_row e) = Some row /\ w_rows w !! (ne_community_id entry, seq e) = Some row
     | Err e => exists what, e = Database what /\ what <> UniqueViolation PKEY
     end) /\
  (forall lo hi r, thread (A := audit_answer) (VerifyTask c lo hi) (Ret r) ∈ ts -> verify_result c lo hi r w) /\
  forall lo limit r, thread (A := audit_answer) (GetTask c lo limit) (Ret r) ∈ ts -> get_result c lo limit r w.
Proof.
  intros Hrun Hlater. destruct (audit_reachable w ts w' ts' Hrun Hlater) as (Hi & Hi' & Hsub & Hres).
  split_and!.
  - destruct (chain_exists w c Hi) as [l Hl], (chain_exists w' c Hi') as [l' Hl'].
    exists l, l'. split_and!; [done..|by eapply chain_grows].
  - intros lo hi rows Hrows. exact (selected_verifies w Hi c lo (fun n => (n <= hi)%Z) (fun m n => Z.le_trans m n hi) rows Hrows).
  - intros entry Hf Hk r Hin. pose proof (Hres _ _ Hin) as Hr. simpl in Hr. destruct r as [e|e]; [exact Hr|].
    destruct e as [e|n|n| |e]; try done. by exists e.
  - intros lo hi r Hin. exact (Hres _ _ Hin).
  - intros lo limit r Hin. exact (Hres _ _ Hin).
Qed.

(** ** Tampering *)

(** C16: take the rows a relay holds of a range of a community's chain, and the rows [after] that
    the same query returns from a table changed in any way.  If those verify, and their last
    row has the hash the chain had there, then they are the chain's rows but for missing
    oldest ones: each has its row's hash, number, time and action and hashes the same bytes,
    and is the same entry where its columns are well formed; given that no two different
    inputs among these rows have one SHA-256. *)
Theorem audit_tamper_evident w ts c lo hi before tampered after :
  rtc audit_step (empty_world, []) (w, ts) -> (1 <= lo)%Z ->
  selected (w_rows w) c (fun n => lo <= n <= hi)%Z before ->
  selected tampered c (fun n => lo <= n <= hi)%Z after ->
  Forall (fun r => is_i64 (row_seq r)) (before ++ after) -> no_collision (before ++ after) ->
  verify_rows after = Ok true -> row_hash <$> last before = row_hash <$> last after ->
  exists missing kept, before = missing ++ kept /\ Forall2 row_agrees kept after.
Proof.
  intros Hrun Hlo Hb Ha Hi64 Hnc Hv Hlast.
  destruct (audit_reachable w ts w ts Hrun (rtc_refl _ _)) as (Hi & _).
  assert (verify_rows before = Ok true) as Hvb.
  { rewrite (selected_verifies w Hi c lo (fun n => (n <= hi)%Z) (fun m n => Z.le_trans m n hi) before Hb).
    rewrite bool_decide_true; [done|]. intros ->. pose proof Hv as [Hne _]%verify_rows_true.
    destruct (last after) eqn:Hla; [done|]. by apply last_None in Hla. }
  pose proof (aligned before after Hvb Hv Hi64 Hnc Hlast) as Hal.
  assert (length after <= length before) as Hlen.
  { destruct (decide (length after <= length before)) as [|Hgt]; [done|exfalso].
    assert (0 < length before) as Hpos.
    { pose proof Hvb as [Hne _]%verify_rows_true. by destruct before; [|simpl; lia]. }
    set (k := length before - 1).
    destruct (lookup_lt_is_Some_2 before 0 Hpos) as [r0 Hr0].
    destruct (lookup_lt_is_Some_2 after (length after - S k) ltac:(lia)) as [b1 Hb1].
    destruct (lookup_lt_is_Some_2 after (length after - S (S k)) ltac:(lia)) as [b2 Hb2].
    destruct (Hal k r0 b1) as (_ & Hseq & _).
    { apply reverse_lookup_Some. split; [by replace (length before - S k) with 0 by lia|lia]. }
    { apply reverse_lookup_Some. split; [done|lia]. }
    pose proof (selected_seq w Hi c lo (fun n => (n <= hi)%Z) (fun m n => Z.le_trans m n hi) before Hb 0 r0 Hr0).
    destruct Ha as [Hs Hin].
    pose proof (sorted_lookup _ _ (length after - S (S k)) (length after - S k) b2 b1 Hs ltac:(lia) Hb2 Hb1) as Hlt.
    apply list_elem_of_lookup_2, Hin in Hb2 as [_ Hb2]. simpl in Hlt. lia. }
  exists (take (length before - length after) before), (drop (length before - length after) before).
  split; [by rewrite take_drop|].
  apply Forall2_same_length_lookup. split; [rewrite length_drop; lia|].
  intros i a b Ha' Hb'. rewrite lookup_drop in Ha'.
  pose proof (lookup_lt_Some _ _ _ Hb') as Hlt. 
  apply (Hal (length after - S i)); apply reverse_lookup_Some; (split; [|lia]).
  - by replace (length before - S (length after - S i)) with (length before - length after + i) by lia.
  - by replace (length after - S (length after - S i)) with i by lia.
Qed.

End tasks.
