(* ===== verification/MeshWire.v ===== *)
(** * The mesh wire contract ([crates/buzz-relay-mesh]: [wire.rs], [lib.rs], [peer.rs])

    The frames relays exchange, their versioned encoding, and the length-delimited framing
    of a bi-directional stream.  Serialization is the interface [Postcard] and the QUIC
    stream below is [Quic]; [StreamSendHalf] and [StreamRecvHalf] are the traits a
    [MeshStream] is made of, which the framing implements.  [FramedStream] is what the
    framing promises to the session layer: frames arrive whole, in order, once. *)

From S2P Require Import Prelude Nostr SessionDirectory.

(** ** Frames *)

Definition WIRE_VERSION : N := 1.

(** 16 MiB *)
Definition MAX_STREAM_FRAME : N := 16 * 1024 * 1024.

Record MeshDatagram := {
  fenced : FencedHeader;
  seq : N;
  payload : Bytes;
}.

Inductive StreamRole :=
| Control
| Session (fenced : FencedHeader) (profile : Profile).

Record StreamHello := {
  sender : RuntimeId;
  hello_role : StreamRole;
}.

Inductive GoodbyeReason :=
| SessionEnded
| Draining
| GoodbyeStaleGeneration.

Inductive MeshStreamFrame :=
| Hello (h : StreamHello)
| Data (fenced : FencedHeader) (payload : Bytes)
| Goodbye (fenced : FencedHeader) (reason : GoodbyeReason)
| Gossip (payload : Bytes).

#[export] Instance FencedHeader_eq_dec : EqDecision FencedHeader.
Proof. solve_decision. Defined.
#[export] Instance Profile_eq_dec : EqDecision Profile.
Proof. solve_decision. Defined.
#[export] Instance GoodbyeReason_eq_dec : EqDecision GoodbyeReason.
Proof. solve_decision. Defined.
#[export] Instance StreamRole_eq_dec : EqDecision StreamRole.
Proof. solve_decision. Defined.
#[export] Instance StreamHello_eq_dec : EqDecision StreamHello.
Proof. solve_decision. Defined.
#[export] Instance MeshStreamFrame_eq_dec : EqDecision MeshStreamFrame.
Proof. solve_decision. Defined.

(** ** Encoding *)

(** [postcard::to_extend] and [postcard::from_bytes] at a type. *)
Class Postcard (T : Type) := {
  to_extend : T -> Bytes -> Result Bytes string;
  from_bytes : Bytes -> Result T string;
}.

(** What is serialized is appended, and read back. *)
Class PostcardLaws (T : Type) `{Postcard T} := {
  to_extend_from_bytes x buf bytes :
    to_extend x buf = Ok bytes -> exists rest, bytes = buf ++ rest /\ from_bytes rest = Ok x;
}.

Definition encode `{Postcard T} (frame : T) : Result Bytes MeshError :=
  map_err Encode (to_extend frame [WIRE_VERSION]).

Definition decode `{Postcard T} (bytes : Bytes) : Result T MeshError :=
  match bytes with
  | v :: rest =>
      if decide (v = WIRE_VERSION) then map_err Decode (from_bytes rest)
      else Err (UnknownWireVersion v)
  | [] => Err EmptyFrame
  end.

Definition encode_datagram_checked `{Postcard MeshDatagram} (dgram : MeshDatagram)
    (max_datagram_size : N) : Result Bytes MeshError :=
  let? bytes := encode dgram in
  let size := N.of_nat (length bytes) in
  if (max_datagram_size <? size)%N then Err (DatagramTooLarge size max_datagram_size)
  else Ok bytes.

(** [len as u32], [u32::to_le_bytes] and [u32::from_le_bytes]. *)
Definition as_u32 (n : N) : N := (n mod 2 ^ 32)%N.

Definition u32_to_le_bytes (n : N) : Bytes :=
  [N.land n 255; N.land (N.shiftr n 8) 255; N.land (N.shiftr n 16) 255; N.land (N.shiftr n 24) 255].

Definition u32_from_le_bytes (bytes : Bytes) : N :=
  foldr (fun b n => N.lor b (N.shiftl n 8)) 0%N bytes.

(** ** Streams *)

Class StreamSendHalf (S : Type) := {
  send_frame : MeshStreamFrame -> S -> S * Result unit MeshError;
  finish : S -> S * Result unit MeshError;
}.

Class StreamRecvHalf (R : Type) := {
  recv_frame : R -> R * Result (option MeshStreamFrame) MeshError;
}.

Record MeshStream (S R : Type) := {
  send : S;
  recv : R;
}.
Arguments send {S R} m.
Arguments recv {S R} m.

Inductive ReadExactError :=
| FinishedEarly (n : nat)
| ReadError (e : string).

(** The halves of a QUIC stream; a read has resolved when it answers. *)
Class Quic := {
  SendStream : Type;
  RecvStream : Type;
  write_all : Bytes -> SendStream -> SendStream * Result unit string;
  quic_finish : SendStream -> SendStream * Result unit string;
  read_exact : nat -> RecvStream -> RecvStream * Result Bytes ReadExactError;
  read_error_text : ReadExactError -> string;
}.

Section framing.
Context `{Quic} `{Postcard MeshStreamFrame}.

Definition iroh_send_frame (frame : MeshStreamFrame) (s : SendStream)
    : SendStream * Result unit MeshError :=
  match encode frame with
  | Err e => (s, Err e)
  | Ok bytes =>
      let size := N.of_nat (length bytes) in
      if (MAX_STREAM_FRAME <? size)%N then (s, Err (FrameTooLarge size MAX_STREAM_FRAME))
      else
        let '(s, r) := write_all (u32_to_le_bytes (as_u32 size)) s in
        match r with
        | Err e => (s, Err (TransportIo e))
        | Ok _ => let '(s, r) := write_all bytes s in (s, map_err TransportIo r)
        end
  end.

Definition iroh_finish (s : SendStream) : SendStream * Result unit MeshError :=
  let '(s, r) := quic_finish s in (s, map_err TransportIo r).

Definition read_error (e : ReadExactError) : MeshError := TransportIo (read_error_text e).

Definition iroh_recv_frame (r : RecvStream)
    : RecvStream * Result (option MeshStreamFrame) MeshError :=
  match read_exact 4 r with
  | (r, Err (FinishedEarly 0)) => (r, Ok None)
  | (r, Err e) => (r, Err (read_error e))
  | (r, Ok len) =>
      let len := u32_from_le_bytes len in
      if (MAX_STREAM_FRAME <? len)%N then (r, Err (FrameTooLarge len MAX_STREAM_FRAME))
      else
        let '(r, bytes) := read_exact (N.to_nat len) r in
        (r, let? bytes := map_err read_error bytes in
            let? frame := decode bytes in Ok (Some frame))
  end.

#[export] Instance IrohSendHalf : StreamSendHalf SendStream :=
  { send_frame := iroh_send_frame; finish := iroh_finish }.
#[export] Instance IrohRecvHalf : StreamRecvHalf RecvStream :=
  { recv_frame := iroh_recv_frame }.
End framing.
