(* ===== verification/MeshWireProps.v ===== *)
(** * Framing is faithful ([MeshWire])

    Frames written to one end of a QUIC stream are read at the other end whole, in order
    and once; a stream that is cut yields a prefix of them.  [FramedStream] states this to
    the session layer, and the framing of [MeshWire] implements it. *)

From S2P Require Import Prelude Nostr SessionDirectory MeshWire.

(** The documented behaviour of a QUIC stream: bytes arrive in order, a failed write may
    have written a part, a read that finds the end too early says how much it found. *)
Class QuicLaws `{Quic} := {
  written : SendStream -> Bytes;
  incoming : RecvStream -> Bytes -> bool -> Prop;
  write_all_ok s b s' : write_all b s = (s', Ok tt) -> written s' = written s ++ b;
  write_all_err s b s' e :
    write_all b s = (s', Err e) -> exists k, written s' = written s ++ take k b;
  quic_finish_ok s : written (quic_finish s).1 = written s;
  read_exact_enough r bs fin n :
    incoming r bs fin -> n <= length bs ->
    exists r', read_exact n r = (r', Ok (take n bs)) /\ incoming r' (drop n bs) fin;
  read_exact_end r bs n :
    incoming r bs true -> length bs < n ->
    exists r', read_exact n r = (r', Err (FinishedEarly (length bs))) /\ incoming r' [] true;
  read_exact_cut r bs n :
    incoming r bs false -> length bs < n ->
    exists r' e, read_exact n r = (r', Err (ReadError e));
}.

(** What the session layer is promised of a send half and a receive half that are
    [connected] after the sender has sent its last frame. *)
Class FramedStream (S R : Type) `{StreamSendHalf S, StreamRecvHalf R} := {
  sent : S -> list MeshStreamFrame -> Prop;
  arrives : R -> list MeshStreamFrame -> Prop;
  connected : S -> R -> Prop;
  connected_arrives s r fs : connected s r -> sent s fs -> arrives r fs;
  send_frame_sent s fs f s' :
    sent s fs -> send_frame f s = (s', Ok tt) -> sent s' (fs ++ [f]);
  finish_sent s fs s' : sent s fs -> finish s = (s', Ok tt) -> sent s' fs;
  recv_frame_next r f fs :
    arrives r (f :: fs) -> exists r', recv_frame r = (r', Ok (Some f)) /\ arrives r' fs;
  recv_frame_end r : arrives r [] -> exists r', recv_frame r = (r', Ok None) /\ arrives r' [];
}.

(** ** Little-endian lengths *)

Lemma le_bytes_round_trip n : (n < 2 ^ 32)%N -> u32_from_le_bytes (u32_to_le_bytes n) = n.
Proof.
  intros Hn. unfold u32_from_le_bytes, u32_to_le_bytes. cbn [foldr].
  apply N.bits_inj. intros i. rewrite N.shiftl_0_l, N.lor_0_r.
  rewrite !N.lor_spec, !N.land_spec. change 255%N with (N.ones 8).
  assert (forall j, (32 <= j)%N -> N.testbit n j = false) as Hhi.
  { intros j Hj. destruct (N.eq_dec n 0) as [->|]; [apply N.bits_0|].
    apply N.bits_above_log2, N.log2_lt_pow2; [lia|].
    eapply N.lt_le_trans; [exact Hn|]. by apply N.pow_le_mono_r. }
  assert (forall (m j : N), N.testbit (N.shiftl m 8) j = (8 <=? j)%N && N.testbit m (j - 8)) as Hl.
  { intros m j. destruct (N.leb_spec 8 j) as [Hj|Hj]; [by apply N.shiftl_spec_high'|].
    by apply N.shiftl_spec_low. }
  assert (forall j, N.testbit (N.ones 8) j = (j <? 8)%N) as Ho.
  { intros j. destruct (N.ltb_spec j 8); [by apply N.ones_spec_low|by apply N.ones_spec_high]. }
  rewrite !Hl, !N.lor_spec, !Hl, !N.lor_spec, !Hl, !N.land_spec, !N.shiftr_spec', !Ho.
  repeat match goal with
  | |- context [(?a <? 8)%N] => destruct (N.ltb_spec a 8)
  | |- context [(8 <=? ?a)%N] => destruct (N.leb_spec 8 a)
  end; rewrite ?andb_true_r, ?andb_false_r, ?orb_false_r; cbn [andb orb]; try lia;
    try (f_equal; lia); try (symmetry; apply Hhi; lia).
Qed.

(** ** Frames on the wire *)

Section framing.
Context `{QuicLaws} `{PostcardLaws MeshStreamFrame}.

Definition framed (f : MeshStreamFrame) (b : Bytes) : Prop :=
  exists bytes, encode f = Ok bytes /\ (N.of_nat (length bytes) <= MAX_STREAM_FRAME)%N /\
    b = u32_to_le_bytes (N.of_nat (length bytes)) ++ bytes.

Fixpoint framed_all (fs : list MeshStreamFrame) (bs : Bytes) : Prop :=
  match fs with
  | [] => bs = []
  | f :: fs => exists b bs', framed f b /\ framed_all fs bs' /\ bs = b ++ bs'
  end.

Lemma framed_all_app fs gs bs cs :
  framed_all fs bs -> framed_all gs cs -> framed_all (fs ++ gs) (bs ++ cs).
Proof.
  revert bs. induction fs as [|f fs IH]; simpl; [by intros bs ->|].
  intros bs (b & bs' & Hb & Hbs & ->) Hgs. exists b, (bs' ++ cs).
  rewrite <-(assoc (++)). auto.
Qed.

Lemma decode_encode f bytes : encode f = Ok bytes -> decode bytes = Ok f.
Proof.
  unfold encode, decode. intros Hb%map_err_ok.
  apply to_extend_from_bytes in Hb as (rest & -> & Hr). simpl. by rewrite Hr.
Qed.

Lemma send_frame_written f s s' r :
  iroh_send_frame f s = (s', r) ->
  match r with
  | Ok _ => exists b, framed f b /\ written s' = written s ++ b
  | Err _ => written s' = written s \/
      exists b k, framed f b /\ written s' = written s ++ take k b
  end.
Proof.
  unfold iroh_send_frame. destruct (encode f) as [bytes|] eqn:He; [|intros; simplify_eq; by left].
  destruct (N.ltb_spec MAX_STREAM_FRAME (N.of_nat (length bytes))) as [|Hm];
    [intros; simplify_eq; by left|].
  unfold as_u32. rewrite N.mod_small by (unfold MAX_STREAM_FRAME in Hm; lia).
  assert (framed f (u32_to_le_bytes (N.of_nat (length bytes)) ++ bytes)) as Hf by (exists bytes; done).
  destruct (write_all _ s) as [s1 [[]|e]] eqn:Hw1.
  - apply write_all_ok in Hw1. destruct (write_all bytes s1) as [s2 r2] eqn:Hw2.
    intros [= <- <-]. destruct r2 as [[]|e]; simpl.
    + apply write_all_ok in Hw2. eexists. split; [exact Hf|]. by rewrite Hw2, Hw1, <-(assoc (++)).
    + apply write_all_err in Hw2 as [k Hw2]. right. eexists _, (4 + k). split; [exact Hf|].
      by rewrite Hw2, Hw1, <-(assoc (++)).
  - intros [= <- <-]. apply write_all_err in Hw1 as [k Hw1]. right. eexists _, (k `min` 4).
    split; [exact Hf|].
    rewrite take_app_le by (cbn [length u32_to_le_bytes]; lia).
    rewrite Hw1. f_equal. destruct (Nat.le_ge_cases k 4);
      [by rewrite Nat.min_l|rewrite Nat.min_r by done; by rewrite !take_ge by (simpl; lia)].
Qed.

Lemma recv_framed f b rest fin r :
  framed f b -> incoming r (b ++ rest) fin ->
  exists r', iroh_recv_frame r = (r', Ok (Some f)) /\ incoming r' rest fin.
Proof.
  intros (bytes & He & Hm & ->) Hr. unfold iroh_recv_frame.
  destruct (read_exact_enough r _ fin 4 Hr) as (r1 & -> & Hr1); [simpl; lia|].
  rewrite <-!app_assoc, take_app_length' by done.
  rewrite <-!app_assoc, drop_app_length' in Hr1 by done.
  rewrite le_bytes_round_trip by (unfold MAX_STREAM_FRAME in Hm; lia).
  rewrite (proj2 (N.ltb_ge _ _)) by done. rewrite Nat2N.id.
  destruct (read_exact_enough r1 _ fin (length bytes) Hr1) as (r2 & -> & Hr2);
    [rewrite length_app; lia|].
  rewrite take_app_length. rewrite drop_app_length in Hr2.
  cbn [map_err result_bind]. rewrite (decode_encode _ _ He). eauto.
Qed.

(** What is read when less than a frame is left. *)
Lemma recv_short f b x fin r :
  framed f b -> x `prefix_of` b -> length x < length b -> incoming r x fin ->
  exists r' res, iroh_recv_frame r = (r', res) /\
    ((res = Ok None /\ fin = true) \/ exists e, res = Err e).
Proof.
  intros (bytes & He & Hm & ->) Hx Hlen Hr. unfold iroh_recv_frame.
  destruct (decide (length x < 4)) as [Hs|Hs].
  - destruct fin.
    + destruct (read_exact_end r x 4 Hr Hs) as (r' & -> & _). destruct (length x); eauto 10.
    + destruct (read_exact_cut r x 4 Hr Hs) as (r' & e & ->). eauto 10.
  - destruct (read_exact_enough r x fin 4 Hr) as (r1 & -> & Hr1); [lia|].
    destruct Hx as [y Hxy]. assert (take 4 x = u32_to_le_bytes (N.of_nat (length bytes))) as ->.
    { rewrite <-(take_app_le x y) by lia. by rewrite <-Hxy, take_app_length'. }
    rewrite le_bytes_round_trip by (unfold MAX_STREAM_FRAME in Hm; lia).
    rewrite (proj2 (N.ltb_ge _ _)) by done. rewrite Nat2N.id.
    assert (length (drop 4 x) < length bytes) as Hd.
    { rewrite length_app in Hlen. cbn [length u32_to_le_bytes] in Hlen. rewrite length_drop. lia. }
    destruct fin.
    + destruct (read_exact_end r1 _ _ Hr1 Hd) as (r' & -> & _). simpl. eauto 10.
    + destruct (read_exact_cut r1 _ _ Hr1 Hd) as (r' & e & ->). simpl. eauto 10.
Qed.

Lemma recv_end r : incoming r [] true -> exists r', iroh_recv_frame r = (r', Ok None) /\ incoming r' [] true.
Proof.
  intros Hr. unfold iroh_recv_frame.
  destruct (read_exact_end r [] 4 Hr) as (r' & -> & Hr'); [simpl; lia|]. eauto.
Qed.

(** The framing keeps the promise of [FramedStream]. *)
#[export] Program Instance iroh_framed : FramedStream SendStream RecvStream := {
  sent s fs := framed_all fs (written s);
  arrives r fs := exists bs, framed_all fs bs /\ incoming r bs true;
  connected s r := incoming r (written s) true;
}.
Next Obligation. intros s r fs Hc Hs. simpl in *. eauto. Qed.
Next Obligation.
  intros s fs f s' Hs Hf. simpl in *. apply send_frame_written in Hf as (b & Hb & ->).
  apply framed_all_app; [done|]. exists b, []. by rewrite app_nil_r.
Qed.
Next Obligation.
  simpl. unfold iroh_finish. intros s fs s' Hs Hf. pose proof (quic_finish_ok s) as Hw.
  destruct (quic_finish s). simplify_eq/=. by rewrite Hw.
Qed.
Next Obligation.
  simpl. intros r f fs (bs & (b & bs' & Hb & Hbs & ->) & Hr).
  destruct (recv_framed _ _ _ _ _ Hb Hr) as (r' & ? & ?). eauto 10.
Qed.
Next Obligation.
  simpl. intros r (bs & -> & Hr). destruct (recv_end r Hr) as (r' & ? & ?). eauto.
Qed.
End framing.

(** ** A stream that may be cut *)

Section cut.
Context `{QuicLaws} `{PostcardLaws MeshStreamFrame}.

(** Send frames until one fails. *)
Fixpoint send_all (fs : list MeshStreamFrame) (s : SendStream) : SendStream * Result unit MeshError :=
  match fs with
  | [] => (s, Ok tt)
  | f :: fs =>
      match send_frame f s with
      | (s, Ok _) => send_all fs s
      | (s, Err e) => (s, Err e)
      end
  end.

(** Receive until the end or an error, at most [fuel] times. *)
Fixpoint recv_all (fuel : nat) (r : RecvStream)
    : list MeshStreamFrame * option (Result unit MeshError) :=
  match fuel with
  | 0 => ([], None)
  | S fuel =>
      match recv_frame r with
      | (r, Ok (Some f)) => let '(fs, e) := recv_all fuel r in (f :: fs, e)
      | (_, Ok None) => ([], Some (Ok tt))
      | (_, Err e) => ([], Some (Err e))
      end
  end.

Lemma send_all_written fs s s' r :
  send_all fs s = (s', r) ->
  exists n bs, framed_all (take n fs) bs /\ written s' `prefix_of` written s ++ bs /\
    (r = Ok tt -> take n fs = fs /\ written s' = written s ++ bs).
Proof.
  revert s. induction fs as [|f fs IH]; simpl; intros s Hs.
  { exists 0, []. rewrite app_nil_r. by simplify_eq. }
  destruct (iroh_send_frame f s) as [s1 r1] eqn:Hf. pose proof (send_frame_written _ _ _ _ Hf) as Hw.
  destruct r1 as [u|e].
  - destruct Hw as (b & Hb & Hw). destruct (IH _ Hs) as (n & bs & Hbs & Hpre & Hok).
    exists (S n), (b ++ bs). rewrite Hw, <-app_assoc in *. split_and!; [simpl; eauto|done|].
    intros Hr. destruct (Hok Hr) as [? ?]. split; [simpl; congruence|done].
  - simplify_eq. destruct Hw as [->|(b & k & Hb & ->)].
    + exists 0, []. rewrite app_nil_r. by split_and!.
    + exists 1, (b ++ []). split_and!; [simpl; eauto 10| |done]. rewrite app_nil_r.
      apply prefix_app, prefix_take.
Qed.

Lemma recv_all_prefix fuel fs bs x fin r :
  length fs < fuel -> framed_all fs bs -> x `prefix_of` bs -> incoming r x fin ->
  exists m e, recv_all fuel r = (take m fs, Some e) /\
    (e = Ok tt -> fin = true) /\ (x = bs -> fin = true -> take m fs = fs /\ e = Ok tt).
Proof.
  revert fuel bs x r. induction fs as [|f fs IH]; intros [|fuel] bs x r Hf Hbs Hx Hr;
    simpl in Hf; [lia| |lia|].
  - simpl in Hbs. subst. apply prefix_nil_inv in Hx as ->. simpl. destruct fin.
    + destruct (recv_end r Hr) as (r' & -> & _). by exists 0, (Ok tt).
    + unfold iroh_recv_frame. destruct (read_exact_cut r [] 4 Hr) as (r' & e & ->); [simpl; lia|].
      by exists 0, (Err (read_error (ReadError e))).
  - destruct Hbs as (b & bs' & Hb & Hbs & ->).
    destruct (decide (length x < length b)) as [Hl|Hl].
    + assert (x `prefix_of` b) as Hxb.
      { destruct (prefix_weak_total x b (b ++ bs') Hx) as [|Hbx]; [by apply prefix_app_r|done|].
        apply prefix_length in Hbx. lia. }
      destruct (recv_short f b x fin r Hb Hxb Hl Hr) as (r' & res & E & Hres).
      cbn [recv_all recv_frame IrohRecvHalf]. rewrite E.
      assert (x = b ++ bs' -> False) as Hne by (intros ->; rewrite length_app in Hl; lia).
      destruct Hres as [[-> ->]|[e ->]]; [exists 0, (Ok tt)|exists 0, (Err e)]; split_and!; naive_solver.
    + destruct Hx as [y Hy]. rewrite <-(take_drop (length b) x), <-app_assoc in Hy.
      apply app_inj_1 in Hy as [Hb' Hy]; [|rewrite length_take; lia].
      rewrite <-(take_drop (length b) x), <-Hb' in Hr.
      destruct (recv_framed f b _ fin r Hb Hr) as (r' & E & Hr').
      destruct (IH fuel bs' _ r' ltac:(lia) Hbs (ex_intro _ y Hy) Hr') as (m & e & Er & He & Hall).
      exists (S m), e. cbn [length recv_all recv_frame IrohRecvHalf] in *. rewrite E, Er.
      split_and!; [done|done|]. intros -> Hfin.
      destruct Hall as [Ht ?]; [|done|by simpl; rewrite Ht]. by rewrite drop_app_length.
Qed.

(** C39: the frames sent on a fresh mesh stream arrive as they are, in order and once, up to
    the point where the sender failed or the connection was cut: whatever part of the bytes
    reaches the receiver, it reads a prefix of the frames sent and then stops; it reads a
    clean end only if the sender finished the stream, and if everything was sent and
    arrived it reads all the frames and then the end. *)
Theorem mesh_stream_faithful fs s s' res r k fin :
  written s = [] -> send_all fs s = (s', res) -> incoming r (take k (written s')) fin ->
  exists m e, recv_all (S (length fs)) r = (take m fs, Some e) /\
    (e = Ok tt -> fin = true) /\
    (res = Ok tt -> length (written s') <= k -> fin = true -> take m fs = fs /\ e = Ok tt).
Proof.
  intros Hs Hsend Hr. destruct (send_all_written _ _ _ _ Hsend) as (n & bs & Hbs & Hpre & Hok).
  rewrite Hs in *. cbn [app] in *.
  destruct (recv_all_prefix (S (length fs)) (take n fs) bs (take k (written s')) fin r)
    as (m & e & Er & He & Hall); [rewrite length_take; lia|done| |done|].
  { etrans; [apply prefix_take|done]. }
  exists (m `min` n), e. rewrite take_take in Er. split_and!; [done|done|].
  intros Hres Hk Hfin. destruct (Hok Hres) as [Hn Hw]. rewrite <-take_take.
  rewrite Hn in *. apply Hall; [|done]. by rewrite take_ge.
Qed.
End cut.

(** ** Concrete streams *)

(** A serialization into the bits of [countable.encode], one per byte. *)
Fixpoint pos_bits (p : positive) : Bytes :=
  match p with
  | xH => []
  | xO p => 0%N :: pos_bits p
  | xI p => 1%N :: pos_bits p
  end.

Fixpoint bits_pos (bs : Bytes) : option positive :=
  match bs with
  | [] => Some xH
  | 0%N :: bs => xO <$> bits_pos bs
  | 1%N :: bs => xI <$> bits_pos bs
  | _ => None
  end.

Lemma bits_pos_bits p : bits_pos (pos_bits p) = Some p.
Proof. induction p as [p IH|p IH|]; simpl; [by rewrite IH..|done]. Qed.

Definition toy_postcard (T : Type) `{Countable T} : Postcard T := {|
  to_extend x buf := Ok (buf ++ pos_bits (countable.encode x));
  from_bytes bs :=
    match bits_pos bs ≫= countable.decode with Some x => Ok x | None => Err "malformed"%string end;
|}.

Lemma toy_postcard_laws (T : Type) `{Countable T} : @PostcardLaws T (toy_postcard T).
Proof.
  constructor. intros x buf bytes [= <-]. eexists. split; [done|]. simpl.
  rewrite bits_pos_bits. simpl. by rewrite countable.decode_encode.
Qed.

#[export] Instance FencedHeader_countable : Countable FencedHeader :=
  inj_countable' (fun f => (fh_session_id f, fh_generation f, fh_owner_runtime_id f))
    (fun x => {| fh_session_id := x.1.1; fh_generation := x.1.2; fh_owner_runtime_id := x.2 |})
    ltac:(by intros []).

#[export] Instance Profile_countable : Countable Profile :=
  inj_countable as_wire_str profile_from_wire ltac:(by intros []).

#[export] Instance GoodbyeReason_countable : Countable GoodbyeReason :=
  inj_countable' (fun r => match r with SessionEnded => 0 | Draining => 1 | _ => 2 end)
    (fun n => match n with 0 => SessionEnded | 1 => Draining | _ => GoodbyeStaleGeneration end)
    ltac:(by intros []).

Definition FrameSum : Type :=
  ((RuntimeId * option (FencedHeader * Profile)) + FencedHeader * Bytes) +
  (FencedHeader * GoodbyeReason + Bytes).

Definition to_sum (f : MeshStreamFrame) : FrameSum :=
  match f with
  | Hello {| sender := r; hello_role := Control |} => inl (inl (r, None))
  | Hello {| sender := r; hello_role := Session h p |} => inl (inl (r, Some (h, p)))
  | Data h p => inl (inr (h, p))
  | Goodbye h r => inr (inl (h, r))
  | Gossip p => inr (inr p)
  end.

Definition of_sum (x : FrameSum) : MeshStreamFrame :=
  match x with
  | inl (inl (r, None)) => Hello {| sender := r; hello_role := Control |}
  | inl (inl (r, Some (h, p))) => Hello {| sender := r; hello_role := Session h p |}
  | inl (inr (h, p)) => Data h p
  | inr (inl (h, r)) => Goodbye h r
  | inr (inr p) => Gossip p
  end.

#[export] Instance FrameSum_eq_dec : EqDecision FrameSum.
Proof. unfold FrameSum. apply _. Defined.
#[export] Instance FrameSum_countable : Countable FrameSum.
Proof. unfold FrameSum. apply _. Defined.
#[export] Instance MeshStreamFrame_countable : Countable MeshStreamFrame :=
  inj_countable' to_sum of_sum ltac:(by intros [[? []]| | |]).

(** A stream is the bytes written, or those still to read and how they end. *)
Definition toy_quic : Quic := {|
  SendStream := Bytes;
  RecvStream := Bytes * bool;
  write_all b s := (s ++ b, Ok tt);
  quic_finish s := (s, Ok tt);
  read_exact n r :=
    if decide (n <= length r.1) then ((drop n r.1, r.2), Ok (take n r.1))
    else (([], r.2), Err (if r.2 then FinishedEarly (length r.1) else ReadError "reset"));
  read_error_text e := "read error"%string;
|}.

#[export] Program Instance toy_quic_laws : @QuicLaws toy_quic := {
  written s := s;
  incoming r bs fin := r = (bs, fin);
}.
Next Obligation. naive_solver. Qed.
Next Obligation. simpl. intros. simplify_eq. Qed.
Next Obligation. done. Qed.
Next Obligation. simpl. intros r bs fin n -> Hn. rewrite decide_True by done. eauto. Qed.
Next Obligation. simpl. intros r bs n -> Hn. rewrite decide_False by (simpl; lia). eauto. Qed.
Next Obligation. simpl. intros r bs n -> Hn. rewrite decide_False by (simpl; lia). eauto. Qed.

#[local] Existing Instance toy_quic.
#[local] Instance toy_frames : Postcard MeshStreamFrame := toy_postcard MeshStreamFrame.
#[local] Existing Instance toy_postcard_laws.

Definition toy_sender : SendStream (Quic := toy_quic) := [].
Definition toy_receiver (bs : Bytes) (fin : bool) : RecvStream (Quic := toy_quic) := (bs, fin).

Definition two_frames : list MeshStreamFrame := [Gossip [7%N]; Gossip [8%N; 9%N]].

Lemma mesh_stream_faithful_witness :
  let s' := (send_all two_frames toy_sender).1 in
  exists m e, recv_all 3 (toy_receiver (take 30 s') false) = (take m two_frames, Some e) /\
    (e = Ok tt -> false = true).
Proof.
  destruct (mesh_stream_faithful two_frames toy_sender (send_all two_frames toy_sender).1 (Ok tt)
    (toy_receiver (take 30 (send_all two_frames toy_sender).1) false) 30 false)
    as (m & e & Hr & He & _); [reflexivity..|].
  exists m, e. split; [exact Hr|exact He].
Defined.
