(* ===== verification/Gossip.v ===== *)
(** * Membership gossip ([crates/buzz-relay-mesh/src/gossip.rs])

    Versioned records of the runtimes of a mesh, the digests and deltas they exchange, the
    scuttlebutt state and the phi-accrual suspicion of a peer.  Arithmetic on [f64] is the
    binary64 arithmetic of the Standard Library's [SpecFloat]; [SystemTime] is in nanoseconds
    since the epoch, [Duration] in nanoseconds. *)

From S2P Require Import Prelude Text SessionDirectory MeshWire.
From Stdlib Require Import SpecFloat.

(** ** Machine numbers and time *)

Definition u64_max : N := 2 ^ 64 - 1.

(** [u64::saturating_add] *)
Definition u64_saturating_add (a b : N) : N := N.min u64_max (a + b).

Definition f64 := spec_float.

(** [n as f64] *)
Definition f64_of_N (n : N) : f64 := binary_normalize 53 1024 (Z.of_N n) 0 false.
Definition f64_add : f64 -> f64 -> f64 := SFadd 53 1024.
Definition f64_div : f64 -> f64 -> f64 := SFdiv 53 1024.

(** [f64::EPSILON] is [2^-52], [LN_10] the double nearest to the logarithm of ten. *)
Definition f64_EPSILON : f64 := S754_finite false 4503599627370496 (-104).
Definition LN_10 : f64 := S754_finite false 5184960683398422 (-51).

Definition SystemTime := Z.
Definition Duration := N.

(** [Duration::as_secs_f64] *)
Definition as_secs_f64 (d : Duration) : f64 :=
  f64_add (f64_of_N (d / 1000000000)) (f64_div (f64_of_N (d mod 1000000000)) (f64_of_N 1000000000)).

(** [SystemTime::duration_since]; [None] is an earlier time. *)
Definition duration_since (at_ prev : SystemTime) : option Duration :=
  if (prev <=? at_)%Z then Some (Z.to_N (at_ - prev)) else None.

Definition now_millis (now : SystemTime) : N :=
  N.min (default 0%N (duration_since now 0%Z) / 1000000) u64_max.

Definition system_time_from_millis (millis : N) : SystemTime := (Z.of_N millis * 1000000)%Z.

(** ** Records and messages *)

Definition GOSSIP_PAYLOAD_VERSION : N := 1.

(** [load] is an [f32] no code computes with. *)
Record GossipRecord := {
  gr_runtime_id : RuntimeId;
  endpoint_addrs : list string;
  proto_version : N;
  load : spec_float;
  draining : bool;
  capabilities : list string;
  version : N;
  heartbeat_millis : N;
}.

Definition GossipRecord_new (now : SystemTime) (runtime_id : RuntimeId) (addrs : list string)
    (proto : N) : GossipRecord :=
  {| gr_runtime_id := runtime_id; endpoint_addrs := addrs; proto_version := proto;
     load := S754_zero false; draining := false; capabilities := []; version := 1;
     heartbeat_millis := now_millis now |}.

Definition set_capabilities (caps : list string) (r : GossipRecord) : GossipRecord :=
  {| gr_runtime_id := gr_runtime_id r; endpoint_addrs := endpoint_addrs r;
     proto_version := proto_version r; load := load r; draining := draining r;
     capabilities := caps; version := version r; heartbeat_millis := heartbeat_millis r |}.

(** [|record| record.draining = true] *)
Definition set_draining (r : GossipRecord) : GossipRecord :=
  {| gr_runtime_id := gr_runtime_id r; endpoint_addrs := endpoint_addrs r;
     proto_version := proto_version r; load := load r; draining := true;
     capabilities := capabilities r; version := version r; heartbeat_millis := heartbeat_millis r |}.

(** The next version of a record, once its owner has updated it. *)
Definition bump (now : SystemTime) (r : GossipRecord) : GossipRecord :=
  {| gr_runtime_id := gr_runtime_id r; endpoint_addrs := endpoint_addrs r;
     proto_version := proto_version r; load := load r; draining := draining r;
     capabilities := capabilities r; version := u64_saturating_add (version r) 1;
     heartbeat_millis := now_millis now |}.

Record GossipDigestEntry := {
  de_runtime_id : RuntimeId;
  de_version : N;
}.

Inductive GossipMessage :=
| Digest (version : N) (entries : list GossipDigestEntry)
| Delta (version : N) (records : list GossipRecord).

Definition message_version (m : GossipMessage) : N :=
  match m with Digest v _ | Delta v _ => v end.

Section codec.
Context `{Postcard GossipMessage}.

Definition encode_message (m : GossipMessage) : Result Bytes MeshError :=
  map_err Encode (to_extend m []).

Definition decode_message (bytes : Bytes) : Result GossipMessage MeshError :=
  let? m := map_err Decode (from_bytes bytes) in
  if decide (message_version m = GOSSIP_PAYLOAD_VERSION) then Ok m
  else Err (TransportIo ("unknown gossip payload version " ++ decimal (message_version m))).
End codec.

(** ** Digests and deltas *)

Section scuttlebutt.
Context `{Hex}.

Definition to_hex (r : RuntimeId) : string := hex_encode r.

(** [sort_by_key(|x| x.runtime_id.to_hex())] *)
Definition hex_le {A} (key : A -> RuntimeId) (x y : A) : Prop :=
  string_le (to_hex (key x)) (to_hex (key y)).
#[export] Instance hex_le_dec {A} (key : A -> RuntimeId) x y : Decision (hex_le key x y).
Proof. unfold hex_le. apply _. Defined.

Definition sort_by_hex {A} (key : A -> RuntimeId) (l : list A) : list A := merge_sort (hex_le key) l.

Definition digest_entry (r : GossipRecord) : GossipDigestEntry :=
  {| de_runtime_id := gr_runtime_id r; de_version := version r |}.

(** The digest over [records], in whatever order a table yields them. *)
Definition digest_of (records : list GossipRecord) : GossipMessage :=
  Digest GOSSIP_PAYLOAD_VERSION (sort_by_hex de_runtime_id (digest_entry <$> records)).

(** [collect()] into a [HashMap]: a later entry replaces an earlier one. *)
Definition remote_versions (digest : list GossipDigestEntry) : gmap RuntimeId N :=
  fold_left (fun m e => <[de_runtime_id e := de_version e]> m) digest ∅.

(** [remote_versions.get(&id).is_none_or(|remote| *remote < record.version)] *)
Definition behind (remote : gmap RuntimeId N) (r : GossipRecord) : bool :=
  match remote !! gr_runtime_id r with
  | None => true
  | Some v => (v <? version r)%N
  end.

Definition delta_of (records : list GossipRecord) (digest : list GossipDigestEntry) : GossipMessage :=
  Delta GOSSIP_PAYLOAD_VERSION
    (sort_by_hex gr_runtime_id (filter (fun r => behind (remote_versions digest) r = true) records)).
End scuttlebutt.

(** ** [GossipState] *)

Record GossipState := { gs_records : gmap RuntimeId GossipRecord }.

Definition GossipState_new (local : GossipRecord) : GossipState :=
  {| gs_records := {[gr_runtime_id local := local]} |}.

(** [self.records.values()] *)
Definition records `{HashMapIter} (s : GossipState) : list GossipRecord := (iter_entries (gs_records s)).*2.

Definition gossip_get (s : GossipState) (runtime_id : RuntimeId) : option GossipRecord :=
  gs_records s !! runtime_id.

Definition gossip_update_local (now : SystemTime) (runtime_id : RuntimeId)
    (update : GossipRecord -> GossipRecord) (s : GossipState) : GossipState * option GossipRecord :=
  match gs_records s !! runtime_id with
  | None => (s, None)
  | Some record =>
      let record := bump now (update record) in
      ({| gs_records := <[runtime_id := record]> (gs_records s) |}, Some record)
  end.

Definition gossip_digest `{Hex} `{HashMapIter} (s : GossipState) : GossipMessage := digest_of (records s).

Definition gossip_delta_for `{Hex} `{HashMapIter} (s : GossipState) (digest : list GossipDigestEntry)
    : GossipMessage :=
  delta_of (records s) digest.

(** One round of the loop of [apply_delta]; the list is [changed]. *)
Definition apply_record (record : GossipRecord) (m : gmap RuntimeId GossipRecord)
    : gmap RuntimeId GossipRecord * list RuntimeId :=
  let should_apply :=
    match m !! gr_runtime_id record with
    | None => true
    | Some existing => (version existing <? version record)%N
    end in
  if should_apply then (<[gr_runtime_id record := record]> m, [gr_runtime_id record]) else (m, []).

Fixpoint apply_records (rs : list GossipRecord) (m : gmap RuntimeId GossipRecord)
    : gmap RuntimeId GossipRecord * list RuntimeId :=
  match rs with
  | [] => (m, [])
  | record :: rs =>
      let '(m, changed) := apply_record record m in
      let '(m, changed') := apply_records rs m in
      (m, changed ++ changed')
  end.

Definition apply_delta (rs : list GossipRecord) (s : GossipState) : GossipState * list RuntimeId :=
  let '(m, changed) := apply_records rs (gs_records s) in ({| gs_records := m |}, changed).

(** ** Suspicion *)

Record PhiAccrual := {
  samples : list Duration;
  last_heartbeat : option SystemTime;
  max_samples : nat;
}.

Definition PhiAccrual_new (max : nat) : PhiAccrual :=
  {| samples := []; last_heartbeat := None; max_samples := Nat.max max 1 |}.

Definition PhiAccrual_default : PhiAccrual := PhiAccrual_new 100.

(** [samples.push(interval)], and [samples.remove(0)] when there are too many. *)
Definition push_sample (max : nat) (l : list Duration) (interval : Duration) : list Duration :=
  let l := l ++ [interval] in
  if (max <? length l)%nat then tail l else l.

Definition observe (at_ : SystemTime) (p : PhiAccrual) : PhiAccrual :=
  let samples' :=
    match last_heartbeat p with
    | None => samples p
    | Some prev =>
        match duration_since at_ prev with
        | None => samples p
        | Some interval =>
            if (interval =? 0)%N then samples p else push_sample (max_samples p) (samples p) interval
        end
    end in
  {| samples := samples'; last_heartbeat := Some at_; max_samples := max_samples p |}.

(** The sum starts at zero; a list that is not empty sums the same from a negative zero. *)
Definition mean_secs (p : PhiAccrual) : f64 :=
  let total := fold_left f64_add (as_secs_f64 <$> samples p) (S754_zero false) in
  f64_div total (f64_of_N (N.of_nat (length (samples p)))).

Definition phi_at (now : SystemTime) (p : PhiAccrual) : option f64 :=
  match last_heartbeat p with
  | None => None
  | Some last =>
      match samples p with
      | [] => None
      | _ =>
          match duration_since now last with
          | None => None
          | Some elapsed =>
              let mean := mean_secs p in
              if SFleb mean f64_EPSILON then None
              else Some (f64_div (f64_div (as_secs_f64 elapsed) mean) LN_10)
          end
      end
  end.
