(* ===== verification/MeshRegistry.v ===== *)
(** * The ready registry of the mesh ([crates/buzz-relay-mesh/src/registry.rs])

    The records by which runtimes find each other in Redis, the attestation a relay key signs
    of them, and the registry's operations.  The operations await Redis between their
    commands, so they are programs of calls ([RedisCall]); any type of calls that has these
    among its own can run them ([HasRedis]). *)

From S2P Require Import Prelude Text SessionDirectory Gossip Concurrent.

(** The keys of a relay, SHA-256 and Schnorr signatures ([nostr], [secp256k1], [sha2]). *)
Class RelayKeys := {
  Keys : Type;
  RelayPublicKey : Type;
  XOnlyPublicKey : Type;
  Signature : Type;
  public_key : Keys -> RelayPublicKey;
  pubkey_from_hex : string -> Result RelayPublicKey string;
  pubkey_to_hex : RelayPublicKey -> string;
  xonly : RelayPublicKey -> Result XOnlyPublicKey string;
  signature_from_str : string -> Result Signature string;
  sha256_digest : string -> Bytes;
  sign_schnorr : Keys -> Bytes -> string;
  verify_schnorr : Signature -> Bytes -> XOnlyPublicKey -> Result unit string;
}.

(** ** Attestations *)

Definition READY_KEY_PREFIX : string := "mesh:ready:".
Definition REGISTRY_EXPIRY_MULTIPLIER : N := 3.
Definition ATTESTATION_CONTEXT : string := "buzz-relay-mesh-ready-v1".

Record RuntimeAttestation := {
  at_relay_pubkey : string;
  at_relay_sig : string;
}.

(** Value stored at [mesh:ready:{runtime_id}]. *)
Record ReadyRecord := {
  rr_runtime_id : RuntimeId;
  rr_runtime_pubkey : string;
  rr_relay_pubkey : string;
  rr_relay_sig : string;
  rr_endpoint_addrs : list string;
  rr_proto_version : N;
  rr_capabilities : list string;
}.

Definition newline : string := String "010"%char EmptyString.

Section attestation.
Context `{Hex} `{RelayKeys}.

Definition attestation_preimage (runtime_id : RuntimeId) (relay_pubkey : string) : string :=
  ATTESTATION_CONTEXT ++ newline ++ "runtime_pubkey=" ++ to_hex runtime_id ++ newline ++
  "relay_pubkey=" ++ relay_pubkey.

Definition attestation_message (runtime_id : RuntimeId) (relay_pubkey : string) : Bytes :=
  sha256_digest (attestation_preimage runtime_id relay_pubkey).

(** [map_err(|err| MeshError::Transport(format!(..)))] *)
Definition attestation_error (what : string) (err : string) : MeshError :=
  TransportIo ("ready registry attestation " ++ what ++ ": " ++ err).

Definition verify_attestation (runtime_id : RuntimeId) (relay_pubkey relay_sig : string)
    : Result unit MeshError :=
  let? key := map_err (attestation_error "invalid relay_pubkey") (pubkey_from_hex relay_pubkey) in
  let? x := map_err (attestation_error "relay_pubkey xonly conversion failed") (xonly key) in
  let? sig := map_err (attestation_error "invalid relay_sig") (signature_from_str relay_sig) in
  let message := attestation_message runtime_id (pubkey_to_hex key) in
  map_err (attestation_error "signature verification failed") (verify_schnorr sig message x).

Definition RuntimeAttestation_new (relay_keys : Keys) (runtime_id : RuntimeId) : RuntimeAttestation :=
  let relay_pubkey := pubkey_to_hex (public_key relay_keys) in
  let message := attestation_message runtime_id relay_pubkey in
  {| at_relay_pubkey := relay_pubkey; at_relay_sig := sign_schnorr relay_keys message |}.

Definition attestation_verify (a : RuntimeAttestation) (runtime_id : RuntimeId) : Result unit MeshError :=
  verify_attestation runtime_id (at_relay_pubkey a) (at_relay_sig a).

Definition ReadyRecord_new (runtime_id : RuntimeId) (relay_keys : Keys) (addrs : list string)
    (proto : N) (caps : list string) : ReadyRecord :=
  let attestation := RuntimeAttestation_new relay_keys runtime_id in
  {| rr_runtime_id := runtime_id; rr_runtime_pubkey := to_hex runtime_id;
     rr_relay_pubkey := at_relay_pubkey attestation; rr_relay_sig := at_relay_sig attestation;
     rr_endpoint_addrs := addrs; rr_proto_version := proto; rr_capabilities := caps |}.

Definition verify_ready (r : ReadyRecord) : Result unit MeshError :=
  if decide (rr_runtime_pubkey r <> to_hex (rr_runtime_id r)) then
    Err (TransportIo ("ready registry runtime_id/runtime_pubkey mismatch: " ++ to_hex (rr_runtime_id r)
                      ++ " != " ++ rr_runtime_pubkey r))
  else verify_attestation (rr_runtime_id r) (rr_relay_pubkey r) (rr_relay_sig r).

Definition ready_key (runtime_id : RuntimeId) : string := READY_KEY_PREFIX ++ to_hex runtime_id.

Definition rr_key (r : ReadyRecord) : string := ready_key (rr_runtime_id r).
End attestation.

(** ** Redis *)

Definition DURATION_MAX : Duration := (u64_max * 1000000000 + 999999999)%N.

(** [refresh.saturating_mul(3)] *)
Definition expiry_for (refresh : Duration) : Duration :=
  N.min DURATION_MAX (refresh * REGISTRY_EXPIRY_MULTIPLIER).

(** A connection of the pool and the commands on it.  [Hang] is a call that never answers. *)
Inductive RedisCall : Type -> Type :=
| PoolGet : RedisCall (Result unit string)
| SetEx (key payload : string) (ttl_secs : N) : RedisCall (Result unit string)
| RedisDel (key : string) : RedisCall (Result unit string)
| Scan (cursor : N) (pattern : string) (count : N) : RedisCall (Result (N * list string) string)
| RedisGet (key : string) : RedisCall (Result (option string) string)
| Hang : RedisCall Empty_set.

Class HasRedis (Call : Type -> Type) := redis_call : forall R, RedisCall R -> Call R.

(** [serde_json] at [ReadyRecord]. *)
Class ReadySerde := {
  ready_to_string : ReadyRecord -> Result string string;
  ready_from_str : string -> Result ReadyRecord string;
}.

Record ReadyRegistry := { refresh : Duration }.

Definition refresh_interval (g : ReadyRegistry) : Duration := refresh g.
Definition expiry (g : ReadyRegistry) : Duration := expiry_for (refresh g).

Section registry.
Context `{Hex} `{RelayKeys} `{ReadySerde} {Call : Type -> Type} `{HasRedis Call}.

Notation redis c := (call (redis_call _ c)).

Definition conn : Prog Call (Result unit MeshError) :=
  map_err_await (fun e => TransportIo ("redis pool: " ++ e)) (redis PoolGet).

Definition publish_ready (g : ReadyRegistry) (record : ReadyRecord) : Prog Call (Result unit MeshError) :=
  let!? _ := Ret (verify_ready record) in
  let!? _ := conn in
  let!? payload := Ret (map_err (fun e => TransportIo ("ready registry encode: " ++ e))
                          (ready_to_string record)) in
  let ttl_secs := N.max (expiry g / 1000000000) 1 in
  let!? _ := map_err_await MeshRedis (redis (SetEx (rr_key record) payload ttl_secs)) in
  Ret (Ok tt).

Definition clear_ready (runtime_id : RuntimeId) : Prog Call (Result unit MeshError) :=
  let!? _ := conn in
  let!? _ := map_err_await MeshRedis (redis (RedisDel (ready_key runtime_id))) in
  Ret (Ok tt).

(** What a stored value adds to the scan. *)
Definition scanned (key raw : string) : list ReadyRecord :=
  match ready_from_str raw with
  | Ok record =>
      if decide (rr_key record = key) then
        match verify_ready record with Ok _ => [record] | Err _ => [] end
      else []
  | Err _ => []
  end.

Fixpoint scan_keys (keys : list string) (out : list ReadyRecord)
    : Prog Call (Result (list ReadyRecord) MeshError) :=
  match keys with
  | [] => Ret (Ok out)
  | key :: keys =>
      let!? raw := map_err_await MeshRedis (redis (RedisGet key)) in
      match raw with
      | None => scan_keys keys out
      | Some raw => scan_keys keys (out ++ scanned key raw)
      end
  end.

(** The loop; a scan that needs more rounds than [fuel] is one that does not return. *)
Fixpoint scan_loop (fuel : nat) (cursor : N) (out : list ReadyRecord)
    : Prog Call (Result (list ReadyRecord) MeshError) :=
  match fuel with
  | O => Do (redis_call _ Hang) (fun e : Empty_set => match e with end)
  | S fuel =>
      let!? batch := map_err_await MeshRedis (redis (Scan cursor (READY_KEY_PREFIX ++ "*") 100)) in
      let!? out := scan_keys batch.2 out in
      if (batch.1 =? 0)%N then Ret (Ok out) else scan_loop fuel batch.1 out
  end.

Definition scan_ready (fuel : nat) : Prog Call (Result (list ReadyRecord) MeshError) :=
  let!? _ := conn in scan_loop fuel 0 [].

(** *** The heartbeat *)

Record ReadyHeartbeat := {
  hb_registry : ReadyRegistry;
  hb_record : ReadyRecord;
  published : bool;
}.

Definition heartbeat (g : ReadyRegistry) (record : ReadyRecord) : ReadyHeartbeat :=
  {| hb_registry := g; hb_record := record; published := false |}.

Definition set_published (b : bool) (h : ReadyHeartbeat) : ReadyHeartbeat :=
  {| hb_registry := hb_registry h; hb_record := hb_record h; published := b |}.

(** A method on [&mut self] returns the heartbeat it leaves. *)
Definition hb_shutdown (h : ReadyHeartbeat) : Prog Call (ReadyHeartbeat * Result unit MeshError) :=
  if published h then
    let! r := clear_ready (rr_runtime_id (hb_record h)) in
    match r with
    | Err e => Ret (h, Err e)
    | Ok _ => Ret (set_published false h, Ok tt)
    end
  else Ret (h, Ok tt).

Definition tick (ready : bool) (h : ReadyHeartbeat) : Prog Call (ReadyHeartbeat * Result unit MeshError) :=
  if ready then
    let! r := publish_ready (hb_registry h) (hb_record h) in
    match r with
    | Err e => Ret (h, Err e)
    | Ok _ => Ret (set_published true h, Ok tt)
    end
  else if published h then
    let! r := clear_ready (rr_runtime_id (hb_record h)) in
    match r with
    | Err e => Ret (h, Err e)
    | Ok _ => Ret (set_published false h, Ok tt)
    end
  else Ret (h, Ok tt).
End registry.
