(* ===== verification/MeshMembership.v ===== *)
(** * The membership table of a runtime ([crates/buzz-relay-mesh/src/membership.rs], [status.rs])

    The peers a runtime knows of, fed by ready records and gossip, and the routing hints and
    status it answers from them.  Every operation takes the table and returns the one it
    leaves; [now] is the clock it reads. *)

From S2P Require Import Prelude Text SessionDirectory MeshWire Gossip MeshRegistry.
From Stdlib Require Import SpecFloat.

(** 8.0 *)
Definition DEFAULT_PHI_SUSPECT_THRESHOLD : f64 := f64_of_N 8.

Inductive ConnectionState := Disconnected | Connecting | Connected | Suspect.

#[export] Instance ConnectionState_eq_dec : EqDecision ConnectionState.
Proof. solve_decision. Defined.

Record MeshPeerCounters := {
  pc_runtime_id : string;
  streams_opened : N;
  streams_received : N;
  datagrams_sent : N;
  datagrams_received : N;
  gossip_frames_sent : N;
  gossip_frames_received : N;
  pc_stale_generation_rejections : N;
}.

Record PeerState := {
  record : GossipRecord;
  phi : PhiAccrual;
  connection_state : ConnectionState;
  counters : MeshPeerCounters;
}.

Record MeshMembership := {
  local_runtime_id : RuntimeId;
  local_record : GossipRecord;
  peers : gmap RuntimeId PeerState;
  mm_draining : bool;
  stale_generation_rejections : N;
  foreign_relay_rejections : N;
  expected_relay_pubkey : option string;
  phi_suspect_threshold : f64;
}.

Definition MeshMembership_new (local : GossipRecord) : MeshMembership :=
  {| local_runtime_id := gr_runtime_id local; local_record := local; peers := ∅;
     mm_draining := false; stale_generation_rejections := 0; foreign_relay_rejections := 0;
     expected_relay_pubkey := None; phi_suspect_threshold := DEFAULT_PHI_SUSPECT_THRESHOLD |}.

Definition with_expected_relay_pubkey (pubkey_hex : string) (m : MeshMembership) : MeshMembership :=
  {| local_runtime_id := local_runtime_id m; local_record := local_record m; peers := peers m;
     mm_draining := mm_draining m; stale_generation_rejections := stale_generation_rejections m;
     foreign_relay_rejections := foreign_relay_rejections m;
     expected_relay_pubkey := Some pubkey_hex; phi_suspect_threshold := phi_suspect_threshold m |}.

Definition with_phi_suspect_threshold (threshold : f64) (m : MeshMembership) : MeshMembership :=
  {| local_runtime_id := local_runtime_id m; local_record := local_record m; peers := peers m;
     mm_draining := mm_draining m; stale_generation_rejections := stale_generation_rejections m;
     foreign_relay_rejections := foreign_relay_rejections m;
     expected_relay_pubkey := expected_relay_pubkey m; phi_suspect_threshold := threshold |}.

(** ** Updates of one field *)

Definition set_local_record (r : GossipRecord) (m : MeshMembership) : MeshMembership :=
  {| local_runtime_id := local_runtime_id m; local_record := r; peers := peers m;
     mm_draining := mm_draining m; stale_generation_rejections := stale_generation_rejections m;
     foreign_relay_rejections := foreign_relay_rejections m;
     expected_relay_pubkey := expected_relay_pubkey m;
     phi_suspect_threshold := phi_suspect_threshold m |}.

Definition set_peers (ps : gmap RuntimeId PeerState) (m : MeshMembership) : MeshMembership :=
  {| local_runtime_id := local_runtime_id m; local_record := local_record m; peers := ps;
     mm_draining := mm_draining m; stale_generation_rejections := stale_generation_rejections m;
     foreign_relay_rejections := foreign_relay_rejections m;
     expected_relay_pubkey := expected_relay_pubkey m;
     phi_suspect_threshold := phi_suspect_threshold m |}.

(** [self.draining.store(true)] *)
Definition store_draining (m : MeshMembership) : MeshMembership :=
  {| local_runtime_id := local_runtime_id m; local_record := local_record m; peers := peers m;
     mm_draining := true; stale_generation_rejections := stale_generation_rejections m;
     foreign_relay_rejections := foreign_relay_rejections m;
     expected_relay_pubkey := expected_relay_pubkey m;
     phi_suspect_threshold := phi_suspect_threshold m |}.

(** [fetch_add(1)] on a [u64] wraps. *)
Definition u64_fetch_inc (n : N) : N := ((n + 1) mod 2 ^ 64)%N.

Definition count_foreign (m : MeshMembership) : MeshMembership :=
  {| local_runtime_id := local_runtime_id m; local_record := local_record m; peers := peers m;
     mm_draining := mm_draining m; stale_generation_rejections := stale_generation_rejections m;
     foreign_relay_rejections := u64_fetch_inc (foreign_relay_rejections m);
     expected_relay_pubkey := expected_relay_pubkey m;
     phi_suspect_threshold := phi_suspect_threshold m |}.

Definition count_stale (m : MeshMembership) : MeshMembership :=
  {| local_runtime_id := local_runtime_id m; local_record := local_record m; peers := peers m;
     mm_draining := mm_draining m;
     stale_generation_rejections := u64_fetch_inc (stale_generation_rejections m);
     foreign_relay_rejections := foreign_relay_rejections m;
     expected_relay_pubkey := expected_relay_pubkey m;
     phi_suspect_threshold := phi_suspect_threshold m |}.

(** [if let Some(peer) = peers.get_mut(&id) { f(peer) }] *)
Definition update_peer (id : RuntimeId) (f : PeerState -> PeerState) (m : MeshMembership)
    : MeshMembership :=
  match peers m !! id with
  | None => m
  | Some p => set_peers (<[id := f p]> (peers m)) m
  end.

Definition set_connection_state (s : ConnectionState) (p : PeerState) : PeerState :=
  {| record := record p; phi := phi p; connection_state := s; counters := counters p |}.

Definition set_counters (c : MeshPeerCounters) (p : PeerState) : PeerState :=
  {| record := record p; phi := phi p; connection_state := connection_state p; counters := c |}.

(** ** Feeding the table *)

Section feeding.
Context `{Hex}.

Definition counters_of (id : RuntimeId) : MeshPeerCounters :=
  {| pc_runtime_id := to_hex id; streams_opened := 0; streams_received := 0; datagrams_sent := 0;
     datagrams_received := 0; gossip_frames_sent := 0; gossip_frames_received := 0;
     pc_stale_generation_rejections := 0 |}.

Definition apply_gossip_record (r : GossipRecord) (m : MeshMembership) : MeshMembership * bool :=
  if decide (gr_runtime_id r = local_runtime_id m) then (m, false)
  else
    let heartbeat := system_time_from_millis (heartbeat_millis r) in
    match peers m !! gr_runtime_id r with
    | Some peer =>
        if (version r <=? version (record peer))%N then (m, false)
        else
          let peer := {| record := r; phi := observe heartbeat (phi peer);
                         connection_state := Connected; counters := counters peer |} in
          (set_peers (<[gr_runtime_id r := peer]> (peers m)) m, true)
    | None =>
        let peer := {| record := r; phi := observe heartbeat PhiAccrual_default;
                       connection_state := Connected; counters := counters_of (gr_runtime_id r) |} in
        (set_peers (<[gr_runtime_id r := peer]> (peers m)) m, true)
    end.

Context `{RelayKeys}.

(** What one ready record asks of the table, the clock being read when it is admitted. *)
Inductive ReadyVerdict := SkipSelf | Foreign | Unauthenticated (err : MeshError) | Admit (r : GossipRecord).

Definition judge_ready (now : SystemTime) (m : MeshMembership) (ready : ReadyRecord) : ReadyVerdict :=
  if decide (rr_runtime_id ready = local_runtime_id m) then SkipSelf
  else if decide (expected_relay_pubkey m = Some (rr_relay_pubkey ready)) then
    match verify_ready ready with
    | Err err => Unauthenticated err
    | Ok _ =>
        Admit (set_capabilities (rr_capabilities ready)
                 (GossipRecord_new now (rr_runtime_id ready) (rr_endpoint_addrs ready)
                    (rr_proto_version ready)))
    end
  else Foreign.

(** One round of the loop of [apply_ready_records]. *)
Definition apply_ready_record (now : SystemTime) (ready : ReadyRecord) (m : MeshMembership)
    : MeshMembership :=
  match judge_ready now m ready with
  | SkipSelf | Unauthenticated _ => m
  | Foreign => count_foreign m
  | Admit r => (apply_gossip_record r m).1
  end.

Definition apply_ready_records (now : SystemTime) (rs : list ReadyRecord) (m : MeshMembership)
    : MeshMembership :=
  fold_left (fun m r => apply_ready_record now r m) rs m.
End feeding.

Definition mark_connection_state (id : RuntimeId) (s : ConnectionState) (m : MeshMembership)
    : MeshMembership :=
  update_peer id (set_connection_state s) m.

Definition update_local (now : SystemTime) (update : GossipRecord -> GossipRecord) (m : MeshMembership)
    : MeshMembership * GossipRecord :=
  let local := bump now (update (local_record m)) in (set_local_record local m, local).

Definition begin_drain (now : SystemTime) (m : MeshMembership) : MeshMembership :=
  (update_local now set_draining (store_draining m)).1.

(** ** Reading it *)

Definition is_draining (m : MeshMembership) : bool := mm_draining m.

Definition has_peer (id : RuntimeId) (m : MeshMembership) : bool := bool_decide (is_Some (peers m !! id)).

Section reading.
Context `{HashMapIter} `{Hex}.

Definition peer_states (m : MeshMembership) : list PeerState := (iter_entries (peers m)).*2.

(** [records()] with the peers as [rs]: the table is read before the local record. *)
Definition all_records (m : MeshMembership) : list GossipRecord :=
  (record <$> peer_states m) ++ [local_record m].

Definition membership_digest (m : MeshMembership) : GossipMessage := digest_of (all_records m).

Definition membership_delta_for (digest : list GossipDigestEntry) (m : MeshMembership) : GossipMessage :=
  delta_of (all_records m) digest.

(** [phi.is_some_and(|p| p >= self.phi_suspect_threshold)] *)
Definition suspect (m : MeshMembership) (phi : option f64) : bool :=
  match phi with
  | None => false
  | Some p => SFleb (phi_suspect_threshold m) p
  end.

Record PeerInfo := {
  pi_runtime_id : RuntimeId;
  pi_draining : bool;
  pi_phi : option f64;
  pi_load : spec_float;
}.

Definition peer_info (now : SystemTime) (m : MeshMembership) (p : PeerState) : option PeerInfo :=
  let f := phi_at now (phi p) in
  if suspect m f then None
  else Some {| pi_runtime_id := gr_runtime_id (record p); pi_draining := draining (record p);
               pi_phi := f; pi_load := load (record p) |}.

(** [RelayMeshMembership::peers]: live, non-suspect peers. *)
Definition live_peers (now : SystemTime) (m : MeshMembership) : list PeerInfo :=
  omap (peer_info now m) (peer_states m).

Record MeshPeerStatus := {
  ps_runtime_id : string;
  ps_endpoint_addrs : list string;
  ps_proto_version : N;
  ps_draining : bool;
  ps_connection_state : ConnectionState;
  ps_phi : option f64;
  ps_load : spec_float;
  record_version : N;
  last_heartbeat_millis : N;
  ps_counters : MeshPeerCounters;
}.

Definition peer_status (now : SystemTime) (m : MeshMembership) (p : PeerState) : MeshPeerStatus :=
  let f := phi_at now (phi p) in
  {| ps_runtime_id := to_hex (gr_runtime_id (record p)); ps_endpoint_addrs := endpoint_addrs (record p);
     ps_proto_version := proto_version (record p); ps_draining := draining (record p);
     ps_connection_state := if suspect m f then Suspect else connection_state p; ps_phi := f;
     ps_load := load (record p); record_version := version (record p);
     last_heartbeat_millis := heartbeat_millis (record p); ps_counters := counters p |}.

Definition peer_statuses (now : SystemTime) (m : MeshMembership) : list MeshPeerStatus :=
  peer_status now m <$> peer_states m.

Record MeshCounters := {
  mc_stale_generation_rejections : N;
  mc_foreign_relay_rejections : N;
  mc_peers : list MeshPeerCounters;
}.

Record MeshStatus := {
  enabled : bool;
  st_local_runtime_id : string;
  st_draining : bool;
  peer_count : nat;
  st_peers : list MeshPeerStatus;
  st_counters : MeshCounters;
}.

Definition status_le (a b : MeshPeerStatus) : Prop := string_le (ps_runtime_id a) (ps_runtime_id b).
#[local] Instance status_le_dec a b : Decision (status_le a b).
Proof. unfold status_le. apply _. Defined.

Definition status (now : SystemTime) (m : MeshMembership) : MeshStatus :=
  let local := local_record m in
  let peers := merge_sort status_le (peer_statuses now m) in
  {| enabled := true; st_local_runtime_id := to_hex (gr_runtime_id local);
     st_draining := is_draining m; peer_count := length peers; st_peers := peers;
     st_counters := {| mc_stale_generation_rejections := stale_generation_rejections m;
                       mc_foreign_relay_rejections := foreign_relay_rejections m;
                       mc_peers := ps_counters <$> peers |} |}.
End reading.

(** ** Counters *)

Inductive PeerCounter :=
| StreamOpened | StreamReceived | DatagramSent | DatagramReceived | GossipFrameSent
| GossipFrameReceived | StaleGenerationRejection.

#[export] Instance PeerCounter_eq_dec : EqDecision PeerCounter.
Proof. solve_decision. Defined.

(** [c.field = c.field.saturating_add(1)], and the other fields as they were. *)
Definition count (k : PeerCounter) (c : MeshPeerCounters) : MeshPeerCounters :=
  let inc k' n := if decide (k = k') then u64_saturating_add n 1 else n in
  {| pc_runtime_id := pc_runtime_id c;
     streams_opened := inc StreamOpened (streams_opened c);
     streams_received := inc StreamReceived (streams_received c);
     datagrams_sent := inc DatagramSent (datagrams_sent c);
     datagrams_received := inc DatagramReceived (datagrams_received c);
     gossip_frames_sent := inc GossipFrameSent (gossip_frames_sent c);
     gossip_frames_received := inc GossipFrameReceived (gossip_frames_received c);
     pc_stale_generation_rejections := inc StaleGenerationRejection (pc_stale_generation_rejections c) |}.

(** [record_stream_opened] and its siblings. *)
Definition record_count (k : PeerCounter) (id : RuntimeId) (m : MeshMembership) : MeshMembership :=
  update_peer id (fun p => set_counters (count k (counters p)) p) m.

Definition record_stale_generation_rejection (id : option RuntimeId) (m : MeshMembership)
    : MeshMembership :=
  match id with
  | None => count_stale m
  | Some id => record_count StaleGenerationRejection id (count_stale m)
  end.
