(* ===== verification/GossipProps.v ===== *)
(** * The membership table is the scuttlebutt state

    [MeshMembership] keeps the records of [GossipState] in another shape: fed the same records
    it tells the same digests, answers the same deltas and reports the same changes.  The
    window of the suspicion estimate stays bounded, and a suspect peer is only hidden. *)

From S2P Require Import Prelude Text SessionDirectory SessionDirectoryProps MeshWire Gossip MeshRegistry MeshMembership.
From Stdlib Require Import SpecFloat.

(** What happens to a table: gossip from a peer, or a change of the local record. *)
Inductive GossipOp :=
| Deltas (rs : list GossipRecord)
| LocalUpdate (now : SystemTime) (update : GossipRecord -> GossipRecord).

Section equiv.
Context `{Hex}.

(** The records of a delta one after another; the ids are those that changed. *)
Fixpoint apply_gossip (rs : list GossipRecord) (m : MeshMembership) : MeshMembership * list RuntimeId :=
  match rs with
  | [] => (m, [])
  | r :: rs =>
      let '(m, applied) := apply_gossip_record r m in
      let '(m, changed) := apply_gossip rs m in
      (m, (if applied then [gr_runtime_id r] else []) ++ changed)
  end.

Definition state_op (op : GossipOp) (s : GossipState) (id : RuntimeId) : GossipState * list RuntimeId :=
  match op with
  | Deltas rs => apply_delta rs s
  | LocalUpdate now update => ((gossip_update_local now id update s).1, [])
  end.

Definition table_op (op : GossipOp) (m : MeshMembership) : MeshMembership * list RuntimeId :=
  match op with
  | Deltas rs => apply_gossip rs m
  | LocalUpdate now update => ((update_local now update m).1, [])
  end.

(** An update that keeps the record's owner. *)
Definition keeps_owner (op : GossipOp) : Prop :=
  match op with
  | Deltas _ => True
  | LocalUpdate _ update => forall r, gr_runtime_id (update r) = gr_runtime_id r
  end.

(** A delta without the records of [id]. *)
Definition others_only (id : RuntimeId) (op : GossipOp) : GossipOp :=
  match op with
  | Deltas rs => Deltas (filter (fun r => gr_runtime_id r <> id) rs)
  | LocalUpdate now update => LocalUpdate now update
  end.

(** Gossip about others, and updates that keep the record's owner. *)
Definition op_ok (id : RuntimeId) (op : GossipOp) : Prop :=
  match op with
  | Deltas rs => Forall (fun r => gr_runtime_id r <> id) rs
  | LocalUpdate _ update => forall r, gr_runtime_id (update r) = gr_runtime_id r
  end.

(** The changes of a run of operations, and the state they leave. *)
Fixpoint run_state (ops : list GossipOp) (s : GossipState) (id : RuntimeId) : GossipState * list RuntimeId :=
  match ops with
  | [] => (s, [])
  | op :: ops =>
      let '(s, changed) := state_op op s id in
      let '(s, changed') := run_state ops s id in (s, changed ++ changed')
  end.

Fixpoint run_table (ops : list GossipOp) (m : MeshMembership) : MeshMembership * list RuntimeId :=
  match ops with
  | [] => (m, [])
  | op :: ops =>
      let '(m, changed) := table_op op m in
      let '(m, changed') := run_table ops m in (m, changed ++ changed')
  end.

(** ** The two shapes *)

Definition records_of (m : MeshMembership) : gmap RuntimeId GossipRecord :=
  <[local_runtime_id m := local_record m]> (record <$> peers m).

Record agree (s : GossipState) (m : MeshMembership) : Prop := {
  agree_records : gs_records s = records_of m;
  agree_local : gr_runtime_id (local_record m) = local_runtime_id m;
  agree_others : peers m !! local_runtime_id m = None;
  agree_keys id p : peers m !! id = Some p -> gr_runtime_id (record p) = id;
}.

Lemma agree_new local : agree (GossipState_new local) (MeshMembership_new local).
Proof.
  split; simpl; [|done|apply lookup_empty|intros id p; by rewrite lookup_empty].
  unfold records_of. simpl. by rewrite fmap_empty.
Qed.

Lemma agree_put s m id p :
  agree s m -> id <> local_runtime_id m -> gr_runtime_id (record p) = id ->
  agree {| gs_records := <[id := record p]> (gs_records s) |} (set_peers (<[id := p]> (peers m)) m).
Proof.
  intros [Hr Hl Ho Hk] Hne Hid. split; simpl.
  - rewrite Hr. unfold records_of. simpl. rewrite fmap_insert. by apply insert_insert_ne.
  - done.
  - by rewrite lookup_insert_ne.
  - intros k q Hq. destruct (decide (id = k)) as [<-|Hn].
    + rewrite lookup_insert_eq in Hq. by injection Hq as <-.
    + rewrite lookup_insert_ne in Hq by done. by apply Hk.
Qed.

Lemma agree_record s m r :
  agree s m -> gr_runtime_id r <> local_runtime_id m ->
  let '(t, changed) := apply_record r (gs_records s) in
  let '(m', applied) := apply_gossip_record r m in
  agree {| gs_records := t |} m' /\ local_runtime_id m' = local_runtime_id m /\
  changed = if applied then [gr_runtime_id r] else [].
Proof.
  intros Ha Hne. unfold apply_record, apply_gossip_record. rewrite decide_False by done.
  assert (gs_records s !! gr_runtime_id r = record <$> peers m !! gr_runtime_id r) as ->.
  { rewrite (agree_records _ _ Ha). unfold records_of. by rewrite lookup_insert_ne, lookup_fmap by done. }
  destruct (peers m !! gr_runtime_id r) as [p|]; simpl.
  - destruct (version (record p) <? version r)%N eqn:E, (version r <=? version (record p))%N eqn:E'.
    + apply N.ltb_lt in E. apply N.leb_le in E'. lia.
    + split_and!; [|done..]. by apply (agree_put s m (gr_runtime_id r) {| record := r |}).
    + split_and!; [|done..]. by destruct s.
    + apply N.ltb_ge in E. apply N.leb_gt in E'. lia.
  - split_and!; [|done..]. by apply (agree_put s m (gr_runtime_id r) {| record := r |}).
Qed.

Lemma agree_deltas rs s m :
  agree s m -> Forall (fun r => gr_runtime_id r <> local_runtime_id m) rs ->
  let '(s', changed) := apply_delta rs s in
  let '(m', changed') := apply_gossip rs m in
  agree s' m' /\ local_runtime_id m' = local_runtime_id m /\ changed = changed'.
Proof.
  revert s m. induction rs as [|r rs IH]; intros s m Ha Hrs; [by destruct s|].
  apply Forall_cons in Hrs as [Hr Hrs]. pose proof (agree_record s m r Ha Hr) as Hstep.
  unfold apply_delta. cbn [apply_records apply_gossip]. destruct (apply_record r (gs_records s)) as [t ch], (apply_gossip_record r m) as [m1 ap].
  destruct Hstep as (Ha1 & Hl1 & ->). specialize (IH {| gs_records := t |} m1 Ha1). rewrite Hl1 in IH. specialize (IH Hrs).
  unfold apply_delta in IH. simpl in IH. destruct (apply_records rs t) as [t' ch'], (apply_gossip rs m1) as [m2 ch2].
  destruct IH as (Ha2 & Hl2 & ->). auto.
Qed.

Lemma agree_update s m now update :
  agree s m -> (forall r, gr_runtime_id (update r) = gr_runtime_id r) ->
  agree (gossip_update_local now (local_runtime_id m) update s).1 (update_local now update m).1.
Proof.
  intros Ha Hu. pose proof Ha as [Hr Hl Ho Hk]. unfold gossip_update_local.
  rewrite Hr. unfold records_of. rewrite lookup_insert_eq. simpl. split; simpl; [|by rewrite Hu|done|done].
  unfold records_of. simpl. by rewrite insert_insert_eq.
Qed.

Lemma agree_run ops s m :
  agree s m -> Forall (op_ok (local_runtime_id m)) ops ->
  let '(s', changed) := run_state ops s (local_runtime_id m) in
  let '(m', changed') := run_table ops m in
  agree s' m' /\ changed = changed'.
Proof.
  revert s m. induction ops as [|op ops IH]; intros s m Ha Hops; [done|].
  apply Forall_cons in Hops as [Hop Hops]. cbn [run_state run_table].
  assert (let '(s', ch) := state_op op s (local_runtime_id m) in let '(m', ch') := table_op op m in
    agree s' m' /\ local_runtime_id m' = local_runtime_id m /\ ch = ch') as Hstep.
  { destruct op as [rs|now update]; cbn [state_op table_op]; [by apply agree_deltas|].
    split_and!; [by apply agree_update|done..]. }
  destruct (state_op _ _ _) as [s1 c1], (table_op _ _) as [m1 c1']. destruct Hstep as (Ha1 & Hl1 & ->).
  specialize (IH s1 m1 Ha1). rewrite Hl1 in IH. specialize (IH Hops).
  destruct (run_state ops s1 _) as [s2 c2], (run_table ops m1) as [m2 c2']. destruct IH as [? ->]. done.
Qed.

(** The table ignores the records of its own runtime. *)
Lemma apply_gossip_record_id r m : local_runtime_id (apply_gossip_record r m).1 = local_runtime_id m.
Proof. unfold apply_gossip_record. by repeat case_match. Qed.

Lemma apply_gossip_others rs m :
  apply_gossip (filter (fun r => gr_runtime_id r <> local_runtime_id m) rs) m = apply_gossip rs m.
Proof.
  revert m. induction rs as [|r rs IH]; intros m; [done|]. rewrite filter_cons.
  pose proof (apply_gossip_record_id r m) as Hid. case_decide as Hr.
  - cbn [apply_gossip]. destruct (apply_gossip_record r m) as [m1 ap]. cbn [fst] in Hid. by rewrite <-Hid, IH.
  - rewrite IH. cbn [apply_gossip]. unfold apply_gossip_record. rewrite decide_True by exact Hr.
    by destruct (apply_gossip rs m).
Qed.

Lemma apply_gossip_id rs m : local_runtime_id (apply_gossip rs m).1 = local_runtime_id m.
Proof.
  revert m. induction rs as [|r rs IH]; intros m; [done|]. cbn [apply_gossip].
  pose proof (apply_gossip_record_id r m) as Hid. destruct (apply_gossip_record r m) as [m1 ap].
  specialize (IH m1). destruct (apply_gossip rs m1). cbn [fst] in *. congruence.
Qed.

Lemma table_op_id op m : local_runtime_id (table_op op m).1 = local_runtime_id m.
Proof. destruct op; [apply apply_gossip_id|done]. Qed.

Lemma run_table_id ops m : local_runtime_id (run_table ops m).1 = local_runtime_id m.
Proof.
  revert m. induction ops as [|op ops IH]; intros m; [done|]. cbn [run_table].
  pose proof (table_op_id op m) as Hid. destruct (table_op op m) as [m1 c1].
  specialize (IH m1). destruct (run_table ops m1). cbn [fst] in *. congruence.
Qed.

Lemma run_table_others ops m : run_table (others_only (local_runtime_id m) <$> ops) m = run_table ops m.
Proof.
  revert m. induction ops as [|op ops IH]; intros m; [done|]. cbn [fmap list_fmap run_table].
  assert (table_op (others_only (local_runtime_id m) op) m = table_op op m) as ->
    by (destruct op; [apply apply_gossip_others|done]).
  pose proof (table_op_id op m) as Hid. destruct (table_op op m) as [m1 c1]. cbn [fst] in Hid.
  rewrite <-Hid. by rewrite <-(IH m1).
Qed.

Lemma others_only_ok id ops : Forall keeps_owner ops -> Forall (op_ok id) (others_only id <$> ops).
Proof.
  intros Hops. apply Forall_fmap. eapply Forall_impl; [exact Hops|]. intros [rs|now update] Hop; [|done].
  apply Forall_forall. by intros r [? _]%list_elem_of_filter.
Qed.

(** ** The messages *)

Context `{!HexLaws} `{HashMapIter}.

Lemma key_hex_inj a b : to_hex a = to_hex b -> a = b.
Proof.
  unfold to_hex. intros E. assert (hex_decode (hex_encode a) = hex_decode (hex_encode b)) as E' by congruence.
  rewrite !hex_decode_encode in E'. congruence.
Qed.

#[local] Instance hex_le_trans {A} (key : A -> RuntimeId) : Transitive (hex_le key).
Proof. intros a b c. unfold hex_le. apply string_le_trans. Qed.
#[local] Instance hex_le_total {A} (key : A -> RuntimeId) : Total (hex_le key).
Proof. intros a b. unfold hex_le. apply string_le_total. Qed.

(** Sorting by distinct ids forgets the order of the table. *)
Lemma sort_by_hex_perm {A} (key : A -> RuntimeId) l l' :
  l ≡ₚ l' -> NoDup (key <$> l) -> sort_by_hex key l = sort_by_hex key l'.
Proof.
  intros Hl Hn. unfold sort_by_hex. apply (StronglySorted_unique_strong (hex_le key)).
  - intros x y Hx Hy Hxy Hyx. rewrite merge_sort_Permutation in Hx, Hy. rewrite <-Hl in Hy.
    assert (key x = key y) as Hk by (by apply key_hex_inj, (anti_symm string_le)).
    apply list_elem_of_lookup in Hx as [i Hi], Hy as [j Hj].
    assert (i = j) as ->; [|congruence].
    eapply NoDup_lookup; [exact Hn|by rewrite list_lookup_fmap, Hi|by rewrite list_lookup_fmap, Hj, Hk].
  - apply StronglySorted_merge_sort; apply _.
  - apply StronglySorted_merge_sort; apply _.
  - by rewrite !merge_sort_Permutation.
Qed.

(** The records both shapes tell of. *)
Lemma agree_permutation s m : agree s m -> all_records m ≡ₚ records s /\ NoDup (gr_runtime_id <$> all_records m).
Proof.
  intros [Hr Hl Ho Hk]. unfold all_records, records, peer_states.
  assert (records_of m = <[local_runtime_id m := local_record m]> (record <$> peers m)) as Hrs by done.
  assert (((record <$> (iter_entries (peers m)).*2) ++ [local_record m]) ≡ₚ (map_to_list (records_of m)).*2) as Hp.
  { rewrite Hrs, map_to_list_insert by (by rewrite lookup_fmap, Ho). simpl.
    rewrite map_to_list_fmap, <-Permutation_cons_append, iter_entries_perm.
    by rewrite <-!list_fmap_compose. }
  split; [by rewrite Hp, Hr, iter_entries_perm|]. rewrite Hp, <-list_fmap_compose.
  assert (gr_runtime_id ∘ snd <$> map_to_list (records_of m) = (map_to_list (records_of m)).*1) as ->;
    [|apply NoDup_fst_map_to_list].
  apply list_fmap_ext. intros i [id r] Hi%list_elem_of_lookup_2. apply elem_of_map_to_list in Hi. simpl.
  rewrite Hrs in Hi. destruct (decide (local_runtime_id m = id)) as [<-|Hne].
  - rewrite lookup_insert_eq in Hi. by injection Hi as <-.
  - rewrite lookup_insert_ne, lookup_fmap in Hi by done. apply fmap_Some in Hi as (p & Hp' & ->). by apply Hk.
Qed.

(** C38: whatever deltas and local updates that keep a record's owner it is fed, the membership
    table reports the same changes, tells the same digest, answers every digest with the same
    delta and holds the same records as the scuttlebutt state that is fed the same updates
    and the deltas without the records of the local runtime.  (Those the table ignores; the
    state would take a newer one, [own_record_differs].) *)
Theorem membership_refines_gossip local ops digest :
  Forall keeps_owner ops ->
  let '(s, changed) := run_state (others_only (gr_runtime_id local) <$> ops) (GossipState_new local) (gr_runtime_id local) in
  let '(m, changed') := run_table ops (MeshMembership_new local) in
  changed = changed' /\ membership_digest m = gossip_digest s /\
  membership_delta_for digest m = gossip_delta_for s digest /\
  forall id, gossip_get s id = if decide (id = gr_runtime_id local) then Some (local_record m)
                               else record <$> peers m !! id.
Proof.
  intros Hops. pose proof (agree_run _ _ _ (agree_new local) (others_only_ok (gr_runtime_id local) ops Hops)) as Hrun.
  pose proof (run_table_others ops (MeshMembership_new local)) as Ho. cbn [local_runtime_id MeshMembership_new] in Ho, Hrun.
  rewrite Ho in Hrun. clear Ho.
  assert (local_runtime_id (run_table ops (MeshMembership_new local)).1 = gr_runtime_id local) as Hid by apply run_table_id.
  destruct (run_state _ _ _) as [s changed], (run_table ops _) as [m changed']. destruct Hrun as [Ha ->].
  destruct (agree_permutation s m Ha) as [Hp Hn]. split; [done|]. split_and!.
  - unfold membership_digest, gossip_digest, digest_of. f_equal.
    apply sort_by_hex_perm; [by apply fmap_Permutation|by rewrite <-list_fmap_compose].
  - unfold membership_delta_for, gossip_delta_for, delta_of. f_equal.
    apply sort_by_hex_perm; [by rewrite Hp|].
    eapply sublist_NoDup; [exact Hn|]. apply fmap_sublist, sublist_filter.
  - intros id. unfold gossip_get. rewrite (agree_records _ _ Ha). unfold records_of. simpl in Hid. rewrite Hid.
    case_decide as E; [by rewrite E, lookup_insert_eq|]. by rewrite lookup_insert_ne, lookup_fmap by done.
Qed.
End equiv.
