(* ===== verification/MeshRuntime.v ===== *)
(** * The mesh runtime ([crates/buzz-relay-mesh/src/runtime.rs], [endpoint.rs], [peer.rs])

    The loops of a runtime: accepting and dialing peers, the control stream of a connection,
    gossip, and its boot ([buzz-relay/src/mesh_boot.rs]).  Each is a program of calls
    ([MeshCall]), a call being one critical section of a lock or one await of the endpoint, a
    connection, a stream or Redis.  A loop is the program of one round of it; [Running] is the
    point where the round of a spawned loop begins. *)

From S2P Require Import Prelude Text Nostr SessionDirectory MeshWire Gossip MeshRegistry MeshMembership Concurrent.

Definition ALPN : string := "buzz/mesh/1".
Definition CONTROL_QUEUE_DEPTH : nat := 64.

(** ** Connections *)

(** Socket addresses, and the check that 32 bytes are a public key. *)
Class MeshNet := {
  SocketAddr : Type;
  parse_socket_addr : string -> Result SocketAddr string;
  public_key_from_bytes : RuntimeId -> Result unit string;
}.

(** A QUIC connection, whose remote end is authenticated. *)
Record Connection := {
  cn_id : nat;
  cn_alpn : string;
  cn_remote_id : RuntimeId;
}.

Record MeshPeer := {
  mp_conn : nat;
  peer_runtime_id : RuntimeId;
}.

Definition from_connection (c : Connection) : Result MeshPeer MeshError :=
  if decide (cn_alpn c <> ALPN) then Err (TransportIo ("unexpected mesh ALPN " ++ cn_alpn c))
  else Ok {| mp_conn := cn_id c; peer_runtime_id := cn_remote_id c |}.

Record EndpointAddr `{MeshNet} := {
  ea_id : RuntimeId;
  ea_addr : SocketAddr;
}.

Definition direct_addr `{MeshNet} (runtime_id : RuntimeId) (addr : SocketAddr) : Result EndpointAddr MeshError :=
  let? _ := map_err TransportIo (public_key_from_bytes runtime_id) in
  Ok {| ea_id := runtime_id; ea_addr := addr |}.

(** The stream of a connection, as one end holds it. *)
Record StreamRef := {
  sr_conn : nat;
  sr_stream : nat;
}.

(** The writer queue of a control stream ([mpsc::Sender]). *)
Definition Channel := nat.

(** ** State *)

Inductive Loop :=
| AcceptLoop
| ReconcileLoop
| GossipTickLoop
| DatagramRecvLoop (peer : MeshPeer)
| StreamAcceptLoop (peer : MeshPeer)
| OpenControlStream (peer : MeshPeer) (rx : Channel)
| ControlExchange (remote : RuntimeId) (stream : StreamRef) (rx : Channel)
| ControlRecv (remote : RuntimeId) (stream : StreamRef)
| ControlSend (remote : RuntimeId) (stream : StreamRef) (rx : Channel).

Record PeerEntry := {
  pe_peer : MeshPeer;
  control_tx : option Channel;
  pe_tasks : list Loop;
}.

Definition with_control_tx (tx : Channel) (e : PeerEntry) : PeerEntry :=
  {| pe_peer := pe_peer e; control_tx := Some tx; pe_tasks := pe_tasks e |}.

(** [local.0 < remote.0]: the bytes in order. *)
Definition id_lt (a b : RuntimeId) : bool := bool_decide (String.compare a b = Lt).

Definition new_connection_wins (local remote : RuntimeId) (new_dialed_by_us : bool) : bool :=
  if id_lt local remote then new_dialed_by_us else negb new_dialed_by_us.

(** The critical section of [install_peer]: [None] keeps the existing connection.  [tx] is the
    queue a dialer makes. *)
Definition install_entry (local : RuntimeId) (peer : MeshPeer) (dialed_by_us : bool) (tx : Channel)
    (entries : gmap RuntimeId PeerEntry) : option (gmap RuntimeId PeerEntry * list Loop) :=
  let remote := peer_runtime_id peer in
  if bool_decide (is_Some (entries !! remote)) && negb (new_connection_wins local remote dialed_by_us)
  then None
  else
    let tasks := [DatagramRecvLoop peer; StreamAcceptLoop peer] ++
                 (if dialed_by_us then [OpenControlStream peer tx] else []) in
    let entry := {| pe_peer := peer; control_tx := if dialed_by_us then Some tx else None;
                    pe_tasks := tasks |} in
    Some (<[remote := entry]> entries, tasks).

(** ** Calls *)

Section runtime.
Context `{MeshNet}.

(** Every call but [Bind] is made by a runtime, named by its endpoint's id. *)
Inductive MeshCall : Type -> Type :=
| Redis {R} (c : RedisCall R) : MeshCall R
| Bind : MeshCall (Result RuntimeId MeshError)
| Start (n : RuntimeId) (m : MeshMembership) : MeshCall unit
| Clock : MeshCall SystemTime
| ShuttingDown (n : RuntimeId) : MeshCall bool
| Running (n : RuntimeId) (l : Loop) : MeshCall unit
| Spawn (n : RuntimeId) (l : Loop) : MeshCall unit
| NewChannel (n : RuntimeId) : MeshCall Channel
(* membership *)
| HasPeer (n id : RuntimeId) : MeshCall bool
| ApplyReady (n : RuntimeId) (ready : ReadyRecord) : MeshCall unit
| ApplyGossip (n : RuntimeId) (r : GossipRecord) : MeshCall bool
| PeerRecords (n : RuntimeId) : MeshCall (list GossipRecord)
| LocalRecord (n : RuntimeId) : MeshCall GossipRecord
| UpdateLocal (n : RuntimeId) (update : GossipRecord -> GossipRecord) : MeshCall GossipRecord
| StoreDraining (n : RuntimeId) : MeshCall unit
| MarkState (n id : RuntimeId) (s : ConnectionState) : MeshCall unit
| Count (n : RuntimeId) (k : PeerCounter) (id : RuntimeId) : MeshCall unit
(* peers *)
| Contains (n id : RuntimeId) : MeshCall bool
| GetPeer (n id : RuntimeId) : MeshCall (option MeshPeer)
| Install (n : RuntimeId) (peer : MeshPeer) (dialed_by_us : bool) : MeshCall bool
| Remove (n id : RuntimeId) : MeshCall bool
| SetControlTx (n id : RuntimeId) (tx : Channel) : MeshCall unit
| DrainPeers (n : RuntimeId) : MeshCall unit
| ControlTargets (n : RuntimeId) : MeshCall (list RuntimeId)
| SendControl (n id : RuntimeId) (frame : MeshStreamFrame) : MeshCall unit
(* endpoint and connections *)
| EndpointConnect (n : RuntimeId) (addr : EndpointAddr) : MeshCall (Result Connection string)
| EndpointAccept (n : RuntimeId) : MeshCall (Result (option Connection) string)
| OpenBi (n : RuntimeId) (peer : MeshPeer) : MeshCall (Result StreamRef MeshError)
| AcceptBi (n : RuntimeId) (peer : MeshPeer) : MeshCall (Result StreamRef MeshError)
| SendFrame (n : RuntimeId) (s : StreamRef) (frame : MeshStreamFrame) : MeshCall (Result unit MeshError)
| RecvFrame (n : RuntimeId) (s : StreamRef) : MeshCall (Result (option MeshStreamFrame) MeshError)
| RecvQueue (n : RuntimeId) (rx : Channel) : MeshCall (option MeshStreamFrame)
| PeerSendDatagram (n : RuntimeId) (peer : MeshPeer) (d : MeshDatagram) : MeshCall (Result unit MeshError)
| RecvDatagram (n : RuntimeId) (peer : MeshPeer) : MeshCall (Result MeshDatagram MeshError)
| InboundHandler (n : RuntimeId) : MeshCall bool
| OnDatagram (n from : RuntimeId) (d : MeshDatagram) : MeshCall unit
| OnSessionStream (n from : RuntimeId) (hello : StreamHello) (s : StreamRef) : MeshCall unit
| DrainHuddles (n : RuntimeId) : MeshCall unit.

#[export] Instance mesh_redis : HasRedis MeshCall := @Redis.

Definition MeshProg := Prog MeshCall.

Notation call c := (Concurrent.call (Call := MeshCall) c).

(** [for x in l { f(x) }] *)
Fixpoint for_each {A} (f : A -> MeshProg unit) (l : list A) : MeshProg unit :=
  match l with
  | [] => Ret tt
  | x :: l => let! _ := f x in for_each f l
  end.

(** ** Membership operations of more than one critical section *)

Definition apply_ready (n : RuntimeId) (rs : list ReadyRecord) : MeshProg unit :=
  for_each (fun ready => call (ApplyReady n ready)) rs.

Definition membership_records (n : RuntimeId) : MeshProg (list GossipRecord) :=
  let! rs := call (PeerRecords n) in
  let! local := call (LocalRecord n) in
  Ret (rs ++ [local]).

Definition drain (n : RuntimeId) : MeshProg unit :=
  let! _ := call (StoreDraining n) in
  let! _ := call (UpdateLocal n set_draining) in
  Ret tt.

Context `{Hex}.

Definition membership_digest_now (n : RuntimeId) : MeshProg GossipMessage :=
  let! rs := membership_records n in Ret (digest_of rs).

Definition membership_delta_now (n : RuntimeId) (digest : list GossipDigestEntry) : MeshProg GossipMessage :=
  let! rs := membership_records n in Ret (delta_of rs digest).

(** ** Peers *)

Definition install_peer (n : RuntimeId) (peer : MeshPeer) (dialed_by_us : bool) : MeshProg bool :=
  let! installed := call (Install n peer dialed_by_us) in
  if installed then
    let! _ := call (MarkState n (peer_runtime_id peer) Connected) in Ret true
  else Ret false.

Definition remove_peer (n runtime_id : RuntimeId) : MeshProg unit :=
  let! removed := call (Remove n runtime_id) in
  if removed then call (MarkState n runtime_id Disconnected) else Ret tt.

Definition endpoint_connect (n : RuntimeId) (addr : EndpointAddr) : MeshProg (Result MeshPeer MeshError) :=
  let!? c := map_err_await TransportIo (call (EndpointConnect n addr)) in
  Ret (from_connection c).

Definition endpoint_accept (n : RuntimeId) : MeshProg (Result (option MeshPeer) MeshError) :=
  let!? c := map_err_await TransportIo (call (EndpointAccept n)) in
  match c with
  | None => Ret (Ok None)
  | Some c => let!? peer := Ret (from_connection c) in Ret (Ok (Some peer))
  end.

(** The rest of the loop of [dial_peer], from [addrs]. *)
Fixpoint dial_addrs (n : RuntimeId) (record : GossipRecord) (addrs : list string) : MeshProg unit :=
  match addrs with
  | [] => call (MarkState n (gr_runtime_id record) Disconnected)
  | addr :: addrs =>
      match parse_socket_addr addr with
      | Err _ => dial_addrs n record addrs
      | Ok sock =>
          match direct_addr (gr_runtime_id record) sock with
          | Err _ => Ret tt
          | Ok addr =>
              let! _ := call (MarkState n (gr_runtime_id record) Connecting) in
              let! r := endpoint_connect n addr in
              match r with
              | Ok peer => let! _ := install_peer n peer true in Ret tt
              | Err _ => dial_addrs n record addrs
              end
          end
      end
  end.

Definition dial_peer (n : RuntimeId) (record : GossipRecord) : MeshProg unit :=
  dial_addrs n record (endpoint_addrs record).

Context `{RelayKeys} `{ReadySerde}.

(** A runtime and its registry, if it has one; [fuel] bounds the rounds of a scan. *)
Definition rescan (fuel : nat) (registry : bool) (n : RuntimeId) : MeshProg unit :=
  if registry then
    let! r := scan_ready fuel in
    match r with
    | Ok rs => apply_ready n rs
    | Err _ => Ret tt
    end
  else Ret tt.

Definition is_known_peer (fuel : nat) (registry : bool) (n id : RuntimeId) : MeshProg bool :=
  let! known := call (HasPeer n id) in
  if known then Ret true
  else
    let! _ := rescan fuel registry n in
    call (HasPeer n id).

Definition candidates (local : RuntimeId) (rs : list GossipRecord) : list GossipRecord :=
  List.filter (fun r => negb (bool_decide (gr_runtime_id r = local)) && negb (draining r)) rs.

Definition dial_candidate (n : RuntimeId) (record : GossipRecord) : MeshProg unit :=
  let! already_connected := call (Contains n (gr_runtime_id record)) in
  if already_connected then Ret tt else dial_peer n record.

Definition reconcile_once (fuel : nat) (registry : bool) (n : RuntimeId) : MeshProg unit :=
  let! _ := rescan fuel registry n in
  let! rs := membership_records n in
  for_each (dial_candidate n) (candidates n rs).

(** ** Loops *)

Definition accept_round (fuel : nat) (registry : bool) (n : RuntimeId) : MeshProg unit :=
  let! r := endpoint_accept n in
  match r with
  | Ok (Some peer) =>
      let! known := is_known_peer fuel registry n (peer_runtime_id peer) in
      if known then let! _ := install_peer n peer false in Ret tt else Ret tt
  | Ok None | Err _ => Ret tt
  end.

Definition datagram_round (n : RuntimeId) (peer : MeshPeer) : MeshProg unit :=
  let remote := peer_runtime_id peer in
  let! r := call (RecvDatagram n peer) in
  match r with
  | Ok dgram =>
      let! _ := call (Count n DatagramReceived remote) in
      let! handler := call (InboundHandler n) in
      if handler then call (OnDatagram n remote dgram) else Ret tt
  | Err _ => remove_peer n remote
  end.

Definition stream_round (n : RuntimeId) (peer : MeshPeer) : MeshProg unit :=
  let remote := peer_runtime_id peer in
  let! r := call (AcceptBi n peer) in
  match r with
  | Err _ => remove_peer n remote
  | Ok stream =>
      let! first := call (RecvFrame n stream) in
      match first with
      | Ok (Some (Hello hello)) =>
          match hello_role hello with
          | Control =>
              let! tx := call (NewChannel n) in
              let! _ := call (SetControlTx n remote tx) in
              call (Spawn n (ControlExchange remote stream tx))
          | Session _ _ =>
              let! _ := call (Count n StreamReceived remote) in
              let! handler := call (InboundHandler n) in
              if handler then call (OnSessionStream n remote hello stream) else Ret tt
          end
      | _ => Ret tt
      end
  end.

(** [control_stream_exchange] up to its loop: the send task and the receive loop. *)
Definition control_stream_exchange (n remote : RuntimeId) (stream : StreamRef) (rx : Channel) : MeshProg unit :=
  let! _ := call (Spawn n (ControlSend remote stream rx)) in
  call (Spawn n (ControlRecv remote stream)).

Definition open_control_stream (n : RuntimeId) (peer : MeshPeer) (rx : Channel) : MeshProg unit :=
  let remote := peer_runtime_id peer in
  let! r := call (OpenBi n peer) in
  match r with
  | Err _ => Ret tt
  | Ok stream =>
      let! r := call (SendFrame n stream (Hello {| sender := n; hello_role := Control |})) in
      match r with
      | Err _ => Ret tt
      | Ok _ => control_stream_exchange n remote stream rx
      end
  end.

(** One round of [send_task]. *)
Definition send_round (n remote : RuntimeId) (stream : StreamRef) (rx : Channel) : MeshProg unit :=
  let! frame := call (RecvQueue n rx) in
  match frame with
  | None => Ret tt
  | Some frame =>
      let! r := call (SendFrame n stream frame) in
      match r with
      | Err _ => Ret tt
      | Ok _ => call (Count n GossipFrameSent remote)
      end
  end.

Context `{Postcard GossipMessage}.

(** The answer to a gossip payload. *)
Definition on_gossip (n remote : RuntimeId) (payload : Bytes) : MeshProg unit :=
  match decode_message payload with
  | Ok (Digest _ entries) =>
      let! delta := membership_delta_now n entries in
      match encode_message delta with
      | Ok payload => call (SendControl n remote (MeshWire.Gossip payload))
      | Err _ => Ret tt
      end
  | Ok (Delta _ records) => for_each (fun r => let! _ := call (ApplyGossip n r) in Ret tt) records
  | Err _ => Ret tt
  end.

(** One round of the receive loop. *)
Definition recv_round (n remote : RuntimeId) (stream : StreamRef) : MeshProg unit :=
  let! r := call (RecvFrame n stream) in
  match r with
  | Ok (Some (MeshWire.Gossip payload)) =>
      let! _ := call (Count n GossipFrameReceived remote) in
      on_gossip n remote payload
  | Ok (Some _) | Ok None | Err _ => Ret tt
  end.

Definition gossip_tick (n : RuntimeId) : MeshProg unit :=
  let! _ := call (UpdateLocal n (fun r => r)) in
  let! digest := membership_digest_now n in
  match encode_message digest with
  | Err _ => Ret tt
  | Ok payload =>
      let! targets := call (ControlTargets n) in
      for_each (fun remote => call (SendControl n remote (MeshWire.Gossip payload))) targets
  end.

Definition round (fuel : nat) (registry : bool) (n : RuntimeId) (l : Loop) : MeshProg unit :=
  match l with
  | AcceptLoop => accept_round fuel registry n
  | ReconcileLoop => reconcile_once fuel registry n
  | GossipTickLoop => gossip_tick n
  | DatagramRecvLoop peer => datagram_round n peer
  | StreamAcceptLoop peer => stream_round n peer
  | OpenControlStream peer rx => open_control_stream n peer rx
  | ControlExchange remote stream rx => control_stream_exchange n remote stream rx
  | ControlRecv remote stream => recv_round n remote stream
  | ControlSend remote stream rx => send_round n remote stream rx
  end.

(** ** [RelayPeerTransport] *)

Definition send_datagram (n to : RuntimeId) (dgram : MeshDatagram) : MeshProg (Result unit MeshError) :=
  let! peer := call (GetPeer n to) in
  match peer with
  | None => Ret (Err (PeerNotConnected to))
  | Some peer =>
      let!? _ := call (PeerSendDatagram n peer dgram) in
      let! _ := call (Count n DatagramSent to) in
      Ret (Ok tt)
  end.

Definition open_session_stream (n to : RuntimeId) (hello : StreamHello) : MeshProg (Result StreamRef MeshError) :=
  let! peer := call (GetPeer n to) in
  match peer with
  | None => Ret (Err (PeerNotConnected to))
  | Some peer =>
      let!? stream := call (OpenBi n peer) in
      let!? _ := call (SendFrame n stream (Hello hello)) in
      let! _ := call (Count n StreamOpened to) in
      Ret (Ok stream)
  end.

(** ** Boot *)

Definition PROTO_VERSION : N := WIRE_VERSION.

Definition mesh_capabilities : list string := ["reliable-stream"; "realtime-media"; "huddle-control"].

(** [boot_mesh] once the endpoint is bound and its addresses are chosen, up to the first
    reconciliation; the heartbeat and the drain watcher are tasks of their own. *)
Definition boot_mesh (fuel : nat) (enabled : bool) (refresh : Duration) (relay_keypair : Keys)
    (addrs : list string) : MeshProg (Result (option RuntimeId) MeshError) :=
  if negb enabled then Ret (Ok None) else
  let!? runtime_id := call Bind in
  let! now := call Clock in
  let local_record := set_capabilities mesh_capabilities
                        (GossipRecord_new now runtime_id addrs PROTO_VERSION) in
  let membership := with_expected_relay_pubkey (pubkey_to_hex (public_key relay_keypair))
                      (MeshMembership_new local_record) in
  let registry := {| refresh := refresh |} in
  let ready_record := ReadyRecord_new runtime_id relay_keypair addrs PROTO_VERSION mesh_capabilities in
  let!? _ := publish_ready registry ready_record in
  let! _ := call (Start runtime_id membership) in
  let! _ := call (Spawn runtime_id AcceptLoop) in
  let! _ := call (Spawn runtime_id ReconcileLoop) in
  let! _ := call (Spawn runtime_id GossipTickLoop) in
  let! _ := reconcile_once fuel true runtime_id in
  Ret (Ok (Some runtime_id)).

(** [MeshRuntime::shutdown]; the loops it aborts are rounds that are not run any more. *)
Definition shutdown (n : RuntimeId) : MeshProg unit := call (DrainPeers n).

(** One round of the drain watcher; the huddles are drained by their owner registry. *)
Definition drain_watch (n : RuntimeId) : MeshProg unit :=
  let! shutting_down := call (ShuttingDown n) in
  if shutting_down then
    let! _ := drain n in call (DrainHuddles n)
  else Ret tt.

(** One round of the registry heartbeat. *)
Definition heartbeat_round (h : ReadyHeartbeat) : MeshProg (ReadyHeartbeat * Result unit MeshError) :=
  let! shutting_down := call (ShuttingDown (rr_runtime_id (hb_record h))) in
  tick (negb shutting_down) h.
End runtime.
