(* ===== verification/MeshWorld.v ===== *)
(** * A mesh of runtimes

    The world the programs of [MeshRuntime] run in: the runtimes of a deployment, their
    connections, streams and writer queues, and the records each runtime has published.
    Redis answers anything; so does an endpoint that is not of the deployment, which may dial
    any runtime and send it any frame.  [genuine] are the endpoint ids the deployment's
    runtimes were bound to. *)

From S2P Require Import Prelude Text Nostr SessionDirectory MeshWire Gossip MeshRegistry MeshMembership Concurrent MeshRuntime.

Record Node := {
  nd_membership : MeshMembership;
  nd_peers : gmap RuntimeId PeerEntry;
}.

(** A stream with the frames under way from its opener and to it. *)
Record Stream := {
  st_conn : nat;
  st_opener : RuntimeId;
  st_out : list MeshStreamFrame;
  st_back : list MeshStreamFrame;
}.

(** [w_conns] are pairs of dialer and acceptor; [w_history] are the local records of a bound
    runtime, the latest last. *)
Record World := {
  w_nodes : gmap RuntimeId Node;
  w_history : gmap RuntimeId (list GossipRecord);
  w_conns : list (RuntimeId * RuntimeId);
  w_streams : list Stream;
  w_channels : list (list MeshStreamFrame);
  w_spawned : list (RuntimeId * Loop);
}.

Definition empty_mesh : World :=
  {| w_nodes := ∅; w_history := ∅; w_conns := []; w_streams := []; w_channels := []; w_spawned := [] |}.

Definition put_node (n : RuntimeId) (nd : Node) (w : World) : World :=
  {| w_nodes := <[n := nd]> (w_nodes w); w_history := w_history w; w_conns := w_conns w;
     w_streams := w_streams w; w_channels := w_channels w; w_spawned := w_spawned w |}.

Definition put_membership (n : RuntimeId) (nd : Node) (m : MeshMembership) (w : World) : World :=
  put_node n {| nd_membership := m; nd_peers := nd_peers nd |} w.

Definition put_peers (n : RuntimeId) (nd : Node) (es : gmap RuntimeId PeerEntry) (w : World) : World :=
  put_node n {| nd_membership := nd_membership nd; nd_peers := es |} w.

Definition put_history (n : RuntimeId) (h : list GossipRecord) (w : World) : World :=
  {| w_nodes := w_nodes w; w_history := <[n := h]> (w_history w); w_conns := w_conns w;
     w_streams := w_streams w; w_channels := w_channels w; w_spawned := w_spawned w |}.

Definition set_conns (l : list (RuntimeId * RuntimeId)) (w : World) : World :=
  {| w_nodes := w_nodes w; w_history := w_history w; w_conns := l;
     w_streams := w_streams w; w_channels := w_channels w; w_spawned := w_spawned w |}.

Definition set_streams (l : list Stream) (w : World) : World :=
  {| w_nodes := w_nodes w; w_history := w_history w; w_conns := w_conns w;
     w_streams := l; w_channels := w_channels w; w_spawned := w_spawned w |}.

Definition set_channels (l : list (list MeshStreamFrame)) (w : World) : World :=
  {| w_nodes := w_nodes w; w_history := w_history w; w_conns := w_conns w;
     w_streams := w_streams w; w_channels := l; w_spawned := w_spawned w |}.

Definition spawn_all (n : RuntimeId) (ls : list Loop) (w : World) : World :=
  {| w_nodes := w_nodes w; w_history := w_history w; w_conns := w_conns w;
     w_streams := w_streams w; w_channels := w_channels w;
     w_spawned := w_spawned w ++ ((fun l => (n, l)) <$> ls) |}.

(** The other end of a connection. *)
Definition other_end (n : RuntimeId) (c : RuntimeId * RuntimeId) : RuntimeId :=
  if decide (c.1 = n) then c.2 else c.1.

Definition remote_of (w : World) (n : RuntimeId) (s : StreamRef) : option RuntimeId :=
  other_end n <$> w_conns w !! sr_conn s.

(** A frame added by end [n] of a stream, and the frames that end is still to read. *)
Definition push_frame (n : RuntimeId) (f : MeshStreamFrame) (s : Stream) : Stream :=
  if decide (st_opener s = n)
  then {| st_conn := st_conn s; st_opener := st_opener s; st_out := st_out s ++ [f]; st_back := st_back s |}
  else {| st_conn := st_conn s; st_opener := st_opener s; st_out := st_out s; st_back := st_back s ++ [f] |}.

Definition incoming (n : RuntimeId) (s : Stream) : list MeshStreamFrame :=
  if decide (st_opener s = n) then st_back s else st_out s.

Definition drop_frame (n : RuntimeId) (s : Stream) : Stream :=
  if decide (st_opener s = n)
  then {| st_conn := st_conn s; st_opener := st_opener s; st_out := st_out s; st_back := tail (st_back s) |}
  else {| st_conn := st_conn s; st_opener := st_opener s; st_out := tail (st_out s); st_back := st_back s |}.

Section answers.
Context `{MeshNet} `{Hex} `{HashMapIter} `{RelayKeys}.
Context (genuine : RuntimeId -> Prop).

Definition failed {A E} (r : Result A E) : Prop := exists e, r = Err e.

(** A call of runtime [n] that replaces its membership table. *)
Definition on_membership {R} (n : RuntimeId) (w w' : World) (r : R)
    (f : MeshMembership -> MeshMembership -> R -> Prop) : Prop :=
  exists nd m', w_nodes w !! n = Some nd /\ f (nd_membership nd) m' r /\ w' = put_membership n nd m' w.

Definition reads {R} (n : RuntimeId) (w w' : World) (f : Node -> R -> Prop) (r : R) : Prop :=
  exists nd, w_nodes w !! n = Some nd /\ f nd r /\ w' = w.

Definition fresh_conn (n : RuntimeId) (d : RuntimeId * RuntimeId) (w w' : World) (c : Connection) : Prop :=
  cn_id c = length (w_conns w) /\ cn_remote_id c = other_end n d /\ w' = set_conns (w_conns w ++ [d]) w.

Definition fresh_stream (peer : MeshPeer) (opener : RuntimeId) (w w' : World) (s : StreamRef) : Prop :=
  s = {| sr_conn := mp_conn peer; sr_stream := length (w_streams w) |} /\
  w' = set_streams (w_streams w ++ [{| st_conn := mp_conn peer; st_opener := opener; st_out := []; st_back := [] |}]) w.

Definition sent (n : RuntimeId) (s : StreamRef) (f : MeshStreamFrame) (w w' : World) : Prop :=
  exists st, w_streams w !! sr_stream s = Some st /\
    w' = set_streams (<[sr_stream s := push_frame n f st]> (w_streams w)) w.

Definition received (n : RuntimeId) (s : StreamRef) (f : MeshStreamFrame) (w w' : World) : Prop :=
  exists st rest, w_streams w !! sr_stream s = Some st /\ incoming n st = f :: rest /\
    w' = set_streams (<[sr_stream s := drop_frame n st]> (w_streams w)) w.

Definition mesh_answer (R : Type) (c : MeshCall R) (w w' : World) : R -> Prop :=
  match c in MeshCall R return R -> Prop with
  | Redis _ | Clock | ShuttingDown _ => fun _ => w' = w
  | Bind => fun r => failed r /\ w' = w \/
      exists n, r = Ok n /\ genuine n /\ w_history w !! n = None /\ w' = put_history n [] w
  | Start n m => fun _ =>
      w_nodes w !! n = None /\ w_history w !! n = Some [] /\
      w' = put_history n [local_record m] (put_node n {| nd_membership := m; nd_peers := ∅ |} w)
  | Running n l => fun _ => (n, l) ∈ w_spawned w /\ w' = w
  | Spawn n l => fun _ => w' = spawn_all n [l] w
  | NewChannel n => fun r => r = length (w_channels w) /\ w' = set_channels (w_channels w ++ [[]]) w
  | HasPeer n id => reads n w w' (fun nd r => r = has_peer id (nd_membership nd))
  | ApplyReady n ready => fun r => exists now,
      on_membership n w w' r (fun m m' _ => m' = apply_ready_record now ready m)
  | ApplyGossip n record => fun r =>
      on_membership n w w' r (fun m m' r => (m', r) = apply_gossip_record record m)
  | PeerRecords n => reads n w w' (fun nd r => r = record <$> peer_states (nd_membership nd))
  | LocalRecord n => reads n w w' (fun nd r => r = local_record (nd_membership nd))
  | UpdateLocal n update => fun r => exists nd now h,
      w_nodes w !! n = Some nd /\ w_history w !! n = Some h /\
      (let '(m', local) := update_local now update (nd_membership nd) in
       r = local /\ w' = put_history n (h ++ [local]) (put_membership n nd m' w))
  | StoreDraining n => fun r => on_membership n w w' r (fun m m' _ => m' = store_draining m)
  | MarkState n id s => fun r => on_membership n w w' r (fun m m' _ => m' = mark_connection_state id s m)
  | Count n k id => fun r => on_membership n w w' r (fun m m' _ => m' = record_count k id m)
  | Contains n id => reads n w w' (fun nd r => r = bool_decide (is_Some (nd_peers nd !! id)))
  | GetPeer n id => reads n w w' (fun nd r => r = pe_peer <$> nd_peers nd !! id)
  | Install n peer dialed_by_us => fun r => exists nd,
      w_nodes w !! n = Some nd /\
      match install_entry n peer dialed_by_us (length (w_channels w)) (nd_peers nd) with
      | None => r = false /\ w' = w
      | Some (es, tasks) => r = true /\
          w' = spawn_all n tasks (set_channels (w_channels w ++ [[]]) (put_peers n nd es w))
      end
  | Remove n id => fun r => exists nd, w_nodes w !! n = Some nd /\
      r = bool_decide (is_Some (nd_peers nd !! id)) /\ w' = put_peers n nd (delete id (nd_peers nd)) w
  | SetControlTx n id tx => fun _ => exists nd, w_nodes w !! n = Some nd /\
      w' = put_peers n nd (alter (with_control_tx tx) id (nd_peers nd)) w
  | DrainPeers n => fun _ => exists nd, w_nodes w !! n = Some nd /\ w' = put_peers n nd ∅ w
  | ControlTargets n => reads n w w' (fun nd r =>
      r = (filter (fun e => is_Some (control_tx e.2)) (iter_entries (nd_peers nd))).*1)
  | SendControl n id frame => fun _ => exists nd, w_nodes w !! n = Some nd /\
      (w' = w \/ exists tx q, nd_peers nd !! id ≫= control_tx = Some tx /\ w_channels w !! tx = Some q /\
         length q < CONTROL_QUEUE_DEPTH /\ w' = set_channels (<[tx := q ++ [frame]]> (w_channels w)) w)
  | EndpointConnect n addr => fun r => failed r /\ w' = w \/
      exists c, r = Ok c /\ fresh_conn n (n, ea_id addr) w w' c
  | EndpointAccept n => fun r => (failed r \/ r = Ok None) /\ w' = w \/
      exists c, r = Ok (Some c) /\
        (w_conns w !! cn_id c = Some (cn_remote_id c, n) /\ w' = w \/
         ~ genuine (cn_remote_id c) /\ fresh_conn n (cn_remote_id c, n) w w' c)
  | OpenBi n peer => fun r => failed r /\ w' = w \/ exists s, r = Ok s /\ fresh_stream peer n w w' s
  | AcceptBi n peer => fun r => failed r /\ w' = w \/
      exists s, r = Ok s /\
        (sr_conn s = mp_conn peer /\ (st_conn <$> w_streams w !! sr_stream s = Some (mp_conn peer)) /\ w' = w \/
         ~ genuine (peer_runtime_id peer) /\ fresh_stream peer (peer_runtime_id peer) w w' s)
  | SendFrame n s frame => fun r => failed r /\ w' = w \/ sent n s frame w w'
  | RecvFrame n s => fun r =>
      (failed r \/ r = Ok None \/ exists remote, remote_of w n s = Some remote /\ ~ genuine remote) /\ w' = w \/
      exists f, r = Ok (Some f) /\ received n s f w w'
  | RecvQueue n rx => fun r => r = None /\ w' = w \/
      exists f q, r = Some f /\ w_channels w !! rx = Some (f :: q) /\
        w' = set_channels (<[rx := q]> (w_channels w)) w
  | PeerSendDatagram _ _ _ => fun _ => w' = w
  | RecvDatagram _ _ => fun _ => w' = w
  | InboundHandler _ => fun _ => w' = w
  | OnDatagram _ _ _ | OnSessionStream _ _ _ _ | DrainHuddles _ => fun _ => w' = w
  end.
End answers.
