(* ===== verification/MeshDial.v ===== *)
(** * Which connection a pair of runtimes keeps

    The tie-break of [install_peer] over any sequence of connections to one peer, the
    agreement of both ends, and how a loop of a replaced connection removes its successor. *)

From S2P Require Import Prelude Text Nostr SessionDirectory MeshWire Gossip MeshRegistry MeshMembership Concurrent MeshRuntime MeshWorld.

(** A connection a runtime installs: the peer, whether it was dialed, the queue made for it. *)
Notation Arrival := (MeshPeer * bool * Channel)%type.

(** The peers after the arrivals, in their order. *)
Fixpoint installs (local : RuntimeId) (l : list Arrival) (es : gmap RuntimeId PeerEntry)
    : gmap RuntimeId PeerEntry :=
  match l with
  | [] => es
  | (peer, dialed, tx) :: l =>
      installs local l
        match install_entry local peer dialed tx es with
        | None => es
        | Some (es, _) => es
        end
  end.

(** The entry of an arrival. *)
Definition entry_of (a : Arrival) : PeerEntry :=
  let '(peer, dialed, tx) := a in
  {| pe_peer := peer; control_tx := if dialed then Some tx else None;
     pe_tasks := [DatagramRecvLoop peer; StreamAcceptLoop peer] ++
                 (if dialed then [OpenControlStream peer tx] else []) |}.

(** The arrivals dialed by the smaller id of the two. *)
Definition canonical (local remote : RuntimeId) (a : Arrival) : Prop :=
  new_connection_wins local remote a.1.2 = true.
#[export] Instance canonical_dec local remote a : Decision (canonical local remote a).
Proof. unfold canonical. apply _. Defined.

(** What [remote]'s entry is to be: its last canonical arrival, else what was there, else the
    first arrival. *)
Definition kept (local remote : RuntimeId) (e : option PeerEntry) (l : list Arrival) : option PeerEntry :=
  match last (filter (canonical local remote) l) with
  | Some a => Some (entry_of a)
  | None => match e with Some e => Some e | None => entry_of <$> head l end
  end.

Lemma install_entry_lookup local remote a es :
  peer_runtime_id a.1.1 = remote ->
  (match install_entry local a.1.1 a.1.2 a.2 es with None => es | Some (es, _) => es end) !! remote =
  if decide (canonical local remote a) then Some (entry_of a)
  else match es !! remote with Some e => Some e | None => Some (entry_of a) end.
Proof.
  destruct a as [[peer dialed] tx]. simpl. intros <-. unfold install_entry.
  case_decide as Hc; unfold canonical in Hc; simpl in Hc.
  - rewrite Hc, andb_false_r. by rewrite lookup_insert_eq.
  - apply not_true_is_false in Hc. rewrite Hc, andb_true_r.
    destruct (es !! peer_runtime_id peer) as [e|] eqn:He; simpl; [done|]. by rewrite lookup_insert_eq.
Qed.

Lemma installs_kept local remote l es :
  Forall (fun a => peer_runtime_id a.1.1 = remote) l ->
  installs local l es !! remote = kept local remote (es !! remote) l.
Proof.
  intros Hl. revert es. induction Hl as [|[[peer dialed] tx] l Ha _ IH]; intros es; simpl; [by destruct (es !! remote)|].
  rewrite IH. pose proof (install_entry_lookup local remote (peer, dialed, tx) es Ha) as Hlk. simpl in Hlk.
  rewrite Hlk. unfold kept. rewrite filter_cons. case_decide as Hc.
  - destruct (filter (canonical local remote) l) as [|b l'] eqn:E; [done|]. rewrite last_cons_cons.
    destruct (last (b :: l')) eqn:El; [done|]. by apply last_None in El.
  - destruct (last (filter (canonical local remote) l)); [done|]. by destruct (es !! remote).
Qed.

(** The arrivals of connections [cs] at the end [local]. *)
Definition arrivals (dialer : nat -> RuntimeId) (tx : nat -> Channel) (local remote : RuntimeId) (cs : list nat)
    : list Arrival :=
  (fun c => ({| mp_conn := c; peer_runtime_id := remote |}, bool_decide (dialer c = local), tx c)) <$> cs.

Lemma id_lt_antisym a b : id_lt a b = true -> id_lt b a = false.
Proof.
  unfold id_lt. rewrite bool_decide_eq_true, bool_decide_eq_false. intros Hab Hba.
  rewrite String.compare_antisym, Hab in Hba. done.
Qed.

Lemma last_unique {A} (P : A -> Prop) `{!forall x, Decision (P x)} l a :
  a ∈ l -> P a -> (forall b, b ∈ l -> P b -> b = a) -> last (filter P l) = Some a.
Proof.
  intros Hin Ha Hu. destruct (last (filter P l)) as [b|] eqn:E.
  - f_equal. assert (b ∈ filter P l) as Hb by (by apply last_Some_elem_of).
    apply list_elem_of_filter in Hb as [? ?]. auto.
  - apply last_None in E. assert (a ∈ filter P l) as Hf by (by apply list_elem_of_filter).
    rewrite E in Hf. by apply elem_of_nil in Hf.
Qed.

(** C36: with any number of connections to a peer, a runtime keeps the last one the smaller id
    dialed, else the first it installed; so two runtimes that dial each other end with the
    connection the smaller one dialed, in whatever order each end sees the connections, and
    the dialer with the queue of its control stream. *)
Theorem simultaneous_dial_converges small large dialer tx tx' cs cs' c :
  (forall local remote l es, Forall (fun a => peer_runtime_id a.1.1 = remote) l ->
     installs local l es !! remote = kept local remote (es !! remote) l) /\
  (id_lt small large = true -> cs ≡ₚ cs' ->
   c ∈ cs -> (forall c', c' ∈ cs -> (dialer c' = small <-> c' = c) /\ (dialer c' = small \/ dialer c' = large)) ->
   let ours := installs small (arrivals dialer tx small large cs) ∅ !! large in
   let theirs := installs large (arrivals dialer tx' large small cs') ∅ !! small in
   mp_conn ∘ pe_peer <$> ours = Some c /\ mp_conn ∘ pe_peer <$> theirs = Some c /\
   (ours ≫= control_tx = Some (tx c)) /\ (theirs ≫= control_tx = None)).
Proof.
  split; [intros; by apply installs_kept|]. intros Hlt Hcs Hc Hd ours theirs.
  assert (small <> large) as Hne by (intros ->; pose proof (id_lt_antisym _ _ Hlt); congruence).
  assert (dialer c = small) as Hdc by (by apply (Hd c Hc)).
  assert (ours = Some (entry_of ({| mp_conn := c; peer_runtime_id := large |}, true, tx c))) as ->.
  { unfold ours. rewrite installs_kept; [|apply Forall_fmap, Forall_true; done]. unfold kept.
    rewrite (last_unique _ _ ({| mp_conn := c; peer_runtime_id := large |}, true, tx c)); [done|..].
    - apply list_elem_of_fmap. exists c. split; [by rewrite bool_decide_eq_true_2|done].
    - unfold canonical, new_connection_wins. by rewrite Hlt.
    - intros b (c' & -> & Hc')%list_elem_of_fmap. unfold canonical, new_connection_wins. rewrite Hlt. simpl.
      intros Hb%bool_decide_eq_true. apply (Hd c' Hc') in Hb as Hb'. subst c'. by rewrite bool_decide_eq_true_2. }
  assert (theirs = Some (entry_of ({| mp_conn := c; peer_runtime_id := small |}, false, tx' c))) as ->; [|done].
  unfold theirs. rewrite installs_kept; [|apply Forall_fmap, Forall_true; done]. unfold kept.
  rewrite (last_unique _ _ ({| mp_conn := c; peer_runtime_id := small |}, false, tx' c)); [done|..].
  - apply list_elem_of_fmap. exists c. split; [rewrite bool_decide_eq_false_2; [done|congruence]|by rewrite <-Hcs].
  - unfold canonical, new_connection_wins. by rewrite (id_lt_antisym _ _ Hlt).
  - intros b (c' & -> & Hc')%list_elem_of_fmap. rewrite <-Hcs in Hc'.
    unfold canonical, new_connection_wins. rewrite (id_lt_antisym _ _ Hlt). simpl.
    intros Hb%negb_true_iff%bool_decide_eq_false. destruct (Hd c' Hc') as [Hs [Hs'|?]]; [|done].
    apply Hs in Hs' as ->. by rewrite bool_decide_eq_false_2.
Qed.

(** Two connections dialed at once, seen in opposite orders. *)
Lemma simultaneous_dial_converges_witness :
  let dialer c := if decide (c = 0) then "a" else "b" in
  mp_conn ∘ pe_peer <$> installs "a" (arrivals dialer (fun _ => 7) "a" "b" [1; 0]) ∅ !! "b" = Some 0 /\
  mp_conn ∘ pe_peer <$> installs "b" (arrivals dialer (fun _ => 9) "b" "a" [0; 1]) ∅ !! "a" = Some 0.
Proof.
  intros dialer.
  destruct (simultaneous_dial_converges "a" "b" dialer (fun _ => 7) (fun _ => 9) [1; 0] [0; 1] 0) as [_ Hc].
  destruct Hc as (Ho & Ht & _); [reflexivity|apply Permutation_swap|by apply elem_of_cons; right; left|..|by split].
  intros c' [->|[->|Hn%elem_of_nil]%elem_of_cons]%elem_of_cons; [..|done]; unfold dialer; simpl;
    (split; [split; intros; congruence|auto]).
Defined.

(** ** Removal *)

(** A loop of a connection that was replaced, ending late, removes the entry of its
    successor: peers are removed by runtime id. *)
Lemma stale_loop_removes_successor `{MeshNet} `{Hex} `{HashMapIter} `{RelayKeys} genuine w n nd old e :
  w_nodes w !! n = Some nd -> nd_peers nd !! peer_runtime_id old = Some e -> mp_conn (pe_peer e) <> mp_conn old ->
  exists w' nd', exec (fun _ _ => False) (mesh_answer genuine) (datagram_round n old) w w' tt /\
    w_nodes w' !! n = Some nd' /\ nd_peers nd' !! peer_runtime_id old = None.
Proof.
  intros Hn He Hne. set (m' := mark_connection_state (peer_runtime_id old) Disconnected (nd_membership nd)).
  set (w1 := put_peers n nd (delete (peer_runtime_id old) (nd_peers nd)) w).
  set (nd1 := {| nd_membership := nd_membership nd; nd_peers := delete (peer_runtime_id old) (nd_peers nd) |}).
  exists (put_membership n nd1 m' w1), {| nd_membership := m'; nd_peers := nd_peers nd1 |}.
  split_and!.
  - exists w, w, (Err (TransportIo "connection lost")). split; [done|]. split; [done|].
    exists w, w1, true. split; [done|]. split; [exists nd; by rewrite He|].
    exists w1, (put_membership n nd1 m' w1), tt. split; [done|]. split; [|done].
    exists nd1, m'. split_and!; [|done|done]. simpl. by rewrite lookup_insert_eq.
  - simpl. by rewrite lookup_insert_eq.
  - simpl. by rewrite lookup_delete_eq.
Qed.
