(* ===== verification/MeshWorldProps.v ===== *)
(** * What the calls of a mesh keep

    The invariant of [MeshWorld] ([mesh_inv]), the order in which worlds grow ([mesh_ext]),
    and for each call what it needs and what its answer means ([call_pre], [call_post]). *)

From S2P Require Import Prelude Text Nostr SessionDirectory MeshWire Gossip MeshRegistry MeshMembership Concurrent MeshRuntime MeshWorld.

(** ** Histories *)

(** A record and one its owner published later. *)
Definition newer (r r' : GossipRecord) : Prop :=
  (version r < version r' \/ version r' = u64_max)%N /\ (version r <= version r')%N /\
  (draining r = true -> draining r' = true).

Record history_ok (n : RuntimeId) (h : list GossipRecord) : Prop := {
  history_own r : r ∈ h -> gr_runtime_id r = n /\ (1 <= version r <= u64_max)%N;
  history_newer : StronglySorted newer h;
}.

Lemma bump_newer now r : (version r <= u64_max)%N -> newer r (bump now r).
Proof. unfold newer, bump, u64_saturating_add. simpl. intros Hr. split_and!; [|lia|done]. lia. Qed.

Lemma newer_trans r r' r'' : newer r r' -> newer r' r'' -> (version r'' <= u64_max)%N -> newer r r''.
Proof. unfold newer. intros (H1 & H2 & H3) (H4 & H5 & H6) Hm. split_and!; [lia|lia|auto]. Qed.

Lemma history_snoc n h r r' :
  history_ok n (h ++ [r]) -> newer r r' -> gr_runtime_id r' = n -> (1 <= version r' <= u64_max)%N ->
  history_ok n ((h ++ [r]) ++ [r']).
Proof.
  intros [Hown Hs] Hr Hid Hv. split.
  - intros x [Hx|Hx]%elem_of_app; [auto|]. apply list_elem_of_singleton in Hx as ->. auto.
  - apply StronglySorted_app_2; [|done|by repeat constructor].
    intros x y Hx ->%list_elem_of_singleton.
    apply elem_of_app in Hx as [Hx| ->%list_elem_of_singleton]; [|done].
    eapply newer_trans; [|exact Hr|lia].
    eapply StronglySorted_app_1_elem_of; [exact Hs|done|by apply list_elem_of_singleton].
Qed.

(** ** Tables *)

(** A table that knows what another knew, or newer. *)
Definition table_le (t t' : gmap RuntimeId PeerState) : Prop :=
  forall id p, t !! id = Some p ->
    exists p', t' !! id = Some p' /\ (record p' = record p \/ version (record p) < version (record p'))%N.

#[export] Instance table_le_preorder : PreOrder table_le.
Proof.
  split; [intros t id p Hp; eauto|].
  intros t1 t2 t3 H12 H23 id p Hp.
  destruct (H12 id p Hp) as (p2 & Hp2 & Hr2), (H23 id p2 Hp2) as (p3 & Hp3 & Hr3).
  exists p3. split; [done|]. destruct Hr2 as [Hr2|Hr2], Hr3 as [Hr3|Hr3]; rewrite ?Hr3; auto;
    [rewrite <-Hr2; auto|right; lia].
Qed.

(** Replacing the entry of [id] by one of the same record, or a newer one. *)
Lemma table_le_insert t id p :
  (forall p0, t !! id = Some p0 -> record p = record p0 \/ version (record p0) < version (record p))%N ->
  table_le t (<[id := p]> t).
Proof.
  intros Hp i p0 Hi. destruct (decide (id = i)) as [->|Hne].
  - exists p. rewrite lookup_insert_eq. auto.
  - exists p0. rewrite lookup_insert_ne by done. auto.
Qed.

Lemma update_peer_table id f m :
  (forall p, record (f p) = record p) -> table_le (peers m) (peers (update_peer id f m)).
Proof.
  intros Hf. unfold update_peer. destruct (peers m !! id) as [p|] eqn:E; [|done].
  simpl. apply table_le_insert. intros p0 Hp0. left. rewrite E in Hp0. injection Hp0 as <-. apply Hf.
Qed.

Section feeding.
Context `{Hex}.

Lemma apply_gossip_table r m : table_le (peers m) (peers (apply_gossip_record r m).1).
Proof.
  unfold apply_gossip_record. case_decide; [done|].
  destruct (peers m !! gr_runtime_id r) as [p|] eqn:E; [destruct (version r <=? version (record p))%N eqn:Hv|];
    [done|..]; simpl; apply table_le_insert; intros p0 Hp0; rewrite E in Hp0; simplify_eq.
  right. simpl. apply N.leb_gt in Hv. lia.
Qed.

(** A table fed a record holds it or one at least as new. *)
Lemma apply_gossip_known r m :
  gr_runtime_id r <> local_runtime_id m ->
  exists p, peers (apply_gossip_record r m).1 !! gr_runtime_id r = Some p /\ (version r <= version (record p))%N.
Proof.
  intros Hne. unfold apply_gossip_record. rewrite decide_False by done.
  destruct (peers m !! gr_runtime_id r) as [p|] eqn:E; [destruct (version r <=? version (record p))%N eqn:Hv|].
  - exists p. split; [done|]. by apply N.leb_le.
  - eexists. simpl. rewrite lookup_insert_eq. split; [done|]. simpl. lia.
  - eexists. simpl. rewrite lookup_insert_eq. split; [done|]. simpl. lia.
Qed.

(** Every entry of the table it leaves is an old one or the record's. *)
Lemma apply_gossip_entries r m id p :
  peers (apply_gossip_record r m).1 !! id = Some p ->
  peers m !! id = Some p \/ record p = r /\ id = gr_runtime_id r /\ id <> local_runtime_id m.
Proof.
  unfold apply_gossip_record. case_decide; [auto|]. intros Hp.
  destruct (peers m !! gr_runtime_id r) as [p0|]; [destruct (version r <=? version (record p0))%N|];
    simpl in Hp; [by left|..];
    (destruct (decide (gr_runtime_id r = id)) as [<-|Hne];
     [rewrite lookup_insert_eq in Hp; injection Hp as <-; auto
     |rewrite lookup_insert_ne in Hp by done; auto]).
Qed.

Lemma apply_gossip_local r m :
  local_record (apply_gossip_record r m).1 = local_record m /\
  local_runtime_id (apply_gossip_record r m).1 = local_runtime_id m /\
  expected_relay_pubkey (apply_gossip_record r m).1 = expected_relay_pubkey m.
Proof.
  unfold apply_gossip_record. case_decide; [done|].
  destruct (peers m !! gr_runtime_id r) as [p0|]; [destruct (version r <=? version (record p0))%N|]; done.
Qed.
End feeding.

(** ** The invariant *)

Section invariant.
Context `{MeshNet} `{Hex} `{HashMapIter} `{RelayKeys} `{ReadySerde} `{Postcard GossipMessage}.
Context (genuine : RuntimeId -> Prop) (relay_keypair : Keys).

Definition relay_pubkey : string := pubkey_to_hex (public_key relay_keypair).

(** A record of a runtime of the deployment: one it published, or the hint of a ready record. *)
Definition good_record (w : World) (r : GossipRecord) : Prop :=
  genuine (gr_runtime_id r) /\
  ((exists h, w_history w !! gr_runtime_id r = Some h /\ r ∈ h) \/ version r = 1%N /\ draining r = false).

Definition good_message (w : World) (m : GossipMessage) : Prop :=
  match m with
  | Digest _ _ => True
  | Delta _ rs => Forall (good_record w) rs
  end.

Definition good_frame (w : World) (f : MeshStreamFrame) : Prop :=
  match f with
  | MeshWire.Gossip payload => exists m, encode_message m = Ok payload /\ good_message w m
  | _ => True
  end.

Definition conn_between (w : World) (i : nat) (n remote : RuntimeId) : Prop :=
  w_conns w !! i = Some (n, remote) \/ w_conns w !! i = Some (remote, n).

Definition peer_ok (w : World) (n : RuntimeId) (p : MeshPeer) : Prop :=
  genuine (peer_runtime_id p) /\ conn_between w (mp_conn p) n (peer_runtime_id p).

Definition stream_ok (w : World) (n remote : RuntimeId) (s : StreamRef) : Prop :=
  genuine remote /\ conn_between w (sr_conn s) n remote.

Definition loop_ok (w : World) (n : RuntimeId) (l : Loop) : Prop :=
  match l with
  | AcceptLoop | ReconcileLoop | GossipTickLoop => True
  | DatagramRecvLoop p | StreamAcceptLoop p | OpenControlStream p _ => peer_ok w n p
  | ControlExchange remote s _ | ControlRecv remote s | ControlSend remote s _ => stream_ok w n remote s
  end.

Record node_ok (w : World) (n : RuntimeId) (nd : Node) : Prop := {
  node_id : local_runtime_id (nd_membership nd) = n;
  node_genuine : genuine n;
  node_anchor : expected_relay_pubkey (nd_membership nd) = Some relay_pubkey;
  node_local : exists h, w_history w !! n = Some (h ++ [local_record (nd_membership nd)]);
  node_peers id p : peers (nd_membership nd) !! id = Some p ->
    good_record w (record p) /\ gr_runtime_id (record p) = id /\ id <> n;
  node_entries id e : nd_peers nd !! id = Some e ->
    peer_ok w n (pe_peer e) /\ peer_runtime_id (pe_peer e) = id;
}.

Record mesh_inv (w : World) : Prop := {
  inv_nodes n nd : w_nodes w !! n = Some nd -> node_ok w n nd;
  inv_history n h : w_history w !! n = Some h -> history_ok n h;
  inv_streams i s : w_streams w !! i = Some s -> Forall (good_frame w) (st_out s ++ st_back s);
  inv_channels i q : w_channels w !! i = Some q -> Forall (good_frame w) q;
  inv_spawned n l : (n, l) ∈ w_spawned w -> loop_ok w n l;
}.

(** ** Growth *)

Record mesh_ext (w w' : World) : Prop := {
  ext_nodes n nd : w_nodes w !! n = Some nd -> exists nd', w_nodes w' !! n = Some nd' /\
    table_le (peers (nd_membership nd)) (peers (nd_membership nd')) /\
    (version (local_record (nd_membership nd)) <= version (local_record (nd_membership nd')))%N;
  ext_history n h : w_history w !! n = Some h -> exists h', w_history w' !! n = Some (h ++ h');
  ext_conns : w_conns w `prefix_of` w_conns w';
}.

#[export] Instance mesh_ext_preorder : PreOrder mesh_ext.
Proof.
  split.
  - intros w. split; [|intros n h; exists []; by rewrite app_nil_r|done].
    intros n nd Hn. exists nd. split_and!; [done|done|lia].
  - intros w1 w2 w3 [Hn12 Hh12 Hc12] [Hn23 Hh23 Hc23]. split; [| |by etrans].
    + intros n nd Hn. destruct (Hn12 n nd Hn) as (nd2 & Hn2 & Ht2 & Hv2).
      destruct (Hn23 n nd2 Hn2) as (nd3 & Hn3 & Ht3 & Hv3). exists nd3. split_and!; [done|by etrans|lia].
    + intros n h Hh. destruct (Hh12 n h Hh) as [h2 Hh2], (Hh23 n _ Hh2) as [h3 Hh3].
      exists (h2 ++ h3). by rewrite app_assoc.
Qed.

Lemma good_record_ext w w' r : mesh_ext w w' -> good_record w r -> good_record w' r.
Proof.
  intros He [Hg Hr]. split; [done|]. destruct Hr as [(h & Hh & Hr)|Hr]; [left|by right].
  destruct (ext_history _ _ He _ _ Hh) as [h' Hh']. exists (h ++ h'). split; [done|]. apply elem_of_app. by left.
Qed.

Lemma good_message_ext w w' m : mesh_ext w w' -> good_message w m -> good_message w' m.
Proof.
  intros He. destruct m as [v es|v rs]; simpl; [done|]. intros Hrs. eapply Forall_impl; [exact Hrs|].
  intros r. by apply good_record_ext.
Qed.

Lemma good_frame_ext w w' f : mesh_ext w w' -> good_frame w f -> good_frame w' f.
Proof.
  intros He. destruct f; simpl; try done. intros (m & Hm & Hg). exists m. split; [done|]. by eapply good_message_ext.
Qed.

Lemma good_frames_ext w w' fs : mesh_ext w w' -> Forall (good_frame w) fs -> Forall (good_frame w') fs.
Proof. intros He Hf. eapply Forall_impl; [exact Hf|]. intros f. by apply good_frame_ext. Qed.

Lemma conn_between_ext w w' i n r : mesh_ext w w' -> conn_between w i n r -> conn_between w' i n r.
Proof. intros He [Hc|Hc]; [left|right]; eapply prefix_lookup_Some; [done|apply He|done|apply He]. Qed.

Lemma peer_ok_ext w w' n p : mesh_ext w w' -> peer_ok w n p -> peer_ok w' n p.
Proof. intros He [? ?]. split; [done|]. by eapply conn_between_ext. Qed.

Lemma stream_ok_ext w w' n r s : mesh_ext w w' -> stream_ok w n r s -> stream_ok w' n r s.
Proof. intros He [? ?]. split; [done|]. by eapply conn_between_ext. Qed.

Lemma loop_ok_ext w w' n l : mesh_ext w w' -> loop_ok w n l -> loop_ok w' n l.
Proof.
  intros He. destruct l; simpl; try done;
    [by apply peer_ok_ext|by apply peer_ok_ext|by apply peer_ok_ext|by apply stream_ok_ext..].
Qed.

Lemma node_ok_ext w w' n nd : mesh_ext w w' -> node_ok w n nd ->
  w_history w' !! n = w_history w !! n -> node_ok w' n nd.
Proof.
  intros He [Hid Hg Ha Hl Hp Hn] Hh. split; [done|done|done|by rewrite Hh|..].
  - intros id p Hi. destruct (Hp id p Hi) as (? & ? & ?). split_and!; [by eapply good_record_ext|done..].
  - intros id e Hi. destruct (Hn id e Hi) as [? ?]. split; [by eapply peer_ok_ext|done].
Qed.

(** A step keeps the invariant when it is kept by what the step changes. *)
Lemma inv_step w w' :
  mesh_ext w w' -> mesh_inv w ->
  (forall n nd, w_nodes w' !! n = Some nd ->
     w_nodes w !! n = Some nd /\ w_history w' !! n = w_history w !! n \/ node_ok w' n nd) ->
  (forall n h, w_history w' !! n = Some h -> w_history w !! n = Some h \/ history_ok n h) ->
  (forall i s, w_streams w' !! i = Some s ->
     w_streams w !! i = Some s \/ Forall (good_frame w') (st_out s ++ st_back s)) ->
  (forall i q, w_channels w' !! i = Some q -> w_channels w !! i = Some q \/ Forall (good_frame w') q) ->
  (forall n l, (n, l) ∈ w_spawned w' -> (n, l) ∈ w_spawned w \/ loop_ok w' n l) ->
  mesh_inv w'.
Proof.
  intros He Hi Hn Hh Hs Hc Hl. split.
  - intros n nd Hnd. destruct (Hn n nd Hnd) as [[Hw Hhw]|?]; [|done].
    eapply node_ok_ext; [done|by apply Hi|done].
  - intros n h Hw. destruct (Hh n h Hw); [by apply Hi|done].
  - intros i s Hw. destruct (Hs i s Hw) as [Hw'|?]; [|done]. eapply good_frames_ext; [done|]. by apply (inv_streams w Hi i).
  - intros i q Hw. destruct (Hc i q Hw) as [Hw'|?]; [|done]. eapply good_frames_ext; [done|]. by apply (inv_channels w Hi i).
  - intros n l Hw. destruct (Hl n l Hw) as [Hw'|?]; [|done]. eapply loop_ok_ext; [done|]. by apply (inv_spawned w Hi).
Qed.

(** *** Steps of one part of the world *)

Lemma put_node_ok w n nd nd' :
  mesh_inv w -> w_nodes w !! n = Some nd ->
  local_record (nd_membership nd') = local_record (nd_membership nd) ->
  table_le (peers (nd_membership nd)) (peers (nd_membership nd')) ->
  (node_ok w n nd -> node_ok w n nd') ->
  mesh_inv (put_node n nd' w) /\ mesh_ext w (put_node n nd' w).
Proof.
  intros Hi Hn Hl Ht Hok.
  assert (mesh_ext w (put_node n nd' w)) as He.
  { split; simpl; [|intros k h Hh; exists []; by rewrite app_nil_r|done].
    intros k ndk Hk. destruct (decide (n = k)) as [<-|Hne].
    - exists nd'. rewrite lookup_insert_eq. rewrite Hn in Hk. injection Hk as <-. split_and!; [done|done|rewrite Hl; lia].
    - exists ndk. rewrite lookup_insert_ne by done. split_and!; [done|done|lia]. }
  split; [|done]. eapply inv_step; [exact He|exact Hi|..]; simpl; try by left.
  intros k ndk Hk. destruct (decide (n = k)) as [<-|Hne].
  - rewrite lookup_insert_eq in Hk. injection Hk as <-. right. eapply node_ok_ext; [exact He| |done].
    apply Hok. by apply Hi.
  - rewrite lookup_insert_ne in Hk by done. by left.
Qed.

Lemma put_membership_ok w n nd m' :
  mesh_inv w -> w_nodes w !! n = Some nd ->
  local_record m' = local_record (nd_membership nd) ->
  local_runtime_id m' = local_runtime_id (nd_membership nd) ->
  expected_relay_pubkey m' = expected_relay_pubkey (nd_membership nd) ->
  table_le (peers (nd_membership nd)) (peers m') ->
  (forall id p, peers m' !! id = Some p ->
     (exists p0, peers (nd_membership nd) !! id = Some p0 /\ record p = record p0) \/
     good_record w (record p) /\ gr_runtime_id (record p) = id /\ id <> local_runtime_id m') ->
  mesh_inv (put_membership n nd m' w) /\ mesh_ext w (put_membership n nd m' w).
Proof.
  intros Hi Hn Hl Hid Ha Ht Hp. apply (put_node_ok w n nd); [done..|].
  intros [Hid0 Hg Ha0 Hl0 Hp0 He0]. split; simpl; [congruence|done|congruence|by rewrite Hl| |done].
  intros id p Hp'. destruct (Hp id p Hp') as [(p0 & Hp1 & ->)|(? & ? & ?)]; [by apply Hp0|].
  split_and!; [done..|congruence].
Qed.

Lemma put_peers_ok w n nd es :
  mesh_inv w -> w_nodes w !! n = Some nd ->
  (forall id e, es !! id = Some e ->
     (exists e0, nd_peers nd !! id = Some e0 /\ pe_peer e = pe_peer e0) \/
     peer_ok w n (pe_peer e) /\ peer_runtime_id (pe_peer e) = id) ->
  mesh_inv (put_peers n nd es w) /\ mesh_ext w (put_peers n nd es w).
Proof.
  intros Hi Hn Hes. apply (put_node_ok w n nd); [done..|].
  intros [Hid0 Hg Ha0 Hl0 Hp0 He0]. split; simpl; [done..|].
  intros id e He. destruct (Hes id e He) as [(e0 & He1 & ->)|?]; [by apply He0|done].
Qed.

Lemma set_channels_ok w l :
  mesh_inv w ->
  (forall i q, l !! i = Some q -> w_channels w !! i = Some q \/ Forall (good_frame w) q) ->
  mesh_inv (set_channels l w) /\ mesh_ext w (set_channels l w).
Proof.
  intros Hi Hq. assert (mesh_ext w (set_channels l w)) as He.
  { split; simpl; [|intros k h Hh; exists []; by rewrite app_nil_r|done].
    intros k nd Hk. exists nd. split_and!; [done|done|lia]. }
  split; [|done]. eapply inv_step; [exact He|exact Hi|..]; simpl; try by left.
  intros i q Hl. destruct (Hq i q Hl) as [?|?]; [by left|right]. by eapply good_frames_ext.
Qed.

Lemma set_streams_ok w l :
  mesh_inv w ->
  (forall i s, l !! i = Some s -> w_streams w !! i = Some s \/ Forall (good_frame w) (st_out s ++ st_back s)) ->
  mesh_inv (set_streams l w) /\ mesh_ext w (set_streams l w).
Proof.
  intros Hi Hq. assert (mesh_ext w (set_streams l w)) as He.
  { split; simpl; [|intros k h Hh; exists []; by rewrite app_nil_r|done].
    intros k nd Hk. exists nd. split_and!; [done|done|lia]. }
  split; [|done]. eapply inv_step; [exact He|exact Hi|..]; simpl; try by left.
  intros i q Hl. destruct (Hq i q Hl) as [?|?]; [by left|right]. by eapply good_frames_ext.
Qed.

Lemma set_conns_ok w d : mesh_inv w -> mesh_inv (set_conns (w_conns w ++ [d]) w) /\ mesh_ext w (set_conns (w_conns w ++ [d]) w).
Proof.
  intros Hi. assert (mesh_ext w (set_conns (w_conns w ++ [d]) w)) as He.
  { split; simpl; [|intros k h Hh; exists []; by rewrite app_nil_r|by apply prefix_app_r].
    intros k nd Hk. exists nd. split_and!; [done|done|lia]. }
  split; [|done]. eapply inv_step; [exact He|exact Hi|..]; simpl; by left.
Qed.

Lemma spawn_all_ok w n ls :
  mesh_inv w -> Forall (loop_ok w n) ls -> mesh_inv (spawn_all n ls w) /\ mesh_ext w (spawn_all n ls w).
Proof.
  intros Hi Hls. assert (mesh_ext w (spawn_all n ls w)) as He.
  { split; simpl; [|intros k h Hh; exists []; by rewrite app_nil_r|done].
    intros k nd Hk. exists nd. split_and!; [done|done|lia]. }
  split; [|done]. eapply inv_step; [exact He|exact Hi|..]; simpl; try by left.
  intros k l [Hl|Hl]%elem_of_app; [by left|right]. apply list_elem_of_fmap in Hl as (l' & [= -> ->] & Hl).
  rewrite Forall_forall in Hls. eapply loop_ok_ext; [exact He|]. by apply Hls.
Qed.
End invariant.
