(* ===== verification/MeshCalls.v ===== *)
(** * The calls of a mesh

    For each call what it needs ([call_pre]), what its answer means from then on
    ([call_post]), and that it keeps the invariant of the mesh ([call_ok]). *)

From S2P Require Import Prelude Text Nostr SessionDirectory MeshWire Gossip MeshRegistry MeshMembership Concurrent MeshRuntime MeshWorld MeshWorldProps.

(** An update a runtime makes of its own record. *)
Definition keeps_record (update : GossipRecord -> GossipRecord) : Prop :=
  forall r, gr_runtime_id (update r) = gr_runtime_id r /\ version (update r) = version r /\
    (draining r = true -> draining (update r) = true).

(** The membership a runtime boots with. *)
Definition boot_membership `{RelayKeys} (relay_keypair : Keys) (n : RuntimeId) (m : MeshMembership) : Prop :=
  local_runtime_id m = n /\ gr_runtime_id (local_record m) = n /\ version (local_record m) = 1%N /\
  expected_relay_pubkey m = Some (relay_pubkey relay_keypair) /\ peers m = ∅.

Section calls.
Context `{MeshNet} `{Hex} `{HashMapIter} `{RelayKeys} `{ReadySerde} `{Postcard GossipMessage}.
Context (genuine : RuntimeId -> Prop) (relay_keypair : Keys).
Context (unforgeable : forall ready, rr_relay_pubkey ready = relay_pubkey relay_keypair ->
  verify_ready ready = Ok tt -> genuine (rr_runtime_id ready)).

Notation mesh_inv := (mesh_inv genuine relay_keypair).
Notation mesh_answer := (mesh_answer genuine).
Notation good_record := (good_record genuine).
Notation good_frame := (good_frame genuine).
Notation peer_ok := (peer_ok genuine).
Notation stream_ok := (stream_ok genuine).
Notation loop_ok := (loop_ok genuine).

Definition call_pre (R : Type) (c : MeshCall R) (w : World) : Prop :=
  match c with
  | Start n m => genuine n /\ boot_membership relay_keypair n m
  | Spawn n l => loop_ok w n l
  | ApplyGossip _ r => good_record w r
  | UpdateLocal _ update => keeps_record update
  | Install n peer _ => peer_ok w n peer
  | SendControl _ _ f | SendFrame _ _ f => good_frame w f
  | RecvFrame n s => exists remote, stream_ok w n remote s
  | _ => True
  end.

Definition call_post (R : Type) (c : MeshCall R) (r : R) (w : World) : Prop :=
  match c in MeshCall R return R -> Prop with
  | Bind => fun r => forall n, r = Ok n -> genuine n
  | Running n l => fun _ => loop_ok w n l
  | HasPeer n id => fun r => r = true -> genuine id
  | PeerRecords n => fun rs => Forall (good_record w) rs
  | LocalRecord n => fun r => good_record w r
  | GetPeer n id => fun r => forall p, r = Some p -> peer_ok w n p
  | EndpointConnect n addr => fun r => forall c, r = Ok c ->
      conn_between w (cn_id c) n (cn_remote_id c) /\ cn_remote_id c = ea_id addr
  | EndpointAccept n => fun r => forall c, r = Ok (Some c) -> conn_between w (cn_id c) n (cn_remote_id c)
  | OpenBi n peer | AcceptBi n peer => fun r => forall s, r = Ok s -> sr_conn s = mp_conn peer
  | RecvFrame n s => fun r => forall f, r = Ok (Some f) -> good_frame w f
  | RecvQueue n rx => fun r => forall f, r = Some f -> good_frame w f
  | _ => fun _ => True
  end r.

Lemma call_pre_ext R (c : MeshCall R) w w' : mesh_ext w w' -> call_pre R c w -> call_pre R c w'.
Proof.
  intros He. destruct c; simpl; try done;
    [by apply loop_ok_ext|by apply good_record_ext|by apply peer_ok_ext|by apply good_frame_ext..|].
  intros [remote Hs]. exists remote. by eapply stream_ok_ext.
Qed.

Lemma call_post_ext R (c : MeshCall R) r w w' : mesh_ext w w' -> call_post R c r w -> call_post R c r w'.
Proof.
  intros He. destruct c; simpl; try done.
  - by apply loop_ok_ext.
  - intros Hr. eapply Forall_impl; [exact Hr|]. intros x. by apply good_record_ext.
  - by apply good_record_ext.
  - intros Hr p Hp. eapply peer_ok_ext; [exact He|auto].
  - intros Hr c Hc. destruct (Hr c Hc) as [? ?]. split; [by eapply conn_between_ext|done].
  - intros Hr c Hc. eapply conn_between_ext; [exact He|auto].
  - intros Hr f Hf. eapply good_frame_ext; [exact He|auto].
  - intros Hr f Hf. eapply good_frame_ext; [exact He|auto].
Qed.

(** *** Frames *)

Lemma push_frame_good w n f s :
  good_frame w f -> Forall (good_frame w) (st_out s ++ st_back s) ->
  Forall (good_frame w) (st_out (push_frame n f s) ++ st_back (push_frame n f s)).
Proof.
  intros Hf Hs. apply Forall_app in Hs as [Ho Hb]. unfold push_frame. case_decide; simpl;
    repeat (apply Forall_app; split); auto.
Qed.

Lemma drop_frame_good w n s :
  Forall (good_frame w) (st_out s ++ st_back s) ->
  Forall (good_frame w) (st_out (drop_frame n s) ++ st_back (drop_frame n s)).
Proof.
  intros Hs. apply Forall_app in Hs as [Ho Hb]. unfold drop_frame. case_decide; simpl;
    apply Forall_app; split; auto; destruct (st_out s), (st_back s); simpl; decompose_Forall; auto.
Qed.

Lemma incoming_good w n s f rest :
  Forall (good_frame w) (st_out s ++ st_back s) -> incoming n s = f :: rest -> good_frame w f.
Proof.
  intros Hs Hf. apply Forall_app in Hs as [Ho Hb]. unfold incoming in Hf.
  case_decide; [rewrite Hf in Hb|rewrite Hf in Ho]; by decompose_Forall.
Qed.

(** *** Records *)

Lemma local_record_good w n nd : mesh_inv w -> w_nodes w !! n = Some nd ->
  good_record w (local_record (nd_membership nd)) /\ gr_runtime_id (local_record (nd_membership nd)) = n.
Proof.
  intros Hi Hn. destruct (inv_nodes _ _ w Hi n nd Hn) as [Hid Hg _ [h Hh] _ _].
  destruct (history_own _ _ (inv_history _ _ w Hi n _ Hh) (local_record (nd_membership nd))) as [Hr _].
  { apply elem_of_app. right. by apply list_elem_of_singleton. }
  split; [|done]. split; [by rewrite Hr|]. left. rewrite Hr. eexists. split; [exact Hh|].
  apply elem_of_app. right. by apply list_elem_of_singleton.
Qed.

Lemma peer_states_good w n nd : mesh_inv w -> w_nodes w !! n = Some nd ->
  Forall (good_record w) (record <$> peer_states (nd_membership nd)).
Proof.
  intros Hi Hn. apply Forall_fmap, Forall_forall. intros p Hp. unfold peer_states in Hp.
  apply list_elem_of_fmap in Hp as ([id p'] & -> & Hp). apply elem_of_iter_entries in Hp.
  by destruct (node_peers _ _ _ _ _ (inv_nodes _ _ w Hi n nd Hn) id p' Hp).
Qed.

(** *** Tables *)

Lemma apply_gossip_ok w n nd r :
  mesh_inv w -> w_nodes w !! n = Some nd -> good_record w r ->
  let w' := put_membership n nd (apply_gossip_record r (nd_membership nd)).1 w in
  mesh_inv w' /\ mesh_ext w w'.
Proof.
  intros Hi Hn Hr. destruct (apply_gossip_local r (nd_membership nd)) as (Hl & Hid & Ha).
  apply (put_membership_ok genuine relay_keypair); [done..|apply apply_gossip_table|].
  intros id p Hp. apply apply_gossip_entries in Hp as [Hp|(-> & -> & ?)]; [by left; exists p|right].
  by rewrite Hid.
Qed.

Lemma admitted_good now m ready r w :
  expected_relay_pubkey m = Some (relay_pubkey relay_keypair) ->
  judge_ready now m ready = Admit r -> good_record w r.
Proof.
  intros Ha. unfold judge_ready. repeat case_decide; try done.
  destruct (verify_ready ready) as [[]|e] eqn:E; [|done]. intros [= <-].
  split; [|by right]. simpl. apply unforgeable; [congruence|done].
Qed.

Lemma apply_ready_ok w n nd now ready :
  mesh_inv w -> w_nodes w !! n = Some nd ->
  let w' := put_membership n nd (apply_ready_record now ready (nd_membership nd)) w in
  mesh_inv w' /\ mesh_ext w w'.
Proof.
  intros Hi Hn. unfold apply_ready_record.
  destruct (judge_ready now (nd_membership nd) ready) as [| |e|r] eqn:E;
    [..|apply apply_gossip_ok; [done..|]].
  1-3: apply (put_membership_ok genuine relay_keypair); [done..|simpl; intros id p Hp; by left; exists p].
  eapply admitted_good; [|exact E]. apply (inv_nodes _ _ w Hi n nd Hn).
Qed.

Lemma update_peer_ok w n nd id f :
  mesh_inv w -> w_nodes w !! n = Some nd -> (forall p, record (f p) = record p) ->
  let w' := put_membership n nd (update_peer id f (nd_membership nd)) w in
  mesh_inv w' /\ mesh_ext w w'.
Proof.
  intros Hi Hn Hf. pose proof (update_peer_table id f (nd_membership nd) Hf) as Ht. unfold update_peer in *.
  destruct (peers (nd_membership nd) !! id) as [p|] eqn:E;
    (apply (put_membership_ok genuine relay_keypair); [done..|simpl; intros k q Hq; left]); [|by exists q].
  destruct (decide (id = k)) as [<-|Hne];
    [rewrite lookup_insert_eq in Hq; injection Hq as <-; by exists p|rewrite lookup_insert_ne in Hq by done; by exists q].
Qed.

(** *** Local records *)

Lemma update_local_ok w n nd now update h :
  mesh_inv w -> w_nodes w !! n = Some nd -> w_history w !! n = Some h -> keeps_record update ->
  let '(m', local) := update_local now update (nd_membership nd) in
  let w' := put_history n (h ++ [local]) (put_membership n nd m' w) in
  mesh_inv w' /\ mesh_ext w w'.
Proof.
  intros Hi Hn Hh Hu. simpl. destruct (inv_nodes _ _ w Hi n nd Hn) as [Hid Hg Ha [h0 Hl] Hp He].
  rewrite Hh in Hl. injection Hl as ->. pose proof (inv_history _ _ w Hi n _ Hh) as Hok.
  set (r := local_record (nd_membership nd)) in *. set (r' := bump now (update r)).
  assert (gr_runtime_id r = n /\ (1 <= version r <= u64_max)%N) as [Hr Hv].
  { apply Hok, elem_of_app. right. by apply list_elem_of_singleton. }
  destruct (Hu r) as (Hu1 & Hu2 & Hu3).
  assert (newer r r') as Hnew.
  { destruct (bump_newer now (update r)) as (Hb1 & Hb2 & Hb3); [lia|].
    unfold newer, r'. rewrite Hu2 in *. auto. }
  assert (1 <= version r' <= u64_max)%N as Hv'.
  { destruct Hnew as (_ & ? & _). split; [lia|]. unfold r', bump, u64_saturating_add. simpl. lia. }
  set (w' := put_history _ _ _). assert (mesh_ext w w') as Hext.
  { split; simpl; [..|done].
    - intros k ndk Hk. destruct (decide (n = k)) as [<-|Hne].
      + rewrite lookup_insert_eq. eexists. split; [done|]. rewrite Hn in Hk. injection Hk as <-.
        split; [done|]. by destruct Hnew as (_ & ? & _).
      + rewrite lookup_insert_ne by done. exists ndk. split_and!; [done|done|lia].
    - intros k hk Hk. destruct (decide (n = k)) as [<-|Hne].
      + rewrite lookup_insert_eq. rewrite Hh in Hk. injection Hk as <-. by exists [r'].
      + rewrite lookup_insert_ne by done. exists []. by rewrite app_nil_r. }
  split; [|done]. eapply inv_step; [exact Hext|exact Hi|..]; simpl; try by left.
  - intros k ndk Hk. destruct (decide (n = k)) as [<-|Hne].
    + rewrite lookup_insert_eq in Hk. injection Hk as <-. right. split; simpl; [done|done|done|..].
      * exists (h0 ++ [r]). by rewrite lookup_insert_eq.
      * intros id p Hp'. destruct (Hp id p Hp') as (? & ? & ?). split_and!; [by eapply good_record_ext|done..].
      * intros id e He'. destruct (He id e He') as [? ?]. split; [by eapply peer_ok_ext|done].
    + rewrite lookup_insert_ne in Hk by done. rewrite lookup_insert_ne by done. by left.
  - intros k hk Hk. destruct (decide (n = k)) as [<-|Hne].
    + rewrite lookup_insert_eq in Hk. injection Hk as <-. right. apply (history_snoc n h0 r r'); [exact Hok|exact Hnew| |exact Hv'].
      unfold r'. simpl. by rewrite Hu1.
    + rewrite lookup_insert_ne in Hk by done. by left.
Qed.

Lemma bound_ok w n :
  mesh_inv w -> w_history w !! n = None -> mesh_inv (put_history n [] w) /\ mesh_ext w (put_history n [] w).
Proof.
  intros Hi Hh. assert (mesh_ext w (put_history n [] w)) as He.
  { split; simpl; [..|done].
    - intros k nd Hk. exists nd. split_and!; [done|done|lia].
    - intros k h Hk. exists []. rewrite app_nil_r, lookup_insert_ne; [done|]. intros ->. congruence. }
  split; [|done]. eapply inv_step; [exact He|exact Hi|..]; simpl; try by left.
  - intros k nd Hk. left. split; [done|]. rewrite lookup_insert_ne; [done|]. intros ->.
    destruct (node_local _ _ _ _ _ (inv_nodes _ _ w Hi k nd Hk)) as [h Hl]. congruence.
  - intros k h Hk. destruct (decide (n = k)) as [<-|Hne].
    + rewrite lookup_insert_eq in Hk. injection Hk as <-. right. split; [by intros r Hr%elem_of_nil|constructor].
    + rewrite lookup_insert_ne in Hk by done. by left.
Qed.

Lemma start_ok w n m :
  mesh_inv w -> genuine n -> boot_membership relay_keypair n m ->
  w_nodes w !! n = None -> w_history w !! n = Some [] ->
  let w' := put_history n [local_record m] (put_node n {| nd_membership := m; nd_peers := ∅ |} w) in
  mesh_inv w' /\ mesh_ext w w'.
Proof.
  intros Hi Hg (Hid & Hlid & Hv & Ha & Hp) Hn Hh. simpl. set (w' := put_history _ _ _).
  assert (mesh_ext w w') as He.
  { split; simpl; [..|done].
    - intros k nd Hk. exists nd. rewrite lookup_insert_ne by congruence. split_and!; [done|done|lia].
    - intros k h Hk. destruct (decide (n = k)) as [<-|Hne].
      + rewrite lookup_insert_eq. rewrite Hh in Hk. injection Hk as <-. by exists [local_record m].
      + rewrite lookup_insert_ne by done. exists []. by rewrite app_nil_r. }
  split; [|done]. eapply inv_step; [exact He|exact Hi|..]; simpl; try by left.
  - intros k nd Hk. destruct (decide (n = k)) as [<-|Hne].
    + rewrite lookup_insert_eq in Hk. injection Hk as <-. right. split; simpl; [done|done|done|..].
      * exists []. by rewrite lookup_insert_eq.
      * intros id p. by rewrite Hp, lookup_empty.
      * intros id e. by rewrite lookup_empty.
    + rewrite lookup_insert_ne in Hk by done. rewrite lookup_insert_ne by done. by left.
  - intros k h Hk. destruct (decide (n = k)) as [<-|Hne].
    + rewrite lookup_insert_eq in Hk. injection Hk as <-. right. split; [|by repeat constructor].
      intros r ->%list_elem_of_singleton. split; [done|]. rewrite Hv. unfold u64_max. lia.
    + rewrite lookup_insert_ne in Hk by done. by left.
Qed.

(** *** Peers *)

Lemma install_entry_ok local peer dialed tx es es' tasks w :
  install_entry local peer dialed tx es = Some (es', tasks) ->
  peer_ok w local peer ->
  (forall id e, es' !! id = Some e ->
     (exists e0, es !! id = Some e0 /\ pe_peer e = pe_peer e0) \/
     peer_ok w local (pe_peer e) /\ peer_runtime_id (pe_peer e) = id) /\
  Forall (loop_ok w local) tasks.
Proof.
  unfold install_entry. case_match; [done|]. intros [= <- <-] Hp. split.
  - intros id e He. destruct (decide (peer_runtime_id peer = id)) as [<-|Hne].
    + rewrite lookup_insert_eq in He. injection He as <-. by right.
    + rewrite lookup_insert_ne in He by done. left. by exists e.
  - rewrite !Forall_cons. split_and!; [done|done|]. destruct dialed; [by rewrite Forall_singleton|done].
Qed.

Lemma install_ok w n nd peer dialed es tasks :
  mesh_inv w -> w_nodes w !! n = Some nd -> peer_ok w n peer ->
  install_entry n peer dialed (length (w_channels w)) (nd_peers nd) = Some (es, tasks) ->
  let w' := spawn_all n tasks (set_channels (w_channels w ++ [[]]) (put_peers n nd es w)) in
  mesh_inv w' /\ mesh_ext w w'.
Proof.
  intros Hi Hn Hp He. destruct (install_entry_ok _ _ _ _ _ _ _ w He Hp) as [Hes Hts].
  destruct (put_peers_ok genuine relay_keypair w n nd es Hi Hn Hes) as [Hi1 He1].
  destruct (set_channels_ok genuine relay_keypair (put_peers n nd es w) (w_channels w ++ [[]]) Hi1) as [Hi2 He2].
  { intros i q [Hq|[_ Hq]]%lookup_app_Some; [by left|]. apply list_lookup_singleton_Some in Hq as [_ <-]. by right. }
  assert (mesh_ext w (set_channels (w_channels w ++ [[]]) (put_peers n nd es w))) as He3 by (by etrans).
  destruct (spawn_all_ok genuine relay_keypair _ n tasks Hi2) as [Hi4 He4].
  { eapply Forall_impl; [exact Hts|]. intros l. by apply loop_ok_ext. }
  split; [done|by etrans].
Qed.

(** ** Every call *)

Lemma call_step R (c : MeshCall R) w w' r :
  mesh_inv w -> call_pre R c w -> mesh_answer R c w w' r ->
  (mesh_inv w' /\ mesh_ext w w') /\ call_post R c r w'.
Proof.
  intros Hi Hp Ha. pose proof (conj Hi (reflexivity w : mesh_ext w w)) as Hsame.
  destruct c; simpl in Ha, Hp |- *; try (subst w'; by split).
  - (* Bind *)
    destruct Ha as [[[e ->] ->]|(n & -> & Hg & Hh & ->)]; (split; [|by intros n' [= <-]]); [done|by apply bound_ok].
  - (* Start *) destruct Ha as (Hn & Hh & ->), Hp as [Hg Hb]. split; [by apply start_ok|done].
  - (* Running *) destruct Ha as [Hl ->]. split; [done|]. by apply (inv_spawned _ _ w Hi).
  - (* Spawn *) subst w'. split; [|done]. apply spawn_all_ok; [done|by rewrite Forall_singleton].
  - (* NewChannel *) destruct Ha as [-> ->]. split; [|done]. apply set_channels_ok; [done|].
    intros i q [Hq|[_ Hq]]%lookup_app_Some; [by left|]. apply list_lookup_singleton_Some in Hq as [_ <-]. by right.
  - (* HasPeer *) destruct Ha as (nd & Hn & -> & ->). split; [done|]. unfold has_peer.
    intros [p Hid]%bool_decide_eq_true. destruct (node_peers _ _ _ _ _ (inv_nodes _ _ w Hi n nd Hn) id p Hid) as ([Hg _] & <- & _). done.
  - (* ApplyReady *) destruct Ha as (now & nd & m' & Hn & -> & ->). split; [by apply apply_ready_ok|done].
  - (* ApplyGossip *) destruct Ha as (nd & m' & Hn & Hm & ->). split; [|done].
    pose proof (apply_gossip_ok w n nd r0 Hi Hn Hp) as Hok. by rewrite <-Hm in Hok.
  - (* PeerRecords *) destruct Ha as (nd & Hn & -> & ->). split; [done|]. by eapply peer_states_good.
  - (* LocalRecord *) destruct Ha as (nd & Hn & -> & ->). split; [done|]. by eapply local_record_good.
  - (* UpdateLocal *) destruct Ha as (nd & now & h & Hn & Hh & _ & ->). split; [|done].
    by apply (update_local_ok w n nd now update h).
  - (* StoreDraining *) destruct Ha as (nd & m' & Hn & -> & ->). split; [|done].
    apply (put_membership_ok genuine relay_keypair); [done..|]. intros id p Hid. left. by exists p.
  - (* MarkState *) destruct Ha as (nd & m' & Hn & -> & ->). split; [by apply update_peer_ok|done].
  - (* Count *) destruct Ha as (nd & m' & Hn & -> & ->). split; [by apply update_peer_ok|done].
  - (* Contains *) destruct Ha as (nd & Hn & -> & ->). by split.
  - (* GetPeer *) destruct Ha as (nd & Hn & -> & ->). split; [done|].
    intros p (e & He & ->)%fmap_Some. by destruct (node_entries _ _ _ _ _ (inv_nodes _ _ w Hi n nd Hn) id e He).
  - (* Install *) destruct Ha as (nd & Hn & Ha).
    destruct (install_entry _ _ _ _ _) as [[es tasks]|] eqn:E; destruct Ha as [-> ->]; [|done].
    split; [|done]. by eapply install_ok.
  - (* Remove *) destruct Ha as (nd & Hn & -> & ->). split; [|done]. apply put_peers_ok; [done..|].
    intros k e [_ He]%lookup_delete_Some. left. by exists e.
  - (* SetControlTx *) destruct Ha as (nd & Hn & ->). split; [|done]. apply put_peers_ok; [done..|].
    intros k e [(<- & e0 & He & ->)|[_ He]]%lookup_alter_Some; left; [by exists e0|by exists e].
  - (* DrainPeers *) destruct Ha as (nd & Hn & ->). split; [|done]. apply put_peers_ok; [done..|].
    intros k e. by rewrite lookup_empty.
  - (* ControlTargets *) destruct Ha as (nd & Hn & -> & ->). by split.
  - (* SendControl *) destruct Ha as (nd & Hn & [->|(tx & q & _ & Hq & _ & ->)]); [by split|]. split; [|done].
    apply set_channels_ok; [done|]. intros i q' [(<- & <- & _)|[_ Hl]]%list_lookup_insert_Some; [right|by left].
    apply Forall_app. split; [by apply (inv_channels _ _ w Hi tx)|by rewrite Forall_singleton].
  - (* EndpointConnect *) destruct Ha as [[[e ->] ->]|(c & -> & Hc & Hr & ->)]; [by split|].
    split; [by apply set_conns_ok|]. intros c' [= <-]. rewrite Hc, Hr. unfold other_end. simpl.
    rewrite decide_True by done. split; [|done]. left. simpl. by rewrite list_lookup_middle.
  - (* EndpointAccept *) destruct Ha as [[[[e ->]| ->] ->]|(c & -> & [[Hc ->]|(_ & Hc & Hr & ->)])]; [by split|by split|..].
    + split; [done|]. intros c' [= <-]. by right.
    + split; [by apply set_conns_ok|]. intros c' [= <-]. right. simpl. rewrite Hc. by rewrite list_lookup_middle.
  - (* OpenBi *) destruct Ha as [[[e ->] ->]|(s & -> & -> & ->)]; [by split|]. split; [|by intros s' [= <-]].
    apply set_streams_ok; [done|]. intros i st [Hst|[_ Hst]]%lookup_app_Some; [by left|].
    apply list_lookup_singleton_Some in Hst as [_ <-]. by right.
  - (* AcceptBi *) destruct Ha as [[[e ->] ->]|(s & -> & [(Hs & _ & ->)|(_ & -> & ->)])]; [by split|by split; [|intros s' [= <-]]|].
    split; [|by intros s' [= <-]]. apply set_streams_ok; [done|].
    intros i st [Hst|[_ Hst]]%lookup_app_Some; [by left|]. apply list_lookup_singleton_Some in Hst as [_ <-]. by right.
  - (* SendFrame *) destruct Ha as [[[e ->] ->]|(st & Hst & ->)]; [by split|]. split; [|done].
    apply set_streams_ok; [done|]. intros i st' [(<- & <- & _)|[_ Hl]]%list_lookup_insert_Some; [right|by left].
    apply push_frame_good; [done|]. by apply (inv_streams _ _ w Hi (sr_stream s)).
  - (* RecvFrame *)
    destruct Ha as [[Hr ->]|(f & -> & st & rest & Hst & Hin & ->)].
    + split; [done|]. intros f ->. destruct Hp as (remote & Hg & Hc). destruct Hr as [[e ?]|[?|(remote' & Hrem & Hng)]]; [done..|].
      destruct Hng. unfold remote_of in Hrem. apply fmap_Some in Hrem as (d & Hd & ->).
      unfold conn_between in Hc. rewrite Hd in Hc. unfold other_end. by destruct Hc as [[= ->]|[= ->]]; simpl; case_decide; subst.
    + pose proof (inv_streams _ _ w Hi _ _ Hst) as Hg.
      assert (mesh_inv (set_streams (<[sr_stream s:=drop_frame n st]> (w_streams w)) w) /\
        mesh_ext w (set_streams (<[sr_stream s:=drop_frame n st]> (w_streams w)) w)) as [Hi' He'].
      { apply set_streams_ok; [done|]. intros i st' [(<- & <- & _)|[_ Hl]]%list_lookup_insert_Some; [right|by left].
        by apply drop_frame_good. }
      split; [done|]. intros f' [= <-]. eapply good_frame_ext; [exact He'|]. by eapply incoming_good.
  - (* RecvQueue *) destruct Ha as [[-> ->]|(f & q & -> & Hq & ->)]; [by split|].
    pose proof (inv_channels _ _ w Hi _ _ Hq) as Hg. apply Forall_cons in Hg as [Hf Hg].
    assert (mesh_inv (set_channels (<[rx:=q]> (w_channels w)) w) /\
      mesh_ext w (set_channels (<[rx:=q]> (w_channels w)) w)) as [Hi' He'].
    { apply set_channels_ok; [done|]. intros i q' [(<- & <- & _)|[_ Hl]]%list_lookup_insert_Some; [by right|by left]. }
    split; [done|]. intros f' [= <-]. by eapply good_frame_ext.
Qed.

(** The rule of a call. *)
Lemma call_ok R (c : MeshCall R) w :
  call_pre R c w -> wp mesh_answer mesh_inv mesh_ext (call c) w (call_post R c).
Proof.
  intros Hp. apply wp_call. intros w1 w2 r He Hi Ha.
  destruct (call_step R c w1 w2 r Hi (call_pre_ext R c w w1 He Hp) Ha) as [[Hi' He'] Hpost].
  split_and!; [done..|]. intros w3 He3 _. by eapply call_post_ext.
Qed.
End calls.
