(* ===== verification/MeshPrograms.v ===== *)
(** * The programs of a mesh keep its invariant

    Each program of [MeshRuntime], by the assume-guarantee rule of [Concurrent]: whatever the
    other tasks do in between, its calls keep [mesh_inv]. *)

From S2P Require Import Prelude Text Nostr SessionDirectory MeshWire Gossip MeshRegistry MeshMembership Concurrent MeshRuntime MeshWorld MeshWorldProps MeshCalls.

Section programs.
Context `{MeshNet} `{Hex} `{HashMapIter} `{RelayKeys} `{ReadySerde} `{PostcardLaws GossipMessage}.
Context (genuine : RuntimeId -> Prop) (relay_keypair : Keys).
Context (unforgeable : forall ready, rr_relay_pubkey ready = relay_pubkey relay_keypair ->
  verify_ready ready = Ok tt -> genuine (rr_runtime_id ready)).

Notation mesh_inv := (mesh_inv genuine relay_keypair).
Notation good_record := (good_record genuine).
Notation good_frame := (good_frame genuine).
Notation peer_ok := (peer_ok genuine).
Notation stream_ok := (stream_ok genuine).
Notation loop_ok := (loop_ok genuine).
Notation mwp := (wp (mesh_answer genuine) mesh_inv mesh_ext).
Notation call_pre := (call_pre genuine relay_keypair).
Notation call_post := (call_post genuine).

(** A program that only has to keep the invariant. *)
Notation safe p w := (mwp p w (fun _ _ => True)).

Lemma safe_ret {A} (a : A) w : safe (Ret a) w.
Proof. by intros w1 _ _. Qed.

Lemma mwp_seq {A B} (p : MeshProg A) (f : A -> MeshProg B) w P Q :
  mwp p w P -> mesh_inv w -> (forall a w1, mesh_ext w w1 -> mesh_inv w1 -> P a w1 -> mwp (f a) w1 Q) ->
  mwp (bind p f) w Q.
Proof. apply wp_seq. apply _. Qed.

Lemma mwp_call {R B} (c : MeshCall R) (f : R -> MeshProg B) w Q :
  mesh_inv w -> call_pre R c w ->
  (forall r w1, mesh_ext w w1 -> mesh_inv w1 -> call_post R c r w1 -> mwp (f r) w1 Q) ->
  mwp (bind (call c) f) w Q.
Proof. intros Hi Hp Hf. eapply mwp_seq; [by apply call_ok|done..]. Qed.

Lemma mwp_last {R} (c : MeshCall R) w : call_pre R c w -> safe (call c) w.
Proof. intros Hp. eapply wp_mono; [apply _| |by apply call_ok]. done. Qed.

Lemma safe_seq {A B} (p : MeshProg A) (f : A -> MeshProg B) w Q :
  safe p w -> mesh_inv w -> (forall a w1, mesh_ext w w1 -> mesh_inv w1 -> mwp (f a) w1 Q) -> mwp (bind p f) w Q.
Proof. intros Hp Hi Hf. eapply mwp_seq; [done..|]. auto. Qed.

(** Fallible programs: only an answer that is not an error goes on. *)
Lemma mwp_seq_ok {A B E} (p : MeshProg (Result A E)) (f : A -> MeshProg (Result B E)) w P Q :
  mwp p w P -> mesh_inv w ->
  (forall a w1, mesh_ext w w1 -> mesh_inv w1 -> P (Ok a) w1 -> mwp (f a) w1 Q) ->
  (forall e w1, Q (Err e) w1) -> mwp (bind_ok p f) w Q.
Proof.
  intros Hp Hi Hf He. eapply mwp_seq; [done..|]. intros [a|e] w1 Hw1 Hi1 HP; [by apply Hf|by intros w2 _ _].
Qed.

Lemma mwp_map_err {A E F} (g : E -> F) (p : MeshProg (Result A E)) w (P : A -> World -> Prop) :
  mwp p w (fun r w1 => forall a, r = Ok a -> P a w1) -> mesh_inv w ->
  (forall a w1 w2, mesh_ext w1 w2 -> P a w1 -> P a w2) ->
  mwp (map_err_await g p) w (fun r w1 => forall a, r = Ok a -> P a w1).
Proof.
  intros Hp Hi HP. eapply mwp_seq; [done..|]. intros r w1 Hw1 Hi1 Hr w2 Hw2 _ a Ha.
  apply map_err_ok in Ha. eauto.
Qed.

Lemma for_each_safe {A} (f : A -> MeshProg unit) l w :
  mesh_inv w -> (forall x w1, x ∈ l -> mesh_ext w w1 -> mesh_inv w1 -> safe (f x) w1) -> safe (for_each f l) w.
Proof.
  revert w. induction l as [|x l IH]; intros w Hi Hf; cbn [for_each]; [apply safe_ret|].
  apply safe_seq; [apply Hf; [by left|done..]|done|]. intros _ w1 Hw1 Hi1. apply IH; [done|].
  intros y w2 Hy Hw2. apply Hf; [by right|by etrans].
Qed.

(** One call of a program whose rest is to be verified. *)
Ltac mcall := eapply mwp_call; [done|try done|intros ? ? ? ? ?; cbn [MeshCalls.call_post] in *].
Tactic Notation "mcall" "as" ident(Hc) :=
  eapply mwp_call; [done|try done|intros ? ? ? ? Hc; cbn [MeshCalls.call_post] in *].
Ltac mlast := apply mwp_last; try done.

(** ** Redis *)

Lemma redis_safe {R} (c : RedisCall R) w : safe (Concurrent.call (redis_call _ c)) w.
Proof. apply mwp_last. done. Qed.

Lemma ok_seq_safe {A B E} (p : MeshProg (Result A E)) (f : A -> MeshProg (Result B E)) w :
  safe p w -> mesh_inv w -> (forall a w1, mesh_ext w w1 -> mesh_inv w1 -> safe (f a) w1) -> safe (bind_ok p f) w.
Proof. intros Hp Hi Hf. eapply mwp_seq_ok; [done..| |done]. auto. Qed.

Lemma map_err_safe {A E F} (g : E -> F) (p : MeshProg (Result A E)) w :
  safe p w -> mesh_inv w -> safe (map_err_await g p) w.
Proof. intros Hp Hi. apply safe_seq; [done..|]. intros r w1 _ _. apply safe_ret. Qed.

Ltac msafe :=
  repeat first
    [ apply safe_ret
    | apply redis_safe
    | done
    | apply ok_seq_safe; [|done|intros ? ? ? ?]
    | apply map_err_safe; [|done] ].

Lemma conn_safe w : mesh_inv w -> safe conn w.
Proof. intros Hi. unfold conn. msafe. Qed.

Lemma publish_ready_safe g r w : mesh_inv w -> safe (publish_ready g r) w.
Proof. intros Hi. unfold publish_ready. msafe. Qed.

Lemma clear_ready_safe n w : mesh_inv w -> safe (clear_ready n) w.
Proof. intros Hi. unfold clear_ready. msafe. Qed.

Lemma scan_keys_safe keys out w : mesh_inv w -> safe (scan_keys keys out) w.
Proof.
  revert out w. induction keys as [|key keys IH]; intros out w Hi; cbn [scan_keys]; msafe.
  destruct a; by apply IH.
Qed.

Lemma scan_loop_safe fuel cursor out w : mesh_inv w -> safe (scan_loop fuel cursor out) w.
Proof.
  revert cursor out w. induction fuel as [|fuel IH]; intros cursor out w Hi; cbn [scan_loop].
  - intros ? ? [].
  - msafe; [by apply scan_keys_safe|]. case_match; [apply safe_ret|by apply IH].
Qed.

Lemma tick_safe ready h w : mesh_inv w -> safe (tick ready h) w.
Proof.
  intros Hi. unfold tick. destruct ready; [|destruct (published h); [|apply safe_ret]];
    (apply safe_seq; [|done|intros [] w1 _ _; apply safe_ret]);
    [by apply publish_ready_safe|by apply clear_ready_safe].
Qed.

(** ** Membership *)

Lemma apply_ready_safe n rs w : mesh_inv w -> safe (apply_ready n rs) w.
Proof. intros Hi. apply for_each_safe; [done|]. intros x w1 _ _ _. by mlast. Qed.

Lemma membership_records_ok n w : mesh_inv w -> mwp (membership_records n) w (fun rs w1 => Forall (good_record w1) rs).
Proof.
  intros Hi. unfold membership_records. mcall. mcall. intros w2 Hw2 _.
  apply Forall_app; split; [|apply Forall_singleton; by eapply good_record_ext].
  eapply Forall_impl; [eassumption|]. intros x. apply good_record_ext. by etrans.
Qed.

Lemma rescan_safe fuel registry n w : mesh_inv w -> safe (rescan fuel registry n) w.
Proof.
  intros Hi. unfold rescan. destruct registry; [|apply safe_ret].
  apply safe_seq; [|done|].
  - apply ok_seq_safe; [by apply conn_safe|done|]. intros _ w1 _ Hi1. by apply scan_loop_safe.
  - intros [rs|e] w1 _ Hi1; [by apply apply_ready_safe|apply safe_ret].
Qed.

Lemma drain_safe n w : mesh_inv w -> safe (drain n) w.
Proof. intros Hi. unfold drain. mcall. mcall. apply safe_ret. Qed.

(** ** Peers *)

Lemma install_peer_safe n peer dialed w : mesh_inv w -> peer_ok w n peer -> safe (install_peer n peer dialed) w.
Proof. intros Hi Hp. unfold install_peer. mcall. destruct r; [|apply safe_ret]. mcall. apply safe_ret. Qed.

Lemma remove_peer_safe n id w : mesh_inv w -> safe (remove_peer n id) w.
Proof. intros Hi. unfold remove_peer. mcall. destruct r; [by mlast|apply safe_ret]. Qed.

Lemma endpoint_connect_ok n addr w : mesh_inv w ->
  mwp (endpoint_connect n addr) w (fun r w1 => forall peer, r = Ok peer ->
    conn_between w1 (mp_conn peer) n (peer_runtime_id peer) /\ peer_runtime_id peer = ea_id addr).
Proof.
  intros Hi. unfold endpoint_connect. eapply mwp_seq_ok; [|done| |done].
  - apply (mwp_map_err _ _ _ (fun c w1 => conn_between w1 (cn_id c) n (cn_remote_id c) /\ cn_remote_id c = ea_id addr));
      [by apply (call_ok genuine relay_keypair unforgeable _ (EndpointConnect n addr))|done|].
    intros c w1 w2 He [? ?]. split; [by eapply conn_between_ext|done].
  - intros c w1 Hw1 Hi1 Hc w2 Hw2 _ peer Hp. unfold from_connection in Hp. case_decide; [done|]. injection Hp as <-.
    destruct (Hc c eq_refl). simpl. split; [by eapply conn_between_ext|done].
Qed.

Lemma endpoint_accept_ok n w : mesh_inv w ->
  mwp (endpoint_accept n) w (fun r w1 => forall peer, r = Ok (Some peer) ->
    conn_between w1 (mp_conn peer) n (peer_runtime_id peer)).
Proof.
  intros Hi. unfold endpoint_accept. eapply mwp_seq_ok; [|done| |done].
  - apply (mwp_map_err _ _ _ (fun c w1 => forall c', c = Some c' -> conn_between w1 (cn_id c') n (cn_remote_id c')));
      [|done|].
    + eapply wp_mono; [apply _| |by apply (call_ok genuine relay_keypair unforgeable _ (EndpointAccept n))].
      intros r w1 _ _ Hc a -> c' ->. by apply Hc.
    + intros c w1 w2 He Hc c' Hc'. eapply conn_between_ext; [done|auto].
  - intros [c|] w1 Hw1 Hi1 Hc; [|by intros w2 _ _].
    cbn [bind_ok bind]. unfold from_connection. case_decide; [by intros w2 _ _|]. intros w2 Hw2 Hi2 peer [= <-].
    simpl. eapply conn_between_ext; [done|]. by apply (Hc (Some c)).
Qed.

Lemma dial_addrs_safe n record addrs w :
  mesh_inv w -> genuine (gr_runtime_id record) -> safe (dial_addrs n record addrs) w.
Proof.
  intros Hi Hg. revert w Hi. induction addrs as [|addr addrs IH]; intros w Hi; cbn [dial_addrs]; [by mlast|].
  destruct (parse_socket_addr addr) as [sock|]; [|by apply IH].
  destruct (direct_addr _ _) as [ea|] eqn:E; [|apply safe_ret].
  assert (ea_id ea = gr_runtime_id record) as Hid by (unfold direct_addr in E; inv_results; done).
  mcall. eapply mwp_seq; [by apply endpoint_connect_ok|done|]. intros [peer|e] w2 Hw2 Hi2 Hc; [|by apply IH].
  destruct (Hc peer eq_refl) as [Hcb Hpid]. apply safe_seq; [|done|intros; apply safe_ret].
  apply install_peer_safe; [done|]. split; [by rewrite Hpid, Hid|done].
Qed.

Lemma is_known_peer_ok fuel registry n id w : mesh_inv w ->
  mwp (is_known_peer fuel registry n id) w (fun r _ => r = true -> genuine id).
Proof.
  intros Hi. unfold is_known_peer. mcall. destruct r; [by intros w2 _ _ _; auto|].
  apply safe_seq; [by apply rescan_safe|done|]. intros _ w2 Hw2 Hi2.
  by apply (call_ok genuine relay_keypair unforgeable _ (HasPeer n id)).
Qed.

Lemma reconcile_once_safe fuel registry n w : mesh_inv w -> safe (reconcile_once fuel registry n) w.
Proof.
  intros Hi. unfold reconcile_once. apply safe_seq; [by apply rescan_safe|done|]. intros _ w1 Hw1 Hi1.
  eapply mwp_seq; [by apply membership_records_ok|done|]. intros rs w2 Hw2 Hi2 Hrs.
  apply for_each_safe; [done|]. intros r w3 Hr Hw3 Hi3. unfold dial_candidate. mcall.
  destruct r0; [apply safe_ret|]. apply dial_addrs_safe; [done|].
  apply list_elem_of_In, List.filter_In in Hr as [Hr%list_elem_of_In _]. rewrite Forall_forall in Hrs. by apply Hrs.
Qed.

(** ** Loops *)

Lemma accept_round_safe fuel registry n w : mesh_inv w -> safe (accept_round fuel registry n) w.
Proof.
  intros Hi. unfold accept_round. eapply mwp_seq; [by apply endpoint_accept_ok|done|].
  intros [[peer|]|e] w1 Hw1 Hi1 Hc; [|apply safe_ret..].
  eapply mwp_seq; [by apply is_known_peer_ok|done|]. intros [] w2 Hw2 Hi2 Hg; [|apply safe_ret].
  apply safe_seq; [|done|intros; apply safe_ret]. apply install_peer_safe; [done|].
  split; [by apply Hg|]. eapply conn_between_ext; [done|by apply Hc].
Qed.

Lemma datagram_round_safe n peer w : mesh_inv w -> safe (datagram_round n peer) w.
Proof.
  intros Hi. unfold datagram_round. mcall. destruct r as [d|e]; [|by apply remove_peer_safe].
  mcall. mcall. destruct r0; [by mlast|apply safe_ret].
Qed.

Lemma control_exchange_safe n remote s rx w :
  mesh_inv w -> stream_ok w n remote s -> safe (control_stream_exchange n remote s rx) w.
Proof. intros Hi Hs. unfold control_stream_exchange. mcall. mlast. by eapply stream_ok_ext. Qed.

Lemma stream_round_safe n peer w : mesh_inv w -> peer_ok w n peer -> safe (stream_round n peer) w.
Proof.
  intros Hi Hp. unfold stream_round. mcall as Hc. destruct r as [s|e]; [|by apply remove_peer_safe].
  assert (forall w2, mesh_ext w1 w2 -> stream_ok w2 n (peer_runtime_id peer) s) as Hs.
  { intros w2 Hw2. eapply (peer_ok_ext _ w w2) in Hp as [? ?]; [|by etrans].
    split; [done|]. by rewrite (Hc s eq_refl). }
  eapply mwp_call; [done|by eexists; apply Hs|]. intros r w2 Hw2 Hi2 _.
  destruct r as [[[h| | |]|]|]; try apply safe_ret. destruct (hello_role h).
  - mcall. mcall. mlast. apply Hs. by repeat (etrans; [eassumption|]).
  - mcall. mcall. destruct r0; [by mlast|apply safe_ret].
Qed.

Lemma open_control_stream_safe n peer rx w :
  mesh_inv w -> peer_ok w n peer -> safe (open_control_stream n peer rx) w.
Proof.
  intros Hi Hp. unfold open_control_stream. mcall as Hc. destruct r as [s|e]; [|apply safe_ret].
  mcall. destruct r as [[]|e]; [|apply safe_ret]. apply control_exchange_safe; [done|].
  eapply (peer_ok_ext _ w) in Hp as [? ?]; [|by etrans; eassumption]. split; [done|]. by rewrite (Hc s eq_refl).
Qed.

Lemma send_round_safe n remote s rx w : mesh_inv w -> safe (send_round n remote s rx) w.
Proof.
  intros Hi. unfold send_round. mcall as Hc. destruct r as [f|]; [|apply safe_ret].
  eapply mwp_call; [done|by apply Hc|]. intros r w2 Hw2 Hi2 _. destruct r; [by mlast|apply safe_ret].
Qed.

(** ** Gossip *)

Lemma decode_encoded m m' payload : encode_message m = Ok payload -> decode_message payload = Ok m' -> m' = m.
Proof.
  unfold encode_message, decode_message. intros Hm%map_err_ok Hd.
  destruct (to_extend_from_bytes m [] payload Hm) as (rest & -> & Hr). simpl in Hd. rewrite Hr in Hd. simpl in Hd.
  case_decide; [congruence|done].
Qed.

Lemma delta_of_good w rs digest : Forall (good_record w) rs -> good_message genuine w (delta_of rs digest).
Proof.
  intros Hrs. simpl. unfold sort_by_hex. rewrite merge_sort_Permutation. apply Forall_forall.
  intros r [_ Hr]%list_elem_of_filter.
  rewrite Forall_forall in Hrs. auto.
Qed.

Lemma on_gossip_safe n remote payload w :
  mesh_inv w -> good_frame w (MeshWire.Gossip payload) -> safe (on_gossip n remote payload) w.
Proof.
  intros Hi (m & Hm & Hg). unfold on_gossip.
  destruct (decode_message payload) as [m'|e] eqn:E; [|apply safe_ret].
  pose proof (decode_encoded m m' payload Hm E) as ->. destruct m as [v es|v rs]; simpl in Hg.
  - unfold membership_delta_now. eapply mwp_seq with (P := fun m w1 => good_message genuine w1 m); [|done|].
    + eapply mwp_seq; [by apply membership_records_ok|done|]. intros rs w1 Hw1 Hi1 Hrs w2 Hw2 _.
      apply delta_of_good. eapply Forall_impl; [exact Hrs|]. intros x. by apply good_record_ext.
    + intros m w1 Hw1 Hi1 Hgm. destruct (encode_message m) eqn:Em; [|apply safe_ret]. mlast. by exists m.
  - apply for_each_safe; [done|]. intros r w1 Hr Hw1 Hi1. mcall; [|apply safe_ret].
    eapply good_record_ext; [done|]. rewrite Forall_forall in Hg. by apply Hg.
Qed.

Lemma recv_round_safe n remote s w : mesh_inv w -> stream_ok w n remote s -> safe (recv_round n remote s) w.
Proof.
  intros Hi Hs. unfold recv_round. eapply mwp_call; [done|by exists remote|]. intros r w1 Hw1 Hi1 Hc.
  destruct r as [[[| | |payload]|]|]; try apply safe_ret. mcall. apply on_gossip_safe; [done|].
  eapply good_frame_ext; [|by apply Hc]. done.
Qed.

Lemma gossip_tick_safe n w : mesh_inv w -> safe (gossip_tick n) w.
Proof.
  intros Hi. unfold gossip_tick. eapply mwp_call; [done| |]; [by intros r|]. intros _ w1 Hw1 Hi1 _.
  unfold membership_digest_now. eapply mwp_seq with (P := fun m _ => exists rs, m = digest_of rs); [|done|].
  - eapply mwp_seq; [by apply membership_records_ok|done|]. intros rs w2 _ _ _ w3 _ _. by exists rs.
  - intros m w2 Hw2 Hi2 [rs ->]. destruct (encode_message _) eqn:Em; [|apply safe_ret].
    mcall. apply for_each_safe; [done|]. intros x w4 _ _ _. mlast. by eexists.
Qed.

Lemma round_safe fuel registry n l w : mesh_inv w -> loop_ok w n l -> safe (round fuel registry n l) w.
Proof.
  intros Hi Hl. destruct l; cbn [MeshWorldProps.loop_ok round] in Hl |- *;
    auto using accept_round_safe, reconcile_once_safe, gossip_tick_safe, datagram_round_safe, stream_round_safe,
      open_control_stream_safe, control_exchange_safe, recv_round_safe, send_round_safe.
Qed.

(** ** The other tasks *)

Lemma send_datagram_safe n to d w : mesh_inv w -> safe (send_datagram n to d) w.
Proof.
  intros Hi. unfold send_datagram. mcall. destruct r as [p|]; [|apply safe_ret].
  apply ok_seq_safe; [by mlast|done|]. intros _ w2 _ Hi2. mcall. apply safe_ret.
Qed.

Lemma open_session_stream_safe n to hello w : mesh_inv w -> safe (open_session_stream n to hello) w.
Proof.
  intros Hi. unfold open_session_stream. mcall. destruct r as [p|]; [|apply safe_ret].
  apply ok_seq_safe; [by mlast|done|]. intros s w2 _ Hi2.
  apply ok_seq_safe; [by mlast|done|]. intros _ w3 _ Hi3. mcall. apply safe_ret.
Qed.

Lemma boot_mesh_safe fuel enabled refresh addrs w :
  mesh_inv w -> safe (boot_mesh fuel enabled refresh relay_keypair addrs) w.
Proof.
  intros Hi. unfold boot_mesh. destruct enabled; cbn [negb]; [|apply safe_ret].
  eapply mwp_seq_ok; [by apply (call_ok genuine relay_keypair unforgeable _ Bind)|done| |done].
  intros n w1 Hw1 Hi1 Hg. mcall. apply ok_seq_safe; [by apply publish_ready_safe|done|]. intros _ w3 _ Hi3.
  eapply mwp_call; [done|split; [by apply Hg|by repeat split]|]. intros _ w4 _ Hi4 _.
  mcall. mcall. mcall. apply safe_seq; [by apply reconcile_once_safe|done|]. intros. apply safe_ret.
Qed.

Lemma drain_watch_safe n w : mesh_inv w -> safe (drain_watch n) w.
Proof. intros Hi. unfold drain_watch. mcall. destruct r; [|apply safe_ret]. apply safe_seq; [by apply drain_safe|done|]. intros. by mlast. Qed.

Lemma heartbeat_round_safe h w : mesh_inv w -> safe (heartbeat_round h) w.
Proof. intros Hi. unfold heartbeat_round. mcall. by apply tick_safe. Qed.
End programs.
