(* ===== verification/MeshProps.v ===== *)
(** * Properties of the mesh

    Every reachable mesh keeps the invariant of [MeshWorldProps]; what it says of the peers a
    runtime admits and of the records it holds.  An exchange of a digest and its delta brings
    a runtime up to what the other knew, so that news travel along any path of exchanges.  The
    tie-break of simultaneous dials leaves both ends with the same connection. *)

From S2P Require Import Prelude Text Nostr SessionDirectory MeshWire Gossip MeshRegistry MeshMembership Concurrent MeshRuntime MeshWorld MeshWorldProps MeshCalls MeshPrograms.

(** ** Tasks *)

(** What a mesh runs: boots, rounds of spawned loops, and what a relay asks of its runtime. *)
Inductive MeshTask :=
| BootTask (fuel : nat) (enabled : bool) (refresh : Duration) (addrs : list string)
| RoundTask (fuel : nat) (registry : bool) (n : RuntimeId) (l : Loop)
| ReconcileTask (fuel : nat) (n : RuntimeId)
| DatagramTask (n to : RuntimeId) (d : MeshDatagram)
| SessionTask (n to : RuntimeId) (hello : StreamHello)
| DrainTask (n : RuntimeId)
| HeartbeatTask (h : ReadyHeartbeat)
| ShutdownTask (n : RuntimeId).

(** What runtime [n] holds of [id], itself included. *)
Definition view (w : World) (n id : RuntimeId) : option GossipRecord :=
  nd ← w_nodes w !! n;
  if decide (id = n) then Some (local_record (nd_membership nd))
  else record <$> peers (nd_membership nd) !! id.

(** It knows version [v] of [id], or a later one. *)
Definition knows (w : World) (n id : RuntimeId) (v : N) : Prop :=
  exists r, view w n id = Some r /\ (v <= version r)%N.

Section mesh.
Context `{MeshNet} `{Hex} `{HashMapIter} `{RelayKeys} `{ReadySerde} `{PostcardLaws GossipMessage}.
Context (genuine : RuntimeId -> Prop) (relay_keypair : Keys).

Notation mesh_inv := (mesh_inv genuine relay_keypair).
Notation mesh_answer := (mesh_answer genuine).
Notation mwp := (wp mesh_answer mesh_inv mesh_ext).

(** A task returns nothing the others use. *)
Definition ignore {A} (p : MeshProg A) : MeshProg unit := let! _ := p in Ret tt.

Definition mesh_program (t : MeshTask) : MeshProg unit :=
  match t with
  | BootTask fuel enabled refresh addrs => ignore (boot_mesh fuel enabled refresh relay_keypair addrs)
  | RoundTask fuel registry n l => let! _ := Concurrent.call (Running n l) in round fuel registry n l
  | ReconcileTask fuel n => reconcile_once fuel true n
  | DatagramTask n to d => ignore (send_datagram n to d)
  | SessionTask n to hello => ignore (open_session_stream n to hello)
  | DrainTask n => drain_watch n
  | HeartbeatTask h => ignore (heartbeat_round h)
  | ShutdownTask n => shutdown n
  end.

(** The meshes that tasks of a deployment can bring about. *)
Definition reachable (w : World) : Prop :=
  exists ts, rtc (pool_step mesh_answer mesh_program) (empty_mesh, []) (w, ts).

(** What a run of tasks makes of a world ([run_later]). *)
Definition later (w w' : World) : Prop := mesh_inv w' /\ mesh_ext w w'.

(** *** News *)

(** [a] tells [b] what it has, [b] answers with what [a] lacks, [a] applies the answer; other
    tasks run at any point. *)
Definition exchange (a b : RuntimeId) (w w' : World) : Prop :=
  exists w1 w2 w3 w4 v entries delta payload,
    exec later mesh_answer (membership_digest_now a) w w1 (Digest v entries) /\ rtc later w1 w2 /\
    exec later mesh_answer (membership_delta_now b entries) w2 w3 delta /\ rtc later w3 w4 /\
    encode_message delta = Ok payload /\
    exec later mesh_answer (on_gossip a b payload) w4 w' tt.

(** Exchanges along a path, each runtime asking the one before it. *)
Fixpoint relayed (b : RuntimeId) (path : list RuntimeId) (w w' : World) : Prop :=
  match path with
  | [] => rtc later w w'
  | a :: path => exists w1 w2, rtc later w w1 /\ exchange a b w1 w2 /\ relayed a path w2 w'
  end.

Context (unforgeable : forall ready, rr_relay_pubkey ready = relay_pubkey relay_keypair ->
  verify_ready ready = Ok tt -> genuine (rr_runtime_id ready)).

Lemma empty_mesh_inv : mesh_inv empty_mesh.
Proof.
  split; simpl; [intros n nd|intros n h|intros i s|intros i q|intros n l]; rewrite ?lookup_empty, ?lookup_nil; try done.
  by intros Hl%elem_of_nil.
Qed.

Lemma ignore_safe {A} (p : MeshProg A) w :
  mwp p w (fun _ _ => True) -> mesh_inv w -> mwp (ignore p) w (fun _ _ => True).
Proof. intros Hp Hi. eapply safe_seq; [done..|]. intros. by intros w2 _ _. Qed.

Lemma mesh_program_ok t w : mesh_inv w -> mwp (mesh_program t) w (fun _ _ => True).
Proof.
  intros Hi. destruct t; cbn [mesh_program].
  - apply ignore_safe; [by apply boot_mesh_safe|done].
  - eapply mwp_call; [done..|]. intros [] w1 _ Hi1 Hl. by apply round_safe.
  - by apply reconcile_once_safe.
  - apply ignore_safe; [by apply send_datagram_safe|done].
  - apply ignore_safe; [by apply open_session_stream_safe|done].
  - by apply drain_watch_safe.
  - apply ignore_safe; [by apply heartbeat_round_safe|done].
  - by apply (mwp_last genuine relay_keypair unforgeable).
Qed.

Lemma run_ok x y :
  rtc (pool_step mesh_answer mesh_program) x y ->
  pool_ok mesh_answer mesh_inv mesh_ext (fun t _ _ => True) x ->
  pool_ok mesh_answer mesh_inv mesh_ext (fun t _ _ => True) y /\ mesh_ext x.1 y.1.
Proof. apply pool_steps_ok; [apply _|]. intros t w. apply mesh_program_ok. Qed.

Lemma reachable_inv w : reachable w -> mesh_inv w.
Proof.
  intros [ts Hts]. destruct (run_ok _ _ Hts) as [[Hi _] _]; [|done].
  split; [apply empty_mesh_inv|constructor].
Qed.

Lemma run_later x y :
  rtc (pool_step mesh_answer mesh_program) (empty_mesh, []) x ->
  rtc (pool_step mesh_answer mesh_program) x y -> later x.1 y.1.
Proof.
  intros Hx Hy. destruct (run_ok _ _ Hx) as [Hok _]; [split; [apply empty_mesh_inv|constructor]|].
  destruct (run_ok _ _ Hy Hok) as [[Hi _] He]. done.
Qed.

(** ** What a runtime holds *)

Lemma view_record w n id r : mesh_inv w -> view w n id = Some r ->
  good_record genuine w r /\ gr_runtime_id r = id.
Proof.
  intros Hi Hv. unfold view in Hv. apply bind_Some in Hv as (nd & Hn & Hv). case_decide as Hid.
  - subst id. injection Hv as <-. by eapply local_record_good.
  - apply fmap_Some in Hv as (p & Hp & ->). by destruct (node_peers _ _ _ _ _ (inv_nodes _ _ w Hi n nd Hn) id p Hp) as (? & ? & ?).
Qed.

Lemma view_ext w w' n id r : mesh_ext w w' -> view w n id = Some r ->
  exists r', view w' n id = Some r' /\ (version r <= version r')%N /\ (id <> n -> r' = r \/ version r < version r')%N.
Proof.
  intros He Hv. unfold view in *. apply bind_Some in Hv as (nd & Hn & Hv).
  destruct (ext_nodes _ _ He n nd Hn) as (nd' & -> & Ht & Hl). simpl. case_decide.
  - injection Hv as <-. eexists. split_and!; [done|done|by intros ?].
  - apply fmap_Some in Hv as (p & Hp & ->). destruct (Ht id p Hp) as (p' & -> & Hr). simpl. exists (record p').
    split_and!; [done| |]; destruct Hr as [->|Hr]; auto; lia.
Qed.

Lemma knows_ext w w' n id v : mesh_ext w w' -> knows w n id v -> knows w' n id v.
Proof.
  intros He (r & Hr & Hv). destruct (view_ext w w' n id r He Hr) as (r' & Hr' & Hv' & _). exists r'. split; [done|lia].
Qed.

(** A record of a runtime in the mesh is not ahead of the runtime. *)
Lemma good_record_behind w n nd r :
  mesh_inv w -> good_record genuine w r -> gr_runtime_id r = n -> w_nodes w !! n = Some nd ->
  let local := local_record (nd_membership nd) in
  r = local \/ newer r local \/ version r = 1%N /\ draining r = false /\ (1 <= version local)%N.
Proof.
  intros Hi [_ Hr] Hid Hn. simpl. destruct (node_local _ _ _ _ _ (inv_nodes _ _ w Hi n nd Hn)) as [h Hh].
  pose proof (inv_history _ _ w Hi n _ Hh) as Hok. destruct Hr as [(h' & Hh' & Hr)|[Hv Hd]].
  - rewrite Hid, Hh in Hh'. injection Hh' as <-. apply elem_of_app in Hr as [Hr|Hr%list_elem_of_singleton]; [|by left].
    right. left. eapply StronglySorted_app_1_elem_of; [apply Hok|done|by apply list_elem_of_singleton].
  - right. right. split_and!; [done|done|]. apply Hok, elem_of_app. right. by apply list_elem_of_singleton.
Qed.

(** ** Exchanges *)

Lemma for_each_post {A} (f : A -> MeshProg unit) l (P : A -> World -> Prop) w :
  mesh_inv w -> (forall x w1 w2, mesh_ext w1 w2 -> P x w1 -> P x w2) ->
  (forall x w1, x ∈ l -> mesh_ext w w1 -> mesh_inv w1 -> mwp (f x) w1 (fun _ => P x)) ->
  mwp (for_each f l) w (fun _ w1 => forall x, x ∈ l -> P x w1).
Proof.
  intros Hi HP. revert w Hi. induction l as [|x l IH]; intros w Hi Hf; cbn [for_each].
  - intros w1 _ _ x Hx. by apply elem_of_nil in Hx.
  - eapply mwp_seq; [apply Hf; [by left|done..]|done|]. intros [] w1 Hw1 Hi1 Hx.
    eapply wp_mono; [apply _| |apply IH; [done|]].
    + intros [] w2 Hw2 _ Hl y [->|Hy]%elem_of_cons; [by eapply HP|auto].
    + intros y w2 Hy Hw2. apply Hf; [by right|by etrans].
Qed.

(** What [membership_records] yields: nothing the runtime does not know, and all it knew. *)
Lemma membership_records_known n w : mesh_inv w ->
  mwp (membership_records n) w (fun rs w1 =>
    (forall r, r ∈ rs -> knows w1 n (gr_runtime_id r) (version r)) /\
    forall id v, knows w n id v -> exists r, r ∈ rs /\ gr_runtime_id r = id /\ (v <= version r)%N).
Proof.
  intros Hi. unfold membership_records. intros w1 w2 rs He1 Hi1 (nd & Hn & -> & ->).
  split; [done|]. split; [done|]. intros w2 w3 local He2 Hi2 (nd2 & Hn2 & -> & ->).
  split; [done|]. split; [done|]. intros w3 He3 Hi3. split.
  - intros r [Hr|Hr%list_elem_of_singleton]%elem_of_app.
    + apply list_elem_of_fmap in Hr as (p & -> & Hp). apply list_elem_of_fmap in Hp as ([id p'] & -> & Hp).
      apply elem_of_iter_entries in Hp. destruct (node_peers _ _ _ _ _ (inv_nodes _ _ w1 Hi1 n nd Hn) id p' Hp) as (_ & Hid & Hne).
      apply (knows_ext w1); [by etrans|]. eexists. unfold view. rewrite Hn. simpl.
      rewrite decide_False by congruence. rewrite Hid, Hp. split; [done|]. simpl. lia.
    + subst r. apply (knows_ext w2); [done|]. destruct (local_record_good _ _ w2 n nd2 Hi2 Hn2) as [_ Hid].
      eexists. unfold view. rewrite Hn2. simpl. rewrite decide_True by done. split; [done|lia].
  - intros id v Hk. destruct (decide (id = n)) as [->|Hne].
    + apply (knows_ext w w2) in Hk as (r & Hr & Hv); [|by etrans]. exists r.
      unfold view in Hr. rewrite Hn2 in Hr. simpl in Hr. rewrite decide_True in Hr by done. injection Hr as <-.
      split_and!; [apply elem_of_app; right; by apply list_elem_of_singleton|by destruct (local_record_good _ _ w2 n nd2 Hi2 Hn2)|done].
    + apply (knows_ext w w1) in Hk as (r & Hr & Hv); [|done]. exists r.
      unfold view in Hr. rewrite Hn in Hr. simpl in Hr. rewrite decide_False in Hr by done.
      apply fmap_Some in Hr as (p & Hp & ->). split_and!; [|by destruct (node_peers _ _ _ _ _ (inv_nodes _ _ w1 Hi1 n nd Hn) id p Hp) as (_ & ? & _)|done].
      apply elem_of_app. left. apply list_elem_of_fmap. exists p. split; [done|].
      apply list_elem_of_fmap. exists (id, p). split; [done|]. by apply elem_of_iter_entries.
Qed.

(** What a delta leaves out, the digest has. *)
Lemma remote_versions_Some es id v : remote_versions es !! id = Some v ->
  exists e, e ∈ es /\ de_runtime_id e = id /\ de_version e = v.
Proof.
  unfold remote_versions. assert (forall m : gmap RuntimeId N, fold_left (fun m e => <[de_runtime_id e := de_version e]> m) es m !! id = Some v ->
    m !! id = Some v \/ exists e, e ∈ es /\ de_runtime_id e = id /\ de_version e = v) as Hgen.
  { induction es as [|e es IH]; intros m Hm; [by left|]. simpl in Hm. apply IH in Hm as [Hm|(e' & ? & ?)].
    - destruct (decide (de_runtime_id e = id)) as [Hid|Hne].
      + rewrite Hid, lookup_insert_eq in Hm. injection Hm as Hm. right. exists e. split; [by left|done].
      + rewrite lookup_insert_ne in Hm by done. by left.
    - right. exists e'. split; [by right|done]. }
  intros Hm. apply Hgen in Hm as [Hm|?]; [by rewrite lookup_empty in Hm|done].
Qed.

Lemma delta_of_covers rs es r : r ∈ rs ->
  (exists ds, delta_of rs es = Delta GOSSIP_PAYLOAD_VERSION ds /\ r ∈ ds) \/
  exists e, e ∈ es /\ de_runtime_id e = gr_runtime_id r /\ (version r <= de_version e)%N.
Proof.
  intros Hr. destruct (behind (remote_versions es) r) eqn:E.
  - left. eexists. split; [done|]. unfold sort_by_hex. rewrite merge_sort_Permutation.
    by apply list_elem_of_filter.
  - right. unfold behind in E. destruct (remote_versions es !! gr_runtime_id r) as [v|] eqn:Hv; [|done].
    apply remote_versions_Some in Hv as (e & He & Hid & <-). exists e. apply N.ltb_ge in E. done.
Qed.

(** The digest only speaks of what the runtime knows. *)
Lemma digest_known a w : mesh_inv w ->
  mwp (membership_digest_now a) w (fun m w1 => forall v es, m = Digest v es ->
    forall e, e ∈ es -> knows w1 a (de_runtime_id e) (de_version e)).
Proof.
  intros Hi. eapply mwp_seq; [by apply membership_records_known|done|].
  intros rs w1 _ _ [Hrs _] w2 Hw2 _ v es [= <- <-] e He. unfold sort_by_hex in He.
  rewrite merge_sort_Permutation in He. apply list_elem_of_fmap in He as (r & -> & Hr).
  eapply knows_ext; [exact Hw2|]. by apply Hrs.
Qed.

(** What [b] knew is in the delta or in the digest it answers. *)
Lemma delta_known b es w : mesh_inv w ->
  mwp (membership_delta_now b es) w (fun m w1 => exists ds, m = Delta GOSSIP_PAYLOAD_VERSION ds /\
    Forall (good_record genuine w1) ds /\
    forall id v, knows w b id v ->
      (exists r, r ∈ ds /\ gr_runtime_id r = id /\ (v <= version r)%N) \/
      exists e, e ∈ es /\ de_runtime_id e = id /\ (v <= de_version e)%N).
Proof.
  intros Hi. unfold membership_delta_now.
  eapply mwp_seq with (P := fun rs w1 => Forall (good_record genuine w1) rs /\
    forall id v, knows w b id v -> exists r, r ∈ rs /\ gr_runtime_id r = id /\ (v <= version r)%N); [|done|].
  - eapply wp_mono; [apply _| |apply wp_and; [by apply membership_records_ok|by apply membership_records_known]].
    by intros rs w1 _ _ [? [_ ?]].
  - intros rs w1 _ _ [Hg Hrs] w2 Hw2 _. eexists. split; [done|]. split.
    + pose proof (delta_of_good genuine w1 rs es Hg) as Hd. by apply (good_message_ext genuine _ w2) in Hd.
    + intros id v Hk. destruct (Hrs id v Hk) as (r & Hr & Hid & Hv).
      destruct (delta_of_covers rs es r Hr) as [(ds & [= <-] & Hd)|(e & He & Hde & Hle)].
      * left. by exists r.
      * right. exists e. split_and!; [done|congruence|lia].
Qed.

(** A delta of good records, applied. *)
Lemma on_delta_known a b payload ds w :
  mesh_inv w -> is_Some (w_nodes w !! a) -> encode_message (Delta GOSSIP_PAYLOAD_VERSION ds) = Ok payload ->
  Forall (good_record genuine w) ds ->
  mwp (on_gossip a b payload) w (fun _ w1 => forall r, r ∈ ds -> knows w1 a (gr_runtime_id r) (version r)).
Proof.
  intros Hi Ha Hp Hds. unfold on_gossip.
  assert (decode_message payload = Ok (Delta GOSSIP_PAYLOAD_VERSION ds)) as ->.
  { unfold encode_message in Hp. apply map_err_ok in Hp.
    destruct (to_extend_from_bytes _ [] payload Hp) as (rest & -> & Hr). unfold decode_message. simpl. by rewrite Hr. }
  apply for_each_post; [done|intros r w1 w2 He; by apply knows_ext|].
  intros r w1 Hr Hw1 Hi1. eapply mwp_seq with (P := fun _ w2 => knows w2 a (gr_runtime_id r) (version r)); [|done|].
  - rewrite Forall_forall in Hds. pose proof (good_record_ext genuine w w1 r Hw1 (Hds r Hr)) as Hg.
    intros w2 w3 x Hw2 Hi2 Hc. pose proof (good_record_ext genuine w1 w2 r Hw2 Hg) as Hg2.
    destruct (call_step genuine relay_keypair unforgeable _ (ApplyGossip a r) w2 w3 x Hi2 Hg2 Hc) as [[Hi3 He3] _].
    split; [done|]. split; [done|]. intros w4 Hw4 _. apply (knows_ext w3); [done|].
    destruct Hc as (nd & m' & Hn & Hm & ->). destruct (decide (gr_runtime_id r = a)) as [Hra|Hne].
    + apply (knows_ext w2); [done|]. eexists. unfold view. rewrite Hra, Hn. simpl. rewrite decide_True by done.
      split; [done|]. destruct (good_record_behind w2 a nd r Hi2 Hg2 Hra Hn) as [->|[(_ & ? & _)|(-> & _ & ?)]]; lia.
    + destruct (inv_nodes _ _ w2 Hi2 a nd Hn) as [Hid _ _ _ _ _].
      destruct (apply_gossip_known r (nd_membership nd)) as (p & Hp' & Hv); [by rewrite Hid|].
      rewrite <-Hm in Hp'. simpl in Hp'. exists (record p). unfold view. simpl. rewrite lookup_insert_eq. simpl.
      rewrite decide_False by done. by rewrite Hp'.
  - intros x w2 _ _ Hk w3 Hw3 _. by eapply knows_ext.
Qed.

Lemma laters_ok w w' : rtc later w w' -> mesh_inv w -> mesh_inv w' /\ mesh_ext w w'.
Proof. apply (env_steps mesh_inv mesh_ext later). by intros w1 w2. Qed.

Lemma later_exec {A} (p : MeshProg A) w w' a Q :
  exec later mesh_answer p w w' a -> mesh_inv w -> mwp p w Q -> mesh_inv w' /\ mesh_ext w w' /\ Q a w'.
Proof. apply wp_exec; [apply _|by intros w1 w2]. Qed.

Lemma exchange_news a b w w' :
  mesh_inv w -> is_Some (w_nodes w !! a) -> exchange a b w w' ->
  mesh_inv w' /\ mesh_ext w w' /\ forall id v, knows w b id v -> knows w' a id v.
Proof.
  intros Hi [nd Hn] (w1 & w2 & w3 & w4 & v & es & delta & payload & Hdg & Hw12 & Hdl & Hw34 & Hp & Hap).
  destruct (later_exec _ _ _ _ _ Hdg Hi (digest_known a w Hi)) as (Hi1 & He1 & Hes).
  destruct (laters_ok w1 w2 Hw12 Hi1) as [Hi2 He2].
  destruct (later_exec _ _ _ _ _ Hdl Hi2 (delta_known b es w2 Hi2)) as (Hi3 & He3 & ds & -> & Hds & Hcov).
  destruct (laters_ok w3 w4 Hw34 Hi3) as [Hi4 He4].
  assert (mesh_ext w w4) as He04 by (etrans; [exact He1|etrans; [exact He2|by etrans]]).
  destruct (ext_nodes _ _ He04 a nd Hn) as (nd4 & Hn4 & _).
  assert (Forall (good_record genuine w4) ds) as Hds4.
  { eapply Forall_impl; [exact Hds|]. intros r. by apply good_record_ext. }
  destruct (later_exec _ _ _ _ _ Hap Hi4 (on_delta_known a b payload ds w4 Hi4 (mk_is_Some _ _ Hn4) Hp Hds4)) as (Hi5 & He5 & Hk).
  split; [done|]. split; [by etrans|]. intros id vid Hb.
  apply (knows_ext w w2) in Hb; [|etrans; [exact He1|exact He2]]. destruct (Hcov id vid Hb) as [(r & Hr & <- & Hv)|(e & He & <- & Hv)].
  - destruct (Hk r Hr) as (r' & Hr' & Hv'). exists r'. split; [done|lia].
  - apply (knows_ext w1); [by etrans; [exact He2|etrans; [exact He3|etrans; [exact He4|]]]|].
    destruct (Hes v es eq_refl e He) as (r' & Hr' & Hv'). exists r'. split; [done|lia].
Qed.

(** A later record of a runtime that drains. *)
Lemma drain_kept w r r' :
  mesh_inv w -> good_record genuine w r -> good_record genuine w r' -> gr_runtime_id r = gr_runtime_id r' ->
  (version r < version r')%N -> draining r = true -> draining r' = true.
Proof.
  intros Hi [_ Hr] [_ Hr'] Hid Hlt Hd. destruct Hr as [(h & Hh & Hr)|[_ ?]]; [|congruence].
  pose proof (inv_history _ _ w Hi _ _ Hh) as Hok. destruct (history_own _ _ Hok r Hr) as [_ Hv].
  destruct Hr' as [(h' & Hh' & Hr')|[Hv' _]]; [|lia].
  rewrite <-Hid, Hh in Hh'. injection Hh' as <-.
  apply list_elem_of_lookup in Hr as [i Hri], Hr' as [j Hrj].
  pose proof (history_newer _ _ Hok) as Hs.
  destruct (lt_eq_lt_dec i j) as [[Hij| ->]|Hji].
  - destruct (sorted_lookup newer h i j r r' Hs Hij Hri Hrj) as (_ & _ & Hn). auto.
  - rewrite Hri in Hrj. injection Hrj as <-. lia.
  - destruct (sorted_lookup newer h j i r' r Hs Hji Hrj Hri) as (_ & Hn & _). lia.
Qed.

Lemma default_last_cons {A} (a b : A) l : default a (last l) = default b (last (a :: l)).
Proof. destruct l as [|c l]; [done|]. rewrite last_cons_cons. by destruct (last (c :: l)) eqn:E; [|apply last_None in E]. Qed.

(** ** The properties *)

(** C9: whatever tasks the runtimes of a deployment run, and whatever Redis and outsiders send,
    a runtime's table and its connections name runtimes of the deployment only. *)
Theorem mesh_members_genuine w n nd :
  reachable w -> w_nodes w !! n = Some nd ->
  (forall id, has_peer id (nd_membership nd) = true -> genuine id /\ id <> n) /\
  (forall id e, nd_peers nd !! id = Some e ->
     genuine id /\ peer_runtime_id (pe_peer e) = id /\ conn_between w (mp_conn (pe_peer e)) n id).
Proof.
  intros Hr Hn. destruct (inv_nodes _ _ w (reachable_inv w Hr) n nd Hn) as [_ _ _ _ Hp He]. split.
  - intros id [p Hid]%bool_decide_eq_true. by destruct (Hp id p Hid) as ([Hg _] & <- & ?).
  - intros id e Hid. by destruct (He id e Hid) as [[Hg Hc] <-].
Qed.

(** C12: a record a runtime holds of another is one the other published, or the first hint of
    its ready record: never ahead of the owner, the same when it is of the owner's version
    (short of saturation), and draining only if the owner is.  It is only ever replaced by a
    newer one, and a peer known to drain is known to drain from then on. *)
Theorem mesh_records_published x y n nd id p :
  rtc (pool_step mesh_answer mesh_program) (empty_mesh, []) x -> rtc (pool_step mesh_answer mesh_program) x y ->
  w_nodes x.1 !! n = Some nd -> peers (nd_membership nd) !! id = Some p ->
  (forall owner, w_nodes x.1 !! id = Some owner ->
     let local := local_record (nd_membership owner) in
     (version (record p) <= version local)%N /\
     ((1 < version (record p))%N -> version (record p) = version local -> (version local < u64_max)%N -> record p = local) /\
     (draining (record p) = true -> draining local = true)) /\
  exists nd' p', w_nodes y.1 !! n = Some nd' /\ peers (nd_membership nd') !! id = Some p' /\
    (record p' = record p \/ (version (record p) < version (record p'))%N) /\
    (draining (record p) = true -> draining (record p') = true).
Proof.
  intros Hx Hy Hn Hp. assert (mesh_inv x.1) as Hi by (apply reachable_inv; exists x.2; by destruct x).
  destruct (run_later x y Hx Hy) as [Hi' He].
  destruct (node_peers _ _ _ _ _ (inv_nodes _ _ _ Hi n nd Hn) id p Hp) as (Hg & Hid & Hne). split.
  - intros owner Ho. simpl. destruct (good_record_behind x.1 id owner _ Hi Hg Hid Ho) as [->|[(Hv & ? & ?)|(-> & Hd & ?)]].
    + split_and!; [lia|done|done].
    + split_and!; [lia|lia|done].
    + split_and!; [lia|lia|by rewrite Hd].
  - destruct (ext_nodes _ _ He n nd Hn) as (nd' & Hn' & Ht & _). destruct (Ht id p Hp) as (p' & Hp' & Hr).
    exists nd', p'. split_and!; [done|done|done|]. intros Hd. destruct Hr as [->|Hlt]; [done|].
    destruct (node_peers _ _ _ _ _ (inv_nodes _ _ _ Hi' n nd' Hn') id p' Hp') as (Hg' & Hid' & _).
    eapply (drain_kept y.1); [done|by eapply good_record_ext|done|congruence|done|done].
Qed.

(** C13: tasks only ever make runtimes know more.  An exchange, with any tasks running in between,
    brings the asking runtime up to what the other knew; so along any path of exchanges,
    what the first runtime knew the last one knows. *)
Theorem gossip_spreads b path w w' id v :
  (forall x y, rtc (pool_step mesh_answer mesh_program) (empty_mesh, []) x ->
     rtc (pool_step mesh_answer mesh_program) x y -> later x.1 y.1) /\
  (reachable w -> Forall (fun a => is_Some (w_nodes w !! a)) path -> relayed b path w w' ->
   knows w b id v -> knows w' (default b (last path)) id v).
Proof.
  split; [apply run_later|]. intros Hr. apply reachable_inv in Hr. revert b w Hr.
  induction path as [|a path IH]; intros b w Hi Hps; simpl.
  - intros Hw Hk. destruct (laters_ok w w' Hw Hi) as [_ He]. by eapply knows_ext.
  - intros (w1 & w2 & Hw1 & Hx & Hrest) Hk. apply Forall_cons in Hps as [[nd Hn] Hps].
    destruct (laters_ok w w1 Hw1 Hi) as [Hi1 He1]. destruct (ext_nodes _ _ He1 a nd Hn) as (nd1 & Hn1 & _).
    destruct (exchange_news a b w1 w2 Hi1 (mk_is_Some _ _ Hn1) Hx) as (Hi2 & He2 & Hnews).
    specialize (IH a w2 Hi2). rewrite <-(default_last_cons a b path). apply IH; [|done|].
    + eapply Forall_impl; [exact Hps|]. intros c [ndc Hc].
      destruct (ext_nodes w w2 ltac:(by etrans) c ndc Hc) as (nd2 & Hn2 & _). by exists nd2.
    + apply Hnews. by eapply knows_ext.
Qed.
End mesh.
