(* ===== verification/MeshRuns.v ===== *)
(** * Concrete meshes

    Instances of the interfaces of the mesh, a deployment of two runtimes run step by step,
    and the witnesses of the mesh's theorems. *)

From S2P Require Import Prelude Text Nostr SessionDirectory SessionDirectoryProps MeshWire Gossip MeshRegistry MeshMembership GossipProps Concurrent MeshRuntime MeshWorld MeshWorldProps MeshCalls MeshPrograms MeshProps.
From Stdlib Require Import SpecFloat.

(** ** Instances *)

#[local] Existing Instance toy_hex.
#[local] Existing Instance toy_hex_laws.
#[local] Existing Instance map_order.

#[local] Instance toy_net : MeshNet :=
  {| SocketAddr := string; parse_socket_addr := Ok; public_key_from_bytes _ := Ok tt |}.

Definition deployed : list RuntimeId := ["a"; "b"].

Definition bytes_of (s : string) : Bytes := Ascii.N_of_ascii <$> String.list_ascii_of_string s.

(** The relay key has signed the runtimes of the deployment and nothing else. *)
Definition signed_message (id : RuntimeId) : Bytes := bytes_of (attestation_preimage id "relay").

#[local] Instance toy_keys : RelayKeys := {|
  Keys := unit; RelayPublicKey := unit; XOnlyPublicKey := unit; Signature := Bytes;
  public_key _ := tt;
  pubkey_from_hex s := if decide (s = "relay") then Ok tt else Err "unknown key";
  pubkey_to_hex _ := "relay";
  xonly _ := Ok tt;
  signature_from_str s := Ok (bytes_of s);
  sha256_digest := bytes_of;
  sign_schnorr _ m := String.string_of_list_ascii (Ascii.ascii_of_N <$> m);
  verify_schnorr s m _ :=
    if decide (s = m /\ m ∈ signed_message <$> deployed) then Ok tt else Err "bad signature" |}.

Definition toy_key : @Keys toy_keys := tt.

Definition ready_of (id : RuntimeId) : ReadyRecord := ReadyRecord_new id toy_key ["10.0.0.1:3478"] 1 [].

#[local] Instance toy_ready_serde : ReadySerde := {|
  ready_to_string r := Ok (rr_key r);
  ready_from_str s := match List.find (fun id => bool_decide (ready_key id = s)) deployed with
                      | Some id => Ok (ready_of id) | None => Err "no such record" end |}.

(** A codec of whole messages, as numbers. *)
Definition float_rep (f : spec_float) : bool + bool + unit + (bool * positive * Z) :=
  match f with
  | S754_zero s => inl (inl (inl s))
  | S754_infinity s => inl (inl (inr s))
  | S754_nan => inl (inr tt)
  | S754_finite s m e => inr (s, m, e)
  end.
Definition float_of (r : bool + bool + unit + (bool * positive * Z)) : spec_float :=
  match r with
  | inl (inl (inl s)) => S754_zero s
  | inl (inl (inr s)) => S754_infinity s
  | inl (inr tt) => S754_nan
  | inr (s, m, e) => S754_finite s m e
  end.
#[local] Instance float_eq_dec : EqDecision spec_float.
Proof. solve_decision. Defined.
#[local] Instance float_countable : Countable spec_float.
Proof. by apply (inj_countable' float_rep float_of); intros []. Defined.

Definition record_rep (r : GossipRecord) :=
  (gr_runtime_id r, endpoint_addrs r, proto_version r, load r, draining r, capabilities r, version r, heartbeat_millis r).
#[local] Instance record_eq_dec : EqDecision GossipRecord.
Proof. solve_decision. Defined.
#[local] Instance record_countable : Countable GossipRecord.
Proof.
  apply (inj_countable' record_rep (fun '(i, a, p, l, d, c, v, h) =>
    {| gr_runtime_id := i; endpoint_addrs := a; proto_version := p; load := l; draining := d;
       capabilities := c; version := v; heartbeat_millis := h |})). by intros [].
Defined.
#[local] Instance entry_eq_dec : EqDecision GossipDigestEntry.
Proof. solve_decision. Defined.
#[local] Instance entry_countable : Countable GossipDigestEntry.
Proof.
  apply (inj_countable' (fun e => (de_runtime_id e, de_version e))
    (fun '(i, v) => {| de_runtime_id := i; de_version := v |})). by intros [].
Defined.
#[local] Instance message_eq_dec : EqDecision GossipMessage.
Proof. solve_decision. Defined.
#[local] Instance message_countable : Countable GossipMessage.
Proof.
  apply (inj_countable' (fun m => match m with Digest v es => inl (v, es) | Delta v rs => inr (v, rs) end)
    (fun r => match r with inl (v, es) => Digest v es | inr (v, rs) => Delta v rs end)). by intros [].
Defined.

#[local] Instance toy_postcard : Postcard GossipMessage := {|
  to_extend m buf := Ok (buf ++ [N.pos (countable.encode m)]);
  from_bytes bytes := match bytes with
                      | [N.pos p] => match countable.decode p with Some m => Ok m | None => Err "malformed" end
                      | _ => Err "malformed" end |}.

#[local] Instance toy_postcard_laws : PostcardLaws GossipMessage.
Proof.
  split. intros m buf bytes [= <-]. exists [N.pos (countable.encode m)]. split; [done|]. simpl. by rewrite decode_encode.
Qed.

Definition toy_genuine (id : RuntimeId) : Prop := id ∈ deployed.

Lemma string_tail_inj a b x : (a ++ x)%string = (b ++ x)%string -> a = b.
Proof.
  intros E. apply (string_app_inj a b x x); [|done].
  apply (f_equal String.length) in E. rewrite !length_app_str in E. lia.
Qed.

Lemma string_head_inj p a b : (p ++ a)%string = (p ++ b)%string -> a = b.
Proof. intros E. by apply string_app_inj in E as [_ ?]. Qed.

Lemma bytes_of_inj a b : bytes_of a = bytes_of b -> a = b.
Proof.
  intros E. rewrite <-(String.string_of_list_ascii_of_string a), <-(String.string_of_list_ascii_of_string b). f_equal.
  revert E. unfold bytes_of. generalize (String.list_ascii_of_string a) (String.list_ascii_of_string b).
  intros l. induction l as [|x l IH]; intros [|y l']; try done. rewrite !fmap_cons. intros [= Hx Hl]. f_equal; [|auto].
  rewrite <-(Ascii.ascii_N_embedding x), <-(Ascii.ascii_N_embedding y). by rewrite Hx.
Qed.

Lemma attestation_preimage_inj id id' pk : attestation_preimage id pk = attestation_preimage id' pk -> id = id'.
Proof.
  unfold attestation_preimage. intros E. do 3 apply string_head_inj in E. apply string_tail_inj in E. by apply key_hex_inj.
Qed.

Lemma toy_unforgeable ready :
  rr_relay_pubkey ready = relay_pubkey toy_key -> verify_ready ready = Ok tt -> toy_genuine (rr_runtime_id ready).
Proof.
  unfold verify_ready. intros Hk. case_decide; [done|]. unfold verify_attestation. rewrite Hk. simpl.
  case_decide as E; [|done]. intros _. destruct E as [_ E].
  unfold toy_genuine, deployed.
  apply elem_of_cons in E. rewrite elem_of_cons in E. rewrite !elem_of_cons. destruct E as [E|[E|E%elem_of_nil]]; [left|right; left|done];
    by eapply attestation_preimage_inj, bytes_of_inj.
Qed.

(** ** A responder *)

Definition answer_node {R} (n : RuntimeId) (w : World) (f : Node -> option (World * R)) : option (World * R) :=
  w_nodes w !! n ≫= f.

Definition answer_membership {R} (n : RuntimeId) (w : World) (f : MeshMembership -> MeshMembership * R)
    : option (World * R) :=
  answer_node n w (fun nd => let '(m, r) := f (nd_membership nd) in Some (put_membership n nd m w, r)).

#[local] Instance peer_eq_dec : EqDecision MeshPeer.
Proof. solve_decision. Defined.
#[local] Instance stream_eq_dec : EqDecision StreamRef.
Proof. solve_decision. Defined.
#[local] Instance loop_eq_dec : EqDecision Loop.
Proof. solve_decision. Defined.

(** The index of the latest element that satisfies a test. *)
Fixpoint latest {A} (P : A -> bool) (i : nat) (l : list A) : option nat :=
  match l with
  | [] => None
  | x :: l => match latest P (S i) l with Some j => Some j | None => if P x then Some i else None end
  end.

Lemma latest_Some {A} (P : A -> bool) i l j : latest P i l = Some j -> i <= j /\ exists x, l !! (j - i) = Some x /\ P x = true.
Proof.
  revert i. induction l as [|x l IH]; intros i; simpl; [done|].
  destruct (latest P (S i) l) as [k|] eqn:E.
  - intros [= <-]. destruct (IH _ E) as (Hle & y & Hy & HP). split; [lia|]. exists y. split; [|done].
    by replace (k - i) with (S (k - S i)) by lia.
  - destruct (P x) eqn:HP; [|done]. intros [= <-]. split; [lia|]. exists x. by rewrite Nat.sub_diag.
Qed.

Definition toy_redis {R} (c : RedisCall R) : option R :=
  match c with
  | PoolGet => Some (Ok tt)
  | SetEx _ _ _ => Some (Ok tt)
  | RedisDel _ => Some (Ok tt)
  | Scan _ _ _ => Some (Ok (0%N, ready_key <$> deployed))
  | RedisGet key => Some (Ok (Some key))
  | Hang => None
  end.

Definition toy_respond (R : Type) (c : MeshCall R) (w : World) : option (World * R) :=
  match c with
  | Redis c => r ← toy_redis c; Some (w, r)
  | Bind =>
      match List.find (fun id => bool_decide (w_history w !! id = None)) deployed with
      | Some n => Some (put_history n [] w, Ok n)
      | None => Some (w, Err EmptyFrame)
      end
  | Start n m =>
      if bool_decide (w_nodes w !! n = None) && bool_decide (w_history w !! n = Some [])
      then Some (put_history n [local_record m] (put_node n {| nd_membership := m; nd_peers := ∅ |} w), tt) else None
  | Clock => Some (w, 0%Z)
  | ShuttingDown _ => Some (w, true)
  | DrainHuddles _ => Some (w, tt)
  | Running n l => if bool_decide ((n, l) ∈ w_spawned w) then Some (w, tt) else None
  | MeshRuntime.Spawn n l => Some (spawn_all n [l] w, tt)
  | NewChannel n => Some (set_channels (w_channels w ++ [[]]) w, length (w_channels w))
  | HasPeer n id => answer_node n w (fun nd => Some (w, has_peer id (nd_membership nd)))
  | ApplyReady n ready => answer_membership n w (fun m => (apply_ready_record 0%Z ready m, tt))
  | ApplyGossip n r => answer_membership n w (apply_gossip_record r)
  | PeerRecords n => answer_node n w (fun nd => Some (w, record <$> peer_states (nd_membership nd)))
  | LocalRecord n => answer_node n w (fun nd => Some (w, local_record (nd_membership nd)))
  | UpdateLocal n update => answer_node n w (fun nd =>
      h ← w_history w !! n;
      let '(m, local) := update_local 1000000%Z update (nd_membership nd) in
      Some (put_history n (h ++ [local]) (put_membership n nd m w), local))
  | StoreDraining n => answer_membership n w (fun m => (store_draining m, tt))
  | MarkState n id s => answer_membership n w (fun m => (mark_connection_state id s m, tt))
  | Count n k id => answer_membership n w (fun m => (record_count k id m, tt))
  | Contains n id => answer_node n w (fun nd => Some (w, bool_decide (is_Some (nd_peers nd !! id))))
  | Install n peer dialed => answer_node n w (fun nd =>
      match install_entry n peer dialed (length (w_channels w)) (nd_peers nd) with
      | None => Some (w, false)
      | Some (es, tasks) => Some (spawn_all n tasks (set_channels (w_channels w ++ [[]]) (put_peers n nd es w)), true)
      end)
  | SetControlTx n id tx => answer_node n w (fun nd => Some (put_peers n nd (alter (with_control_tx tx) id (nd_peers nd)) w, tt))
  | ControlTargets n => answer_node n w (fun nd =>
      Some (w, (filter (fun e => is_Some (control_tx e.2)) (iter_entries (nd_peers nd))).*1))
  | SendControl n id frame => answer_node n w (fun nd =>
      match nd_peers nd !! id ≫= control_tx with
      | None => Some (w, tt)
      | Some tx =>
          q ← w_channels w !! tx;
          if (length q <? CONTROL_QUEUE_DEPTH)%nat then Some (set_channels (<[tx := q ++ [frame]]> (w_channels w)) w, tt)
          else Some (w, tt)
      end)
  | EndpointConnect n addr =>
      Some (set_conns (w_conns w ++ [(n, ea_id addr)]) w,
            Ok {| cn_id := length (w_conns w); cn_alpn := ALPN; cn_remote_id := other_end n (n, ea_id addr) |})
  | EndpointAccept n =>
      match latest (fun c => bool_decide (c.2 = n)) 0 (w_conns w) with
      | None => Some (w, Ok None)
      | Some i => c ← w_conns w !! i;
          Some (w, Ok (Some {| cn_id := i; cn_alpn := ALPN; cn_remote_id := c.1 |}))
      end
  | OpenBi n peer =>
      Some (set_streams (w_streams w ++ [{| st_conn := mp_conn peer; st_opener := n; st_out := []; st_back := [] |}]) w,
            Ok {| sr_conn := mp_conn peer; sr_stream := length (w_streams w) |})
  | AcceptBi n peer =>
      match latest (fun s => bool_decide (st_conn s = mp_conn peer)) 0 (w_streams w) with
      | None => Some (w, Err EmptyFrame)
      | Some i => Some (w, Ok {| sr_conn := mp_conn peer; sr_stream := i |})
      end
  | SendFrame n s f =>
      st ← w_streams w !! sr_stream s;
      Some (set_streams (<[sr_stream s := push_frame n f st]> (w_streams w)) w, Ok tt)
  | RecvFrame n s =>
      st ← w_streams w !! sr_stream s;
      match incoming n st with
      | [] => None
      | f :: _ => Some (set_streams (<[sr_stream s := drop_frame n st]> (w_streams w)) w, Ok (Some f))
      end
  | RecvQueue n rx =>
      q ← w_channels w !! rx;
      match q with
      | [] => None
      | f :: q => Some (set_channels (<[rx := q]> (w_channels w)) w, Some f)
      end
  | _ => None
  end.

Lemma toy_mesh_answers R (c : MeshCall R) w w' r : toy_respond R c w = Some (w', r) -> mesh_answer toy_genuine R c w w' r.
Proof.
  destruct c; cbn [toy_respond mesh_answer]; unfold answer_membership, answer_node, reads, on_membership; intros Hr;
    repeat match goal with
    | H : _ ≫= _ = Some _ |- _ => apply bind_Some in H as (? & ? & ?)
    end; simplify_eq/=; eauto 6.
  - (* Bind *)
    repeat case_bool_decide; simplify_eq/=; [right|right|left; split; [by eexists|done]].
    + exists "a". split_and!; [done|by left|done..].
    + exists "b". split_and!; [done|by right; left|done..].
  - (* Start *) destruct (bool_decide _ && bool_decide _) eqn:E; [|done]. simplify_eq.
    by apply andb_true_iff in E as [?%bool_decide_eq_true ?%bool_decide_eq_true].
  - (* Running *) case_bool_decide; by simplify_eq.
  - (* ApplyGossip *) destruct (apply_gossip_record _ _) as [m b] eqn:E. simplify_eq. eauto 6.
  - (* UpdateLocal *) do 3 eexists. split; [done|]. split; [done|]. done.
  - (* Install *) eexists. split; [done|]. destruct (install_entry _ _ _ _ _) as [[es tasks]|]; by simplify_eq.
  - (* SendControl *) eexists. split; [done|].
    match goal with Hs : _ = Some (w', r) |- _ => rename Hs into Hr end.
    destruct (_ ≫= control_tx) as [tx|] eqn:E; [|simplify_eq; by left].
    apply bind_Some in Hr as (q & Hq & Hr). destruct (length q <? CONTROL_QUEUE_DEPTH)%nat eqn:El; simplify_eq; [right|by left].
    exists tx, q. split_and!; [done..|by apply Nat.ltb_lt|done].
  - (* EndpointConnect *) right. eexists. by split_and!.
  - (* EndpointAccept *)
    destruct (latest _ _ _) as [i|] eqn:E; simplify_eq; [|left; auto].
    apply latest_Some in E as (_ & [d n'] & Hi & Hn%bool_decide_eq_true). simpl in Hn. subst n'. rewrite Nat.sub_0_r in Hi.
    rewrite Hi in Hr. simplify_eq/=. right. eexists. split; [done|]. by left.
  - (* OpenBi *) right. eexists. by split_and!.
  - (* AcceptBi *)
    destruct (latest _ _ _) as [i|] eqn:E; simplify_eq; [|left; split; [by eexists|done]].
    apply latest_Some in E as (_ & st & Hi & Hn%bool_decide_eq_true). rewrite Nat.sub_0_r in Hi.
    right. eexists. split; [done|]. left. simpl. by rewrite Hi, <-Hn.
  - (* SendFrame *) right. by eexists.
  - (* RecvFrame *) destruct (incoming n x) as [|f rest] eqn:E; simplify_eq. right. exists f. split; [done|]. by exists x, rest.
  - (* RecvQueue *) destruct x as [|f q]; simplify_eq. right. by exists f, q.
Qed.

(** ** Two runtimes *)

Notation Spawn := Concurrent.Spawn.
Notation RoundOf n l := (RoundTask 3 true n l).

Definition link (remote : RuntimeId) : MeshPeer := {| mp_conn := 0; peer_runtime_id := remote |}.
Definition control : StreamRef := {| sr_conn := 0; sr_stream := 0 |}.

(** Both boot and dial each other, the connection dialed by the smaller id stays, and its
    control stream carries the first gossip. *)
Definition meeting : list (Turn (T := MeshTask)) :=
  [Spawn (BootTask 3 true 15000000000%N ["10.0.0.1:3478"]); Run 0 60;
   Spawn (BootTask 3 true 15000000000%N ["10.0.0.2:3478"]); Run 1 60;
   Spawn (RoundOf "a" (OpenControlStream (link "b") 0)); Run 2 20;
   Spawn (RoundOf "b" AcceptLoop); Run 3 20;
   Spawn (RoundOf "a" AcceptLoop); Run 4 20;
   Spawn (RoundOf "b" (StreamAcceptLoop (link "a"))); Run 5 20;
   Spawn (RoundOf "b" (ControlExchange "a" control 3)); Run 6 20].

(** A digest from [b], what [a] answers, a digest from [a], what [b] answers. *)
Definition gossiping : list (Turn (T := MeshTask)) :=
  [Spawn (RoundOf "b" GossipTickLoop); Run 7 20; Spawn (RoundOf "b" (ControlSend "a" control 3)); Run 8 20;
   Spawn (RoundOf "a" (ControlRecv "b" control)); Run 9 20;
   Spawn (RoundOf "a" GossipTickLoop); Run 10 20;
   Spawn (RoundOf "a" (ControlSend "b" control 0)); Run 11 20; Spawn (RoundOf "a" (ControlSend "b" control 0)); Run 12 20;
   Spawn (RoundOf "b" (ControlRecv "a" control)); Run 13 20; Spawn (RoundOf "b" (ControlRecv "a" control)); Run 14 20;
   Spawn (RoundOf "b" (ControlSend "a" control 3)); Run 15 20;
   Spawn (RoundOf "a" (ControlRecv "b" control)); Run 16 20].

(** [b] drains, and [a] hears of it. *)
Definition draining_turns : list (Turn (T := MeshTask)) :=
  [Spawn (DrainTask "b"); Run 17 20;
   Spawn (RoundOf "a" GossipTickLoop); Run 18 20; Spawn (RoundOf "a" (ControlSend "b" control 0)); Run 19 20;
   Spawn (RoundOf "b" (ControlRecv "a" control)); Run 20 20; Spawn (RoundOf "b" (ControlSend "a" control 3)); Run 21 20;
   Spawn (RoundOf "a" (ControlRecv "b" control)); Run 22 20].

Notation mesh_run turns x := (run_schedule (mesh_program toy_key) toy_respond turns x).

Definition mesh_met := default (empty_mesh, []) (mesh_run (meeting ++ gossiping) (empty_mesh, [])).
Definition mesh_drained := default (empty_mesh, []) (mesh_run draining_turns mesh_met).

Definition held (w : World) (n id : RuntimeId) : option (N * bool) :=
  (fun r => (version r, draining r)) <$> view w n id.

Lemma mesh_run_steps turns x y :
  mesh_run turns x = Some y -> rtc (pool_step (mesh_answer toy_genuine) (mesh_program toy_key)) x y.
Proof. apply run_schedule_steps. exact toy_mesh_answers. Qed.

Lemma mesh_met_reached : rtc (pool_step (mesh_answer toy_genuine) (mesh_program toy_key)) (empty_mesh, []) mesh_met.
Proof.
  assert (ends : (if mesh_run (meeting ++ gossiping) (empty_mesh, []) is Some _ then true else false) = true)
    by (vm_compute; reflexivity).
  unfold mesh_met. destruct (run_schedule _ _ (meeting ++ gossiping) _) as [x|] eqn:Hx; [|done].
  by apply mesh_run_steps in Hx.
Qed.

Lemma mesh_drained_reached : rtc (pool_step (mesh_answer toy_genuine) (mesh_program toy_key)) mesh_met mesh_drained.
Proof.
  assert (ends : (if mesh_run draining_turns mesh_met is Some _ then true else false) = true)
    by (vm_compute; reflexivity).
  unfold mesh_drained. destruct (run_schedule _ _ draining_turns _) as [x|] eqn:Hx; [|done].
  by apply mesh_run_steps in Hx.
Qed.

Definition node_at (w : World) (n : RuntimeId) : Node :=
  default {| nd_membership := MeshMembership_new (GossipRecord_new 0%Z n [] 1); nd_peers := ∅ |} (w_nodes w !! n).

Definition has_node (w : World) (n : RuntimeId) : bool := if w_nodes w !! n is Some _ then true else false.

Lemma node_at_ok w n : has_node w n = true -> w_nodes w !! n = Some (node_at w n).
Proof. unfold has_node, node_at. by destruct (w_nodes w !! n). Qed.

Lemma mesh_members_genuine_witness :
  has_peer "b" (nd_membership (node_at mesh_met.1 "a")) = true /\ toy_genuine "b" /\
  exists e, nd_peers (node_at mesh_met.1 "a") !! "b" = Some e /\ conn_between mesh_met.1 (mp_conn (pe_peer e)) "a" "b".
Proof.
  assert (reach : reachable toy_genuine toy_key mesh_met.1).
  { exists mesh_met.2. rewrite <-surjective_pairing. exact mesh_met_reached. }
  destruct (mesh_members_genuine toy_genuine toy_key toy_unforgeable mesh_met.1 "a" (node_at mesh_met.1 "a") reach
    (node_at_ok mesh_met.1 "a" ltac:(vm_compute; reflexivity))) as [Hm He].
  assert (known : has_peer "b" (nd_membership (node_at mesh_met.1 "a")) = true) by (vm_compute; reflexivity).
  split; [exact known|]. split; [exact (proj1 (Hm "b" known))|].
  assert (some : (if nd_peers (node_at mesh_met.1 "a") !! "b" is Some _ then true else false) = true)
    by (vm_compute; reflexivity).
  destruct (nd_peers (node_at mesh_met.1 "a") !! "b") as [e|] eqn:E; [|discriminate some].
  exists e. split; [reflexivity|]. exact (proj2 (proj2 (He "b" e E))).
Defined.

(** What [a] holds of [b], before and after [b] drains. *)
Lemma mesh_records_published_witness :
  exists p p', peers (nd_membership (node_at mesh_met.1 "a")) !! "b" = Some p /\
    (version (record p) <= version (local_record (nd_membership (node_at mesh_met.1 "b"))))%N /\
    (record p' = record p \/ (version (record p) < version (record p'))%N) /\
    held mesh_drained.1 "a" "b" = Some (3%N, true).
Proof.
  assert (some : (if peers (nd_membership (node_at mesh_met.1 "a")) !! "b" is Some _ then true else false) = true)
    by (vm_compute; reflexivity).
  destruct (peers (nd_membership (node_at mesh_met.1 "a")) !! "b") as [p|] eqn:E; [|discriminate some].
  destruct (mesh_records_published toy_genuine toy_key toy_unforgeable mesh_met mesh_drained "a"
    (node_at mesh_met.1 "a") "b" p mesh_met_reached mesh_drained_reached
    (node_at_ok mesh_met.1 "a" ltac:(vm_compute; reflexivity)) E) as (Hown & nd' & p' & _ & _ & Hr & _).
  exists p, p'. split; [reflexivity|].
  split; [exact (proj1 (Hown _ (node_at_ok mesh_met.1 "b" ltac:(vm_compute; reflexivity))))|].
  split; [exact Hr|]. vm_compute. reflexivity.
Defined.

(** ** An exchange *)

Fixpoint run_prog {A} (p : MeshProg A) (w : World) : option (World * A) :=
  match p with
  | Ret a => Some (w, a)
  | Do c k => '(w, r) ← toy_respond _ c w; run_prog (k r) w
  end.

Lemma run_prog_exec {A} env (p : MeshProg A) w w' a :
  run_prog p w = Some (w', a) -> exec env (mesh_answer toy_genuine) p w w' a.
Proof.
  revert w. induction p as [a'|R c k IH]; intros w; simpl.
  - intros [= -> ->]. split; [apply rtc_refl|reflexivity].
  - intros ([w1 r] & Hr & Hk)%bind_Some. exists w, w1, r. split; [apply rtc_refl|].
    split; [by apply toy_mesh_answers|by apply IH].
Qed.

Definition entries_of (m : GossipMessage) : list GossipDigestEntry :=
  match m with Digest _ es => es | Delta _ _ => [] end.

(** [a] asks [b] after it has drained. *)
Definition drain_only : list (Turn (T := MeshTask)) := [Spawn (DrainTask "b"); Run 17 20].
Definition mesh_before := default mesh_met (mesh_run drain_only mesh_met).
Definition asked := default (mesh_before.1, Delta 0 []) (run_prog (membership_digest_now "a") mesh_before.1).
Definition answered := default (mesh_before.1, Delta 0 []) (run_prog (membership_delta_now "b" (entries_of asked.2)) asked.1).
Definition sent_payload : Bytes := match encode_message answered.2 with Ok p => p | Err _ => [] end.
Definition applied : World * unit := default (mesh_before.1, tt) (run_prog (on_gossip "a" "b" sent_payload) answered.1).
Definition mesh_after : World := applied.1.

Lemma ran_exec {A} env (p : MeshProg A) w d :
  (if run_prog p w is Some _ then true else false) = true ->
  exec env (mesh_answer toy_genuine) p w (default d (run_prog p w)).1 (default d (run_prog p w)).2.
Proof. destruct (run_prog p w) as [[w' a]|] eqn:E; [|done]. intros _. by apply run_prog_exec. Qed.

Lemma mesh_before_reached : reachable toy_genuine toy_key mesh_before.1.
Proof.
  exists mesh_before.2. rewrite <-surjective_pairing.
  assert (ends : (if mesh_run drain_only mesh_met is Some _ then true else false) = true)
    by (vm_compute; reflexivity).
  unfold mesh_before. destruct (run_schedule _ _ drain_only _) as [x|] eqn:Hx; [|done].
  apply mesh_run_steps in Hx. etrans; [exact mesh_met_reached|exact Hx].
Qed.

Lemma asked_digest : exists es, asked.2 = Digest GOSSIP_PAYLOAD_VERSION es.
Proof. eexists. vm_compute. reflexivity. Qed.

Notation ran p w w' a := (exec (later toy_genuine toy_key) (mesh_answer toy_genuine) p w w' a).

Lemma asked_exec : ran (membership_digest_now "a") mesh_before.1 asked.1 asked.2.
Proof.
  unfold asked. apply (ran_exec _ (membership_digest_now "a") mesh_before.1 (mesh_before.1, Delta 0 [])).
  vm_compute. reflexivity.
Qed.

Lemma answered_exec : ran (membership_delta_now "b" (entries_of asked.2)) asked.1 answered.1 answered.2.
Proof.
  unfold answered. apply (ran_exec _ (membership_delta_now "b" (entries_of asked.2)) asked.1 (mesh_before.1, Delta 0 [])).
  vm_compute. reflexivity.
Qed.

Lemma applied_exec : ran (on_gossip "a" "b" sent_payload) answered.1 applied.1 applied.2.
Proof.
  unfold applied. apply (ran_exec _ (on_gossip "a" "b" sent_payload) answered.1 (mesh_before.1, tt)).
  vm_compute. reflexivity.
Qed.

Lemma sent_encoded : encode_message answered.2 = Ok sent_payload.
Proof. unfold sent_payload, encode_message. reflexivity. Qed.

Lemma mesh_exchanged : exchange toy_genuine toy_key "a" "b" mesh_before.1 mesh_after.
Proof.
  destruct asked_digest as [es Hes]. pose proof asked_exec as Ha. pose proof answered_exec as Hb. rewrite Hes in Ha, Hb.
  exists asked.1, asked.1, answered.1, answered.1, GOSSIP_PAYLOAD_VERSION, es, answered.2, sent_payload.
  split; [exact Ha|]. split; [apply rtc_refl|]. split; [exact Hb|]. split; [apply rtc_refl|].
  split; [exact sent_encoded|]. pose proof applied_exec as Hc. unfold mesh_after.
  generalize dependent applied. intros [w' []] Hc. exact Hc.
Qed.

Lemma gossip_spreads_witness :
  held mesh_before.1 "a" "b" = Some (2%N, false) /\ knows mesh_before.1 "b" "b" 3 /\ knows mesh_after "a" "b" 3.
Proof.
  split; [vm_compute; reflexivity|].
  assert (known : knows mesh_before.1 "b" "b" 3).
  { assert (some : (if view mesh_before.1 "b" "b" is Some r then (3 <=? version r)%N else false) = true)
      by (vm_compute; reflexivity).
    unfold knows. destruct (view mesh_before.1 "b" "b") as [r|]; [|discriminate some].
    exists r. split; [reflexivity|exact (proj1 (N.leb_le _ _) some)]. }
  split; [exact known|].
  apply (proj2 (gossip_spreads toy_genuine toy_key toy_unforgeable "b" ["a"] mesh_before.1 mesh_after "b" 3));
    [exact mesh_before_reached| |exists mesh_before.1, mesh_after; split_and!; [apply rtc_refl|exact mesh_exchanged|apply rtc_refl]|exact known].
  apply Forall_singleton. exists (node_at mesh_before.1 "a"). apply node_at_ok. vm_compute. reflexivity.
Defined.

(** ** The membership table *)

(** A delta with a newer record of the local runtime: the table keeps its own, the state does
    not. *)
Example own_record_differs :
  let local := GossipRecord_new 0%Z "a" [] 1 in
  let newer := bump 5000000%Z local in
  gossip_get (apply_delta [newer] (GossipState_new local)).1 "a" = Some newer /\
  local_record (apply_gossip [newer] (MeshMembership_new local)).1 = local.
Proof. vm_compute. split; reflexivity. Qed.

Lemma membership_refines_gossip_witness :
  let local := GossipRecord_new 0%Z "a" ["10.0.0.1:3478"] 1 in
  let ops := [Deltas [GossipRecord_new 0%Z "b" [] 1; bump 5000000%Z local; GossipRecord_new 0%Z "c" [] 1];
              LocalUpdate 5000000%Z set_draining; Deltas [bump 7000000%Z (GossipRecord_new 0%Z "c" [] 1)]] in
  (run_table ops (MeshMembership_new local)).2 = ["b"; "c"; "c"] /\
  (run_state (others_only "a" <$> ops) (GossipState_new local) "a").2 = (run_table ops (MeshMembership_new local)).2 /\
  membership_digest (run_table ops (MeshMembership_new local)).1 =
    gossip_digest (run_state (others_only "a" <$> ops) (GossipState_new local) "a").1.
Proof.
  intros local ops.
  assert (hyp : Forall keeps_owner ops) by (repeat constructor).
  pose proof (membership_refines_gossip local ops [] hyp) as Hm.
  split; [vm_compute; reflexivity|]. change (gr_runtime_id local) with "a" in Hm.
  destruct (run_state (others_only "a" <$> ops) (GossipState_new local) "a") as [s c], (run_table ops (MeshMembership_new local)) as [m c'].
  destruct Hm as (-> & Hd & _). split; [reflexivity|exact Hd].
Defined.
