(* ===== verification/ReliableStream.v ===== *)
(** * Reliable tunnel streams ([crates/buzz-relay/src/tunnel/reliable.rs])

    The relay side of a reliable session: who owns it ([join], [accept_inbound]), the
    chunked and fenced frames of a [ReliableMeshStream], and the task that renews the lease.
    It consults [SessionDirectory] and sends over the halves of [MeshWire]. *)

From S2P Require Import Prelude Nostr SessionDirectory MeshWire.

(** [bytes.chunks(n)] *)
Fixpoint chunks_fuel {A} (fuel n : nat) (l : list A) : list (list A) :=
  match fuel, l with
  | S fuel, _ :: _ => take n l :: chunks_fuel fuel n (drop n l)
  | _, _ => []
  end.

Definition chunks {A} (n : nat) (l : list A) : list (list A) := chunks_fuel (length l) n l.

(** 1 MiB *)
Definition MAX_RELIABLE_PAYLOAD_BYTES : N := 1024 * 1024.

Inductive ReliableStreamError :=
| Directory (e : DirectoryError)
| Mesh (e : MeshError)
| ProfileMismatch (session_id : Uuid) (expected actual : Profile)
| SenderMismatch (peer hello_sender : RuntimeId)
| UnexpectedStreamRole
| OwnerIsNotLocal (session_id : Uuid) (owner_runtime_id local_runtime_id : RuntimeId)
| UnexpectedFrame (kind : string)
| FrameFenceMismatch (expected actual : FencedHeader)
| CommunityMismatch (expected actual : CommunityId)
| MalformedReliableFrame (what : string).

(** Validated frame from a reliable mesh stream. *)
Inductive ReliableFrame :=
| ReliableData (payload : Bytes)
| ReliableGoodbye (reason : GoodbyeReason).

Definition to_wire_byte (r : GoodbyeReason) : N :=
  match r with
  | SessionEnded => 1
  | Draining => 2
  | GoodbyeStaleGeneration => 3
  end.

Definition from_wire_byte (byte : N) : Result GoodbyeReason ReliableStreamError :=
  match byte with
  | 1%N => Ok SessionEnded
  | 2%N => Ok Draining
  | 3%N => Ok GoodbyeStaleGeneration
  | _ => Err (MalformedReliableFrame "unknown goodbye reason")
  end.

(** ** The frames inside a mesh [Data] frame *)

Module ReliableWireFrame.
Inductive t :=
| Data (community_id : CommunityId) (payload : Bytes)
| Goodbye (community_id : CommunityId) (reason : GoodbyeReason).

Definition VERSION : N := 1.
Definition DATA : N := 1.
Definition GOODBYE : N := 2.

Definition community_id (f : t) : CommunityId :=
  match f with Data c _ | Goodbye c _ => c end.

Section codec.
Context `{UuidBytes}.

Definition encode (f : t) : Bytes :=
  match f with
  | Data c payload => [VERSION] ++ [DATA] ++ uuid_as_bytes c ++ payload
  | Goodbye c reason => [VERSION] ++ [GOODBYE] ++ uuid_as_bytes c ++ [to_wire_byte reason]
  end.

Definition decode (bytes : Bytes) : Result t ReliableStreamError :=
  if (length bytes <? 18)%nat then Err (MalformedReliableFrame "too short")
  else if bool_decide (nth 0 bytes 0%N <> VERSION)
  then Err (MalformedReliableFrame "unknown version")
  else
    let c := uuid_from_bytes (take 16 (drop 2 bytes)) in
    let kind := nth 1 bytes 0%N in
    if decide (kind = DATA) then Ok (Data c (drop 18 bytes))
    else if decide (kind = GOODBYE) then
      if bool_decide (length bytes <> 19) then Err (MalformedReliableFrame "bad goodbye length")
      else let? reason := from_wire_byte (nth 18 bytes 0%N) in Ok (Goodbye c reason)
    else Err (MalformedReliableFrame "unknown kind").
End codec.
End ReliableWireFrame.

(** ** The stream *)

Record ReliableMeshStream (S R : Type) := {
  r_fenced : FencedHeader;
  r_stream : MeshStream S R;
  r_community_id : option CommunityId;
}.
Arguments r_fenced {S R} r.
Arguments r_stream {S R} r.
Arguments r_community_id {S R} r.

Section stream.
Context `{NostrApi} `{Redis} `{Hex} `{UuidBytes}.
Context {S R : Type} `{StreamSendHalf S} `{StreamRecvHalf R}.
Implicit Types r : ReliableMeshStream S R.

(** [ReliableMeshStream::new]; [new_inbound] is the same. *)
Definition reliable_new (fenced : FencedHeader) (stream : MeshStream S R) : ReliableMeshStream S R :=
  {| r_fenced := fenced; r_stream := stream; r_community_id := None |}.

Definition new_inbound (fenced : FencedHeader) (stream : MeshStream S R) : ReliableMeshStream S R :=
  reliable_new fenced stream.

Definition with_community (c : CommunityId) r : ReliableMeshStream S R :=
  {| r_fenced := r_fenced r; r_stream := r_stream r; r_community_id := Some c |}.

Definition set_send_half (s : S) r : ReliableMeshStream S R :=
  {| r_fenced := r_fenced r; r_stream := {| send := s; recv := recv (r_stream r) |};
     r_community_id := r_community_id r |}.

Definition set_recv_half (x : R) r : ReliableMeshStream S R :=
  {| r_fenced := r_fenced r; r_stream := {| send := send (r_stream r); recv := x |};
     r_community_id := r_community_id r |}.

Definition ensure_outbound_community (c : CommunityId) r
    : ReliableMeshStream S R * Result unit ReliableStreamError :=
  match r_community_id r with
  | Some expected =>
      if decide (expected <> c) then (r, Err (CommunityMismatch expected c)) else (r, Ok tt)
  | None => (with_community c r, Ok tt)
  end.

(** [self.stream.send_frame(MeshStreamFrame::Data {..}).await?] *)
Definition send_wire (f : ReliableWireFrame.t) r
    : ReliableMeshStream S R * Result unit ReliableStreamError :=
  let '(s, x) := send_frame (Data (r_fenced r) (ReliableWireFrame.encode f)) (send (r_stream r)) in
  (set_send_half s r, map_err Mesh x).

Fixpoint send_chunks (c : CommunityId) (cs : list Bytes) r
    : ReliableMeshStream S R * Result unit ReliableStreamError :=
  match cs with
  | [] => (r, Ok tt)
  | chunk :: cs =>
      match send_wire (ReliableWireFrame.Data c chunk) r with
      | (r, Ok _) => send_chunks c cs r
      | (r, Err e) => (r, Err e)
      end
  end.

Definition send_bytes (c : CommunityId) (bytes : Bytes) r
    : ReliableMeshStream S R * Result unit ReliableStreamError :=
  match ensure_outbound_community c r with
  | (r, Err e) => (r, Err e)
  | (r, Ok _) => send_chunks c (chunks (N.to_nat MAX_RELIABLE_PAYLOAD_BYTES) bytes) r
  end.

Definition reliable_finish r : ReliableMeshStream S R * Result unit ReliableStreamError :=
  let '(s, x) := finish (send (r_stream r)) in (set_send_half s r, map_err Mesh x).

Definition send_goodbye (c : CommunityId) (reason : GoodbyeReason) r
    : ReliableMeshStream S R * Result unit ReliableStreamError :=
  match ensure_outbound_community c r with
  | (r, Err e) => (r, Err e)
  | (r, Ok _) =>
      match send_wire (ReliableWireFrame.Goodbye c reason) r with
      | (r, Err e) => (r, Err e)
      | (r, Ok _) => reliable_finish r
      end
  end.

Definition validate_frame_fence (c : CommunityId) (fenced : FencedHeader) (conn : Conn) (st : Store) r
    : ReliableMeshStream S R * Result unit ReliableStreamError :=
  if decide (fenced <> r_fenced r) then (r, Err (FrameFenceMismatch (r_fenced r) fenced))
  else
    let mismatch :=
      match r_community_id r with
      | Some expected => if decide (expected <> c) then Some expected else None
      | None => None
      end in
    match mismatch with
    | Some expected => (r, Err (CommunityMismatch expected c))
    | None =>
        match validate_fenced_header c fenced conn st with
        | Err e => (r, Err (Mesh e))
        | Ok _ =>
            (if decide (r_community_id r = None) then with_community c r else r, Ok tt)
        end
    end.

Definition recv_validated (conn : Conn) (st : Store) r
    : ReliableMeshStream S R * Result (option ReliableFrame) ReliableStreamError :=
  let '(x, res) := recv_frame (recv (r_stream r)) in
  let r := set_recv_half x r in
  match res with
  | Err e => (r, Err (Mesh e))
  | Ok None => (r, Ok None)
  | Ok (Some (Data fenced payload)) =>
      match ReliableWireFrame.decode payload with
      | Err e => (r, Err e)
      | Ok frame =>
          let '(r, ok) :=
            validate_frame_fence (ReliableWireFrame.community_id frame) fenced conn st r in
          (r,
           let? _ := ok in
           Ok (Some (match frame with
                     | ReliableWireFrame.Data _ payload => ReliableData payload
                     | ReliableWireFrame.Goodbye _ reason => ReliableGoodbye reason
                     end)))
      end
  | Ok (Some (Goodbye _ _)) => (r, Err (UnexpectedFrame "goodbye"))
  | Ok (Some (Hello _)) => (r, Err (UnexpectedFrame "hello"))
  | Ok (Some (Gossip _)) => (r, Err (UnexpectedFrame "gossip"))
  end.

(** ** Joining and accepting *)

Inductive ReliableJoin :=
| Owned (lease : SessionLease)
| Forwarded (lease : SessionLease) (stream : ReliableMeshStream S R).

Record ReliableInbound := {
  i_fenced : FencedHeader;
  i_from : RuntimeId;
  i_stream : ReliableMeshStream S R;
}.

(** [ReliableStreamRouter::join]; [open_session_stream] is that of the transport. *)
Definition join (open_session_stream : RuntimeId -> StreamHello -> Result (MeshStream S R) MeshError)
    (lease_ttl : Z) (local_runtime_id : RuntimeId) (c : CommunityId) (s : Uuid) (conn : Conn)
    (st : Store) : Store * Result ReliableJoin ReliableStreamError :=
  let '(st, r) := acquire lease_ttl c s local_runtime_id ReliableStream conn st in
  (st,
   match r with
   | Err e => Err (Directory e)
   | Ok (Acquired lease) => Ok (Owned lease)
   | Ok (Exists lease) =>
       if decide (sl_profile lease <> ReliableStream)
       then Err (ProfileMismatch s ReliableStream (sl_profile lease))
       else if decide (sl_owner_runtime_id lease = local_runtime_id) then Ok (Owned lease)
       else
         let fenced := fenced_header lease in
         let hello := {| sender := local_runtime_id; hello_role := Session fenced ReliableStream |} in
         let? stream := map_err Mesh (open_session_stream (sl_owner_runtime_id lease) hello) in
         Ok (Forwarded lease (reliable_new fenced stream))
   end).

Definition accept_inbound (local_runtime_id from : RuntimeId) (hello : StreamHello)
    (stream : MeshStream S R) : Result ReliableInbound ReliableStreamError :=
  if decide (sender hello <> from) then Err (SenderMismatch from (sender hello))
  else
    match hello_role hello with
    | Control => Err UnexpectedStreamRole
    | Session fenced profile =>
        if decide (profile <> ReliableStream)
        then Err (ProfileMismatch (fh_session_id fenced) ReliableStream profile)
        else if decide (fh_owner_runtime_id fenced <> local_runtime_id)
        then Err (OwnerIsNotLocal (fh_session_id fenced) (fh_owner_runtime_id fenced) local_runtime_id)
        else Ok {| i_fenced := fenced; i_from := from; i_stream := new_inbound fenced stream |}
    end.
End stream.

(** ** The renewal task *)

(** Where the task of [spawn_lease_renewer] stands, and its [lost] signal. *)
Inductive RenewerPhase :=
| Renewing
| Releasing (caller_cancelled : bool)
| Finished
| Panicked.

Record Renewer := {
  phase : RenewerPhase;
  lost : bool;
}.

Definition spawn_lease_renewer : Renewer := {| phase := Renewing; lost := false |}.

(** What the task waits for: the caller's token, the next tick of the interval, or the
    answer to its release. *)
Inductive RenewerEvent :=
| Cancel
| Tick (conn : Conn)
| Release (conn : Conn).

Section renewer.
Context `{NostrApi} `{Redis} `{Hex}.

Definition renewer_step (lease_ttl : Z) (lease : SessionLease) (ev : RenewerEvent) (w : Renewer)
    (st : Store) : Store * Renewer :=
  match phase w, ev with
  | Renewing, Cancel => (st, {| phase := Releasing true; lost := lost w |})
  | Renewing, Tick conn =>
      let '(st, r) := renew lease_ttl lease conn st in
      (st,
       match r with
       | Some (Ok (Renewed _)) => w
       | Some (Ok (RenewLost _ _)) | Some (Err _) => {| phase := Releasing false; lost := true |}
       | None => {| phase := Panicked; lost := lost w |}
       end)
  | Releasing caller_cancelled, Release conn =>
      let '(st, r) := release lease conn st in
      (st,
       match r with
       | Some (Ok (Released _)) => {| phase := Finished; lost := lost w |}
       | Some (Ok (NotOwner _ _)) => {| phase := Finished; lost := true |}
       | Some (Err _) => {| phase := Finished; lost := lost w || negb caller_cancelled |}
       | None => {| phase := Panicked; lost := lost w |}
       end)
  | _, _ => (st, w)
  end.
End renewer.
