(* ===== verification/ReliableStreamProps.v ===== *)
(** * Reliable tunnels deliver their owner's bytes ([ReliableStream])

    The frame codec is exact; what is sent arrives, in order and whole, over any
    [FramedStream]; what is delivered was sent by the owner of the live lease and belongs to
    one community; the renewal task signals every loss of the lease. *)

From S2P Require Import Prelude Text Nostr SessionDirectory SessionDirectoryProps MeshWire.
From S2P Require Import MeshWireProps ReliableStream.

(** ** The codec *)

Section codec.
Context `{UuidBytesLaws}.
Import ReliableWireFrame.

Lemma from_wire_byte_ok b r : from_wire_byte b = Ok r <-> b = to_wire_byte r.
Proof.
  split; [|intros ->; by destruct r]. unfold from_wire_byte.
  destruct b as [|[[]|[]|]]; try done; by intros [= <-].
Qed.

Lemma decode_encode_wire f : (community_id f < 2 ^ 128)%N -> decode (encode f) = Ok f.
Proof.
  intros Hc. unfold decode. destruct f as [c p|c r]; cbn [encode community_id app] in *.
  - rewrite (proj2 (Nat.ltb_ge _ _)) by (simpl; rewrite length_app, length_uuid_as_bytes; lia).
    cbn [nth]. rewrite bool_decide_false, decide_True by tauto.
    change (drop 2 _) with (uuid_as_bytes c ++ p). change (drop 18 _) with (drop 16 (uuid_as_bytes c ++ p)).
    rewrite take_app_length', drop_app_length' by (by rewrite length_uuid_as_bytes).
    by rewrite uuid_from_as_bytes.
  - rewrite (proj2 (Nat.ltb_ge _ _)) by (simpl; rewrite length_app, length_uuid_as_bytes; simpl; lia).
    rewrite (bool_decide_false (length _ <> 19))
      by (simpl; rewrite length_app, length_uuid_as_bytes; simpl; lia).
    change (drop 2 _) with (uuid_as_bytes c ++ [to_wire_byte r]).
    change (nth 18 _ 0%N) with (nth 16 (uuid_as_bytes c ++ [to_wire_byte r]) 0%N). cbn [nth].
    rewrite bool_decide_false by tauto. rewrite decide_False, decide_True by done.
    rewrite take_app_length' by (by rewrite length_uuid_as_bytes). rewrite uuid_from_as_bytes by done.
    rewrite app_nth2 by (rewrite length_uuid_as_bytes; lia). rewrite length_uuid_as_bytes.
    cbn [Nat.sub nth]. by rewrite (proj2 (from_wire_byte_ok _ r)).
Qed.

Lemma encode_decode_wire bs f :
  Forall (fun b => (b < 256)%N) bs -> decode bs = Ok f -> encode f = bs.
Proof.
  intros Hb. unfold decode. destruct (Nat.ltb_spec (length bs) 18) as [|Hl]; [done|].
  destruct bs as [|v [|k rest]]; [simpl in Hl; lia..|]. cbn [nth]. simpl in Hl.
  case_bool_decide as Hv; [done|]. assert (v = VERSION) as -> by (by destruct (decide (v = VERSION))).
  change (drop 2 _) with rest. apply Forall_cons in Hb as [_ [_ Hb]%Forall_cons]. change (drop 18 _) with (drop 16 rest).
  assert (uuid_as_bytes (uuid_from_bytes (take 16 rest)) = take 16 rest) as Hu
    by (apply uuid_as_from_bytes; [rewrite length_take; lia|by apply Forall_take]).
  case_decide as Hk; [intros [= <-]; subst k|].
  { cbn [encode app]. rewrite Hu. by rewrite take_drop. }
  case_decide as Hk'; [|done]. subst k. case_bool_decide as H19; [done|].
  intros Hr. apply result_bind_ok in Hr as (r & Hr & [= <-]). apply from_wire_byte_ok in Hr.
  cbn [encode app]. rewrite Hu, <-Hr. assert (length rest = 17) as H17.
  { destruct (decide (length (VERSION :: GOODBYE :: rest) = 19)) as [E|]; [simpl in E; lia|done]. }
  do 2 f_equal. rewrite <-(take_drop 16 rest) at 3. f_equal.
  do 17 (destruct rest as [|? rest]; [simpl in H17; lia|]). destruct rest; [done|simpl in H17; lia].
Qed.

(** Encoding and decoding the frames of a reliable stream are inverse to each other: a
    string of bytes decodes to a frame exactly when it is that frame's encoding, so no two
    byte strings mean the same frame and none means two frames. *)
Theorem reliable_codec_exact f bs :
  (community_id f < 2 ^ 128)%N -> Forall (fun b => (b < 256)%N) bs ->
  decode bs = Ok f <-> bs = encode f.
Proof.
  intros Hc Hb. split; [by intros <-%encode_decode_wire|intros ->; by apply decode_encode_wire].
Qed.
End codec.

(** ** Chunks *)

Lemma chunks_fuel_spec {A} fuel n (l : list A) :
  0 < n -> length l <= fuel ->
  concat (chunks_fuel fuel n l) = l /\
  Forall (fun c => c <> [] /\ length c <= n) (chunks_fuel fuel n l).
Proof.
  intros Hn. revert l. induction fuel as [|fuel IH]; intros [|a l] Hl; simpl in Hl; try lia; try done.
  cbn [chunks_fuel concat]. destruct (IH (drop n (a :: l))) as [Hc Hf].
  { rewrite length_drop. simpl. lia. }
  split; [by rewrite Hc, take_drop|]. constructor; [|done]. split; [|rewrite length_take; lia].
  destruct n; [lia|done].
Qed.

Lemma chunks_spec {A} n (l : list A) :
  0 < n -> concat (chunks n l) = l /\ Forall (fun c => c <> [] /\ length c <= n) (chunks n l).
Proof. intros Hn. by apply chunks_fuel_spec. Qed.

Definition reliable_chunks (m : Bytes) : list Bytes := chunks (N.to_nat MAX_RELIABLE_PAYLOAD_BYTES) m.

Lemma chunk_size_pos : 0 < N.to_nat MAX_RELIABLE_PAYLOAD_BYTES.
Proof. unfold MAX_RELIABLE_PAYLOAD_BYTES. lia. Qed.

Lemma concat_reliable_chunks ms :
  concat (concat (reliable_chunks <$> ms)) = concat ms /\
  Forall (fun p => p <> [] /\ length p <= N.to_nat MAX_RELIABLE_PAYLOAD_BYTES)
    (concat (reliable_chunks <$> ms)).
Proof.
  induction ms as [|m ms [IHc IHf]]; [done|]. cbn [fmap list_fmap concat].
  destruct (chunks_spec (N.to_nat MAX_RELIABLE_PAYLOAD_BYTES) m chunk_size_pos) as [Hc Hf].
  rewrite concat_app, IHc. split; [by unfold reliable_chunks; rewrite Hc|]. by apply Forall_app.
Qed.

(** ** Sending and receiving a session *)

Section tunnel.
Context `{UuidLaws} `{RedisLaws} `{HexLaws} `{UuidBytesLaws} {S R : Type} `{FramedStream S R}.
Implicit Types r x : ReliableMeshStream S R.
Import ReliableWireFrame (encode, decode).

(** The mesh frame of a reliable frame. *)
Definition wire (f : FencedHeader) (w : ReliableWireFrame.t) : MeshStreamFrame := MeshWire.Data f (encode w).

(** What a successful operation leaves of a sender. *)
Definition sends c r r' (ws : list ReliableWireFrame.t) : Prop :=
  r_fenced r' = r_fenced r /\ r_community_id r' = Some c /\
  forall fs, sent (send (r_stream r)) fs ->
    sent (send (r_stream r')) (fs ++ (wire (r_fenced r) <$> ws)).

Lemma sends_trans c r1 r2 r3 ws ws' :
  sends c r1 r2 ws -> sends c r2 r3 ws' -> sends c r1 r3 (ws ++ ws').
Proof.
  intros (E & _ & Hs) (E' & Hc & Hs'). split_and!; [congruence|done|].
  intros fs Hfs. rewrite fmap_app, (assoc (++)). rewrite E in Hs'. by apply Hs', Hs.
Qed.

Lemma send_wire_sends w r r' :
  send_wire w r = (r', Ok tt) ->
  r_fenced r' = r_fenced r /\ r_community_id r' = r_community_id r /\
  forall fs, sent (send (r_stream r)) fs ->
    sent (send (r_stream r')) (fs ++ [wire (r_fenced r) w]).
Proof.
  unfold send_wire. destruct (send_frame _ _) as [s res] eqn:Hf. intros [= <- Hr].
  apply map_err_ok in Hr as ->. split_and!; [done..|]. intros fs Hfs. simpl.
  by eapply send_frame_sent.
Qed.

Lemma ensure_outbound_ok c r r' :
  ensure_outbound_community c r = (r', Ok tt) -> sends c r r' [].
Proof.
  unfold ensure_outbound_community. destruct (r_community_id r) as [c'|] eqn:Ec.
  - case_decide as Hc; [done|]. intros [= <-]. subst c'.
    split_and!; [done..|]. intros fs. by rewrite app_nil_r.
  - intros [= <-]. split_and!; [done..|]. intros fs. by rewrite app_nil_r.
Qed.

Lemma send_wire_ok c w r r' :
  r_community_id r = Some c -> send_wire w r = (r', Ok tt) -> sends c r r' [w].
Proof. intros Hc (E & Ec & Hs)%send_wire_sends. split_and!; [done|congruence|done]. Qed.

Lemma send_chunks_ok c cs r r' :
  r_community_id r = Some c -> send_chunks c cs r = (r', Ok tt) ->
  sends c r r' (ReliableWireFrame.Data c <$> cs).
Proof.
  revert r. induction cs as [|p cs IH]; simpl; intros r Hc Hr.
  { simplify_eq. split_and!; [done..|]. intros fs. by rewrite app_nil_r. }
  destruct (send_wire _ r) as [r1 [[]|e]] eqn:Hw; [|done].
  apply (send_wire_ok c) in Hw; [|done].
  eapply (sends_trans _ _ _ _ [_]); [exact Hw|]. apply IH; [apply Hw|done].
Qed.

Lemma send_bytes_ok c m r r' :
  send_bytes c m r = (r', Ok tt) ->
  sends c r r' (ReliableWireFrame.Data c <$> reliable_chunks m).
Proof.
  unfold send_bytes. destruct (ensure_outbound_community c r) as [r1 [[]|e]] eqn:He; [|done].
  apply ensure_outbound_ok in He. intros Hs%send_chunks_ok; [|apply He].
  by eapply (sends_trans _ _ _ _ []).
Qed.

Lemma send_goodbye_ok c reason r r' :
  send_goodbye c reason r = (r', Ok tt) -> sends c r r' [ReliableWireFrame.Goodbye c reason].
Proof.
  unfold send_goodbye. destruct (ensure_outbound_community c r) as [r1 [[]|e]] eqn:He; [|done].
  destruct (send_wire _ r1) as [r2 [[]|e]] eqn:Hw; [|done]. apply ensure_outbound_ok in He.
  apply (send_wire_ok c) in Hw; [|apply He]. unfold reliable_finish.
  destruct (finish _) as [s res] eqn:Hf. intros [= <- ->%map_err_ok].
  eapply (sends_trans _ _ _ _ []); [exact He|]. destruct Hw as (E & Ec & Hs).
  split_and!; [done..|]. intros fs Hfs. simpl. eapply finish_sent; [by apply Hs|done].
Qed.

(** A whole outgoing session: the messages, then a goodbye. *)
Fixpoint send_session c (ms : list Bytes) (reason : GoodbyeReason) r
    : ReliableMeshStream S R * Result unit ReliableStreamError :=
  match ms with
  | [] => send_goodbye c reason r
  | m :: ms =>
      match send_bytes c m r with
      | (r, Ok _) => send_session c ms reason r
      | (r, Err e) => (r, Err e)
      end
  end.

Lemma send_session_ok c ms reason r r' :
  send_session c ms reason r = (r', Ok tt) ->
  sends c r r' ((ReliableWireFrame.Data c <$> concat (reliable_chunks <$> ms)) ++
                [ReliableWireFrame.Goodbye c reason]).
Proof.
  revert r. induction ms as [|m ms IH]; simpl; intros r Hr; [by apply send_goodbye_ok|].
  destruct (send_bytes c m r) as [r1 [[]|e]] eqn:Hm; [|done].
  rewrite fmap_app, <-(assoc (++)). eapply sends_trans; [by apply send_bytes_ok|by apply IH].
Qed.

(** Receive until the end or an error, once in each of the directory's states. *)
Fixpoint receive (ws : list Store) x : list ReliableFrame * option (Result unit ReliableStreamError) :=
  match ws with
  | [] => ([], None)
  | st :: ws =>
      match recv_validated Up st x with
      | (x, Ok (Some f)) => let '(fs, e) := receive ws x in (f :: fs, e)
      | (_, Ok None) => ([], Some (Ok tt))
      | (_, Err e) => ([], Some (Err e))
      end
  end.

(** What a reliable frame is delivered as. *)
Definition delivered (w : ReliableWireFrame.t) : ReliableFrame :=
  match w with
  | ReliableWireFrame.Data _ p => ReliableData p
  | ReliableWireFrame.Goodbye _ reason => ReliableGoodbye reason
  end.

Lemma recv_wire conn st x c w fs :
  ReliableWireFrame.community_id w = c -> (c < 2 ^ 128)%N ->
  r_community_id x = None \/ r_community_id x = Some c ->
  validate_fenced_header c (r_fenced x) conn st = Ok tt ->
  arrives (recv (r_stream x)) (wire (r_fenced x) w :: fs) ->
  exists x', recv_validated conn st x = (x', Ok (Some (delivered w))) /\
    r_fenced x' = r_fenced x /\ r_community_id x' = Some c /\ arrives (recv (r_stream x')) fs.
Proof.
  intros Hw Hc Hx Hv (h & Hr & Hh)%recv_frame_next. unfold recv_validated. rewrite Hr.
  unfold wire. rewrite decode_encode_wire by (by rewrite Hw). rewrite Hw.
  unfold validate_frame_fence. cbn [r_fenced set_recv_half r_community_id].
  rewrite decide_False by tauto.
  destruct Hx as [Hx|Hx]; rewrite Hx, Hv; [|rewrite decide_False by tauto];
    simpl; (eexists; split; [by destruct w|]); by repeat case_decide.
Qed.

Lemma receive_session ws c x (sent_ws : list ReliableWireFrame.t) :
  (c < 2 ^ 128)%N -> Forall (fun w => ReliableWireFrame.community_id w = c) sent_ws ->
  r_community_id x = None \/ r_community_id x = Some c ->
  Forall (fun st => validate_fenced_header c (r_fenced x) Up st = Ok tt) ws ->
  length sent_ws < length ws ->
  arrives (recv (r_stream x)) (wire (r_fenced x) <$> sent_ws) ->
  receive ws x = (delivered <$> sent_ws, Some (Ok tt)).
Proof.
  intros Hc. revert x sent_ws. induction ws as [|st ws IH]; intros x sent_ws Hs Hx Hv Hl Ha; simpl in Hl; [lia|].
  apply Forall_cons in Hv as [Hv Hvs]. destruct sent_ws as [|w sent_ws].
  - simpl. unfold recv_validated. destruct (recv_frame_end _ Ha) as (h & -> & _). done.
  - apply Forall_cons in Hs as [Hw Hs].
    destruct (recv_wire Up st x c w _ Hw Hc Hx Hv Ha) as (x' & Hr & Ef & Ec & Ha').
    simpl. rewrite Hr, (IH x' sent_ws); [done|done|by right|by rewrite Ef|simpl in Hl; lia|by rewrite Ef].
Qed.

(** The frames a relay delivers are authorized by the lease live at that moment. *)
Lemma validated_live st h c f conn :
  rtc dir_step (redis_empty, ∅) (st, h) -> validate_fenced_header c f conn st = Ok tt ->
  conn = Up /\ exists l, live st h c (fh_session_id f) = Some l /\ f = fenced_header l.
Proof.
  intros Hr Hv. assert (conn = Up) as -> by (by destruct conn as [| |[] ?]).
  split; [done|]. apply (validate_accepts st h c f); [apply (dir_inv_reachable _ Hr)|done].
Qed.

Lemma recv_validated_frame conn st x x' f :
  recv_validated conn st x = (x', Ok (Some f)) ->
  exists w, f = delivered w /\ r_community_id x' = Some (ReliableWireFrame.community_id w) /\
    r_fenced x' = r_fenced x /\
    (r_community_id x = None \/ r_community_id x = Some (ReliableWireFrame.community_id w)) /\
    validate_fenced_header (ReliableWireFrame.community_id w) (r_fenced x) conn st = Ok tt /\
    exists h bs, recv_frame (recv (r_stream x)) = (h, Ok (Some (MeshWire.Data (r_fenced x) bs))) /\
      decode bs = Ok w.
Proof.
  unfold recv_validated. destruct (recv_frame _) as [h [[fr|]|]] eqn:Hr; try done.
  destruct fr as [|fenced bs| |]; try done. destruct (decode bs) as [w|] eqn:Hd; [|done].
  unfold validate_frame_fence. cbn [r_fenced set_recv_half r_community_id].
  case_decide as Hf; [done|]. subst fenced.
  destruct (r_community_id x) as [c|] eqn:Hc.
  - case_decide as Hcw; [done|]. subst c.
    destruct (validate_fenced_header _ _ _ _) as [[]|] eqn:Hv; [|done]. rewrite decide_False by done.
    intros [= <- <-]. exists w. split_and!; try done; [by right|eauto].
  - destruct (validate_fenced_header _ _ _ _) as [[]|] eqn:Hv; [|done]. rewrite decide_True by done.
    intros [= <- <-]. exists w. split_and!; try done; [by left|eauto].
Qed.

(** C27: a reliable session arrives whole: when every send succeeds, the receiver at the
    other end of the stream delivers the bytes of the messages in order, cut into pieces of
    at most 1 MiB, then the sender's goodbye, then the end, as long as the directory shows
    the same live lease at every frame it receives. *)
Theorem reliable_round_trip c ms reason r0 r1 x ws l :
  (c < 2 ^ 128)%N -> sent (send (r_stream r0)) [] ->
  send_session c ms reason r0 = (r1, Ok tt) ->
  connected (send (r_stream r1)) (recv (r_stream x)) ->
  r_fenced r0 = fenced_header l -> r_fenced x = fenced_header l ->
  r_community_id x = None \/ r_community_id x = Some c ->
  Forall (fun w => rtc dir_step (redis_empty, ∅) w /\ live w.1 w.2 c (sl_session_id l) = Some l) ws ->
  length (concat (reliable_chunks <$> ms)) + 1 < length ws ->
  exists ps, receive (fst <$> ws) x = (fmap ReliableData ps ++ [ReliableGoodbye reason], Some (Ok tt)) /\
    concat ps = concat ms /\
    Forall (fun p => p <> [] /\ length p <= N.to_nat MAX_RELIABLE_PAYLOAD_BYTES) ps.
Proof.
  intros Hc Hfresh (_ & _ & Hs)%send_session_ok Hcon Hf0 Hfx Hx Hws Hlen.
  set (ps := concat (reliable_chunks <$> ms)) in *. exists ps.
  split; [|apply concat_reliable_chunks].
  pose proof (connected_arrives _ _ _ Hcon (Hs [] Hfresh)) as Ha. cbn [app] in Ha.
  rewrite Hf0, <-Hfx in Ha.
  rewrite (receive_session _ c x _ Hc) with (5 := Ha).
  - rewrite fmap_app. f_equal. f_equal. by rewrite <-list_fmap_compose.
  - apply Forall_app. split; [|by repeat constructor].
    apply Forall_fmap. by apply Forall_true.
  - done.
  - apply Forall_fmap. eapply Forall_impl; [exact Hws|]. intros [st h] [Hr Hl]. simpl in *.
    rewrite Hfx. apply (validate_accepts st h); [apply (dir_inv_reachable _ Hr)|]. eauto.
  - rewrite length_app, !length_fmap. exact Hlen.
Qed.

(** C10: a frame is delivered only when the lease of its stream's fence is live in the
    directory at that moment, was sent under exactly that fence, and belongs to the
    community the stream has been of since its first delivery; once the session is granted
    to another owner, no frame of the stream is delivered any more. *)
Theorem reliable_delivery_fenced st h conn x x' f :
  rtc dir_step (redis_empty, ∅) (st, h) -> recv_validated conn st x = (x', Ok (Some f)) ->
  exists c l,
    (r_community_id x = None \/ r_community_id x = Some c) /\ r_community_id x' = Some c /\
    live st h c (sl_session_id l) = Some l /\ r_fenced x = fenced_header l /\
    r_fenced x' = r_fenced x /\
    (exists w half bs, f = delivered w /\ ReliableWireFrame.community_id w = c /\
       recv_frame (recv (r_stream x)) = (half, Ok (Some (MeshWire.Data (r_fenced x) bs))) /\
       decode bs = Ok w) /\
    (forall st' h' conn' (y : ReliableMeshStream S R), rtc dir_step (st, h) (st', h') ->
       grants_of h' c (sl_session_id l) <> grants_of h c (sl_session_id l) ->
       r_fenced y = r_fenced x -> r_community_id y = Some c ->
       forall y' g, recv_validated conn' st' y <> (y', Ok (Some g))).
Proof.
  intros Hr (w & Hf & Hc' & Hfx & Hc & Hv & half & bs & Hrecv & Hd)%recv_validated_frame.
  destruct (validated_live _ _ _ _ _ Hr Hv) as (-> & l & Hl & Hfl).
  assert (fh_session_id (r_fenced x) = sl_session_id l) as Hs by (by rewrite Hfl).
  rewrite Hs in Hl. exists (ReliableWireFrame.community_id w), l. split_and!; try done; [by eauto 10|].
  intros st' h' conn' y Hr' Hne Hfy Hcy y' g (w' & _ & _ & _ & Hcw & Hv' & _)%recv_validated_frame.
  destruct Hcw as [Hcw|Hcw]; rewrite Hcy in Hcw; [done|]. injection Hcw as Hcw.
  rewrite <-Hcw, Hfy in Hv'.
  destruct (validated_live _ h' _ _ _ ltac:(by etrans) Hv') as (_ & l' & Hl' & Hfl').
  rewrite Hs in Hl'. apply live_grant in Hl as [_ Hn], Hl' as [_ Hn'].
  assert (sl_generation l = sl_generation l') as E by (rewrite Hfl in Hfl'; by injection Hfl').
  destruct (grants_run _ _ (ReliableWireFrame.community_id w) (sl_session_id l) Hr') as [ext Hext].
  simpl in Hext. apply Hne. rewrite Hext in Hn' |- *. rewrite length_app in Hn'.
  destruct ext; [by rewrite app_nil_r|simpl in Hn'; lia].
Qed.
End tunnel.

(** ** Joining *)

Section joining.
Context `{UuidLaws} `{RedisLaws} `{HexLaws} `{UuidBytes} {S R : Type} `{StreamSendHalf S} `{StreamRecvHalf R}.

(** The hello a forwarded join opens its stream with. *)
Definition join_hello (local : RuntimeId) (l : SessionLease) : StreamHello :=
  {| sender := local; hello_role := Session (fenced_header l) ReliableStream |}.

(** A join that is forwarded opened a stream to the owner of the live lease, another
    runtime, under that lease's fence, and the owner accepts the hello it sent on any
    stream and pins the same fence; a join that owns the session holds the live lease
    afterwards. *)
Theorem join_outcome open ttl local c s st h st' (j : ReliableJoin (S := S) (R := R)) :
  rtc dir_step (redis_empty, ∅) (st, h) -> (0 < ttl < 2 ^ 63)%Z -> String.length local = 32 ->
  (N.of_nat (length (grants_of h c s)) < 10 ^ 14 - 1)%N ->
  join open ttl local c s Up st = (st', Ok j) ->
  match j with
  | Owned l =>
      sl_owner_runtime_id l = local /\
      exists h', rtc dir_step (st, h) (st', h') /\ live st' h' c s = Some l
  | Forwarded l x =>
      st' = st /\ live st h c s = Some l /\ sl_owner_runtime_id l <> local /\
      sl_profile l = ReliableStream /\
      (exists stream, open (sl_owner_runtime_id l) (join_hello local l) = Ok stream /\
         x = reliable_new (fenced_header l) stream) /\
      forall y : MeshStream S R,
        accept_inbound (sl_owner_runtime_id l) local (join_hello local l) y =
          Ok {| i_fenced := fenced_header l; i_from := local; i_stream := new_inbound (fenced_header l) y |}
  end.
Proof.
  intros Hr Ht Ho Hlt. pose proof (dir_inv_reachable _ Hr c s) as Hinv. simpl in Hinv. unfold join.
  destruct (live st h c s) as [l|] eqn:Hl.
  - rewrite (acquire_live _ _ _ _ _ _ _ _ Hinv Ht Hl). case_decide as Hp; [done|].
    case_decide as Hown; [intros [= <- <-]; split; [done|]; exists h; by split|]. intros [<- Hopen]%pair_equal_spec.
    apply result_bind_ok in Hopen as (stream & Hs%map_err_ok & [= <-]). split_and!; try done; [by eauto|].
    intros y. unfold accept_inbound. simpl. by rewrite !decide_False by tauto.
  - destruct (acquire_grant st h ttl c s local ReliableStream Hinv Ht Ho Hlt Hl) as (st1 & Ha & Hl').
    rewrite Ha. intros [= <- <-]. split; [done|].
    exists (grant h c s local ReliableStream). split; [|exact Hl']. apply rtc_once.
    pose proof (dir_acquire st h ttl c s local ReliableStream Up Ho Hlt) as Hs. rewrite Ha in Hs.
    rewrite ttl_ok in Hs by done. unfold live, lease_of in Hl. case_decide as Hk; [|].
    + by rewrite bool_decide_true in Hs.
    + exfalso. destruct (inv_live _ _ _ _ Hinv) as [[? _]|(l1 & v & E & _)]; [done|].
      unfold live, lease_of in E. rewrite decide_False in E by done. congruence.
Qed.
End joining.

(** ** The renewal task *)

Section renewal.
Context `{UuidLaws} `{RedisLaws} `{HexLaws}.

(** The directory, what was granted, and the task: other relays take steps of their own
    between those of the task. *)
Inductive renew_run (ttl : Z) (l : SessionLease) :
    Store * Grants * Renewer -> Store * Grants * Renewer -> Prop :=
| run_other x y w : dir_step x y -> renew_run ttl l (x, w) (y, w)
| run_task st h w ev :
    renew_run ttl l (st, h, w) ((renewer_step ttl l ev w st).1, h, (renewer_step ttl l ev w st).2).

(** A session without a live lease has none until it is granted again. *)
Lemma dead_step x y c s :
  dir_step x y -> GET x.1 (lease_key c s) = None ->
  grants_of y.2 c s <> grants_of x.2 c s \/ GET y.1 (lease_key c s) = None.
Proof.
  intros Hs Hd. destruct Hs as [st h ttl c' s' o p conn Ho Hlt|st h ttl l conn|st h l conn|st h st' He];
    simpl in *.
  - rewrite acquire_effect. destruct (_ && _); [|by right].
    rewrite grants_of_grant. case_decide as E; [left; simplify_eq|right].
    { intros E%(f_equal length). rewrite length_app in E. simpl in E. lia. }
    pose proof (get_incr st (generation_key c' s') (lease_key c s)) as Hi.
    destruct (INCR st _) as [st1 n]. simpl in Hi. rewrite get_set_px, Hi.
    rewrite !decide_False; [done| |].
    + intros Hk. symmetry in Hk. by eapply lease_generation_key.
    + by intros ?%lease_key_inj.
  - right. destruct (renew_effect ttl l conn st) as [->|[Ht ->]]; [done|]. by rewrite get_pexpire.
  - right. destruct (release_effect l conn st) as [->| ->]; [done|]. rewrite get_del. by case_decide.
  - right. destruct (get_expires _ _ (lease_key c s) He) as [->|[_ ->]]; done.
Qed.

Lemma dead_run x y c s :
  rtc dir_step x y -> GET x.1 (lease_key c s) = None ->
  grants_of y.2 c s <> grants_of x.2 c s \/ GET y.1 (lease_key c s) = None.
Proof.
  induction 1 as [|x y z Hxy Hyz IH]; [by right|]. intros Hd.
  pose proof (grants_step _ _ c s Hxy) as [e1 He1]. pose proof (grants_run _ _ c s Hyz) as [e2 He2].
  destruct (dead_step _ _ c s Hxy Hd) as [Hg|Hd'].
  - left. intros E. apply Hg. rewrite He1 in *. rewrite He2, <-(assoc (++)) in E.
    apply (f_equal length) in E. rewrite !length_app in E. destruct e1; [by rewrite app_nil_r|simpl in E; lia].
  - destruct (IH Hd') as [Hg|]; [left|by right]. intros E. apply Hg. rewrite He2 in *. rewrite He1 in *.
    apply (f_equal length) in E. rewrite !length_app in E. destruct e2; [by rewrite app_nil_r|simpl in E; lia].
Qed.

(** A lease that is not live never validates again. *)
Lemma dead_lease x y l :
  rtc dir_step (redis_empty, ∅) x -> rtc dir_step x y ->
  let c := sl_community_id l in let s := sl_session_id l in
  (sl_generation l <= N.of_nat (length (grants_of x.2 c s)))%N ->
  (forall l', live x.1 x.2 c s = Some l' -> fenced_header l' <> fenced_header l) ->
  forall conn, validate_fenced_header c (fenced_header l) conn y.1 <> Ok tt.
Proof.
  intros Hr Hr' c s Hg Hd conn Hv. destruct x as [st h], y as [st' h']. simpl in *.
  destruct (validated_live st' h' c (fenced_header l) conn) as (-> & l' & Hl' & El'); [by etrans|done|].
  simpl in Hl'. fold s in Hl'. pose proof (live_grant _ _ _ _ _ Hl') as [Hlast Hn].
  assert (sl_generation l = sl_generation l') as Eg by (by injection El').
  destruct (grants_run _ _ c s Hr') as [ext Hext]. simpl in Hext.
  assert (grants_of h' c s = grants_of h c s) as E.
  { rewrite Hext in Hn |- *. rewrite length_app in Hn. destruct ext; [by rewrite app_nil_r|simpl in Hn; lia]. }
  destruct (decide (GET st (lease_key c s) = None)) as [Hk|Hk].
  - destruct (dead_run _ _ c s Hr' Hk) as [|Hk']; [done|]. simpl in Hk'. unfold live in Hl'.
    by rewrite decide_True in Hl'.
  - apply (Hd l'); [|done]. unfold live in *. rewrite decide_False by done.
    rewrite <-E. case_decide; [done|exact Hl'].
Qed.

Lemma renewer_step_dir ttl l ev w st h :
  (renewer_step ttl l ev w st).1 = st \/ dir_step (st, h) ((renewer_step ttl l ev w st).1, h).
Proof.
  unfold renewer_step. destruct (phase w), ev as [|conn|conn]; try by left.
  - right. pose proof (dir_renew st h ttl l conn). by destruct (renew ttl l conn st).
  - right. pose proof (dir_release st h l conn). by destruct (release l conn st).
Qed.

Lemma renew_run_dir ttl l x y : rtc (renew_run ttl l) x y -> rtc dir_step x.1 y.1.
Proof.
  induction 1 as [|x y z Hxy _ IH]; [done|]. etrans; [|exact IH].
  destruct Hxy as [x y w Hs|st h w ev]; [by apply rtc_once|].
  destruct (renewer_step_dir ttl l ev w st h) as [E|Hs]; simpl; [by rewrite E|by apply rtc_once].
Qed.

(** A run in which the task signals loss exactly when it stopped renewing on its own. *)
Definition renewer_ok (w : Renewer) : Prop :=
  match phase w with
  | Renewing | Releasing true => lost w = false
  | Releasing false => lost w = true
  | Finished | Panicked => True
  end.

Lemma renewer_step_ok ttl l ev w st : renewer_ok w -> renewer_ok (renewer_step ttl l ev w st).2.
Proof.
  unfold renewer_ok, renewer_step. destruct w as [[| [] | | ] b], ev; simpl; intros Hw; try done;
    [destruct (renew _ _ _ _) as [? [[[]|]|]]|destruct (release _ _ _) as [? [[[]|]|]]..]; done.
Qed.

Lemma holds_valid st h l l' :
  dir_inv (st, h) ->
  holds st h l = Some l' <->
  live st h (sl_community_id l) (sl_session_id l) = Some l' /\ fenced_header l' = fenced_header l.
Proof.
  intros Hinv. unfold holds.
  destruct (inv_live st h _ _ (Hinv (sl_community_id l) (sl_session_id l)))
    as [[_ ->]|(l1 & v & -> & _ & _ & _ & _ & Hs & _)]; [naive_solver|].
  unfold fenced_header. case_decide as Ho.
  - destruct Ho as [Ho Hg]. split; [|naive_solver]. intros [= ->]. split; [done|]. congruence.
  - split; [done|]. intros [[= ->] E]. injection E. intros. by destruct Ho.
Qed.

Lemma invalid_holds st h l :
  dir_inv (st, h) ->
  holds st h l = None <-> validate_fenced_header (sl_community_id l) (fenced_header l) Up st <> Ok tt.
Proof.
  intros Hinv. rewrite (validate_accepts st h) by apply Hinv. cbn [fh_session_id fenced_header].
  pose proof (holds_valid st h l) as Hh. destruct (holds st h l) as [l'|].
  - destruct (Hh l' Hinv) as [Hh1 _]. destruct (Hh1 eq_refl) as [? ?]. split; [done|].
    intros Hn. destruct Hn. by exists l'.
  - split; [|done]. intros _ (l' & Hl & E). by specialize (proj2 (Hh l' Hinv) (conj Hl (eq_sym E))).
Qed.

Lemma tick_outcome ttl l conn w st h :
  dir_inv (st, h) -> (0 < ttl < 2 ^ 63)%Z -> (sl_generation l < 2 ^ 64)%N -> phase w = Renewing ->
  (conn = Up /\ holds st h l <> None /\ (renewer_step ttl l (Tick conn) w st).2 = w) \/
  ((conn = Up -> holds st h l = None) /\
   (renewer_step ttl l (Tick conn) w st).2 = {| phase := Releasing false; lost := true |}).
Proof.
  intros Hinv Ht Hg Hw. unfold renewer_step. rewrite Hw. destruct conn as [|e|ran e].
  - destruct (holds st h l) as [l'|] eqn:Hh; [left|right].
    + destruct (renew_release_held st h ttl l l') as [Hr _]; [apply Hinv|done..|].
      destruct (renew ttl l Up st) as [st' r]. simpl in Hr. by subst r.
    + destruct (renew_release_lost st h ttl l) as [Hr _]; [apply Hinv|done..|]. by rewrite Hr.
  - right. split; [done|]. unfold renew. rewrite ttl_ok by done. done.
  - right. split; [done|]. unfold renew. rewrite ttl_ok by done. done.
Qed.

Lemma release_outcome ttl l conn w cc st h :
  dir_inv (st, h) -> (0 < ttl < 2 ^ 63)%Z -> (sl_generation l < 2 ^ 64)%N -> phase w = Releasing cc ->
  let '(st', w') := renewer_step ttl l (Release conn) w st in
  phase w' = Finished /\
  (conn = Up -> lost w' = lost w || bool_decide (holds st h l = None)) /\
  (conn = Up -> holds st' h l = None) /\
  (conn <> Up -> lost w' = lost w || negb cc).
Proof.
  intros Hinv Ht Hg Hw. unfold renewer_step. rewrite Hw. destruct conn as [|e|ran e].
  - destruct (holds st h l) as [l'|] eqn:Hh.
    + destruct (renew_release_held st h ttl l l') as (_ & Hr & Hd); [apply Hinv|done..|].
      destruct (release l Up st) as [st' r]. simpl in Hr, Hd. subst r. simpl. rewrite orb_false_r.
      split_and!; [done|done| |done]. intros _. unfold holds. by rewrite Hd.
    + destruct (renew_release_lost st h ttl l) as [_ Hr]; [apply Hinv|done..|]. rewrite Hr. simpl.
      by rewrite orb_true_r.
  - unfold release. simpl. done.
  - unfold release. simpl. done.
Qed.

(** C33: the renewal task of a lease it was granted never fails silently: it goes on renewing
    exactly while Redis answers and its lease is still the live one, and otherwise signals
    the loss and releases; once a release has reached Redis the task is over, the signal
    has been given unless the lease was held to the end, and no relay accepts a frame of
    that lease ever again; a release that fails signals loss unless the caller asked to
    stop. *)
Theorem renewal_task ttl l st0 h0 st h w :
  let valid x conn := validate_fenced_header (sl_community_id l) (fenced_header l) conn x = Ok tt in
  rtc dir_step (redis_empty, ∅) (st0, h0) -> (0 < ttl < 2 ^ 63)%Z ->
  live st0 h0 (sl_community_id l) (sl_session_id l) = Some l ->
  rtc (renew_run ttl l) (st0, h0, spawn_lease_renewer) (st, h, w) ->
  phase w <> Panicked /\ renewer_ok w /\
  (phase w = Renewing -> forall conn, let w' := (renewer_step ttl l (Tick conn) w st).2 in
     (conn = Up /\ valid st Up /\ w' = w) \/
     ((conn = Up -> ~ valid st Up) /\ w' = {| phase := Releasing false; lost := true |})) /\
  (forall cc conn, phase w = Releasing cc ->
     let '(st', w') := renewer_step ttl l (Release conn) w st in
     phase w' = Finished /\
     (conn = Up -> (lost w' = true <-> lost w = true \/ ~ valid st Up) /\
        forall y conn', rtc dir_step (st', h) y -> ~ valid y.1 conn') /\
     (conn <> Up -> lost w' = lost w || negb cc)).
Proof.
  intros valid Hr0 Ht Hl Hrun. pose proof (renew_run_dir _ _ _ _ Hrun) as Hdir. simpl in Hdir.
  pose proof (live_grant _ _ _ _ _ Hl) as [_ Hgen].
  destruct (inv_live st0 h0 _ _ (dir_inv_reachable _ Hr0 (sl_community_id l) (sl_session_id l)))
    as [[_ E]|(l1 & v & E & _ & _ & Hn & _)]; rewrite Hl in E; [done|]. injection E as <-.
  assert (forall x, rtc dir_step (st0, h0) x -> dir_inv x) as Hinv
    by (intros x Hx; apply dir_inv_reachable; by etrans).
  assert (sl_generation l < 2 ^ 64)%N as Hg by lia.
  assert (phase w <> Panicked /\ renewer_ok w) as [Hp Hok].
  { change (phase (st, h, w).2 <> Panicked /\ renewer_ok (st, h, w).2). revert Hrun.
    generalize (st, h, w). apply rtc_ind_r; [done|]. intros x y Hx Hxy [IHp IHok].
    pose proof (Hinv _ (renew_run_dir _ _ _ _ Hx)) as Hi.
    destruct Hxy as [|st1 h1 w1 ev]; [done|]. simpl in *. split; [|by apply renewer_step_ok].
    destruct (phase w1) as [|cc| |] eqn:Hw, ev as [|conn|conn];
      try (unfold renewer_step; rewrite Hw; simpl; congruence).
    - destruct (tick_outcome ttl l conn w1 st1 h1 Hi Ht Hg Hw) as [(_ & _ & ->)|[_ ->]]; simpl; congruence.
    - pose proof (release_outcome ttl l conn w1 cc st1 h1 Hi Ht Hg Hw) as Ho.
      destruct (renewer_step _ _ _ _ _) as [st2 w2]. destruct Ho as [Hf _]. simpl. congruence. }
  pose proof (Hinv _ Hdir) as Hi. split_and!; [done|done| |].
  - intros Hw conn. destruct (tick_outcome ttl l conn w st h Hi Ht Hg Hw) as [(-> & Hh & ->)|[Hh ->]].
    + left. split_and!; [done| |done]. unfold valid.
      destruct (validate_fenced_header _ _ _ _) as [[]|e] eqn:Hv; [done|].
      destruct Hh. apply (invalid_holds st h l Hi). by rewrite Hv.
    + right. split; [|done]. intros Hu. by apply (invalid_holds st h l Hi), Hh.
  - intros cc conn Hw. pose proof (release_outcome ttl l conn w cc st h Hi Ht Hg Hw) as Ho.
    assert (rtc dir_step (st, h) ((renewer_step ttl l (Release conn) w st).1, h)) as Hs.
    { destruct (renewer_step_dir ttl l (Release conn) w st h) as [->|]; [done|by apply rtc_once]. }
    destruct (renewer_step _ _ _ _ _) as [st' w']. simpl in Hs.
    destruct Ho as (Hf & Hup & Hgone & Hdown). split_and!; [done| |done].
    intros Hu. specialize (Hup Hu). specialize (Hgone Hu). split.
    + rewrite Hup, orb_true_iff, bool_decide_eq_true. by rewrite (invalid_holds st h l Hi).
    + intros y conn' Hy. assert (rtc dir_step (st0, h0) (st', h)) as Hr1 by by etrans.
      eapply (dead_lease (st', h) y); [by etrans|done| |].
      * destruct (grants_run _ _ (sl_community_id l) (sl_session_id l) Hr1) as [ext Hext].
        simpl in *. rewrite Hext, length_app. lia.
      * intros l' Hl' E. simpl in Hl'.
        by rewrite (proj2 (holds_valid st' h l l' (Hinv _ Hr1))) in Hgone.
Qed.
End renewal.

(** ** Concrete tunnels *)

Definition toy_uuid_bytes : UuidBytes :=
  {| uuid_as_bytes := be_bytes 16; uuid_from_bytes := be_value |}.

Definition toy_uuid_bytes_laws : @UuidBytesLaws toy_uuid_bytes.
Proof.
  split.
  - intros u. exact (length_be_bytes 16 u).
  - intros u. exact (be_bytes_bytes 16 u).
  - intros u Hu. exact (be_value_bytes 16 u Hu).
  - intros bs. exact (be_bytes_value 16 bs).
Defined.

#[local] Existing Instance uuid_api.
#[local] Existing Instance uuid_laws.
#[local] Existing Instance toy_redis.
#[local] Existing Instance toy_redis_laws.
#[local] Existing Instance toy_hex.
#[local] Existing Instance toy_hex_laws.
#[local] Existing Instance toy_uuid_bytes.
#[local] Existing Instance toy_uuid_bytes_laws.
#[local] Existing Instance toy_quic.
#[local] Instance toy_frames : Postcard MeshStreamFrame := toy_postcard MeshStreamFrame.
#[local] Existing Instance toy_postcard_laws.

Lemma reliable_codec_exact_witness :
  ReliableWireFrame.decode ([1; 2] ++ be_bytes 16 77 ++ [2])%N =
  Ok (ReliableWireFrame.Goodbye 77%N Draining).
Proof.
  apply (reliable_codec_exact (ReliableWireFrame.Goodbye 77%N Draining)); [done| |done].
  vm_compute. repeat constructor.
Defined.

Definition lease1 : SessionLease :=
  {| sl_community_id := 1%N; sl_session_id := 2%N; sl_owner_runtime_id := pod 7;
     sl_generation := 1%N; sl_profile := HuddleControl |}.
Definition grants1 : Grants := grant ∅ 1%N 2%N (pod 7) HuddleControl.

Definition tunnel (bs : Bytes) : ReliableMeshStream (SendStream (Quic := toy_quic)) (RecvStream (Quic := toy_quic)) :=
  reliable_new (fenced_header lease1) {| send := toy_sender; recv := toy_receiver bs true |}.

Definition sent_session := send_session 1%N [[7; 8]%N; [9]%N] SessionEnded (tunnel []).
Definition receiver := tunnel (send (r_stream sent_session.1)).

Lemma reliable_round_trip_witness :
  exists ps, receive (fst <$> replicate 5 (session1, grants1)) receiver =
      (fmap ReliableData ps ++ [ReliableGoodbye SessionEnded], Some (Ok tt)) /\
    concat ps = [7; 8; 9]%N.
Proof.
  destruct (reliable_round_trip (R := RecvStream (Quic := toy_quic)) 1%N [[7; 8]%N; [9]%N] SessionEnded
    (tunnel []) sent_session.1 receiver (replicate 5 (session1, grants1)) lease1)
    as (ps & Hr & Hc & _); [reflexivity..| | | |].
  - left. reflexivity.
  - repeat constructor; apply session1_reachable.
  - vm_compute. lia.
  - exists ps. split; [exact Hr|exact Hc].
Defined.

Lemma reliable_delivery_fenced_witness :
  exists x', recv_validated Up session1 receiver = (x', Ok (Some (ReliableData [7; 8]%N))) /\
    r_community_id x' = Some 1%N.
Proof.
  destruct (reliable_delivery_fenced session1 grants1 Up receiver
    (recv_validated Up session1 receiver).1 (ReliableData [7; 8]%N) session1_reachable)
    as (c & l & _ & Hc & _); [vm_compute; reflexivity|].
  exists (recv_validated Up session1 receiver).1. split; [vm_compute; reflexivity|].
  rewrite Hc. vm_compute in Hc. exact (eq_sym Hc).
Defined.

(** The lease is released behind the task's back. *)
Definition released1 : Store := (release lease1 Up session1).1.

Lemma renewal_task_witness :
  lost (renewer_step 30000 lease1 (Tick Up) spawn_lease_renewer released1).2 = true.
Proof.
  destruct (renewal_task 30000 lease1 session1 grants1 released1 grants1 spawn_lease_renewer)
    as (_ & _ & Ht & _).
  - exact session1_reachable.
  - lia.
  - vm_compute. reflexivity.
  - apply rtc_once. apply run_other. apply (dir_release session1 grants1 lease1 Up).
  - destruct (Ht eq_refl Up) as [(_ & Hv & _)|[_ ->]]; [vm_compute in Hv; discriminate Hv|reflexivity].
Defined.
