(* ===== verification/HuddleJoin.v ===== *)
(** * Joining a huddle across pods ([audio/join.rs], [audio/mesh.rs])

    How a pod finds the owner of a huddle ([resolve_join], [resolve_join_owner_ready]),
    over the calls of the [HuddleDirectory] trait as [SessionDirectory] implements them;
    the generation floor that fences media datagrams and their delivery to the local room.
    A join awaits between its calls, so it is a tree of calls ([Concurrent.Prog]) run
    against a world that other pods change meanwhile ([exec]). *)

From S2P Require Import Prelude Nostr AudioRoom SessionDirectory MeshWire.
From S2P Require Import Concurrent.

(** ** The trait and its implementation *)

Record Ownership := {
  o_owner_runtime_id : RuntimeId;
  o_generation : N;
}.

Inductive AcquireOutcome :=
| AcquiredLease (l : SessionLease)
| Held (o : Ownership).

Inductive HuddleRenewOutcome := HuddleRenewed (l : SessionLease) | HuddleLost.
Inductive HuddleReleaseOutcome := HuddleReleased | HuddleNotOwner.

Definition ownership (l : SessionLease) : Ownership :=
  {| o_owner_runtime_id := sl_owner_runtime_id l; o_generation := sl_generation l |}.

Section huddle_directory.
Context `{NostrApi} `{Redis} `{Hex}.

Definition huddle_owner_of (c : CommunityId) (s : Uuid) (conn : Conn) (st : Store)
    : Result (option Ownership) MeshError :=
  let? lease := map_err Transport (lookup c s conn st) in Ok (ownership <$> lease).

Definition huddle_acquire (ttl : Z) (c : CommunityId) (s : Uuid) (owner : RuntimeId)
    (conn : Conn) (st : Store) : Store * Result AcquireOutcome MeshError :=
  let '(st, r) := acquire ttl c s owner HuddleControl conn st in
  (st,
   let? result := map_err Transport r in
   Ok (match result with
       | Acquired l => AcquiredLease l
       | Exists l => Held (ownership l)
       end)).

Definition huddle_renew (ttl : Z) (lease : SessionLease) (conn : Conn) (st : Store)
    : Store * option (Result HuddleRenewOutcome MeshError) :=
  let '(st, r) := renew ttl lease conn st in
  (st, (fun r => let? result := map_err Transport r in
                 Ok (match result with
                     | Renewed l => HuddleRenewed l
                     | RenewLost _ _ => HuddleLost
                     end)) <$> r).

Definition huddle_release (lease : SessionLease) (conn : Conn) (st : Store)
    : Store * option (Result HuddleReleaseOutcome MeshError) :=
  let '(st, r) := release lease conn st in
  (st, (fun r => let? result := map_err Transport r in
                 Ok (match result with
                     | Released _ => HuddleReleased
                     | NotOwner _ _ => HuddleNotOwner
                     end)) <$> r).
End huddle_directory.

(** ** The join *)

Inductive JoinOutcome :=
| LocalOwner (generation : N)
| RemoteOwner (owner_runtime_id : RuntimeId) (generation : N).

Definition join_fenced_header (o : JoinOutcome) (session_id : Uuid) (local_runtime_id : RuntimeId)
    : FencedHeader :=
  match o with
  | LocalOwner g =>
      {| fh_session_id := session_id; fh_generation := g; fh_owner_runtime_id := local_runtime_id |}
  | RemoteOwner owner g =>
      {| fh_session_id := session_id; fh_generation := g; fh_owner_runtime_id := owner |}
  end.

Record ResolvedJoin := {
  outcome : JoinOutcome;
  acquired : option SessionLease;
}.

(** What a join asks of its surroundings: the directory, and the registry of the leases
    this pod renews ([owners.lost_for(session_id).is_some()]). *)
Inductive Call : Type -> Type :=
| OwnerOf (c : CommunityId) (s : Uuid) : Call (Result (option Ownership) MeshError)
| Acquire (c : CommunityId) (s : Uuid) (owner : RuntimeId) : Call (Result AcquireOutcome MeshError)
| Validate (c : CommunityId) (f : FencedHeader) : Call (Result unit MeshError)
| OwnerEntry (s : Uuid) : Call bool
| Sleep : Call unit.

Inductive JoinError :=
| Mesh (e : MeshError)
| OwnerNotReady (session_id : Uuid) (attempts : nat).

(** [call.await?] *)
Definition await {A R} (call : Call (Result R MeshError)) (k : R -> Prog Call (Result A JoinError))
    : Prog Call (Result A JoinError) :=
  Do call (fun r => match r with Ok x => k x | Err e => Ret (Err (Mesh e)) end).

(** The join once the owner is known. *)
Definition join_owner (c : CommunityId) (s : Uuid) (local : RuntimeId) (o : Ownership)
    : Prog Call (Result ResolvedJoin JoinError) :=
  if decide (o_owner_runtime_id o = local) then
    Ret (Ok {| outcome := LocalOwner (o_generation o); acquired := None |})
  else
    let fenced := {| fh_session_id := s; fh_generation := o_generation o;
                     fh_owner_runtime_id := o_owner_runtime_id o |} in
    await (Validate c fenced) (fun _ =>
      Ret (Ok {| outcome := RemoteOwner (o_owner_runtime_id o) (o_generation o);
                 acquired := None |})).

Definition resolve_join (c : CommunityId) (s : Uuid) (local : RuntimeId)
    : Prog Call (Result ResolvedJoin JoinError) :=
  await (OwnerOf c s) (fun owner =>
    match owner with
    | Some o => join_owner c s local o
    | None =>
        await (Acquire c s local) (fun r =>
          match r with
          | AcquiredLease l =>
              Ret (Ok {| outcome := LocalOwner (sl_generation l); acquired := Some l |})
          | Held o => join_owner c s local o
          end)
    end).

Definition OWNER_READY_MAX_ATTEMPTS : nat := 25.

Fixpoint owner_ready_loop (attempts : nat) (c : CommunityId) (s : Uuid) (local : RuntimeId)
    : Prog Call (Result ResolvedJoin JoinError) :=
  match attempts with
  | 0 => Ret (Err (OwnerNotReady s OWNER_READY_MAX_ATTEMPTS))
  | S attempts =>
      bind (resolve_join c s local) (fun r =>
        match r with
        | Err e => Ret (Err e)
        | Ok resolved =>
            match outcome resolved, acquired resolved with
            | LocalOwner _, None =>
                Do (OwnerEntry s) (fun live =>
                  if (live : bool) then Ret (Ok resolved)
                  else Do Sleep (fun _ => owner_ready_loop attempts c s local))
            | _, _ => Ret (Ok resolved)
            end
        end)
  end.

Definition resolve_join_owner_ready (c : CommunityId) (s : Uuid) (local : RuntimeId)
    : Prog Call (Result ResolvedJoin JoinError) :=
  owner_ready_loop OWNER_READY_MAX_ATTEMPTS c s local.

(** ** The generation floor of a pod *)

Inductive FenceVerdict :=
| Accept (advanced : bool)
| RejectStale (known : N).

(** The highest generation seen per session. *)
Notation GenerationFloor := (gmap Uuid N).

Definition floor_check (session_id : Uuid) (generation : N) (seen : GenerationFloor)
    : GenerationFloor * FenceVerdict :=
  match seen !! session_id with
  | Some known =>
      if (generation <? known)%N then (seen, RejectStale known)
      else (if (known <? generation)%N then <[session_id := generation]> seen else seen,
            Accept (known <? generation)%N)
  | None => (<[session_id := generation]> seen, Accept false)
  end.

Definition floor_forget (session_id : Uuid) (seen : GenerationFloor) : GenerationFloor :=
  delete session_id seen.

Section media.
Context `{Mpsc Bytes} `{Mpsc PeerCtrl} `{HashMapIter}.

(** [MeshAudioRouter::on_media_datagram]. *)
Definition on_media_datagram (d : MeshDatagram) (seen : GenerationFloor) (m : AudioRoomManager)
    : GenerationFloor * AudioRoomManager * FenceVerdict :=
  let session_id := fh_session_id (fenced d) in
  let '(seen, verdict) := floor_check session_id (fh_generation (fenced d)) seen in
  match verdict with
  | RejectStale _ => (seen, m, verdict)
  | Accept _ =>
      match get_unambiguous_by_channel session_id m with
      | None => (seen, m, verdict)
      | Some a =>
          match payload d with
          | [] => (seen, m, verdict)
          | author_index :: rest =>
              (seen, update_room a (deliver_prefixed author_index (author_index :: rest)) m, verdict)
          end
      end
  end.
End media.
