(* ===== verification/HuddleJoinProps.v ===== *)
(** * Joins name a live owner, and stale media never reaches a room ([HuddleJoin])

    A join run against a directory that other pods change between its calls resolves to a
    lease that was live at some moment of the join; the media fence of a pod accepts a
    session's datagrams in an order of non-decreasing generations. *)

From S2P Require Import Prelude Nostr AudioRoom AudioRoomProps SessionDirectory.
From S2P Require Import SessionDirectoryProps MeshWire Concurrent HuddleJoin.

(** ** Runs *)

Section join.
Context `{UuidLaws} `{RedisLaws} `{HexLaws}.
Context (ttl : Z).

(** The directory with its grants, and the sessions whose lease this pod renews. *)
Record World := {
  w_store : Store;
  w_grants : Grants;
  w_entries : gset Uuid;
}.

Definition w_dir (w : World) : Store * Grants := (w_store w, w_grants w).

(** A step of the surroundings: any directory step, or a change of this pod's entries. *)
Inductive env_step : World -> World -> Prop :=
| env_dir w st h : dir_step (w_dir w) (st, h) ->
    env_step w {| w_store := st; w_grants := h; w_entries := w_entries w |}
| env_entries w es :
    env_step w {| w_store := w_store w; w_grants := w_grants w; w_entries := es |}.

(** The answer to a call, in one step of the world; the command of a directory call may
    fail. *)
Definition answer {R} (call : Call R) (w w' : World) : R -> Prop :=
  match call in Call R return R -> Prop with
  | OwnerOf c s => fun r => w' = w /\ exists conn, r = huddle_owner_of c s conn (w_store w)
  | Acquire c s o => fun r => exists conn,
      String.length o = 32 /\ (N.of_nat (length (grants_of (w_grants w) c s)) < 10 ^ 14 - 1)%N /\
      w' = {| w_store := (acquire ttl c s o HuddleControl conn (w_store w)).1;
              w_grants :=
                if reaches conn && is_ok (ttl_ms ttl)
                   && bool_decide (GET (w_store w) (lease_key c s) = None)
                then grant (w_grants w) c s o HuddleControl else w_grants w;
              w_entries := w_entries w |} /\
      r = (huddle_acquire ttl c s o conn (w_store w)).2
  | Validate c f => fun r => w' = w /\ exists conn, r = validate_fenced_header c f conn (w_store w)
  | OwnerEntry s => fun r => w' = w /\ r = bool_decide (s ∈ w_entries w)
  | Sleep => fun _ => w' = w
  end.

Notation run p w w' a := (exec env_step (@answer) p w w' a).

Lemma exec_await {A R} (call : Call (Result R MeshError)) (k : R -> Prog Call (Result A JoinError)) w w' a :
  run (await call k) w w' (Ok a) ->
  exists w1 w2 r, rtc env_step w w1 /\ answer call w1 w2 (Ok r) /\ run (k r) w2 w' (Ok a).
Proof.
  intros (w1 & w2 & [r|e] & Hs & Ha & He); [eauto 10|]. by destruct He as [_ [=]].
Qed.

Definition reached (w w' : World) : Prop := rtc dir_step (w_dir w) (w_dir w').

Lemma env_reached w w' : rtc env_step w w' -> reached w w'.
Proof.
  induction 1 as [|w w1 w2 Hs _ IH]; [apply rtc_refl|]. unfold reached in *.
  destruct Hs as [w st h Hd|w es]; [|exact IH]. eapply rtc_l; [exact Hd|exact IH].
Qed.

Lemma answer_reached {R} (call : Call R) w w' r : answer call w w' r -> reached w w'.
Proof.
  destruct call; simpl; try (intros [-> _]; apply rtc_refl); try (intros ->; apply rtc_refl).
  intros (conn & Ho & Hn & -> & _). apply rtc_once. by apply dir_acquire.
Qed.

Lemma exec_reached {A} (p : Prog Call A) w w' a : run p w w' a -> reached w w'.
Proof.
  revert w. induction p as [a'|R call k IH]; intros w; simpl.
  - intros [Hs _]. by apply env_reached.
  - intros (w1 & w2 & r & Hs & Ha & He). unfold reached. etrans; [by apply env_reached|].
    etrans; [by eapply answer_reached|by eapply IH].
Qed.

(** An answer without error came from a command that ran. *)
Lemma invoke_Ok {R} conn (script : Store -> Store * R) st r :
  (invoke conn script st).2 = Ok r -> conn = Up.
Proof. by destruct conn. Qed.

Lemma owner_of_Ok st h c s conn o :
  session_inv st h c s -> huddle_owner_of c s conn st = Ok o -> o = ownership <$> live st h c s.
Proof.
  intros Hinv Ho. unfold huddle_owner_of in Ho. inv_results.
  assert (conn = Up) as -> by (unfold lookup in *; inv_results; by eapply invoke_Ok).
  rewrite (lookup_live _ _ _ _ Hinv) in *. by simplify_eq.
Qed.

Lemma validate_Ok_Up st c f conn : validate_fenced_header c f conn st = Ok tt -> conn = Up.
Proof.
  unfold validate_fenced_header. intros Hv. apply result_bind_ok in Hv as (r & Hi%map_err_ok & _).
  by eapply invoke_Ok.
Qed.

Lemma ttl_ms_Ok t t' : ttl_ms t = Ok t' -> t' = t /\ (0 < t < 2 ^ 63)%Z.
Proof.
  unfold ttl_ms. destruct (_ && _)%bool eqn:E; [|done]. intros [= <-].
  apply andb_true_iff in E as [?%Z.ltb_lt ?%Z.ltb_lt]. done.
Qed.

Lemma live_GET st h c s : session_inv st h c s -> live st h c s = None <-> GET st (lease_key c s) = None.
Proof.
  intros Hinv. destruct (inv_live _ _ _ _ Hinv) as [[E1 E2]|(l & v & E1 & E2 & _)]; by rewrite E1, E2.
Qed.

(** The world after an acquisition that answered. *)
Lemma acquire_answer (w w' : World) c s o r :
  session_inv (w_store w) (w_grants w) c s -> answer (Acquire c s o) w w' (Ok r) ->
  exists l, live (w_store w') (w_grants w') c s = Some l /\
    (r = Held (ownership l) \/ (r = AcquiredLease l /\ sl_owner_runtime_id l = o)).
Proof.
  intros Hinv (conn & Ho & Hn & -> & Hr). simpl. unfold huddle_acquire in Hr.
  destruct (acquire _ _ _ _ _ _ _) as [st' ra] eqn:Ea. simpl in *.
  destruct ra as [a|e]; [|done]. simpl in Hr. injection Hr as Hr.
  assert (conn = Up /\ (0 < ttl < 2 ^ 63)%Z) as [-> Ht].
  { unfold acquire in Ea. destruct (ttl_ms ttl) as [t|] eqn:Ht; [|done].
    apply ttl_ms_Ok in Ht as [-> ?]. split; [|done].
    destruct conn as [| |[] ?]; simpl in Ea; [done|by simplify_eq..]. }
  rewrite ttl_ok by done. simpl. destruct (live (w_store w) (w_grants w) c s) as [l|] eqn:Hl.
  - rewrite (acquire_live _ _ _ _ _ _ _ _ Hinv Ht Hl) in Ea. simplify_eq. exists l.
    rewrite bool_decide_false; [by split; [|left]|].
    intros E%(live_GET _ _ _ _ Hinv). congruence.
  - destruct (acquire_grant _ _ _ _ _ o HuddleControl Hinv Ht Ho Hn Hl) as (st1 & E1 & E2).
    rewrite E1 in Ea. simplify_eq. rewrite bool_decide_true by by apply (live_GET _ _ _ _ Hinv).
    eexists. split; [exact E2|]. by right.
Qed.

(** What a resolved join says of the moment [w1]. *)
Definition names_live (w1 : World) c s local (rj : ResolvedJoin) : Prop :=
  exists l, live (w_store w1) (w_grants w1) c s = Some l /\
    join_fenced_header (outcome rj) s local = fenced_header l /\
    (forall o g, outcome rj = RemoteOwner o g -> o <> local) /\
    (forall l', acquired rj = Some l' -> l' = l /\ outcome rj = LocalOwner (sl_generation l)).

Definition world_ok (w : World) : Prop := rtc dir_step (redis_empty, ∅) (w_dir w).

Lemma world_ok_inv w c s : world_ok w -> session_inv (w_store w) (w_grants w) c s.
Proof. intros Hw. exact (dir_inv_reachable _ Hw c s). Qed.

Lemma world_ok_reached w w' : world_ok w -> reached w w' -> world_ok w'.
Proof. unfold world_ok, reached. intros. by etrans. Qed.

Lemma live_session w c s l :
  world_ok w -> live (w_store w) (w_grants w) c s = Some l -> sl_session_id l = s.
Proof.
  intros Hw Hl. destruct (inv_live _ _ _ _ (world_ok_inv w c s Hw)) as [[_ E]|(l' & v & E & _ & _ & _ & _ & ? & _)];
    rewrite Hl in E; by simplify_eq.
Qed.

Lemma join_owner_sound c s local (o : Ownership) w0 w w' l rj :
  world_ok w0 -> live (w_store w0) (w_grants w0) c s = Some l -> o = ownership l -> reached w0 w ->
  run (join_owner c s local o) w w' (Ok rj) ->
  acquired rj = None /\
  exists w1, reached w0 w1 /\ reached w1 w' /\ names_live w1 c s local rj.
Proof.
  intros Hw0 Hl -> Hr He. unfold join_owner in He. case_decide as Hloc.
  - destruct He as [Hs [= ->]]. split; [done|]. exists w0. split; [apply rtc_refl|].
    split; [unfold reached; etrans; [exact Hr|by apply env_reached]|].
    exists l. split; [done|]. split; [|done]. unfold fenced_header. simpl in *.
    by rewrite (live_session _ _ _ _ Hw0 Hl), Hloc.
  - apply exec_await in He as (w1 & w2 & [] & Hs & [-> (conn & Hv)] & Hs2 & [= ->]).
    split; [done|]. exists w1.
    assert (reached w0 w1) as Hr1 by (unfold reached; etrans; [exact Hr|by apply env_reached]).
    split; [done|]. split; [by apply env_reached|].
    symmetry in Hv. pose proof (validate_Ok_Up _ _ _ _ Hv) as ->.
    apply validate_accepts with (h := w_grants w1) in Hv as (l1 & Hl1 & Hf).
    + exists l1. split; [exact Hl1|]. split; [exact Hf|]. split; [|done].
      intros o g [= <- <-]. exact Hloc.
    + apply world_ok_inv. by eapply world_ok_reached.
Qed.

Lemma resolve_join_sound c s local w w' rj :
  world_ok w -> run (resolve_join c s local) w w' (Ok rj) ->
  exists w1, reached w w1 /\ reached w1 w' /\ names_live w1 c s local rj.
Proof.
  intros Hw He. unfold resolve_join in He.
  apply exec_await in He as (w1 & w2 & owner & Hs & [-> (conn & Ho)] & He).
  assert (reached w w1) as Hr1 by by apply env_reached.
  pose proof (world_ok_reached _ _ Hw Hr1) as Hw1. symmetry in Ho.
  apply (owner_of_Ok _ _ _ _ _ _ (world_ok_inv _ _ _ Hw1)) in Ho.
  destruct (live (w_store w1) (w_grants w1) c s) as [l|] eqn:Hl; simpl in Ho; subst owner.
  - destruct (join_owner_sound _ _ _ _ _ _ _ _ _ Hw1 Hl eq_refl (rtc_refl _ _) He)
      as (_ & w3 & Hr3 & Hr4 & Hn).
    exists w3. split; [unfold reached; by etrans|done].
  - apply exec_await in He as (w3 & w4 & r & Hs3 & Ha & He).
    assert (reached w w3) as Hr3 by (unfold reached; etrans; [exact Hr1|by apply env_reached]).
    pose proof (answer_reached _ _ _ _ Ha) as Hr4.
    assert (reached w w4) as Hr5 by (unfold reached; by etrans).
    pose proof (world_ok_reached _ _ Hw Hr5) as Hw4.
    destruct (acquire_answer _ _ _ _ _ _ (world_ok_inv _ _ _ (world_ok_reached _ _ Hw Hr3)) Ha)
      as (l4 & Hl4 & [->|[-> Hloc]]).
    + destruct (join_owner_sound _ _ _ _ _ _ _ _ _ Hw4 Hl4 eq_refl (rtc_refl _ _) He)
        as (_ & w5 & Hr6 & Hr7 & Hn).
      exists w5. split; [unfold reached; by etrans|done].
    + destruct He as [Hs5 [= ->]]. exists w4. split; [done|]. split; [by apply env_reached|].
      exists l4. split; [done|]. split; [|split; [done|by intros l' [= ->]]].
      unfold fenced_header. simpl. by rewrite (live_session _ _ _ _ Hw4 Hl4), Hloc.
Qed.

Lemma owner_ready_sound c s local w w' rj :
  world_ok w -> run (resolve_join_owner_ready c s local) w w' (Ok rj) ->
  exists w1, reached w w1 /\ reached w1 w' /\ names_live w1 c s local rj /\
    (forall g, outcome rj = LocalOwner g -> acquired rj = None ->
       exists w2, reached w1 w2 /\ reached w2 w' /\ s ∈ w_entries w2).
Proof.
  unfold resolve_join_owner_ready. generalize OWNER_READY_MAX_ATTEMPTS as n.
  intros n. revert w. induction n as [|n IH]; intros w Hw; [by intros [_ [=]]|].
  cbn [owner_ready_loop]. intros (w1 & [r|e] & Hres & He)%exec_bind; [|by destruct He as [_ [=]]].
  destruct (resolve_join_sound _ _ _ _ _ _ Hw Hres) as (w2 & Hr2 & Hr3 & Hn).
  assert (forall w3, reached w1 w3 -> reached w2 w3) as Hr13 by (unfold reached; intros; by etrans).
  destruct (outcome r) as [g|o g] eqn:Ho.
  - destruct (acquired r) as [l|] eqn:Hacq.
    + destruct He as [Hs [= ->]]. exists w2. split_and!; [done|by apply Hr13, env_reached|done|].
      intros ? _ ?. congruence.
    + destruct He as (w3 & w4 & live & Hs & [-> ->] & He). case_bool_decide as Hin.
      * destruct He as [Hs2 [= ->]]. exists w2. assert (reached w1 w3) by by apply env_reached.
        split_and!; [done|apply Hr13; unfold reached; etrans; [done|by apply env_reached]|done|].
        intros _ _ _. exists w3. split_and!; [by apply Hr13|by apply env_reached|done].
      * destruct He as (w5 & w6 & [] & Hs5 & Ha & He). simpl in Ha. subst w6.
        assert (reached w w5) as Hr5.
        { pose proof (exec_reached _ _ _ _ Hres). unfold reached in *. etrans; [done|].
          etrans; by apply env_reached. }
        destruct (IH w5 (world_ok_reached _ _ Hw Hr5) He) as (w7 & Hr7 & Hr8 & Hn7 & Hent).
        exists w7. split; [unfold reached; by etrans|done].
  - destruct He as [Hs [= ->]]. exists w2. split_and!; [done|by apply Hr13, env_reached|done|].
    intros ? ?. congruence.
Qed.
(** *** What the join has asked *)

(** The answers that decide a join, in order. *)
Inductive Observation :=
| Found (o : option Ownership)
| Tried (r : AcquireOutcome)
| Validated (f : FencedHeader)
| EntryFound (live : bool).

Definition note_call (R : Type) (c : Call R) : R -> list Observation -> list Observation :=
  match c in Call R return R -> list Observation -> list Observation with
  | OwnerOf _ _ => fun r l => match r with Ok o => l ++ [Found o] | Err _ => l end
  | Acquire _ _ _ => fun r l => match r with Ok o => l ++ [Tried o] | Err _ => l end
  | Validate _ f => fun r l => match r with Ok _ => l ++ [Validated f] | Err _ => l end
  | OwnerEntry _ => fun r l => l ++ [EntryFound r]
  | Sleep => fun _ l => l
  end.

(** The lookups among them. *)
Definition lookups (l : list Observation) : nat :=
  length (List.filter (fun o => match o with Found _ => true | _ => false end) l).

#[local] Arguments lookups _ : simpl never.

Lemma lookups_snoc l o : lookups (l ++ [o]) = lookups l + match o with Found _ => 1 | _ => 0 end.
Proof. unfold lookups. rewrite List.filter_app, length_app. by destruct o. Qed.

(** What one resolution rests on last. *)
Definition rests_on s local (rj : ResolvedJoin) (l : list Observation) : Prop :=
  match outcome rj, acquired rj with
  | RemoteOwner o g, a => a = None /\ o <> local /\
      last l = Some (Validated {| fh_session_id := s; fh_generation := g; fh_owner_runtime_id := o |})
  | LocalOwner g, Some lease => last l = Some (Tried (AcquiredLease lease)) /\ sl_generation lease = g
  | LocalOwner g, None =>
      exists o, o_owner_runtime_id o = local /\ o_generation o = g /\
        (last l = Some (Found (Some o)) \/ last l = Some (Tried (Held o)))
  end.

Definition resolved_once s local (l : list Observation) (x : Result ResolvedJoin JoinError * list Observation) : Prop :=
  lookups x.2 <= S (lookups l) /\ forall rj, x.1 = Ok rj -> rests_on s local rj x.2.

Lemma join_owner_observed c s local (o : Ownership) l l0 :
  lookups l <= S (lookups l0) -> (last l = Some (Found (Some o)) \/ last l = Some (Tried (Held o))) ->
  always (noted note_call (join_owner c s local o) l) (resolved_once s local l0).
Proof.
  intros Hl Hlast. unfold join_owner. case_decide as Hloc.
  - split; [done|]. intros rj [= <-]. by exists o.
  - intros [[]|e]; (split; [cbn; rewrite ?lookups_snoc; lia|]); [|done].
    intros rj [= <-]. split_and!; [done..|]. apply last_snoc.
Qed.

Lemma resolve_join_observed c s local l :
  always (noted note_call (resolve_join c s local) l) (resolved_once s local l).
Proof.
  intros [[o|]|e]; cbn; [| |split; [cbn; lia|done]].
  - apply join_owner_observed; [rewrite lookups_snoc; lia|]. left. apply last_snoc.
  - intros [[lease|o]|e]; cbn; [| |split; [cbn; rewrite lookups_snoc; lia|done]].
    + split; [cbn; rewrite !lookups_snoc; lia|]. intros rj [= <-]. split; [apply last_snoc|done].
    + apply join_owner_observed; [rewrite !lookups_snoc; lia|]. right. apply last_snoc.
Qed.

(** What the whole join rests on: a lease of this pod that it did not acquire is one its
    registry has. *)
Definition joined s local (rj : ResolvedJoin) (l : list Observation) : Prop :=
  match outcome rj, acquired rj with
  | LocalOwner _, None => last l = Some (EntryFound true)
  | _, _ => rests_on s local rj l
  end.

Lemma owner_ready_observed n c s local l :
  always (noted note_call (owner_ready_loop n c s local) l) (fun x =>
    lookups x.2 <= lookups l + n /\ forall rj, x.1 = Ok rj -> joined s local rj x.2).
Proof.
  revert l. induction n as [|n IH]; intros l; [split; [cbn; lia|done]|].
  cbn [owner_ready_loop]. apply always_noted_bind. eapply always_mono; [|apply resolve_join_observed].
  intros [[rj|e] l1] [Hl Hrj]; cbn [fst snd] in *; [|split; [cbn; lia|done]].
  specialize (Hrj rj eq_refl). unfold rests_on in Hrj.
  destruct (outcome rj) as [g|o g] eqn:Ho; [destruct (acquired rj) as [lease|] eqn:Ha|].
  - split; [cbn; lia|]. intros rj' [= <-]. unfold joined, rests_on. by rewrite Ho, Ha.
  - intros [|]; cbn.
    + split; [cbn; rewrite lookups_snoc; lia|]. intros rj' [= <-]. unfold joined. rewrite Ho, Ha. apply last_snoc.
    + intros []. cbn. eapply always_mono; [|apply IH]. intros x [Hx Hj]. rewrite lookups_snoc in Hx. split; [lia|done].
  - split; [cbn; lia|]. intros rj' [= <-]. unfold joined, rests_on. by rewrite Ho.
Qed.

(** C21: a join that succeeds names, in its fenced header, a lease that was live in Redis
    at some moment of the join, however other pods acquired, released or lost leases
    between its calls.  It is another pod's lease only if the last thing the join did was to
    have exactly that header validated; a lease of this pod is one that the join has just
    acquired, or that the pod's registry was found to be renewing.  The join looks the owner
    up at most 25 times. *)
Theorem join_names_live_owner c s local w w' rj l :
  world_ok w -> run (noted note_call (resolve_join_owner_ready c s local) []) w w' (Ok rj, l) ->
  (exists w1, reached w w1 /\ reached w1 w' /\ names_live w1 c s local rj /\
    (forall g, outcome rj = LocalOwner g -> acquired rj = None ->
       exists w2, reached w1 w2 /\ reached w2 w' /\ s ∈ w_entries w2)) /\
  joined s local rj l /\ lookups l <= 25.
Proof.
  intros Hw He. split; [by eapply owner_ready_sound, exec_noted|].
  destruct (always_exec _ _ _ _ _ _ _ He (owner_ready_observed _ c s local [])) as [Hl Hj].
  split; [by apply Hj|exact Hl].
Qed.
End join.

(** ** The media fence *)

Section media.
Context `{MpscLaws Bytes} `{MpscLaws PeerCtrl} `{HashMapIter}.
Implicit Types m : AudioRoomManager.

(** The datagrams in the order they arrive, with their verdicts. *)
Fixpoint run_media (ds : list MeshDatagram) (seen : GenerationFloor) m
    : GenerationFloor * AudioRoomManager * list FenceVerdict :=
  match ds with
  | [] => (seen, m, [])
  | d :: ds =>
      let '(seen, m, v) := on_media_datagram d seen m in
      let '(seen, m, vs) := run_media ds seen m in
      (seen, m, v :: vs)
  end.

Definition accepted (v : FenceVerdict) : bool :=
  match v with Accept _ => true | RejectStale _ => false end.

(** The fence decides before anything is delivered. *)
Lemma on_media_floor d seen m :
  let '(seen', _, v) := on_media_datagram d seen m in
  (seen', v) = floor_check (fh_session_id (fenced d)) (fh_generation (fenced d)) seen.
Proof.
  unfold on_media_datagram. destruct (floor_check _ _ _) as [seen' [b|k]]; [|done].
  destruct (get_unambiguous_by_channel _ _); [|done]. by destruct (payload d).
Qed.

Definition floor_le (seen seen' : GenerationFloor) : Prop :=
  forall s g, seen !! s = Some g -> exists g', seen' !! s = Some g' /\ (g <= g')%N.

Lemma floor_check_le s g seen : floor_le seen (floor_check s g seen).1.
Proof.
  unfold floor_check. intros s' g' Hs'. destruct (seen !! s) as [known|] eqn:Hs.
  - destruct (g <? known)%N eqn:Hlt; [eauto with lia|]. simpl.
    destruct (known <? g)%N eqn:Hlt2; [|eauto with lia]. apply N.ltb_lt in Hlt2.
    destruct (decide (s = s')) as [->|].
    + rewrite lookup_insert_eq. eexists. split; [done|]. simplify_eq. lia.
    + rewrite lookup_insert_ne by done. eauto with lia.
  - simpl. destruct (decide (s = s')) as [->|]; [congruence|].
    rewrite lookup_insert_ne by done. eauto with lia.
Qed.

Lemma floor_check_accepts s g seen seen' b :
  floor_check s g seen = (seen', Accept b) ->
  (forall known, seen !! s = Some known -> (known <= g)%N) /\ seen' !! s = Some g.
Proof.
  unfold floor_check. destruct (seen !! s) as [known|] eqn:Hs.
  - destruct (g <? known)%N eqn:Hlt; [done|]. apply N.ltb_ge in Hlt. intros E.
    destruct (known <? g)%N eqn:Hlt2; injection E as <- _.
    + split; [naive_solver|]. by rewrite lookup_insert_eq.
    + apply N.ltb_ge in Hlt2. split; [naive_solver|]. rewrite Hs. f_equal. lia.
  - intros [= <- _]. split; [done|]. by rewrite lookup_insert_eq.
Qed.

Lemma floor_check_verdict s g seen :
  accepted (floor_check s g seen).2 = false <-> exists known, seen !! s = Some known /\ (g < known)%N.
Proof.
  unfold floor_check. destruct (seen !! s) as [known|]; [|naive_solver].
  destruct (g <? known)%N eqn:Hlt; [apply N.ltb_lt in Hlt|apply N.ltb_ge in Hlt]; simpl; [naive_solver|].
  split; [by destruct (known <? g)%N|]. intros (k & [= ->] & ?). lia.
Qed.

Lemma floor_check_rejects s g seen seen' k :
  floor_check s g seen = (seen', RejectStale k) -> seen' = seen.
Proof.
  unfold floor_check. destruct (seen !! s) as [known|]; [|done].
  destruct (g <? known)%N; [by intros [= <-]|done].
Qed.

(** What a delivery does to the peers of a room. *)
Lemma deliver_prefixed_receives author frame (r : Room) id p :
  peers r !! id = Some p ->
  exists p', peers (deliver_prefixed author frame r) !! id = Some p' /\
    (if decide (peer_index p = author) then p' = p else received frame p p').
Proof.
  intros Hp. simpl. rewrite lookup_fmap, Hp. simpl. eexists. split; [reflexivity|].
  case_decide; case_bool_decide; try done. apply send_audio_received.
Qed.

Lemma run_media_above ds seen m :
  let '(_, _, vs) := run_media ds seen m in
  forall j d v known, ds !! j = Some d -> vs !! j = Some v -> accepted v = true ->
    seen !! fh_session_id (fenced d) = Some known -> (known <= fh_generation (fenced d))%N.
Proof.
  revert seen m. induction ds as [|d ds IH]; intros seen m; [done|]. simpl.
  pose proof (on_media_floor d seen m) as Hf.
  destruct (on_media_datagram d seen m) as [[seen' m'] v0].
  specialize (IH seen' m'). destruct (run_media ds seen' m') as [[seen2 m2] vs].
  intros [|j] d' v known Hd Hv Hacc Hk; simpl in *; simplify_eq.
  - destruct v as [b|]; [|done]. symmetry in Hf. by apply floor_check_accepts in Hf as [? _]; auto.
  - pose proof (floor_check_le (fh_session_id (fenced d)) (fh_generation (fenced d)) seen
      _ _ Hk) as (g' & Hg' & Hle).
    rewrite <-Hf in Hg'. simpl in Hg'. specialize (IH _ _ _ _ Hd Hv Hacc Hg'). lia.
Qed.

(** The room a datagram is for: the only one of its channel. *)
Definition media_room (d : MeshDatagram) m : option positive :=
  get_unambiguous_by_channel (fh_session_id (fenced d)) m.

End media.

(** ** A concrete join *)

#[local] Existing Instance uuid_api.
#[local] Existing Instance uuid_laws.
#[local] Existing Instance toy_redis.
#[local] Existing Instance toy_redis_laws.
#[local] Existing Instance toy_hex.
#[local] Existing Instance toy_hex_laws.

Definition world0 : World := {| w_store := redis_empty; w_grants := ∅; w_entries := ∅ |}.
Definition world1 : World :=
  {| w_store := session1; w_grants := grant ∅ 1%N 2%N (pod 7) HuddleControl; w_entries := ∅ |}.

(** The first pod to join acquires the lease. *)
Definition first_join : ResolvedJoin :=
  {| outcome := LocalOwner 1;
     acquired := Some {| sl_community_id := 1%N; sl_session_id := 2%N;
       sl_owner_runtime_id := pod 7; sl_generation := 1; sl_profile := HuddleControl |} |}.

Lemma first_join_runs :
  exec env_step (fun R => answer 30000 (R := R)) (resolve_join_owner_ready 1%N 2%N (pod 7))
    world0 world1 (Ok first_join).
Proof.
  exists world0, world0, (Ok None). split; [apply rtc_refl|]. split.
  - split; [done|]. by exists Up.
  - exists world0, world1, (Ok (AcquiredLease {| sl_community_id := 1%N; sl_session_id := 2%N;
       sl_owner_runtime_id := pod 7; sl_generation := 1; sl_profile := HuddleControl |})).
    split; [apply rtc_refl|]. split.
    + exists Up. split_and!; reflexivity.
    + by split; [apply rtc_refl|].
Qed.

(** Another pod joins, looks the owner up and has it validated. *)
Definition second_join : ResolvedJoin := {| outcome := RemoteOwner (pod 7) 1; acquired := None |}.

Definition second_header : FencedHeader :=
  {| fh_session_id := 2%N; fh_generation := 1; fh_owner_runtime_id := pod 7 |}.

Lemma second_join_runs :
  exec env_step (fun R => answer 30000 (R := R)) (noted note_call (resolve_join_owner_ready 1%N 2%N (pod 8)) [])
    world1 world1 (Ok second_join, [Found (Some {| o_owner_runtime_id := pod 7; o_generation := 1 |}); Validated second_header]).
Proof.
  exists world1, world1, (Ok (Some {| o_owner_runtime_id := pod 7; o_generation := 1 |})). split; [apply rtc_refl|]. split.
  - split; [done|]. by exists Up.
  - exists world1, world1, (Ok tt). split; [apply rtc_refl|]. split.
    + split; [done|]. by exists Up.
    + by split; [apply rtc_refl|].
Qed.

Lemma join_names_live_owner_witness :
  (exists w1, names_live w1 1%N 2%N (pod 8) second_join) /\
  joined 2%N (pod 8) second_join
    [Found (Some {| o_owner_runtime_id := pod 7; o_generation := 1 |}); Validated second_header].
Proof.
  destruct (join_names_live_owner 30000 1%N 2%N (pod 8) world1 world1 second_join
    [Found (Some {| o_owner_runtime_id := pod 7; o_generation := 1 |}); Validated second_header])
    as [(w1 & _ & _ & Hn & _) [Hj _]].
  - exact (exec_reached 30000 _ _ _ _ first_join_runs).
  - exact second_join_runs.
  - split; [exists w1; exact Hn|exact Hj].
Defined.

#[local] Existing Instance bytes_mpsc.
#[local] Existing Instance ctrl_mpsc.
#[local] Existing Instance bytes_mpsc_laws.
#[local] Existing Instance ctrl_mpsc_laws.
#[local] Existing Instance map_order.

Definition datagram (g : N) : MeshDatagram :=
  {| fenced := {| fh_session_id := 2%N; fh_generation := g; fh_owner_runtime_id := pod g |};
     seq := 0; payload := [0%N; 9%N] |}.

(** A room of the channel with two peers gets the datagram of the first. *)
Definition media_rooms : AudioRoomManager :=
  let '(m, a) := get_or_create 1%N 2%N AudioRoomManager_new in
  update_room a (fun r => (add_peer 11%N "bob" 2%N (add_peer 10%N "alice" 2%N r).1).1) m.

