(* ===== verification/AuditRuns.v ===== *)
(** * A run of the audit log

    A concrete JSON printer, clock, digest and database, and a run in which two relays append
    to one chain while another verifies and reads it: the theorems of [AuditHistory] at a
    concrete input, and two entries whose hashed bytes are the same. *)

From S2P Require Import Prelude Text Nostr SessionDirectoryProps ReliableStreamProps Concurrent Json AuditLog AuditHash AuditChain AuditDb AuditProps AuditHistory.

(** ** JSON *)

#[export] Instance toy_number : SerdeNumber := {| Json.Number := N; is_f64 _ := false |}.

Definition backslash : Ascii.ascii := "\"%char.

Fixpoint escape (s : string) : string :=
  match s with
  | EmptyString => String quote EmptyString
  | String a s =>
      if decide (a = quote) then String backslash (String quote (escape s))
      else if decide (a = backslash) then String backslash (String backslash (escape s))
      else String a (escape s)
  end.

Definition toy_to_string (v : Value.t) : Result string string :=
  match v with
  | Value.Null => Ok "null"
  | Value.Bool b => Ok (if b then "true" else "false")
  | Value.Number n => Ok (decimal n)
  | Value.String s => Ok (String quote (escape s))
  | _ => Err "not a scalar"
  end.

#[export] Instance toy_json : SerdeJson :=
  {| SerdeError := string; to_string := toy_to_string; to_string_str s := Ok (String quote (escape s)) |}.

Lemma escape_delimited s s' x y : (escape s ++ x)%string = (escape s' ++ y)%string -> s = s' /\ x = y.
Proof.
  revert s'. induction s as [|a s IH]; intros [|a' s']; cbn [escape]; intros E.
  - split; [done|]. by injection E.
  - exfalso. repeat case_decide; rewrite !string_app_cons in E; injection E as E1 _; subst; by vm_compute in *.
  - exfalso. repeat case_decide; rewrite !string_app_cons in E; injection E as E1 _; subst; by vm_compute in *.
  - assert (a = a' /\ (escape s ++ x)%string = (escape s' ++ y)%string) as [-> E'].
    { repeat case_decide; subst; rewrite !string_app_cons in E; injection E; intros; subst;
        try done; try (by vm_compute in *); by split. }
    by destruct (IH s' E') as [-> ->].
Qed.

Lemma digit_number a : is_digit a = true -> byte_in 48 57 a || bool_decide (a = "-"%char) = true.
Proof. intros Ha. apply orb_true_iff. by left. Qed.

#[export] Instance toy_json_laws : SerdeJsonLaws.
Proof.
  split; try done.
  - intros n. destruct (decimal_digits n) as [Hd Hne]. simpl. destruct (decimal n) as [|a t]; [done|].
    exists a, t. simpl in Hd. apply andb_true_iff in Hd as [Ha Ht]. split_and!; [done|by apply digit_number|].
    eapply all_bytes_impl; [|exact Ht]. intros b Hb. unfold number_byte. apply orb_true_iff. by left.
  - intros n n' [= E]. by apply decimal_inj.
  - intros s. by eexists.
  - intros s s' t t' x y [= <-] [= <-] E. rewrite !string_app_cons in E. injection E as E. by apply escape_delimited.
Qed.

(** ** The other surroundings *)

Fixpoint toy_sum (acc : N) (s : string) : N :=
  match s with
  | EmptyString => acc
  | String a s => toy_sum ((acc * 31 + Ascii.N_of_ascii a + 1) mod 2 ^ 256) s
  end.

(** An instant as a signed number of nanoseconds. *)
Definition toy_time (t : Z) : string :=
  if (t <? 0)%Z then String "-" (decimal (Z.to_N (- t))) else decimal (Z.to_N t).

#[export] Instance toy_audit : AuditApi :=
  {| sha256 s := bytes_str (be_bytes 32 (toy_sum 7 s)); to_rfc3339 := toy_time |}.

Lemma digit_not_lower a : is_digit a = true -> negb (byte_in 97 122 a) = true.
Proof. destruct a as [[] [] [] [] [] [] [] []]; by vm_compute. Qed.

#[export] Instance toy_audit_laws : AuditLaws.
Proof.
  split.
  - intros s. cbn [sha256 toy_audit]. by rewrite length_bytes_str, length_be_bytes.
  - intros t t'. cbn [to_rfc3339 toy_audit]. unfold toy_time.
    destruct (Z.ltb_spec t 0), (Z.ltb_spec t' 0); intros E.
    + injection E as E%decimal_inj. lia.
    + exfalso. destruct (decimal_digits (Z.to_N t')) as [Hd _]. by rewrite <-E in Hd.
    + exfalso. destruct (decimal_digits (Z.to_N t)) as [Hd _]. by rewrite E in Hd.
    + apply decimal_inj in E. lia.
  - intros t. cbn [to_rfc3339 toy_audit]. unfold toy_time. destruct (t <? 0)%Z; simpl;
      (eapply all_bytes_impl; [exact digit_not_lower|apply decimal_digits]).
Qed.

#[export] Instance toy_postgres : Postgres :=
  {| hashtextextended s := Z.of_N (toy_sum 3 s); jsonb := Some |}.

#[export] Instance toy_postgres_laws : PostgresLaws.
Proof. split. by intros v v' [= <-] _ Hd. Qed.

#[export] Existing Instances uuid_api toy_uuid_bytes toy_uuid_bytes_laws.

(** ** The answers *)

Definition first_free (busy : gset Session) : option Session :=
  List.find (fun s => bool_decide (s ∉ busy)) [1; 2; 3]%positive.

(** The rows of a community whose number satisfies [P], in order. *)
Definition toy_select (rows : gmap (Uuid * Z) Row) (c : Uuid) (P : Z -> bool) : list Row :=
  sort_by_key row_seq (omap (fun kv : Uuid * Z * Row =>
    if bool_decide (kv.1 = (c, row_seq kv.2)) && P (row_seq kv.2) then Some kv.2 else None) (map_to_list rows)).

Definition toy_head (rows : gmap (Uuid * Z) Row) (c : Uuid) : option (Z * string) :=
  (fun r => (row_seq r, row_hash r)) <$> last (toy_select rows c (fun _ => true)).

Definition keyed (rows : gmap (Uuid * Z) Row) : bool :=
  forallb (fun kv : Uuid * Z * Row => bool_decide (kv.1 = row_key kv.2)) (map_to_list rows).

Definition conflicts (rows : gmap (Uuid * Z) Row) (row : Row) : bool :=
  bool_decide (is_Some (rows !! row_key row)) ||
  existsb (fun kv : Uuid * Z * Row => bool_decide (kv.1.1 = row_community_id row) && bool_decide (row_hash kv.2 = row_hash row))
    (map_to_list rows).

Definition toy_respond (R : Type) (c : AuditCall R) (w : PgWorld) : option (PgWorld * R) :=
  match c in AuditCall R return option (PgWorld * R) with
  | Acquire => s ← first_free (w_busy w); Some (set_sessions (w_busy w ∪ {[s]}) (w_alive w ∪ {[s]}) w, Ok s)
  | Release s => Some (set_sessions (w_busy w ∖ {[s]}) (w_alive w) w, tt)
  | AdvisoryLock s key =>
      if bool_decide (s ∈ w_alive w) && bool_decide (w_locks w !! hashtextextended key ∈ [None; Some s])
      then Some (set_locks (<[hashtextextended key := s]> (w_locks w)) w, Ok tt) else None
  | AdvisoryUnlock s key =>
      if bool_decide (w_locks w !! hashtextextended key = Some s)
      then Some (set_locks (delete (hashtextextended key) (w_locks w)) w, Ok tt) else None
  | Begin s => if bool_decide (s ∈ w_alive w) then Some (set_open (<[s := []]> (w_open w)) w, Ok tt) else None
  | Rollback s => Some (w, tt)
  | SelectHead s c =>
      if bool_decide (s ∈ w_alive w) && keyed (visible w s) then Some (w, Ok (toy_head (visible w s) c)) else None
  | UtcNow => Some (w, 1700000000123456789%Z)
  | Insert s row =>
      pending ← w_open w !! s; row' ← pg_row row;
      if bool_decide (s ∈ w_alive w) && negb (conflicts (visible w s) row) &&
         (Z.of_nat (size (w_rows w)) <? 2 ^ 62)%Z && bool_decide (size (w_open w) = 1)
      then Some (set_open (<[s := pending ++ [row']]> (w_open w)) w, Ok tt) else None
  | Commit s =>
      if bool_decide (s ∈ w_alive w) && bool_decide (is_Some (w_open w !! s))
      then Some (set_open (delete s (w_open w)) (set_rows (visible w s) w), Ok tt) else None
  | SelectRange c lo hi => Some (w, Ok (toy_select (w_rows w) c (fun n => (lo <=? n)%Z && (n <=? hi)%Z)))
  | SelectFrom c lo limit => Some (w, Ok (take (Z.to_nat limit) (toy_select (w_rows w) c (fun n => (lo <=? n)%Z))))
  end.

Lemma toy_select_in rows c P r :
  r ∈ toy_select rows c P <-> rows !! (c, row_seq r) = Some r /\ P (row_seq r) = true.
Proof.
  unfold toy_select. rewrite sort_by_key_perm, list_elem_of_omap. split.
  - intros ([k r'] & Hin & Hr). simpl in Hr. case_bool_decide as E; [|done]. simpl in E, Hr.
    destruct (P (row_seq r')) eqn:HP; [|done]. injection Hr as ->. split; [|done].
    apply elem_of_map_to_list in Hin. by rewrite <-E.
  - intros [Hr HP]. exists (c, row_seq r, r). split; [by apply elem_of_map_to_list|].
    simpl. by rewrite bool_decide_true, HP.
Qed.

Lemma toy_select_nodup rows c P : NoDup (row_seq <$> toy_select rows c P).
Proof.
  unfold toy_select. rewrite sort_by_key_perm.
  pose proof (NoDup_fst_map_to_list rows) as Hn. revert Hn. generalize (map_to_list rows). intros l.
  induction l as [|[k r] l IH]; intros Hn; [constructor|]. simpl in Hn. apply NoDup_cons in Hn as [Hk Hn].
  simpl. case_bool_decide as E; [|by apply IH]. destruct (P (row_seq r)); [|by apply IH]. simpl.
  apply NoDup_cons. split; [|by apply IH]. intros (r' & Hseq & Hin)%list_elem_of_fmap. apply Hk.
  apply list_elem_of_omap in Hin as ([k' r''] & Hin & Hr). simpl in Hr. case_bool_decide as E'; [|done].
  simpl in E', Hr. destruct (P (row_seq r'')); [|done]. injection Hr as ->.
  apply list_elem_of_fmap. exists (k', r'). split; [|done]. simpl. congruence.
Qed.

Lemma strictly_sorted (l : list Row) :
  StronglySorted (fun a b => row_seq a <= row_seq b)%Z l -> NoDup (row_seq <$> l) ->
  StronglySorted (fun a b => row_seq a < row_seq b)%Z l.
Proof.
  induction 1 as [|a l Hs IH Ha]; intros Hn; [constructor|]. apply NoDup_cons in Hn as [Hna Hn].
  constructor; [by apply IH|]. rewrite Forall_forall in Ha |- *. intros b Hb. specialize (Ha b Hb).
  assert (row_seq a <> row_seq b); [|lia]. intros E. apply Hna. rewrite E. by apply list_elem_of_fmap_2.
Qed.

Lemma toy_select_selected rows c P :
  selected rows c (fun n => P n = true) (toy_select rows c P).
Proof.
  split; [|intros r; apply toy_select_in]. apply strictly_sorted; [|apply toy_select_nodup].
  apply sort_by_key_sorted.
Qed.

Lemma selected_iff rows c (P Q : Z -> Prop) l : (forall n, P n <-> Q n) -> selected rows c P l -> selected rows c Q l.
Proof. intros E [Hs Hin]. split; [done|]. intros r. by rewrite Hin, E. Qed.

Lemma toy_head_ok rows c : keyed rows = true -> head_of rows c (toy_head rows c).
Proof.
  unfold keyed. rewrite forallb_forall. intros Hk.
  assert (forall m r, rows !! (c, m) = Some r -> r ∈ toy_select rows c (fun _ => true) /\ row_seq r = m) as Hin.
  { intros m r Hr. pose proof (proj2 (elem_of_map_to_list rows (c, m) r) Hr) as Hl.
    apply list_elem_of_In, Hk in Hl. apply bool_decide_eq_true in Hl. injection Hl as _ E. simpl in E. subst m.
    by rewrite toy_select_in. }
  pose proof (toy_select_selected rows c (fun _ => true)) as [Hs Hsel]. unfold toy_head, head_of.
  destruct (last (toy_select rows c (fun _ => true))) as [r|] eqn:Hl; simpl.
  - pose proof Hl as Hr%last_Some_elem_of. apply Hsel in Hr as [Hr _]. split; [by exists r|].
    intros m Hm. destruct (rows !! (c, m)) as [r'|] eqn:Hr'; [|done]. exfalso.
    destruct (Hin m r' Hr') as [[i Hi]%list_elem_of_lookup <-]. rewrite last_lookup in Hl.
    destruct (decide (i = pred (length (toy_select rows c (fun _ => true))))) as [->|Hne]; [rewrite Hi in Hl; injection Hl as ->; lia|].
    pose proof (lookup_lt_Some _ _ _ Hi).
    pose proof (sorted_lookup _ _ i (pred (length (toy_select rows c (fun _ => true)))) r' r Hs ltac:(lia) Hi Hl). simpl in *. lia.
  - intros m. destruct (rows !! (c, m)) as [r'|] eqn:Hr'; [|done]. destruct (Hin m r' Hr') as [Hr _].
    apply last_None in Hl. rewrite Hl in Hr. by apply elem_of_nil in Hr.
Qed.

Lemma conflicts_ok rows row name : conflicts rows row = false -> ~ violates rows row name.
Proof.
  unfold conflicts. intros [Hp Hh]%orb_false_iff. apply bool_decide_eq_false in Hp.
  intros [[_ ?]|(_ & n & r & Hr & E)]; [done|].
  assert (existsb (fun kv : Uuid * Z * Row => bool_decide (kv.1.1 = row_community_id row) && bool_decide (row_hash kv.2 = row_hash row))
    (map_to_list rows) = true) as Ht; [|congruence].
  apply existsb_exists. exists (row_community_id row, n, r). split; [by apply list_elem_of_In, elem_of_map_to_list|].
  simpl. by rewrite !bool_decide_true.
Qed.

Lemma toy_answers R (c : AuditCall R) w w' r : toy_respond R c w = Some (w', r) -> pg_answer R c w w' r.
Proof.
  intros Hr. exists []. destruct c; cbn [toy_respond pg_effect foldr] in *.
  - right. destruct (first_free (w_busy w)) as [s|] eqn:Hs; [|done]. injection Hr as <- <-.
    exists s. apply List.find_some in Hs as [_ Hs]. apply bool_decide_eq_true in Hs. done.
  - by injection Hr as <- <-.
  - right. destruct (bool_decide _ && _) eqn:Hc; [|done]. injection Hr as <- <-.
    apply andb_true_iff in Hc as [Ha%bool_decide_eq_true Hl%bool_decide_eq_true].
    split_and!; [done| |done|by left]. intros s' Hs'. rewrite Hs' in Hl. set_solver.
  - right. case_bool_decide; [|done]. by injection Hr as <- <-.
  - right. case_bool_decide; [|done]. injection Hr as <- <-. split_and!; [done..|by left].
  - left. by injection Hr as <- <-.
  - destruct (bool_decide _ && _) eqn:Hc; [|done]. injection Hr as <- <-.
    apply andb_true_iff in Hc as [Ha%bool_decide_eq_true Hk].
    split; [done|]. right. split; [done|]. eexists. split; [done|by apply toy_head_ok].
  - by injection Hr as <- <-.
  - right. destruct (w_open w !! s) as [pending|] eqn:Hp; [|done]. simpl in Hr.
    match type of Hr with (if ?b then _ else _) = _ => destruct b eqn:Hc; [|done] end. injection Hr as <- <-.
    apply andb_true_iff in Hc as [[[Ha%bool_decide_eq_true Hv%negb_true_iff]%andb_true_iff Hz%Z.ltb_lt]%andb_true_iff Hone%bool_decide_eq_true].
    split; [done|]. split; [done|]. exists pending. split; [done|]. right. eexists. split_and!; [reflexivity| | |done|by left].
    + intros name. by apply conflicts_ok.
    + intros s' rs Hne Hs'. exfalso. rewrite <-length_map_to_list in Hone.
      apply elem_of_map_to_list in Hp, Hs'. destruct (map_to_list (w_open w)) as [|x [|]]; [done| |done].
      apply list_elem_of_singleton in Hp, Hs'. congruence.
  - right. destruct (bool_decide _ && _) eqn:Hc; [|done]. injection Hr as <- <-.
    apply andb_true_iff in Hc as [Ha%bool_decide_eq_true Ho%bool_decide_eq_true].
    split_and!; [done|done|done|by left].
  - injection Hr as <- <-. split; [done|]. right. eexists. split; [done|].
    eapply selected_iff, toy_select_selected. intros n. simpl. lia.
  - injection Hr as <- <-. split; [done|]. right. eexists. split; [done|].
    eapply selected_iff, toy_select_selected. intros n. simpl. lia.
Qed.

(** ** The run *)

Definition event_entry (event_id : string) : NewAuditEntry :=
  {| ne_community_id := 7%N; ne_action := EventCreated;
     ne_actor_pubkey := Some (String.string_of_list_ascii (replicate 32 "k"%char));
     ne_object_id := Some event_id;
     ne_detail := Value.Object [("event_kind", Value.Number (9%N : Json.Number)); ("channel_id", Value.Null)] |}.

Lemma event_entry_keys event_id : Value.distinct_keys (ne_detail (event_entry event_id)).
Proof. cbn. split; [|done]. repeat constructor; set_solver. Qed.

Definition append (event_id : string) : AuditTask := LogTask (event_entry event_id) eq_refl (event_entry_keys event_id).

(** The second append has its session before the first is done, and waits for the lock. *)
Definition appends : list (Turn (T := AuditTask)) :=
  [Spawn (append "aa"); Spawn (append "bb"); Run 0 2; Run 1 1; Run 0 20; Run 1 20;
   Spawn (VerifyTask 7%N 1 2); Run 2 5; Spawn (GetTask 7%N 0 1); Run 3 5].

Definition audit_state : PgWorld * list (Thread (Call := AuditCall) (A := audit_answer)) :=
  default (empty_world, []) (run_schedule audit_program toy_respond appends (empty_world, [])).

Lemma audit_state_reached : rtc audit_step (empty_world, []) (audit_state.1, audit_state.2).
Proof.
  assert (ends : (if run_schedule audit_program toy_respond appends (empty_world, []) is Some _ then true else false) = true)
    by (vm_compute; reflexivity).
  rewrite <-surjective_pairing. unfold audit_state.
  destruct (run_schedule _ _ appends _) as [x|] eqn:Hx; [|done].
  eapply run_schedule_steps; [exact toy_answers|exact Hx].
Qed.

Definition in_range (n : Z) : bool := (1 <=? n)%Z && (n <=? 2)%Z.
Definition rows_held : list Row := toy_select (w_rows audit_state.1) 7%N in_range.

Lemma toy_range rows : selected rows 7%N (fun n => 1 <= n <= 2)%Z (toy_select rows 7%N in_range).
Proof. eapply selected_iff, toy_select_selected. intros n. unfold in_range. lia. Qed.

Lemma audit_chain_integrity_witness :
  (exists l, is_chain audit_state.1 7%N l) /\
  length rows_held = 2 /\ verify_rows rows_held = Ok true /\
  (exists n, (1 <= n <= 2)%Z /\ is_Some (w_rows audit_state.1 !! (7%N, n))).
Proof.
  destruct (audit_chain_integrity _ _ _ _ 7%N audit_state_reached (rtc_refl _ _)) as ((l & _ & Hl & _) & Hv & _ & Hverify & _).
  split; [exact (ex_intro _ l Hl)|]. split; [vm_compute; reflexivity|]. split.
  - rewrite (Hv _ _ rows_held (toy_range _)). apply f_equal, bool_decide_true. intros E.
    apply (f_equal length) in E. revert E. vm_compute. discriminate.
  - apply (Hverify 1%Z 2%Z (Ok true)); [|reflexivity].
    apply (list_elem_of_lookup_2 _ 2). vm_compute. reflexivity.
Defined.

(** The oldest row is gone. *)
Definition tampered_rows : gmap (Uuid * Z) Row := delete (7%N, 1%Z) (w_rows audit_state.1).
Definition rows_left : list Row := toy_select tampered_rows 7%N in_range.

Definition input_of (row : Row) : option string :=
  match row_to_audit_entry row with
  | Ok e => match hash_input e with Ok p => Some p | Err _ => None end
  | Err _ => None
  end.

Lemma input_of_ok row p : row_input row p -> input_of row = Some p.
Proof. intros (e & He & Hp). unfold input_of. by rewrite He, Hp. Qed.

Definition distinct_inputs (rows : list Row) : bool :=
  forallb (fun r => forallb (fun r' => match input_of r, input_of r' with
    | Some p, Some p' => negb (String.eqb (sha256 p) (sha256 p')) || String.eqb p p'
    | _, _ => true
    end) rows) rows.

Lemma distinct_inputs_ok rows : distinct_inputs rows = true -> no_collision rows.
Proof.
  unfold distinct_inputs. rewrite forallb_forall. intros Hall r r' p p' Hr Hr' Hp%input_of_ok Hp'%input_of_ok E.
  apply list_elem_of_In, Hall in Hr. rewrite forallb_forall in Hr. apply list_elem_of_In, Hr in Hr'.
  rewrite Hp, Hp' in Hr'. rewrite E, String.eqb_refl in Hr'. by apply String.eqb_eq.
Qed.

Definition small_seqs (rows : list Row) : bool :=
  forallb (fun r => (- 2 ^ 63 <=? row_seq r)%Z && (row_seq r <? 2 ^ 63)%Z) rows.

Lemma small_seqs_ok rows : small_seqs rows = true -> Forall (fun r => is_i64 (row_seq r)) rows.
Proof.
  unfold small_seqs. rewrite forallb_forall. intros Hall. apply Forall_forall. intros r Hr.
  apply list_elem_of_In, Hall in Hr. unfold is_i64. lia.
Qed.

Lemma audit_tamper_evident_witness :
  exists missing kept, rows_held = missing ++ kept /\ Forall2 row_agrees kept rows_left /\ length rows_left = 1.
Proof.
  destruct (audit_tamper_evident _ _ 7%N 1%Z 2%Z rows_held tampered_rows rows_left audit_state_reached) as (missing & kept & E & Hk).
  - lia.
  - apply toy_range.
  - apply toy_range.
  - apply small_seqs_ok. vm_compute. reflexivity.
  - apply distinct_inputs_ok. vm_compute. reflexivity.
  - vm_compute. reflexivity.
  - vm_compute. reflexivity.
  - exists missing, kept. split; [exact E|]. split; [exact Hk|]. vm_compute. reflexivity.
Defined.

(** ** What the hash does not tell apart *)

Definition numbered (id : string) (n : N) : AuditEntry :=
  next_entry {| ne_community_id := 7%N; ne_action := EventCreated; ne_actor_pubkey := None; ne_object_id := Some id;
     ne_detail := Value.Number (n : Json.Number) |} None 0%Z.

(** The object id is followed by the detail with nothing between them. *)
Example object_id_runs_into_detail :
  hash_input (numbered "a1" 2) = hash_input (numbered "a" 12) /\
  object_id (numbered "a1" 2) <> object_id (numbered "a" 12).
Proof. split; [vm_compute; reflexivity|done]. Qed.

Lemma canonical_json_exact_witness :
  canonical_json (Value.Object [("z", Value.Number (1%N : Json.Number)); ("a", Value.Array [Value.Null])]) =
  canonical_json (Value.Object [("a", Value.Array [Value.Null]); ("z", Value.Number (1%N : Json.Number))]).
Proof.
  apply canonical_json_exact; [| |reflexivity]; cbn; (split; [|done]); repeat constructor; set_solver.
Defined.
