(* ===== verification/Tenant.v ===== *)
(** * Tenants ([buzz-core/src/tenant.rs], [buzz-relay/src/tenant.rs])

    A request belongs to the community its host resolves to.  The normalisation of hosts and
    of relay URLs, what it identifies ([host_variant]), and the binding of a connection to a
    community, over the lookup of a host ([HostResolver]). *)

From S2P Require Import Prelude Text Nostr Concurrent.

(** The resolved tenant of a request. *)
Record TenantContext := {
  tc_community : CommunityId;
  tc_host : string;
}.

Definition resolved (community : CommunityId) (host : string) : TenantContext :=
  {| tc_community := community; tc_host := host |}.

(** [to_ascii_lowercase] *)
Definition ascii_lower (a : Ascii.ascii) : Ascii.ascii :=
  if byte_in 65 90 a then Ascii.ascii_of_N (Ascii.N_of_ascii a + 32) else a.

Fixpoint to_ascii_lowercase (s : string) : string :=
  match s with
  | EmptyString => EmptyString
  | String a s => String (ascii_lower a) (to_ascii_lowercase s)
  end.

(** [a.or_else(|| b)] *)
Definition or_else {A} (a b : option A) : option A :=
  match a with Some _ => a | None => b end.

(** [if let Some(stripped) = o { host = stripped }] *)
Definition normalize_host (host : string) : string :=
  let host := trim host in
  let host := to_ascii_lowercase host in
  let host := default host (or_else (strip_suffix host ":443") (strip_suffix host ":80")) in
  default host (strip_suffix host ".").

(** [url]: a host of a parsed URL, as it is printed. *)
Inductive UrlHost :=
| Domain (domain : string)
| Ipv4 (addr : string)
| Ipv6 (addr : string).

Class UrlApi := {
  Url : Type;
  url_parse : string -> option Url;
  url_host : Url -> option UrlHost;
  url_port : Url -> option N;
  url_path : Url -> string;
  url_set_path : Url -> string -> Url;
  url_host_str : Url -> option string;
  (** [set_host]; the URL as it was where it fails *)
  url_set_host : Url -> string -> Url;
  url_to_string : Url -> string;
}.

Section url.
Context `{UrlApi}.

Definition relay_url_authority (relay_url : string) : string :=
  match url_parse relay_url with
  | None => EmptyString
  | Some url =>
      match url_host url with
      | None => EmptyString
      | Some host =>
          let host := match host with
                      | Domain domain => domain
                      | Ipv4 addr => addr
                      | Ipv6 addr => "[" ++ addr ++ "]"
                      end%string in
          let authority := match url_port url with
                           | Some port => host ++ ":" ++ decimal port
                           | None => host
                           end%string in
          normalize_host authority
      end
  end.
End url.

(** ** Binding *)

Inductive BindError := UnmappedHost | LookupFailed (e : string).

(** The lookup of a normalised host among the calls of a program. *)
Class HostResolver (Call : Type -> Type) := {
  ResolveHost : string -> Call (Result (option CommunityId) string);
}.

Section bind.
Context {Call : Type -> Type} `{!HostResolver Call}.

Definition bind_community (raw_host : string) : Prog Call (Result TenantContext BindError) :=
  let host := normalize_host raw_host in
  if decide (host = EmptyString) then Ret (Err UnmappedHost)
  else
    let! r := call (ResolveHost host) in
    match r with
    | Ok (Some community) => Ret (Ok (resolved community host))
    | Ok None => Ret (Err UnmappedHost)
    | Err e => Ret (Err (LookupFailed e))
    end.

Definition bind_deployment_community `{UrlApi} (relay_url : string)
    : Prog Call (Result TenantContext BindError) :=
  bind_community (relay_url_authority relay_url).
End bind.

(** ** What is one host

    The spellings of a host: in any case, with white space around it, with a default port,
    with the dot of the root. *)

Definition canonical_host (h : string) : Prop :=
  strip_suffix h ":443" = None /\ strip_suffix h ":80" = None /\ strip_suffix h "." = None.

Definition host_variant (h s : string) : Prop :=
  exists dot port, dot ∈ [""; "."] /\ port ∈ [""; ":443"; ":80"] /\
    to_ascii_lowercase (trim s) = (h ++ dot ++ port)%string.

Lemma string_rev_cat a b acc : string_rev acc (a ++ b) = string_rev (string_rev acc a) b.
Proof. revert acc. induction a as [|x a IH]; intros acc; simpl; [done|by rewrite IH]. Qed.

Lemma strip_prefix_Some s p r : strip_prefix s p = Some r -> s = (p ++ r)%string.
Proof.
  revert s. induction p as [|a p IH]; intros [|b s]; cbn [strip_prefix]; try done; try by intros [= <-].
  case_decide as E; [subst|done]. intros Hs. by rewrite (IH s Hs).
Qed.

Lemma strip_suffix_app s p : strip_suffix (s ++ p) p = Some s.
Proof.
  unfold strip_suffix. rewrite string_rev_cat, string_rev_app, strip_prefix_app. simpl. by rewrite string_rev_rev.
Qed.

Lemma strip_suffix_Some s p r : strip_suffix s p = Some r <-> s = (r ++ p)%string.
Proof.
  split; [|intros ->; apply strip_suffix_app]. unfold strip_suffix.
  intros (t & Ht & ->)%fmap_Some. apply strip_prefix_Some in Ht.
  rewrite <-(string_rev_rev s "" : _ = s), Ht, string_rev_cat, string_rev_app, string_rev_rev. done.
Qed.

Lemma strip_suffix_None s p : strip_suffix s p = None <-> forall r, s <> (r ++ p)%string.
Proof.
  destruct (strip_suffix s p) as [r|] eqn:E.
  - apply strip_suffix_Some in E. split; [done|]. intros Hn. by destruct (Hn r).
  - split; [|done]. intros _ r Hr%strip_suffix_Some. congruence.
Qed.

(** Texts that end in different bytes. *)
Lemma ends_differ a b x y c d : c <> d -> (a ++ x ++ String c "")%string <> (b ++ y ++ String d "")%string.
Proof.
  intros Hne E. rewrite !string_app_assoc in E. apply (f_equal (string_rev "")) in E.
  rewrite !string_rev_cat in E. by injection E.
Qed.

(** A normalised host, in terms of what was stripped from its spelling. *)
Lemma normalize_host_variant s : host_variant (normalize_host s) s.
Proof.
  unfold normalize_host, host_variant. set (l := to_ascii_lowercase (trim s)). clearbody l.
  assert (exists port h, port ∈ [""; ":443"; ":80"] /\ l = (h ++ port)%string /\
    default l (or_else (strip_suffix l ":443") (strip_suffix l ":80")) = h) as (port & h & Hp & -> & ->).
  { destruct (strip_suffix l ":443") as [h|] eqn:E1; [|destruct (strip_suffix l ":80") as [h|] eqn:E2]; cbn.
    - apply strip_suffix_Some in E1 as ->. exists ":443", h. set_solver.
    - apply strip_suffix_Some in E2 as ->. exists ":80", h. set_solver.
    - exists "", l. split; [set_solver|]. by rewrite string_app_nil_r. }
  destruct (strip_suffix h ".") as [h'|] eqn:E; cbn.
  - apply strip_suffix_Some in E as ->. exists ".", port. split; [set_solver|]. split; [done|]. by rewrite string_app_assoc.
  - exists "", port. split; [set_solver|]. done.
Qed.

(** Hosts are told apart exactly as they should be: what is normalised to a host in its
    normal form is every spelling of it, in any case, with white space around it, with the
    dot of the root and with a default port, and nothing else. *)
Theorem normalize_host_exact h s : canonical_host h -> normalize_host s = h <-> host_variant h s.
Proof.
  intros (H443 & H80 & Hdot). split; [intros <-; apply normalize_host_variant|].
  intros (dot & port & Hd & Hp & E). unfold normalize_host. rewrite E, string_app_assoc.
  assert (default ((h ++ dot) ++ port)%string
            (or_else (strip_suffix ((h ++ dot) ++ port) ":443") (strip_suffix ((h ++ dot) ++ port) ":80"))
          = (h ++ dot)%string) as ->.
  { assert (forall p, p = ":443" \/ p = ":80" -> strip_suffix (h ++ dot) p = None) as Hn.
    { intros p Hp'. apply strip_suffix_None. intros r Er. rewrite !elem_of_cons in Hd.
      destruct Hd as [->|[->|Hd%elem_of_nil]]; [|clear H443 H80|done].
      - rewrite string_app_nil_r in Er. subst h.
        destruct Hp' as [->| ->]; by rewrite strip_suffix_app in *.
      - destruct Hp' as [->| ->]; [revert Er; apply (ends_differ _ _ "" ":44")|revert Er; apply (ends_differ _ _ "" ":8")]; done. }
    rewrite !elem_of_cons in Hp. destruct Hp as [->|[->|[->|Hp%elem_of_nil]]]; [| | |done].
    - rewrite string_app_nil_r, !Hn by auto. done.
    - by rewrite strip_suffix_app.
    - rewrite strip_suffix_app. assert (strip_suffix ((h ++ dot) ++ ":80") ":443" = None) as ->; [|done].
      apply strip_suffix_None. intros r. apply (ends_differ _ _ ":8" ":44"). done. }
  rewrite !elem_of_cons in Hd. destruct Hd as [->|[->|Hd%elem_of_nil]]; [|by rewrite strip_suffix_app|done].
  by rewrite string_app_nil_r, Hdot.
Qed.

Lemma normalize_host_exact_witness :
  normalize_host " Relay.Example.:443 " = "relay.example" /\ host_variant "relay.example" "RELAY.example:80" /\
  normalize_host "relay.example:8443" <> "relay.example".
Proof.
  assert (canonical_host "relay.example") as Hc by (vm_compute; split_and!; reflexivity).
  split; [vm_compute; reflexivity|]. split; [apply (normalize_host_exact _ _ Hc); vm_compute; reflexivity|].
  vm_compute. discriminate.
Defined.
