(* ===== verification/HttpAuth.v ===== *)
(** * HTTP authentication ([buzz-auth/src/nip98.rs], [nip98_replay.rs],
    [buzz-pubsub/src/nip98_replay.rs], [buzz-relay/src/api/bridge.rs])

    A request to the HTTP interface carries a signed event (NIP-98): its verification, the
    seen-set in Redis that lets an event be used once, and the two as a handler uses them.
    [nostr], [url], [sha2], [hex], [base64] and [serde_json] are the operations of
    [NostrApi], [UrlApi] and [AuthApi]. *)

From S2P Require Import Prelude Text Nostr Concurrent Tenant.

Class AuthApi `{NostrApi} := {
  event_from_json : string -> Result Event string;
  event_id_new : PublicKey -> N -> Kind -> list Tag -> string -> EventId;
  verify_id : Event -> bool;
  verify_signature : Event -> bool;
  event_id_to_bytes : EventId -> string;
  event_id_from_byte_array : string -> EventId;
  pubkey_from_hex : string -> option PublicKey;
  pubkey_to_hex : PublicKey -> string;
  sha256 : string -> string;
  hex_encode : string -> string;
  base64_decode : string -> option string;
  (** [str::to_lowercase], by the tables of Unicode *)
  to_lowercase : string -> string;
}.

Section event.
Context `{AuthApi}.

Inductive VerificationError :=
| InvalidId (computed got : string)
| InvalidSignature.

Definition verify_event (ev : Event) : Result unit VerificationError :=
  if negb (verify_id ev) then
    let computed := event_id_to_hex (event_id_new (pubkey ev) (created_at ev) (kind ev) (tags ev) (content ev)) in
    Err (InvalidId computed (event_id_to_hex (id ev)))
  else if negb (verify_signature ev) then Err InvalidSignature
  else Ok tt.

(** [tags.find(kind)] *)
Definition find_tag (k : string) (ev : Event) : option Tag := List.find (fun t => String.eqb (tag_kind t) k) (tags ev).

(** [tags.find(kind).and_then(|t| t.content())] *)
Definition tag_value (k : string) (ev : Event) : option string := find_tag k ev ≫= tag_content.

Definition eq_ignore_ascii_case (a b : string) : bool :=
  String.eqb (to_ascii_lowercase a) (to_ascii_lowercase b).
End event.

Definition KIND_HTTP_AUTH : Kind := 27235%N.
Definition TIMESTAMP_TOLERANCE_SECS : N := 60.

(** [u64::abs_diff] *)
Definition abs_diff (a b : N) : N := if (a <? b)%N then (b - a)%N else (a - b)%N.

(** The errors of [buzz-auth] that authentication gives. *)
Inductive AuthError :=
| InvalidAuthSignature
| ChallengeMismatch
| RelayUrlMismatch
| EventExpired
| Nip98Invalid (what : string)
| Internal (what : string).

Definition auth_error_text (e : AuthError) : string :=
  match e with
  | InvalidAuthSignature => "invalid signature or malformed auth event"
  | ChallengeMismatch => "challenge mismatch"
  | RelayUrlMismatch => "relay url mismatch"
  | EventExpired => "auth event timestamp outside ±60s window"
  | Nip98Invalid what => "NIP-98 HTTP Auth verification failed: " ++ what
  | Internal what => "internal auth error: " ++ what
  end%string.

(** [trim_end_matches(c)] *)
Definition trim_end_matches (c : Ascii.ascii) (s : string) : string :=
  string_rev "" (trim_start [String c EmptyString] (string_rev "" s)).

Section nip98.
Context `{UrlApi} `{AuthApi}.

Definition normalize_url (raw : string) : string :=
  match url_parse raw with
  | None => to_lowercase raw
  | Some parsed => url_to_string (url_set_path parsed (trim_end_matches "/" (url_path parsed)))
  end.

(** [ok_or_else(..)?] *)
Definition ok_or {A E} (e : E) (o : option A) : Result A E :=
  match o with Some a => Ok a | None => Err e end.

Definition guard_auth (b : bool) (what : string) : Result unit AuthError :=
  if b then Ok tt else Err (Nip98Invalid what).

(** [now] is what the clock says when it is read. *)
Definition verify_nip98_event (now : N) (event_json expected_url expected_method : string)
    (body : option string) : Result PublicKey AuthError :=
  let? ev := map_err (fun e => Nip98Invalid ("event JSON parse error: " ++ e)%string) (event_from_json event_json) in
  let? _ := guard_auth (bool_decide (kind ev = KIND_HTTP_AUTH)) ("expected kind 27235, got " ++ decimal (kind ev))%string in
  let? _ := map_err (fun _ => Nip98Invalid "invalid Schnorr signature") (verify_event ev) in
  let delta := abs_diff now (created_at ev) in
  let? _ := guard_auth (delta <=? TIMESTAMP_TOLERANCE_SECS)%N
    ("event timestamp outside ±60s window (delta: " ++ decimal delta ++ "s)")%string in
  let? u_tag := ok_or (Nip98Invalid "missing `u` tag") (tag_value (letter_to_string "u"%char) ev) in
  let? _ := guard_auth (String.eqb (normalize_url u_tag) (normalize_url expected_url))
    ("URL mismatch: event has `" ++ u_tag ++ "`, expected `" ++ expected_url ++ "`")%string in
  let? method_tag := ok_or (Nip98Invalid "missing `method` tag") (tag_value "method" ev) in
  let? _ := guard_auth (eq_ignore_ascii_case method_tag expected_method)
    ("method mismatch: event has `" ++ method_tag ++ "`, expected `" ++ expected_method ++ "`")%string in
  let? _ := match tag_value "payload" ev, body with
            | Some payload_hex, Some body_bytes =>
                guard_auth (String.eqb (hex_encode (sha256 body_bytes)) payload_hex)
                  "payload tag SHA-256 mismatch: request body does not match signed hash"
            | _, _ => Ok tt
            end in
  Ok (pubkey ev).
End nip98.

(** ** NIP-42 ([buzz-auth/src/nip42.rs])

    A websocket connection is authenticated by a signed event that repeats a challenge. *)

Definition KIND_AUTHENTICATION : Kind := 22242%N.

Section nip42.
Context `{UrlApi} `{AuthApi}.

Definition normalize_relay_url (raw : string) : string :=
  match url_parse raw with
  | None => raw
  | Some parsed =>
      let parsed := match url_host_str parsed with
                    | Some host => if decide (host = "localhost" \/ host = "::1") then url_set_host parsed "127.0.0.1" else parsed
                    | None => parsed
                    end in
      url_to_string (url_set_path parsed (trim_end_matches "/" (url_path parsed)))
  end.

(** [bytes] are random. *)
Definition generate_challenge (bytes : string) : string := hex_encode bytes.

Definition verify_nip42_event (now : N) (ev : Event) (expected_challenge relay_url : string) : Result unit AuthError :=
  if decide (kind ev <> KIND_AUTHENTICATION) then Err InvalidAuthSignature
  else
    let? _ := map_err (fun _ => InvalidAuthSignature) (verify_event ev) in
    let? challenge := ok_or ChallengeMismatch (tag_value "challenge" ev) in
    if decide (challenge <> expected_challenge) then Err ChallengeMismatch
    else
      let? relay := ok_or RelayUrlMismatch (tag_value "relay" ev) in
      if decide (normalize_relay_url relay <> normalize_relay_url relay_url) then Err RelayUrlMismatch
      else
        let delta := abs_diff now (created_at ev) in
        if (TIMESTAMP_TOLERANCE_SECS <? delta)%N then Err EventExpired else Ok tt.
End nip42.

(** ** The seen-set *)

Definition DEFAULT_REPLAY_TTL_SECS : N := 120.
Definition MAX_REPLAY_TTL_SECS : N := 3600.

(** What authentication asks of its surroundings: the clock, in seconds; a connection to
    Redis, and [SET key value NX EX ttl] on it. *)
Class AuthCalls (Call : Type -> Type) := {
  Now : Call N;
  RedisPoolGet : Call (Result unit string);
  SetNxEx : string -> string -> N -> Call (Result (option string) string);
}.

Section replay.
Context `{NostrApi} {Call : Type -> Type} `{!AuthCalls Call}.

Definition nip98_replay_key_for_scope (scope : string) (event_id : EventId) : string :=
  ("buzz:" ++ scope ++ ":nip98:" ++ event_id_to_hex event_id)%string.

Definition nip98_replay_key (ctx : TenantContext) (event_id : EventId) : string :=
  nip98_replay_key_for_scope (uuid_to_string (tc_community ctx)) event_id.

(** [u64::clamp] *)
Definition clamp (x lo hi : N) : N := if (x <? lo)%N then lo else if (hi <? x)%N then hi else x.

Definition try_mark_in_scope (scope : string) (event_id : EventId) (ttl_secs : N)
    : Prog Call (Result bool AuthError) :=
  let ttl := clamp ttl_secs DEFAULT_REPLAY_TTL_SECS MAX_REPLAY_TTL_SECS in
  let!? _ := map_err_await (fun e => Internal ("Redis pool: " ++ e)%string) (call RedisPoolGet) in
  let key := nip98_replay_key_for_scope scope event_id in
  let!? result := map_err_await (fun e => Internal ("Redis SET NX EX: " ++ e)%string) (call (SetNxEx key "1" ttl)) in
  match result with
  | None => Ret (Ok false)
  | Some reply =>
      if decide (reply = "OK") then Ret (Ok true)
      else Ret (Err (Internal ("unexpected SET NX EX reply: " ++ reply)%string))
  end.

Definition try_mark (ctx : TenantContext) (event_id : EventId) (ttl_secs : N) : Prog Call (Result bool AuthError) :=
  try_mark_in_scope (uuid_to_string (tc_community ctx)) event_id ttl_secs.
End replay.

(** ** A handler's view *)

(** The error envelope: a status code and its message. *)
Record ApiError := {
  status : N;
  error : string;
}.

Definition api_error (status : N) (error : string) : ApiError := {| status := status; error := error |}.

Definition internal_error : ApiError := api_error 500 "internal server error".

(** The headers of a request, names in lower case; [to_str] gives the value of a header of
    visible ASCII. *)
Definition HeaderMap := list (string * string).

Definition header_get (headers : HeaderMap) (name : string) : option string :=
  snd <$> List.find (fun h => String.eqb h.1 name) headers.

Definition to_str (value : string) : option string :=
  if all_bytes (fun a => byte_in 32 126 a || byte_in 9 9 a) value then Some value else None.

Definition ZERO_ID : string := String.string_of_list_ascii (replicate 32 "000"%char).

Section bridge.
Context `{UrlApi} `{AuthApi} {Call : Type -> Type} `{!AuthCalls Call}.

Notation call c := (Concurrent.call (Call := Call) c).

(** The event of an [Authorization: Nostr] header. *)
Definition auth_event_json (auth_str : string) : Result string ApiError :=
  let? bytes := ok_or (api_error 401 "invalid base64 in Nostr auth") (base64_decode auth_str) in
  if valid_utf8 bytes then Ok bytes else Err (api_error 401 "invalid UTF-8 in Nostr auth").

Definition nostr_authorization (headers : HeaderMap) : option string :=
  v ← header_get headers "authorization"; s ← to_str v; strip_prefix s "Nostr ".

Definition verify_bridge_auth_with_options (headers : HeaderMap) (method url : string) (body : option string)
    (require_auth_token require_payload : bool) : Prog Call (Result (PublicKey * string) ApiError) :=
  match nostr_authorization headers with
  | Some auth_str =>
      match
        let? event_json := auth_event_json auth_str in
        let? ev := map_err (fun _ => api_error 401 "invalid NIP-98 event JSON") (event_from_json event_json) in
        if require_payload && negb (existsb (fun t => String.eqb (tag_kind t) "payload") (tags ev))
        then Err (api_error 401 "NIP-98: missing payload tag")
        else Ok (event_json, ev)
      with
      | Err e => Ret (Err e)
      | Ok (event_json, ev) =>
          let! now := call Now in
          Ret (let? pubkey := map_err (fun e => api_error 401 ("NIP-98: " ++ auth_error_text e)%string)
                 (verify_nip98_event now event_json url method body) in
               Ok (pubkey, event_id_to_bytes (id ev)))
      end
  | None =>
      Ret (match (if require_auth_token then None else header_get headers "x-pubkey" ≫= to_str) with
           | Some hex_val =>
               let? pubkey := ok_or (api_error 401 "invalid X-Pubkey hex") (pubkey_from_hex hex_val) in
               Ok (pubkey, ZERO_ID)
           | None => Err (api_error 401 "missing Nostr auth")
           end)
  end.

Definition verify_bridge_auth (headers : HeaderMap) (method url : string) (body : option string)
    (require_auth_token : bool) : Prog Call (Result (PublicKey * string) ApiError) :=
  verify_bridge_auth_with_options headers method url body require_auth_token false.

Definition check_nip98_replay (tenant : TenantContext) (event_id_bytes : string) : Prog Call (Result unit ApiError) :=
  if decide (event_id_bytes = ZERO_ID) then Ret (Ok tt)
  else
    let event_id := event_id_from_byte_array event_id_bytes in
    let! r := try_mark tenant event_id DEFAULT_REPLAY_TTL_SECS in
    Ret (match r with
         | Ok true => Ok tt
         | Ok false => Err (api_error 401 "NIP-98: replay detected")
         | Err _ => Err (api_error 401 "NIP-98: replay check unavailable")
         end).

(** The scheme of a deployment: [https] where clients connect with [wss]. *)
Definition nip98_scheme (config_relay_url : string) : string :=
  if starts_with (trim_start white_space config_relay_url) "wss://" then "https" else "http".

Definition nip98_expected_url (config_relay_url : string) (tenant : TenantContext) (path : string) : string :=
  (nip98_scheme config_relay_url ++ "://" ++ tc_host tenant ++ path)%string.

Definition nip42_expected_relay_url (config_relay_url : string) (tenant : TenantContext) : string :=
  let scheme := if starts_with (trim_start white_space config_relay_url) "wss://" then "wss" else "ws" in
  (scheme ++ "://" ++ tc_host tenant)%string.
End bridge.
