(* ===== verification/RelayMembers.v ===== *)
(** * Relay membership ([buzz-db/src/relay_members.rs],
    [buzz-relay/src/handlers/relay_admin.rs], the leave requests of [handlers/ingest.rs])

    The table of the members of each community: its queries, and the commands by which owners
    and admins change it (NIP-43, kinds 9030 to 9033) and members leave.  Every SQL statement
    is a call of [RelayCall], which also has what the other handlers of the component ask of
    their surroundings; [MembershipWorld] models the answers. *)

From S2P Require Import Prelude Text Nostr Concurrent Tenant HttpAuth.

(** A row of [relay_members]; its key is the community and the hexadecimal public key. *)
Record RelayMember := {
  rm_role : string;
  rm_added_by : option string;
  rm_created_at : Z;
  rm_updated_at : Z;
}.

(** An open transaction. *)
Definition Tx := N.

(** The announcements of a membership change ([publish_nip43_*]). *)
Inductive Announcement :=
| MemberAdded (c : CommunityId) (pubkey : string)
| MemberRemoved (c : CommunityId) (pubkey : string)
| MembershipList (c : CommunityId).

(** What arrives: a request to the invite interface, or an event (its JSON text) on a
    connection of a tenant. *)
Inductive Request :=
| PostInvites (headers : HeaderMap) (body : string)
| PostClaim (headers : HeaderMap) (body : string)
| PostAcceptPolicy (body : string)
| SubmitEvent (tenant : TenantContext) (event_json : string).

Inductive RelayCall : Type -> Type :=
| AcceptRequest : RelayCall Request
| ReadClock : RelayCall N
| PoolGet : RelayCall (Result unit string)
| RedisSet (key value : string) (ttl : N) : RelayCall (Result (option string) string)
| SelectCommunity (host : string) : RelayCall (Result (option CommunityId) string)
| Begin : RelayCall (Result Tx string)
| Rollback (tx : Tx) : RelayCall unit
| Commit (tx : Tx) : RelayCall (Result unit string)
| InsertMember (tx : option Tx) (c : CommunityId) (pubkey role : string) (added_by : option string)
    : RelayCall (Result bool string)
| InsertAcceptance (tx : Tx) (c : CommunityId) (pubkey version : string) : RelayCall (Result unit string)
| SelectOne (c : CommunityId) (pubkey : string) : RelayCall (Result bool string)
| SelectRole (c : CommunityId) (pubkey : string) : RelayCall (Result (option string) string)
| SelectMember (c : CommunityId) (pubkey : string) : RelayCall (Result (option RelayMember) string)
| DeleteUnlessOwner (c : CommunityId) (pubkey : string) : RelayCall (Result bool string)
| DeleteIfRole (c : CommunityId) (pubkey role : string) : RelayCall (Result bool string)
| UpdateRole (c : CommunityId) (pubkey role : string) : RelayCall (Result bool string)
| UpdateIcon (c : CommunityId) (icon : option string) : RelayCall (Result unit string)
| Announce (a : Announcement) : RelayCall (Result unit string)
| CountClaim (c : CommunityId) (pubkey : PublicKey) : RelayCall N
| RandomBytes16 : RelayCall string
| Hmac (key payload : string) : RelayCall string.

#[export] Instance relay_hosts : HostResolver RelayCall := {| ResolveHost := SelectCommunity |}.

#[export] Instance relay_auth : AuthCalls RelayCall :=
  {| Now := ReadClock; RedisPoolGet := PoolGet; SetNxEx := RedisSet |}.

Notation call c := (Concurrent.call (Call := RelayCall) c).
Notation RelayProg := (Prog RelayCall).

(** ** Queries *)

Definition is_relay_member (c : CommunityId) (pubkey : string) : RelayProg (Result bool string) :=
  call (SelectOne c pubkey).

Definition get_relay_member (c : CommunityId) (pubkey : string)
    : RelayProg (Result (option RelayMember) string) :=
  call (SelectMember c pubkey).

Definition add_relay_member (c : CommunityId) (pubkey role : string) (added_by : option string)
    : RelayProg (Result bool string) :=
  call (InsertMember None c pubkey role added_by).

(** A transaction dropped before its commit is rolled back. *)
Definition claim_statements (tx : Tx) (c : CommunityId) (pubkey role : string) (policy_version : option string)
    : RelayProg (Result bool string) :=
  let!? inserted := call (InsertMember (Some tx) c pubkey role (Some "invite")) in
  let!? _ := match policy_version with
             | Some version => call (InsertAcceptance tx c pubkey version)
             | None => Ret (Ok tt)
             end in
  let!? _ := call (Commit tx) in
  Ret (Ok inserted).

Definition claim_relay_membership (c : CommunityId) (pubkey role : string) (policy_version : option string)
    : RelayProg (Result bool string) :=
  let!? tx := call Begin in
  let! r := claim_statements tx c pubkey role policy_version in
  match r with
  | Ok inserted => Ret (Ok inserted)
  | Err e => let! _ := call (Rollback tx) in Ret (Err e)
  end.

Inductive RemoveResult := Removed | IsOwner | NotFound | RoleMismatch.

Definition remove_relay_member (c : CommunityId) (pubkey : string) : RelayProg (Result RemoveResult string) :=
  let!? deleted := call (DeleteUnlessOwner c pubkey) in
  if (deleted : bool) then Ret (Ok Removed)
  else
    let!? exists_ := call (SelectOne c pubkey) in
    Ret (Ok (if (exists_ : bool) then IsOwner else NotFound)).

Definition remove_relay_member_if_role (c : CommunityId) (pubkey expected_role : string)
    : RelayProg (Result RemoveResult string) :=
  let!? deleted := call (DeleteIfRole c pubkey expected_role) in
  if (deleted : bool) then Ret (Ok Removed)
  else
    let!? row := call (SelectRole c pubkey) in
    Ret (Ok (match row with
             | None => NotFound
             | Some role => if decide (role = "owner") then IsOwner else RoleMismatch
             end)).

Definition update_relay_member_role (c : CommunityId) (pubkey new_role : string) : RelayProg (Result bool string) :=
  call (UpdateRole c pubkey new_role).

(** ** The clock of an event

    [created_at as i64], and subtraction and [abs] of [i64] in a release build. *)

Definition wrap_i64 (z : Z) : Z := ((z + 2 ^ 63) mod 2 ^ 64 - 2 ^ 63)%Z.

Definition decimal_i64 (z : Z) : string :=
  if (z <? 0)%Z then ("-" ++ decimal (Z.to_N (- z)))%string else decimal (Z.to_N z).

Definition event_delta (created_at now : N) : Z := wrap_i64 (wrap_i64 (Z.of_N created_at) - wrap_i64 (Z.of_N now)).

Definition stale (created_at now : N) : bool := (120 <? wrap_i64 (Z.abs (event_delta created_at now)))%Z.

(** ** Commands *)

Definition RELAY_ADMIN_ADD_MEMBER : Kind := 9030%N.
Definition RELAY_ADMIN_REMOVE_MEMBER : Kind := 9031%N.
Definition RELAY_ADMIN_CHANGE_ROLE : Kind := 9032%N.
Definition RELAY_ADMIN_SET_WORKSPACE_PROFILE : Kind := 9033%N.

Definition MAX_WORKSPACE_ICON_URL_LEN : nat := 2048.
Definition MAX_WORKSPACE_ICON_DATA_URL_LEN : N := 98304.

(** The control characters of Unicode, encoded. *)
Definition control_chars : list string :=
  (bytes_str <$> ((fun n => [N.of_nat n]) <$> seq 0 32)) ++ [bytes_str [127%N]] ++
  (bytes_str <$> ((fun n => [194%N; N.of_nat n]) <$> seq 128 32)).

Definition validate_workspace_icon (icon : string) : Result unit string :=
  if String.eqb icon "" then Ok tt
  else if existsb (contains_str icon) (control_chars ++ white_space) then Err "icon contains invalid characters"
  else if starts_with icon "data:image/" then
    if (MAX_WORKSPACE_ICON_DATA_URL_LEN <? N.of_nat (String.length icon))%N then
      Err ("icon data URL too long: " ++ decimal (N.of_nat (String.length icon)) ++ " bytes (max "
           ++ decimal MAX_WORKSPACE_ICON_DATA_URL_LEN ++ ")")%string
    else Ok tt
  else if negb (starts_with icon "https://") && negb (starts_with icon "http://") then
    Err "icon must be an http(s) URL or data:image/* URL"
  else if (MAX_WORKSPACE_ICON_URL_LEN <? String.length icon)%nat then
    Err ("icon URL too long: " ++ decimal (N.of_nat (String.length icon)) ++ " bytes (max "
         ++ decimal (N.of_nat MAX_WORKSPACE_ICON_URL_LEN) ++ ")")%string
  else Ok tt.

Section commands.
Context `{AuthApi}.

Definition extract_p_tag_hex (ev : Event) : option string :=
  head (omap (fun parts : Tag =>
    match parts with
    | name :: value :: _ =>
        if decide (name = "p") then
          if bool_decide (String.length value = 64) && all_bytes is_ascii_hexdigit value then Some value else None
        else None
    | _ => None
    end) (tags ev)).

(** The value of the first tag with that name. *)
Definition extract_tag_value (ev : Event) (name : string) : option string :=
  List.find (fun parts : Tag => bool_decide (head parts = Some name)) (tags ev) ≫= fun parts => parts !! 1.

(** An announcement that fails is only logged. *)
Definition announce (a : Announcement) : RelayProg unit := let! _ := call (Announce a) in Ret tt.

Definition NOT_AUTHORIZED : string := "actor not authorized: must be admin or owner".

Definition is_admin_or_owner (role : string) : bool := String.eqb role "admin" || String.eqb role "owner".

Definition set_workspace_profile (c : CommunityId) (sender_role : string) (ev : Event) : RelayProg (Result unit string) :=
  if negb (is_admin_or_owner sender_role) then Ret (Err NOT_AUTHORIZED)
  else
    let icon := default EmptyString (extract_tag_value ev "icon") in
    match validate_workspace_icon icon with
    | Err e => Ret (Err e)
    | Ok _ =>
        map_err_await (fun e => "failed to store workspace icon: " ++ e)%string
          (call (UpdateIcon c (if decide (icon = EmptyString) then None else Some icon)))
    end.

Definition add_member (c : CommunityId) (sender_hex sender_role target_hex : string) (ev : Event)
    : RelayProg (Result unit string) :=
  if negb (is_admin_or_owner sender_role) then Ret (Err NOT_AUTHORIZED)
  else
    let role := default "member" (extract_tag_value ev "role") in
    if decide (role = "owner") then Ret (Err "invalid role: use kind:9032 to promote to owner")
    else if decide (role = "admin" /\ sender_role <> "owner") then
      Ret (Err "actor not authorized: only owner can grant admin role")
    else if decide (role <> "admin" /\ role <> "member") then Ret (Err ("invalid role: " ++ role)%string)
    else
      let!? was_inserted := map_err_await (fun e => "database error: " ++ e)%string
        (add_relay_member c target_hex role (Some sender_hex)) in
      if (was_inserted : bool) then
        let! _ := announce (MemberAdded c target_hex) in
        let! _ := announce (MembershipList c) in
        Ret (Ok tt)
      else Ret (Ok tt).

Definition remove_member (c : CommunityId) (sender_hex sender_role target_hex : string)
    : RelayProg (Result unit string) :=
  if negb (is_admin_or_owner sender_role) then Ret (Err NOT_AUTHORIZED)
  else if decide (target_hex = sender_hex) then Ret (Err "cannot remove yourself")
  else
    let!? remove_result := map_err_await (fun e => "database error: " ++ e)%string
      (if decide (sender_role = "admin") then remove_relay_member_if_role c target_hex "member"
       else remove_relay_member c target_hex) in
    match remove_result with
    | Removed =>
        let! _ := announce (MemberRemoved c target_hex) in
        let! _ := announce (MembershipList c) in
        Ret (Ok tt)
    | IsOwner => Ret (Err "cannot remove the relay owner")
    | NotFound => Ret (Err ("member not found: " ++ target_hex)%string)
    | RoleMismatch => Ret (Err "actor not authorized: admins can only remove members")
    end.

Definition change_role (c : CommunityId) (sender_hex sender_role target_hex : string) (ev : Event)
    : RelayProg (Result unit string) :=
  if decide (sender_role <> "owner") then Ret (Err "actor not authorized: must be owner")
  else if decide (target_hex = sender_hex) then Ret (Err "cannot change your own role")
  else
    match extract_tag_value ev "role" with
    | None => Ret (Err "missing role tag")
    | Some new_role =>
        if decide (new_role = "owner") then Ret (Err "cannot set role to owner")
        else if decide (new_role <> "admin" /\ new_role <> "member") then
          Ret (Err ("invalid role: " ++ new_role)%string)
        else
          let!? updated := map_err_await (fun e => "database error: " ++ e)%string
            (update_relay_member_role c target_hex new_role) in
          if (updated : bool) then let! _ := announce (MembershipList c) in Ret (Ok tt)
          else
            let!? exists_ := map_err_await (fun e => "database error: " ++ e)%string
              (get_relay_member c target_hex) in
            Ret (Err (match exists_ with
                      | Some _ => "cannot change the relay owner's role"
                      | None => "member not found: " ++ target_hex
                      end)%string)
    end.

Definition handle_relay_admin_event (tenant : TenantContext) (ev : Event) : RelayProg (Result unit string) :=
  let c := tc_community tenant in
  let sender_hex := pubkey_to_hex (pubkey ev) in
  let! now := call ReadClock in
  if stale (created_at ev) now then
    let event_ts := wrap_i64 (Z.of_N (created_at ev)) in
    Ret (Err ("event timestamp out of range: created_at=" ++ decimal_i64 event_ts ++ ", now="
              ++ decimal_i64 (wrap_i64 (Z.of_N now)) ++ ", delta="
              ++ decimal_i64 (event_delta (created_at ev) now) ++ "s (max ±120s)")%string)
  else
    let!? sender_member := map_err_await (fun e => "database error: " ++ e)%string (get_relay_member c sender_hex) in
    let sender_role := default EmptyString (rm_role <$> sender_member) in
    if decide (kind ev = RELAY_ADMIN_SET_WORKSPACE_PROFILE) then set_workspace_profile c sender_role ev
    else
      match extract_p_tag_hex ev with
      | None => Ret (Err "missing or invalid p tag")
      | Some target =>
          let target_hex := to_ascii_lowercase target in
          if decide (kind ev = RELAY_ADMIN_ADD_MEMBER) then add_member c sender_hex sender_role target_hex ev
          else if decide (kind ev = RELAY_ADMIN_REMOVE_MEMBER) then remove_member c sender_hex sender_role target_hex
          else if decide (kind ev = RELAY_ADMIN_CHANGE_ROLE) then change_role c sender_hex sender_role target_hex ev
          else Ret (Err ("unexpected relay admin kind: " ++ decimal (kind ev))%string)
      end.

(** ** Leaving *)

Definition QUOTE : string := String "034"%char EmptyString.

Inductive IngestError :=
| Rejected (what : string)
| IngestInternal (what : string).

(** The branch of [ingest_event] for a leave request (kind 28936), on a relay that requires
    membership or not. *)
Definition handle_leave_request (require_relay_membership : bool) (tenant : TenantContext) (ev : Event)
    : RelayProg (Result string IngestError) :=
  let c := tc_community tenant in
  if negb require_relay_membership then Ret (Err (Rejected "invalid: relay membership is not enabled"))
  else
    let! now := call ReadClock in
    if stale (created_at ev) now then
      Ret (Err (Rejected ("invalid: leave request timestamp out of range (delta="
                          ++ decimal_i64 (event_delta (created_at ev) now) ++ "s, max ±120s)")%string))
    else if negb (existsb (fun parts : Tag => bool_decide (head parts = Some "-")) (tags ev)) then
      Ret (Err (Rejected ("invalid: leave request must include NIP-70 protected event tag [" ++ QUOTE ++ "-" ++ QUOTE
                          ++ "]")%string))
    else
      let sender_hex := pubkey_to_hex (pubkey ev) in
      let!? remove_result := map_err_await (fun e => IngestInternal ("database error: " ++ e)%string)
        (remove_relay_member c sender_hex) in
      match remove_result with
      | Removed =>
          let! _ := announce (MemberRemoved c sender_hex) in
          let! _ := announce (MembershipList c) in
          Ret (Ok "info: you have left this relay")
      | NotFound => Ret (Err (Rejected "invalid: you are not a relay member"))
      | IsOwner => Ret (Err (Rejected "invalid: relay owner cannot leave"))
      | RoleMismatch => Ret (Err (IngestInternal "unexpected RoleMismatch from remove_relay_member"))
      end.
End commands.
