(* ===== verification/InviteToken.v ===== *)
(** * Invite codes and policy receipts ([buzz-relay/src/invite_token.rs])

    Both are tokens: a JSON payload and its HMAC under a key derived from the relay's secret.
    [hmac], [base64] and the [serde_json] forms of the payloads are the operations of
    [TokenApi].  The HMAC of a payload is asked of the surroundings when the relay makes a
    token ([sign_payload]), so that a world can say which payloads were signed. *)

From S2P Require Import Prelude Text Nostr Concurrent Tenant HttpAuth RelayMembers.

Record InvitePayload := {
  ip_c : string;
  ip_r : string;
  ip_e : N;
  ip_n : string;
}.

Record PolicyAcceptancePayload := {
  pa_c : string;
  pa_v : string;
  pa_e : N;
}.

Class TokenApi := {
  url_safe_encode : string -> string;
  url_safe_decode : string -> option string;
  hmac_sha256 : string -> string -> string;
  invite_to_vec : InvitePayload -> string;
  invite_from_slice : string -> option InvitePayload;
  acceptance_to_vec : PolicyAcceptancePayload -> string;
  acceptance_from_slice : string -> option PolicyAcceptancePayload;
}.

Definition DEFAULT_INVITE_TTL_SECS : N := 259200.
Definition MAX_INVITE_TTL_SECS : N := 2592000.
Definition MAX_CODE_LEN : nat := 1024.
Definition KEY_DERIVATION_LABEL : string := "buzz-invite-v1".

Inductive InviteError := Malformed | BadSignature | Expired | WrongCommunity | InvalidRole.

#[export] Instance InviteError_eq_dec : EqDecision InviteError.
Proof. solve_decision. Defined.

Section token.
Context `{AuthApi} `{TokenApi}.

(** [secret_key] are the bytes of the relay's secret key. *)
Definition derive_invite_key (secret_key : string) : string := sha256 (secret_key ++ KEY_DERIVATION_LABEL)%string.

Definition sign_payload (key payload_bytes : string) : RelayProg string := call (Hmac key payload_bytes).

Definition token (payload_bytes mac : string) : string :=
  (url_safe_encode payload_bytes ++ "." ++ url_safe_encode mac)%string.

(** The payload of a token of at most [max_len] bytes, its signature verified. *)
Definition open_token (max_len : nat) (key code : string) : Result string InviteError :=
  if (max_len <? String.length code)%nat then Err Malformed
  else
    let? parts := ok_or Malformed (split_once "." code) in
    let? payload_bytes := ok_or Malformed (url_safe_decode parts.1) in
    let? mac_bytes := ok_or Malformed (url_safe_decode parts.2) in
    if String.eqb mac_bytes (hmac_sha256 key payload_bytes) then Ok payload_bytes else Err BadSignature.

(** The code and its expiry. *)
Definition mint_invite (key : string) (community : CommunityId) (ttl_secs : N) : RelayProg (string * N) :=
  let ttl := clamp ttl_secs 60 MAX_INVITE_TTL_SECS in
  let! now := call ReadClock in
  let expires_at := (now + ttl)%N in
  let! nonce := call RandomBytes16 in
  let payload := {| ip_c := uuid_to_string community; ip_r := "member"; ip_e := expires_at;
                    ip_n := url_safe_encode nonce |} in
  let payload_bytes := invite_to_vec payload in
  let! mac := sign_payload key payload_bytes in
  Ret (token payload_bytes mac, expires_at).

(** [now] is what the clock says when it is read. *)
Definition verify_invite (now : N) (key : string) (community : CommunityId) (code : string)
    : Result InvitePayload InviteError :=
  let? payload_bytes := open_token MAX_CODE_LEN key code in
  let? payload := ok_or Malformed (invite_from_slice payload_bytes) in
  if (ip_e payload <? now)%N then Err Expired
  else if negb (String.eqb (ip_c payload) (uuid_to_string community)) then Err WrongCommunity
  else if negb (String.eqb (ip_r payload) "member") then Err InvalidRole
  else Ok payload.

Definition mint_policy_acceptance (key code version : string) : RelayProg string :=
  let! now := call ReadClock in
  let payload := {| pa_c := hex_encode (sha256 code); pa_v := version; pa_e := now + 10 * 60 |} in
  let bytes := acceptance_to_vec payload in
  let! mac := sign_payload key bytes in
  Ret (token bytes mac).

Definition verify_policy_acceptance (now : N) (key receipt code version : string)
    : Result PolicyAcceptancePayload InviteError :=
  let? bytes := open_token 2048 key receipt in
  let? payload := ok_or Malformed (acceptance_from_slice bytes) in
  if (pa_e payload <? now)%N then Err Expired
  else if negb (String.eqb (pa_c payload) (hex_encode (sha256 code))) || negb (String.eqb (pa_v payload) version)
  then Err Malformed
  else Ok payload.

(** ** What the code relies on *)

(** The alphabet of [URL_SAFE_NO_PAD], and of the texts put in an invite. *)
Definition token_char (a : Ascii.ascii) : bool :=
  is_ascii_alphanumeric a || bool_decide (a = "-"%char) || bool_decide (a = "_"%char).

Definition json_string (s : string) : string := (QUOTE ++ s ++ QUOTE)%string.

(** Base64 without padding, in its own alphabet; the JSON text of an invite whose texts need
    no escape; [serde_json] reads back what it wrote, and rejects an object that lacks a
    field. *)
Class TokenLaws := {
  url_safe_decode_encode s : url_safe_decode (url_safe_encode s) = Some s;
  url_safe_chars s : all_bytes token_char (url_safe_encode s) = true;
  length_url_safe s : String.length (url_safe_encode s) = (4 * String.length s + 2) `div` 3;
  length_hmac key s : String.length (hmac_sha256 key s) = 32;
  invite_round_trip_json p : invite_from_slice (invite_to_vec p) = Some p;
  acceptance_round_trip_json p : acceptance_from_slice (acceptance_to_vec p) = Some p;
  acceptance_not_invite p : invite_from_slice (acceptance_to_vec p) = None;
  invite_not_acceptance p : acceptance_from_slice (invite_to_vec p) = None;
  invite_text p : all_bytes token_char (ip_c p) = true -> all_bytes token_char (ip_r p) = true ->
    all_bytes token_char (ip_n p) = true ->
    invite_to_vec p =
      ("{" ++ json_string "c" ++ ":" ++ json_string (ip_c p) ++ "," ++ json_string "r" ++ ":" ++ json_string (ip_r p)
       ++ "," ++ json_string "e" ++ ":" ++ decimal (ip_e p) ++ "," ++ json_string "n" ++ ":" ++ json_string (ip_n p)
       ++ "}")%string;
  uuid_chars u : all_bytes token_char (uuid_to_string u) = true;
  length_uuid_string u : String.length (uuid_to_string u) = 36;
}.

(** ** Opening a token *)

Lemma split_once_app c a b : all_bytes (fun x => bool_decide (x <> c)) a = true -> split_once c (a ++ String c b) = Some (a, b).
Proof.
  induction a as [|x a IH]; cbn [all_bytes].
  - intros _. rewrite string_app_nil. cbn [split_once]. by rewrite decide_True.
  - intros [Hx Ha]%andb_true_iff. apply bool_decide_eq_true in Hx. rewrite string_app_cons. cbn [split_once].
    rewrite decide_False by done. by rewrite (IH Ha).
Qed.

Lemma no_dot s : all_bytes token_char s = true -> all_bytes (fun x => bool_decide (x <> "."%char)) s = true.
Proof.
  apply all_bytes_impl. intros a Ha. apply bool_decide_eq_true. intros ->. by vm_compute in Ha.
Qed.

Lemma open_token_ok max_len key code payload :
  open_token max_len key code = Ok payload ->
  exists p m, split_once "." code = Some (p, m) /\ url_safe_decode p = Some payload /\
    url_safe_decode m = Some (hmac_sha256 key payload).
Proof.
  unfold open_token. destruct (_ <? _)%nat; [done|].
  destruct (split_once "." code) as [[p m]|]; cbn; [|done].
  destruct (url_safe_decode p) as [payload'|] eqn:Hp; cbn; [|done].
  destruct (url_safe_decode m) as [mac|] eqn:Hm; cbn; [|done].
  destruct (String.eqb_spec mac (hmac_sha256 key payload')) as [->|]; [|done].
  intros [= ->]. eauto.
Qed.

Context `{!TokenLaws}.

Lemma open_made_token max_len key payload :
  String.length (token payload (hmac_sha256 key payload)) <= max_len ->
  open_token max_len key (token payload (hmac_sha256 key payload)) = Ok payload.
Proof.
  intros Hlen. unfold open_token. destruct (Nat.ltb_spec max_len (String.length (token payload (hmac_sha256 key payload)))); [lia|].
  unfold token. change ("." ++ ?x)%string with (String "." x).
  rewrite split_once_app by apply no_dot, url_safe_chars. cbn. rewrite !url_safe_decode_encode. cbn.
  by rewrite String.eqb_refl.
Qed.
End token.
