(* ===== verification/InviteApi.v ===== *)
(** * The invite interface ([buzz-relay/src/api/invites.rs])

    The handlers by which an owner or admin makes an invite code, a browser exchanges the
    acceptance of the join policy for a receipt, and the holder of a key joins a community
    with a code. *)

From S2P Require Import Prelude Text Nostr Concurrent Tenant HttpAuth RelayMembers InviteToken.

Definition CLAIM_RATE_LIMIT : N := 10.

Record MintInviteRequest := { mr_ttl_secs : option N }.

Record ClaimInviteRequest := {
  cr_code : string;
  cr_policy_receipt : option string;
}.

Record AcceptPolicyRequest := {
  ar_code : string;
  ar_policy_version : string;
  ar_age_confirmed : bool;
}.

(** [serde_json::from_slice] of the bodies. *)
Class InviteBodies := {
  mint_from_slice : string -> Result MintInviteRequest string;
  claim_from_slice : string -> Result ClaimInviteRequest string;
  accept_from_slice : string -> Result AcceptPolicyRequest string;
}.

(** [JoinPolicyConfig] without its documents, and what the handlers read of [AppState]. *)
Record JoinPolicyConfig := {
  age_attestation_required : bool;
  jp_version : string;
}.

Record AppState := {
  relay_url : string;
  secret_key : string;
  join_policy : option JoinPolicyConfig;
}.

(** The fields of the responses. *)
Inductive Response :=
| Minted (code : string) (expires_at : N) (url : string)
| Accepted (receipt : string)
| Claimed (joined : bool) (community_id : string) (host role : string).

Section handlers.
Context `{UrlApi} `{AuthApi} `{TokenApi} `{InviteBodies}.
Context (state : AppState).

Definition invite_key : string := derive_invite_key (secret_key state).

Definition authenticate (headers : HeaderMap) (path body : string)
    : RelayProg (Result (TenantContext * PublicKey) ApiError) :=
  let raw_host := default EmptyString (header_get headers "host" ≫= to_str) in
  let!? tenant := map_err_await (fun _ => api_error 404 "relay: no community is configured for this host")
    (bind_community raw_host) in
  let url := nip98_expected_url (relay_url state) tenant path in
  let!? verified := verify_bridge_auth_with_options headers "POST" url (Some body) true true in
  let!? _ := check_nip98_replay tenant verified.2 in
  Ret (Ok (tenant, verified.1)).

Definition accept_policy (body : string) : RelayProg (Result Response ApiError) :=
  match join_policy state with
  | None => Ret (Err (api_error 404 "join_policy_not_configured"))
  | Some policy =>
      match accept_from_slice body with
      | Err e => Ret (Err (api_error 400 ("invalid policy acceptance JSON: " ++ e)%string))
      | Ok request =>
          if negb (String.eqb (ar_policy_version request) (jp_version policy))
             || (age_attestation_required policy && negb (ar_age_confirmed request))
          then Ret (Err (api_error 400 "join_policy_not_accepted"))
          else
            let! receipt := mint_policy_acceptance invite_key (ar_code request) (jp_version policy) in
            Ret (Ok (Accepted receipt))
      end
  end.

Definition mint_invite (headers : HeaderMap) (body : string) : RelayProg (Result Response ApiError) :=
  let!? auth := authenticate headers "/api/invites" body in
  let tenant := auth.1 in
  let sender_hex := pubkey_to_hex auth.2 in
  let!? member := map_err_await (fun _ => internal_error) (get_relay_member (tc_community tenant) sender_hex) in
  let role := default EmptyString (rm_role <$> member) in
  if decide (role <> "owner" /\ role <> "admin") then
    Ret (Err (api_error 403 "only relay owners and admins can create invites"))
  else
    match (if decide (body = EmptyString) then Ok {| mr_ttl_secs := None |}
           else map_err (fun e => api_error 400 ("invalid invite JSON: " ++ e)%string) (mint_from_slice body))
    with
    | Err e => Ret (Err e)
    | Ok request =>
        let ttl := default DEFAULT_INVITE_TTL_SECS (mr_ttl_secs request) in
        let! minted := InviteToken.mint_invite invite_key (tc_community tenant) ttl in
        let scheme := nip98_scheme (relay_url state) in
        Ret (Ok (Minted minted.1 minted.2
                   (scheme ++ "://" ++ tc_host tenant ++ "/invite/" ++ minted.1)%string))
    end.

Definition claim_rate_limited (c : CommunityId) (pubkey : PublicKey) : RelayProg bool :=
  let! count := call (CountClaim c pubkey) in Ret (CLAIM_RATE_LIMIT <=? count)%N.

(** The receipt of a claim, where the relay has a join policy. *)
Definition check_receipt (request : ClaimInviteRequest) : RelayProg (Result unit ApiError) :=
  match join_policy state with
  | None => Ret (Ok tt)
  | Some policy =>
      match cr_policy_receipt request with
      | None => Ret (Err (api_error 403 "join_policy_required"))
      | Some receipt =>
          let! now := call ReadClock in
          Ret (map_err (fun _ => api_error 403 "join_policy_required")
            (let? _ := verify_policy_acceptance now invite_key receipt (cr_code request) (jp_version policy) in Ok tt))
      end
  end.

Definition claim_invite (headers : HeaderMap) (body : string) : RelayProg (Result Response ApiError) :=
  let!? auth := authenticate headers "/api/invites/claim" body in
  let tenant := auth.1 in
  let! limited := claim_rate_limited (tc_community tenant) auth.2 in
  if (limited : bool) then Ret (Err (api_error 429 "too many invite claim attempts, slow down"))
  else
    match claim_from_slice body with
    | Err e => Ret (Err (api_error 400 ("invalid claim JSON: " ++ e)%string))
    | Ok request =>
        let! now := call ReadClock in
        match verify_invite now invite_key (tc_community tenant) (cr_code request) with
        | Err e =>
            Ret (Err (api_error 403 (if decide (e = Expired) then "invite_expired" else "invite_invalid")))
        | Ok payload =>
            let claimer_hex := pubkey_to_hex auth.2 in
            let!? _ := check_receipt request in
            let!? was_inserted := map_err_await (fun _ => internal_error)
              (claim_relay_membership (tc_community tenant) claimer_hex (ip_r payload) (jp_version <$> join_policy state)) in
            let! _ := (if (was_inserted : bool) then
                         let! _ := announce (MemberAdded (tc_community tenant) claimer_hex) in
                         announce (MembershipList (tc_community tenant))
                       else Ret tt) in
            Ret (Ok (Claimed was_inserted (uuid_to_string (tc_community tenant)) (tc_host tenant) (ip_r payload)))
        end
    end.
End handlers.
