(* ===== verification/MembershipWorld.v ===== *)
(** * The surroundings of the relay's members

    The world of the handlers of [InviteApi] and [RelayMembers], on any number of pods of one
    deployment: a clock, Redis, PostgreSQL, and the requests that arrive.  Anyone may send any
    request, except that nobody forges an HMAC: what a claim presents was signed under the
    relay's key before ([presentable]).  [w_marks], [w_macs] and [w_past] only record what
    happened. *)

From S2P Require Import Prelude Text Nostr Concurrent Tenant HttpAuth RelayMembers InviteToken InviteApi.

Notation Table := (gmap (CommunityId * string) RelayMember).

(** A statement of an open transaction. *)
Inductive Write :=
| WroteMember (c : CommunityId) (pubkey : string) (row : RelayMember)
| WroteAcceptance (c : CommunityId) (pubkey version : string).

(** [w_time] in milliseconds; [w_redis] has the expiry of each key, [w_open] the time each
    transaction began and its writes, [w_macs] what was signed under which key and when,
    [w_past] every table there was. *)
Record World := {
  w_time : Z;
  w_redis : gmap string Z;
  w_marks : list (string * Z);
  w_hosts : gmap string CommunityId;
  w_members : Table;
  w_accepted : gset (CommunityId * string * string);
  w_open : gmap Tx (Z * list Write);
  w_next_tx : Tx;
  w_past : list Table;
  w_macs : list (string * string * Z);
  w_claims : gmap (CommunityId * PublicKey) N;
  w_icons : gmap CommunityId (option string);
}.

(** A community whose members are as [table] says, on hosts [hosts]; nothing has happened. *)
Definition start_world (time : Z) (hosts : gmap string CommunityId) (table : Table) : World :=
  {| w_time := time; w_redis := ∅; w_marks := []; w_hosts := hosts; w_members := table; w_accepted := ∅;
     w_open := ∅; w_next_tx := 0%N; w_past := []; w_macs := []; w_claims := ∅; w_icons := ∅ |}.

Definition set_redis (redis : gmap string Z) (marks : list (string * Z)) w : World :=
  {| w_time := w_time w; w_redis := redis; w_marks := marks; w_hosts := w_hosts w; w_members := w_members w;
     w_accepted := w_accepted w; w_open := w_open w; w_next_tx := w_next_tx w; w_past := w_past w;
     w_macs := w_macs w; w_claims := w_claims w; w_icons := w_icons w |}.

(** The committed tables after a change. *)
Definition set_tables (members : Table) (accepted : gset (CommunityId * string * string)) w : World :=
  {| w_time := w_time w; w_redis := w_redis w; w_marks := w_marks w; w_hosts := w_hosts w; w_members := members;
     w_accepted := accepted; w_open := w_open w; w_next_tx := w_next_tx w; w_past := w_members w :: w_past w;
     w_macs := w_macs w; w_claims := w_claims w; w_icons := w_icons w |}.

Definition set_open (open : gmap Tx (Z * list Write)) (next : Tx) w : World :=
  {| w_time := w_time w; w_redis := w_redis w; w_marks := w_marks w; w_hosts := w_hosts w; w_members := w_members w;
     w_accepted := w_accepted w; w_open := open; w_next_tx := next; w_past := w_past w;
     w_macs := w_macs w; w_claims := w_claims w; w_icons := w_icons w |}.

Definition add_mac (mac : string * string * Z) w : World :=
  {| w_time := w_time w; w_redis := w_redis w; w_marks := w_marks w; w_hosts := w_hosts w; w_members := w_members w;
     w_accepted := w_accepted w; w_open := w_open w; w_next_tx := w_next_tx w; w_past := w_past w;
     w_macs := w_macs w ++ [mac]; w_claims := w_claims w; w_icons := w_icons w |}.

Definition set_claims (claims : gmap (CommunityId * PublicKey) N) w : World :=
  {| w_time := w_time w; w_redis := w_redis w; w_marks := w_marks w; w_hosts := w_hosts w; w_members := w_members w;
     w_accepted := w_accepted w; w_open := w_open w; w_next_tx := w_next_tx w; w_past := w_past w;
     w_macs := w_macs w; w_claims := claims; w_icons := w_icons w |}.

Definition set_icons (icons : gmap CommunityId (option string)) w : World :=
  {| w_time := w_time w; w_redis := w_redis w; w_marks := w_marks w; w_hosts := w_hosts w; w_members := w_members w;
     w_accepted := w_accepted w; w_open := w_open w; w_next_tx := w_next_tx w; w_past := w_past w;
     w_macs := w_macs w; w_claims := w_claims w; w_icons := icons |}.

(** Time passes: keys of Redis may go once they have expired, transactions are lost with
    their connections, the counters of claims are forgotten, and hosts are added. *)
Definition elapse (time : Z) (redis : gmap string Z) (hosts : gmap string CommunityId)
    (open : gmap Tx (Z * list Write)) (claims : gmap (CommunityId * PublicKey) N) w : World :=
  {| w_time := time; w_redis := redis; w_marks := w_marks w; w_hosts := hosts; w_members := w_members w;
     w_accepted := w_accepted w; w_open := open; w_next_tx := w_next_tx w; w_past := w_past w;
     w_macs := w_macs w; w_claims := claims; w_icons := w_icons w |}.

Definition elapses (w w' : World) : Prop :=
  exists time redis hosts open claims, w' = elapse time redis hosts open claims w /\
    (w_time w <= time)%Z /\ redis ⊆ w_redis w /\
    (forall k expiry, w_redis w !! k = Some expiry -> (time < expiry)%Z -> redis !! k = Some expiry) /\
    w_hosts w ⊆ hosts /\ (forall h c, hosts !! h = Some c -> (c < 2 ^ 128)%N) /\
    open ⊆ w_open w /\ claims ⊆ w_claims w.

(** ** The tables *)

Definition apply_write (x : Table * gset (CommunityId * string * string)) (u : Write)
    : Table * gset (CommunityId * string * string) :=
  match u with
  | WroteMember c pk row => (<[(c, pk) := row]> x.1, x.2)
  | WroteAcceptance c pk v => (x.1, x.2 ∪ {[(c, pk, v)]})
  end.

(** What a transaction sees: the committed rows and its own. *)
Definition seen (w : World) (ws : list Write) : Table * gset (CommunityId * string * string) :=
  foldl apply_write (w_members w, w_accepted w) ws.

(** The member a write concerns: a row inserted, or one referred to, which stays. *)
Definition write_key (u : Write) : CommunityId * string :=
  match u with
  | WroteMember c pk _ => (c, pk)
  | WroteAcceptance c pk _ => (c, pk)
  end.

(** No transaction but [tx] has a lock on the row. *)
Definition unlocked (w : World) (tx : option Tx) (k : CommunityId * string) : Prop :=
  forall tx' t ws, w_open w !! tx' = Some (t, ws) -> tx <> Some tx' -> k ∉ write_key <$> ws.

Definition valid_role (role : string) : Prop := role ∈ ["owner"; "admin"; "member"].

Definition new_member (role : string) (added_by : option string) (now : Z) : RelayMember :=
  {| rm_role := role; rm_added_by := added_by; rm_created_at := now; rm_updated_at := now |}.

Definition set_role (role : string) (now : Z) (row : RelayMember) : RelayMember :=
  {| rm_role := role; rm_added_by := rm_added_by row; rm_created_at := rm_created_at row; rm_updated_at := now |}.

(** [ON DELETE CASCADE] *)
Definition without_member (k : CommunityId * string) (accepted : gset (CommunityId * string * string)) :=
  filter (fun a => a.1 <> k) accepted.

Definition failed {A} (r : Result A string) : Prop := exists e, r = Err e.

(** A command that ran, whether or not its answer arrived. *)
Definition ran {A} (a : A) (r : Result A string) : Prop := r = Ok a \/ failed r.

(** A statement that changes one row, if it satisfies [P], and answers whether it did; it waits
    for [allowed], a lock on the row. *)
Definition changes_row (w w' : World) (r : Result bool string) (k : CommunityId * string)
    (allowed : Prop) (P : RelayMember -> Prop) (change : RelayMember -> World) : Prop :=
  failed r /\ w' = w \/
  (exists row, w_members w !! k = Some row /\ P row /\ allowed /\ w' = change row /\ ran true r) \/
  ((forall row, w_members w !! k = Some row -> ~ P row) /\ w' = w /\ ran false r).

Definition delete_member (k : CommunityId * string) (w : World) : World :=
  set_tables (delete k (w_members w)) (without_member k (w_accepted w)) w.

Section answers.
Context `{AuthApi} `{TokenApi} `{InviteBodies}.
Context (state : AppState) (skew : Z).

(** ** What may arrive *)

(** The HMAC of a token under the relay's key was made before. *)
Definition presentable (w : World) (code : string) : Prop :=
  forall p m payload, split_once "." code = Some (p, m) -> url_safe_decode p = Some payload ->
    url_safe_decode m = Some (hmac_sha256 (invite_key state) payload) ->
    exists t, (invite_key state, payload, t) ∈ w_macs w.

Definition may_arrive (w : World) (req : Request) : Prop :=
  match req with
  | PostClaim _ body => forall r, claim_from_slice body = Ok r ->
      presentable w (cr_code r) /\ forall receipt, cr_policy_receipt r = Some receipt -> presentable w receipt
  | _ => True
  end.

(** What a clock within [skew] milliseconds of the time says, in seconds. *)
Definition clock_reads (time : Z) (now : N) : Prop :=
  exists ms, (Z.abs (ms - time) <= skew)%Z /\ (0 <= ms)%Z /\ now = Z.to_N (ms / 1000).

Definition relay_effect (R : Type) (c : RelayCall R) (w w' : World) : R -> Prop :=
  match c in RelayCall R return R -> Prop with
  | AcceptRequest => fun req => w' = w /\ may_arrive w req
  | ReadClock => fun now => w' = w /\ clock_reads (w_time w) now
  | PoolGet => fun _ => w' = w
  | RedisSet key _ ttl => fun r =>
      failed r /\ w' = w \/
      is_Some (w_redis w !! key) /\ w' = w /\ ran None r \/
      w_redis w !! key = None /\ ran (Some "OK") r /\
        w' = set_redis (<[key := (w_time w + Z.of_N ttl * 1000)%Z]> (w_redis w)) (w_marks w ++ [(key, w_time w)]) w
  | SelectCommunity host => fun r => w' = w /\
      (failed r \/ exists o, r = Ok o /\ forall c, o = Some c -> w_hosts w !! host = Some c)
  | Begin => fun r =>
      failed r /\ w' = w \/
      w' = set_open (<[w_next_tx w := (w_time w, [])]> (w_open w)) (w_next_tx w + 1)%N w /\ ran (w_next_tx w) r
  | Rollback tx => fun _ => w' = w \/ w' = set_open (delete tx (w_open w)) (w_next_tx w) w
  | Commit tx => fun r =>
      failed r /\ (w' = w \/ w' = set_open (delete tx (w_open w)) (w_next_tx w) w) \/
      exists t ws, w_open w !! tx = Some (t, ws) /\ ran tt r /\
        w' = set_open (delete tx (w_open w)) (w_next_tx w) (set_tables (seen w ws).1 (seen w ws).2 w)
  | InsertMember None c pk role by_ => fun r =>
      failed r /\ w' = w \/
      is_Some (w_members w !! (c, pk)) /\ w' = w /\ ran false r \/
      w_members w !! (c, pk) = None /\ valid_role role /\ unlocked w None (c, pk) /\ ran true r /\
        w' = set_tables (<[(c, pk) := new_member role by_ (w_time w)]> (w_members w)) (w_accepted w) w
  | InsertMember (Some tx) c pk role by_ => fun r =>
      failed r /\ w' = w \/
      exists t ws, w_open w !! tx = Some (t, ws) /\
        (is_Some ((seen w ws).1 !! (c, pk)) /\ w' = w /\ ran false r \/
         (seen w ws).1 !! (c, pk) = None /\ valid_role role /\ unlocked w (Some tx) (c, pk) /\ ran true r /\
           w' = set_open (<[tx := (t, ws ++ [WroteMember c pk (new_member role by_ t)])]> (w_open w)) (w_next_tx w) w)
  | InsertAcceptance tx c pk v => fun r =>
      failed r /\ w' = w \/
      exists t ws, w_open w !! tx = Some (t, ws) /\ ran tt r /\
        ((c, pk, v) ∈ (seen w ws).2 /\ w' = w \/
         is_Some ((seen w ws).1 !! (c, pk)) /\
           w' = set_open (<[tx := (t, ws ++ [WroteAcceptance c pk v])]> (w_open w)) (w_next_tx w) w)
  | SelectOne c pk => fun r => w' = w /\ (failed r \/ r = Ok (bool_decide (is_Some (w_members w !! (c, pk)))))
  | SelectRole c pk => fun r => w' = w /\ (failed r \/ r = Ok (rm_role <$> w_members w !! (c, pk)))
  | SelectMember c pk => fun r => w' = w /\ (failed r \/ r = Ok (w_members w !! (c, pk)))
  | DeleteUnlessOwner c pk => fun r =>
      changes_row w w' r (c, pk) (unlocked w None (c, pk)) (fun row => rm_role row <> "owner") (fun _ => delete_member (c, pk) w)
  | DeleteIfRole c pk role => fun r =>
      changes_row w w' r (c, pk) (unlocked w None (c, pk)) (fun row => rm_role row = role) (fun _ => delete_member (c, pk) w)
  | UpdateRole c pk role => fun r =>
      changes_row w w' r (c, pk) (valid_role role) (fun row => rm_role row <> "owner") (fun row =>
        set_tables (<[(c, pk) := set_role role (w_time w) row]> (w_members w)) (w_accepted w) w)
  | UpdateIcon c icon => fun r => failed r /\ w' = w \/ w' = set_icons (<[c := icon]> (w_icons w)) w /\ ran tt r
  | Announce _ => fun _ => w' = w
  | CountClaim c pk => fun n =>
      n = default 0%N (w_claims w !! (c, pk)) /\ w' = set_claims (<[(c, pk) := ((n + 1) mod 2 ^ 32)%N]> (w_claims w)) w
  | RandomBytes16 => fun bytes => w' = w /\ String.length bytes = 16
  | Hmac key payload => fun mac => mac = hmac_sha256 key payload /\ w' = add_mac (key, payload, w_time w) w
  end.

Definition relay_answer (R : Type) (c : RelayCall R) (w w' : World) (r : R) : Prop :=
  exists w0, elapses w w0 /\ relay_effect R c w0 w' r.
End answers.

(** ** The server

    A task takes one request that arrives and answers it; an event reaches the handler of its
    kind once it is verified. *)

Inductive Outcome :=
| Http (r : Result Response ApiError)
| Command (r : Result unit string)
| Left (r : Result string IngestError).

Definition KIND_NIP43_LEAVE_REQUEST : Kind := 28936%N.

Definition is_relay_admin_kind (k : Kind) : bool :=
  bool_decide (k ∈ [RELAY_ADMIN_ADD_MEMBER; RELAY_ADMIN_REMOVE_MEMBER; RELAY_ADMIN_CHANGE_ROLE;
                    RELAY_ADMIN_SET_WORKSPACE_PROFILE]).

Section server.
Context `{UrlApi} `{AuthApi} `{TokenApi} `{InviteBodies}.
Context (state : AppState) (require_relay_membership : bool).

Definition submit_event (tenant : TenantContext) (event_json : string) : RelayProg Outcome :=
  match event_from_json event_json with
  | Err e => Ret (Command (Err e))
  | Ok ev =>
      match verify_event ev with
      | Err _ => Ret (Command (Err "invalid"))
      | Ok _ =>
          if is_relay_admin_kind (kind ev) then
            let! r := handle_relay_admin_event tenant ev in Ret (Command r)
          else if decide (kind ev = KIND_NIP43_LEAVE_REQUEST) then
            let! r := handle_leave_request require_relay_membership tenant ev in Ret (Left r)
          else Ret (Command (Err "not of this component"))
      end
  end.

Definition handle (req : Request) : RelayProg Outcome :=
  match req with
  | PostInvites headers body => let! r := mint_invite state headers body in Ret (Http r)
  | PostClaim headers body => let! r := claim_invite state headers body in Ret (Http r)
  | PostAcceptPolicy body => let! r := accept_policy state body in Ret (Http r)
  | SubmitEvent tenant event_json => submit_event tenant event_json
  end.

Definition serve (_ : unit) : RelayProg (Request * Outcome) :=
  let! req := call AcceptRequest in
  let! outcome := handle req in
  Ret (req, outcome).
End server.
