(* ===== verification/HttpAuthProps.v ===== *)
(** * Properties of HTTP authentication ([HttpAuth], in the world of [MembershipWorld])

    What a verified NIP-98 event says ([nip98_valid]); the authentication of a request inside
    any verification of the handlers ([owp_authenticate]); and that an event admits one
    request, until the seen-set forgets it. *)

From S2P Require Import Prelude Text Nostr Concurrent Tenant HttpAuth RelayMembers InviteToken InviteApi MembershipWorld.

(** An event id is its 32 bytes. *)
Class AuthLaws `{AuthApi} := {
  event_id_of_bytes i : event_id_from_byte_array (event_id_to_bytes i) = i;
}.

(** ** A verified event *)

Section valid.
Context `{UrlApi} `{AuthApi}.

Record nip98_valid (now : N) (ev : Event) (url method : string) (body : option string) : Prop := {
  nv_kind : kind ev = KIND_HTTP_AUTH;
  nv_signed : verify_event ev = Ok tt;
  nv_fresh : (abs_diff now (created_at ev) <= 60)%N;
  nv_url : exists u, tag_value (letter_to_string "u"%char) ev = Some u /\ normalize_url u = normalize_url url;
  nv_method : exists m, tag_value "method" ev = Some m /\ to_ascii_lowercase m = to_ascii_lowercase method;
  nv_body p b : tag_value "payload" ev = Some p -> body = Some b -> hex_encode (sha256 b) = p;
}.

Lemma guard_auth_ok b what : guard_auth b what = Ok tt <-> b = true.
Proof. destruct b; cbn; naive_solver. Qed.

Lemma ok_or_ok {A E} (e : E) (o : option A) a : ok_or e o = Ok a <-> o = Some a.
Proof. destruct o; cbn; naive_solver. Qed.

Lemma verify_nip98_event_exact now json url method body pk :
  verify_nip98_event now json url method body = Ok pk <->
  exists ev, event_from_json json = Ok ev /\ nip98_valid now ev url method body /\ pk = pubkey ev.
Proof.
  unfold verify_nip98_event, eq_ignore_ascii_case, TIMESTAMP_TOLERANCE_SECS. split.
  - intros (ev & Hev%map_err_ok & Hr)%result_bind_ok.
    apply result_bind_ok in Hr as ([] & Hk%guard_auth_ok%bool_decide_eq_true & Hr).
    apply result_bind_ok in Hr as ([] & Hs%map_err_ok & Hr).
    apply result_bind_ok in Hr as ([] & Ht%guard_auth_ok%N.leb_le & Hr).
    apply result_bind_ok in Hr as (u & Hu%ok_or_ok & Hr).
    apply result_bind_ok in Hr as ([] & Hnu%guard_auth_ok%String.eqb_eq & Hr).
    apply result_bind_ok in Hr as (m & Hm%ok_or_ok & Hr).
    apply result_bind_ok in Hr as ([] & Hnm%guard_auth_ok%String.eqb_eq & Hr).
    apply result_bind_ok in Hr as ([] & Hp & [= <-]).
    exists ev. split; [done|]. split; [|done]. split; [done|by destruct (verify_event ev) as [[]|]|done|eauto|eauto|].
    intros p b Hpt ->. rewrite Hpt in Hp. by apply guard_auth_ok, String.eqb_eq in Hp.
  - intros (ev & -> & [Hk Hs Ht (u & Hu & Hnu) (m & Hm & Hnm) Hb] & ->). cbn.
    rewrite bool_decide_true by done. cbn. rewrite Hs. cbn.
    apply N.leb_le in Ht. rewrite Ht. cbn. rewrite Hu. cbn. rewrite Hnu, String.eqb_refl. cbn.
    rewrite Hm. cbn. rewrite Hnm, String.eqb_refl. cbn.
    destruct (tag_value "payload" ev) as [p|] eqn:Hp; [|done]. destruct body as [b|]; [|done].
    by rewrite (Hb p b eq_refl eq_refl), String.eqb_refl.
Qed.

(** What authenticates a connection that was sent [challenge]. *)
Lemma verify_nip42_event_exact now ev challenge url :
  verify_nip42_event now ev challenge url = Ok tt <->
  kind ev = KIND_AUTHENTICATION /\ verify_event ev = Ok tt /\ tag_value "challenge" ev = Some challenge /\
  (exists r, tag_value "relay" ev = Some r /\ normalize_relay_url r = normalize_relay_url url) /\
  (abs_diff now (created_at ev) <= 60)%N.
Proof.
  unfold verify_nip42_event, TIMESTAMP_TOLERANCE_SECS.
  case_decide as Hk; [naive_solver|]. destruct (decide (kind ev = KIND_AUTHENTICATION)) as [Hk'|]; [|done].
  destruct (verify_event ev) as [[]|]; cbn; [|naive_solver].
  destruct (tag_value "challenge" ev) as [ch|]; cbn; [|naive_solver].
  case_decide as Hc; [naive_solver|]. destruct (decide (ch = challenge)) as [->|]; [|done].
  destruct (tag_value "relay" ev) as [r|]; cbn; [|naive_solver].
  case_decide as Hr; [naive_solver|]. destruct (N.ltb_spec 60 (abs_diff now (created_at ev))) as [|Hle].
  - split; [done|]. intros (_ & _ & _ & _ & ?). lia.
  - split; [|done]. intros _. destruct (decide (normalize_relay_url r = normalize_relay_url url)); [eauto 10|done].
Qed.

(** The event a request is authenticated with. *)
Definition request_event (headers : HeaderMap) : option Event :=
  json ← nostr_authorization headers ≫= fun s => match auth_event_json s with Ok j => Some j | Err _ => None end;
  match event_from_json json with Ok ev => Some ev | Err _ => None end.

Definition request_host (headers : HeaderMap) : string :=
  normalize_host (default EmptyString (header_get headers "host" ≫= to_str)).

(** Its [payload] tag covers the body, unless the first such tag has no value. *)
Definition covers_body (ev : Event) (body : string) : Prop :=
  tag_value "payload" ev = Some (hex_encode (sha256 body)) \/
  exists t, find_tag "payload" ev = Some t /\ tag_content t = None.

Lemma payload_covers now ev url body :
  existsb (fun t => String.eqb (tag_kind t) "payload") (tags ev) = true ->
  nip98_valid now ev url "POST" (Some body) -> covers_body ev body.
Proof.
  intros Ht Hv. unfold covers_body, tag_value. destruct (find_tag "payload" ev) as [t|] eqn:Hf.
  - destruct (tag_content t) as [p|] eqn:Hc; [left|right; eauto].
    cbn. rewrite Hc. f_equal. symmetry. apply (nv_body _ _ _ _ _ Hv); [|done]. unfold tag_value. by rewrite Hf.
  - exfalso. unfold find_tag in Hf. apply existsb_exists in Ht as (t & Hin & Heq).
    by rewrite (List.find_none _ _ Hf t Hin) in Heq.
Qed.
End valid.

(** ** What only grows *)

Record later (w w' : World) : Prop := {
  later_time : (w_time w <= w_time w')%Z;
  later_marks : w_marks w `prefix_of` w_marks w';
  later_hosts : w_hosts w ⊆ w_hosts w';
  later_macs : w_macs w `prefix_of` w_macs w';
  later_past : w_members w :: w_past w `suffix_of` w_members w' :: w_past w';
  later_next : (w_next_tx w <= w_next_tx w')%N;
}.

#[export] Instance later_preorder : PreOrder later.
Proof.
  split; [by intros w|]. intros w1 w2 w3 [] []. split; [lia|..|lia]; by etrans.
Qed.

Lemma elapses_later w w' : elapses w w' -> later w w'.
Proof. intros (time & redis & hosts & open & claims & -> & Ht & _ & _ & Hh & _). by split. Qed.

(** The calls that set no key in Redis. *)
Definition unmarked {R} (c : RelayCall R) : Prop :=
  match c with
  | RedisSet _ _ _ => False
  | _ => True
  end.

(** ** Programs that make only calls of some kind *)

(** The calls of a program, one by one. *)
Ltac only_calls :=
  repeat match goal with
    | |- only _ (bind _ _) => apply only_bind; [|intros ?]
    | |- only _ (bind_ok _ _) => apply only_bind_ok; [|intros ?]
    | |- only _ (map_err_await _ _) => unfold map_err_await
    | |- only _ (announce _) => unfold announce
    | |- only _ (Concurrent.call _) => by split
    | |- only _ (Do _ _) => split; [done|intros ?]
    | |- only _ (Ret _) => exact I
    | |- only _ (match _ with _ => _ end) => case_match
    end.

Section effects.
Context `{AuthApi} `{TokenApi} `{InviteBodies}.
Context (state : AppState) (skew : Z).

Notation effect := (relay_effect state skew).

Lemma changes_row_later w w' r k allowed P change :
  (forall row, later w (change row)) -> changes_row w w' r k allowed P change -> later w w'.
Proof. intros Hc [[_ ->]|[(row & _ & _ & _ & -> & _)|(_ & -> & _)]]; [done|apply Hc|done]. Qed.

Lemma set_tables_later members accepted w : later w (set_tables members accepted w).
Proof. split; cbn; try done. by apply suffix_cons_r. Qed.

Lemma set_open_later open next w : (w_next_tx w <= next)%N -> later w (set_open open next w).
Proof. intros Hn. by split. Qed.

Hint Resolve set_tables_later : core.

Lemma effect_later R (c : RelayCall R) w w' r : effect R c w w' r -> later w w'.
Proof.
  destruct c; cbn [relay_effect]; intros He;
    try (destruct He as [-> _]; reflexivity); try (subst w'; reflexivity).
  - destruct He as [[_ ->]|[(_ & -> & _)|(_ & _ & ->)]]; [done..|]. split; cbn; try done. by apply prefix_app_r.
  - destruct He as [[_ ->]|[-> _]]; [done|]. apply set_open_later. lia.
  - destruct He as [->| ->]; [done|]. by apply set_open_later.
  - destruct He as [[_ [->| ->]]|(t & ws & _ & _ & ->)]; [done|by apply set_open_later|].
    etrans; [apply set_tables_later|]. by apply set_open_later.
  - destruct tx as [tx|].
    + destruct He as [[_ ->]|(t & ws & _ & [(_ & -> & _)|(_ & _ & _ & _ & ->)])]; [done..|]. by apply set_open_later.
    + destruct He as [[_ ->]|[(_ & -> & _)|(_ & _ & _ & _ & ->)]]; [done..|]. apply set_tables_later.
  - destruct He as [[_ ->]|(t & ws & _ & _ & [[_ ->]|[_ ->]])]; [done..|]. by apply set_open_later.
  - eapply changes_row_later; [|exact He]. intros; apply set_tables_later.
  - eapply changes_row_later; [|exact He]. intros; apply set_tables_later.
  - eapply changes_row_later; [|exact He]. intros; apply set_tables_later.
  - destruct He as [[_ ->]|[-> _]]; [done|]. by split.
  - destruct He as [_ ->]. by split.
  - destruct He as [_ ->]. split; cbn; try done. by apply prefix_app_r.
Qed.

Lemma answer_later R (c : RelayCall R) w w' r : relay_answer state skew R c w w' r -> later w w'.
Proof. intros (w0 & Hw & He). etrans; [by apply elapses_later|by eapply effect_later]. Qed.

(** A call that sets no key leaves the seen-set as it is. *)
Lemma effect_unmarked R (c : RelayCall R) w w' r :
  unmarked c -> effect R c w w' r ->
  w_time w' = w_time w /\ w_redis w' = w_redis w /\ w_marks w' = w_marks w.
Proof.
  destruct c; cbn [relay_effect unmarked]; intros Hu He;
    try (destruct He as [-> _]; done); try (subst w'; done); try done.
  - by destruct He as [[_ ->]|[-> _]].
  - by destruct He as [->| ->].
  - by destruct He as [[_ [->| ->]]|(t & ws & _ & _ & ->)].
  - destruct tx as [tx|].
    + by destruct He as [[_ ->]|(t & ws & _ & [(_ & -> & _)|(_ & _ & _ & _ & ->)])].
    + by destruct He as [[_ ->]|[(_ & -> & _)|(_ & _ & _ & _ & ->)]].
  - by destruct He as [[_ ->]|(t & ws & _ & _ & [[_ ->]|[_ ->]])].
  - by destruct He as [[_ ->]|[(row & _ & _ & _ & -> & _)|(_ & -> & _)]].
  - by destruct He as [[_ ->]|[(row & _ & _ & _ & -> & _)|(_ & -> & _)]].
  - by destruct He as [[_ ->]|[(row & _ & _ & _ & -> & _)|(_ & -> & _)]].
  - by destruct He as [[_ ->]|[-> _]].
  - by destruct He as [_ ->].
  - by destruct He as [_ ->].
Qed.
End effects.

(** ** The authentication of a request

    In any verification of the handlers whose invariant the [quiet] calls keep. *)

Section authenticate.
Context `{UrlApi} `{AuthApi} `{TokenApi} `{InviteBodies}.
Context (state : AppState) (skew : Z).

(** An owner of the key of [ev] asked for [path] of a host of community [c], at a time the
    event was fresh. *)
Definition asked (w : World) (c : CommunityId) (path body : string) (ev : Event) : Prop :=
  exists host now t, w_hosts w !! host = Some c /\ (t <= w_time w)%Z /\ clock_reads skew t now /\
    nip98_valid now ev (nip98_expected_url (relay_url state) (resolved c host) path) "POST" (Some body) /\
    covers_body ev body.

Lemma asked_later w w' c path body ev : later w w' -> asked w c path body ev -> asked w' c path body ev.
Proof.
  intros Hl (host & now & t & Hh & Ht & Hr). exists host, now, t. split; [|split; [|done]].
  - by eapply lookup_weaken, (later_hosts _ _ Hl).
  - pose proof (later_time _ _ Hl). lia.
Qed.

Context {K : Type} (inv : World -> Prop) (busy : World -> K -> Prop) (rely : option K -> World -> World -> Prop).
Context `{!forall h, PreOrder (rely h)}.
Context (rely_later : forall h w w', rely h w w' -> later w w').
Context (rely_busy : forall k w w', rely (Some k) w w' -> busy w k -> busy w' k).
Context (quiet : forall R, RelayCall R -> Prop).
Context (quiet_ok : forall R (c : RelayCall R) w w' r,
  quiet R c -> relay_answer state skew R c w w' r -> inv w -> inv w' /\ forall h, rely h w w').
Context (quiet_host : forall h, quiet _ (SelectCommunity h)) (quiet_clock : quiet _ ReadClock).

Notation owp := (owp (relay_answer state skew) inv busy rely).
Notation owp_seq := (owp_seq (relay_answer state skew) inv busy rely).

Notation holds := (holds busy).

Lemma relay_quiet {A R} h (c : RelayCall R) (k : R -> RelayProg A) w Q :
  quiet R c -> holds h w ->
  (forall w1 w2 r, rely h w w2 -> later w w1 -> relay_answer state skew R c w1 w2 r -> inv w2 -> holds h w2 ->
    owp h (k r) w2 Q) -> owp h (Do c k) w Q.
Proof.
  intros Hc Hh Hk.
  apply (owp_quiet (relay_answer state skew) inv busy rely rely_busy quiet quiet_ok); [done..|].
  intros w1 w2 r Hr Hr2 Ha Hi2 Hh2. apply (Hk w1); [done|by eapply rely_later|done..].
Qed.

(** A program and its surroundings only go forward. *)
Lemma owp_later {A} h (p : RelayProg A) w0 w Q :
  later w0 w -> owp h p w Q -> owp h p w (fun h' a w1 => Q h' a w1 /\ later w0 w1).
Proof.
  revert h w. induction p as [a|R c k IH]; intros h w Hl Hp; simpl.
  - intros w1 Hr Hi. split; [by apply Hp|]. etrans; [exact Hl|by apply (rely_later h)].
  - intros w1 w2 r Hr Hi Ha. destruct (Hp w1 w2 r Hr Hi Ha) as (? & ? & h' & ? & Hk).
    split_and!; [done..|]. exists h'. split; [done|]. apply IH; [|done].
    etrans; [exact Hl|]. etrans; [by apply (rely_later h)|by eapply answer_later].
Qed.

(** A program of quiet calls. *)
Lemma relay_only {A} h (p : RelayProg A) w Q :
  only quiet p -> holds h w -> (forall a w1, later w w1 -> inv w1 -> Q h a w1) -> owp h p w Q.
Proof.
  intros Hp Hh HQ.
  apply (owp_only (relay_answer state skew) inv busy rely rely_busy quiet quiet_ok); [done..|].
  intros a w1 Hr. apply HQ. by apply (rely_later h).
Qed.

(** What [verify_bridge_auth_with_options] establishes of a request that must be signed and
    covered. *)
Definition bridge_result (headers : HeaderMap) (url body : string) (r : Result (PublicKey * string) ApiError)
    (w : World) : Prop :=
  match r with
  | Ok (pk, id_bytes) => exists ev now t, request_event headers = Some ev /\ pk = pubkey ev /\
      id_bytes = event_id_to_bytes (id ev) /\ (t <= w_time w)%Z /\ clock_reads skew t now /\
      nip98_valid now ev url "POST" (Some body) /\ covers_body ev body
  | Err _ => True
  end.

Lemma owp_verify_bridge_auth h headers url body w :
  holds h w ->
  owp h (verify_bridge_auth_with_options headers "POST" url (Some body) true true) w
    (fun h' r w1 => h' = h /\ later w w1 /\ bridge_result headers url body r w1).
Proof.
  intros Hh. unfold verify_bridge_auth_with_options.
  assert (forall e : ApiError, owp h (Ret (Err e)) w
    (fun h' r w1 => h' = h /\ later w w1 /\ bridge_result headers url body r w1)) as Herr.
  { intros e. apply owp_return. intros w1 Hr _. split_and!; [done|by apply (rely_later h)|done]. }
  destruct (nostr_authorization headers) as [s|] eqn:Hs; [|apply Herr].
  destruct (auth_event_json s) as [json|] eqn:Hj; cbn [result_bind]; [|apply Herr].
  destruct (event_from_json json) as [ev|] eqn:He; cbn [map_err result_bind]; [|apply Herr].
  destruct (existsb _ (tags ev)) eqn:Hp; cbn [negb andb]; [|apply Herr].
  apply relay_quiet; [done|done|]. intros w1 w2 now Hr Hl (w0 & Hw0 & -> & Hc) Hi2 Hh2. apply owp_return.
  intros w3 Hr3 _. split; [done|]. split; [apply (rely_later h); by etrans|].
  destruct (verify_nip98_event now json url "POST" (Some body)) as [pk|] eqn:Hv; cbn; [|done].
  apply verify_nip98_event_exact in Hv as (ev' & He' & Hv & ->). rewrite He in He'. injection He' as <-.
  exists ev, now, (w_time w0). split; [unfold request_event; rewrite Hs; cbn; rewrite Hj; cbn; by rewrite He|].
  split_and!; [done..| |done|done|by eapply payload_covers].
  apply rely_later in Hr3 as []. done.
Qed.

(** The replay check, of an event verified for a tenant.  [marked] is what it establishes. *)
Context (marked : option K -> TenantContext -> Event -> World -> Prop).
Context (marked_rely : forall h tenant ev w w', rely h w w' -> marked h tenant ev w -> marked h tenant ev w').
Context (owp_replay : forall w tenant path body ev,
  inv w -> asked w (tc_community tenant) path body ev ->
  owp None (check_nip98_replay tenant (event_id_to_bytes (id ev))) w
    (fun h r w1 => match r with Ok _ => marked h tenant ev w1 | Err _ => True end)).

Definition authentic (headers : HeaderMap) (path body : string) (h : option K) (tenant : TenantContext)
    (pk : PublicKey) (w : World) : Prop :=
  tc_host tenant = request_host headers /\ w_hosts w !! request_host headers = Some (tc_community tenant) /\
  exists ev, request_event headers = Some ev /\ pk = pubkey ev /\ asked w (tc_community tenant) path body ev /\
    marked h tenant ev w.

Lemma owp_authenticate headers path body w :
  inv w ->
  owp None (authenticate state headers path body) w
    (fun h r w1 => match r with Ok (tenant, pk) => authentic headers path body h tenant pk w1 | Err _ => True end).
Proof.
  intros Hi. unfold authenticate, map_err_await, bind_community. fold (request_host headers).
  assert (holds None w) as Hh by done.
  unfold bind_ok. case_decide as Hempty; [by apply owp_return|]. cbn [bind Concurrent.call].
  apply relay_quiet; [done|done|]. intros w1 w2 r Hr Hl (w0 & Hw0 & -> & Hsel) Hi2 Hh2.
  destruct r as [[c|]|e]; cbn [bind]; [|by apply owp_return..].
  assert (w_hosts w0 !! request_host headers = Some c) as Hc.
  { destruct Hsel as [[? [=]]|(o & [= <-] & Ho)]. by apply Ho. }
  cbn [map_err]. eapply owp_seq; [exact (owp_verify_bridge_auth None headers _ body w0 Hh2)|done|].
  intros h [[pk idb]|e] w3 Hi3 (-> & Hl3 & Hb); [|by apply owp_return].
  destruct Hb as (ev & now & t & Hev & -> & -> & Ht & Hclock & Hv & Hcov). cbn [fst snd].
  pose proof (lookup_weaken _ _ _ _ Hc (later_hosts _ _ Hl3)) as Hc3.
  assert (asked w3 c path body ev) as Hask by by exists (request_host headers), now, t.
  eapply owp_seq; [apply (owp_later _ _ w3); [done|by apply (owp_replay w3 (resolved c (request_host headers)) path body ev)]|done|].
  intros h [[]|e] w4 Hi4 [Hm Hl4]; [|by apply owp_return]. apply owp_return. intros w5 Hr5 _.
  assert (later w3 w5) as Hl5 by (etrans; [exact Hl4|by apply (rely_later h)]).
  split; [done|]. split; [by eapply lookup_weaken, (later_hosts _ _ Hl5)|].
  exists ev. split_and!; [done|done|by eapply asked_later|by eapply marked_rely].
Qed.
End authenticate.

(** ** One request per event *)

Section single_use.
Context `{UrlApi} `{AuthApi} `{TokenApi} `{InviteBodies} `{!AuthLaws}.
Context (state : AppState) (skew : Z) (require_relay_membership : bool).

Notation answer := (relay_answer state skew).

(** Every key set is there for its 120 s, so the marks of a key are 120 s apart. *)
Record marks_inv (w : World) : Prop := {
  marks_kept i k m : w_marks w !! i = Some (k, m) -> (m <= w_time w)%Z /\
    ((m + 120000 <= w_time w)%Z \/ exists expiry, w_redis w !! k = Some expiry /\ (m + 120000 <= expiry)%Z);
  marks_apart i j k m m' : i < j -> w_marks w !! i = Some (k, m) -> w_marks w !! j = Some (k, m') ->
    (m + 120000 <= m')%Z;
}.

Lemma marks_elapse w w' : elapses w w' -> marks_inv w -> marks_inv w'.
Proof.
  intros (time & redis & hosts & open & claims & -> & Ht & _ & Hkeep & _) [Hk Ha]. split; cbn; [|done].
  intros i k m Hm. destruct (Hk i k m Hm) as [? [?|(e & He & ?)]]; [split; [|left]; lia|].
  split; [lia|]. destruct (decide (time < e)%Z) as [Hlt|]; [right; eauto|left; lia].
Qed.

Lemma marks_unmarked R (c : RelayCall R) w w' r :
  unmarked c -> answer R c w w' r -> marks_inv w -> marks_inv w' /\ w_marks w' = w_marks w.
Proof.
  intros Hu (w0 & Hw0 & He) Hi. pose proof (marks_elapse _ _ Hw0 Hi) as [Hk Ha].
  destruct (effect_unmarked _ _ _ _ _ _ _ Hu He) as (Et & Er & Em).
  split; [split; rewrite ?Et, ?Er, ?Em; done|]. rewrite Em. by destruct Hw0 as (? & ? & ? & ? & ? & -> & _).
Qed.

Lemma marks_set w w' key value r :
  answer _ (RedisSet key value 120) w w' r -> marks_inv w ->
  marks_inv w' /\ (w_marks w' = w_marks w /\ r <> Ok (Some "OK") \/
                   exists m, w_marks w' = w_marks w ++ [(key, m)] /\ (w_time w <= m)%Z).
Proof.
  intros (w0 & Hw0 & He) Hi. pose proof (marks_elapse _ _ Hw0 Hi) as Hi0.
  assert (w_marks w0 = w_marks w /\ (w_time w <= w_time w0)%Z) as [Em Ht]
    by (by destruct Hw0 as (? & ? & ? & ? & ? & -> & ? & _)).
  destruct He as [[[e ->] ->]|[(_ & -> & Hr)|(Hnone & _ & ->)]].
  - split; [done|]. by left.
  - split; [done|]. left. split; [done|]. by destruct Hr as [->|[e ->]].
  - destruct Hi0 as [Hk Ha]. split; [|right; exists (w_time w0); cbn; by rewrite Em].
    split; cbn.
    + intros i k m [Hm|[_ Hm]]%lookup_snoc_Some.
      * destruct Hm as [_ Hm]. destruct (Hk i k m Hm) as [? [?|(e & He & ?)]]; [split; [done|by left]|].
        split; [done|]. right. exists e. rewrite lookup_insert_ne; [done|]. intros ->. congruence.
      * injection Hm as -> ->. split; [lia|]. right. eexists. rewrite lookup_insert_eq. split; [reflexivity|lia].
    + intros i j k m m' Hij [[_ Hm]|[-> Hm]]%lookup_snoc_Some [[Hj Hm']|[-> Hm']]%lookup_snoc_Some;
        [by apply (Ha i j k m m')| | |lia].
      * injection Hm' as -> <-. destruct (Hk i k m Hm) as [_ [?|(e & He & _)]]; [done|congruence].
      * apply lookup_lt_Some in Hm'. lia.
Qed.

Definition mark_busy (w : World) (i : nat) : Prop := i < length (w_marks w).
Definition mark_rely (_ : option nat) : World -> World -> Prop := later.

#[local] Instance mark_rely_preorder h : PreOrder (mark_rely h).
Proof. apply later_preorder. Qed.

Lemma mark_rely_busy k w w' : mark_rely (Some k) w w' -> mark_busy w k -> mark_busy w' k.
Proof. intros Hl. pose proof (prefix_length _ _ (later_marks _ _ Hl)). unfold mark_busy. lia. Qed.

Notation mowp := (owp answer marks_inv mark_busy mark_rely).

Lemma unmarked_ok R (c : RelayCall R) w w' r :
  unmarked c -> answer R c w w' r -> marks_inv w -> marks_inv w' /\ forall h, mark_rely h w w'.
Proof. intros Hu Ha Hi. split; [by eapply marks_unmarked|]. intros h. by eapply answer_later. Qed.

Lemma mark_rely_later h w w' : mark_rely h w w' -> later w w'.
Proof. done. Qed.

Lemma mowp_call {A R} h (c : RelayCall R) (k : R -> RelayProg A) w Q :
  unmarked c -> holds mark_busy h w ->
  (forall w1 w2 r, later w w2 -> later w w1 -> answer R c w1 w2 r -> marks_inv w2 -> mowp h (k r) w2 Q) ->
  mowp h (Do c k) w Q.
Proof.
  intros Hc Hh Hk.
  apply (relay_quiet state skew marks_inv mark_busy mark_rely mark_rely_later mark_rely_busy (@unmarked) unmarked_ok);
    [done..|].
  intros w1 w2 r Hr Hl Ha Hi _. by apply (Hk w1).
Qed.

(** What a request holds once it is admitted: its own mark, no earlier than the event's
    window begins. *)
Definition own_mark (h : option nat) (c : CommunityId) (ev : Event) (w : World) : Prop :=
  event_id_to_bytes (id ev) = ZERO_ID /\ h = None \/
  exists i m, h = Some i /\
    w_marks w !! i = Some (nip98_replay_key_for_scope (uuid_to_string c) (id ev), m) /\
    ((Z.of_N (created_at ev) - 60) * 1000 - skew <= m)%Z.

Lemma own_mark_later h c ev w w' : later w w' -> own_mark h c ev w -> own_mark h c ev w'.
Proof.
  intros Hl [?|(i & m & Hh & Hm & Hle)]; [by left|]. right. exists i, m.
  split; [done|]. split; [by eapply prefix_lookup_Some, later_marks|done].
Qed.

Lemma asked_since w c path body ev m :
  asked state skew w c path body ev -> (w_time w <= m)%Z -> ((Z.of_N (created_at ev) - 60) * 1000 - skew <= m)%Z.
Proof.
  intros (host & now & t & _ & Ht & (ms & Hms & Hpos & ->) & [_ _ Hf _ _ _] & _) Hm. unfold abs_diff in Hf.
  pose proof (Z.mul_div_le ms 1000 ltac:(lia)).
  pose proof (Z.div_pos ms 1000 Hpos ltac:(lia)). destruct (N.ltb_spec (Z.to_N (ms / 1000)) (created_at ev)); lia.
Qed.

Lemma mowp_replay w tenant path body ev :
  marks_inv w -> asked state skew w (tc_community tenant) path body ev ->
  mowp None (check_nip98_replay tenant (event_id_to_bytes (id ev))) w
    (fun h r w1 => match r with Ok _ => own_mark h (tc_community tenant) ev w1 | Err _ => True end).
Proof.
  intros Hi Hask. unfold check_nip98_replay. case_decide as Hz; [intros w1 _ _; by left|].
  unfold try_mark, try_mark_in_scope, bind_ok, map_err_await. cbn [bind Concurrent.call].
  assert (forall h w (b : Result unit ApiError), (forall a, b <> Ok a) ->
    mowp h (Ret b) w (fun h r w1 => match r with Ok _ => own_mark h (tc_community tenant) ev w1 | Err _ => True end)) as Herr.
  { intros h w0 [a|e] Hb w1 _ _; [by destruct (Hb a)|done]. }
  apply mowp_call; [done|done|]. intros w1 w2 [[]|e] Hr Hl Ha Hi2; cbn [bind map_err]; [|by apply Herr].
  intros w3 w4 r Hr3 Hi3 Ha4. destruct (marks_set _ _ _ _ _ Ha4 Hi3) as [Hi4 Hm].
  pose proof (answer_later _ _ _ _ _ _ _ Ha4) as Hl4. split; [done|]. split; [done|].
  rewrite event_id_of_bytes in Hm. destruct Hm as [[_ Hno]|(m & Em & Hle)].
  - exists None. split; [done|]. destruct r as [[reply|]|e]; cbn [bind map_err]; [|by apply Herr..].
    case_decide as E; cbn [bind]; [|by apply Herr]. by subst.
  - exists (Some (length (w_marks w3))). split.
    { intros k [= <-]. unfold mark_busy. rewrite Em, length_app. cbn. split; [lia|]. right. lia. }
    destruct r as [[reply|]|e]; cbn [bind map_err]; [|by apply Herr..].
    case_decide; cbn [bind]; [|by apply Herr]. intros w5 Hr5 Hi5. apply (own_mark_later _ _ _ w4); [done|].
    right. exists (length (w_marks w3)), m. split; [done|]. split; [by rewrite Em, lookup_snoc_Some; right|].
    apply (asked_since w3 (tc_community tenant) path body); [|done].
    eapply asked_later, Hask. etrans; [exact Hr|exact Hr3].
Qed.

(** ** The handlers *)

(** A program that sets no key. *)
Notation silent := (only (@unmarked)).

Lemma mowp_silent {A} h (p : RelayProg A) w Q :
  silent p -> holds mark_busy h w -> (forall a w1, later w w1 -> Q h a w1) -> mowp h p w Q.
Proof.
  intros Hp Hh HQ.
  apply (relay_only state skew marks_inv mark_busy mark_rely mark_rely_later mark_rely_busy (@unmarked) unmarked_ok); auto.
Qed.

(** A request that was admitted as a signed one. *)
Definition admitted (h : option nat) (headers : HeaderMap) (w : World) : Prop :=
  exists ev c, request_event headers = Some ev /\ w_hosts w !! request_host headers = Some c /\ own_mark h c ev w.

Lemma admitted_later h headers w w' : later w w' -> admitted h headers w -> admitted h headers w'.
Proof.
  intros Hl (ev & c & He & Hc & Hm). exists ev, c. split; [done|].
  split; [by eapply lookup_weaken, later_hosts|by eapply own_mark_later].
Qed.

Lemma mowp_admitted headers path body (f : TenantContext * PublicKey -> RelayProg (Result Response ApiError)) w :
  (forall a, silent (f a)) -> marks_inv w ->
  mowp None (bind_ok (authenticate state headers path body) f) w
    (fun h r w1 => forall a, r = Ok a -> admitted h headers w1).
Proof.
  intros Hf Hi. unfold bind_ok. eapply (owp_seq answer marks_inv mark_busy mark_rely); [|exact Hi|].
  - apply (owp_authenticate state skew marks_inv mark_busy mark_rely mark_rely_later mark_rely_busy (@unmarked)
             unmarked_ok (fun _ => I) I (fun h tenant ev => own_mark h (tc_community tenant) ev)); [|apply mowp_replay|done].
    intros h tenant ev w1 w2. apply own_mark_later.
  - intros h [[tenant pk]|e] w1 Hi1 Ha; [|by intros w2 _ _].
    destruct Ha as (Hh & Hc & ev & He & -> & Hask & Hm).
    apply mowp_silent; [apply Hf| |].
    + intros k ->. destruct Hm as [[_ [=]]|(i & m & [= ->] & Hlk & _)]. by eapply lookup_lt_Some.
    + intros r w2 Hl a _. apply (admitted_later _ _ w1); [done|]. by exists ev, (tc_community tenant).
Qed.

Lemma silent_admin tenant ev : silent (handle_relay_admin_event tenant ev).
Proof.
  unfold handle_relay_admin_event, set_workspace_profile, add_member, remove_member, change_role,
    get_relay_member, add_relay_member, update_relay_member_role, remove_relay_member, remove_relay_member_if_role.
  only_calls.
Qed.

Lemma silent_leave tenant ev : silent (handle_leave_request require_relay_membership tenant ev).
Proof. unfold handle_leave_request, remove_relay_member. only_calls. Qed.

(** What a finished task tells of the request it served. *)
Definition signed_headers (req : Request) : option HeaderMap :=
  match req with
  | PostInvites headers _ | PostClaim headers _ => Some headers
  | _ => None
  end.

Definition served (_ : unit) (h : option nat) (a : Request * Outcome) (w : World) : Prop :=
  forall headers r, signed_headers a.1 = Some headers -> a.2 = Http (Ok r) -> admitted h headers w.

Lemma mowp_handle req w :
  marks_inv w -> mowp None (handle state require_relay_membership req) w (fun h o w1 => served tt h (req, o) w1).
Proof.
  intros Hi.
  assert (forall headers path body (f : TenantContext * PublicKey -> RelayProg (Result Response ApiError)),
    signed_headers req = Some headers -> (forall a, silent (f a)) ->
    mowp None (let! r := bind_ok (authenticate state headers path body) f in Ret (Http r)) w
      (fun h o w1 => served tt h (req, o) w1)) as Hsigned.
  { intros headers path body f Hreq Hf. eapply (owp_seq answer marks_inv mark_busy mark_rely);
      [by apply mowp_admitted|exact Hi|].
    intros h r w1 Hi1 Hr w2 Hl Hi2 headers' a E [= ->]. cbn in E. rewrite Hreq in E. injection E as <-.
    eapply admitted_later; [exact Hl|by eapply Hr]. }
  destruct req as [headers body|headers body|body|tenant json].
  - apply (Hsigned headers); [done|]. intros a. unfold get_relay_member, InviteToken.mint_invite, sign_payload. only_calls.
  - apply (Hsigned headers); [done|]. intros a.
    unfold claim_rate_limited, check_receipt, claim_relay_membership, claim_statements. only_calls.
  - apply mowp_silent; [|done|by intros ????? [=]].
    unfold handle, accept_policy, mint_policy_acceptance, sign_payload. only_calls.
  - apply mowp_silent; [|done|by intros ????? [=]]. unfold handle, submit_event.
    only_calls; [apply silent_admin|apply silent_leave].
Qed.

Lemma mowp_serve t w : marks_inv w -> mowp None (serve state require_relay_membership t) w (served t).
Proof.
  intros Hi. apply mowp_call; [done|done|]. intros w1 w2 req _ _ _ Hi2. cbn [bind].
  eapply (owp_seq answer marks_inv mark_busy mark_rely); [by apply mowp_handle|done|].
  intros h o w3 Hi3 Ho w4 Hl Hi4 headers r Hreq Hr. destruct t.
  eapply admitted_later; [exact Hl|]. by eapply Ho.
Qed.

Lemma start_marks time hosts table : marks_inv (start_world time hosts table).
Proof. by split. Qed.

(** C11: an event signed for creating or for claiming an invite admits one request, whatever
    pods of the deployment serve its copies and however their calls interleave: if two requests
    of one community were answered with success on the strength of one event id, then sixty
    seconds after the time the event was signed for have passed, up to the skew of the clocks.
    (The id of zeros stands for the unsigned requests of a development deployment.  Requests of
    the git transport are not among these: it deliberately accepts an event again.) *)
Theorem nip98_single_use time hosts table w ts i j req req' headers headers' r r' ev ev' :
  rtc (pool_step answer (serve state require_relay_membership)) (start_world time hosts table, []) (w, ts) ->
  i <> j ->
  ts !! i = Some (thread tt (Ret (req, Http (Ok r)))) -> ts !! j = Some (thread tt (Ret (req', Http (Ok r')))) ->
  signed_headers req = Some headers -> signed_headers req' = Some headers' ->
  request_event headers = Some ev -> request_event headers' = Some ev' -> id ev = id ev' ->
  event_id_to_bytes (id ev) <> ZERO_ID ->
  w_hosts w !! request_host headers = w_hosts w !! request_host headers' ->
  ((Z.min (Z.of_N (created_at ev)) (Z.of_N (created_at ev')) + 60) * 1000 - skew <= w_time w)%Z.
Proof.
  intros Hrun Hij Hi Hj Hreq Hreq' Hev Hev' Hid Hz Hc.
  destruct (owned_steps answer marks_inv mark_busy mark_rely (serve state require_relay_membership) served
    mark_rely_busy mowp_serve _ _ _ Hrun (owned_start _ _ _ _ _ _ (start_marks time hosts table))) as [_ [hs Hok]].
  destruct (owned_results answer marks_inv mark_busy mark_rely served w ts hs i j tt tt _ _ Hok Hij Hi Hj) as (h & h' & Hs & Hs' & Hne).
  destruct (Hs headers r Hreq eq_refl) as (e & c & He & Hhc & Hm).
  destruct (Hs' headers' r' Hreq' eq_refl) as (e' & c' & He' & Hhc' & Hm').
  simplify_eq. rewrite Hhc, Hhc' in Hc. injection Hc as ->.
  destruct Hm as [[? _]|(k & m & -> & Hk & Hle)]; [done|].
  destruct Hm' as [[? _]|(k' & m' & -> & Hk' & Hle')]; [by rewrite Hid in Hz|].
  rewrite <-Hid in Hk'. assert (k <> k') as Hkk by (intros <-; by apply (Hne k)).
  destruct (owned_inv _ _ _ _ _ _ _ Hok) as [Hkept Hapart]. cbn in Hkept, Hapart.
  destruct (Hkept _ _ _ Hk) as [? _], (Hkept _ _ _ Hk') as [? _].
  destruct (decide (k < k')) as [Hlt|Hge].
  - pose proof (Hapart _ _ _ _ _ Hlt Hk Hk'). lia.
  - pose proof (Hapart k' k _ _ _ ltac:(lia) Hk' Hk). lia.
Qed.
End single_use.
