(* ===== verification/MembershipProps.v ===== *)
(** * Who becomes a member ([InviteApi], [RelayMembers], in the world of [MembershipWorld])

    The invariant of the members of a deployment: every row of [relay_members] besides the
    owners it began with is accounted for, by an invite an owner or admin made or by a command
    of one, and every role by an owner's command; with a join policy, who joined by an invite
    has accepted it. *)

From S2P Require Import Prelude Text Nostr Concurrent Tenant HttpAuth RelayMembers InviteToken InviteApi MembershipWorld HttpAuthProps.

(** A public key prints as 64 hexadecimal digits; a UUID tells its 128 bits. *)
Class MemberLaws `{AuthApi} := {
  length_pubkey_hex pk : String.length (pubkey_to_hex pk) = 64;
  uuid_string_inj u v : (u < 2 ^ 128)%N -> (v < 2 ^ 128)%N -> uuid_to_string u = uuid_to_string v -> u = v;
}.

Section members.
Context `{UrlApi} `{AuthApi} `{TokenApi} `{InviteBodies} `{!TokenLaws} `{!MemberLaws}.
Context (state : AppState) (skew : Z) (require_relay_membership : bool) (base : Table).

Notation answer := (relay_answer state skew).

(** ** Evidence *)

(** The key held the role in the community at some time. *)
Definition ever (w : World) (c : CommunityId) (pk role : string) : Prop :=
  exists table row, table ∈ w_members w :: w_past w /\ table !! (c, pk) = Some row /\ rm_role row = role.

(** The invite [p] was made at the request of one who was an owner or admin of [c], to last
    between a minute and thirty days. *)
Definition minted (w : World) (c : CommunityId) (p : InvitePayload) : Prop :=
  ip_c p = uuid_to_string c /\ ip_r p = "member" /\
  exists ev body role now t, asked state skew w c "/api/invites" body ev /\
    ever w c (pubkey_to_hex (pubkey ev)) role /\ (role = "owner" \/ role = "admin") /\
    (t <= w_time w)%Z /\ clock_reads skew t now /\ (now + 60 <= ip_e p <= now + 2592000)%N.

(** The holder of [pk] claimed an invite to [c] that had not expired, with a receipt for the
    join policy if there is one. *)
Definition invited (w : World) (c : CommunityId) (pk : string) : Prop :=
  exists ev body request p now t, pubkey_to_hex (pubkey ev) = pk /\
    asked state skew w c "/api/invites/claim" body ev /\ claim_from_slice body = Ok request /\
    (t <= w_time w)%Z /\ clock_reads skew t now /\
    verify_invite now (invite_key state) c (cr_code request) = Ok p /\ minted w c p /\
    forall policy, join_policy state = Some policy ->
      exists receipt now' a, cr_policy_receipt request = Some receipt /\
        verify_policy_acceptance now' (invite_key state) receipt (cr_code request) (jp_version policy) = Ok a.

Definition target (ev : Event) : option string := to_ascii_lowercase <$> extract_p_tag_hex ev.

(** A signed command about [pk], by a key that held the role in [c]. *)
Definition commanded (w : World) (c : CommunityId) (k : Kind) (ev : Event) (role pk : string) : Prop :=
  verify_event ev = Ok tt /\ kind ev = k /\ ever w c (pubkey_to_hex (pubkey ev)) role /\ target ev = Some pk.

(** An owner or admin added [pk]. *)
Definition added (w : World) (c : CommunityId) (pk sender : string) : Prop :=
  exists ev role, commanded w c RELAY_ADMIN_ADD_MEMBER ev role pk /\ pubkey_to_hex (pubkey ev) = sender /\
    (role = "owner" \/ role = "admin").

(** An owner gave [pk] the role of an admin. *)
Definition made_admin (w : World) (c : CommunityId) (pk : string) : Prop :=
  exists ev k, commanded w c k ev "owner" pk /\ (k = RELAY_ADMIN_ADD_MEMBER \/ k = RELAY_ADMIN_CHANGE_ROLE) /\
    extract_tag_value ev "role" = Some "admin".

Record row_ok (w : World) (c : CommunityId) (pk : string) (row : RelayMember) : Prop := {
  row_admitted : rm_added_by row = Some "invite" /\ invited w c pk \/
    exists sender, rm_added_by row = Some sender /\ added w c pk sender;
  row_role : rm_role row = "member" \/ rm_role row = "admin" /\ made_admin w c pk;
}.

Section later.
Context (w w' : World) (Hl : later w w').

Lemma ever_later c pk role : ever w c pk role -> ever w' c pk role.
Proof.
  intros (table & row & Hin & Hr). exists table, row. split; [|done].
  destruct (later_past _ _ Hl) as [l ->]. apply elem_of_app. by right.
Qed.

Lemma minted_later c p : minted w c p -> minted w' c p.
Proof.
  intros (Hc & Hr & ev & body & role & now & t & Ha & He & Hrole & Ht & Hrest). split; [done|]. split; [done|].
  exists ev, body, role, now, t. split; [by eapply asked_later|]. split; [by apply ever_later|]. split; [done|].
  split; [|done]. pose proof (later_time _ _ Hl). lia.
Qed.

Lemma invited_later c pk : invited w c pk -> invited w' c pk.
Proof.
  intros (ev & body & request & p & now & t & Hpk & Ha & Hb & Ht & Hc & Hv & Hm & Hp).
  exists ev, body, request, p, now, t. pose proof (later_time _ _ Hl).
  split_and!; [done|by eapply asked_later|done|lia|done|done|by apply minted_later|done].
Qed.

Lemma commanded_later c k ev role pk : commanded w c k ev role pk -> commanded w' c k ev role pk.
Proof. intros (? & ? & ? & ?). split_and!; [done|done|by apply ever_later|done]. Qed.

Lemma row_ok_later c pk row : row_ok w c pk row -> row_ok w' c pk row.
Proof.
  intros [Ha Hr]. split.
  - destruct Ha as [[? ?]|(s & Hs & ev & role & Hc & Hrest)]; [left; split; [done|by apply invited_later]|].
    right. exists s. split; [done|]. exists ev, role. split; [by apply commanded_later|done].
  - destruct Hr as [?|(? & ev & k & Hc & Hrest)]; [by left|]. right. split; [done|].
    exists ev, k. split; [by apply commanded_later|done].
Qed.
End later.

(** ** The invariant *)

(** What the relay's key has signed. *)
Definition signed_ok (w : World) (payload : string) : Prop :=
  (exists c p, payload = invite_to_vec p /\ minted w c p) \/
  exists a, payload = acceptance_to_vec a.

(** With a join policy, who joined by an invite has accepted it. *)
Definition complete (ws : list Write) : Prop :=
  forall policy c pk row, join_policy state = Some policy -> WroteMember c pk row ∈ ws ->
    rm_added_by row = Some "invite" -> WroteAcceptance c pk (jp_version policy) ∈ ws.

Definition writes_member (ws : list Write) (k : CommunityId * string) : Prop :=
  exists row, WroteMember k.1 k.2 row ∈ ws.

Record members_inv (w : World) : Prop := {
  mi_hosts host c : w_hosts w !! host = Some c -> (c < 2 ^ 128)%N;
  mi_base : base ⊆ w_members w;
  mi_rows c pk row : w_members w !! (c, pk) = Some row -> base !! (c, pk) = Some row \/ row_ok w c pk row;
  mi_accepted policy c pk row : join_policy state = Some policy -> w_members w !! (c, pk) = Some row ->
    base !! (c, pk) = None -> rm_added_by row = Some "invite" -> (c, pk, jp_version policy) ∈ w_accepted w;
  mi_open tx t ws : w_open w !! tx = Some (t, ws) -> (tx < w_next_tx w)%N;
  mi_pending tx t ws c pk row : w_open w !! tx = Some (t, ws) -> WroteMember c pk row ∈ ws ->
    w_members w !! (c, pk) = None /\ row_ok w c pk row;
  mi_apart tx t ws tx' t' ws' k : w_open w !! tx = Some (t, ws) -> w_open w !! tx' = Some (t', ws') -> tx <> tx' ->
    writes_member ws k -> ~ writes_member ws' k;
  mi_fk c pk v : (c, pk, v) ∈ w_accepted w -> is_Some (w_members w !! (c, pk));
  mi_refers tx t ws c pk v : w_open w !! tx = Some (t, ws) -> WroteAcceptance c pk v ∈ ws ->
    writes_member ws (c, pk) \/ is_Some (w_members w !! (c, pk));
  mi_macs payload t : (invite_key state, payload, t) ∈ w_macs w -> signed_ok w payload;
}.

Lemma signed_ok_later w w' payload : later w w' -> signed_ok w payload -> signed_ok w' payload.
Proof. intros Hl [(c & p & ? & ?)|?]; [left; exists c, p; split; [done|by eapply minted_later]|by right]. Qed.

(** ** What each call does to it *)

Lemma inv_elapses w w' : elapses w w' -> members_inv w -> members_inv w'.
Proof.
  intros He Hi. pose proof (elapses_later _ _ He) as Hl.
  destruct He as (time & redis & hosts & open & claims & -> & _ & _ & _ & _ & Hhosts & Hopen & _). cbn in *.
  assert (forall tx x, open !! tx = Some x -> w_open w !! tx = Some x) as Ho by (intros; by eapply lookup_weaken).
  destruct Hi. split; cbn in *.
  - exact Hhosts.
  - done.
  - intros c pk row [?|?]%mi_rows0; [by left|right]. by eapply row_ok_later.
  - done.
  - eauto.
  - intros tx t ws c pk row Htx Hin. destruct (mi_pending0 tx t ws c pk row); [auto|done|]. split; [done|by eapply row_ok_later].
  - eauto.
  - done.
  - eauto.
  - intros payload t Hin. eapply signed_ok_later; [exact Hl|eauto].
Qed.

(** The calls that leave the members, the open transactions and the signatures as they are. *)
Definition idle {R} (c : RelayCall R) : Prop :=
  match c with
  | Begin | Rollback _ | Commit _ | InsertMember _ _ _ _ _ | InsertAcceptance _ _ _ _
  | DeleteUnlessOwner _ _ | DeleteIfRole _ _ _ | UpdateRole _ _ _ | Hmac _ _ => False
  | _ => True
  end.

Lemma effect_idle R (c : RelayCall R) w w' r :
  idle c -> relay_effect state skew R c w w' r ->
  w_hosts w' = w_hosts w /\ w_members w' = w_members w /\ w_accepted w' = w_accepted w /\ w_open w' = w_open w /\
  w_next_tx w' = w_next_tx w /\ w_macs w' = w_macs w.
Proof.
  destruct c; cbn [relay_effect idle]; intros Hq He; try done;
    try (destruct He as [-> _]; done); try (subst w'; done).
  - by destruct He as [[_ ->]|[(_ & -> & _)|(_ & _ & ->)]].
  - by destruct He as [[_ ->]|[-> _]].
  - by destruct He as [_ ->].
Qed.

Lemma inv_same w w' :
  later w w' -> w_hosts w' = w_hosts w /\ w_members w' = w_members w /\ w_accepted w' = w_accepted w /\
    w_open w' = w_open w /\ w_next_tx w' = w_next_tx w /\ w_macs w' = w_macs w ->
  members_inv w -> members_inv w'.
Proof.
  intros Hl (Eh & Em & Ea & Eo & En & Es) []. split; rewrite ?Eh, ?Em, ?Ea, ?Eo, ?En, ?Es; try done.
  - intros c pk row [?|?]%mi_rows0; [by left|right]. by eapply row_ok_later.
  - intros tx t ws c pk row Htx Hin. destruct (mi_pending0 tx t ws c pk row Htx Hin). split; [done|by eapply row_ok_later].
  - intros payload t Hin. eapply signed_ok_later; [exact Hl|eauto].
Qed.

(** A change of the committed tables, by a statement of its own. *)
Lemma inv_set_tables w members accepted :
  members_inv w ->
  base ⊆ members ->
  (forall c pk row, members !! (c, pk) = Some row ->
     w_members w !! (c, pk) = Some row /\ (forall v, (c, pk, v) ∈ w_accepted w -> (c, pk, v) ∈ accepted) \/
     (base !! (c, pk) = None /\ row_ok w c pk row /\
      (rm_added_by row = Some "invite" -> forall policy, join_policy state = Some policy ->
         (c, pk, jp_version policy) ∈ accepted))) ->
  (forall tx t ws c pk row, w_open w !! tx = Some (t, ws) -> WroteMember c pk row ∈ ws -> members !! (c, pk) = None) ->
  (forall c pk v, (c, pk, v) ∈ accepted -> is_Some (members !! (c, pk))) ->
  (forall tx t ws c pk v, w_open w !! tx = Some (t, ws) -> WroteAcceptance c pk v ∈ ws ->
     is_Some (w_members w !! (c, pk)) -> is_Some (members !! (c, pk))) ->
  members_inv (set_tables members accepted w).
Proof.
  intros [] Hbase Hrows Hpend Hfk Hrefers. pose proof (set_tables_later members accepted w) as Hl. split; cbn; try done.
  - intros c pk row Hlk. destruct (Hrows c pk row Hlk) as [[Hold _]|(_ & Hok & _)].
    + destruct (mi_rows0 c pk row Hold) as [?|?]; [by left|right]. by eapply row_ok_later.
    + right. by eapply row_ok_later.
  - intros policy c pk row Hp Hlk Hb Hby. destruct (Hrows c pk row Hlk) as [[Hold Ha]|(_ & _ & Ha)]; [|by apply Ha].
    apply Ha. by eapply mi_accepted0.
  - intros tx t ws c pk row Htx Hin. split; [by eapply Hpend|]. eapply row_ok_later; [exact Hl|]. by eapply mi_pending0.
  - intros tx t ws c pk v Htx Hin. destruct (mi_refers0 _ _ _ _ _ _ Htx Hin); [by left|right; by eapply Hrefers].
  - intros payload t Hin. eapply signed_ok_later; [exact Hl|eauto].
Qed.

Hypothesis base_owners : forall k row, base !! k = Some row -> rm_role row = "owner" /\ rm_added_by row = None.

Lemma base_role w c pk row :
  members_inv w -> w_members w !! (c, pk) = Some row -> rm_role row <> "owner" -> base !! (c, pk) = None.
Proof.
  intros Hi Hlk Hr. destruct (base !! (c, pk)) as [row0|] eqn:Hb; [|done].
  pose proof (lookup_weaken _ _ _ _ Hb (mi_base _ Hi)) as Hlk'. rewrite Hlk in Hlk'. injection Hlk' as <-.
  by destruct (base_owners _ _ Hb).
Qed.

Lemma inv_delete w c pk row :
  members_inv w -> w_members w !! (c, pk) = Some row -> rm_role row <> "owner" -> unlocked w None (c, pk) ->
  members_inv (delete_member (c, pk) w).
Proof.
  intros Hi Hlk Hr Hunl. pose proof (base_role _ _ _ _ Hi Hlk Hr) as Hb. apply inv_set_tables; [done|..].
  - apply map_subseteq_spec. intros k x Hk. rewrite lookup_delete_ne; [by eapply lookup_weaken, mi_base|].
    intros <-. congruence.
  - intros c' pk' row' [Hne Hlk']%lookup_delete_Some. left. split; [done|]. intros v Hv.
    unfold without_member. apply elem_of_filter. split; [|done]. cbn. congruence.
  - intros tx t ws c' pk' row' Htx Hin. apply lookup_delete_None. right. by eapply mi_pending.
  - intros c' pk' v [Hne Hv]%elem_of_filter. rewrite lookup_delete_ne; [by eapply mi_fk|]. cbn in Hne. congruence.
  - intros tx t ws c' pk' v Htx Hin Hs. rewrite lookup_delete_ne; [done|]. intros [= <- <-].
    eapply (Hunl tx); [done..|]. by apply (list_elem_of_fmap_2 write_key) in Hin.
Qed.

Lemma inv_update w c pk role now row :
  members_inv w -> w_members w !! (c, pk) = Some row -> rm_role row <> "owner" ->
  role = "member" \/ role = "admin" /\ made_admin w c pk ->
  members_inv (set_tables (<[(c, pk) := set_role role now row]> (w_members w)) (w_accepted w) w).
Proof.
  intros Hi Hlk Hr Hrole. pose proof (base_role _ _ _ _ Hi Hlk Hr) as Hb. apply inv_set_tables; [done|..].
  - apply map_subseteq_spec. intros k x Hk. rewrite lookup_insert_ne; [by eapply lookup_weaken, mi_base|].
    intros <-. congruence.
  - intros c' pk' row' [[[= <- <-] <-]|[_ Hlk']]%lookup_insert_Some; [right|by left]. split; [done|].
    destruct (mi_rows _ Hi c pk row Hlk) as [|[Ha _]]; [congruence|]. split; [by split|].
    cbn. intros Hby policy Hp. by eapply mi_accepted.
  - intros tx t ws c' pk' row' Htx Hin. apply lookup_insert_None.
    destruct (mi_pending _ Hi _ _ _ _ _ _ Htx Hin) as [Hnone _]. split; [done|]. intros [= <- <-]. congruence.
  - intros c' pk' v Hv. apply lookup_insert_is_Some'. right. by eapply mi_fk.
  - intros tx t ws c' pk' v _ _ Hsome. apply lookup_insert_is_Some'. by right.
Qed.

Lemma inv_insert w c pk role sender now :
  members_inv w -> w_members w !! (c, pk) = None -> unlocked w None (c, pk) ->
  added w c pk sender -> sender <> "invite" -> role = "member" \/ role = "admin" /\ made_admin w c pk ->
  members_inv (set_tables (<[(c, pk) := new_member role (Some sender) now]> (w_members w)) (w_accepted w) w).
Proof.
  intros Hi Hnone Hunl Hadd Hs Hrole.
  assert (base !! (c, pk) = None) as Hb by by eapply lookup_weaken_None, mi_base. apply inv_set_tables; [done|..].
  - etrans; [apply (mi_base _ Hi)|]. by apply insert_subseteq.
  - intros c' pk' row' [[[= <- <-] <-]|[_ Hlk']]%lookup_insert_Some; [right|by left]. split; [done|].
    split; [split; [right; eauto|done]|]. cbn. congruence.
  - intros tx t ws c' pk' row' Htx Hin. apply lookup_insert_None. split; [by eapply mi_pending|].
    intros [= <- <-]. eapply (Hunl tx); [done..|]. by apply (list_elem_of_fmap_2 write_key) in Hin.
  - intros c' pk' v Hv. apply lookup_insert_is_Some'. right. by eapply mi_fk.
  - intros tx t ws c' pk' v _ _ Hsome. apply lookup_insert_is_Some'. by right.
Qed.

(** ** Transactions *)

Lemma seen_snoc w ws u : seen w (ws ++ [u]) = apply_write (seen w ws) u.
Proof. unfold seen. by rewrite foldl_snoc. Qed.

Lemma seen_members w ws c pk row :
  (seen w ws).1 !! (c, pk) = Some row -> w_members w !! (c, pk) = Some row \/ WroteMember c pk row ∈ ws.
Proof.
  induction ws as [|u ws IH] using rev_ind; [by left|]. rewrite seen_snoc, elem_of_app.
  destruct u as [c' pk' row'|c' pk' v]; cbn; [|intros ?; destruct IH; auto].
  intros [[[= -> ->] ->]|[_ Hlk]]%lookup_insert_Some; [right; right; by left|]. destruct IH; auto.
Qed.

Lemma seen_kept w ws c pk :
  ~ writes_member ws (c, pk) -> (seen w ws).1 !! (c, pk) = w_members w !! (c, pk).
Proof.
  induction ws as [|u ws IH] using rev_ind; [done|]. rewrite seen_snoc. intros Hn.
  assert (~ writes_member ws (c, pk)) as Hn' by (intros [row Hin]; apply Hn; exists row; apply elem_of_app; by left).
  destruct u as [c' pk' row'|c' pk' v]; cbn; [|by apply IH]. rewrite lookup_insert_ne; [by apply IH|].
  intros [= -> ->]. apply Hn. exists row'. apply elem_of_app. right. by left.
Qed.

Lemma seen_written w ws k : writes_member ws k -> is_Some ((seen w ws).1 !! k).
Proof.
  induction ws as [|u ws IH] using rev_ind; [by intros [? ?%elem_of_nil]|]. rewrite seen_snoc.
  intros [row [Hin|Hin%list_elem_of_singleton]%elem_of_app].
  - assert (is_Some ((seen w ws).1 !! k)) as Hs by (apply IH; by exists row).
    destruct u as [c' pk' row'|c' pk' v]; cbn; [|done]. rewrite lookup_insert. case_decide; [done|exact Hs].
  - subst u. destruct k as [c pk]. cbn. by rewrite lookup_insert_eq.
Qed.

Lemma seen_accepted w ws c pk v :
  (c, pk, v) ∈ (seen w ws).2 <-> (c, pk, v) ∈ w_accepted w \/ WroteAcceptance c pk v ∈ ws.
Proof.
  induction ws as [|u ws IH] using rev_ind; [cbn; rewrite elem_of_nil; naive_solver|].
  rewrite seen_snoc, elem_of_app, list_elem_of_singleton. destruct u as [c' pk' row'|c' pk' v']; cbn.
  - rewrite IH. naive_solver.
  - rewrite elem_of_union, elem_of_singleton, IH. naive_solver.
Qed.

Lemma inv_open_tx w tx t ws next :
  members_inv w -> (tx < next)%N -> (w_next_tx w <= next)%N ->
  (forall c pk row, WroteMember c pk row ∈ ws -> w_members w !! (c, pk) = None /\ row_ok w c pk row /\
     forall tx' t' ws', tx' <> tx -> w_open w !! tx' = Some (t', ws') -> ~ writes_member ws' (c, pk)) ->
  (forall c pk v, WroteAcceptance c pk v ∈ ws -> writes_member ws (c, pk) \/ is_Some (w_members w !! (c, pk))) ->
  members_inv (set_open (<[tx := (t, ws)]> (w_open w)) next w).
Proof.
  intros [] Htx Hnext Hws Hacc. pose proof (set_open_later (<[tx := (t, ws)]> (w_open w)) next w Hnext) as Hl. split; cbn; try done.
  - intros c pk row [?|?]%mi_rows0; [by left|right]. by eapply row_ok_later.
  - intros tx' t' ws' [[<- _]|[_ Hlk%mi_open0]]%lookup_insert_Some; [done|lia].
  - intros tx' t' ws' c pk row [[<- [= <- <-]]|[_ Hlk]]%lookup_insert_Some Hin.
    + destruct (Hws c pk row Hin) as (? & ? & _). split; [done|by eapply row_ok_later].
    + destruct (mi_pending0 _ _ _ _ _ _ Hlk Hin). split; [done|by eapply row_ok_later].
  - intros tx1 t1 ws1 tx2 t2 ws2 [c pk] [[<- [= <- <-]]|[Hne1 H1']]%lookup_insert_Some
      [[<- [= <- <-]]|[Hne2 H2']]%lookup_insert_Some Hne Hw1; [done|..].
    + destruct Hw1 as [row Hin]. destruct (Hws c pk row Hin) as (_ & _ & Ho). by apply (Ho tx2 t2).
    + intros [row Hin]. destruct (Hws c pk row Hin) as (_ & _ & Ho). by apply (Ho tx1 t1 ws1).
    + exact (mi_apart0 _ _ _ _ _ _ _ H1' H2' Hne Hw1).
  - intros tx' t' ws' c pk v [[<- [= <- <-]]|[_ Hlk]]%lookup_insert_Some Hin; eauto.
Qed.

Lemma inv_close w tx :
  members_inv w -> members_inv (set_open (delete tx (w_open w)) (w_next_tx w) w).
Proof.
  intros []. pose proof (set_open_later (delete tx (w_open w)) (w_next_tx w) w ltac:(lia)) as Hl. split; cbn; try done.
  - intros c pk row [?|?]%mi_rows0; [by left|right]. by eapply row_ok_later.
  - intros tx' t' ws' [_ Hlk]%lookup_delete_Some. eauto.
  - intros tx' t' ws' c pk row [_ Hlk]%lookup_delete_Some Hin. destruct (mi_pending0 _ _ _ _ _ _ Hlk Hin).
    split; [done|by eapply row_ok_later].
  - intros tx1 t1 ws1 tx2 t2 ws2 k [_ H1']%lookup_delete_Some [_ H2']%lookup_delete_Some. by apply (mi_apart0 _ _ _ _ _ _ _ H1' H2').
  - intros tx' t' ws' c pk v [_ Hlk]%lookup_delete_Some. eauto.
Qed.

Lemma inv_commit w tx t ws :
  members_inv w -> w_open w !! tx = Some (t, ws) -> complete ws ->
  members_inv (set_open (delete tx (w_open w)) (w_next_tx w) (set_tables (seen w ws).1 (seen w ws).2 w)).
Proof.
  intros Hi Htx Hc. set (w1 := set_open (delete tx (w_open w)) (w_next_tx w) w).
  change (members_inv (set_tables (seen w ws).1 (seen w ws).2 w1)).
  assert (later w w1) as Hl by (apply set_open_later; lia).
  assert (forall c pk, is_Some (w_members w !! (c, pk)) -> ~ writes_member ws (c, pk)) as Hdis.
  { intros c pk [r Hr] [row Hin]. destruct (mi_pending _ Hi _ _ _ _ _ _ Htx Hin). cbn in *. congruence. }
  apply inv_set_tables; [by apply inv_close|..].
  - apply map_subseteq_spec. intros [c pk] row Hb. pose proof (lookup_weaken _ _ _ _ Hb (mi_base _ Hi)).
    rewrite seen_kept; [done|]. by apply Hdis.
  - intros c pk row [Hlk|Hin]%seen_members.
    + left. split; [done|]. intros v Hv. apply seen_accepted. by left.
    + right. destruct (mi_pending _ Hi _ _ _ _ _ _ Htx Hin) as [Hnone Hok].
      split; [by eapply lookup_weaken_None, mi_base|]. split; [by eapply row_ok_later|].
      intros Hby policy Hp. apply seen_accepted. right. by eapply Hc.
  - intros tx' t' ws' c pk row Hlk0 Hin. cbn in Hlk0. apply lookup_delete_Some in Hlk0 as [Hne Hlk].
    destruct (mi_pending _ Hi _ _ _ _ _ _ Hlk Hin) as [Hnone _]. rewrite seen_kept; [done|].
    intros Hw. eapply (mi_apart _ Hi tx t ws tx' t' ws'); [done..|by exists row].
  - intros c pk v [Hv|Hv]%seen_accepted.
    + rewrite seen_kept; [by eapply mi_fk|]. apply Hdis. by eapply mi_fk.
    + destruct (mi_refers _ Hi _ _ _ _ _ _ Htx Hv) as [?|?]; [by apply seen_written|].
      rewrite seen_kept; [done|by apply Hdis].
  - intros tx' t' ws' c pk v _ _ Hs. rewrite seen_kept; [done|by apply Hdis].
Qed.

Lemma inv_mac w payload :
  members_inv w -> signed_ok w payload -> members_inv (add_mac (invite_key state, payload, w_time w) w).
Proof.
  intros [] Hp. assert (later w (add_mac (invite_key state, payload, w_time w) w)) as Hl
    by (split; cbn; try done; by apply prefix_app_r).
  split; cbn; try done.
  - intros c pk row [?|?]%mi_rows0; [by left|right]. by eapply row_ok_later.
  - intros tx t ws c pk row Htx Hin. destruct (mi_pending0 tx t ws c pk row Htx Hin). split; [done|by eapply row_ok_later].
  - intros payload' t [Hin|[= -> _]%list_elem_of_singleton]%elem_of_app; (eapply signed_ok_later; [exact Hl|eauto]).
Qed.

(** ** Verifying the handlers

    A task owns the transaction it has begun. *)

Definition tx_busy (w : World) (tx : Tx) : Prop := (tx < w_next_tx w)%N.

Definition tx_rely (h : option Tx) (w w' : World) : Prop :=
  later w w' /\ forall tx x, h = Some tx -> w_open w' !! tx = Some x -> w_open w !! tx = Some x.

#[local] Instance tx_rely_preorder h : PreOrder (tx_rely h).
Proof.
  split; [by intros w|]. intros w1 w2 w3 [Hl1 H1'] [Hl2 H2']. split; [by etrans|]. eauto.
Qed.

Lemma tx_rely_later h w w' : tx_rely h w w' -> later w w'.
Proof. by intros [? _]. Qed.

Lemma tx_rely_busy tx w w' : tx_rely (Some tx) w w' -> tx_busy w tx -> tx_busy w' tx.
Proof. intros [Hl _]. pose proof (later_next _ _ Hl). unfold tx_busy. lia. Qed.

Notation mowp := (owp answer members_inv tx_busy tx_rely).
Notation mowp_seq := (owp_seq answer members_inv tx_busy tx_rely).

Lemma elapses_open w w0 tx x : elapses w w0 -> w_open w0 !! tx = Some x -> w_open w !! tx = Some x.
Proof. intros (time & redis & hosts & open & claims & -> & _ & _ & _ & _ & _ & Ho & _) Hx. by eapply lookup_weaken. Qed.

(** Any call, by what it does in a world that has gone on; [h'] is held afterwards. *)
Lemma mowp_do {A R} h (c : RelayCall R) (k : R -> RelayProg A) w Q :
  (forall w0 w2 r, tx_rely h w w0 -> later w w2 -> members_inv w0 -> relay_effect state skew R c w0 w2 r ->
     members_inv w2 /\
     (forall tx x, h <> Some tx -> tx_busy w0 tx -> w_open w2 !! tx = Some x -> w_open w0 !! tx = Some x) /\
     exists h', (forall tx, h' = Some tx -> tx_busy w2 tx /\ (h = Some tx \/ ~ tx_busy w0 tx)) /\ mowp h' (k r) w2 Q) ->
  mowp h (Do c k) w Q.
Proof.
  intros Hc w1 w2 r Hr Hi1 Ha. pose proof (answer_later _ _ _ _ _ _ _ Ha) as Hl.
  destruct Ha as (w0 & Hel & He). pose proof (inv_elapses _ _ Hel Hi1) as Hi0.
  assert (tx_rely h w1 w0) as Hr0 by (split; [by apply elapses_later|intros; by eapply elapses_open]).
  assert (w_next_tx w0 = w_next_tx w1) as En by (by destruct Hel as (? & ? & ? & ? & ? & -> & _)).
  destruct (Hc w0 w2 r) as (Hi2 & Hother & h' & Hh' & Hk); [by etrans|etrans; [apply Hr|exact Hl]|done|done|].
  split; [done|]. split; [|exists h'; unfold tx_busy in *; rewrite <-En; auto].
  intros h2 Hh2. split; [done|]. intros tx x -> Hx. destruct (Hh2 tx eq_refl) as [Hb Hne].
  eapply elapses_open; [exact Hel|]. apply Hother; [done| |done]. unfold tx_busy in *. by rewrite En.
Qed.

(** A statement outside transactions. *)
Lemma mowp_statement {A R} (c : RelayCall R) (k : R -> RelayProg A) w Q :
  (forall w0 w2 r, later w w0 -> later w w2 -> members_inv w0 -> relay_effect state skew R c w0 w2 r ->
     members_inv w2 /\ w_open w2 = w_open w0 /\ (members_inv w2 -> mowp None (k r) w2 Q)) ->
  mowp None (Do c k) w Q.
Proof.
  intros Hc. apply mowp_do. intros w0 w2 r Hr Hl Hi0 He.
  destruct (Hc w0 w2 r (tx_rely_later _ _ _ Hr) Hl Hi0 He) as (Hi2 & -> & Hk).
  split; [done|]. split; [done|]. exists None. split; [done|by apply Hk].
Qed.

Lemma idle_ok R (c : RelayCall R) w w' r :
  idle c -> answer R c w w' r -> members_inv w -> members_inv w' /\ forall h, tx_rely h w w'.
Proof.
  intros Hc Ha Hi. pose proof (answer_later _ _ _ _ _ _ _ Ha) as Hl. destruct Ha as (w0 & Hel & He).
  pose proof (effect_idle _ _ _ _ _ Hc He) as Hs. split.
  - eapply inv_same; [by eapply effect_later|exact Hs|by eapply inv_elapses].
  - intros h. split; [done|]. intros tx x _ Hx. eapply elapses_open; [exact Hel|]. by destruct Hs as (_ & _ & _ & <- & _).
Qed.

Notation only_idle := (only (@idle)).

Lemma mowp_idle {A} h (p : RelayProg A) w Q :
  only_idle p -> holds tx_busy h w -> (forall a w1, later w w1 -> members_inv w1 -> Q h a w1) -> mowp h p w Q.
Proof.
  intros Hp Hh HQ. by apply (relay_only state skew members_inv tx_busy tx_rely tx_rely_later tx_rely_busy (@idle) idle_ok).
Qed.

(** A call that changes nothing, by its effect. *)
Lemma mowp_idle_call {A R} h (c : RelayCall R) (k : R -> RelayProg A) w Q :
  idle c -> holds tx_busy h w ->
  (forall w0 w2 r, later w w2 -> tx_rely h w w2 -> relay_effect state skew R c w0 w2 r -> later w w0 -> members_inv w2 ->
     mowp h (k r) w2 Q) -> mowp h (Do c k) w Q.
Proof.
  intros Hc Hh Hk.
  apply (relay_quiet state skew members_inv tx_busy tx_rely tx_rely_later tx_rely_busy (@idle) idle_ok); [done..|].
  intros w1 w2 r Hr Hl (w0 & Hel & He) Hi _. apply (Hk w0); [by eapply tx_rely_later|done|done| |done].
  etrans; [exact Hl|by apply elapses_later].
Qed.

(** ** Claims *)

Definition mine (tx : Tx) (P : list Write -> Prop) (w : World) : Prop :=
  forall t ws, w_open w !! tx = Some (t, ws) -> P ws.

Lemma mine_rely tx P w w' : tx_rely (Some tx) w w' -> mine tx P w -> mine tx P w'.
Proof. intros [_ Ho] Hm t ws Hx. eapply Hm. by apply (Ho tx). Qed.

Lemma mowp_begin {A} (k : Result Tx string -> RelayProg A) w Q :
  (forall w2 tx, later w w2 -> members_inv w2 -> tx_busy w2 tx -> mine tx (fun ws => ws = []) w2 ->
     mowp (Some tx) (k (Ok tx)) w2 Q) ->
  (forall w2 e, later w w2 -> members_inv w2 -> mowp None (k (Err e)) w2 Q) ->
  mowp None (Do Begin k) w Q.
Proof.
  intros Hok Herr. apply mowp_do. intros w0 w2 r Hr Hl Hi0 [[[e ->] ->]|[-> Hran]].
  - split; [done|]. split; [done|]. exists None. split; [done|by apply Herr].
  - assert (members_inv (set_open (<[w_next_tx w0 := (w_time w0, [])]> (w_open w0)) (w_next_tx w0 + 1)%N w0)) as Hi2.
    { apply inv_open_tx; [done|lia|lia|..]; by intros ??? ?%elem_of_nil. }
    split; [done|]. split.
    { intros tx x _ Hb. cbn. intros [[<- _]|[_ Hx]]%lookup_insert_Some; [|done]. unfold tx_busy in Hb. lia. }
    destruct Hran as [->|[e ->]].
    + exists (Some (w_next_tx w0)). split; [intros tx [= <-]; unfold tx_busy; cbn; split; [lia|right; lia]|].
      apply Hok; [done|done|unfold tx_busy; cbn; lia|]. intros t ws. cbn. rewrite lookup_insert_eq. by intros [= _ <-].
    + exists None. split; [done|]. by apply Herr.
Qed.

(** A statement of the task's own transaction. *)
Lemma mowp_tx {A R} tx (c : RelayCall R) (k : R -> RelayProg A) w P Q :
  mine tx P w -> tx_busy w tx ->
  (forall w0 w2 r, later w w0 -> later w w2 -> members_inv w0 -> mine tx P w0 -> tx_busy w0 tx ->
     relay_effect state skew R c w0 w2 r ->
     members_inv w2 /\ (forall tx', tx' <> tx -> w_open w2 !! tx' = w_open w0 !! tx') /\
     (members_inv w2 -> tx_busy w2 tx -> mowp (Some tx) (k r) w2 Q)) ->
  mowp (Some tx) (Do c k) w Q.
Proof.
  intros Hm Hb Hc. apply mowp_do. intros w0 w2 r Hr Hl Hi0 He.
  pose proof (tx_rely_busy _ _ _ Hr Hb) as Hb0.
  destruct (Hc w0 w2 r (tx_rely_later _ _ _ Hr) Hl Hi0 (mine_rely _ _ _ _ Hr Hm) Hb0 He) as (Hi2 & Ho & Hk).
  assert (tx_busy w2 tx) as Hb2.
  { pose proof (effect_later _ _ _ _ _ _ _ He) as Hl2%later_next. unfold tx_busy in *. lia. }
  split; [done|]. split; [intros tx' x Hne _; rewrite Ho; [done|congruence]|].
  exists (Some tx). split; [intros ? [= <-]; auto|]. auto.
Qed.

Lemma ever_now w c pk row : w_members w !! (c, pk) = Some row -> ever w c pk (rm_role row).
Proof. intros Hlk. exists (w_members w), row. split; [by left|done]. Qed.

Definition was_member (w : World) (c : CommunityId) (pk : string) : Prop := exists role, ever w c pk role.

Lemma was_member_later w w' c pk : later w w' -> was_member w c pk -> was_member w' c pk.
Proof. intros Hl [role He]. exists role. by eapply ever_later. Qed.

(** The writes of a claim after its first statement, which answered. *)
Definition inserted (c : CommunityId) (pk : string) (w : World) (ws : list Write) : Prop :=
  ws = [] /\ was_member w c pk \/ exists now, ws = [WroteMember c pk (new_member "member" (Some "invite") now)].

Definition claimed (c : CommunityId) (pk : string) (w : World) (ws : list Write) : Prop :=
  complete ws /\ (writes_member ws (c, pk) \/ was_member w c pk).

Lemma inserted_claimed c pk w ws ws' :
  inserted c pk w ws ->
  ws' = ws /\ join_policy state = None \/
    (exists policy, join_policy state = Some policy /\ ws' = ws ++ [WroteAcceptance c pk (jp_version policy)]) ->
  claimed c pk w ws'.
Proof.
  intros Hins Hws'. split.
  - intros policy c' pk' row Hp Hin _. destruct Hws' as [[_ ?]|(policy' & Hp' & ->)]; [congruence|].
    rewrite Hp in Hp'. injection Hp' as <-. rewrite elem_of_app, list_elem_of_singleton in Hin |- *.
    destruct Hin as [Hin|?]; [|done]. destruct Hins as [[-> _]|[now ->]]; [by apply elem_of_nil in Hin|].
    apply list_elem_of_singleton in Hin as [= -> -> _]. by right.
  - destruct Hins as [[_ ?]|[now ->]]; [by right|left].
    exists (new_member "member" (Some "invite") now). destruct Hws' as [[-> _]|(policy & _ & ->)]; [by left|].
    apply elem_of_app. left. by left.
Qed.

(** The first statement of a claim. *)
Lemma mowp_claim_insert {A} tx c pk (k : Result bool string -> RelayProg A) w Q :
  mine tx (fun ws => ws = []) w -> tx_busy w tx -> invited w c pk ->
  (forall w2 b, later w w2 -> members_inv w2 -> tx_busy w2 tx -> mine tx (inserted c pk w2) w2 ->
     mowp (Some tx) (k (Ok b)) w2 Q) ->
  (forall w2 e, members_inv w2 -> tx_busy w2 tx -> mowp (Some tx) (k (Err e)) w2 Q) ->
  mowp (Some tx) (Do (InsertMember (Some tx) c pk "member" (Some "invite")) k) w Q.
Proof.
  intros Hm Hb Hinv Hok Herr. eapply mowp_tx; [exact Hm|done|].
  intros w0 w2 r Hl0 Hl2 Hi0 Hm0 Hb0 [[[e ->] ->]|(t & ws & Htx & Hcase)]; [by auto|].
  pose proof (Hm0 _ _ Htx) as ->. cbn in Hcase.
  destruct Hcase as [([row Hrow] & -> & Hran)|(Hnone & _ & Hunl & Hran & ->)].
  - split; [done|]. split; [done|]. intros _ _. destruct Hran as [->|[e ->]]; [|by apply Herr].
    apply Hok; [done..|]. intros t' ws' Htx'. rewrite Htx in Htx'. injection Htx' as _ <-. left.
    split; [done|]. exists (rm_role row). by apply ever_now.
  - split; [|split].
    + apply inv_open_tx; [done|exact Hb0|done| |by intros c' pk' v ?%list_elem_of_singleton].
      intros c' pk' row' [= -> -> ->]%list_elem_of_singleton.
      split; [done|]. split.
      * split; [left; split; [done|by eapply invited_later]|by left].
      * intros tx' t' ws' Hne Htx' [row'' Hin]. eapply (Hunl tx'); [exact Htx'|congruence|].
        by apply (list_elem_of_fmap_2 write_key) in Hin.
    + intros tx' Hne. cbn. by rewrite lookup_insert_ne.
    + intros Hi2 Hb2. destruct Hran as [->|[e ->]]; [|by apply Herr]. apply Hok; [done..|].
      intros t' ws'. cbn. rewrite lookup_insert_eq. intros [= _ <-]. right. eauto.
Qed.

(** The acceptance of the policy, if there is one. *)
Lemma mowp_claim_accept {A} tx c pk (k : Result unit string -> RelayProg A) w Q :
  mine tx (inserted c pk w) w -> tx_busy w tx -> members_inv w ->
  (forall w2, later w w2 -> members_inv w2 -> tx_busy w2 tx -> mine tx (claimed c pk w2) w2 ->
     mowp (Some tx) (k (Ok tt)) w2 Q) ->
  (forall w2 e, members_inv w2 -> tx_busy w2 tx -> mowp (Some tx) (k (Err e)) w2 Q) ->
  mowp (Some tx) (bind (match jp_version <$> join_policy state with
                        | Some version => call (InsertAcceptance tx c pk version)
                        | None => Ret (Ok tt)
                        end) k) w Q.
Proof.
  intros Hm Hb Hi Hok Herr.
  assert (forall w' ws, later w w' -> inserted c pk w ws -> inserted c pk w' ws) as Hins.
  { intros w' ws Hl [[-> ?]|?]; [left; split; [done|by eapply was_member_later]|by right]. }
  destruct (join_policy state) as [policy|] eqn:Hp; cbn [fmap option_fmap option_map bind].
  - eapply mowp_tx; [exact Hm|done|].
    intros w0 w2 r Hl0 Hl2 Hi0 Hm0 Hb0 [[[e ->] ->]|(t & ws & Htx & Hran & Hcase)]; [by auto|].
    pose proof (Hm0 _ _ Htx) as Hws.
    destruct Hcase as [[Hv ->]|[Hsome ->]].
    + split; [done|]. split; [done|]. intros _ _. destruct Hran as [->|[e ->]]; [|by apply Herr].
      apply Hok; [done..|]. intros t' ws' Htx'. rewrite Htx in Htx'. injection Htx' as _ <-.
      destruct Hws as [[-> Hwas]|[now ->]].
      * split; [by intros ????? ?%elem_of_nil|]. right. by eapply was_member_later.
      * exfalso. apply seen_accepted in Hv as [Hv|?%list_elem_of_singleton]; [|done].
        destruct (mi_pending _ Hi0 _ _ _ c pk _ Htx ltac:(by left)) as [Hnone _].
        destruct (mi_fk _ Hi0 _ _ _ Hv). congruence.
    + split; [|split].
      * apply inv_open_tx; [done|exact Hb0|done|..].
        -- intros c' pk' row [Hin|?%list_elem_of_singleton]%elem_of_app; [|done].
           destruct (mi_pending _ Hi0 _ _ _ _ _ _ Htx Hin). split_and!; [done..|].
           intros tx' t' ws' Hne Htx'. eapply (mi_apart _ Hi0); [exact Htx|exact Htx'|done|by exists row].
        -- intros c' pk' v [Hin|[= -> -> ->]%list_elem_of_singleton]%elem_of_app.
           ++ destruct (mi_refers _ Hi0 _ _ _ _ _ _ Htx Hin) as [[row ?]|?]; [left|by right].
              exists row. apply elem_of_app. by left.
           ++ destruct Hsome as [row [?|?]%seen_members]; [right; eauto|left].
              exists row. apply elem_of_app. by left.
      * intros tx' Hne. cbn. by rewrite lookup_insert_ne.
      * intros Hi2 Hb2. destruct Hran as [->|[e ->]]; [|by apply Herr]. apply Hok; [done..|].
        intros t' ws'. cbn. rewrite lookup_insert_eq. intros [= _ <-].
        eapply inserted_claimed; [by apply Hins|]. right. eauto.
  - apply Hok; [done..|]. intros t ws Hx. eapply inserted_claimed; [by eapply Hm|]. by left.
Qed.

(** The commit. *)
Lemma mowp_claim_commit {A} tx c pk (k : Result unit string -> RelayProg A) w Q :
  mine tx (claimed c pk w) w -> tx_busy w tx ->
  (forall w2, later w w2 -> members_inv w2 -> tx_busy w2 tx -> was_member w2 c pk -> mowp (Some tx) (k (Ok tt)) w2 Q) ->
  (forall w2 e, members_inv w2 -> tx_busy w2 tx -> mowp (Some tx) (k (Err e)) w2 Q) ->
  mowp (Some tx) (Do (Commit tx) k) w Q.
Proof.
  intros Hm Hb Hok Herr. eapply mowp_tx; [exact Hm|done|].
  intros w0 w2 r Hl0 Hl2 Hi0 Hm0 Hb0 [[[e ->] Hw2]|(t & ws & Htx & Hran & ->)].
  - destruct Hw2 as [->| ->]; [by auto|]. split; [by apply inv_close|]. split; [|by auto].
    intros tx' Hne. cbn. by rewrite lookup_delete_ne.
  - pose proof (Hm0 _ _ Htx) as [Hcomplete Hwas]. split; [by apply inv_commit with t|]. split.
    + intros tx' Hne. cbn. by rewrite lookup_delete_ne.
    + intros Hi2 Hb2. destruct Hran as [->|[e ->]]; [|by apply Herr]. apply Hok; [done..|].
      destruct Hwas as [[row Hrow]%(seen_written w0)|?]; [|by eapply was_member_later].
      exists (rm_role row). by apply ever_now.
Qed.

Lemma mowp_claim_statements tx c pk w :
  mine tx (fun ws => ws = []) w -> tx_busy w tx -> invited w c pk ->
  mowp (Some tx) (claim_statements tx c pk "member" (jp_version <$> join_policy state)) w
    (fun h r w1 => h = Some tx /\ tx_busy w1 tx /\ forall b, r = Ok b -> was_member w1 c pk).
Proof.
  intros Hm Hb Hinv.
  assert (forall w3 e, members_inv w3 -> tx_busy w3 tx -> mowp (Some tx) (Ret (Err e : Result bool string)) w3
      (fun h r w1 => h = Some tx /\ tx_busy w1 tx /\ forall b, r = Ok b -> was_member w1 c pk)) as Herr.
  { intros w3 e _ Hb3 w4 Hr4 _. split; [done|]. split; [by eapply tx_rely_busy|done]. }
  unfold claim_statements, bind_ok. cbn [bind Concurrent.call].
  apply mowp_claim_insert; [done..| |exact Herr]. intros w3 b Hl3 Hi3 Hb3 Hm3.
  apply mowp_claim_accept; [done..| |exact Herr]. intros w4 Hl4 Hi4 Hb4 Hm4. cbn [bind].
  apply (mowp_claim_commit tx c pk); [done..| |exact Herr]. intros w5 Hl5 Hi5 Hb5 Hwas w6 Hr6 _.
  split; [done|]. split; [by eapply tx_rely_busy|]. intros _ _. eapply was_member_later; [by eapply tx_rely_later|done].
Qed.

Lemma mowp_claim_membership c pk w :
  members_inv w -> invited w c pk ->
  mowp None (claim_relay_membership c pk "member" (jp_version <$> join_policy state)) w
    (fun h r w1 => holds tx_busy h w1 /\ forall b, r = Ok b -> was_member w1 c pk).
Proof.
  intros Hi Hinv. unfold claim_relay_membership, bind_ok. cbn [bind Concurrent.call].
  apply mowp_begin; [|by intros w2 e _ _ w3 _ _]. intros w2 tx Hl Hi2 Hb Hm.
  eapply mowp_seq; [apply mowp_claim_statements; [done|done|by eapply invited_later]|done|].
  intros h [b|e] w3 Hi3 (-> & Hb3 & Hwas).
  - intros w4 Hr4 _. split; [intros ? [= <-]; by eapply tx_rely_busy|]. intros _ _.
    eapply was_member_later; [by eapply tx_rely_later|by eapply Hwas].
  - apply (mowp_tx _ _ _ _ (fun _ => True)); [done|done|]. intros w4 w5 r _ _ Hi4 _ Hb4 Hw5.
    assert (members_inv w5 /\ forall tx', tx' <> tx -> w_open w5 !! tx' = w_open w4 !! tx') as [? ?].
    { destruct Hw5 as [->| ->]; [done|]. split; [by apply inv_close|]. intros tx' Hne. cbn. by rewrite lookup_delete_ne. }
    split; [done|]. split; [done|]. intros _ Hb5 w6 Hr6 _. split; [|done]. intros ? [= <-]. by eapply tx_rely_busy.
Qed.

(** ** Authentication *)

Lemma mowp_auth headers path body w :
  members_inv w ->
  mowp None (authenticate state headers path body) w
    (fun h r w1 => match r with
                   | Ok (tenant, pk) => authentic state skew (fun h _ _ _ => h = None) headers path body h tenant pk w1
                   | Err _ => True
                   end).
Proof.
  intros Hi.
  apply (owp_authenticate state skew members_inv tx_busy tx_rely tx_rely_later tx_rely_busy (@idle) idle_ok (fun _ => I) I
           (fun h _ _ _ => h = None)); [done| |done].
  intros w1 tenant path' body' ev Hi1 _. apply mowp_idle; [|done|by intros [[]|e]].
  unfold check_nip98_replay, try_mark, try_mark_in_scope. only_calls.
Qed.

(** A signed request, by what its handler does once the caller is known. *)
Lemma mowp_authenticated {A} headers path body
    (f : TenantContext * PublicKey -> RelayProg (Result A ApiError)) w (Q : A -> World -> Prop) :
  members_inv w ->
  (forall tenant ev w1, later w w1 -> members_inv w1 -> request_event headers = Some ev ->
     w_hosts w1 !! request_host headers = Some (tc_community tenant) ->
     asked state skew w1 (tc_community tenant) path body ev ->
     mowp None (f (tenant, pubkey ev)) w1 (fun _ r w2 => forall a, r = Ok a -> Q a w2)) ->
  mowp None (bind_ok (authenticate state headers path body) f) w (fun _ r w2 => forall a, r = Ok a -> Q a w2).
Proof.
  intros Hi Hf. unfold bind_ok. eapply mowp_seq; [|exact Hi|].
  - apply (owp_later state skew members_inv tx_busy tx_rely tx_rely_later _ _ w); [done|by apply mowp_auth].
  - intros h [[tenant pk]|e] w1 Hi1 [Ha Hl]; [|by intros w2 _ _].
    destruct Ha as (_ & Hc & ev & He & -> & Hask & ->). by apply Hf.
Qed.

Notation any := (fun _ _ _ => True).

(** The row of a caller, as it was read. *)
Lemma mowp_select {A} c pk (k : Result (option RelayMember) string -> RelayProg A) w Q :
  (forall w2 row, later w w2 -> members_inv w2 ->
     (forall m, row = Some m -> ever w2 c pk (rm_role m)) -> mowp None (k (Ok row)) w2 Q) ->
  (forall w2 e, members_inv w2 -> mowp None (k (Err e)) w2 Q) ->
  mowp None (Do (SelectMember c pk) k) w Q.
Proof.
  intros Hok Herr. apply mowp_idle_call; [done|done|]. intros w0 w2 r Hl _ [-> [[e ->]| ->]] _ Hi2; [by apply Herr|].
  apply Hok; [done|done|]. intros m Hm. by apply ever_now.
Qed.

Lemma mowp_clock {A} (k : N -> RelayProg A) w Q :
  (forall w2 now, later w w2 -> members_inv w2 -> clock_reads skew (w_time w2) now -> mowp None (k now) w2 Q) ->
  mowp None (Do ReadClock k) w Q.
Proof.
  intros Hk. apply mowp_idle_call; [done|done|]. intros w0 w2 now Hl _ [-> Hc] _ Hi2. by apply Hk.
Qed.

(** A signature under the relay's key. *)
Lemma mowp_sign {A} payload (k : string -> RelayProg A) w Q :
  signed_ok w payload -> (forall w2, later w w2 -> members_inv w2 -> mowp None (k (hmac_sha256 (invite_key state) payload)) w2 Q) ->
  mowp None (Do (Hmac (invite_key state) payload) k) w Q.
Proof.
  intros Hp Hk. apply mowp_statement. intros w0 w2 r Hl0 Hl2 Hi0 [-> ->].
  split; [apply inv_mac; [done|by eapply signed_ok_later]|]. split; [done|]. intros Hi2. by apply Hk.
Qed.

Lemma clamp_range x lo hi : (lo <= hi)%N -> (lo <= clamp x lo hi <= hi)%N.
Proof. intros Hle. unfold clamp. destruct (N.ltb_spec x lo), (N.ltb_spec hi x); lia. Qed.

(** ** Invites *)

Lemma mowp_mint headers body w :
  members_inv w -> mowp None (mint_invite state headers body) w (fun _ r w2 => forall a, r = Ok a -> True).
Proof.
  intros Hi. unfold mint_invite. apply (mowp_authenticated headers _ _ _ _ (fun _ _ => True)); [done|].
  intros tenant ev w1 Hl1 Hi1 Hev Hc Hask. cbn [fst snd]. unfold bind_ok, map_err_await, get_relay_member.
  cbn [bind Concurrent.call]. apply mowp_select; [|by intros w2 e _ w3 _ _]. intros w2 row Hl2 Hi2 Hrow. cbn [bind map_err].
  case_decide as Hrole; [by intros w3 _ _|]. destruct (if decide (body = "") then _ else _) as [request|e]; [|by intros w3 _ _].
  unfold InviteToken.mint_invite, sign_payload. cbn [bind Concurrent.call].
  apply mowp_clock. intros w3 now Hl3 Hi3 Hclock.
  apply mowp_idle_call; [done|done|]. intros w4 w5 nonce Hl5 _ _ _ Hi5.
  apply mowp_sign; [|by intros w6 _ _ w7 _ _].
  left. eexists (tc_community tenant), _. split; [reflexivity|]. split; [done|]. split; [done|].
  exists ev, body, (default "" (rm_role <$> row)), now, (w_time w3).
  assert (later w1 w5) as Hl by (etrans; [exact Hl2|]; by etrans).
  split; [by eapply asked_later|]. split.
  { destruct row as [m|]; cbn in *; [|by destruct Hrole].
    eapply ever_later; [|by apply Hrow]. by etrans. }
  split; [destruct (decide (default "" (rm_role <$> row) = "owner")); [by left|right]; by destruct (decide (default "" (rm_role <$> row) = "admin")); [|destruct Hrole]|].
  split; [apply later_time in Hl5; lia|]. split; [done|]. cbn [ip_e].
  pose proof (clamp_range (default DEFAULT_INVITE_TTL_SECS (mr_ttl_secs request)) 60 MAX_INVITE_TTL_SECS ltac:(done)).
  unfold MAX_INVITE_TTL_SECS in *. lia.
Qed.

Lemma mowp_accept body w : members_inv w -> mowp None (accept_policy state body) w any.
Proof.
  intros Hi. unfold accept_policy. destruct (join_policy state) as [policy|]; [|by intros w2 _ _].
  destruct (accept_from_slice body) as [request|e]; [|by intros w2 _ _].
  destruct (_ || _); [by intros w2 _ _|]. unfold mint_policy_acceptance, sign_payload. cbn [bind Concurrent.call].
  apply mowp_clock. intros w3 now Hl3 Hi3 _. apply mowp_sign; [|by intros w6 _ _ w7 _ _]. right. eauto.
Qed.

(** A code that verifies was minted for the community. *)
Lemma verify_minted w wA c host now code p :
  members_inv w -> later wA w -> presentable state wA code -> w_hosts w !! host = Some c ->
  verify_invite now (invite_key state) c code = Ok p -> minted w c p /\ ip_r p = "member".
Proof.
  intros Hi Hl Hpres Hc. unfold verify_invite. intros (payload & Hopen & Hr)%result_bind_ok.
  apply result_bind_ok in Hr as (p' & Hp%ok_or_ok & Hr).
  destruct (ip_e p' <? now)%N; [done|].
  destruct (String.eqb_spec (ip_c p') (uuid_to_string c)) as [Ec|]; cbn in Hr; [|done].
  destruct (String.eqb_spec (ip_r p') "member") as [Er|]; cbn in Hr; [|done]. injection Hr as <-.
  split; [|done]. apply open_token_ok in Hopen as (a & m & Hs & Ha & Hm).
  destruct (Hpres a m payload Hs Ha Hm) as [t Hin].
  destruct (mi_macs _ Hi payload t) as [(c' & p0 & -> & Hmint)|(acc & ->)].
  - eapply list_elem_of_lookup in Hin as [i Hi']. eapply list_elem_of_lookup_2, prefix_lookup_Some; [exact Hi'|apply (later_macs _ _ Hl)].
  - rewrite invite_round_trip_json in Hp. injection Hp as ->.
    assert (c' = c) as ->; [|done]. destruct Hmint as (Ec' & _ & ev & body & role & now' & t' & (host' & ? & ? & Hh' & _) & _).
    apply uuid_string_inj; [by eapply mi_hosts|by eapply mi_hosts|congruence].
  - by rewrite acceptance_not_invite in Hp.
Qed.

(** [map_err] *)
Lemma mowp_map_err {A E F} (g : E -> F) h (p : RelayProg (Result A E)) w (Q : option Tx -> Result A E -> World -> Prop) :
  mowp h p w Q -> members_inv w ->
  mowp h (map_err_await g p) w (fun h r w1 => exists r0 w0, r = map_err g r0 /\ Q h r0 w0 /\ tx_rely h w0 w1).
Proof.
  intros Hp Hi. eapply mowp_seq; [exact Hp|exact Hi|]. intros h' r w1 _ Hr w2 Hr2 _. eauto.
Qed.

(** What a receipt that was checked shows. *)
Definition policy_accepted (request : ClaimInviteRequest) : Prop :=
  forall policy, join_policy state = Some policy ->
    exists receipt now a, cr_policy_receipt request = Some receipt /\
      verify_policy_acceptance now (invite_key state) receipt (cr_code request) (jp_version policy) = Ok a.

Lemma mowp_receipt request w :
  mowp None (check_receipt state request) w (fun h r _ => h = None /\ forall u, r = Ok u -> policy_accepted request).
Proof.
  unfold check_receipt. destruct (join_policy state) as [policy|] eqn:Hp.
  - destruct (cr_policy_receipt request) as [receipt|] eqn:Hr; [|by intros w1 _ _].
    apply mowp_idle_call; [done|done|]. intros w0 w2 now _ _ _ _ _ w3 _ _. split; [done|]. intros u Hu.
    destruct (verify_policy_acceptance now (invite_key state) receipt (cr_code request) (jp_version policy)) as [a|] eqn:Hv; [|done].
    intros policy' Hp'. rewrite Hp in Hp'. injection Hp' as <-. eauto.
  - intros w1 _ _. split; [done|]. intros u _ policy. congruence.
Qed.

Definition claim_made (headers : HeaderMap) (w : World) : Prop :=
  exists ev c, request_event headers = Some ev /\ w_hosts w !! request_host headers = Some c /\
    was_member w c (pubkey_to_hex (pubkey ev)).

Lemma claim_made_later headers w w' : later w w' -> claim_made headers w -> claim_made headers w'.
Proof.
  intros Hl (ev & c & ? & ? & ?). exists ev, c. split; [done|].
  split; [by eapply lookup_weaken, later_hosts|by eapply was_member_later].
Qed.

Lemma mowp_claim headers body wA w :
  members_inv w -> later wA w -> may_arrive state wA (PostClaim headers body) ->
  mowp None (claim_invite state headers body) w (fun _ r w2 => forall a, r = Ok a -> claim_made headers w2).
Proof.
  intros Hi HlA Hpres. unfold claim_invite. apply (mowp_authenticated headers _ _ _ _ (fun _ => claim_made headers)); [done|].
  intros tenant ev w1 Hl1 Hi1 Hev Hc Hask. cbn [fst snd]. unfold claim_rate_limited. cbn [bind Concurrent.call].
  apply mowp_idle_call; [done|done|]. intros w0 w2 n Hl2 _ _ _ Hi2.
  destruct (CLAIM_RATE_LIMIT <=? n)%N; [by intros w3 _ _|].
  destruct (claim_from_slice body) as [request|e] eqn:Hreq; [|by intros w3 _ _].
  apply mowp_clock. intros w3 now Hl3 Hi3 Hclock.
  destruct (verify_invite now (invite_key state) (tc_community tenant) (cr_code request)) as [p|e] eqn:Hv; [|by intros w4 _ _].
  assert (later w1 w3) as Hl13 by (by etrans).
  assert (minted w3 (tc_community tenant) p /\ ip_r p = "member") as [Hmint Hrole].
  { apply (verify_minted w3 wA _ (request_host headers) now (cr_code request)); [done| | | |exact Hv].
    - etrans; [exact HlA|]. etrans; [exact Hl1|exact Hl13].
    - exact (proj1 (Hpres request Hreq)).
    - exact (lookup_weaken _ _ _ _ Hc (later_hosts _ _ Hl13)). }
  unfold bind_ok. eapply mowp_seq; [|exact Hi3|].
  { apply (owp_later state skew members_inv tx_busy tx_rely tx_rely_later _ _ w3); [done|apply mowp_receipt]. }
  intros h [u|e] w4 Hi4 [[-> Hacc] Hl4]; [|by intros w5 _ _]. rewrite Hrole.
  assert (later w1 w4) as Hl14 by (by etrans).
  assert (invited w4 (tc_community tenant) (pubkey_to_hex (pubkey ev))) as Hinv.
  { exists ev, body, request, p, now, (w_time w3).
    split; [done|]. split; [by eapply asked_later|]. split; [done|]. split; [apply (later_time _ _ Hl4)|].
    split; [done|]. split; [done|]. split; [exact (minted_later w3 w4 Hl4 _ _ Hmint)|]. by apply (Hacc u). }
  eapply mowp_seq; [|exact Hi4|].
  { apply mowp_map_err; [|exact Hi4].
    apply (owp_later state skew members_inv tx_busy tx_rely tx_rely_later _ _ w4); [done|by apply mowp_claim_membership]. }
  intros h [b|e] w5 Hi5 (r0 & w0' & Er & [[Hh Hwas] Hl0] & Hr5); [|by intros w6 _ _].
  destruct r0 as [b'|]; [|done]. injection Er as ->.
  pose proof (tx_rely_later _ _ _ Hr5) as Hl5.
  apply mowp_idle; [only_calls|by eapply (holds_rely tx_busy tx_rely tx_rely_busy)|].
  intros a w6 Hl6 Hi6 _ _. exists ev, (tc_community tenant). split; [done|]. split.
  - eapply lookup_weaken; [exact Hc|]. apply later_hosts. etrans; [exact Hl14|]. etrans; [exact Hl0|]. by etrans.
  - eapply was_member_later; [|by eapply Hwas]. by etrans.
Qed.

(** ** Commands *)

(** What a sender's row shows: a role it had, or none. *)
Definition sender_holds (w : World) (c : CommunityId) (ev : Event) (role : string) : Prop :=
  role = "" \/ ever w c (pubkey_to_hex (pubkey ev)) role.

Lemma sender_role w c ev role :
  sender_holds w c ev role -> role = "owner" \/ role = "admin" -> ever w c (pubkey_to_hex (pubkey ev)) role.
Proof. intros [->|?]; [by intros [[=]|[=]]|done]. Qed.

Lemma is_admin_or_owner_true role : is_admin_or_owner role = true -> role = "owner" \/ role = "admin".
Proof. unfold is_admin_or_owner. intros [?%String.eqb_eq| ?%String.eqb_eq]%orb_true_iff; auto. Qed.

(** A statement that changes a row, followed by calls that change nothing. *)
Lemma mowp_changes {A} (call : RelayCall (Result bool string)) (k : Result bool string -> RelayProg A) w key allowed P change :
  (forall w0 w2 r, relay_effect state skew _ call w0 w2 r -> changes_row w0 w2 r key (allowed w0) P (change w0)) ->
  (forall w0 row, later w w0 -> members_inv w0 -> w_members w0 !! key = Some row -> P row -> allowed w0 ->
     members_inv (change w0 row) /\ w_open (change w0 row) = w_open w0) ->
  (forall r, only_idle (k r)) -> mowp None (Do call k) w any.
Proof.
  intros Heff Hchange Hk. apply mowp_statement. intros w0 w2 r Hl0 Hl2 Hi0 He.
  assert (members_inv w2 /\ w_open w2 = w_open w0) as [Hi2 Ho].
  { destruct (Heff _ _ _ He) as [[_ ->]|[(row & Hlk & HP & Hall & -> & _)|(_ & -> & _)]]; [done| |done]. by apply Hchange. }
  split; [done|]. split; [done|]. intros _. apply mowp_idle; [apply Hk|done|done].
Qed.

Lemma mowp_delete_if {A} c pk role (k : Result bool string -> RelayProg A) w :
  role <> "owner" -> (forall r, only_idle (k r)) -> mowp None (Do (DeleteIfRole c pk role) k) w any.
Proof.
  intros Hr Hk. eapply mowp_changes; [intros ??? He; exact He| |done].
  intros w0 row _ Hi Hlk <- Hunl. split; [by eapply inv_delete|done].
Qed.

Lemma mowp_delete {A} c pk (k : Result bool string -> RelayProg A) w :
  (forall r, only_idle (k r)) -> mowp None (Do (DeleteUnlessOwner c pk) k) w any.
Proof.
  intros Hk. eapply mowp_changes; [intros ??? He; exact He| |done].
  intros w0 row _ Hi Hlk Hr Hunl. split; [by eapply inv_delete|done].
Qed.

Section command.
Context (tenant : TenantContext) (ev : Event) (w : World) (role pk : string).
Context (Hverified : verify_event ev = Ok tt) (Hsender : sender_holds w (tc_community tenant) ev role).
Context (Htarget : target ev = Some pk).

Lemma mowp_add :
  kind ev = RELAY_ADMIN_ADD_MEMBER ->
  mowp None (add_member (tc_community tenant) (pubkey_to_hex (pubkey ev)) role pk ev) w any.
Proof.
  intros Hkind. unfold add_member. destruct (is_admin_or_owner role) eqn:Ha; cbn [negb]; [|by intros w1 _ _].
  apply is_admin_or_owner_true in Ha. pose proof (sender_role _ _ _ _ Hsender Ha) as Hever.
  set (new := default "member" (extract_tag_value ev "role")).
  case_decide; [by intros w1 _ _|]. case_decide as Hadm; [by intros w1 _ _|]. case_decide as Hnew; [by intros w1 _ _|].
  unfold bind_ok, map_err_await, add_relay_member. cbn [bind Concurrent.call].
  apply mowp_statement. intros w0 w2 r Hl0 Hl2 Hi0 He.
  assert (members_inv w2 /\ w_open w2 = w_open w0) as [Hi2 Ho].
  { destruct He as [[_ ->]|[(_ & -> & _)|(Hnone & _ & Hunl & _ & ->)]]; [done..|]. split; [|done].
    assert (commanded w0 (tc_community tenant) RELAY_ADMIN_ADD_MEMBER ev role pk) as Hcmd
      by (split_and!; [done|done|by eapply ever_later|done]).
    apply inv_insert; [done..| | |].
    - by exists ev, role.
    - intros E. pose proof (length_pubkey_hex (pubkey ev)) as Hlen. by rewrite E in Hlen.
    - destruct (decide (new = "admin")) as [En|]; [right|left; destruct (decide (new = "member")); [done|by destruct Hnew]].
      split; [done|]. destruct (decide (role = "owner")) as [->|]; [|by destruct Hadm].
      exists ev, RELAY_ADMIN_ADD_MEMBER. split; [done|]. split; [by left|]. unfold new in En.
      destruct (extract_tag_value ev "role") as [v|]; cbn in En; [by subst|done]. }
  split; [done|]. split; [done|]. intros _. apply mowp_idle; [only_calls|done|done].
Qed.

Lemma mowp_remove sender_hex :
  mowp None (remove_member (tc_community tenant) sender_hex role pk) w any.
Proof.
  unfold remove_member. destruct (is_admin_or_owner role); cbn [negb]; [|by intros w1 _ _].
  case_decide; [by intros w1 _ _|]. unfold bind_ok, map_err_await, remove_relay_member_if_role, remove_relay_member, bind_ok.
  case_decide; cbn [bind Concurrent.call].
  - apply mowp_delete_if; [done|]. intros r. only_calls.
  - apply mowp_delete. intros r. only_calls.
Qed.

Lemma mowp_change sender_hex :
  kind ev = RELAY_ADMIN_CHANGE_ROLE ->
  mowp None (change_role (tc_community tenant) sender_hex role pk ev) w any.
Proof.
  intros Hkind. unfold change_role. case_decide as Hown; [by intros w1 _ _|].
  destruct (decide (role = "owner")) as [->|]; [|by destruct Hown].
  pose proof (sender_role _ _ _ _ Hsender (or_introl eq_refl)) as Hever.
  case_decide; [by intros w1 _ _|]. destruct (extract_tag_value ev "role") as [new|] eqn:Htag; [|by intros w1 _ _].
  case_decide; [by intros w1 _ _|]. case_decide as Hnew; [by intros w1 _ _|].
  unfold bind_ok, map_err_await, update_relay_member_role. cbn [bind Concurrent.call].
  eapply mowp_changes; [intros ??? He; exact He| |intros r; unfold get_relay_member; only_calls].
  intros w0 row Hl0 Hi Hlk Hr _. split; [|done]. apply inv_update; [done..|].
  destruct (decide (new = "admin")) as [->|]; [right|left; destruct (decide (new = "member")); [done|by destruct Hnew]].
  split; [done|]. exists ev, RELAY_ADMIN_CHANGE_ROLE. split; [|auto]. split_and!; [done|done|by eapply ever_later|done].
Qed.
End command.

Lemma mowp_admin tenant ev w :
  members_inv w -> verify_event ev = Ok tt -> mowp None (handle_relay_admin_event tenant ev) w any.
Proof.
  intros Hi Hv. unfold handle_relay_admin_event, bind_ok, map_err_await, get_relay_member. cbn [bind Concurrent.call].
  apply mowp_clock. intros w1 now Hl1 Hi1 _. destruct (stale (created_at ev) now); [by intros w2 _ _|]. cbn [bind].
  apply mowp_select; [|by intros w2 e _ w3 _ _]. intros w2 row Hl2 Hi2 Hrow. cbn [bind map_err].
  assert (sender_holds w2 (tc_community tenant) ev (default EmptyString (rm_role <$> row))) as Hs.
  { destruct row as [m|]; [right|by left]. by apply Hrow. }
  case_decide.
  { apply mowp_idle; [unfold set_workspace_profile; only_calls|done|done]. }
  destruct (extract_p_tag_hex ev) as [p|] eqn:Hp; [|by intros w3 _ _].
  assert (target ev = Some (to_ascii_lowercase p)) as Ht by (unfold target; by rewrite Hp).
  case_decide; [by apply mowp_add|]. case_decide; [apply mowp_remove|]. case_decide; [by apply mowp_change|by intros w3 _ _].
Qed.

Lemma mowp_leave tenant ev w :
  members_inv w -> mowp None (handle_leave_request require_relay_membership tenant ev) w any.
Proof.
  intros Hi. unfold handle_leave_request, bind_ok, map_err_await, remove_relay_member, bind_ok.
  destruct (negb _); [by intros w1 _ _|]. cbn [bind Concurrent.call]. apply mowp_clock. intros w1 now _ Hi1 _.
  destruct (stale _ _); [by intros w2 _ _|]. destruct (negb _); [by intros w2 _ _|].
  apply mowp_delete. intros r. only_calls.
Qed.

(** ** The server *)

Definition handled (_ : unit) (_ : option Tx) (a : Request * Outcome) (w : World) : Prop :=
  forall headers body r, a = (PostClaim headers body, Http (Ok r)) -> claim_made headers w.

Lemma mowp_request req w wA :
  members_inv w -> later wA w -> may_arrive state wA req ->
  mowp None (handle state require_relay_membership req) w (fun h o w1 => handled tt h (req, o) w1).
Proof.
  intros Hi HlA Harr.
  assert (forall A (p : RelayProg A) (g : A -> Outcome) (Q : option Tx -> A -> World -> Prop), mowp None p w Q ->
    (forall h a w1 w2, Q h a w1 -> later w1 w2 -> handled tt h (req, g a) w2) ->
    mowp None (let! r := p in Ret (g r)) w (fun h o w1 => handled tt h (req, o) w1)) as Hret.
  { intros A p g Q Hp HQ. eapply mowp_seq; [exact Hp|done|]. intros h a w1 Hi1 Ha w2 Hr _.
    apply (HQ h a w1 w2 Ha). by apply (tx_rely_later h). }
  destruct req as [headers body|headers body|body|tenant json].
  - eapply Hret; [by apply mowp_mint|]. by intros ? ? ? ? _ _ ? ? ? [=].
  - eapply Hret; [by eapply mowp_claim|]. intros h a w1 w2 Ha Hl headers' body' r [= <- <- ->].
    eapply claim_made_later; [exact Hl|by eapply Ha].
  - eapply Hret; [by apply mowp_accept|]. by intros ? ? ? ? _ _ ? ? ? [=].
  - unfold handle, submit_event. destruct (event_from_json json) as [ev|e]; [|by intros w1 _ _ ? ? ? [=]].
    destruct (verify_event ev) as [[]|e] eqn:Hv; [|by intros w1 _ _ ? ? ? [=]].
    destruct (is_relay_admin_kind (kind ev)); [eapply (Hret _ _ Command); [by apply mowp_admin|]; by intros ? ? ? ? _ _ ? ? ? [=]|].
    case_decide; [|by intros w1 _ _ ? ? ? [=]].
    eapply (Hret _ _ Left); [by apply mowp_leave|]. by intros ? ? ? ? _ _ ? ? ? [=].
Qed.

Lemma mowp_server t w : members_inv w -> mowp None (serve state require_relay_membership t) w (handled t).
Proof.
  intros Hi. unfold serve. cbn [bind Concurrent.call]. apply mowp_idle_call; [done|done|].
  intros w0 w2 req Hl _ [-> Harr] Hl0 Hi2. eapply mowp_seq; [apply (mowp_request req w0 w0); [done|done|exact Harr]|done|].
  intros h o w3 Hi3 Ho w4 Hr Hi4 headers body r E. destruct t.
  apply (claim_made_later _ w3); [by apply (tx_rely_later h)|]. by eapply Ho.
Qed.

Lemma start_members time hosts :
  (forall h c, hosts !! h = Some c -> (c < 2 ^ 128)%N) -> members_inv (start_world time hosts base).
Proof. intros Hh. split; cbn; try done; [auto|congruence|]. by intros payload t ?%elem_of_nil. Qed.

End members.
