(* ===== verification/InviteTokenProps.v ===== *)
(** * Properties of invite codes ([InviteToken], in the world of [MembershipWorld])

    The code that [mint_invite] gives is read back by [verify_invite], in its community and
    until it expires. *)

From Stdlib Require Import DecimalFacts DecimalString.
From S2P Require Import Prelude Text Nostr Concurrent Tenant HttpAuth RelayMembers InviteToken InviteApi MembershipWorld MembershipProps.

(** ** The length of a number *)

Lemma nb_digits_double d :
  Decimal.nb_digits (Decimal.Little.double d) <= S (Decimal.nb_digits d) /\
  Decimal.nb_digits (Decimal.Little.succ_double d) <= S (Decimal.nb_digits d).
Proof. induction d; simpl; lia. Qed.

Lemma nb_digits_pos p k : (Npos p < 2 ^ N.of_nat k)%N -> Decimal.nb_digits (Pos.to_little_uint p) <= k.
Proof.
  revert k. induction p as [p IH|p IH|]; intros [|k] Hp; cbn in Hp; try lia; cbn [Pos.to_little_uint]; [..|simpl; lia];
    change (2 ^ Npos (Pos.of_succ_nat k))%N with (2 ^ N.of_nat (S k))%N in Hp;
    rewrite Nat2N.inj_succ, N.pow_succ_r' in Hp;
    pose proof (nb_digits_double (Pos.to_little_uint p)); specialize (IH k ltac:(lia)); lia.
Qed.

Lemma length_uint d : String.length (NilEmpty.string_of_uint d) = Decimal.nb_digits d.
Proof. induction d; simpl; congruence. Qed.

Lemma length_decimal n k : (n < 2 ^ N.of_nat k)%N -> String.length (decimal n) <= S k.
Proof.
  intros Hn. unfold decimal, NilZero.string_of_uint. destruct (N.to_uint n) eqn:E; [simpl; lia|..];
    rewrite <-E, length_uint; (destruct n as [|p]; [simpl; lia|]);
    cbn [N.to_uint]; unfold Pos.to_uint; rewrite nb_digits_rev; pose proof (nb_digits_pos p k Hn); lia.
Qed.

(** ** Codes *)

Section codes.
Context `{AuthApi} `{TokenApi} `{InviteBodies} `{!TokenLaws} `{!MemberLaws}.

(** The payload of an invite. *)
Definition invite_of (c : CommunityId) (expires_at : N) (nonce : string) : InvitePayload :=
  {| ip_c := uuid_to_string c; ip_r := "member"; ip_e := expires_at; ip_n := url_safe_encode nonce |}.

Lemma length_url_safe_le s k : String.length s <= 3 * k -> String.length (url_safe_encode s) <= 4 * k.
Proof.
  intros Hs. rewrite length_url_safe. apply Nat.lt_succ_r, Nat.Div0.div_lt_upper_bound. lia.
Qed.

(** A code is at most 320 bytes long. *)
Lemma length_invite_code key c expires_at nonce :
  (expires_at < 2 ^ 64)%N -> String.length nonce = 16 ->
  let payload := invite_to_vec (invite_of c expires_at nonce) in
  String.length (token payload (hmac_sha256 key payload)) <= 320.
Proof.
  intros He Hn. cbn zeta. unfold token, invite_of.
  rewrite invite_text; cbn [ip_c ip_r ip_e ip_n]; [|apply uuid_chars|done|apply url_safe_chars].
  rewrite !length_app_str. pose proof (length_decimal expires_at 64 He).
  assert (String.length (url_safe_encode nonce) <= 24) by (apply (length_url_safe_le _ 6); lia).
  rewrite (length_url_safe (hmac_sha256 _ _)), length_hmac.
  match goal with |- context [url_safe_encode ?s] =>
    assert (String.length (url_safe_encode s) <= 4 * 60) end.
  { apply length_url_safe_le. unfold json_string. rewrite !length_app_str, length_uuid_string. simpl. lia. }
  change ((4 * 32 + 2) / 3) with 43. simpl String.length in *. lia.
Qed.

(** C26: an invite code round-trips: what [mint_invite] answers is at most 320 bytes, lasts
    the time asked for between a minute and thirty days, and is accepted by the community it
    was made for as a member's invite until the second it expires in has passed; another
    community tells it is of the wrong one. *)
Theorem invite_code_round_trip state skew env w w' key c ttl code expires_at now c' :
  exec env (relay_answer state skew) (InviteToken.mint_invite key c ttl) w w' (code, expires_at) ->
  (c < 2 ^ 128)%N -> (c' < 2 ^ 128)%N -> (expires_at < 2 ^ 64)%N ->
  exists minted_at nonce,
    expires_at = (minted_at + N.max 60 (N.min ttl 2592000))%N /\ String.length code <= 320 /\
    verify_invite now key c' code =
      if (expires_at <? now)%N then Err Expired
      else if decide (c' = c) then Ok (invite_of c expires_at nonce) else Err WrongCommunity.
Proof.
  unfold InviteToken.mint_invite, sign_payload. cbn [bind Concurrent.call exec].
  intros (w1 & w2 & minted_at & _ & _ & w3 & w4 & nonce & _ & (w5 & _ & _ & Hn) & w6 & w7 & mac & _ & (w8 & _ & -> & _) & _ & E) Hc Hc' He.
  injection E as -> ->. exists minted_at, nonce.
  set (e := (minted_at + clamp ttl 60 MAX_INVITE_TTL_SECS)%N) in *. fold (invite_of c e nonce).
  pose proof (length_invite_code key c e nonce He Hn) as Hlen. cbn zeta in Hlen. split; [|split; [done|]].
  - subst e. unfold clamp, MAX_INVITE_TTL_SECS. destruct (N.ltb_spec ttl 60), (N.ltb_spec 2592000 ttl); lia.
  - unfold verify_invite, MAX_CODE_LEN. rewrite open_made_token by lia. cbn [result_bind].
    rewrite invite_round_trip_json. cbn. destruct (e <? now)%N; [done|].
    case_decide as Ec; [subst; by rewrite String.eqb_refl|].
    destruct (String.eqb_spec (uuid_to_string c) (uuid_to_string c')) as [E|]; [|done].
    by apply uuid_string_inj in E.
Qed.
End codes.
