(* ===== verification/MembershipRuns.v ===== *)
(** * Runs of the relay's members

    Concrete operations for [NostrApi], [UrlApi], [AuthApi], [TokenApi] and [InviteBodies],
    with base64 as it is, and runs of the server: an invite is made, the join policy accepted
    and the invite claimed, an owner adds an admin; and a signed event is used twice, in the
    first and the last second of its window.  The theorems of [HttpAuthProps],
    [MembershipProps] and [InviteTokenProps] at concrete inputs. *)

From Stdlib Require Import DecimalN DecimalPos DecimalString.
From S2P Require Import Prelude Text Nostr SessionDirectoryProps Concurrent Tenant HttpAuth RelayMembers InviteToken InviteApi MembershipWorld HttpAuthProps MembershipProps InviteTokenProps.

#[local] Ltac Zify.zify_post_hook ::= Z.to_euclidean_division_equations.

(** ** Base64 *)

Definition alphabet : string := "ABCDEFGHIJKLMNOPQRSTUVWXYZabcdefghijklmnopqrstuvwxyz0123456789-_".

Definition sextet (n : N) : Ascii.ascii := default "A"%char (String.get (N.to_nat n) alphabet).

Definition unsextet (a : Ascii.ascii) : option N := N.of_nat <$> String.index 0 (String a EmptyString) alphabet.

Notation byte n := (Ascii.ascii_of_N n).
Notation code a := (Ascii.N_of_ascii a).

Fixpoint encode (s : string) : string :=
  match s with
  | String a (String b (String c s)) =>
      let n := (code a * 65536 + code b * 256 + code c)%N in
      String (sextet (n / 262144)) (String (sextet (n / 4096 mod 64)) (String (sextet (n / 64 mod 64))
        (String (sextet (n mod 64)) (encode s))))
  | String a (String b EmptyString) =>
      let n := (code a * 1024 + code b * 4)%N in
      String (sextet (n / 4096)) (String (sextet (n / 64 mod 64)) (String (sextet (n mod 64)) EmptyString))
  | String a EmptyString =>
      let n := (code a * 16)%N in String (sextet (n / 64)) (String (sextet (n mod 64)) EmptyString)
  | EmptyString => EmptyString
  end.

Fixpoint decode (s : string) : option string :=
  match s with
  | EmptyString => Some EmptyString
  | String a (String b (String c (String d s))) =>
      x ← unsextet a; y ← unsextet b; z ← unsextet c; t ← unsextet d; rest ← decode s;
      let n := (x * 262144 + y * 4096 + z * 64 + t)%N in
      Some (String (byte (n / 65536)) (String (byte (n / 256 mod 256)) (String (byte (n mod 256)) rest)))
  | String a (String b (String c EmptyString)) =>
      x ← unsextet a; y ← unsextet b; z ← unsextet c;
      let n := (x * 4096 + y * 64 + z)%N in
      Some (String (byte (n / 1024)) (String (byte (n / 4 mod 256)) EmptyString))
  | String a (String b EmptyString) =>
      x ← unsextet a; y ← unsextet b;
      Some (String (byte ((x * 64 + y) / 16)%N) EmptyString)
  | _ => None
  end.

Lemma sextet_table :
  forallb (fun n => bool_decide (unsextet (sextet (N.of_nat n)) = Some (N.of_nat n)) && token_char (sextet (N.of_nat n)))
    (seq 0 64) = true.
Proof. vm_compute. reflexivity. Qed.

Lemma sextet_ok n : (n < 64)%N -> unsextet (sextet n) = Some n /\ token_char (sextet n) = true.
Proof.
  intros Hn. pose proof sextet_table as Ht. rewrite forallb_forall in Ht.
  specialize (Ht (N.to_nat n) ltac:(apply in_seq; lia)). rewrite N2Nat.id in Ht.
  apply andb_true_iff in Ht as [Hu Hc]. by apply bool_decide_eq_true in Hu.
Qed.

Lemma byte_code a n : n = code a -> byte n = a.
Proof. intros ->. apply Ascii.ascii_N_embedding. Qed.

(** Three bytes at a time. *)
Lemma triple_ind (P : string -> Prop) :
  P EmptyString -> (forall a, P (String a EmptyString)) -> (forall a b, P (String a (String b EmptyString))) ->
  (forall a b c s, P s -> P (String a (String b (String c s)))) -> forall s, P s.
Proof.
  intros H0 H1 H2 H3. fix triple 1. intros [|a [|b [|c s]]]; [done|apply H1|apply H2|]. apply H3, triple.
Qed.

Lemma base64_round_trip s : decode (encode s) = Some s.
Proof.
  induction s as [|a|a b|a b c s IH] using triple_ind; [done|..]; cbn [encode decode];
    pose proof (Ascii.N_ascii_bounded a); try pose proof (Ascii.N_ascii_bounded b);
    try pose proof (Ascii.N_ascii_bounded c);
    repeat match goal with |- context [unsextet (sextet ?n)] => rewrite (proj1 (sextet_ok n ltac:(lia))); cbn [mbind option_bind] end;
    rewrite ?IH; cbn [mbind option_bind]; repeat f_equal; apply byte_code; lia.
Qed.

Lemma encode_chars s : all_bytes token_char (encode s) = true.
Proof.
  induction s as [|a|a b|a b c s IH] using triple_ind; [done|..]; cbn [encode all_bytes];
    pose proof (Ascii.N_ascii_bounded a); try pose proof (Ascii.N_ascii_bounded b);
    try pose proof (Ascii.N_ascii_bounded c); rewrite ?IH;
    repeat match goal with |- context [token_char (sextet ?n)] => rewrite (proj2 (sextet_ok n ltac:(lia))) end; done.
Qed.

Lemma length_encode s : String.length (encode s) = (4 * String.length s + 2) `div` 3.
Proof. induction s as [|a|a b|a b c s IH] using triple_ind; [done..|]. cbn [encode String.length]. rewrite IH.
  replace (4 * S (S (S (String.length s))) + 2) with (4 * String.length s + 2 + 4 * 3) by lia.
  rewrite Nat.div_add by lia. lia.
Qed.

(** ** Numbers and JSON *)

Definition parse_number (s : string) : option N := N.of_uint <$> NilZero.uint_of_string s.

Lemma parse_number_decimal n : parse_number (decimal n) = Some n.
Proof.
  unfold parse_number, decimal. rewrite NilZero.usu; [simpl; by rewrite DecimalN.Unsigned.of_to|].
  destruct n; simpl; [done|]. apply DecimalPos.Unsigned.to_uint_nonnil.
Qed.

(** A text of the payloads as it is, any other in base64 after a tilde. *)
Definition json_text (s : string) : string :=
  json_string (if all_bytes token_char s then s else String "~" (encode s)).

Definition read_text (s : string) : option (string * string) :=
  s ← strip_prefix s QUOTE;
  '(t, rest) ← split_once "034"%char s;
  v ← match t with String "~" b => decode b | _ => Some t end;
  Some (v, rest).

(** A number and the byte after it. *)
Definition read_number (stop : Ascii.ascii) (s : string) : option (N * string) :=
  '(digits, rest) ← split_once stop s; n ← parse_number digits; Some (n, rest).

Definition field (first : bool) (name : string) : string :=
  ((if first then "{" else ",") ++ json_string name ++ ":")%string.

Definition no_quote (s : string) : Prop := all_bytes (fun x => bool_decide (x <> "034"%char)) s = true.

Lemma token_no_quote s : all_bytes token_char s = true -> no_quote s.
Proof. apply all_bytes_impl. intros a Ha. apply bool_decide_eq_true. intros ->. by vm_compute in Ha. Qed.

Lemma read_json_text s rest : read_text (json_text s ++ rest) = Some (s, rest).
Proof.
  unfold read_text, json_text, json_string. rewrite <-!string_app_assoc, strip_prefix_app. cbn [mbind option_bind].
  change (QUOTE ++ rest)%string with (String "034" rest).
  destruct (all_bytes token_char s) eqn:Ht.
  - rewrite split_once_app by by apply token_no_quote. cbn [mbind option_bind].
    destruct s as [|a s]; [done|]. destruct (decide (a = "~"%char)) as [->|Hne]; [by vm_compute in Ht|].
    by destruct a as [[] [] [] [] [] [] [] []].
  - rewrite split_once_app by (cbn [all_bytes]; apply andb_true_iff; split; [done|apply token_no_quote, encode_chars]).
    cbn [mbind option_bind]. by rewrite base64_round_trip.
Qed.

Lemma read_decimal stop n rest : byte_in 48 57 stop = false -> read_number stop (decimal n ++ String stop rest) = Some (n, rest).
Proof.
  intros Hs. unfold read_number. rewrite split_once_app.
  - cbn [mbind option_bind]. by rewrite parse_number_decimal.
  - eapply all_bytes_impl; [|apply decimal_digits].
    intros a Ha. apply bool_decide_eq_true. intros ->. unfold is_digit in Ha. congruence.
Qed.

Definition print_invite (p : InvitePayload) : string :=
  (field true "c" ++ json_text (ip_c p) ++ field false "r" ++ json_text (ip_r p) ++ field false "e" ++ decimal (ip_e p)
   ++ field false "n" ++ json_text (ip_n p) ++ "}")%string.

Definition read_invite (s : string) : option InvitePayload :=
  s ← strip_prefix s (field true "c"); '(c, s) ← read_text s;
  s ← strip_prefix s (field false "r"); '(r, s) ← read_text s;
  s ← strip_prefix s (field false "e"); '(e, s) ← read_number "," s;
  s ← strip_prefix s (json_string "n" ++ ":"); '(n, s) ← read_text s;
  if decide (s = "}") then Some {| ip_c := c; ip_r := r; ip_e := e; ip_n := n |} else None.

Definition print_acceptance (p : PolicyAcceptancePayload) : string :=
  (field true "c" ++ json_text (pa_c p) ++ field false "v" ++ json_text (pa_v p) ++ field false "e" ++ decimal (pa_e p) ++ "}")%string.

Definition read_acceptance (s : string) : option PolicyAcceptancePayload :=
  s ← strip_prefix s (field true "c"); '(c, s) ← read_text s;
  s ← strip_prefix s (field false "v"); '(v, s) ← read_text s;
  s ← strip_prefix s (field false "e"); '(e, s) ← read_number "}" s;
  if decide (s = "") then Some {| pa_c := c; pa_v := v; pa_e := e |} else None.

Lemma read_print_invite p : read_invite (print_invite p) = Some p.
Proof.
  unfold read_invite, print_invite.
  repeat (rewrite ?strip_prefix_app, ?read_json_text; cbn [mbind option_bind]).
  change (field false "n" ++ ?x)%string with (String "," ((json_string "n" ++ ":") ++ x)).
  rewrite read_decimal by done. cbn [mbind option_bind].
  rewrite strip_prefix_app. cbn [mbind option_bind]. rewrite read_json_text. cbn. by destruct p.
Qed.

Lemma read_print_acceptance p : read_acceptance (print_acceptance p) = Some p.
Proof.
  unfold read_acceptance, print_acceptance.
  repeat (rewrite ?strip_prefix_app, ?read_json_text; cbn [mbind option_bind]).
  rewrite read_decimal by done. cbn. by destruct p.
Qed.

(** ** The operations *)

#[local] Instance members_nostr : NostrApi :=
  {| EventId := N; event_id_to_hex := to_hex 64; uuid_to_string u := (to_hex 32 u ++ "----")%string;
     letter_to_string c := String c EmptyString;
     tag_kind t := match t with s :: _ => s | [] => EmptyString end;
     tag_content t := match t with _ :: s :: _ => Some s | _ => None end |}.

(** Addresses are compared in lower case. *)
#[local] Instance members_url : UrlApi :=
  {| Url := unit; url_parse _ := None; url_host _ := None; url_port _ := None; url_path _ := EmptyString;
     url_set_path u _ := u; url_host_str _ := None; url_set_host u _ := u; url_to_string _ := EmptyString |}.

Fixpoint toy_digest (acc : N) (s : string) : N :=
  match s with
  | EmptyString => acc
  | String a s => toy_digest ((acc * 257 + Ascii.N_of_ascii a + 1) mod 2 ^ 256) s
  end.

Definition toy_event (i pk : N) (k : Kind) (ts : list Tag) : Event :=
  {| id := i : @EventId members_nostr; pubkey := pk; created_at := 1000%N; kind := k; tags := ts; content := "";
     sig := "signed" |}.

Definition http_tags (path body : string) : list Tag :=
  [["u"; "https://relay.example" ++ path]; ["method"; "POST"]; ["payload"; body]]%string.

(** The events of the runs: the owner, of key 1, asks for an invite; key 2 claims one with the
    body that follows, and again; the owner makes key 3 an admin, and removes key 2. *)
Definition toy_events (s : string) : Result Event string :=
  if decide (s = "mint") then Ok (toy_event 1 1 27235%N (http_tags "/api/invites" ""))
  else if decide (s = "add") then Ok (toy_event 3 1 9030%N [["p"; to_hex 64 3]; ["role"; "admin"]])
  else if decide (s = "remove") then Ok (toy_event 4 1 9031%N [["p"; to_hex 64 2]])
  else match strip_prefix s "claim ", strip_prefix s "reclaim " with
       | Some body, _ => Ok (toy_event 2 2 27235%N (http_tags "/api/invites/claim" body))
       | _, Some body => Ok (toy_event 5 2 27235%N (http_tags "/api/invites/claim" body))
       | None, None => Err "not an event"
       end.

#[local] Instance members_auth : AuthApi :=
  {| event_from_json := toy_events; event_id_new _ _ _ _ _ := 0%N : @EventId members_nostr; verify_id _ := true;
     verify_signature ev := bool_decide (sig ev = "signed");
     event_id_to_bytes i := decimal i; event_id_from_byte_array s := default 0%N (parse_number s) : @EventId members_nostr;
     pubkey_from_hex _ := None; pubkey_to_hex := to_hex 64; sha256 s := s; hex_encode s := s; base64_decode := Some;
     to_lowercase := to_ascii_lowercase |}.

#[local] Instance members_tokens : TokenApi :=
  {| url_safe_encode := encode; url_safe_decode := decode;
     hmac_sha256 key s := bytes_str (be_bytes 32 (toy_digest 7 (key ++ s)));
     invite_to_vec := print_invite; invite_from_slice := read_invite;
     acceptance_to_vec := print_acceptance; acceptance_from_slice := read_acceptance |}.

(** A claim is the code and the receipt, an acceptance of version v1 the code. *)
#[local] Instance members_bodies : InviteBodies :=
  {| mint_from_slice _ := Ok {| mr_ttl_secs := None |};
     claim_from_slice s := match split_once "," s with
                           | Some (code, receipt) => Ok {| cr_code := code; cr_policy_receipt := Some receipt |}
                           | None => Err "no receipt"
                           end;
     accept_from_slice s := Ok {| ar_code := s; ar_policy_version := "v1"; ar_age_confirmed := true |} |}.

#[local] Instance members_auth_laws : AuthLaws.
Proof. split. intros i. cbn. by rewrite parse_number_decimal. Qed.

#[local] Instance members_laws : MemberLaws.
Proof.
  split; [apply to_hex_length|]. intros u v Hu Hv E.
  change (to_hex 32 u ++ "----" = to_hex 32 v ++ "----")%string in E.
  apply string_app_inj in E as [E%to_hex_inj _]; [|by rewrite !to_hex_length].
  change (16 ^ N.of_nat 32)%N with (2 ^ 128)%N in E. by rewrite !N.mod_small in E.
Qed.

Lemma json_text_token s : all_bytes token_char s = true -> json_text s = json_string s.
Proof. intros Hs. unfold json_text. by rewrite Hs. Qed.

Lemma hex_digit_token n : (n < 16)%N -> token_char (hex_digit n) = true.
Proof.
  intros Hn. assert (forallb (fun k => token_char (hex_digit (N.of_nat k))) (seq 0 16) = true) as Ht by done.
  rewrite forallb_forall in Ht. specialize (Ht (N.to_nat n) ltac:(apply in_seq; lia)). by rewrite N2Nat.id in Ht.
Qed.

Lemma to_hex_token len n : all_bytes token_char (to_hex len n) = true.
Proof.
  induction len as [|len IH]; [done|]. cbn [to_hex all_bytes]. rewrite IH, hex_digit_token; [done|]. apply N.mod_lt. lia.
Qed.

#[local] Instance members_token_laws : TokenLaws.
Proof.
  split.
  - apply base64_round_trip.
  - apply encode_chars.
  - apply length_encode.
  - intros key s. change (String.length (bytes_str (be_bytes 32 (toy_digest 7 (key ++ s)))) = 32).
    by rewrite length_bytes_str, length_be_bytes.
  - apply read_print_invite.
  - apply read_print_acceptance.
  - intros p. change (read_invite (print_acceptance p) = None). unfold read_invite, print_acceptance.
    rewrite strip_prefix_app. cbn [mbind option_bind]. by rewrite read_json_text.
  - intros p. change (read_acceptance (print_invite p) = None). unfold read_acceptance, print_invite.
    rewrite strip_prefix_app. cbn [mbind option_bind]. by rewrite read_json_text.
  - intros p Hc Hr Hn. change (invite_to_vec p) with (print_invite p). unfold print_invite. by rewrite !json_text_token.
  - intros u. change (all_bytes token_char (to_hex 32 u ++ "----") = true). by rewrite all_bytes_app, to_hex_token.
  - intros u. change (String.length (to_hex 32 u ++ "----") = 36). by rewrite length_app_str, to_hex_length.
Qed.

(** ** The answers *)

Definition toy_state : AppState :=
  {| relay_url := "wss://relay.example"; secret_key := "secret";
     join_policy := Some {| age_attestation_required := true; jp_version := "v1" |} |}.

(** What a claim presents was signed before. *)
Definition presents (w : World) (c : string) : bool :=
  match split_once "." c with
  | Some (p, m) =>
      match decode p, decode m with
      | Some payload, Some mac =>
          negb (String.eqb mac (hmac_sha256 (invite_key toy_state) payload)) ||
          existsb (fun x : string * string * Z => bool_decide (x.1 = (invite_key toy_state, payload))) (w_macs w)
      | _, _ => true
      end
  | None => true
  end.

Lemma presents_ok w c : presents w c = true -> presentable toy_state w c.
Proof.
  unfold presents, presentable. intros Hp p m payload Hs Hd Hm. rewrite Hs in Hp. cbn in Hd, Hm. rewrite Hd, Hm in Hp.
  rewrite String.eqb_refl in Hp. cbn [negb orb] in Hp. apply existsb_exists in Hp as ([[k pl] t] & Hin%list_elem_of_In & E).
  apply bool_decide_eq_true in E. cbn in E. injection E as -> ->. eauto.
Qed.

Definition arrives (w : World) (req : Request) : bool :=
  match req with
  | PostClaim _ body =>
      match claim_from_slice body with
      | Ok r => presents w (cr_code r) && match cr_policy_receipt r with Some receipt => presents w receipt | None => true end
      | Err _ => true
      end
  | _ => true
  end.

Lemma arrives_ok w req : arrives w req = true -> may_arrive toy_state w req.
Proof.
  destruct req as [| headers body| |]; try done. cbn [arrives may_arrive]. intros Ha r Hr. rewrite Hr in Ha.
  apply andb_true_iff in Ha as [Hc Hp]. split; [by apply presents_ok|]. intros receipt E. rewrite E in Hp. by apply presents_ok.
Qed.

(** It is [now]: the keys of Redis that have expired are gone. *)
Definition at_time (now : Z) (w : World) : World :=
  elapse now (filter (fun kv : string * Z => (now < kv.2)%Z) (w_redis w)) (w_hosts w) (w_open w) (w_claims w) w.

Definition hosts_small (hosts : gmap string CommunityId) : bool :=
  forallb (fun hc : string * CommunityId => bool_decide (hc.2 < 2 ^ 128)%N) (map_to_list hosts).

Lemma hosts_small_ok hosts : hosts_small hosts = true -> forall h c, hosts !! h = Some c -> (c < 2 ^ 128)%N.
Proof.
  unfold hosts_small. rewrite forallb_forall. intros Hf h c Hc%elem_of_map_to_list%list_elem_of_In.
  by apply (bool_decide_eq_true_1 _ (Hf _ Hc)).
Qed.

Lemma at_time_ok now w : (w_time w <=? now)%Z && hosts_small (w_hosts w) = true -> elapses w (at_time now w).
Proof.
  intros [Ht%Z.leb_le Hh]%andb_true_iff. do 5 eexists. split; [reflexivity|]. split_and!; [done| | |done| |done|done].
  - apply map_filter_subseteq.
  - intros k expiry Hk Hlt. by apply map_lookup_filter_Some.
  - by apply hosts_small_ok.
Qed.

Definition toy_effect (req : Request) (R : Type) (c : RelayCall R) (w : World) : option (World * R) :=
  match c in RelayCall R return option (World * R) with
  | AcceptRequest => if arrives w req then Some (w, req) else None
  | ReadClock => if (0 <=? w_time w)%Z then Some (w, Z.to_N (w_time w / 1000)) else None
  | PoolGet => Some (w, Ok tt)
  | RedisSet key _ ttl =>
      match w_redis w !! key with
      | Some _ => Some (w, Ok None)
      | None => Some (set_redis (<[key := (w_time w + Z.of_N ttl * 1000)%Z]> (w_redis w)) (w_marks w ++ [(key, w_time w)]) w,
                      Ok (Some "OK"))
      end
  | SelectCommunity host => Some (w, Ok (w_hosts w !! host))
  | Begin => Some (set_open (<[w_next_tx w := (w_time w, [])]> (w_open w)) (w_next_tx w + 1)%N w, Ok (w_next_tx w))
  | Commit tx =>
      '(_, ws) ← w_open w !! tx;
      Some (set_open (delete tx (w_open w)) (w_next_tx w) (set_tables (seen w ws).1 (seen w ws).2 w), Ok tt)
  | InsertMember None c pk role by_ =>
      if bool_decide (w_members w !! (c, pk) = None) && bool_decide (w_open w = ∅) && bool_decide (role ∈ ["owner"; "admin"; "member"])
      then Some (set_tables (<[(c, pk) := new_member role by_ (w_time w)]> (w_members w)) (w_accepted w) w, Ok true) else None
  | InsertMember (Some tx) c pk role by_ =>
      '(t, ws) ← w_open w !! tx;
      if bool_decide ((seen w ws).1 !! (c, pk) = None) && bool_decide (delete tx (w_open w) = ∅) &&
         bool_decide (role ∈ ["owner"; "admin"; "member"])
      then Some (set_open (<[tx := (t, ws ++ [WroteMember c pk (new_member role by_ t)])]> (w_open w)) (w_next_tx w) w, Ok true)
      else None
  | InsertAcceptance tx c pk v =>
      '(t, ws) ← w_open w !! tx; _ ← (seen w ws).1 !! (c, pk);
      Some (set_open (<[tx := (t, ws ++ [WroteAcceptance c pk v])]> (w_open w)) (w_next_tx w) w, Ok tt)
  | SelectMember c pk => Some (w, Ok (w_members w !! (c, pk)))
  | DeleteUnlessOwner c pk =>
      row ← w_members w !! (c, pk);
      if bool_decide (rm_role row <> "owner") && bool_decide (w_open w = ∅) then Some (delete_member (c, pk) w, Ok true) else None
  | Announce _ => Some (w, Ok tt)
  | CountClaim c pk =>
      let n := default 0%N (w_claims w !! (c, pk)) in Some (set_claims (<[(c, pk) := ((n + 1) mod 2 ^ 32)%N]> (w_claims w)) w, n)
  | RandomBytes16 => Some (w, "0123456789abcdef")
  | Hmac key payload => Some (add_mac (key, payload, w_time w) w, hmac_sha256 key payload)
  | _ => None
  end.

Lemma unlocked_alone w k : w_open w = ∅ -> unlocked w None k.
Proof. intros E tx t ws Hx. by rewrite E in Hx. Qed.

Lemma unlocked_only w tx k : delete tx (w_open w) = ∅ -> unlocked w (Some tx) k.
Proof.
  intros E tx' t ws Hx Hne. assert (delete tx (w_open w) !! tx' = Some (t, ws)) as Hd by (rewrite lookup_delete_ne; congruence).
  by rewrite E in Hd.
Qed.

Lemma toy_effect_ok req R (c : RelayCall R) w w' r :
  toy_effect req R c w = Some (w', r) -> relay_effect toy_state 0 R c w w' r.
Proof.
  destruct c as [| | |key v ttl|host| |tx|tx|[tx|] cc pk role by_|tx cc pk v| | |cc pk|cc pk| | | | |cc pk| |]; cbn [toy_effect relay_effect]; intros E;
    try discriminate E.
  - destruct (arrives w req) eqn:Ha; [|done]. injection E as <- <-. split; [done|by apply arrives_ok].
  - destruct (Z.leb_spec 0 (w_time w)); [|done]. injection E as <- <-. split; [done|]. exists (w_time w). split_and!; [lia|done|done].
  - by injection E as <- _.
  - right. destruct (w_redis w !! key) eqn:Hk; injection E as <- <-; [left; split_and!; [by eexists|done|by left]|].
    right. split_and!; [done|by left|done].
  - injection E as <- <-. split; [done|]. right. exists (w_hosts w !! host). split; [done|]. by intros c ->.
  - injection E as <- <-. right. split; [done|by left].
  - destruct (w_open w !! tx) as [[t ws]|] eqn:Hx; [|done]. injection E as <- <-. right. exists t, ws. split; [done|]. split; [by left|done].
  - destruct (w_open w !! tx) as [[t ws]|] eqn:Hx; [|done]. cbn [mbind option_bind] in E.
    destruct (_ && _) eqn:Hc; [|done]. injection E as <- <-.
    apply andb_true_iff in Hc as [[Hn%bool_decide_eq_true Ho%bool_decide_eq_true]%andb_true_iff Hv%bool_decide_eq_true].
    right. exists t, ws. split; [done|]. right. split_and!; [done|done|by apply unlocked_only|by left|done].
  - destruct (_ && _) eqn:Hc; [|done]. injection E as <- <-.
    apply andb_true_iff in Hc as [[Hn%bool_decide_eq_true Ho%bool_decide_eq_true]%andb_true_iff Hv%bool_decide_eq_true].
    right. right. split_and!; [done|done|by apply unlocked_alone|by left|done].
  - destruct (w_open w !! tx) as [[t ws]|] eqn:Hx; [|done]. cbn [mbind option_bind] in E.
    destruct ((seen w ws).1 !! (cc, pk)) as [row|] eqn:Hs; [|done]. injection E as <- <-.
    right. exists t, ws. split; [done|]. split; [by left|]. right. split; [by eexists|done].
  - injection E as <- <-. split; [done|by right].
  - destruct (w_members w !! (cc, pk)) as [row|] eqn:Hrow; [|done]. cbn [mbind option_bind] in E.
    destruct (_ && _) eqn:Hc; [|done]. injection E as <- <-.
    apply andb_true_iff in Hc as [Hr%bool_decide_eq_true Ho%bool_decide_eq_true].
    right. left. exists row. split_and!; [done|done|by apply unlocked_alone|done|by left].
  - by injection E as <- _.
  - by injection E as <- <-.
  - by injection E as <- <-.
  - by injection E as <- <-.
Qed.

Definition toy_respond (now : Z) (req : Request) (R : Type) (c : RelayCall R) (w : World) : option (World * R) :=
  if (w_time w <=? now)%Z && hosts_small (w_hosts w) then toy_effect req R c (at_time now w) else None.

Lemma members_respond_ok now req R (c : RelayCall R) w w' r :
  toy_respond now req R c w = Some (w', r) -> relay_answer toy_state 0 R c w w' r.
Proof.
  unfold toy_respond. destruct (_ && _) eqn:Hc; [|done]. intros E. exists (at_time now w).
  split; [by apply at_time_ok|by eapply toy_effect_ok].
Qed.

(** ** The runs *)

Notation Served := (Thread (Call := RelayCall) (A := fun _ : unit => (Request * Outcome)%type)).
Notation State := (World * list Served)%type.

Definition toy_hosts : gmap string CommunityId := {[ "relay.example" := 5%N ]}.

Definition owner_row : RelayMember :=
  {| rm_role := "owner"; rm_added_by := None; rm_created_at := 0; rm_updated_at := 0 |}.

Definition toy_base : Table := {[ (5%N, to_hex 64 1) := owner_row ]}.

Definition toy_start : State := (start_world 940000 toy_hosts toy_base, []).

(** A request that arrives, at a time in milliseconds, and is answered by the task [i]. *)
Definition serve_one (x : State) (i : nat) (now : Z) (req : Request) : option State :=
  run_schedule (serve toy_state true) (toy_respond now req) [Spawn tt; Run i 100] x.

Fixpoint serve_all (x : State) (reqs : list (Z * Request)) : option State :=
  match reqs with
  | [] => Some x
  | (now, req) :: reqs => x ← serve_one x (length x.2) now req; serve_all x reqs
  end.

Lemma serve_all_steps reqs x y :
  serve_all x reqs = Some y -> rtc (pool_step (relay_answer toy_state 0) (serve toy_state true)) x y.
Proof.
  revert x. induction reqs as [|[now req] reqs IH]; intros x; cbn [serve_all]; [by intros [= ->]|].
  destruct (serve_one x (length x.2) now req) as [z|] eqn:Hz; [|done]. cbn [mbind option_bind]. intros Hy.
  etrans; [|by apply IH]. eapply run_schedule_steps; [|exact Hz]. apply members_respond_ok.
Qed.

Definition answered {A} (p : RelayProg A) : option A := match p with Ret a => Some a | Do _ _ => None end.

Definition outcome_of (th : Served) : option Outcome :=
  match answered (th_rest th) with Some a => Some a.2 | None => None end.

Definition outcomes (x : State) : list Outcome := omap outcome_of x.2.

Definition outcomes_of (reqs : list (Z * Request)) : list Outcome := from_option outcomes [] (serve_all toy_start reqs).

Definition signed_as (event : string) : HeaderMap := [("host", "Relay.Example:443"); ("authorization", "Nostr " ++ event)]%string.

Definition mint_request : Request := PostInvites (signed_as "mint") "".

Definition toy_code : string :=
  Eval vm_compute in
  match outcomes_of [(1000000%Z, mint_request)] with [Http (Ok (Minted c _ _))] => c | _ => EmptyString end.

Definition toy_receipt : string :=
  Eval vm_compute in
  match outcomes_of [(1000000%Z, PostAcceptPolicy toy_code)] with [Http (Ok (Accepted r))] => r | _ => EmptyString end.

Definition claim_body : string := toy_code ++ "," ++ toy_receipt.

Definition claim_request : Request := PostClaim (signed_as ("claim " ++ claim_body)) claim_body.

Definition members_run : list (Z * Request) :=
  [(1000000%Z, mint_request); (1000000%Z, PostAcceptPolicy toy_code); (1000000%Z, claim_request);
   (1000000%Z, SubmitEvent (resolved 5%N "relay.example") "add")].

Example members_run_outcomes :
  drop 2 (outcomes_of members_run) =
  [Http (Ok (Claimed true (to_hex 32 5 ++ "----") "relay.example" "member")); Command (Ok tt)].
Proof. vm_compute. reflexivity. Qed.

(** Removing a member does not take back the invite: it is claimed again. *)
Example removed_member_returns :
  drop 3 (outcomes_of [(1000000%Z, mint_request); (1000000%Z, PostAcceptPolicy toy_code); (1000000%Z, claim_request);
    (1000000%Z, SubmitEvent (resolved 5%N "relay.example") "remove");
    (1000000%Z, PostClaim (signed_as ("reclaim " ++ claim_body)) claim_body)]) =
  [Command (Ok tt); Http (Ok (Claimed true (to_hex 32 5 ++ "----") "relay.example" "member"))].
Proof. vm_compute. reflexivity. Qed.

(** A [payload] tag without a value lets any body through. *)
Example bare_payload_covers_nothing :
  let ev := toy_event 6 1 27235%N [["u"; "https://relay.example/api/invites"]; ["method"; "POST"]; ["payload"]] in
  existsb (fun t => String.eqb (tag_kind t) "payload") (tags ev) = true /\
  forall body, nip98_valid 1000 ev "https://relay.example/api/invites" "POST" (Some body).
Proof.
  split; [reflexivity|]. intros body. split; [done|by vm_compute|done|by eexists|by eexists|done].
Qed.

(** The freshness of a command wraps: an event 2^63 seconds in the future is fresh. *)
Example far_future_is_fresh : stale (2 ^ 63 + 1000) 1000 = false.
Proof. vm_compute. reflexivity. Qed.

Definition reached (reqs : list (Z * Request)) : State := default toy_start (serve_all toy_start reqs).

Lemma reached_steps reqs :
  rtc (pool_step (relay_answer toy_state 0) (serve toy_state true)) toy_start ((reached reqs).1, (reached reqs).2).
Proof.
  rewrite <-surjective_pairing. unfold reached. destruct (serve_all toy_start reqs) as [x|] eqn:Hx; [|apply rtc_refl].
  by apply (serve_all_steps reqs).
Qed.

Lemma toy_base_owners k row : toy_base !! k = Some row -> rm_role row = "owner" /\ rm_added_by row = None.
Proof. unfold toy_base. by intros [<- <-]%lookup_singleton_Some. Qed.

Lemma toy_hosts_small h c : toy_hosts !! h = Some c -> (c < 2 ^ 128)%N.
Proof. unfold toy_hosts. by intros [<- <-]%lookup_singleton_Some. Qed.

Definition members_state : State := reached members_run.

Definition joined : RelayMember := new_member "member" (Some "invite") 1000000.
Definition promoted : RelayMember := new_member "admin" (Some (to_hex 64 1)) 1000000.


(** ** A signed event used twice

    It is signed for the second 1000: the first request comes in the second 940, the other in
    the second 1060, when the mark of the first is 120 s old. *)

Definition replay_run : list (Z * Request) := [(940000%Z, mint_request); (1060000%Z, mint_request)].

Definition replay_state : State := reached replay_run.

Definition minted_of (o : Outcome) : option Response := match o with Http (Ok r) => Some r | _ => None end.

Definition replay_answer (i : nat) : Response := default (Accepted "") (outcomes replay_state !! i ≫= minted_of).

Definition mint_event : Event := toy_event 1 1 27235%N (http_tags "/api/invites" "").

Lemma nip98_single_use_witness :
  replay_state.2 !! 0 = Some (thread tt (Ret (mint_request, Http (Ok (replay_answer 0))))) /\
  replay_state.2 !! 1 = Some (thread tt (Ret (mint_request, Http (Ok (replay_answer 1))))) /\
  ((Z.min (Z.of_N (created_at mint_event)) (Z.of_N (created_at mint_event)) + 60) * 1000 - 0 <= w_time replay_state.1)%Z.
Proof.
  assert (replay_state.2 !! 0 = Some (thread tt (Ret (mint_request, Http (Ok (replay_answer 0)))))) as Ha by (vm_compute; reflexivity).
  assert (replay_state.2 !! 1 = Some (thread tt (Ret (mint_request, Http (Ok (replay_answer 1)))))) as Hb by (vm_compute; reflexivity).
  assert (request_event (signed_as "mint") = Some mint_event) as He by reflexivity.
  assert (event_id_to_bytes (id mint_event) <> ZERO_ID) as Hz by (vm_compute; discriminate).
  split; [exact Ha|]. split; [exact Hb|].
  exact (nip98_single_use toy_state 0 true 940000 toy_hosts toy_base replay_state.1 replay_state.2 0 1 mint_request mint_request
    (signed_as "mint") (signed_as "mint") (replay_answer 0) (replay_answer 1) mint_event mint_event
    (reached_steps replay_run) (O_S 0) Ha Hb eq_refl eq_refl He He eq_refl Hz eq_refl).
Defined.

(** ** An invite code *)

(** A program run alone. *)
Fixpoint run_alone {A} (p : RelayProg A) (w : World) : option (World * A) :=
  match p with
  | Ret a => Some (w, a)
  | Do c k => '(w, r) ← toy_respond 1000000 mint_request _ c w; run_alone (k r) w
  end.

Definition nothing (_ _ : World) : Prop := False.

Lemma run_alone_exec {A} (p : RelayProg A) w w' a :
  run_alone p w = Some (w', a) -> exec nothing (relay_answer toy_state 0) p w w' a.
Proof.
  revert w. induction p as [a'|R c k IH]; intros w; cbn [run_alone exec]; [intros [= -> ->]; split; [apply rtc_refl|done]|].
  destruct (toy_respond 1000000 mint_request R c w) as [[w1 r]|] eqn:Hr; [|done]. intros Hk.
  exists w, w1, r. split; [apply rtc_refl|]. split; [by eapply members_respond_ok|by apply IH].
Qed.

Definition hour_invite : option (World * (string * N)) :=
  run_alone (InviteToken.mint_invite (invite_key toy_state) 5%N 3600%N) (start_world 1000000 toy_hosts toy_base).

Definition hour_code : string := from_option (fun x => x.2.1) EmptyString hour_invite.
Definition hour_world : World := from_option fst toy_start.1 hour_invite.

Lemma hour_invite_minted :
  exec nothing (relay_answer toy_state 0) (InviteToken.mint_invite (invite_key toy_state) 5%N 3600%N)
    (start_world 1000000 toy_hosts toy_base) hour_world (hour_code, 4600%N).
Proof.
  assert (from_option (fun x => x.2.2) 0%N hour_invite = 4600%N) as He by (vm_compute; reflexivity).
  apply run_alone_exec. unfold hour_world, hour_code. unfold hour_invite in *.
  destruct (run_alone _ _) as [[w [c e]]|]; cbn in He; [by rewrite He|done].
Qed.

Lemma invite_code_round_trip_witness :
  exists minted_at nonce,
    4600%N = (minted_at + 3600)%N /\
    verify_invite 4600%N (invite_key toy_state) 5%N hour_code = Ok (invite_of 5%N 4600%N nonce) /\
    verify_invite 4601%N (invite_key toy_state) 6%N hour_code = Err Expired.
Proof.
  destruct (invite_code_round_trip _ _ _ _ _ _ 5%N 3600%N _ _ 4600%N 5%N hour_invite_minted ltac:(reflexivity) ltac:(reflexivity)
    ltac:(reflexivity)) as (minted_at & nonce & Hm & _ & Hv).
  destruct (invite_code_round_trip _ _ _ _ _ _ 5%N 3600%N _ _ 4601%N 6%N hour_invite_minted ltac:(reflexivity) ltac:(reflexivity)
    ltac:(reflexivity)) as (minted_at' & nonce' & _ & _ & Hv').
  exists minted_at, nonce. split; [exact Hm|]. split; [exact Hv|exact Hv'].
Defined.
