(* ===== verification/Operator.v ===== *)
(** * Operators and the ownership of communities ([buzz-relay/src/api/operator.rs],
    [handlers/community_provisioning.rs], [buzz-db/src/relay_members.rs], [buzz-db/src/lib.rs])

    The HTTP interface by which the operators of a deployment create communities, archive
    them, and pass them from one owner to another.  Every SQL statement is a call of
    [OperatorCall]; [OwnershipWorld] models the answers.  [serde_json], [uuid] and axum's
    queries are the operations of [OperatorBodies] and [OperatorApi]. *)

From Stdlib Require Import DecimalString DecimalN.
From S2P Require Import Prelude Text Nostr Concurrent Tenant HttpAuth RelayMembers.

(** ** The requests *)

Record ProvisionCommunityRequest := {
  pr_host : string;
  pr_initial_owner_pubkey : option string;
  pr_create_only : bool;
}.

Record ArchiveCommunityRequest := {
  ac_host : string;
  ac_owner_pubkey : string;
}.

Record TransferCommunityRequest := {
  tr_community_id : string;
  tr_new_owner_pubkey : string;
  tr_expected_owner_pubkey : string;
}.

(** [serde_json::from_slice] of the bodies; [axum]'s reading of a query string. *)
Class OperatorBodies := {
  provision_from_slice : string -> Result ProvisionCommunityRequest string;
  archive_from_slice : string -> Result ArchiveCommunityRequest string;
  transfer_from_slice : string -> Result TransferCommunityRequest string;
  list_query : option string -> option string;
  availability_query : option string -> option string;
}.

Class OperatorApi := {
  (** [Uuid::parse_str] *)
  uuid_parse_str : string -> Result Uuid string;
  (** a string formatted by [{:?}], by the tables of Unicode *)
  debug_str : string -> string;
}.

(** What arrives: a route, with the headers, the query string and the body. *)
Inductive OpRequest :=
| PostCommunities (headers : HeaderMap) (body : string)
| PostArchive (headers : HeaderMap) (body : string)
| PostUnarchive (headers : HeaderMap) (body : string)
| PostTransfer (headers : HeaderMap) (body : string)
| GetCommunities (headers : HeaderMap) (raw_query : option string)
| GetAvailability (headers : HeaderMap) (raw_query : option string).

(** ** Calls *)

Record CommunityRecord := {
  cr_id : CommunityId;
  cr_host : string;
}.

Record OwnedCommunityRecord := {
  oc_id : CommunityId;
  oc_host : string;
  oc_created_at : Z;
  oc_archived_at : option Z;
}.

Inductive OperatorCall : Type -> Type :=
| OpRequestArrives : OperatorCall OpRequest
| OpClock : OperatorCall N
| OpPoolGet : OperatorCall (Result unit string)
| OpRedisSet (key value : string) (ttl : N) : OperatorCall (Result (option string) string)
| BeginTx : OperatorCall (Result Tx string)
| RollbackTx (tx : Tx) : OperatorCall (Result unit string)
| CommitTx (tx : Tx) : OperatorCall (Result unit string)
| AdvisoryXactLock (tx : Tx) (key : Z) : OperatorCall (Result unit string)
| SelectOwnersForUpdate (tx : Tx) (c : CommunityId) : OperatorCall (Result (list string) string)
| CountOwned (tx : Tx) (pubkey : string) : OperatorCall (Result Z string)
| UpsertOwner (tx : Tx) (c : CommunityId) (pubkey : string) : OperatorCall (Result unit string)
| DemoteOthers (tx : Tx) (role : string) (c : CommunityId) (pubkey : string) : OperatorCall (Result unit string)
| InsertCommunity (tx : Tx) (host : string) : OperatorCall (Result (option CommunityRecord) string)
| InsertOwner (tx : Tx) (c : CommunityId) (pubkey : string) : OperatorCall (Result unit string)
| SelectOwnedByHost (tx : Tx) (host pubkey : string) : OperatorCall (Result (option CommunityRecord) string)
| EnsureCommunity (host : string) : OperatorCall (Result (CommunityRecord * bool) string)
| SelectHost (c : CommunityId) : OperatorCall (Result (option string) string)
| SelectByHost (host : string) : OperatorCall (Result (option CommunityRecord) string)
| SelectOwned (pubkey : string) : OperatorCall (Result (list OwnedCommunityRecord) string)
| ArchiveOwned (host pubkey protected : string) : OperatorCall (Result (option (CommunityRecord * Z)) string)
| UnarchiveOwned (host pubkey : string) : OperatorCall (Result (option CommunityRecord) string)
| PublishMembers (tenant : TenantContext) : OperatorCall (Result unit string)
| DisconnectCommunity (tenant : TenantContext) : OperatorCall (Result N string).

#[export] Instance operator_auth : AuthCalls OperatorCall :=
  {| Now := OpClock; RedisPoolGet := OpPoolGet; SetNxEx := OpRedisSet |}.

Notation ask c := (Concurrent.call (Call := OperatorCall) c).
Notation OperatorProg := (Prog OperatorCall).

(** What the handlers read of the configuration; [os_owner_limit] is the variable
    [BUZZ_MAX_COMMUNITIES_PER_OWNER], read once. *)
Record OperatorState := {
  os_relay_url : string;
  os_api_origin : option string;
  os_operator_pubkeys : list string;
  os_require_membership : bool;
  os_owner_limit : option string;
}.

(** ** Ownership *)

Definition MAX_COMMUNITIES_PER_OWNER : Z := 3.

Definition parse_digits (s : string) : option N := N.of_uint <$> NilZero.uint_of_string s.

(** [str::parse::<i64>] *)
Definition parse_i64 (s : string) : option Z :=
  match s with
  | String "-" rest => n ← parse_digits rest; if (n <=? 2 ^ 63)%N then Some (- Z.of_N n)%Z else None
  | _ => n ← parse_digits (match s with String "+" rest => rest | _ => s end);
         if (n <? 2 ^ 63)%N then Some (Z.of_N n) else None
  end.

Definition effective_owner_limit (raw : option string) : Z :=
  match raw ≫= fun value => parse_i64 (trim value) with
  | Some limit => if (0 <? limit)%Z then limit else MAX_COMMUNITIES_PER_OWNER
  | None => MAX_COMMUNITIES_PER_OWNER
  end.

Definition FNV_OFFSET : N := 14695981039346656037.
Definition FNV_PRIME : N := 1099511628211.

Fixpoint fnv1a (h : N) (s : string) : N :=
  match s with
  | EmptyString => h
  | String b s => fnv1a ((N.lxor h (Ascii.N_of_ascii b) * FNV_PRIME) mod 2 ^ 64) s
  end.

Definition owner_count_advisory_lock_key (pubkey_hex : string) : Z := wrap_i64 (Z.of_N (fnv1a FNV_OFFSET pubkey_hex)).

(** A transaction that is dropped before its commit is rolled back. *)
Definition with_tx {A} (statements : Tx -> OperatorProg (Result A string)) : OperatorProg (Result A string) :=
  let!? tx := ask BeginTx in
  let! r := statements tx in
  match r with
  | Ok a => Ret (Ok a)
  | Err e => let! _ := ask (RollbackTx tx) in Ret (Err e)
  end.

Definition rolled_back {A} (tx : Tx) (a : A) : OperatorProg (Result A string) :=
  let!? _ := ask (RollbackTx tx) in Ret (Ok a).

Definition bootstrap_owner (c : CommunityId) (owner_pubkey : string) : OperatorProg (Result unit string) :=
  let pubkey := to_ascii_lowercase owner_pubkey in
  with_tx (fun tx =>
    let!? _ := ask (UpsertOwner tx c pubkey) in
    let!? _ := ask (DemoteOthers tx "admin" c pubkey) in
    ask (CommitTx tx)).

Inductive TransferResult :=
| Transferred (previous_owner : option string)
| AlreadyOwner
| NoOwner
| OwnerConflict
| LimitReached.

Definition previous_owner (existing_owners : list string) (pubkey : string) : option string :=
  match existing_owners with
  | [owner] => Some owner
  | _ => List.find (fun p => bool_decide (p <> pubkey)) existing_owners
  end.

Section ownership.
Context (state : OperatorState).

Definition max_communities_per_owner : Z := effective_owner_limit (os_owner_limit state).

Definition transfer_statements (c : CommunityId) (pubkey expected_owner : string) (tx : Tx)
    : OperatorProg (Result TransferResult string) :=
  let!? _ := ask (AdvisoryXactLock tx (owner_count_advisory_lock_key pubkey)) in
  let!? existing_owners := ask (SelectOwnersForUpdate tx c) in
  if decide (existing_owners = []) then rolled_back tx NoOwner
  else if negb (existsb (String.eqb expected_owner) existing_owners) then rolled_back tx OwnerConflict
  else if decide (existing_owners = [pubkey]) then rolled_back tx AlreadyOwner
  else
    let!? owned_count := ask (CountOwned tx pubkey) in
    if (max_communities_per_owner <=? owned_count)%Z then rolled_back tx LimitReached
    else
      let!? _ := ask (UpsertOwner tx c pubkey) in
      let!? _ := ask (DemoteOthers tx "member" c pubkey) in
      let!? _ := ask (CommitTx tx) in
      Ret (Ok (Transferred (previous_owner existing_owners pubkey))).

Definition transfer_ownership (c : CommunityId) (new_owner_pubkey expected_owner_pubkey : string)
    : OperatorProg (Result TransferResult string) :=
  with_tx (transfer_statements c (to_ascii_lowercase new_owner_pubkey) (to_ascii_lowercase expected_owner_pubkey)).

Inductive CreateCommunityWithOwnerResult :=
| Created (record : CommunityRecord)
| HostExists
| CreateLimitReached.

Definition create_statements (normalized_host pubkey : string) (tx : Tx)
    : OperatorProg (Result CreateCommunityWithOwnerResult string) :=
  let!? _ := ask (AdvisoryXactLock tx (owner_count_advisory_lock_key pubkey)) in
  let!? row := ask (InsertCommunity tx normalized_host) in
  match row with
  | Some record =>
      let!? owned_count := ask (CountOwned tx pubkey) in
      if (max_communities_per_owner <=? owned_count)%Z then rolled_back tx CreateLimitReached
      else
        let!? _ := ask (InsertOwner tx (cr_id record) pubkey) in
        let!? _ := ask (CommitTx tx) in
        Ret (Ok (Created record))
  | None =>
      let!? existing := ask (SelectOwnedByHost tx normalized_host pubkey) in
      match existing with
      | None => rolled_back tx HostExists
      | Some record => let!? _ := ask (CommitTx tx) in Ret (Ok (Created record))
      end
  end.

Definition create_community_with_owner (normalized_host owner_pubkey : string)
    : OperatorProg (Result CreateCommunityWithOwnerResult string) :=
  with_tx (create_statements normalized_host (to_ascii_lowercase owner_pubkey)).
End ownership.

(** ** Hosts and keys of a request *)

Definition MAX_HOST_LEN : nat := 255.

Definition validate_pubkey_hex (value : string) : option string :=
  let normalized := to_ascii_lowercase value in
  if bool_decide (String.length normalized = 64) && all_bytes is_ascii_hexdigit normalized then Some normalized else None.

(** A label of a domain: letters, digits and inner hyphens. *)
Definition valid_label (label : string) : bool :=
  all_bytes (fun b => is_ascii_alphanumeric b || bool_decide (b = "-"%char)) label
  && negb (starts_with label "-") && negb (ends_with_byte label "-"%char).

Fixpoint validate_labels (labels : list string) : Result unit string :=
  match labels with
  | [] => Ok tt
  | label :: labels =>
      if decide (label = EmptyString) then Err "domain contains an empty label"
      else if (63 <? String.length label)%nat then Err "domain label too long"
      else if negb (valid_label label) then Err "domain label contains invalid characters"
      else validate_labels labels
  end.

Definition validate_domain_labels (domain : string) : Result unit string :=
  if (253 <? String.length domain)%nat then Err "domain name too long" else validate_labels (split_on "."%char domain).

(** A control or white space character. *)
Definition blank_or_control (s : string) : bool := existsb (contains_str s) (control_chars ++ white_space).

(** A character of a URL outside its authority. *)
Definition beyond_authority (s : string) : bool := existsb (fun c => contains_byte c s) ["/"; "?"; "#"; "@"]%char.

Definition INVALID_CHARACTERS : string := "host contains invalid characters".
Definition NOT_BARE : string := "host must be a bare authority (no scheme, path, query, or userinfo)".

Section hosts.
Context `{UrlApi} `{OperatorApi}.

Definition validate_authority (authority : string) : Result unit string :=
  if blank_or_control authority then Err INVALID_CHARACTERS
  else if beyond_authority authority then Err NOT_BARE
  else
    match url_parse ("http://" ++ authority ++ "/") with
    | None => Err "host is not a valid authority"
    | Some parsed =>
        match url_host parsed with
        | None => Err "host is not a valid authority"
        | Some host =>
            let? serialized_host :=
              match host with
              | Domain domain => let? _ := validate_domain_labels domain in Ok domain
              | Ipv4 addr => Ok addr
              | Ipv6 addr => Ok ("[" ++ addr ++ "]")%string
              end in
            let canonical_authority := match url_port parsed with
                                       | Some port => (serialized_host ++ ":" ++ decimal port)%string
                                       | None => serialized_host
                                       end in
            if decide (canonical_authority = authority) then Ok tt
            else Err ("host is not a canonical authority: expected " ++ debug_str canonical_authority)%string
        end
    end.

Definition check_host_length (host : string) : Result unit string :=
  if decide (host = EmptyString) then Err "host is empty"
  else if (MAX_HOST_LEN <? String.length host)%nat then
    Err ("host too long: " ++ decimal (N.of_nat (String.length host)) ++ " bytes (max "
         ++ decimal (N.of_nat MAX_HOST_LEN) ++ ")")%string
  else Ok tt.

Definition validate_host (host : string) : Result unit string :=
  let? _ := check_host_length host in
  if decide (normalize_host host <> host) then
    Err ("host is not normalized: expected " ++ debug_str (normalize_host host))%string
  else validate_authority host.

Definition normalize_candidate_host (host : string) : Result string string :=
  let? _ := check_host_length host in
  if blank_or_control host then Err INVALID_CHARACTERS
  else if beyond_authority host then Err NOT_BARE
  else
    let normalized := normalize_host host in
    let? _ := validate_host normalized in
    Ok normalized.
End hosts.

(** ** Provisioning ([community_provisioning.rs]) *)

Record ProvisionCommunityResponse := {
  pc_community_id : string;
  pc_host : string;
  pc_status : string;
  pc_owner_pubkey : option string;
}.

(** The fields of the responses. *)
Inductive OpResponse :=
| Provisioned (response : ProvisionCommunityResponse)
| Archived (community_id host : string) (archived_at : Z)
| Unarchived (community_id host : string)
| OwnedBy (owner_pubkey : string) (communities : list OwnedCommunityRecord)
| TransferAnswer (community_id new_owner_pubkey status : string) (previous_owner : option string)
| Availability (host normalized_host : string) (available : bool) (community_id : option string).

(** An error response; the status of the last is 503. *)
Inductive OpError :=
| Refused (e : ApiError)
| PropagationPending (community_id host : string) (archived_at : Z).

Definition op_error (status : N) (what : string) : OpError := Refused (api_error status what).
Definition op_internal : OpError := Refused internal_error.

Section handlers.
Context `{UrlApi} `{AuthApi} `{OperatorApi} `{OperatorBodies}.
Context (state : OperatorState).

(** [operator_pubkeys.iter().any(..)] *)
Definition is_operator (pubkey : PublicKey) : bool :=
  existsb (String.eqb (pubkey_to_hex pubkey)) (os_operator_pubkeys state).

(** A publication that fails is only logged. *)
Definition publish (tenant : TenantContext) : OperatorProg unit := let! _ := ask (PublishMembers tenant) in Ret tt.

Definition publish_membership_snapshot_if_required (c : CommunityId) (host : string) : OperatorProg unit :=
  if os_require_membership state then publish (resolved c host) else Ret tt.

Definition LIMIT_OWNER : string := "limit_reached: owner already owns the maximum number of communities".
Definition NOT_OPERATOR : string := "actor not authorized: not a relay operator".

(** [create_only], for the owner given. *)
Definition provision_create_only (host : string) (initial_owner : option string)
    : OperatorProg (Result ProvisionCommunityResponse string) :=
  match initial_owner with
  | None => Ret (Err "initial_owner_pubkey is required when create_only is true")
  | Some owner_hex =>
      let!? result := map_err_await (fun e => "failed to create community: " ++ e)%string
        (create_community_with_owner state host owner_hex) in
      match result with
      | HostExists => Ret (Err "community already exists")
      | CreateLimitReached => Ret (Err LIMIT_OWNER)
      | Created record =>
          let! _ := publish_membership_snapshot_if_required (cr_id record) (cr_host record) in
          Ret (Ok {| pc_community_id := uuid_to_string (cr_id record); pc_host := cr_host record;
                     pc_status := "created"; pc_owner_pubkey := initial_owner |})
      end
  end.

(** The convergence of a host and its owner, for operators and start-up tooling. *)
Definition provision_legacy (host : string) (initial_owner : option string)
    : OperatorProg (Result ProvisionCommunityResponse string) :=
  let!? ensured := map_err_await (fun e => "failed to create community: " ++ e)%string (ask (EnsureCommunity host)) in
  let record := ensured.1 in
  let!? _ := match initial_owner with
             | Some owner_hex =>
                 let!? _ := map_err_await (fun e => "community provisioned but owner bootstrap failed: " ++ e)%string
                   (bootstrap_owner (cr_id record) owner_hex) in
                 let! _ := publish_membership_snapshot_if_required (cr_id record) (cr_host record) in
                 Ret (Ok tt)
             | None => Ret (Ok tt)
             end in
  Ret (Ok {| pc_community_id := uuid_to_string (cr_id record); pc_host := cr_host record;
             pc_status := if (ensured.2 : bool) then "created" else "existed"; pc_owner_pubkey := initial_owner |}).

(** The owner of a request, if there is one. *)
Definition initial_owner_of (request : ProvisionCommunityRequest) : Result (option string) string :=
  match pr_initial_owner_pubkey request with
  | None => Ok None
  | Some value =>
      match validate_pubkey_hex value with
      | Some owner => Ok (Some owner)
      | None => Err "invalid initial_owner_pubkey: expected 64-char hex pubkey"
      end
  end.

Definition execute_provision (operator_pubkey : PublicKey) (request : ProvisionCommunityRequest)
    : OperatorProg (Result ProvisionCommunityResponse string) :=
  if negb (is_operator operator_pubkey) then Ret (Err NOT_OPERATOR)
  else
    match let? _ := validate_host (pr_host request) in initial_owner_of request with
    | Err e => Ret (Err e)
    | Ok initial_owner =>
        if pr_create_only request then provision_create_only (pr_host request) initial_owner
        else provision_legacy (pr_host request) initial_owner
    end.

(** ** Authorisation *)

Definition OPERATOR_REPLAY_SCOPE : string := "operator-management".

Definition check_operator_replay (event_id_bytes : string) : OperatorProg (Result unit OpError) :=
  let event_id := event_id_from_byte_array event_id_bytes in
  let! r := try_mark_in_scope OPERATOR_REPLAY_SCOPE event_id DEFAULT_REPLAY_TTL_SECS in
  Ret (match r with
       | Ok true => Ok tt
       | Ok false => Err (op_error 401 "NIP-98: replay detected")
       | Err _ => Err (op_error 401 "NIP-98: replay check unavailable")
       end).

(** The URL of a route of the management origin. *)
Definition operator_url (origin path : string) (raw_query : option string) : string :=
  (origin ++ match raw_query with
             | Some q => if decide (q = EmptyString) then path else path ++ "?" ++ q
             | None => path
             end)%string.

Definition authorize_operator_request (headers : HeaderMap) (method path : string) (raw_query body : option string)
    : OperatorProg (Result PublicKey OpError) :=
  match os_api_origin state with
  | None => Ret (Err op_internal)
  | Some origin =>
      let url := operator_url origin path raw_query in
      let!? verified := map_err_await Refused
        (verify_bridge_auth_with_options headers method url body true (bool_decide (is_Some body))) in
      let!? _ := check_operator_replay verified.2 in
      if is_operator verified.1 then Ret (Ok verified.1) else Ret (Err (op_error 403 NOT_OPERATOR))
  end.

(** [serde_json] and the validations of a request: status 400. *)
Definition bad {A} (what : string) (r : Result A string) : Result A OpError :=
  map_err (fun e => op_error 400 (what ++ e)%string) r.

Definition hex_field (name value : string) : Result string OpError :=
  match validate_pubkey_hex value with
  | Some hex => Ok hex
  | None => Err (op_error 400 ("invalid " ++ name ++ ": expected 64-char hex pubkey")%string)
  end.

(** A database error is logged and answered with status 500. *)
Definition db {A} (p : OperatorProg (Result A string)) : OperatorProg (Result A OpError) :=
  map_err_await (fun _ => op_internal) p.

(** The response of a refusal of [execute_provision], by its text. *)
Definition provision_error (msg : string) : OpError :=
  if starts_with msg "actor not authorized" then op_error 403 msg
  else if String.eqb msg "community already exists" || starts_with msg "limit_reached:" then op_error 409 msg
  else if starts_with msg "failed to create community:"
       || starts_with msg "community provisioned but owner bootstrap failed:" then op_internal
  else op_error 400 msg.

Definition provision_community (headers : HeaderMap) (body : string) : OperatorProg (Result OpResponse OpError) :=
  let!? pubkey := authorize_operator_request headers "POST" "/operator/communities" None (Some body) in
  match bad "invalid provision-community JSON: " (provision_from_slice body) with
  | Err e => Ret (Err e)
  | Ok request =>
      let!? response := map_err_await provision_error (execute_provision pubkey request) in
      Ret (Ok (Provisioned response))
  end.

(** What an archive or unarchive request names: a normalised host and an owner. *)
Definition archive_target (what body : string) : Result (string * string) OpError :=
  let? request := bad what (archive_from_slice body) in
  let? host := bad "" (normalize_candidate_host (ac_host request)) in
  Ok (host, ac_owner_pubkey request).

Definition archive_community (headers : HeaderMap) (body : string) : OperatorProg (Result OpResponse OpError) :=
  let!? _ := authorize_operator_request headers "POST" "/operator/communities/archive" None (Some body) in
  let deployment_host := relay_url_authority (os_relay_url state) in
  match
    let? target := archive_target "invalid archive-community JSON: " body in
    if decide (target.1 = deployment_host) then Err (op_error 409 "the deployment community cannot be archived")
    else let? owner := hex_field "owner_pubkey" target.2 in Ok (target.1, owner)
  with
  | Err e => Ret (Err e)
  | Ok (normalized_host, owner) =>
      let!? archived := db (ask (ArchiveOwned normalized_host owner deployment_host)) in
      match archived with
      | None => Ret (Err (op_error 404 "community not found"))
      | Some (record, archived_at) =>
          let! closed := ask (DisconnectCommunity (resolved (cr_id record) (cr_host record))) in
          let community_id := uuid_to_string (cr_id record) in
          Ret (match closed with
               | Ok _ => Ok (Archived community_id (cr_host record) archived_at)
               | Err _ => Err (PropagationPending community_id (cr_host record) archived_at)
               end)
      end
  end.

Definition unarchive_community (headers : HeaderMap) (body : string) : OperatorProg (Result OpResponse OpError) :=
  let!? _ := authorize_operator_request headers "POST" "/operator/communities/unarchive" None (Some body) in
  match
    let? target := archive_target "invalid unarchive-community JSON: " body in
    let? owner := hex_field "owner_pubkey" target.2 in Ok (target.1, owner)
  with
  | Err e => Ret (Err e)
  | Ok (normalized_host, owner) =>
      let!? restored := db (ask (UnarchiveOwned normalized_host owner)) in
      Ret (match restored with
           | None => Err (op_error 404 "community not found")
           | Some record => Ok (Unarchived (uuid_to_string (cr_id record)) (cr_host record))
           end)
  end.

(** [axum] refuses a query without the parameter. *)
Definition list_owned_communities (headers : HeaderMap) (raw_query : option string) (owner : string)
    : OperatorProg (Result OpResponse OpError) :=
  let!? _ := authorize_operator_request headers "GET" "/operator/communities" raw_query None in
  match hex_field "owner_pubkey" owner with
  | Err e => Ret (Err e)
  | Ok owner_pubkey =>
      let!? rows := db (ask (SelectOwned (to_ascii_lowercase owner_pubkey))) in
      Ret (Ok (OwnedBy owner_pubkey rows))
  end.

(** The community, the new owner and the expected one of a transfer request. *)
Definition transfer_target (request : TransferCommunityRequest) : Result (CommunityId * (string * string)) OpError :=
  let? c := bad "invalid community_id: " (uuid_parse_str (tr_community_id request)) in
  let? new := hex_field "new_owner_pubkey" (tr_new_owner_pubkey request) in
  let? expected := hex_field "expected_owner_pubkey" (tr_expected_owner_pubkey request) in
  Ok (c, (new, expected)).

Definition NO_OWNER : OpError := op_error 404 "community has no owner to transfer from".
Definition OWNER_CONFLICT : OpError :=
  op_error 409 "owner_conflict: the current owner no longer matches expected_owner_pubkey".
Definition TRANSFER_LIMIT : OpError :=
  op_error 409 "limit_reached: transferee already owns the maximum number of communities".

Definition transfer_status (result : TransferResult) : Result (string * option string) OpError :=
  match result with
  | Transferred previous => Ok ("transferred", previous)
  | AlreadyOwner => Ok ("already_owner", None)
  | NoOwner => Err NO_OWNER
  | OwnerConflict => Err OWNER_CONFLICT
  | LimitReached => Err TRANSFER_LIMIT
  end.

(** The announcement after a transfer; only the lookup of the host can fail the request. *)
Definition publish_transfer (c : CommunityId) : OperatorProg (Result unit OpError) :=
  if os_require_membership state then
    let!? host := db (ask (SelectHost c)) in
    match host with
    | Some host => let! _ := publish (resolved c host) in Ret (Ok tt)
    | None => Ret (Ok tt)
    end
  else Ret (Ok tt).

Definition transfer_community (headers : HeaderMap) (body : string) : OperatorProg (Result OpResponse OpError) :=
  let!? _ := authorize_operator_request headers "POST" "/operator/communities/transfer" None (Some body) in
  match
    let? request := bad "invalid transfer-community JSON: " (transfer_from_slice body) in
    let? target := transfer_target request in
    Ok (request, target)
  with
  | Err e => Ret (Err e)
  | Ok (request, (c, (new_owner, expected_owner))) =>
      let!? result := db (transfer_ownership state c new_owner expected_owner) in
      match transfer_status result with
      | Err e => Ret (Err e)
      | Ok (status, previous_owner) =>
          let!? _ := publish_transfer c in
          Ret (Ok (TransferAnswer (tr_community_id request) new_owner status previous_owner))
      end
  end.

Definition community_availability (headers : HeaderMap) (raw_query : option string) (host : string)
    : OperatorProg (Result OpResponse OpError) :=
  let!? _ := authorize_operator_request headers "GET" "/operator/communities/availability" raw_query None in
  match bad "" (normalize_candidate_host host) with
  | Err e => Ret (Err e)
  | Ok normalized_host =>
      let!? existing := db (ask (SelectByHost normalized_host)) in
      Ret (Ok (Availability host normalized_host (bool_decide (existing = None))
                 ((fun record => uuid_to_string (cr_id record)) <$> existing)))
  end.

(** The routes. *)
Definition operate (req : OpRequest) : OperatorProg (Result OpResponse OpError) :=
  match req with
  | PostCommunities headers body => provision_community headers body
  | PostArchive headers body => archive_community headers body
  | PostUnarchive headers body => unarchive_community headers body
  | PostTransfer headers body => transfer_community headers body
  | GetCommunities headers q =>
      match list_query q with
      | Some owner => list_owned_communities headers q owner
      | None => Ret (Err (op_error 400 "query"))
      end
  | GetAvailability headers q =>
      match availability_query q with
      | Some host => community_availability headers q host
      | None => Ret (Err (op_error 400 "query"))
      end
  end.

(** A task takes one request that arrives and answers it. *)
Definition serve_operator (_ : unit) : OperatorProg (OpRequest * Result OpResponse OpError) :=
  let! req := ask OpRequestArrives in
  let! r := operate req in
  Ret (req, r).
End handlers.
