(* ===== verification/OwnershipWorld.v ===== *)
(** * The surroundings of ownership

    The world of the programs of [Operator] on any number of pods: PostgreSQL at the isolation
    level READ COMMITTED, Redis and a clock.  A statement of a transaction reads a snapshot
    taken after the statement before it; it locks and re-reads the rows it selects for update
    or changes, waiting for transactions that hold them, so that rows that changed meanwhile
    drop out; an advisory lock has one holder; and whatever is not committed is lost with its
    connection.  [o_past] only records what happened. *)

From S2P Require Import Prelude Text Nostr Concurrent Tenant HttpAuth RelayMembers MembershipWorld Operator.

Record Community := {
  co_host : string;
  co_created_at : Z;
  co_archived_at : option Z;
}.

(** The committed tables. *)
Record Db := {
  d_members : gmap (CommunityId * string) RelayMember;
  d_communities : gmap CommunityId Community;
}.

(** What a statement of an open transaction wrote. *)
Inductive OpWrite :=
| WroteRow (c : CommunityId) (pubkey : string) (row : RelayMember)
| WroteCommunity (c : CommunityId) (row : Community).

(** A transaction: when it began, how many tables there had been at its last statement, its
    writes, the rows of [relay_members] and the advisory keys it has locked. *)
Record TxState := {
  t_began : Z;
  t_seen : nat;
  t_writes : list OpWrite;
  t_rows : gset (CommunityId * string);
  t_keys : gset Z;
}.

(** [o_time] in milliseconds; [o_redis] has the expiry of each key, [o_past] the committed
    tables there were, the oldest first. *)
Record OpWorld := {
  o_time : Z;
  o_redis : gmap string Z;
  o_db : Db;
  o_past : list Db;
  o_txs : gmap Tx TxState;
  o_next_tx : Tx;
}.

Definition start_ownership (time : Z) (db : Db) : OpWorld :=
  {| o_time := time; o_redis := ∅; o_db := db; o_past := []; o_txs := ∅; o_next_tx := 0%N |}.

Definition set_clock (time : Z) (redis : gmap string Z) w : OpWorld :=
  {| o_time := time; o_redis := redis; o_db := o_db w; o_past := o_past w; o_txs := o_txs w; o_next_tx := o_next_tx w |}.

Definition set_txs (txs : gmap Tx TxState) (next : Tx) w : OpWorld :=
  {| o_time := o_time w; o_redis := o_redis w; o_db := o_db w; o_past := o_past w; o_txs := txs; o_next_tx := next |}.

Definition set_db (db : Db) w : OpWorld :=
  {| o_time := o_time w; o_redis := o_redis w; o_db := db; o_past := o_past w ++ [o_db w]; o_txs := o_txs w;
     o_next_tx := o_next_tx w |}.

Definition set_members (members : gmap (CommunityId * string) RelayMember) (d : Db) : Db :=
  {| d_members := members; d_communities := d_communities d |}.

Definition set_communities (communities : gmap CommunityId Community) (d : Db) : Db :=
  {| d_members := d_members d; d_communities := communities |}.

(** ** Tables *)

Definition apply_op (d : Db) (u : OpWrite) : Db :=
  match u with
  | WroteRow c pk row => set_members (<[(c, pk) := row]> (d_members d)) d
  | WroteCommunity c row => set_communities (<[c := row]> (d_communities d)) d
  end.

(** Tables as a transaction with those writes sees them. *)
Definition view (d : Db) (ws : list OpWrite) : Db := foldl apply_op d ws.

(** Every committed table there was, and is. *)
Definition tables (w : OpWorld) : list Db := o_past w ++ [o_db w].

(** Those since the last statement of a transaction. *)
Definition recent (w : OpWorld) (s : TxState) : list Db := drop (t_seen s) (tables w).

Definition owns (d : Db) (c : CommunityId) (pk : string) : Prop := rm_role <$> d_members d !! (c, pk) = Some "owner".

#[export] Instance owns_dec d c pk : Decision (owns d c pk).
Proof. unfold owns. apply _. Defined.

(** The communities a key owns. *)
Definition owned (d : Db) (pk : string) : gset CommunityId :=
  set_map fst (dom (filter (fun kv : (CommunityId * string) * RelayMember => kv.1.2 = pk /\ rm_role kv.2 = "owner") (d_members d))).

Definition owned_count (d : Db) (pk : string) : Z := Z.of_nat (size (owned d pk)).

(** ** Transactions *)

(** No transaction but [tx] has locked the row. *)
Definition free (w : OpWorld) (tx : option Tx) (k : CommunityId * string) : Prop :=
  forall tx' s, o_txs w !! tx' = Some s -> tx <> Some tx' -> k ∉ t_rows s.

Definition begun (w : OpWorld) : TxState :=
  {| t_began := o_time w; t_seen := length (o_past w); t_writes := []; t_rows := ∅; t_keys := ∅ |}.

Definition advance (w : OpWorld) (s : TxState) (ws : list OpWrite) (rows : gset (CommunityId * string)) (keys : gset Z) : TxState :=
  {| t_began := t_began s; t_seen := length (o_past w); t_writes := t_writes s ++ ws; t_rows := t_rows s ∪ rows;
     t_keys := t_keys s ∪ keys |}.

(** The world after a statement of [tx]. *)
Definition after (w : OpWorld) (tx : Tx) (s : TxState) ws rows keys : OpWorld :=
  set_txs (<[tx := advance w s ws rows keys]> (o_txs w)) (o_next_tx w) w.

Definition ended (w : OpWorld) (tx : Tx) : OpWorld := set_txs (delete tx (o_txs w)) (o_next_tx w) w.

Definition committed (w : OpWorld) (tx : Tx) (s : TxState) : OpWorld := set_db (view (o_db w) (t_writes s)) (ended w tx).

Definition matches (P : CommunityId * string -> RelayMember -> Prop) (d : Db) (k : CommunityId * string) : Prop :=
  exists row, d_members d !! k = Some row /\ P k row.

(** The rows [X] that a locking statement ends up with: those of its snapshot that still match
    once they are locked. *)
Record locked_rows (w : OpWorld) (tx : Tx) (s : TxState) (P : CommunityId * string -> RelayMember -> Prop) (d : Db)
    (X : list (CommunityId * string)) : Prop := {
  lr_nodup : NoDup X;
  lr_snapshot : d ∈ recent w s;
  lr_locked k : k ∈ X -> free w (Some tx) k /\ matches P (view d (t_writes s)) k /\ matches P (view (o_db w) (t_writes s)) k;
  lr_all k : matches P (view d (t_writes s)) k ->
    k ∈ X \/ exists d', d' ∈ recent w s /\ ~ matches P (view d' (t_writes s)) k;
}.

Definition owner_row_of (c : CommunityId) (k : CommunityId * string) (row : RelayMember) : Prop :=
  k.1 = c /\ rm_role row = "owner".

Definition other_owner_row (c : CommunityId) (pk : string) (k : CommunityId * string) (row : RelayMember) : Prop :=
  owner_row_of c k row /\ k.2 <> pk.

(** [ON CONFLICT (community_id, pubkey) DO UPDATE SET role = 'owner', updated_at = now()] *)
Definition upserted (old : option RelayMember) (now : Z) : RelayMember :=
  match old with
  | Some row => set_role "owner" now row
  | None => new_member "owner" None now
  end.

Definition demotions (role : string) (now : Z) (d : Db) (X : list (CommunityId * string)) : list OpWrite :=
  omap (fun k => (fun row => WroteRow k.1 k.2 (set_role role now row)) <$> d_members d !! k) X.

Definition new_community (host : string) (now : Z) : Community :=
  {| co_host := host; co_created_at := now; co_archived_at := None |}.

Definition archived_since (time : Z) (row : Community) : Z := default time (co_archived_at row).

Definition set_archived (archived : option Z) (row : Community) : Community :=
  {| co_host := co_host row; co_created_at := co_created_at row; co_archived_at := archived |}.

(** An identifier nobody has drawn before. *)
Definition fresh_id (w : OpWorld) (c : CommunityId) : Prop :=
  c <> 0%N /\ d_communities (o_db w) !! c = None /\
  forall tx s row, o_txs w !! tx = Some s -> WroteCommunity c row ∉ t_writes s.

Definition record_of (c : CommunityId) (row : Community) : CommunityRecord := {| cr_id := c; cr_host := co_host row |}.

Definition owned_record (c : CommunityId) (row : Community) : OwnedCommunityRecord :=
  {| oc_id := c; oc_host := co_host row; oc_created_at := co_created_at row; oc_archived_at := co_archived_at row |}.

(** ** What others do

    Time passes and keys of Redis expire; a transaction is lost with its connection; and
    the other statements on [relay_members] change rows that are not those of owners into
    rows that are not. *)
Inductive environment : OpWorld -> OpWorld -> Prop :=
| env_time w time redis :
    (o_time w <= time)%Z -> redis ⊆ o_redis w ->
    (forall k expiry, o_redis w !! k = Some expiry -> (time < expiry)%Z -> redis !! k = Some expiry) ->
    environment w (set_clock time redis w)
| env_lost w tx : environment w (ended w tx)
| env_member w k new :
    free w None k -> ~ owns (o_db w) k.1 k.2 ->
    (forall row, new = Some row -> rm_role row <> "owner" /\ is_Some (d_communities (o_db w) !! k.1)) ->
    environment w (set_db (set_members (partial_alter (fun _ => new) k (d_members (o_db w))) (o_db w)) w).

(** The [lower] of the database. *)
Class SqlText := { sql_lower : string -> string }.

Section answers.
Context `{SqlText} `{OperatorBodies}.
Context (skew : Z) (legacy : bool).

Definition same_host (host : string) (row : Community) : Prop := sql_lower host = sql_lower (co_host row).

(** The owner of the community is, up to case, [pk]. *)
Definition owned_by (d : Db) (c : CommunityId) (pk : string) : Prop :=
  exists pk', sql_lower pk' = sql_lower pk /\ owns d c pk'.

(** No community of [d] has the host, and no other open transaction is inserting one. *)
Definition host_free (w : OpWorld) (d : Db) (tx : option Tx) (host : string) : Prop :=
  (forall c row, d_communities d !! c = Some row -> ~ same_host host row) /\
  (forall tx' s c row, o_txs w !! tx' = Some s -> tx <> Some tx' -> WroteCommunity c row ∈ t_writes s -> ~ same_host host row).

(** A request that would set the owner of a community that may have one. *)
Definition rotates (req : OpRequest) : Prop :=
  match req with
  | PostCommunities _ body => exists request, provision_from_slice body = Ok request /\
      pr_create_only request = false /\ is_Some (pr_initial_owner_pubkey request)
  | _ => False
  end.

(** A statement of [tx] that fails, or does what [P] says. *)
Definition in_tx {A} (w w' : OpWorld) (r : Result A string) (tx : Tx) (P : TxState -> Prop) : Prop :=
  failed r /\ w' = w \/ exists s, o_txs w !! tx = Some s /\ P s.

Definition operator_effect (R : Type) (c : OperatorCall R) (w w' : OpWorld) : R -> Prop :=
  match c in OperatorCall R return R -> Prop with
  | OpRequestArrives => fun req => w' = w /\ (legacy = false -> ~ rotates req)
  | OpClock => fun now => w' = w /\ clock_reads skew (o_time w) now
  | OpPoolGet => fun _ => w' = w
  | OpRedisSet key _ ttl => fun r =>
      failed r /\ w' = w \/
      is_Some (o_redis w !! key) /\ w' = w /\ ran None r \/
      o_redis w !! key = None /\ ran (Some "OK") r /\
        w' = set_clock (o_time w) (<[key := (o_time w + Z.of_N ttl * 1000)%Z]> (o_redis w)) w
  | BeginTx => fun r =>
      failed r /\ w' = w \/
      ran (o_next_tx w) r /\ w' = set_txs (<[o_next_tx w := begun w]> (o_txs w)) (o_next_tx w + 1)%N w
  | RollbackTx tx => fun r => failed r /\ w' = w \/ ran tt r /\ w' = ended w tx
  | CommitTx tx => fun r =>
      failed r /\ (w' = w \/ w' = ended w tx) \/
      exists s, o_txs w !! tx = Some s /\ ran tt r /\ w' = committed w tx s
  | AdvisoryXactLock tx key => fun r => in_tx w w' r tx (fun s =>
      (forall tx' s', o_txs w !! tx' = Some s' -> tx' <> tx -> key ∉ t_keys s') /\
      ran tt r /\ w' = after w tx s [] ∅ {[key]})
  | SelectOwnersForUpdate tx c => fun r => in_tx w w' r tx (fun s => exists d X,
      locked_rows w tx s (owner_row_of c) d X /\ ran X.*2 r /\ w' = after w tx s [] (list_to_set X) ∅)
  | CountOwned tx pk => fun r => in_tx w w' r tx (fun s => exists d,
      d ∈ recent w s /\ ran (owned_count (view d (t_writes s)) pk) r /\ w' = after w tx s [] ∅ ∅)
  | UpsertOwner tx c pk => fun r => in_tx w w' r tx (fun s =>
      let now := view (o_db w) (t_writes s) in
      free w (Some tx) (c, pk) /\ is_Some (d_communities now !! c) /\ ran tt r /\
      w' = after w tx s [WroteRow c pk (upserted (d_members now !! (c, pk)) (t_began s))] {[(c, pk)]} ∅)
  | DemoteOthers tx role c pk => fun r => in_tx w w' r tx (fun s => exists d X,
      valid_role role /\ locked_rows w tx s (other_owner_row c pk) d X /\ ran tt r /\
      w' = after w tx s (demotions role (t_began s) (view (o_db w) (t_writes s)) X) (list_to_set X) ∅)
  | InsertCommunity tx host => fun r => in_tx w w' r tx (fun s =>
      let now := view (o_db w) (t_writes s) in
      (exists c row, d_communities now !! c = Some row /\ same_host host row /\ ran None r /\ w' = after w tx s [] ∅ ∅) \/
      (exists c, host_free w now (Some tx) host /\ fresh_id w c /\ ran (Some {| cr_id := c; cr_host := host |}) r /\
         w' = after w tx s [WroteCommunity c (new_community host (t_began s))] ∅ ∅))
  | InsertOwner tx c pk => fun r => in_tx w w' r tx (fun s =>
      let now := view (o_db w) (t_writes s) in
      free w (Some tx) (c, pk) /\ d_members now !! (c, pk) = None /\ is_Some (d_communities now !! c) /\ ran tt r /\
      w' = after w tx s [WroteRow c pk (new_member "owner" None (t_began s))] {[(c, pk)]} ∅)
  | SelectOwnedByHost tx host pk => fun r => in_tx w w' r tx (fun s => exists d o,
      let read := view d (t_writes s) in
      let found c row := d_communities read !! c = Some row /\ same_host host row /\ owned_by read c pk /\ co_archived_at row = None in
      d ∈ recent w s /\ (forall x, o = Some x -> exists c row, found c row /\ x = record_of c row) /\
      (o = None -> forall c row, ~ found c row) /\ ran o r /\ w' = after w tx s [] ∅ ∅)
  | EnsureCommunity host => fun r =>
      failed r /\ w' = w \/
      (exists c row, d_communities (o_db w) !! c = Some row /\ same_host host row /\ ran (record_of c row, false) r /\ w' = w) \/
      (exists c, host_free w (o_db w) None host /\ fresh_id w c /\ ran ({| cr_id := c; cr_host := host |}, true) r /\
         w' = set_db (set_communities (<[c := new_community host (o_time w)]> (d_communities (o_db w))) (o_db w)) w)
  | SelectHost c => fun r => w' = w /\ (failed r \/
      r = Ok (row ← d_communities (o_db w) !! c; if co_archived_at row then None else Some (co_host row)))
  | SelectByHost host => fun r => w' = w /\ (failed r \/
      exists o, r = Ok o /\ (forall x, o = Some x -> exists c row, d_communities (o_db w) !! c = Some row /\ same_host host row /\ x = record_of c row) /\
        (o = None -> forall c row, d_communities (o_db w) !! c = Some row -> ~ same_host host row))
  | SelectOwned pk => fun r => w' = w /\ (failed r \/
      exists l, r = Ok l /\ NoDup l /\ StronglySorted Z.le (oc_created_at <$> l) /\
        forall x, x ∈ l <-> exists c row, d_communities (o_db w) !! c = Some row /\ owns (o_db w) c pk /\ x = owned_record c row)
  | ArchiveOwned host pk protected => fun r =>
      failed r /\ w' = w \/
      (exists c row d, d_communities (o_db w) !! c = Some row /\ same_host host row /\ d ∈ tables w /\ owned_by d c pk /\
         ~ same_host protected row /\ ran (Some (record_of c row, archived_since (o_time w) row)) r /\
         w' = set_db (set_communities (<[c := set_archived (Some (archived_since (o_time w) row)) row]> (d_communities (o_db w))) (o_db w)) w) \/
      (exists d, d ∈ tables w /\ (forall c row, d_communities d !! c = Some row -> same_host host row -> owned_by d c pk ->
         same_host protected row) /\ ran None r /\ w' = w)
  | UnarchiveOwned host pk => fun r =>
      failed r /\ w' = w \/
      (exists c row d, d_communities (o_db w) !! c = Some row /\ same_host host row /\ d ∈ tables w /\ owned_by d c pk /\
         ran (Some (record_of c row)) r /\
         w' = set_db (set_communities (<[c := set_archived None row]> (d_communities (o_db w))) (o_db w)) w) \/
      (exists d, d ∈ tables w /\ (forall c row, d_communities d !! c = Some row -> same_host host row -> ~ owned_by d c pk) /\
         ran None r /\ w' = w)
  | PublishMembers _ => fun _ => w' = w
  | DisconnectCommunity _ => fun _ => w' = w
  end.

Definition operator_answer (R : Type) (c : OperatorCall R) (w w' : OpWorld) (r : R) : Prop :=
  exists w0, rtc environment w w0 /\ operator_effect R c w0 w' r.
End answers.
