(* ===== verification/OwnershipProps.v ===== *)
(** * Who owns a community ([Operator], in the world of [OwnershipWorld])

    The invariant of ownership: one owner per community, no key above the limit, and ownership
    passes only by the signed requests of operators; with what each answer of a transfer or a
    creation tells.  A task owns the transaction it has begun; what it has read of rows and
    counts it has locked stays so ([stable]). *)

From S2P Require Import Prelude Text Nostr Concurrent Tenant HttpAuth RelayMembers MembershipWorld HttpAuthProps Operator OwnershipWorld.

(** ** Tables *)

Lemma view_snoc d ws u : view d (ws ++ [u]) = apply_op (view d ws) u.
Proof. unfold view. by rewrite foldl_snoc. Qed.

Lemma view_members d ws k :
  (forall row, WroteRow k.1 k.2 row ∉ ws) -> d_members (view d ws) !! k = d_members d !! k.
Proof.
  induction ws as [|u ws IH] using rev_ind; [done|]. intros Hn. rewrite view_snoc.
  assert (d_members (view d ws) !! k = d_members d !! k) as <-.
  { apply IH. intros row Hin. apply (Hn row). apply elem_of_app. by left. }
  destruct u as [c pk row|c row]; cbn; [|done]. rewrite lookup_insert_ne; [done|]. intros <-.
  apply (Hn row). apply elem_of_app. right. by left.
Qed.

Lemma view_written d ws k row :
  d_members (view d ws) !! k = Some row -> d_members d !! k = Some row \/ WroteRow k.1 k.2 row ∈ ws.
Proof.
  induction ws as [|u ws IH] using rev_ind; [by left|]. rewrite view_snoc, elem_of_app.
  destruct u as [c pk row'|c row']; cbn; [|naive_solver].
  intros [[<- <-]|[_ Hlk]]%lookup_insert_Some; [right; right; by left|naive_solver].
Qed.

Lemma view_communities d ws c :
  (forall row, WroteCommunity c row ∉ ws) -> d_communities (view d ws) !! c = d_communities d !! c.
Proof.
  induction ws as [|u ws IH] using rev_ind; [done|]. intros Hn. rewrite view_snoc.
  assert (d_communities (view d ws) !! c = d_communities d !! c) as <-.
  { apply IH. intros row Hin. apply (Hn row). apply elem_of_app. by left. }
  destruct u as [c' pk row|c' row]; cbn; [done|]. rewrite lookup_insert_ne; [done|]. intros <-.
  apply (Hn row). apply elem_of_app. right. by left.
Qed.

Lemma view_community d ws c row : WroteCommunity c row ∈ ws -> is_Some (d_communities (view d ws) !! c).
Proof.
  induction ws as [|u ws IH] using rev_ind; [by intros ?%elem_of_nil|]. rewrite view_snoc, elem_of_app, list_elem_of_singleton.
  intros [Hin|<-]; [|cbn; by rewrite lookup_insert_eq].
  destruct u as [c' pk' row'|c' row']; cbn; [by apply IH|]. apply lookup_insert_is_Some'. right. by apply IH.
Qed.

Lemma view_community_some d ws c :
  is_Some (d_communities (view d ws) !! c) -> is_Some (d_communities d !! c) \/ exists row, WroteCommunity c row ∈ ws.
Proof.
  induction ws as [|u ws IH] using rev_ind; [by left|]. rewrite view_snoc. setoid_rewrite elem_of_app.
  destruct u as [c' pk' row'|c' row']; cbn; [naive_solver|].
  intros [<-|Hs]%lookup_insert_is_Some'; [right; exists row'; right; by left|naive_solver].
Qed.

Lemma view_community_mono d ws c : is_Some (d_communities d !! c) -> is_Some (d_communities (view d ws) !! c).
Proof.
  induction ws as [|u ws IH] using rev_ind; [done|]. rewrite view_snoc. intros Hs.
  destruct u as [c' pk' row'|c' row']; cbn; [by apply IH|]. apply lookup_insert_is_Some'. right. by apply IH.
Qed.

(** ** Owners and their communities *)

Lemma owns_Some d c pk : owns d c pk <-> exists row, d_members d !! (c, pk) = Some row /\ rm_role row = "owner".
Proof. unfold owns. rewrite fmap_Some. naive_solver. Qed.

Lemma elem_of_owned d pk c : c ∈ owned d pk <-> owns d c pk.
Proof.
  unfold owned. rewrite elem_of_map, owns_Some. setoid_rewrite elem_of_dom. split.
  - intros ([c' pk'] & -> & row & [Hlk [Hpk Hr]]%map_lookup_filter_Some). cbn in *. subst. eauto.
  - intros (row & Hlk & Hr). exists (c, pk). split; [done|]. exists row. by apply map_lookup_filter_Some.
Qed.

Lemma owned_count_mono d d' pk : (forall c, owns d c pk -> owns d' c pk) -> (owned_count d pk <= owned_count d' pk)%Z.
Proof.
  intros Hs. unfold owned_count. assert (owned d pk ⊆ owned d' pk) as Hsub%subseteq_size; [|lia].
  intros c. rewrite !elem_of_owned. apply Hs.
Qed.

(** One community more. *)
Lemma owned_count_gain d d' pk c :
  (forall c', owns d' c' pk -> c' = c \/ owns d c' pk) -> (owned_count d' pk <= owned_count d pk + 1)%Z.
Proof.
  intros Hs. unfold owned_count. assert (owned d' pk ⊆ owned d pk ∪ {[c]}) as Hsub%subseteq_size.
  { intros c'. rewrite elem_of_union, elem_of_singleton, !elem_of_owned. intros []%Hs; auto. }
  pose proof (size_union_alt (owned d pk) {[c]}) as Hu. rewrite Hu in Hsub.
  assert (size ({[c]} ∖ owned d pk : gset CommunityId) <= 1); [|lia].
  rewrite <-(size_singleton (C := gset CommunityId) c). apply subseteq_size. set_solver.
Qed.

Definition same_owners (d d' : Db) (c : CommunityId) : Prop := forall pk, owns d' c pk <-> owns d c pk.

Definition sole (d : Db) : Prop := forall c p q, owns d c p -> owns d c q -> p = q.

Definition rows_known (d : Db) : Prop := forall k row, d_members d !! k = Some row -> is_Some (d_communities d !! k.1).

Lemma ascii_lower_idem a : ascii_lower (ascii_lower a) = ascii_lower a.
Proof. by destruct a as [[] [] [] [] [] [] [] []]. Qed.

Lemma to_ascii_lowercase_idem s : to_ascii_lowercase (to_ascii_lowercase s) = to_ascii_lowercase s.
Proof. induction s as [|a s IH]; cbn [to_ascii_lowercase]; [done|]. by rewrite ascii_lower_idem, IH. Qed.

Lemma validate_pubkey_hex_lower value hex : validate_pubkey_hex value = Some hex -> to_ascii_lowercase hex = hex.
Proof. unfold validate_pubkey_hex. case_match; [intros [= <-]; apply to_ascii_lowercase_idem|done]. Qed.

Section ownership.
Context `{UrlApi} `{AuthApi} `{OperatorApi} `{OperatorBodies} `{SqlText}.
Context (state : OperatorState) (skew : Z) (db0 : Db).

Notation answer := (operator_answer skew false).
Notation key_of := owner_count_advisory_lock_key.
Notation limit := (max_communities_per_owner state).

(** ** Evidence *)

(** An operator signed a request for [path] with that body, for a time that was fresh. *)
Definition operator_asked (w : OpWorld) (path body : string) : Prop :=
  exists origin ev now t, os_api_origin state = Some origin /\ (t <= o_time w)%Z /\ clock_reads skew t now /\
    nip98_valid now ev (operator_url origin path None) "POST" (Some body) /\ covers_body ev body /\
    is_operator state (pubkey ev) = true.

Definition transfer_asked (w : OpWorld) (c : CommunityId) (new expected : string) : Prop :=
  exists body request, operator_asked w "/operator/communities/transfer" body /\
    transfer_from_slice body = Ok request /\ transfer_target request = Ok (c, (new, expected)).

Definition creation_asked (w : OpWorld) (host owner : string) : Prop :=
  exists body request, operator_asked w "/operator/communities" body /\
    provision_from_slice body = Ok request /\ pr_create_only request = true /\ pr_host request = host /\
    initial_owner_of request = Ok (Some owner).

(** How the ownership of [c] may change from one committed table to the next. *)
Inductive passed (w : OpWorld) (c : CommunityId) (d d' : Db) : Prop :=
| passed_not : same_owners d d' c -> passed w c d d'
| passed_on new expected :
    new <> expected -> owns d c expected -> owns d' c new -> (owned_count d' new <= limit)%Z ->
    transfer_asked w c new expected -> passed w c d d'
| passed_created row owner :
    d_communities d !! c = None -> (forall pk, ~ owns d c pk) ->
    d_communities d' !! c = Some row -> owns d' c owner -> (owned_count d' owner <= limit)%Z ->
    creation_asked w (co_host row) owner -> passed w c d d'.

Record later (w w' : OpWorld) : Prop := {
  later_time : (o_time w <= o_time w')%Z;
  later_tables : tables w `prefix_of` tables w';
  later_next : (o_next_tx w <= o_next_tx w')%N;
}.

#[local] Instance own_later_preorder : PreOrder later.
Proof. split; [by intros w|]. intros w1 w2 w3 [] []. split; [lia|by etrans|lia]. Qed.

Lemma operator_asked_later w w' path body : later w w' -> operator_asked w path body -> operator_asked w' path body.
Proof.
  intros Hl (origin & ev & now & t & Ho & Ht & Hrest). exists origin, ev, now, t. pose proof (later_time _ _ Hl).
  split; [done|]. split; [lia|done].
Qed.

Lemma transfer_asked_later w w' c new old : later w w' -> transfer_asked w c new old -> transfer_asked w' c new old.
Proof. intros Hl (body & request & Ha & Hr). exists body, request. split; [by eapply operator_asked_later|done]. Qed.

Lemma creation_asked_later w w' host owner : later w w' -> creation_asked w host owner -> creation_asked w' host owner.
Proof. intros Hl (body & request & Ha & Hr). exists body, request. split; [by eapply operator_asked_later|done]. Qed.

Lemma passed_later w w' c d d' : later w w' -> passed w c d d' -> passed w' c d d'.
Proof.
  intros Hl [|new old ???? Ha|row owner ????? Ha]; [by apply passed_not|eapply passed_on|eapply passed_created]; try done.
  - by eapply transfer_asked_later.
  - by eapply creation_asked_later.
Qed.

(** ** The invariant *)

(** An open transaction: the rows it has locked, and the owners under its advisory keys, are
    now as any statement of it has seen them; it writes what it has locked. *)
Record tx_ok (w : OpWorld) (s : TxState) : Prop := {
  to_seen : t_seen s <= length (o_past w);
  to_locked d k : d ∈ recent w s -> k ∈ t_rows s -> d_members d !! k = d_members (o_db w) !! k;
  to_keyed d c pk : d ∈ recent w s -> key_of pk ∈ t_keys s -> owns (o_db w) c pk -> owns d c pk;
  to_rows c pk row : WroteRow c pk row ∈ t_writes s -> (c, pk) ∈ t_rows s;
  to_owner c pk row : WroteRow c pk row ∈ t_writes s -> rm_role row = "owner" -> key_of pk ∈ t_keys s;
  to_new c row : WroteCommunity c row ∈ t_writes s -> d_communities (o_db w) !! c = None;
  to_known c pk row : WroteRow c pk row ∈ t_writes s -> is_Some (d_communities (view (o_db w) (t_writes s)) !! c);
}.

Record own_inv (w : OpWorld) : Prop := {
  oi_next tx s : o_txs w !! tx = Some s -> (tx < o_next_tx w)%N;
  oi_tx tx s : o_txs w !! tx = Some s -> tx_ok w s;
  oi_rows tx s tx' s' k : o_txs w !! tx = Some s -> o_txs w !! tx' = Some s' -> tx <> tx' -> k ∈ t_rows s -> k ∉ t_rows s';
  oi_keys tx s tx' s' k : o_txs w !! tx = Some s -> o_txs w !! tx' = Some s' -> tx <> tx' -> k ∈ t_keys s -> k ∉ t_keys s';
  oi_ids tx s tx' s' c row row' : o_txs w !! tx = Some s -> o_txs w !! tx' = Some s' -> tx <> tx' ->
    WroteCommunity c row ∈ t_writes s -> WroteCommunity c row' ∉ t_writes s';
  oi_known : rows_known (o_db w);
  oi_first : tables w !! 0 = Some db0;
  oi_sole d : d ∈ tables w -> sole d;
  oi_bound d pk : d ∈ tables w -> (owned_count d pk <= limit `max` owned_count db0 pk)%Z;
  oi_history i d d' c : tables w !! i = Some d -> tables w !! S i = Some d' -> passed w c d d';
}.

Lemma now_in_tables w : o_db w ∈ tables w.
Proof. unfold tables. apply elem_of_app. right. by left. Qed.

Lemma now_recent w s : t_seen s <= length (o_past w) -> o_db w ∈ recent w s.
Proof. intros Hs. unfold recent, tables. rewrite drop_app_le by done. apply elem_of_app. right. by left. Qed.

Lemma recent_in_tables w s d : d ∈ recent w s -> d ∈ tables w.
Proof. apply (subseteq_drop (t_seen s) (tables w)). Qed.

(** What others may do while a task has a transaction open. *)
Definition own_busy (w : OpWorld) (tx : Tx) : Prop := (tx < o_next_tx w)%N.

Definition undisturbed (w w' : OpWorld) (tx : Tx) : Prop := forall s, o_txs w' !! tx = Some s -> o_txs w !! tx = Some s /\
  (forall k, k ∈ t_rows s -> d_members (o_db w') !! k = d_members (o_db w) !! k) /\
  (forall c pk, key_of pk ∈ t_keys s -> owns (o_db w') c pk -> owns (o_db w) c pk).

Definition own_rely (h : option Tx) (w w' : OpWorld) : Prop := later w w' /\ forall tx, h = Some tx -> undisturbed w w' tx.

#[local] Instance own_rely_preorder h : PreOrder (own_rely h).
Proof.
  split; [split; [done|by intros tx _ s Hs]|]. intros w1 w2 w3 [Hl1 Hu1] [Hl2 Hu2]. split; [by etrans|].
  intros tx Htx s Hs. destruct (Hu2 tx Htx s Hs) as (Hs2 & Hr2 & Hk2), (Hu1 tx Htx s Hs2) as (Hs1 & Hr1 & Hk1).
  split; [done|]. split.
  - intros k Hin. by rewrite Hr2, Hr1.
  - intros c pk Hin Ho. by apply Hk1, Hk2.
Qed.

Lemma own_rely_later h w w' : own_rely h w w' -> later w w'.
Proof. by intros [? _]. Qed.

Lemma own_rely_busy tx w w' : own_rely (Some tx) w w' -> own_busy w tx -> own_busy w' tx.
Proof. intros [Hl _]. pose proof (later_next _ _ Hl). unfold own_busy. lia. Qed.

(** ** What changes keep the invariant *)

Lemma recent_now w s : t_seen s = length (o_past w) -> recent w s = [o_db w].
Proof. intros Hs. unfold recent, tables. by rewrite Hs, drop_app_length. Qed.

Lemma view_app d ws ws' : view d (ws ++ ws') = view (view d ws) ws'.
Proof. apply foldl_app. Qed.

(** The writes of a statement: rows locked, owners under a key held, of communities known. *)
Record good_writes (w : OpWorld) (s : TxState) (ws : list OpWrite) (rows : gset (CommunityId * string)) (keys : gset Z) : Prop := {
  gw_rows c pk row : WroteRow c pk row ∈ ws -> (c, pk) ∈ rows;
  gw_owner c pk row : WroteRow c pk row ∈ ws -> rm_role row = "owner" -> key_of pk ∈ t_keys s ∪ keys;
  gw_known c pk row : WroteRow c pk row ∈ ws -> is_Some (d_communities (view (o_db w) (t_writes s)) !! c);
  gw_new c row : WroteCommunity c row ∈ ws -> d_communities (o_db w) !! c = None;
}.

Lemma no_writes w s rows keys : good_writes w s [] rows keys.
Proof. split; [by intros ??? ?%elem_of_nil..|by intros ?? ?%elem_of_nil]. Qed.

Lemma tx_ok_advance w s ws rows keys : tx_ok w s -> good_writes w s ws rows keys -> tx_ok w (advance w s ws rows keys).
Proof.
  intros [] []. split; cbn [t_seen t_rows t_keys t_writes advance].
  - done.
  - intros d k. rewrite recent_now by done. by intros ->%list_elem_of_singleton.
  - intros d c pk. rewrite recent_now by done. by intros ->%list_elem_of_singleton.
  - intros c pk row [Hin|Hin]%elem_of_app; apply elem_of_union; eauto.
  - intros c pk row [Hin|Hin]%elem_of_app Hr; [apply elem_of_union; left; eauto|eauto].
  - intros c row [Hin|Hin]%elem_of_app; eauto.
  - intros c pk row Hin. rewrite view_app. apply view_community_mono. apply elem_of_app in Hin as []; eauto.
Qed.

Lemma set_txs_later txs next w : (o_next_tx w <= next)%N -> later w (set_txs txs next w).
Proof. intros Hn. by split. Qed.

Lemma inv_set_txs txs next w :
  own_inv w -> (o_next_tx w <= next)%N ->
  (forall tx s, txs !! tx = Some s -> (tx < next)%N /\ tx_ok w s) ->
  (forall tx s tx' s', txs !! tx = Some s -> txs !! tx' = Some s' -> tx <> tx' ->
     (forall k, k ∈ t_rows s -> k ∉ t_rows s') /\ (forall k, k ∈ t_keys s -> k ∉ t_keys s') /\
     (forall c row row', WroteCommunity c row ∈ t_writes s -> WroteCommunity c row' ∉ t_writes s')) ->
  own_inv (set_txs txs next w).
Proof.
  intros [] Hn Htx Hdis. pose proof (set_txs_later txs next w Hn) as Hl. split; cbn; try done.
  - intros tx s Hs. by apply (Htx tx s).
  - intros tx s Hs. destruct (Htx tx s Hs) as [_ []]. by split.
  - intros tx s tx' s' k Hs Hs' Hne. by apply (Hdis tx s tx' s').
  - intros tx s tx' s' k Hs Hs' Hne. by apply (Hdis tx s tx' s').
  - intros tx s tx' s' c row row' Hs Hs' Hne. by apply (Hdis tx s tx' s').
  - intros i d d' c Hd Hd'. eapply passed_later; [exact Hl|]. by eapply oi_history0.
Qed.

Lemma inv_ended w tx : own_inv w -> own_inv (ended w tx).
Proof.
  intros Hi. apply inv_set_txs; [done|lia|..].
  - intros tx' s [_ Hs]%lookup_delete_Some. split; [by eapply oi_next|by eapply oi_tx].
  - intros tx1 s1 tx2 s2 [_ H1']%lookup_delete_Some [_ H2']%lookup_delete_Some Hne. split_and!.
    + intros k. by eapply (oi_rows _ Hi tx1 s1 tx2 s2).
    + intros k. by eapply (oi_keys _ Hi tx1 s1 tx2 s2).
    + intros c row row'. by eapply (oi_ids _ Hi tx1 s1 tx2 s2).
Qed.

Lemma inv_begun w : own_inv w -> own_inv (set_txs (<[o_next_tx w := begun w]> (o_txs w)) (o_next_tx w + 1)%N w).
Proof.
  intros Hi. assert (tx_ok w (begun w)) as Hok.
  { split; cbn; [done|set_solver|set_solver|..]; (by intros ??? ?%elem_of_nil) || by intros ?? ?%elem_of_nil. }
  apply inv_set_txs; [done|lia|..].
  - intros tx s [[<- <-]|[_ Hs]]%lookup_insert_Some; [split; [lia|done]|].
    pose proof (oi_next _ Hi _ _ Hs). split; [lia|by eapply oi_tx].
  - intros tx1 s1 tx2 s2 [[<- <-]|[_ H1']]%lookup_insert_Some [[<- <-]|[_ H2']]%lookup_insert_Some Hne; [done|..]; split_and!;
      try by (intros; cbn; set_solver).
    + intros k. by eapply (oi_rows _ Hi tx1 s1 tx2 s2).
    + intros k. by eapply (oi_keys _ Hi tx1 s1 tx2 s2).
    + intros c row row'. by eapply (oi_ids _ Hi tx1 s1 tx2 s2).
Qed.

(** A statement of [tx]: its locks are its own. *)
Record good_step (w : OpWorld) (tx : Tx) (s : TxState) (ws : list OpWrite) (rows : gset (CommunityId * string)) (keys : gset Z) : Prop := {
  gs_writes : good_writes w s ws rows keys;
  gs_rows k : k ∈ rows -> free w (Some tx) k;
  gs_keys key tx' s' : key ∈ keys -> o_txs w !! tx' = Some s' -> tx' <> tx -> key ∉ t_keys s';
  gs_ids c row tx' s' row' : WroteCommunity c row ∈ ws -> o_txs w !! tx' = Some s' -> WroteCommunity c row' ∉ t_writes s';
}.

Lemma inv_after w tx s ws rows keys :
  own_inv w -> o_txs w !! tx = Some s -> good_step w tx s ws rows keys -> own_inv (after w tx s ws rows keys).
Proof.
  intros Hi Hs [Hws Hrows Hkeys Hids]. set (s2 := advance w s ws rows keys).
  assert (forall tx' s', o_txs w !! tx' = Some s' -> tx' <> tx ->
    (forall k, k ∈ t_rows s2 -> k ∉ t_rows s') /\ (forall k, k ∈ t_keys s2 -> k ∉ t_keys s') /\
    (forall c row row', WroteCommunity c row ∈ t_writes s2 -> WroteCommunity c row' ∉ t_writes s')) as Hdis.
  { intros tx' s' Hs' Hne. split_and!; cbn.
    - intros k [Hk|Hk]%elem_of_union; [by eapply (oi_rows _ Hi tx s tx' s')|]. apply (Hrows k Hk tx' s' Hs'). congruence.
    - intros k [Hk|Hk]%elem_of_union; [by eapply (oi_keys _ Hi tx s tx' s')|by eapply Hkeys].
    - intros c row row' [Hc|Hc]%elem_of_app; [by eapply (oi_ids _ Hi tx s tx' s')|by eapply Hids]. }
  apply inv_set_txs; [done|done|..].
  - intros tx' s' [[<- <-]|[_ Hs']]%lookup_insert_Some.
    + split; [by eapply oi_next|]. by apply tx_ok_advance; [eapply oi_tx|].
    + split; [by eapply oi_next|by eapply oi_tx].
  - intros tx1 s1 tx2 s' [[<- <-]|[Hn1 H1']]%lookup_insert_Some [[<- <-]|[Hn2 H2']]%lookup_insert_Some Hne; [done|..].
    + by apply (Hdis tx2).
    + destruct (Hdis tx1 s1 H1' ltac:(done)) as (Hr & Hk & Hc). split_and!.
      * intros k Hin Hin'. by apply (Hr k).
      * intros k Hin Hin'. by apply (Hk k).
      * intros c row row' Hin Hin'. by eapply Hc.
    + split_and!.
      * intros k. by eapply (oi_rows _ Hi tx1 s1 tx2 s').
      * intros k. by eapply (oi_keys _ Hi tx1 s1 tx2 s').
      * intros c row row'. by eapply (oi_ids _ Hi tx1 s1 tx2 s').
Qed.

(** New committed tables. *)
Record good_tables (w : OpWorld) (d : Db) : Prop := {
  gt_locked tx s k : o_txs w !! tx = Some s -> k ∈ t_rows s -> d_members d !! k = d_members (o_db w) !! k;
  gt_keyed tx s c pk : o_txs w !! tx = Some s -> key_of pk ∈ t_keys s -> owns d c pk -> owns (o_db w) c pk;
  gt_new tx s c row : o_txs w !! tx = Some s -> WroteCommunity c row ∈ t_writes s -> d_communities d !! c = None;
  gt_kept c : is_Some (d_communities (o_db w) !! c) -> is_Some (d_communities d !! c);
  gt_known : rows_known d;
  gt_sole : sole d;
  gt_bound pk : (owned_count d pk <= limit `max` owned_count db0 pk)%Z;
  gt_passed c : passed w c (o_db w) d;
}.

Lemma tables_set_db d w : tables (set_db d w) = tables w ++ [d].
Proof. done. Qed.

Lemma set_db_later d w : later w (set_db d w).
Proof. split; [done| |done]. rewrite tables_set_db. by apply prefix_app_r. Qed.

Lemma recent_set_db d w s : t_seen s <= length (o_past w) -> recent (set_db d w) s = recent w s ++ [d].
Proof.
  intros Hs. unfold recent. rewrite tables_set_db, drop_app_le; [done|].
  unfold tables. rewrite length_app. cbn. lia.
Qed.

Lemma inv_set_db w d : own_inv w -> good_tables w d -> own_inv (set_db d w).
Proof.
  intros Hi Hd. pose proof (set_db_later d w) as Hl. split; rewrite ?tables_set_db; cbn [set_db o_txs o_next_tx o_db].
  - apply (oi_next _ Hi).
  - intros tx s Hs. destruct (oi_tx _ Hi _ _ Hs). pose proof (now_recent w s to_seen0) as Hnow.
    split; cbn [set_db o_txs o_next_tx o_db].
    + cbn. rewrite length_app. lia.
    + intros d1 k Hin Hk. rewrite recent_set_db in Hin by done. rewrite (gt_locked _ _ Hd _ _ _ Hs Hk).
      apply elem_of_app in Hin as [Hin| ->%list_elem_of_singleton]; [by apply to_locked0|by eapply gt_locked].
    + intros d1 c pk Hin Hk Ho. rewrite recent_set_db in Hin by done.
      apply elem_of_app in Hin as [Hin| ->%list_elem_of_singleton]; [|done]. eapply to_keyed0; [done..|]. by eapply gt_keyed.
    + done.
    + done.
    + intros c row Hin. by eapply gt_new.
    + intros c pk row Hin. destruct (view_community_some _ _ _ (to_known0 _ _ _ Hin)) as [Hs'|[row' Hin']].
      * apply view_community_mono. by eapply gt_kept.
      * by eapply view_community.
  - apply (oi_rows _ Hi).
  - apply (oi_keys _ Hi).
  - apply (oi_ids _ Hi).
  - apply (gt_known _ _ Hd).
  - apply lookup_app_l_Some, (oi_first _ Hi).
  - intros d1 [Hin| ->%list_elem_of_singleton]%elem_of_app; [by apply (oi_sole _ Hi)|apply (gt_sole _ _ Hd)].
  - intros d1 pk [Hin| ->%list_elem_of_singleton]%elem_of_app; [by apply (oi_bound _ Hi)|apply (gt_bound _ _ Hd)].
  - intros i d1 d2 c Hd1 Hd2. eapply passed_later; [exact Hl|].
    apply lookup_snoc_Some in Hd2 as [[Hlt Hd2]|[Hlen <-]].
    + apply lookup_snoc_Some in Hd1 as [[_ Hd1]|[Hlen _]]; [by eapply oi_history|lia].
    + apply lookup_snoc_Some in Hd1 as [[_ Hd1]|[Hlen' _]]; [|lia].
      unfold tables in Hd1, Hlen. rewrite length_app in Hlen. cbn in Hlen.
      assert (i = length (o_past w)) as -> by lia. rewrite list_lookup_middle in Hd1 by done. injection Hd1 as <-.
      apply (gt_passed _ _ Hd).
Qed.

Lemma set_db_rely w d h : own_inv w -> good_tables w d -> own_rely h w (set_db d w).
Proof.
  intros Hi Hd. split; [apply set_db_later|]. intros tx _ s Hs. cbn in *. split; [done|]. split.
  - intros k Hk. by eapply gt_locked.
  - intros c pk Hk Ho. by eapply gt_keyed.
Qed.

(** Tables with the same owners. *)
Lemma good_same_owners w d :
  own_inv w -> (forall c pk, owns d c pk <-> owns (o_db w) c pk) ->
  (forall tx s k, o_txs w !! tx = Some s -> k ∈ t_rows s -> d_members d !! k = d_members (o_db w) !! k) ->
  (forall tx s c row, o_txs w !! tx = Some s -> WroteCommunity c row ∈ t_writes s -> d_communities d !! c = None) ->
  (forall c, is_Some (d_communities (o_db w) !! c) -> is_Some (d_communities d !! c)) -> rows_known d ->
  good_tables w d.
Proof.
  intros Hi Ho Hrows Hnew Hkept Hknown. pose proof (now_in_tables w) as Hnow. split; try done.
  - intros tx s c pk _ _. by rewrite Ho.
  - intros c p q. rewrite !Ho. by apply (oi_sole _ Hi).
  - intros pk. etrans; [|by apply (oi_bound _ Hi)]. apply owned_count_mono. intros c. by rewrite Ho.
  - intros c. apply passed_not. intros pk. apply Ho.
Qed.

(** A change of the communities only. *)
Lemma good_communities w c row :
  own_inv w ->
  is_Some (d_communities (o_db w) !! c) \/ (forall tx s row', o_txs w !! tx = Some s -> WroteCommunity c row' ∉ t_writes s) ->
  good_tables w (set_communities (<[c := row]> (d_communities (o_db w))) (o_db w)).
Proof.
  intros Hi Hc. apply good_same_owners; [done|done|done|..]; cbn.
  - intros tx s c' row' Hs Hin. pose proof (to_new _ _ (oi_tx _ Hi _ _ Hs) _ _ Hin) as Hnone.
    apply lookup_insert_None. split; [done|]. intros <-.
    destruct Hc as [[x Hx]|Hc]; [congruence|by eapply Hc].
  - intros c' Hs. apply lookup_insert_is_Some'. by right.
  - intros k row' Hlk. apply lookup_insert_is_Some'. right. by eapply (oi_known _ Hi).
Qed.

Lemma good_member w k new :
  own_inv w -> free w None k -> ~ owns (o_db w) k.1 k.2 ->
  (forall row, new = Some row -> rm_role row <> "owner" /\ is_Some (d_communities (o_db w) !! k.1)) ->
  good_tables w (set_members (partial_alter (fun _ => new) k (d_members (o_db w))) (o_db w)).
Proof.
  intros Hi Hf Hno Hnew. apply good_same_owners; [done|..]; cbn.
  - intros c pk. unfold owns. cbn. destruct (decide (k = (c, pk))) as [->|Hne].
    + rewrite lookup_partial_alter_eq. split; [|by intros ?]. intros (row & Hr & Hrole)%fmap_Some. by destruct (Hnew row Hr).
    + by rewrite lookup_partial_alter_ne.
  - intros tx s k' Hs Hk. rewrite lookup_partial_alter_ne; [done|]. intros <-. by eapply (Hf tx).
  - intros tx s c row Hs Hin. by eapply (to_new _ _ (oi_tx _ Hi _ _ Hs)).
  - done.
  - intros k' row Hlk. cbn in *. destruct (decide (k = k')) as [<-|Hne].
    + rewrite lookup_partial_alter_eq in Hlk. by apply (Hnew row).
    + rewrite lookup_partial_alter_ne in Hlk by done. by eapply (oi_known _ Hi).
Qed.

Lemma set_clock_later time redis w : (o_time w <= time)%Z -> later w (set_clock time redis w).
Proof. intros Ht. by split. Qed.

Lemma inv_set_clock time redis w : (o_time w <= time)%Z -> own_inv w -> own_inv (set_clock time redis w).
Proof.
  intros Ht []. pose proof (set_clock_later time redis w Ht) as Hl. split; try done.
  - intros tx s Hs. destruct (oi_tx0 tx s Hs). by split.
  - intros i d d' c Hd Hd'. eapply passed_later; [exact Hl|]. by eapply oi_history0.
Qed.

Lemma ended_rely w tx h : own_rely h w (ended w tx).
Proof. split; [by apply set_txs_later|]. intros tx' _ s Hs. cbn in *. by apply lookup_delete_Some in Hs as [_ Hs]. Qed.

Lemma environment_ok w w' : environment w w' -> own_inv w -> own_inv w' /\ forall h, own_rely h w w'.
Proof.
  intros He Hi. destruct He as [w time redis Ht _ _|w tx|w k new Hf Hno Hnew].
  - split; [by apply inv_set_clock|]. intros h. split; [by apply set_clock_later|]. by intros tx _ s Hs.
  - split; [by apply inv_ended|]. intros h. apply ended_rely.
  - pose proof (good_member w k new Hi Hf Hno Hnew) as Hd.
    split; [by apply inv_set_db|]. intros h. by apply set_db_rely.
Qed.

Lemma environments_ok w w' : rtc environment w w' -> own_inv w -> own_inv w' /\ forall h, own_rely h w w'.
Proof.
  induction 1 as [w|w1 w2 w3 Hs _ IH]; intros Hi; [by split; [|intros h]|].
  destruct (environment_ok _ _ Hs Hi) as [Hi2 Hr], (IH Hi2) as [Hi3 Hr']. split; [done|]. intros h. etrans; [apply Hr|apply Hr'].
Qed.

(** The calls outside transactions. *)
Definition plain {R} (c : OperatorCall R) : Prop :=
  match c with
  | OpRequestArrives | OpClock | OpPoolGet | OpRedisSet _ _ _ | EnsureCommunity _ | SelectHost _ | SelectByHost _
  | SelectOwned _ | ArchiveOwned _ _ _ | UnarchiveOwned _ _ | PublishMembers _ | DisconnectCommunity _ => True
  | _ => False
  end.

Lemma plain_effect R (c : OperatorCall R) w w' r :
  plain c -> operator_effect skew false R c w w' r -> own_inv w -> own_inv w' /\ forall h, own_rely h w w'.
Proof.
  assert (own_inv w -> own_inv w /\ forall h, own_rely h w w) as Hsame by (by split; [|intros h]).
  assert (forall c row, own_inv w ->
    is_Some (d_communities (o_db w) !! c) \/ (forall tx s row', o_txs w !! tx = Some s -> WroteCommunity c row' ∉ t_writes s) ->
    let w2 := set_db (set_communities (<[c := row]> (d_communities (o_db w))) (o_db w)) w in
    own_inv w2 /\ forall h, own_rely h w w2) as Hcomm.
  { intros c' row Hi Hc w2. pose proof (good_communities w c' row Hi Hc). split; [by apply inv_set_db|].
    intros h. by apply set_db_rely. }
  destruct c; cbn [operator_effect plain]; intros Hp He Hi; try done;
    try (destruct He as [-> _]; by apply Hsame); try (subst w'; by apply Hsame).
  - destruct He as [[_ ->]|[(_ & -> & _)|(_ & _ & ->)]]; [by apply Hsame..|].
    split; [by apply inv_set_clock|]. intros h. split; [by apply set_clock_later|]. by intros tx _ s Hs.
  - destruct He as [[_ ->]|[(c & row & _ & _ & _ & ->)|(c & _ & (_ & Hnone & Hfresh) & _ & ->)]]; [by apply Hsame..|].
    apply Hcomm; [done|]. right. intros tx s row' Hs. by eapply Hfresh.
  - destruct He as [[_ ->]|[(c & row & d & Hc & _ & _ & _ & _ & _ & ->)|(d & _ & _ & _ & ->)]]; [by apply Hsame| |by apply Hsame].
    apply Hcomm; [done|]. left. by eexists.
  - destruct He as [[_ ->]|[(c & row & d & Hc & _ & _ & _ & _ & ->)|(d & _ & _ & _ & ->)]]; [by apply Hsame| |by apply Hsame].
    apply Hcomm; [done|]. left. by eexists.
Qed.

Lemma plain_ok R (c : OperatorCall R) w w' r :
  plain c -> answer R c w w' r -> own_inv w -> own_inv w' /\ forall h, own_rely h w w'.
Proof.
  intros Hc (w0 & Hs & He) Hi. destruct (environments_ok _ _ Hs Hi) as [Hi0 Hr].
  destruct (plain_effect _ _ _ _ _ Hc He Hi0) as [Hi' Hr']. split; [done|]. intros h. etrans; [apply Hr|apply Hr'].
Qed.

(** ** Verifying the programs *)

Notation xwp := (owp answer own_inv own_busy own_rely).
Notation xwp_seq := (owp_seq answer own_inv own_busy own_rely).
Notation busy_holds := (holds own_busy).

(** Any call, by what it does in a world that has gone on; [h'] is held afterwards. *)
Lemma xwp_do {A R} h (c : OperatorCall R) (k : R -> OperatorProg A) w Q :
  (forall w0 w2 r, own_rely h w w0 -> own_inv w0 -> operator_effect skew false R c w0 w2 r ->
     own_inv w2 /\ later w0 w2 /\ (forall tx, h <> Some tx -> own_busy w0 tx -> undisturbed w0 w2 tx) /\
     exists h', (forall tx, h' = Some tx -> own_busy w2 tx /\ (h = Some tx \/ ~ own_busy w0 tx)) /\ xwp h' (k r) w2 Q) ->
  xwp h (Do c k) w Q.
Proof.
  intros Hc w1 w2 r Hr Hi1 (w0 & Hs & He). destruct (environments_ok _ _ Hs Hi1) as [Hi0 Hr0].
  destruct (Hc w0 w2 r) as (Hi2 & Hl & Hother & h' & Hh' & Hk); [etrans; [exact Hr|apply Hr0]|done|done|].
  pose proof (later_next _ _ (own_rely_later _ _ _ (Hr0 None))) as Hn.
  split; [done|]. split.
  - intros h2 Hh2. etrans; [apply Hr0|]. split; [done|]. intros tx ->. destruct (Hh2 tx eq_refl) as [Hb Hne].
    apply Hother; [done|]. unfold own_busy in *. lia.
  - exists h'. split; [|done]. intros tx Htx. destruct (Hh' tx Htx) as [? [?|Hnb]]; [auto|].
    split; [done|]. right. unfold own_busy in *. lia.
Qed.

(** What a task knows of its transaction. *)
Definition mine (tx : Tx) (F : OpWorld -> TxState -> Prop) (w : OpWorld) : Prop :=
  own_busy w tx /\ forall s, o_txs w !! tx = Some s -> F w s.

Definition stable (F : OpWorld -> TxState -> Prop) : Prop := forall w w' s,
  later w w' -> (forall k, k ∈ t_rows s -> d_members (o_db w') !! k = d_members (o_db w) !! k) ->
  (forall c pk, key_of pk ∈ t_keys s -> owns (o_db w') c pk -> owns (o_db w) c pk) -> F w s -> F w' s.

Lemma mine_kept tx F w w' : stable F -> own_rely (Some tx) w w' -> mine tx F w -> mine tx F w'.
Proof.
  intros HF Hr [Hb Hm]. split; [by eapply own_rely_busy|]. intros s Hs.
  destruct Hr as [Hl Hu]. destruct (Hu tx eq_refl s Hs) as (Hs0 & Hrows & Hkeys). apply (HF w); [done..|by apply Hm].
Qed.

(** No writes yet. *)
Definition clean (_ : OpWorld) (s : TxState) : Prop := t_writes s = [].

Lemma xwp_begin {A} (k : Result Tx string -> OperatorProg A) w Q :
  (forall w2 tx, later w w2 -> own_inv w2 -> mine tx clean w2 -> xwp (Some tx) (k (Ok tx)) w2 Q) ->
  (forall w2 e, later w w2 -> own_inv w2 -> xwp None (k (Err e)) w2 Q) ->
  xwp None (Do BeginTx k) w Q.
Proof.
  intros Hok Herr. apply xwp_do. intros w0 w2 r Hr Hi0 He. pose proof (own_rely_later _ _ _ Hr) as Hl.
  destruct He as [[[e ->] ->]|[Hran ->]].
  - split; [done|]. split; [done|]. split; [by intros tx _ _ s Hs|]. exists None. split; [done|by apply Herr].
  - pose proof (inv_begun _ Hi0) as Hi2. set (w2 := set_txs _ _ w0) in *.
    assert (later w0 w2) as Hl2 by (apply set_txs_later; lia). split; [done|]. split; [done|]. split.
    { intros tx _ Hb s Hs. cbn in Hs. rewrite lookup_insert_ne in Hs; [done|]. unfold own_busy in Hb. lia. }
    destruct Hran as [->|[e ->]].
    + exists (Some (o_next_tx w0)). split; [intros tx [= <-]; unfold own_busy; cbn; split; [lia|right; lia]|].
      apply Hok; [by etrans|done|]. split; [unfold own_busy; cbn; lia|]. intros s. cbn. rewrite lookup_insert_eq. by intros [= <-].
    + exists None. split; [done|]. apply Herr; [by etrans|done].
Qed.

Lemma after_later w tx s ws rows keys : later w (after w tx s ws rows keys).
Proof. by apply set_txs_later. Qed.

(** A statement of the task's transaction; [F'] is what it has learnt of the transaction, [G] of
    the world. *)
Lemma xwp_tx {A R} tx (c : OperatorCall (Result R string)) (k : Result R string -> OperatorProg A) w F F' G Q :
  mine tx F w -> stable F ->
  (forall w0 w2 r, later w w0 -> own_inv w0 -> operator_effect skew false _ c w0 w2 r ->
     in_tx w0 w2 r tx (fun s => F w0 s -> exists a ws rows keys, ran a r /\ w2 = after w0 tx s ws rows keys /\
       good_step w0 tx s ws rows keys /\ F' a w2 (advance w0 s ws rows keys) /\ G a w2)) ->
  (forall a w2, later w w2 -> own_inv w2 -> mine tx (F' a) w2 -> G a w2 -> xwp (Some tx) (k (Ok a)) w2 Q) ->
  (forall e w2, own_inv w2 -> own_busy w2 tx -> xwp (Some tx) (k (Err e)) w2 Q) ->
  xwp (Some tx) (Do c k) w Q.
Proof.
  intros Hm HF Hc Hok Herr. apply xwp_do. intros w0 w2 r Hr Hi0 He. pose proof (own_rely_later _ _ _ Hr) as Hl.
  destruct (mine_kept _ _ _ _ HF Hr Hm) as [Hb0 Hm0].
  destruct (Hc w0 w2 r Hl Hi0 He) as [[[e ->] ->]|(s & Hs & HP)].
  - split; [done|]. split; [done|]. split; [by intros tx' _ _ s Hs|]. exists (Some tx).
    split; [intros ? [= <-]; auto|by apply Herr].
  - destruct (HP (Hm0 s Hs)) as (a & ws & rows & keys & Hran & -> & Hstep & HF' & HG).
    pose proof (inv_after _ _ _ _ _ _ Hi0 Hs Hstep) as Hi2. pose proof (after_later w0 tx s ws rows keys) as Hl2.
    assert (own_busy (after w0 tx s ws rows keys) tx) as Hb2 by done.
    split; [done|]. split; [done|]. split.
    { intros tx' Hne _ s' Hs'. cbn in Hs'. rewrite lookup_insert_ne in Hs' by congruence. done. }
    exists (Some tx). split; [intros ? [= <-]; auto|].
    destruct Hran as [->|[e ->]]; [|by apply Herr]. apply Hok; [by etrans|done| |done]. split; [done|].
    intros s'. cbn. rewrite lookup_insert_eq. by intros [= <-].
Qed.

Lemma xwp_rollback {A} tx (k : Result unit string -> OperatorProg A) w Q :
  own_busy w tx ->
  (forall r w2, later w w2 -> own_inv w2 -> own_busy w2 tx -> xwp (Some tx) (k r) w2 Q) ->
  xwp (Some tx) (Do (RollbackTx tx) k) w Q.
Proof.
  intros Hb Hk. apply xwp_do. intros w0 w2 r Hr Hi0 He. pose proof (own_rely_busy _ _ _ Hr Hb) as Hb0.
  apply own_rely_later in Hr.
  assert (own_inv w2 /\ own_rely None w0 w2 /\ (forall tx', undisturbed w0 w2 tx') /\ own_busy w2 tx) as (Hi2 & [Hl _] & Hu & Hb2).
  { destruct He as [[_ ->]|[_ ->]]; [by split_and!; [|split|intros tx' s Hs|]|].
    split_and!; [by apply inv_ended|apply ended_rely| |done]. intros tx'. by apply (ended_rely w0 tx (Some tx')). }
  split; [done|]. split; [done|]. split; [auto|]. exists (Some tx). split; [intros ? [= <-]; auto|].
  apply Hk; [by etrans|done|done].
Qed.

(** The end of a transaction that leaves good tables. *)
Lemma xwp_commit {A} tx (k : Result unit string -> OperatorProg A) w F Q :
  mine tx F w -> stable F ->
  (forall w0 s, later w w0 -> own_inv w0 -> o_txs w0 !! tx = Some s -> F w0 s ->
     good_tables (ended w0 tx) (view (o_db w0) (t_writes s))) ->
  (forall w0 s, later w w0 -> own_inv w0 -> F w0 s -> own_inv (committed w0 tx s) -> own_busy (committed w0 tx s) tx ->
     later w (committed w0 tx s) -> xwp (Some tx) (k (Ok tt)) (committed w0 tx s) Q) ->
  (forall e w2, own_inv w2 -> own_busy w2 tx -> xwp (Some tx) (k (Err e)) w2 Q) ->
  xwp (Some tx) (Do (CommitTx tx) k) w Q.
Proof.
  intros Hm HF Hgood Hok Herr. apply xwp_do. intros w0 w2 r Hr Hi0 He. pose proof (own_rely_later _ _ _ Hr) as Hl.
  destruct (mine_kept _ _ _ _ HF Hr Hm) as [Hb0 Hm0].
  assert ((exists e, r = Err e) /\ (w2 = w0 \/ w2 = ended w0 tx) \/
    exists s, o_txs w0 !! tx = Some s /\ ran tt r /\ w2 = committed w0 tx s) as [[[e ->] Hw2]|(s & Hs & Hran & ->)] by exact He.
  - assert (own_inv w2 /\ later w0 w2 /\ (forall tx', undisturbed w0 w2 tx') /\ own_busy w2 tx) as (Hi2 & Hl2 & Hu & Hb2).
    { destruct Hw2 as [->| ->]; [by split_and!; [| |intros tx' s Hs|]|].
      split_and!; [by apply inv_ended|by apply (ended_rely w0 tx None)| |done]. intros tx'. by apply (ended_rely w0 tx (Some tx')). }
    split; [done|]. split; [done|]. split; [auto|]. exists (Some tx). split; [intros ? [= <-]; auto|by apply Herr].
  - pose proof (Hgood w0 s Hl Hi0 Hs (Hm0 s Hs)) as Hd. pose proof (inv_ended w0 tx Hi0) as Hie.
    assert (own_inv (committed w0 tx s)) as Hi2 by by apply inv_set_db.
    assert (forall h, own_rely h w0 (committed w0 tx s)) as Hr2.
    { intros h. etrans; [apply ended_rely|]. by apply (set_db_rely (ended w0 tx)). }
    assert (own_busy (committed w0 tx s) tx) as Hb2 by done.
    pose proof (own_rely_later _ _ _ (Hr2 None)) as Hl2.
    split; [done|]. split; [done|]. split; [intros tx' _ _; by apply (Hr2 (Some tx'))|].
    exists (Some tx). split; [intros ? [= <-]; auto|].
    destruct Hran as [->|[e ->]]; [|by apply Herr]. apply (Hok w0 s); [done|done|by apply Hm0|done|done|by etrans].
Qed.

(** ** What a commit does *)

(** Ownership of [c] as [pk] has it afterwards, of the others as before. *)
Definition hands (d d' : Db) (c : CommunityId) (pk : string) : Prop :=
  forall c' q, owns d' c' q <-> if decide (c' = c) then q = pk else owns d c' q.

Lemma hands_count d d' c pk q : hands d d' c pk -> (owned_count d' q <= owned_count d q + if decide (q = pk) then 1 else 0)%Z.
Proof.
  intros Hh. destruct (decide (q = pk)) as [->|Hne].
  - apply (owned_count_gain d d' pk c). intros c' Ho. apply Hh in Ho. case_decide; auto.
  - rewrite Z.add_0_r. apply owned_count_mono. intros c' Ho. apply Hh in Ho. by case_decide.
Qed.

Lemma good_commit w tx s :
  own_inv w -> o_txs w !! tx = Some s -> let d := view (o_db w) (t_writes s) in
  sole d -> (forall pk, (owned_count d pk <= limit `max` owned_count db0 pk)%Z) -> (forall c, passed w c (o_db w) d) ->
  good_tables (ended w tx) d.
Proof.
  intros Hi Hs d Hsole Hbound Hpassed. pose proof (oi_tx _ Hi _ _ Hs) as [_ _ _ Hrows Howner Hnew Hknown].
  assert (forall tx' s', o_txs (ended w tx) !! tx' = Some s' -> tx <> tx' /\ o_txs w !! tx' = Some s') as Hothers.
  { intros tx' s' Hs'. cbn in Hs'. by apply lookup_delete_Some in Hs'. }
  split; cbn [ended set_txs o_db]; try done.
  - intros tx' s' k [Hne Hs']%Hothers Hk. apply view_members. intros row Hin. destruct k as [c pk].
    by eapply (oi_rows _ Hi tx' s' tx s), (Hrows c pk row).
  - intros tx' s' c pk [Hne Hs']%Hothers Hk Ho. apply owns_Some in Ho as (row & Hlk & Hr). apply owns_Some. exists row.
    apply view_written in Hlk as [Hlk|Hin]; [done|]. destruct (oi_keys _ Hi tx' s' tx s (key_of pk)); [done..|].
    by apply (Howner c pk row).
  - intros tx' s' c row [Hne Hs']%Hothers Hin. unfold d. rewrite view_communities.
    + by apply (to_new _ _ (oi_tx _ Hi _ _ Hs') c row).
    + intros row'. by eapply (oi_ids _ Hi tx' s' tx s).
  - intros c. apply view_community_mono.
  - intros k row Hlk. apply view_written in Hlk as [Hlk|Hin]; [|by eapply Hknown].
    apply view_community_mono. by eapply (oi_known _ Hi).
  - intros c. eapply passed_later; [|apply Hpassed]. by apply set_txs_later.
Qed.

(** A commit that hands [c] to a key with room for it. *)
Lemma good_hand w tx s c pk :
  own_inv w -> o_txs w !! tx = Some s -> let d := view (o_db w) (t_writes s) in
  hands (o_db w) d c pk -> (owned_count (o_db w) pk < limit)%Z ->
  ((owned_count d pk <= limit)%Z -> passed w c (o_db w) d) -> good_tables (ended w tx) d.
Proof.
  intros Hi Hs d Hh Hroom Hpassed. pose proof (now_in_tables w) as Hnow.
  pose proof (hands_count _ _ _ _ pk Hh) as Hpk. rewrite decide_True in Hpk by done.
  apply good_commit; [done|done|..].
  - intros c' p q Hp%Hh Hq%Hh. case_decide; [congruence|]. by eapply (oi_sole _ Hi).
  - intros q. pose proof (hands_count _ _ _ _ q Hh) as Hq. case_decide as E; [subst; fold d; lia|].
    pose proof (oi_bound _ Hi _ q Hnow). fold d. lia.
  - intros c'. destruct (decide (c' = c)) as [->|Hne]; [apply Hpassed; fold d; lia|].
    apply passed_not. intros q. pose proof (Hh c' q) as Hq. by rewrite decide_False in Hq.
Qed.

Lemma owns_insert_row d c pk row c' q :
  owns (set_members (<[(c, pk) := row]> (d_members d)) d) c' q <->
  if decide (c' = c /\ q = pk) then rm_role row = "owner" else owns d c' q.
Proof.
  unfold owns. cbn. case_decide as E.
  - destruct E as [-> ->]. rewrite lookup_insert_eq. cbn. split; [by intros [=]|by intros ->].
  - rewrite lookup_insert_ne; [done|]. intros [= -> ->]. by apply E.
Qed.

Lemma hands_transfer d c pk old row row' :
  sole d -> owns d c old -> pk <> old -> rm_role row = "owner" -> rm_role row' <> "owner" ->
  hands d (view d [WroteRow c pk row; WroteRow c old row']) c pk.
Proof.
  intros Hsole Hold Hne Hr Hr' c' q. cbn [view foldl apply_op]. rewrite owns_insert_row.
  destruct (decide (c' = c)) as [->|Hc].
  - destruct (decide (c = c /\ q = old)) as [[_ ->]|Hq]; [split; [by intros ?%Hr'|by intros ->]|].
    rewrite owns_insert_row. destruct (decide (c = c /\ q = pk)) as [[_ ->]|Hq']; [by split|].
    split; [|by intros ->; destruct Hq']. intros Ho. destruct Hq. split; [done|]. by eapply Hsole.
  - rewrite decide_False by naive_solver. rewrite owns_insert_row. by rewrite decide_False by naive_solver.
Qed.

Lemma hands_created d c pk row community :
  rows_known d -> d_communities d !! c = None -> rm_role row = "owner" ->
  hands d (view d [WroteCommunity c community; WroteRow c pk row]) c pk.
Proof.
  intros Hk Hnone Hr c' q. cbn [view foldl apply_op]. rewrite owns_insert_row.
  destruct (decide (c' = c)) as [->|Hc]; [|by rewrite decide_False by naive_solver].
  case_decide as E; [destruct E as [_ ->]; by split|]. split; [|by intros ->; destruct E].
  intros (row' & Hlk & _)%owns_Some. apply Hk in Hlk as [x Hx]. cbn in Hx. congruence.
Qed.

(** ** Transfers *)

(** What the result of a transfer tells. *)
Definition told (w : OpWorld) (c : CommunityId) (new expected : string) (result : TransferResult) : Prop :=
  match result with
  | Transferred previous => previous = Some expected /\ new <> expected /\
      exists i d d', tables w !! i = Some d /\ tables w !! S i = Some d' /\ owns d c expected /\ owns d' c new
  | AlreadyOwner => new = expected /\ exists d, d ∈ tables w /\ owns d c new
  | NoOwner => exists d, d ∈ tables w /\ forall q, owns d c q -> exists d', d' ∈ tables w /\ ~ owns d' c q
  | OwnerConflict => exists d q, d ∈ tables w /\ owns d c q /\ q <> expected
  | LimitReached => exists d, d ∈ tables w /\ (limit <= owned_count d new)%Z
  end.

Lemma elem_of_later w w' d : later w w' -> d ∈ tables w -> d ∈ tables w'.
Proof. intros Hl Hd. destruct (later_tables _ _ Hl) as [l ->]. apply elem_of_app. by left. Qed.

Lemma told_later w w' c new expected result : later w w' -> told w c new expected result -> told w' c new expected result.
Proof.
  intros Hl. pose proof (later_tables _ _ Hl) as Ht.
  destruct result; cbn [told]; intros Hold.
  - destruct Hold as (? & ? & i & d & d' & Hd & Hd' & Hrest). split; [done|]. split; [done|]. exists i, d, d'.
    split; [by eapply prefix_lookup_Some|]. split; [by eapply prefix_lookup_Some|done].
  - destruct Hold as (? & d & ? & ?). split; [done|]. exists d. split; [by eapply elem_of_later|done].
  - destruct Hold as (d & ? & Hq). exists d. split; [by eapply elem_of_later|].
    intros q Ho. destruct (Hq q Ho) as (d' & ? & ?). exists d'. split; [by eapply elem_of_later|done].
  - destruct Hold as (d & q & ? & ?). exists d, q. split; [by eapply elem_of_later|done].
  - destruct Hold as (d & ? & ?). exists d. split; [by eapply elem_of_later|done].
Qed.

(** The task knows its writes, holds the advisory key of [pk], and has locked the row of the
    owner of [c]. *)
Record transferring (c : CommunityId) (pk old : string) (P : list OpWrite -> Prop) (w : OpWorld) (s : TxState) : Prop := {
  tg_writes : P (t_writes s);
  tg_key : key_of pk ∈ t_keys s;
  tg_locked : (c, old) ∈ t_rows s;
  tg_owner : owns (o_db w) c old;
}.

Definition keyed (pk : string) (_ : OpWorld) (s : TxState) : Prop := t_writes s = [] /\ key_of pk ∈ t_keys s.

Definition with_room (pk : string) (F : OpWorld -> TxState -> Prop) (w : OpWorld) (s : TxState) : Prop :=
  F w s /\ key_of pk ∈ t_keys s /\ (owned_count (o_db w) pk < limit)%Z.

Lemma stable_transferring c pk old P : stable (transferring c pk old P).
Proof. intros w w' s Hl Hrows _ [? ? Hin ?]. split; [done..|]. unfold owns. by rewrite Hrows. Qed.

Lemma stable_room pk F : stable F -> stable (with_room pk F).
Proof.
  intros HF w w' s Hl Hrows Hkeys (? & ? & ?). split; [by eapply HF|]. split; [done|].
  eapply Z.le_lt_trans; [|done]. apply owned_count_mono. intros c. by apply Hkeys.
Qed.

Lemma good_reads w tx s rows keys :
  (forall k, k ∈ rows -> free w (Some tx) k) ->
  (forall key tx' s', key ∈ keys -> o_txs w !! tx' = Some s' -> tx' <> tx -> key ∉ t_keys s') ->
  good_step w tx s [] rows keys.
Proof. intros Hr Hk. split; [apply no_writes|done|done|by intros ????? ?%elem_of_nil]. Qed.

(** One row, written under its lock. *)
Lemma good_write w tx s c pk row rows :
  (c, pk) ∈ rows -> (forall k, k ∈ rows -> free w (Some tx) k) -> (rm_role row = "owner" -> key_of pk ∈ t_keys s) ->
  is_Some (d_communities (view (o_db w) (t_writes s)) !! c) ->
  good_step w tx s [WroteRow c pk row] rows ∅.
Proof.
  intros Hin Hf Hk Hc. split; [split|..].
  - by intros c' pk' row' [= -> -> ->]%list_elem_of_singleton.
  - intros c' pk' row' [= -> -> ->]%list_elem_of_singleton Hr. apply elem_of_union. left. by apply Hk.
  - by intros c' pk' row' [= -> -> ->]%list_elem_of_singleton.
  - by intros c' row' ?%list_elem_of_singleton.
  - done.
  - by intros key tx' s' ?%elem_of_empty.
  - by intros c' row' tx' s' row'' ?%list_elem_of_singleton.
Qed.

Lemma xwp_lock {A} tx pk (k : Result unit string -> OperatorProg A) w Q :
  mine tx clean w ->
  (forall w2, later w w2 -> own_inv w2 -> mine tx (keyed pk) w2 -> xwp (Some tx) (k (Ok tt)) w2 Q) ->
  (forall e w2, own_inv w2 -> own_busy w2 tx -> xwp (Some tx) (k (Err e)) w2 Q) ->
  xwp (Some tx) (Do (AdvisoryXactLock tx (key_of pk)) k) w Q.
Proof.
  intros Hm Hok Herr. apply (xwp_tx tx _ _ _ clean (fun _ => keyed pk) (fun _ _ => True)); [done|by intros ???| |by intros []; auto|done].
  intros w0 w2 r Hl Hi0 [Hf|(s & Hs & Hfree & Hran & ->)]; [by left|right]. exists s. split; [done|]. intros Hw.
  exists tt, [], ∅, {[key_of pk]}. split; [done|]. split; [done|]. split.
  - apply good_reads; [by intros ? ?%elem_of_empty|]. intros key tx' s' ->%elem_of_singleton. apply Hfree.
  - split; [|done]. split; cbn; [by rewrite app_nil_r|set_solver].
Qed.

(** The owner's row, locked, if there was one to lock. *)
Definition selected (c : CommunityId) (pk : string) (X : list string) (w : OpWorld) (s : TxState) : Prop :=
  keyed pk w s /\ forall old, X = [old] -> transferring c pk old (fun ws => ws = []) w s.

Definition seen_owners (c : CommunityId) (X : list string) (w : OpWorld) : Prop :=
  X = [] /\ (forall new expected, told w c new expected NoOwner) \/
  exists old d, X = [old] /\ d ∈ tables w /\ owns d c old.

Lemma select_owners w tx s c d X :
  own_inv w -> o_txs w !! tx = Some s -> t_writes s = [] -> locked_rows w tx s (owner_row_of c) d X ->
  X = [] /\ (forall new expected, told w c new expected NoOwner) \/ exists old, X = [(c, old)] /\ owns (o_db w) c old.
Proof.
  intros Hi Hs Hw [Hnd Hd HX Hall]. rewrite Hw in *.
  assert (forall k, k ∈ X -> k.1 = c /\ owns d c k.2 /\ owns (o_db w) c k.2) as HX2.
  { intros [c' q] Hk. destruct (HX _ Hk) as (_ & (row & Hlk & <- & Hr) & (row' & Hlk' & _ & Hr')). cbn in *.
    split; [done|]. split; apply owns_Some; [by exists row|by exists row']. }
  pose proof (recent_in_tables _ _ _ Hd) as Hdt. destruct X as [|[c' old] X]; [left|right].
  - split; [done|]. intros new expected. exists d. split; [done|]. intros q (row & Hlk & Hr)%owns_Some.
    destruct (Hall (c, q)) as [?%elem_of_nil|(d' & Hd' & Hn)]; [by exists row|done|].
    exists d'. split; [by eapply recent_in_tables|]. intros (row' & Hlk' & Hr')%owns_Some. apply Hn. by exists row'.
  - destruct (HX2 (c', old) ltac:(left)) as (E & Ho & Ho'). cbn in *. subst c'. exists old. split; [|done].
    destruct X as [|[c' q] X]; [done|]. exfalso. destruct (HX2 (c', q) ltac:(right; left)) as (E & Hq & _). cbn in *. subst c'.
    apply NoDup_cons in Hnd as [Hnin _]. apply Hnin. rewrite (oi_sole _ Hi d Hdt _ _ _ Ho Hq). left.
Qed.

Lemma xwp_select {A} tx c pk (k : Result (list string) string -> OperatorProg A) w Q :
  mine tx (keyed pk) w ->
  (forall X w2, later w w2 -> own_inv w2 -> mine tx (selected c pk X) w2 -> seen_owners c X w2 ->
     xwp (Some tx) (k (Ok X)) w2 Q) ->
  (forall e w2, own_inv w2 -> own_busy w2 tx -> xwp (Some tx) (k (Err e)) w2 Q) ->
  xwp (Some tx) (Do (SelectOwnersForUpdate tx c) k) w Q.
Proof.
  intros Hm Hok Herr. apply (xwp_tx tx _ _ _ (keyed pk) (selected c pk) (seen_owners c)); [done|by intros ???| |done|done].
  intros w0 w2 r Hl Hi0 [Hf|(s & Hs & d & X & HX & Hran & ->)]; [by left|right]. exists s. split; [done|]. intros [Hw Hkey].
  exists X.*2, [], (list_to_set X), ∅. split; [done|]. split; [done|]. split.
  - apply good_reads; [|by intros ??? ?%elem_of_empty]. intros k' Hk'%elem_of_list_to_set. by apply (lr_locked _ _ _ _ _ _ HX).
  - split; [split|].
    + split; cbn; [by rewrite app_nil_r|set_solver].
    + intros old HXo. destruct (select_owners _ _ _ _ _ _ Hi0 Hs Hw HX) as [[-> Ht]|(old' & -> & Ho)]; [done|].
      injection HXo as ->. split; cbn; [by rewrite app_nil_r|set_solver|set_solver|done].
    + destruct (select_owners _ _ _ _ _ _ Hi0 Hs Hw HX) as [[-> Ht]|(old & -> & Ho)]; [by left|right].
      exists old, (o_db w0). split; [done|]. split; [exact (now_in_tables w0)|done].
Qed.

(** A count under the advisory key is not exceeded while the key is held. *)
Lemma xwp_count {A} tx pk (k : Result Z string -> OperatorProg A) w F Q :
  mine tx F w -> stable F ->
  (forall w s, F w s -> key_of pk ∈ t_keys s /\ forall d, owned_count (view d (t_writes s)) pk = owned_count d pk) ->
  (forall w tx s, F w s -> F (after w tx s [] ∅ ∅) (advance w s [] ∅ ∅)) ->
  (forall n w2, later w w2 -> own_inv w2 -> mine tx (fun w s => F w s /\ (owned_count (o_db w) pk <= n)%Z) w2 ->
     (exists d, d ∈ tables w2 /\ owned_count d pk = n) -> xwp (Some tx) (k (Ok n)) w2 Q) ->
  (forall e w2, own_inv w2 -> own_busy w2 tx -> xwp (Some tx) (k (Err e)) w2 Q) ->
  xwp (Some tx) (Do (CountOwned tx pk) k) w Q.
Proof.
  intros Hm HF Hkey Hstep Hok Herr.
  apply (xwp_tx tx _ _ _ F (fun n w s => F w s /\ (owned_count (o_db w) pk <= n)%Z)
    (fun n w => exists d, d ∈ tables w /\ owned_count d pk = n)); [done|done| |done|done].
  intros w0 w2 r Hl Hi0 [Hf|(s & Hs & d & Hd & Hran & ->)]; [by left|right]. exists s. split; [done|]. intros Hw.
  destruct (Hkey _ _ Hw) as [Hk Hv]. rewrite Hv in Hran. exists (owned_count d pk), [], ∅, ∅. split; [done|]. split; [done|]. split.
  - apply good_reads; [by intros ? ?%elem_of_empty|by intros ??? ?%elem_of_empty].
  - split; [|exists d; split; [by eapply recent_in_tables|done]]. split; [by apply Hstep|].
    apply owned_count_mono. intros c. by apply (to_keyed _ _ (oi_tx _ Hi0 _ _ Hs)).
Qed.

Lemma upserted_role old now : rm_role (upserted old now) = "owner".
Proof. by destruct old. Qed.

(** The writes of a transfer: the new owner's row, then the old one's. *)
Definition promoted (c : CommunityId) (pk : string) (ws : list OpWrite) : Prop :=
  exists row, ws = [WroteRow c pk row] /\ rm_role row = "owner".

Definition handed (c : CommunityId) (pk old : string) (ws : list OpWrite) : Prop :=
  exists row row', ws = [WroteRow c pk row; WroteRow c old row'] /\ rm_role row = "owner" /\ rm_role row' <> "owner".

Notation moving c pk old P := (with_room pk (transferring c pk old P)).

Lemma stable_moving c pk old P : stable (moving c pk old P).
Proof. apply stable_room, stable_transferring. Qed.

(** The task goes on after a write. *)
Lemma moving_write w tx s c pk old ws rows (P P' : list OpWrite -> Prop) :
  moving c pk old P w s -> (forall ws0, P ws0 -> P' (ws0 ++ ws)) ->
  moving c pk old P' (after w tx s ws rows ∅) (advance w s ws rows ∅).
Proof.
  intros ([Hw Hk Hl Ho] & _ & Hc) HP. split; [|split; [set_solver|done]]. split; [by apply HP|set_solver|set_solver|done].
Qed.

Lemma xwp_promote {A} tx c pk old (k : Result unit string -> OperatorProg A) w Q :
  mine tx (moving c pk old (fun ws => ws = [])) w ->
  (forall w2, later w w2 -> own_inv w2 -> mine tx (moving c pk old (promoted c pk)) w2 -> xwp (Some tx) (k (Ok tt)) w2 Q) ->
  (forall e w2, own_inv w2 -> own_busy w2 tx -> xwp (Some tx) (k (Err e)) w2 Q) ->
  xwp (Some tx) (Do (UpsertOwner tx c pk) k) w Q.
Proof.
  intros Hm Hok Herr.
  apply (xwp_tx tx _ _ _ _ (fun _ => moving c pk old (promoted c pk)) (fun _ _ => True) _ Hm (stable_moving _ _ _ _));
    [|by intros []; auto|done].
  intros w0 w2 r Hl Hi0 [Hf|(s & Hs & Hfree & Hc & Hran & ->)]; [by left|right]. exists s. split; [done|]. intros Hw.
  pose proof (upserted_role (d_members (view (o_db w0) (t_writes s)) !! (c, pk)) (t_began s)) as Hr.
  set (row := upserted _ _) in *. exists tt, [WroteRow c pk row], {[(c, pk)]}, ∅. split; [done|]. split; [done|]. split.
  - apply good_write; [set_solver|by intros k' ->%elem_of_singleton| |done]. intros _. by apply Hw.
  - split; [|done]. eapply moving_write; [exact Hw|]. intros ws0 ->. by exists row.
Qed.

(** The one row to demote is the old owner's. *)
Lemma demoted_rows w tx s c pk old d X :
  own_inv w -> o_txs w !! tx = Some s -> promoted c pk (t_writes s) -> pk <> old ->
  (c, old) ∈ t_rows s -> owns (o_db w) c old -> locked_rows w tx s (other_owner_row c pk) d X -> X = [(c, old)].
Proof.
  intros Hi Hs (row & Hw & Hr) Hne Hin Ho [Hnd Hd HX Hall]. rewrite Hw in *. pose proof (oi_tx _ Hi _ _ Hs) as Hok.
  assert (forall e k, matches (other_owner_row c pk) (view e [WroteRow c pk row]) k <-> k.1 = c /\ k.2 <> pk /\ owns e c k.2) as Hm.
  { intros e [c' q]. cbn [view foldl apply_op fst snd]. unfold matches, other_owner_row, owner_row_of. cbn. split.
    - intros (r & Hlk & (-> & Hrole) & Hq). rewrite lookup_insert_ne in Hlk by congruence. split_and!; [done|done|].
      apply owns_Some. eauto.
    - intros (-> & Hq & (r & Hlk & Hrole)%owns_Some). exists r. by rewrite lookup_insert_ne by congruence. }
  assert (forall e, e ∈ recent w s -> owns e c old) as Hold.
  { intros e He. unfold owns. by rewrite (to_locked _ _ Hok e (c, old) He Hin). }
  assert (forall k, k ∈ X -> k = (c, old)) as HXk.
  { intros [c' q] Hk. destruct (HX _ Hk) as (_ & (E & _ & Hq)%Hm & _). cbn in *. subst. f_equal.
    by eapply (oi_sole _ Hi d (recent_in_tables _ _ _ Hd)), Hold. }
  assert ((c, old) ∈ X) as HXo.
  { destruct (Hall (c, old)) as [?|(d' & Hd' & Hn)]; [apply Hm; split_and!; [done|done|by apply Hold]|done|].
    destruct Hn. apply Hm. split_and!; [done|done|by apply Hold]. }
  destruct X as [|k1 [|k2 X]]; [by apply elem_of_nil in HXo|by rewrite (HXk k1) by left|].
  apply NoDup_cons in Hnd as [Hnin _]. destruct Hnin. rewrite (HXk k1), (HXk k2); [left|right; left|left].
Qed.

Lemma xwp_demote {A} tx c pk old role (k : Result unit string -> OperatorProg A) w Q :
  pk <> old -> role <> "owner" -> mine tx (moving c pk old (promoted c pk)) w ->
  (forall w2, later w w2 -> own_inv w2 -> mine tx (moving c pk old (handed c pk old)) w2 -> xwp (Some tx) (k (Ok tt)) w2 Q) ->
  (forall e w2, own_inv w2 -> own_busy w2 tx -> xwp (Some tx) (k (Err e)) w2 Q) ->
  xwp (Some tx) (Do (DemoteOthers tx role c pk) k) w Q.
Proof.
  intros Hne Hrole Hm Hok Herr.
  apply (xwp_tx tx _ _ _ _ (fun _ => moving c pk old (handed c pk old)) (fun _ _ => True) _ Hm (stable_moving _ _ _ _));
    [|by intros []; auto|done].
  intros w0 w2 r Hl Hi0 [Hf|(s & Hs & d & X & _ & HX & Hran & ->)]; [by left|right]. exists s. split; [done|].
  intros Hw. pose proof Hw as ([Hpr Hk Hin Ho] & _).
  pose proof (demoted_rows _ _ _ _ _ _ _ _ Hi0 Hs Hpr Hne Hin Ho HX) as ->.
  pose proof (lr_locked _ _ _ _ _ _ HX (c, old) ltac:(by left)) as (Hfree & _ & (row' & Hlk & _)).
  set (row2 := set_role role (t_began s) row').
  assert (demotions role (t_began s) (view (o_db w0) (t_writes s)) [(c, old)] = [WroteRow c old row2]) as ->.
  { unfold demotions. cbn [omap list_omap fst snd]. by rewrite Hlk. }
  exists tt, [WroteRow c old row2], (list_to_set [(c, old)]), ∅. split; [done|]. split; [done|]. split.
  - apply good_write; [set_solver|intros k' Hk'; assert (k' = (c, old)) as -> by set_solver; done|done|].
    apply owns_Some in Ho as (row0 & Hlk0 & _). apply view_community_mono. by apply (oi_known _ Hi0 (c, old) row0).
  - split; [|done]. eapply moving_write; [exact Hw|]. intros ws0 (row & -> & Hr). by exists row, row2.
Qed.

(** ** The statements of a transaction, as a whole *)

(** What the statements of [tx] leave. *)
Definition done_tx {A} (tx : Tx) (T : A -> OpWorld -> Prop) (h : option Tx) (r : Result A string) (w : OpWorld) : Prop :=
  h = Some tx /\ own_busy w tx /\ forall a, r = Ok a -> T a w.

Definition kept {A} (T : A -> OpWorld -> Prop) : Prop := forall a w w', later w w' -> T a w -> T a w'.

Lemma xwp_ret {A} tx (r : Result A string) w T :
  own_busy w tx -> kept T -> (forall a, r = Ok a -> T a w) -> xwp (Some tx) (Ret r) w (done_tx tx T).
Proof.
  intros Hb Hkept HT. apply owp_return. intros w1 Hr _. pose proof (own_rely_later _ _ _ Hr) as Hl.
  split; [done|]. split; [by eapply own_rely_busy|]. intros a Ha. eapply Hkept; [exact Hl|by apply HT].
Qed.

Lemma xwp_err {A} tx (e : string) w (T : A -> OpWorld -> Prop) :
  own_busy w tx -> kept T -> xwp (Some tx) (Ret (Err e)) w (done_tx tx T).
Proof. intros Hb Hkept. by apply xwp_ret. Qed.

Lemma xwp_rolled_back {A} tx (a : A) w T :
  own_busy w tx -> kept T -> T a w -> xwp (Some tx) (rolled_back tx a) w (done_tx tx T).
Proof.
  intros Hb Hkept HT. unfold rolled_back, bind_ok. cbn [bind Concurrent.call].
  apply xwp_rollback; [done|]. intros [[]|e] w2 Hl Hi2 Hb2; cbn [bind]; apply xwp_ret; try done.
  intros a' [= <-]. by eapply Hkept.
Qed.

Lemma xwp_with_tx {A} (st : Tx -> OperatorProg (Result A string)) w (T : A -> OpWorld -> Prop) :
  own_inv w -> kept T ->
  (forall tx w2, later w w2 -> own_inv w2 -> mine tx clean w2 -> xwp (Some tx) (st tx) w2 (done_tx tx T)) ->
  xwp None (with_tx st) w (fun h r w1 => busy_holds h w1 /\ forall a, r = Ok a -> T a w1).
Proof.
  intros Hi Hkept Hst. unfold with_tx, bind_ok. cbn [bind Concurrent.call].
  apply xwp_begin; [|by intros w2 e _ _; apply owp_return]. intros w2 tx Hl Hi2 Hm. cbn [bind].
  eapply xwp_seq; [by apply Hst|done|]. intros h [a|e] w3 Hi3 (-> & Hb & HT).
  - apply owp_return. intros w4 Hr _. split; [intros ? [= <-]; by eapply own_rely_busy|].
    intros a' [= <-]. eapply Hkept; [by eapply own_rely_later|by apply HT].
  - apply xwp_rollback; [done|]. intros r w4 Hl4 Hi4 Hb4. cbn [bind]. apply owp_return. intros w5 Hr _.
    split; [intros ? [= <-]; by eapply own_rely_busy|done].
Qed.

(** The commit of a transfer. *)
Lemma commit_transfer w tx s c pk old :
  own_inv w -> o_txs w !! tx = Some s -> pk <> old -> transfer_asked w c pk old ->
  moving c pk old (handed c pk old) w s ->
  good_tables (ended w tx) (view (o_db w) (t_writes s)) /\
  owns (o_db w) c old /\ owns (view (o_db w) (t_writes s)) c pk.
Proof.
  intros Hi Hs Hne Hask ([(row & row' & Hw & Hr & Hr') _ _ Ho] & _ & Hroom). rewrite Hw.
  pose proof (hands_transfer (o_db w) c pk old row row' (oi_sole _ Hi _ (now_in_tables w)) Ho Hne Hr Hr') as Hh.
  assert (owns (view (o_db w) [WroteRow c pk row; WroteRow c old row']) c pk) as Hpk by (apply Hh; by rewrite decide_True).
  split; [|done]. rewrite <-Hw in *. apply (good_hand w tx s c pk); [done..|].
  intros Hcount. by apply (passed_on _ _ _ _ pk old).
Qed.

Lemma committed_lookup w tx s :
  tables (committed w tx s) !! length (o_past w) = Some (o_db w) /\
  tables (committed w tx s) !! S (length (o_past w)) = Some (view (o_db w) (t_writes s)).
Proof.
  unfold committed, set_db, tables. cbn. split.
  - by rewrite lookup_app_l, list_lookup_middle by (rewrite ?length_app; cbn; lia).
  - rewrite list_lookup_middle; [done|]. rewrite length_app. cbn. lia.
Qed.

Lemma xwp_transfer_statements c pk expected tx w :
  own_inv w -> mine tx clean w -> transfer_asked w c pk expected ->
  xwp (Some tx) (transfer_statements state c pk expected tx) w (done_tx tx (fun result w1 => told w1 c pk expected result)).
Proof.
  intros Hi Hm Hask. set (T := fun result w1 => told w1 c pk expected result).
  assert (kept T) as Hkept by (intros a w1 w2 Hl; by apply told_later).
  assert (forall e w2, own_inv w2 -> own_busy w2 tx -> xwp (Some tx) (Ret (Err e)) w2 (done_tx tx T)) as Herr
    by (intros; by apply xwp_err).
  unfold transfer_statements, bind_ok. cbn [bind Concurrent.call].
  apply xwp_lock; [done| |exact Herr]. intros w1 Hl1 Hi1 Hm1. cbn [bind].
  apply xwp_select with pk; [done| |exact Herr]. intros X w2 Hl2 Hi2 Hm2 Hsel. cbn [bind].
  case_decide as HX.
  { apply xwp_rolled_back; [apply Hm2|done|]. destruct Hsel as [[_ Ht]|(old & d & -> & _)]; [apply Ht|done]. }
  destruct Hsel as [[-> _]|(old & d & -> & Hd & Ho)]; [done|]. cbn [existsb]. rewrite orb_false_r.
  destruct (String.eqb_spec expected old) as [<-|Hne]; cbn [negb];
    [|apply xwp_rolled_back; [apply Hm2|done|exists d, old; by split_and!; [| |intros ->]]].
  case_decide as Hsame.
  { injection Hsame as ->. apply xwp_rolled_back; [apply Hm2|done|]. split; [done|by exists d]. }
  assert (pk <> expected) as Hpk by congruence.
  apply xwp_count with (F := transferring c pk expected (fun ws => ws = [])); [|apply stable_transferring|..|exact Herr].
  { destruct Hm2 as [Hb Hs]. split; [done|]. intros s Hlk. by apply (Hs s Hlk). }
  { intros w0 s [Hw Hk _ _]. split; [done|]. intros e. by rewrite Hw. }
  { intros w0 tx0 s [Hw Hk Hin Hown]. split; cbn; [by rewrite app_nil_r|set_solver|set_solver|done]. }
  intros n w3 Hl3 Hi3 Hm3 (e & He & Hn). cbn [bind].
  destruct (Z.leb_spec limit n) as [Hle|Hlt].
  { apply xwp_rolled_back; [apply Hm3|done|]. exists e. split; [done|lia]. }
  assert (mine tx (moving c pk expected (fun ws => ws = [])) w3) as Hm3'.
  { destruct Hm3 as [Hb Hs]. split; [done|]. intros s Hlk. destruct (Hs s Hlk) as [Ht Hc].
    split; [done|]. split; [apply Ht|lia]. }
  apply xwp_promote with expected; [done| |exact Herr]. intros w4 Hl4 Hi4 Hm4. cbn [bind].
  apply xwp_demote with expected; [done|done|done| |exact Herr]. intros w5 Hl5 Hi5 Hm5. cbn [bind].
  assert (transfer_asked w5 c pk expected) as Hask5.
  { eapply transfer_asked_later, Hask. by repeat (etrans; [eassumption|]). }
  eapply xwp_commit; [exact Hm5|apply stable_moving| | |exact Herr].
  - intros w6 s Hl6 Hi6 Hs HF. eapply commit_transfer; [done|done|exact Hpk|by eapply transfer_asked_later|done].
  - intros w6 s Hl6 Hi6 HF Hi7 Hb7 Hl7. cbn [bind]. apply xwp_ret; [done|done|]. intros a [= <-].
    split; [done|]. split; [done|]. destruct HF as ([(row & row' & Hw & Hr & Hr') _ _ Hown] & _).
    destruct (committed_lookup w6 tx s) as [Hbefore Hafter].
    exists (length (o_past w6)), (o_db w6), (view (o_db w6) (t_writes s)). split_and!; [done..|]. rewrite Hw.
    apply (hands_transfer (o_db w6) c pk expected row row'); [|done..|by rewrite decide_True].
    apply (oi_sole _ Hi6), now_in_tables.
Qed.

(** ** Creations *)

(** What the result of a creation tells. *)
Definition created_told (w : OpWorld) (host owner : string) (result : CreateCommunityWithOwnerResult) : Prop :=
  match result with
  | Created record => exists d row, d ∈ tables w /\ d_communities d !! cr_id record = Some row /\
      co_host row = cr_host record /\ owned_by d (cr_id record) owner
  | HostExists => exists d c row, d ∈ tables w /\ d_communities d !! c = Some row /\ same_host host row
  | CreateLimitReached => exists d, d ∈ tables w /\ (limit <= owned_count d owner)%Z
  end.

Lemma created_told_kept host owner : kept (fun result w => created_told w host owner result).
Proof.
  intros result w w' Hl. destruct result; cbn [created_told].
  - intros (d & row & Hd & Hrest). exists d, row. split; [by eapply elem_of_later|done].
  - intros (d & c & row & Hd & Hrest). exists d, c, row. split; [by eapply elem_of_later|done].
  - intros (d & Hd & Hrest). exists d. split; [by eapply elem_of_later|done].
Qed.

(** The community a creation has written, or none. *)
Definition founding (host pk : string) (o : option CommunityRecord) (_ : OpWorld) (s : TxState) : Prop :=
  key_of pk ∈ t_keys s /\
  match o with
  | Some record => cr_host record = host /\ exists row, t_writes s = [WroteCommunity (cr_id record) row] /\ co_host row = host
  | None => t_writes s = []
  end.

Lemma stable_founding host pk o : stable (founding host pk o).
Proof. by intros w w' s. Qed.

Lemma xwp_insert_community {A} tx host pk (k : Result (option CommunityRecord) string -> OperatorProg A) w Q :
  mine tx (keyed pk) w ->
  (forall o w2, later w w2 -> own_inv w2 -> mine tx (founding host pk o) w2 ->
     match o with Some record => cr_host record = host | None => created_told w2 host pk HostExists end ->
     xwp (Some tx) (k (Ok o)) w2 Q) ->
  (forall e w2, own_inv w2 -> own_busy w2 tx -> xwp (Some tx) (k (Err e)) w2 Q) ->
  xwp (Some tx) (Do (InsertCommunity tx host) k) w Q.
Proof.
  intros Hm Hok Herr.
  apply (xwp_tx tx _ _ _ (keyed pk) (founding host pk)
    (fun o w => match o with Some record => cr_host record = host | None => created_told w host pk HostExists end));
    [done|by intros ???| |done|done].
  intros w0 w2 r Hl Hi0 [Hf|(s & Hs & Hcase)]; [by left|right]. exists s. split; [done|]. intros [Hw Hk]. rewrite Hw in Hcase.
  destruct Hcase as [(c & row & Hc & Hh & Hran & ->)|(c & Hfree & (Hnz & Hnone & Hfresh) & Hran & ->)].
  - exists None, [], ∅, ∅. split; [done|]. split; [done|]. split.
    { apply good_reads; [by intros ? ?%elem_of_empty|by intros ??? ?%elem_of_empty]. }
    split; [split; cbn; [set_solver|by rewrite app_nil_r]|]. exists (o_db w0), c, row.
    split; [exact (now_in_tables w0)|done].
  - set (row := new_community host (t_began s)).
    exists (Some {| cr_id := c; cr_host := host |}), [WroteCommunity c row], ∅, ∅. split; [done|]. split; [done|]. split.
    + split; [split|..].
      * by intros ??? ?%list_elem_of_singleton.
      * by intros ??? ?%list_elem_of_singleton.
      * by intros ??? ?%list_elem_of_singleton.
      * by intros c' row' [= -> ->]%list_elem_of_singleton.
      * by intros ? ?%elem_of_empty.
      * by intros ??? ?%elem_of_empty.
      * intros c' row' tx' s' row'' [= -> ->]%list_elem_of_singleton Hs'. by eapply Hfresh.
    + split; [|done]. split; [cbn; set_solver|]. split; [done|]. exists row. cbn. by rewrite Hw.
Qed.

Lemma xwp_select_owned {A} tx host pk (k : Result (option CommunityRecord) string -> OperatorProg A) w Q :
  mine tx (founding host pk None) w ->
  (forall o w2, later w w2 -> own_inv w2 -> mine tx (founding host pk None) w2 ->
     (forall record, o = Some record -> created_told w2 host pk (Created record)) -> xwp (Some tx) (k (Ok o)) w2 Q) ->
  (forall e w2, own_inv w2 -> own_busy w2 tx -> xwp (Some tx) (k (Err e)) w2 Q) ->
  xwp (Some tx) (Do (SelectOwnedByHost tx host pk) k) w Q.
Proof.
  intros Hm Hok Herr.
  apply (xwp_tx tx _ _ _ (founding host pk None) (fun _ => founding host pk None)
    (fun o w => forall record, o = Some record -> created_told w host pk (Created record))); [done|apply stable_founding| |done|done].
  intros w0 w2 r Hl Hi0 [Hf|(s & Hs & d & o & Hd & Hsome & _ & Hran & ->)]; [by left|right]. exists s. split; [done|].
  intros [Hk Hw]. rewrite Hw in Hsome. exists o, [], ∅, ∅. split; [done|]. split; [done|]. split.
  { apply good_reads; [by intros ? ?%elem_of_empty|by intros ??? ?%elem_of_empty]. }
  split; [split; cbn; [set_solver|by rewrite app_nil_r]|].
  intros record Ho. destruct (Hsome record Ho) as (c & row & (Hc & _ & Hown & _) & ->).
  exists d, row. split; [by eapply recent_in_tables|done].
Qed.

(** The writes of a creation. *)
Definition founded (host : string) (c : CommunityId) (pk : string) (_ : OpWorld) (s : TxState) : Prop :=
  key_of pk ∈ t_keys s /\ exists community row,
    t_writes s = [WroteCommunity c community; WroteRow c pk row] /\ co_host community = host /\ rm_role row = "owner".

Lemma xwp_insert_owner {A} tx host pk record (k : Result unit string -> OperatorProg A) w Q :
  mine tx (with_room pk (founding host pk (Some record))) w ->
  (forall w2, later w w2 -> own_inv w2 -> mine tx (with_room pk (founded host (cr_id record) pk)) w2 ->
     xwp (Some tx) (k (Ok tt)) w2 Q) ->
  (forall e w2, own_inv w2 -> own_busy w2 tx -> xwp (Some tx) (k (Err e)) w2 Q) ->
  xwp (Some tx) (Do (InsertOwner tx (cr_id record) pk) k) w Q.
Proof.
  intros Hm Hok Herr.
  apply (xwp_tx tx _ _ _ _ (fun _ => with_room pk (founded host (cr_id record) pk)) (fun _ _ => True) _ Hm
           (stable_room _ _ (stable_founding _ _ _))); [|by intros []; auto|done].
  intros w0 w2 r Hl Hi0 [Hf|(s & Hs & Hfree & _ & Hc & Hran & ->)]; [by left|right]. exists s. split; [done|].
  intros ([Hk (_ & row & Hw & Hh)] & _ & Hroom). set (row2 := new_member _ _ _).
  exists tt, [WroteRow (cr_id record) pk row2], {[(cr_id record, pk)]}, ∅. split; [done|]. split; [done|]. split.
  - apply good_write; [set_solver|by intros k' ->%elem_of_singleton|done|done].
  - split; [|done]. split; [|split; [set_solver|done]]. split; [cbn; set_solver|]. exists row, row2. cbn. by rewrite Hw.
Qed.

Lemma commit_creation w tx s host c pk :
  own_inv w -> o_txs w !! tx = Some s -> creation_asked w host pk -> with_room pk (founded host c pk) w s ->
  good_tables (ended w tx) (view (o_db w) (t_writes s)).
Proof.
  intros Hi Hs Hask ((_ & community & row & Hw & Hh & Hr) & _ & Hroom).
  assert (d_communities (o_db w) !! c = None) as Hnone.
  { apply (to_new _ _ (oi_tx _ Hi _ _ Hs) c community). rewrite Hw. by left. }
  pose proof (hands_created (o_db w) c pk row community (oi_known _ Hi) Hnone Hr) as Hhands. rewrite <-Hw in Hhands.
  apply (good_hand w tx s c pk); [done..|]. intros Hcount. apply (passed_created _ _ _ _ community pk); [done|..].
  - intros q (r & Hlk & _)%owns_Some. apply (oi_known _ Hi) in Hlk as [x Hx]. cbn in Hx. congruence.
  - rewrite Hw. cbn. by rewrite lookup_insert_eq.
  - apply Hhands. by rewrite decide_True.
  - done.
  - by rewrite Hh.
Qed.

Lemma xwp_create_statements host pk tx w :
  own_inv w -> mine tx clean w -> creation_asked w host pk ->
  xwp (Some tx) (create_statements state host pk tx) w (done_tx tx (fun result w1 => created_told w1 host pk result)).
Proof.
  intros Hi Hm Hask. set (T := fun result w1 => created_told w1 host pk result).
  pose proof (created_told_kept host pk : kept T) as Hkept.
  assert (forall e w2, own_inv w2 -> own_busy w2 tx -> xwp (Some tx) (Ret (Err e)) w2 (done_tx tx T)) as Herr
    by (intros; by apply xwp_err).
  unfold create_statements, bind_ok. cbn [bind Concurrent.call].
  apply xwp_lock; [done| |exact Herr]. intros w1 Hl1 Hi1 Hm1. cbn [bind].
  apply xwp_insert_community with pk; [done| |exact Herr]. intros [record|] w2 Hl2 Hi2 Hm2 Hhost; cbn [bind].
  - apply xwp_count with (F := founding host pk (Some record)); [exact Hm2|apply stable_founding|..|exact Herr].
    { intros w0 s [Hk (_ & row & Hw & _)]. split; [done|]. intros e. by rewrite Hw. }
    { intros w0 tx0 s [Hk (Hh & row & Hw & Hc)]. split; cbn; [set_solver|]. split; [done|]. exists row. by rewrite app_nil_r. }
    intros n w3 Hl3 Hi3 Hm3 (e & He & Hn). cbn [bind]. destruct (Z.leb_spec limit n) as [Hle|Hlt].
    { apply xwp_rolled_back; [apply Hm3|done|]. exists e. split; [done|lia]. }
    apply xwp_insert_owner with host; [|..|exact Herr].
    { destruct Hm3 as [Hb Hs]. split; [done|]. intros s Hlk. destruct (Hs s Hlk) as [Hf Hc].
      split; [done|]. split; [apply Hf|lia]. }
    intros w4 Hl4 Hi4 Hm4. cbn [bind].
    assert (creation_asked w4 host pk) as Hask4 by (eapply creation_asked_later, Hask; by repeat (etrans; [eassumption|])).
    eapply xwp_commit; [exact Hm4|apply stable_room; by intros ???| | |exact Herr].
    + intros w5 s Hl5 Hi5 Hs HF. by eapply commit_creation; [..|eapply creation_asked_later|].
    + intros w5 s Hl5 Hi5 HF Hi6 Hb6 Hl6. cbn [bind]. apply xwp_ret; [done|done|]. intros a [= <-].
      destruct HF as ((_ & community & row & Hw & Hh & Hr) & _).
      exists (view (o_db w5) (t_writes s)), community. split; [exact (now_in_tables (committed w5 tx s))|].
      rewrite Hw. cbn. rewrite lookup_insert_eq. split; [done|].
      split; [congruence|]. exists pk. split; [done|]. unfold owns. cbn. by rewrite lookup_insert_eq, <-Hr.
  - apply xwp_select_owned; [done| |exact Herr]. intros o w3 Hl3 Hi3 Hm3 Ho. cbn [bind].
    destruct o as [record|]; [|apply xwp_rolled_back; [apply Hm3|done|]].
    + eapply xwp_commit; [exact Hm3|apply stable_founding| | |exact Herr].
      * intros w4 s Hl4 Hi4 Hs [_ Hw]. apply good_commit; [done|done|..]; rewrite Hw.
        -- apply (oi_sole _ Hi4), now_in_tables.
        -- intros q. apply (oi_bound _ Hi4), now_in_tables.
        -- intros c. by apply passed_not.
      * intros w4 s Hl4 Hi4 HF Hi5 Hb5 Hl5. cbn [bind]. apply xwp_ret; [done|done|]. intros a [= <-].
        eapply Hkept; [exact Hl5|by apply Ho].
    + by eapply (Hkept HostExists).
Qed.

(** ** The requests *)

Notation only_plain := (only (@plain)).

Lemma xwp_plain {A R} h (c : OperatorCall R) (k : R -> OperatorProg A) w Q :
  plain c -> busy_holds h w ->
  (forall w1 w2 r, later w w2 -> answer R c w1 w2 r -> own_inv w2 -> busy_holds h w2 -> xwp h (k r) w2 Q) ->
  xwp h (Do c k) w Q.
Proof.
  intros Hc Hh Hk. apply (owp_quiet answer own_inv own_busy own_rely own_rely_busy (@plain) plain_ok); [done..|].
  intros w1 w2 r _ Hr Ha Hi Hh2. apply (Hk w1); [by eapply own_rely_later|done..].
Qed.

Lemma xwp_only {A} h (p : OperatorProg A) w Q :
  only_plain p -> busy_holds h w -> (forall a w1, later w w1 -> own_inv w1 -> Q h a w1) -> xwp h p w Q.
Proof.
  intros Hp Hh HQ. apply (owp_only answer own_inv own_busy own_rely own_rely_busy (@plain) plain_ok); [done..|].
  intros a w1 Hr. apply HQ. by eapply own_rely_later.
Qed.

(** An error that tells nothing of the database. *)
Definition refusal (e : OpError) : Prop := exists a, e = Refused a /\ status a ∈ [400; 401; 403; 500]%N.

Definition authorized (path body : string) (h : option Tx) (r : Result PublicKey OpError) (w : OpWorld) : Prop :=
  h = None /\ match r with Ok _ => operator_asked w path body | Err e => refusal e end.

Lemma xwp_refuse status what path body w :
  status ∈ [400; 401; 403; 500]%N -> xwp None (Ret (Err (op_error status what))) w (authorized path body).
Proof. intros Hs w1 _ _. split; [done|]. by exists (api_error status what). Qed.

(** The body of the request is what an operator signed. *)
Definition verified (origin path body : string) (h : option Tx) (r : Result (PublicKey * string) OpError) (w : OpWorld) : Prop :=
  h = None /\
  match r with
  | Ok (pk, _) => exists ev now t, pk = pubkey ev /\ (t <= o_time w)%Z /\ clock_reads skew t now /\
      nip98_valid now ev (operator_url origin path None) "POST" (Some body) /\ covers_body ev body
  | Err e => refusal e
  end.

Lemma xwp_verify headers origin path body w :
  xwp None (map_err_await Refused (verify_bridge_auth_with_options headers "POST" (operator_url origin path None) (Some body) true true))
    w (verified origin path body).
Proof.
  assert (forall what w2, xwp None (Ret (Err (Refused (api_error 401 what)))) w2 (verified origin path body)) as Herr.
  { intros what w2 w3 _ _. split; [done|]. exists (api_error 401 what). split; [done|]. cbn. set_solver. }
  unfold map_err_await, verify_bridge_auth_with_options. destruct (nostr_authorization headers) as [s|]; [|by apply Herr].
  destruct (auth_event_json s) as [json|e] eqn:Hj; cbn [result_bind bind map_err].
  2:{ unfold auth_event_json, ok_or in Hj. destruct (base64_decode s) as [b|]; cbn in Hj; [|injection Hj as <-; apply Herr].
      destruct (valid_utf8 b); [done|]. injection Hj as <-. apply Herr. }
  destruct (event_from_json json) as [ev|] eqn:He; cbn [map_err result_bind bind]; [|apply Herr].
  destruct (existsb _ (tags ev)) eqn:Hp; cbn [negb andb bind]; [|apply Herr].
  apply xwp_plain; [done|done|]. intros w1 w2 now Hl (w0 & Hs & -> & Hc) Hi2 Hh2. cbn [bind].
  destruct (verify_nip98_event now json (operator_url origin path None) "POST" (Some body)) as [pk|] eqn:Hv;
    cbn [map_err result_bind]; [|apply Herr].
  apply verify_nip98_event_exact in Hv as (ev' & He' & Hv & ->). rewrite He in He'. injection He' as <-.
  intros w3 Hr _. split; [done|]. exists ev, now, (o_time w0). apply own_rely_later in Hr.
  split; [done|]. split; [apply (later_time _ _ Hr)|]. split; [done|]. split; [done|by eapply payload_covers].
Qed.

Lemma xwp_authorize headers path body w :
  own_inv w -> xwp None (authorize_operator_request state headers "POST" path None (Some body)) w (authorized path body).
Proof.
  intros Hi. unfold authorize_operator_request. destruct (os_api_origin state) as [origin|] eqn:Ho.
  2:{ intros w1 _ _. split; [done|]. exists internal_error. split; [done|]. cbn. set_solver. }
  unfold bind_ok. rewrite bool_decide_true by done.
  eapply xwp_seq; [apply xwp_verify|done|].
  intros h [[pk idb]|e] w1 Hi1 [-> Hv]; [|by intros w2 _ _].
  destruct Hv as (ev & now & t & -> & Ht & Hc & Hv & Hcov). cbn [fst snd].
  assert (forall w2, later w1 w2 -> is_operator state (pubkey ev) = true -> operator_asked w2 path body) as Hask.
  { intros w2 Hl Hop. exists origin, ev, now, t. pose proof (later_time _ _ Hl). split_and!; [done|lia|done..]. }
  unfold check_operator_replay, try_mark_in_scope, bind_ok, map_err_await. cbn [bind Concurrent.call].
  assert (forall what w2, xwp None (Ret (Err (op_error 401 what))) w2 (authorized path body)) as Herr
    by (intros; apply xwp_refuse; set_solver).
  apply xwp_plain; [done|done|]. intros w1' w2 [[]|e] Hl2 _ Hi2 Hh2; cbn [bind map_err]; [|apply Herr].
  apply xwp_plain; [done|done|]. intros w2' w3 [[reply|]|e] Hl3 _ Hi3 Hh3; cbn [bind map_err]; [|apply Herr..].
  case_decide; cbn [bind]; [|apply Herr].
  destruct (is_operator state (pubkey ev)) eqn:Hop; [|apply xwp_refuse; set_solver].
  intros w4 Hr _. split; [done|]. apply Hask; [|done]. apply own_rely_later in Hr. etrans; [exact Hl2|by etrans].
Qed.

(** ** What an answer tells *)

Definition answered (w : OpWorld) (req : OpRequest) (r : Result OpResponse OpError) : Prop :=
  match req, r with
  | PostTransfer _ body, Ok (TransferAnswer id new status previous) => exists request c expected result,
      transfer_from_slice body = Ok request /\ transfer_target request = Ok (c, (new, expected)) /\
      transfer_status result = Ok (status, previous) /\ told w c new expected result
  | PostTransfer _ body, Err e => refusal e \/ exists request c new expected result,
      transfer_from_slice body = Ok request /\ transfer_target request = Ok (c, (new, expected)) /\
      transfer_status result = Err e /\ told w c new expected result
  | PostCommunities _ _, Ok (Provisioned p) => forall owner, pc_owner_pubkey p = Some owner -> exists c,
      pc_community_id p = uuid_to_string c /\ created_told w (pc_host p) owner (Created {| cr_id := c; cr_host := pc_host p |})
  | _, _ => True
  end.

Lemma answered_later w w' req r : later w w' -> answered w req r -> answered w' req r.
Proof.
  intros Hl. destruct req, r as [[]|]; cbn [answered]; try done.
  - intros Ha owner Ho. destruct (Ha owner Ho) as (c & Hc & Ht). exists c. split; [done|].
    exact (created_told_kept _ _ _ _ _ Hl Ht).
  - intros (request & c & expected & result & ? & ? & ? & ?). exists request, c, expected, result.
    split_and!; [done..|by eapply told_later].
  - intros [?|(request & c & new & expected & result & ? & ? & ? & ?)]; [by left|right].
    exists request, c, new, expected, result. split_and!; [done..|by eapply told_later].
Qed.

Lemma xwp_return {A} h (a : A) w (Q : option Tx -> A -> OpWorld -> Prop) :
  (forall w1, later w w1 -> Q h a w1) -> xwp h (Ret a) w Q.
Proof. intros HQ w1 Hr _. apply HQ. by eapply own_rely_later. Qed.

Lemma bad_ok {A} what (r : Result A string) :
  match bad what r with Ok a => r = Ok a | Err e => refusal e end.
Proof. destruct r as [a|e]; cbn; [done|]. eexists. split; [done|]. cbn. set_solver. Qed.

Lemma hex_field_ok name value :
  match hex_field name value with Ok hex => to_ascii_lowercase hex = hex | Err e => refusal e end.
Proof.
  unfold hex_field. destruct (validate_pubkey_hex value) as [hex|] eqn:Hv; [by eapply validate_pubkey_hex_lower|].
  eexists. split; [done|]. cbn. set_solver.
Qed.

Lemma transfer_target_ok request :
  match transfer_target request with
  | Ok (_, (new, expected)) => to_ascii_lowercase new = new /\ to_ascii_lowercase expected = expected
  | Err e => refusal e
  end.
Proof.
  unfold transfer_target.
  pose proof (bad_ok "invalid community_id: " (uuid_parse_str (tr_community_id request))) as Hc.
  destruct (bad _ _) as [c|e]; cbn [result_bind]; [|done].
  pose proof (hex_field_ok "new_owner_pubkey" (tr_new_owner_pubkey request)) as Hn.
  destruct (hex_field _ _) as [new|e]; cbn [result_bind]; [|done].
  pose proof (hex_field_ok "expected_owner_pubkey" (tr_expected_owner_pubkey request)) as He.
  by destruct (hex_field _ _) as [expected|e].
Qed.

Lemma xwp_transfer c new expected w :
  own_inv w -> to_ascii_lowercase new = new -> to_ascii_lowercase expected = expected -> transfer_asked w c new expected ->
  xwp None (transfer_ownership state c new expected) w
    (fun h r w1 => busy_holds h w1 /\ forall result, r = Ok result -> told w1 c new expected result).
Proof.
  intros Hi Hn He Hask. unfold transfer_ownership. rewrite Hn, He. apply xwp_with_tx; [done|..].
  - intros result w1 w2 Hl. by apply told_later.
  - intros tx w2 Hl Hi2 Hm. apply xwp_transfer_statements; [done|done|]. by eapply transfer_asked_later.
Qed.

Lemma xwp_map {A E F} (g : E -> F) h (p : OperatorProg (Result A E)) w Q Q' :
  own_inv w -> xwp h p w Q -> (forall h r w1 w2, own_rely h w1 w2 -> Q h r w1 -> Q' h (map_err g r) w2) ->
  xwp h (map_err_await g p) w Q'.
Proof.
  intros Hi Hp HQ. unfold map_err_await. eapply xwp_seq; [exact Hp|done|]. intros h' r w1 Hi1 Hr w2 Hw2 _. by eapply HQ.
Qed.

(** The transaction of a program is over when it returns: what follows makes plain calls. *)
Definition settled {A E} (T : A -> OpWorld -> Prop) (bad : E -> OpWorld -> Prop) (h : option Tx) (r : Result A E) (w : OpWorld) : Prop :=
  busy_holds h w /\ match r with Ok a => T a w | Err e => bad e w end.

Lemma busy_holds_rely h w w' : own_rely h w w' -> busy_holds h w -> busy_holds h w'.
Proof. apply (Concurrent.holds_rely own_busy own_rely own_rely_busy). Qed.

Lemma internal_refusal : refusal op_internal.
Proof. exists internal_error. split; [done|]. cbn. set_solver. Qed.

Lemma xwp_publish_transfer h c w :
  busy_holds h w -> xwp h (publish_transfer state c) w (fun _ r w1 => later w w1 /\ forall e, r = Err e -> refusal e).
Proof.
  intros Hh. unfold publish_transfer, publish, db, map_err_await, bind_ok.
  destruct (os_require_membership state); cbn [bind Concurrent.call]; [|by apply xwp_return].
  apply xwp_plain; [done|done|]. intros w1 w2 [[host|]|e] Hl _ Hi2 Hh2; cbn [bind map_err].
  - apply xwp_plain; [done|done|]. intros w3 w4 r Hl4 _ _ _. cbn [bind]. apply xwp_return. intros w5 Hl5.
    split; [|done]. etrans; [exact Hl|by etrans].
  - apply xwp_return. intros w3 Hl3. split; [by etrans|done].
  - apply xwp_return. intros w3 Hl3. split; [by etrans|]. intros e' [= <-]. apply internal_refusal.
Qed.

Lemma xwp_transfer_community headers body w :
  own_inv w -> xwp None (transfer_community state headers body) w (fun _ r w1 => answered w1 (PostTransfer headers body) r).
Proof.
  intros Hi. unfold transfer_community, bind_ok. eapply xwp_seq; [by apply xwp_authorize|done|].
  intros h [pk|e] w1 Hi1 [-> Ha]; [|apply xwp_return; by left].
  pose proof (bad_ok "invalid transfer-community JSON: " (transfer_from_slice body)) as Hb.
  destruct (bad _ _) as [request|e]; cbn [result_bind]; [|apply xwp_return; by left].
  pose proof (transfer_target_ok request) as Ht.
  destruct (transfer_target request) as [[c [new expected]]|e] eqn:Htarget; cbn [result_bind]; [|apply xwp_return; by left].
  destruct Ht as [Hn He]. assert (transfer_asked w1 c new expected) as Hask by by exists body, request.
  eapply xwp_seq; [|exact Hi1|].
  { unfold db. apply (xwp_map _ _ _ _ _ (settled (fun result w => told w c new expected result) (fun e _ => e = op_internal))
      Hi1 (xwp_transfer _ _ _ _ Hi1 Hn He Hask)).
    intros h r w2 w3 Hr [Hh Ht]. split; [by eapply busy_holds_rely|]. destruct r as [result|e]; cbn; [|done].
    eapply told_later; [by eapply own_rely_later|by apply Ht]. }
  intros h [result|e] w2 Hi2 [Hh Ht]; [|apply xwp_return; left; subst e; exists internal_error; split; [done|cbn; set_solver]].
  destruct (transfer_status result) as [[status previous]|e] eqn:Hs.
  - eapply xwp_seq; [by apply xwp_publish_transfer|done|]. intros h' [[]|e] w3 Hi3 [Hl He']; apply xwp_return; intros w4 Hl4.
    + exists request, c, expected, result. split_and!; [done..|]. eapply told_later, Ht. by etrans.
    + left. by apply He'.
  - apply xwp_return. intros w3 Hl. right. exists request, c, new, expected, result.
    split_and!; [done..|by eapply told_later].
Qed.

(** What the response of a provisioning tells: of an owner, that it owned the community. *)
Definition provision_told (w : OpWorld) (p : ProvisionCommunityResponse) : Prop :=
  forall owner, pc_owner_pubkey p = Some owner -> exists c,
    pc_community_id p = uuid_to_string c /\ created_told w (pc_host p) owner (Created {| cr_id := c; cr_host := pc_host p |}).

Lemma provision_told_later w w' p : later w w' -> provision_told w p -> provision_told w' p.
Proof.
  intros Hl Hp owner Ho. destruct (Hp owner Ho) as (c & Hc & Ht). exists c. split; [done|].
  exact (created_told_kept _ _ _ _ _ Hl Ht).
Qed.

Definition provisioned {E} (_ : option Tx) (r : Result ProvisionCommunityResponse E) (w : OpWorld) : Prop :=
  forall p, r = Ok p -> provision_told w p.

Lemma xwp_publish h c host w :
  busy_holds h w -> xwp h (publish_membership_snapshot_if_required state c host) w (fun _ _ => later w).
Proof. intros Hh. apply xwp_only; [unfold publish_membership_snapshot_if_required, publish; only_calls|done|done]. Qed.

Lemma xwp_create_only host initial_owner w :
  own_inv w ->
  (forall owner, initial_owner = Some owner -> to_ascii_lowercase owner = owner /\ creation_asked w host owner) ->
  xwp None (provision_create_only state host initial_owner) w provisioned.
Proof.
  intros Hi Hown. unfold provision_create_only. destruct initial_owner as [owner|]; [|by apply xwp_return].
  destruct (Hown owner eq_refl) as [Hlow Hask]. unfold bind_ok, create_community_with_owner. rewrite Hlow.
  set (T := fun result w1 => created_told w1 host owner result).
  eapply xwp_seq; [|exact Hi|].
  { apply (xwp_map _ _ _ _ _ (settled T (fun _ _ => True)) Hi
      (xwp_with_tx _ w T Hi (created_told_kept host owner)
         (fun tx w2 Hl Hi2 Hm => xwp_create_statements host owner tx w2 Hi2 Hm (creation_asked_later _ _ _ _ Hl Hask)))).
    intros h r w2 w3 Hr [Hh Ht]. split; [by eapply busy_holds_rely|]. destruct r as [result|e]; cbn; [|done].
    eapply (created_told_kept host owner); [by eapply own_rely_later|by apply Ht]. }
  intros h [result|e] w2 Hi2 [Hh Ht]; [|by apply xwp_return].
  destruct result as [record| |]; [|by apply xwp_return..].
  eapply xwp_seq; [by apply xwp_publish|done|]. intros h' u w3 Hi3 Hl. apply xwp_return. intros w4 Hl4 p [= <-] owner' [= <-].
  exists (cr_id record). split; [done|]. apply (created_told_kept host owner (Created record) w2 w4); [etrans; [exact Hl|exact Hl4]|exact Ht].
Qed.

Lemma xwp_execute_provision pubkey request body w :
  own_inv w -> operator_asked w "/operator/communities" body -> provision_from_slice body = Ok request ->
  (pr_create_only request = true \/ pr_initial_owner_pubkey request = None) ->
  xwp None (execute_provision state pubkey request) w provisioned.
Proof.
  intros Hi Hask Hreq Hmode. unfold execute_provision. destruct (is_operator state pubkey); cbn [negb]; [|by apply xwp_return].
  destruct (validate_host (pr_host request)) as [[]|e]; cbn [result_bind]; [|by apply xwp_return].
  destruct (initial_owner_of request) as [initial_owner|e] eqn:Ho; [|by apply xwp_return].
  destruct (pr_create_only request) eqn:Hc.
  - apply xwp_create_only; [done|]. intros owner ->. split; [|by exists body, request].
    unfold initial_owner_of in Ho. destruct (pr_initial_owner_pubkey request) as [value|]; [|done].
    destruct (validate_pubkey_hex value) as [hex|] eqn:Hv; [|done]. injection Ho as <-. by eapply validate_pubkey_hex_lower.
  - destruct Hmode as [?|Hnone]; [done|]. unfold initial_owner_of in Ho. rewrite Hnone in Ho. injection Ho as <-.
    unfold provision_legacy, bind_ok, map_err_await. cbn [bind Concurrent.call].
    apply xwp_plain; [done|done|]. intros w1 w2 [[record created]|e] _ _ _ _; cbn [bind map_err]; apply xwp_return; [|done].
    by intros w3 _ p [= <-] owner [=].
Qed.

Lemma xwp_provision_community headers body w :
  own_inv w -> ~ rotates (PostCommunities headers body) ->
  xwp None (provision_community state headers body) w (fun _ r w1 => answered w1 (PostCommunities headers body) r).
Proof.
  intros Hi Hrot. unfold provision_community, bind_ok. eapply xwp_seq; [by apply xwp_authorize|done|].
  intros h [pk|e] w1 Hi1 [-> Ha]; [|by apply xwp_return].
  pose proof (bad_ok "invalid provision-community JSON: " (provision_from_slice body)) as Hb.
  destruct (bad _ _) as [request|e]; [|by apply xwp_return].
  assert (pr_create_only request = true \/ pr_initial_owner_pubkey request = None) as Hmode.
  { destruct (pr_create_only request) eqn:Hc; [by left|right]. destruct (pr_initial_owner_pubkey request) eqn:Ho; [|done].
    destruct Hrot. exists request. by rewrite Hc, Ho. }
  eapply xwp_seq; [|exact Hi1|].
  { eapply (xwp_map provision_error _ _ _ _ provisioned); [done|by eapply xwp_execute_provision|].
    intros h r w2 w3 Hr Hp p Hpr. destruct r as [p'|e]; [|done]. injection Hpr as ->.
    eapply provision_told_later; [by eapply own_rely_later|by apply Hp]. }
  intros h [p|e] w2 Hi2 Hp; [|by apply xwp_return]. apply xwp_return. intros w3 Hl.
  exact (provision_told_later _ _ _ Hl (Hp p eq_refl)).
Qed.

(** The other requests make plain calls. *)
Lemma plain_authorize headers method path q body : only_plain (authorize_operator_request state headers method path q body).
Proof.
  unfold authorize_operator_request, check_operator_replay, try_mark_in_scope, verify_bridge_auth_with_options.
  only_calls.
Qed.

Lemma xwp_operate req w :
  own_inv w -> ~ rotates req -> xwp None (operate state req) w (fun _ r w1 => answered w1 req r).
Proof.
  intros Hi Hrot.
  destruct req as [headers body|headers body|headers body|headers body|headers q|headers q]; cbn [operate].
  - by apply xwp_provision_community.
  - apply xwp_only; [|done|by intros [[]|]]. unfold archive_community, db. only_calls. apply plain_authorize.
  - apply xwp_only; [|done|by intros [[]|]]. unfold unarchive_community, db. only_calls. apply plain_authorize.
  - by apply xwp_transfer_community.
  - apply xwp_only; [|done|by intros [[]|]]. unfold list_owned_communities, db. only_calls. apply plain_authorize.
  - apply xwp_only; [|done|by intros [[]|]]. unfold community_availability, db. only_calls. apply plain_authorize.
Qed.

Definition operated (_ : unit) (_ : option Tx) (x : OpRequest * Result OpResponse OpError) (w : OpWorld) : Prop :=
  answered w x.1 x.2.

Lemma xwp_serve t w : own_inv w -> xwp None (serve_operator state t) w (operated t).
Proof.
  intros Hi. unfold serve_operator. cbn [bind Concurrent.call]. apply xwp_plain; [done|done|].
  intros w1 w2 req _ (w0 & _ & -> & Hrot) Hi2 _. eapply xwp_seq; [apply xwp_operate; [done|by apply Hrot]|done|].
  intros h r w3 Hi3 Ha. apply xwp_return. intros w4 Hl. by eapply answered_later.
Qed.

Lemma start_inv time : rows_known db0 -> sole db0 -> own_inv (start_ownership time db0).
Proof.
  intros Hk Hs. split; cbn; try done.
  - by intros d ->%list_elem_of_singleton.
  - intros d pk ->%list_elem_of_singleton. lia.
Qed.

(** What an answer attests: a transfer that was made, an owner who was in place already, an
    owner other than the expected one, a transferee at the limit, a community created for its
    owner.  The other answers attest nothing. *)
Definition attested (w : OpWorld) (req : OpRequest) (r : Result OpResponse OpError) : Prop :=
  match req, r with
  | PostTransfer _ body, Ok (TransferAnswer _ new what previous) => exists request c expected,
      transfer_from_slice body = Ok request /\ transfer_target request = Ok (c, (new, expected)) /\
      (what = "transferred" /\ previous = Some expected /\ new <> expected /\
         (exists i d d', tables w !! i = Some d /\ tables w !! S i = Some d' /\ owns d c expected /\ owns d' c new) \/
       what = "already_owner" /\ previous = None /\ new = expected /\ exists d, d ∈ tables w /\ owns d c new)
  | PostTransfer _ body, Err e => e = OWNER_CONFLICT \/ e = TRANSFER_LIMIT -> exists request c new expected d,
      transfer_from_slice body = Ok request /\ transfer_target request = Ok (c, (new, expected)) /\ d ∈ tables w /\
      (e = OWNER_CONFLICT /\ (exists q, owns d c q /\ q <> expected) \/
       e = TRANSFER_LIMIT /\ (limit <= owned_count d new)%Z)
  | PostCommunities _ _, Ok (Provisioned p) => forall owner, pc_owner_pubkey p = Some owner -> exists c d row,
      pc_community_id p = uuid_to_string c /\ d ∈ tables w /\ d_communities d !! c = Some row /\
      co_host row = pc_host p /\ owned_by d c owner
  | _, _ => True
  end.

Lemma answered_attested w req r : answered w req r -> attested w req r.
Proof.
  destruct req as [? body| | |? body| |], r as [[p| | | |id new what previous|]|e]; cbn [answered attested]; try done.
  - intros Ha owner Ho. destruct (Ha owner Ho) as (c & Hc & d & row & Hrest). by exists c, d, row.
  - intros (request & c & expected & result & Hb & Ht & Hs & Hold). exists request, c, expected. do 2 (split; [done|]).
    destruct result; cbn in Hs, Hold; try done; injection Hs as <- <-; [left|right]; naive_solver.
  - intros Ha He.
    assert (~ refusal e) as Hno.
    { intros (a & -> & Hin). destruct He as [[= ->]|[= ->]]; cbn in Hin; set_solver. }
    destruct Ha as [?|(request & c & new & expected & result & Hb & Ht & Hs & Hold)]; [done|].
    exists request, c, new, expected.
    destruct result; cbn in Hs, Hold; try done; injection Hs as <-; [by destruct He| |].
    + destruct Hold as (d & q & Hd & Ho & Hq). exists d. split_and!; [done..|]. left. eauto.
    + destruct Hold as (d & Hd & Hl). exists d. split_and!; [done..|]. by right.
Qed.

End ownership.
