(* ===== verification/OwnershipRuns.v ===== *)
(** * Runs of ownership

    Concrete operations for [UrlApi], [AuthApi], [OperatorApi], [OperatorBodies] and [SqlText],
    and runs of the operators' interface: a community is created and another transferred; two
    transfers of one community meet; and a legacy request to set an owner meets a transfer.
    The theorem of [OwnershipProps] at a concrete input. *)

From S2P Require Import Prelude Text Nostr Concurrent Tenant HttpAuth RelayMembers MembershipWorld HttpAuthProps MembershipRuns Operator OwnershipWorld OwnershipProps.

(** ** The operations *)

#[local] Existing Instance members_nostr.

(** A URL is its authority. *)
#[local] Instance owner_url : UrlApi :=
  {| Url := string; url_parse s := rest ← strip_prefix s "http://"; strip_suffix rest "/"; url_host u := Some (Domain u);
     url_port _ := None; url_path _ := EmptyString; url_set_path u _ := u; url_host_str u := Some u;
     url_set_host u _ := u; url_to_string u := u |}.

(** The event of an operator, of key 9, for a path and a body. *)
Definition operator_event (s : string) : Result Event string :=
  match split_once " " s with
  | Some (path, body) =>
      Ok {| id := toy_digest 7 s : @EventId members_nostr; pubkey := 9%N; created_at := 1000%N; kind := 27235%N;
            tags := [["u"; "https://op.example" ++ path]; ["method"; "POST"]; ["payload"; body]]%string; content := "";
            sig := "signed" |}
  | None => Err "not an event"
  end.

#[local] Instance owner_auth : AuthApi :=
  {| event_from_json := operator_event; event_id_new _ _ _ _ _ := 0%N : @EventId members_nostr; verify_id _ := true;
     verify_signature ev := bool_decide (sig ev = "signed");
     event_id_to_bytes i := decimal i; event_id_from_byte_array s := default 0%N (parse_number s) : @EventId members_nostr;
     pubkey_from_hex _ := None; pubkey_to_hex := to_hex 64; sha256 s := s; hex_encode s := s; base64_decode := Some;
     to_lowercase := to_ascii_lowercase |}.

#[local] Instance owner_api : OperatorApi :=
  {| uuid_parse_str s := match parse_number s with Some u => Ok u | None => Err "not a number" end; debug_str s := s |}.

(** The bodies: the fields, with commas; a creation has a comma before it, a legacy request not. *)
#[local] Instance owner_bodies : OperatorBodies :=
  {| provision_from_slice s :=
       match split_on "," s with
       | [""; host; owner] => Ok {| pr_host := host; pr_initial_owner_pubkey := Some owner; pr_create_only := true |}
       | [host; owner] => Ok {| pr_host := host; pr_initial_owner_pubkey := Some owner; pr_create_only := false |}
       | _ => Err "fields"
       end%string;
     archive_from_slice _ := Err "fields";
     transfer_from_slice s :=
       match split_on "," s with
       | [c; new; expected] =>
           Ok {| tr_community_id := c; tr_new_owner_pubkey := new; tr_expected_owner_pubkey := expected |}
       | _ => Err "fields"
       end;
     list_query q := q; availability_query q := q |}.

#[local] Instance owner_sql : SqlText := {| sql_lower := to_ascii_lowercase |}.

Definition owner_state : OperatorState :=
  {| os_relay_url := "wss://relay.example"; os_api_origin := Some "https://op.example"; os_operator_pubkeys := [to_hex 64 9];
     os_require_membership := false; os_owner_limit := None |}.

(** ** The answers *)

Definition rotatesb (req : OpRequest) : bool :=
  match req with
  | PostCommunities _ body =>
      match provision_from_slice body with
      | Ok request => negb (pr_create_only request) && bool_decide (is_Some (pr_initial_owner_pubkey request))
      | Err _ => false
      end
  | _ => false
  end.

Lemma rotatesb_ok req : rotatesb req = false -> ~ rotates req.
Proof.
  destruct req as [headers body| | | | |]; try (by intros _ []). cbn [rotatesb rotates]. intros Hb (request & Hr & Hc & Ho).
  rewrite Hr, Hc, bool_decide_true in Hb by done. done.
Qed.

(** The open transactions but [tx] satisfy [P]. *)
Definition others (w : OpWorld) (tx : option Tx) (P : TxState -> bool) : bool :=
  forallb (fun x : Tx * TxState => bool_decide (tx = Some x.1) || P x.2) (map_to_list (o_txs w)).

Lemma others_ok w tx P tx' s : others w tx P = true -> o_txs w !! tx' = Some s -> tx <> Some tx' -> P s = true.
Proof.
  unfold others. rewrite forallb_forall. intros Hall Hs%elem_of_map_to_list%list_elem_of_In Hne.
  pose proof (Hall _ Hs) as Hx. cbn [fst snd] in Hx. by rewrite bool_decide_false in Hx by done.
Qed.

Definition freeb (w : OpWorld) (tx : option Tx) (k : CommunityId * string) : bool :=
  others w tx (fun s => bool_decide (k ∉ t_rows s)).

Lemma freeb_ok w tx k : freeb w tx k = true -> free w tx k.
Proof. intros Hf tx' s Hs Hne. pose proof (others_ok _ _ _ _ _ Hf Hs Hne) as Hx. by apply bool_decide_eq_true in Hx. Qed.

Definition host_is (host : string) (row : Community) : bool := String.eqb (to_ascii_lowercase host) (to_ascii_lowercase (co_host row)).

(** The community of a host. *)
Definition find_host (d : Db) (host : string) : option (CommunityId * Community) :=
  List.find (fun x : CommunityId * Community => host_is host x.2) (map_to_list (d_communities d)).

Lemma find_host_ok d host :
  match find_host d host with
  | Some (c, row) => d_communities d !! c = Some row /\ same_host host row
  | None => forall c row, d_communities d !! c = Some row -> ~ same_host host row
  end.
Proof.
  unfold find_host, same_host. destruct (List.find _ _) as [[c row]|] eqn:Hf.
  - apply List.find_some in Hf as [Hin Hh%String.eqb_eq]. split; [by apply elem_of_map_to_list, list_elem_of_In|done].
  - intros c row Hlk%elem_of_map_to_list%list_elem_of_In Hs. pose proof (List.find_none _ _ Hf _ Hlk) as Hn.
    unfold host_is in Hn. cbn [snd] in Hn. by apply String.eqb_neq in Hn.
Qed.

Definition no_community (p : CommunityId -> Community -> bool) (s : TxState) : bool :=
  forallb (fun u => match u with WroteCommunity c row => negb (p c row) | WroteRow _ _ _ => true end) (t_writes s).

Lemma no_community_ok p s c row : no_community p s = true -> WroteCommunity c row ∈ t_writes s -> p c row = false.
Proof.
  unfold no_community. rewrite forallb_forall. intros Hall Hin%list_elem_of_In. pose proof (Hall _ Hin) as Hx. cbn in Hx.
  by destruct (p c row).
Qed.

Definition host_freeb (w : OpWorld) (d : Db) (tx : option Tx) (host : string) : bool :=
  bool_decide (find_host d host = None) && others w tx (no_community (fun _ => host_is host)).

Lemma host_freeb_ok w d tx host : host_freeb w d tx host = true -> host_free w d tx host.
Proof.
  intros [Hf%bool_decide_eq_true Ho]%andb_true_iff. pose proof (find_host_ok d host) as Hfind. rewrite Hf in Hfind.
  split; [done|]. intros tx' s c row Hs Hne Hin Hh. pose proof (others_ok _ _ _ _ _ Ho Hs Hne) as Hn.
  pose proof (no_community_ok _ _ _ _ Hn Hin) as Hx. by apply String.eqb_neq in Hx.
Qed.

Definition fresh_idb (w : OpWorld) (c : CommunityId) : bool :=
  bool_decide (c <> 0%N) && bool_decide (d_communities (o_db w) !! c = None) &&
  others w None (no_community (fun c' _ => bool_decide (c' = c))).

Lemma fresh_idb_ok w c : fresh_idb w c = true -> fresh_id w c.
Proof.
  intros [[Hz%bool_decide_eq_true Hn%bool_decide_eq_true]%andb_true_iff Ho]%andb_true_iff. split; [done|]. split; [done|].
  intros tx s row Hs Hin. pose proof (others_ok _ _ _ _ _ Ho Hs ltac:(done)) as Hx.
  pose proof (no_community_ok _ _ _ _ Hx Hin) as Hc. cbn in Hc. by rewrite bool_decide_true in Hc.
Qed.

(** The rows a locking statement finds in its snapshot; it waits until all are free, and keeps
    those that still match. *)
Definition found_rows (p : CommunityId * string -> RelayMember -> bool) (d : Db) : list (CommunityId * string) :=
  (filter (fun kv : (CommunityId * string) * RelayMember => p kv.1 kv.2 = true) (map_to_list (d_members d))).*1.

Definition matchesb (p : CommunityId * string -> RelayMember -> bool) (d : Db) (k : CommunityId * string) : bool :=
  match d_members d !! k with Some row => p k row | None => false end.

Definition lockable (p : CommunityId * string -> RelayMember -> bool) (w : OpWorld) (tx : Tx) (s : TxState) (d : Db)
    : option (list (CommunityId * string)) :=
  let X := found_rows p (view d (t_writes s)) in
  if forallb (freeb w (Some tx)) X then Some (filter (fun k => matchesb p (view (o_db w) (t_writes s)) k = true) X) else None.

Lemma elem_of_found_rows p d k : k ∈ found_rows p d <-> exists row, d_members d !! k = Some row /\ p k row = true.
Proof.
  unfold found_rows. rewrite list_elem_of_fmap. split.
  - intros ([k' row] & -> & [Hp Hin]%list_elem_of_filter). apply elem_of_map_to_list in Hin. eauto.
  - intros (row & Hlk & Hp). exists (k, row). split; [done|]. apply list_elem_of_filter. split; [done|]. by apply elem_of_map_to_list.
Qed.

Lemma lockable_ok p P w tx s d X :
  (forall k row, p k row = true <-> P k row) -> d ∈ recent w s -> o_db w ∈ recent w s -> lockable p w tx s d = Some X ->
  locked_rows w tx s P d X.
Proof.
  intros HP Hd Hnow. unfold lockable. destruct (forallb _ _) eqn:Hf; [|done]. intros [= <-]. rewrite forallb_forall in Hf.
  assert (forall e k, matches P e k <-> matchesb p e k = true) as Hm.
  { intros e k. unfold matches, matchesb. destruct (d_members e !! k) as [row|].
    - rewrite HP. split; [by intros (? & [= <-] & ?)|eauto].
    - split; [by intros (? & ? & _)|done]. }
  assert (forall k, k ∈ found_rows p (view d (t_writes s)) <-> matches P (view d (t_writes s)) k) as Hfound.
  { intros k. rewrite elem_of_found_rows. unfold matches. by setoid_rewrite HP. }
  split; [|done|..].
  - apply NoDup_filter. eapply sublist_NoDup; [apply (NoDup_fst_map_to_list (d_members (view d (t_writes s))))|]. apply fmap_sublist, sublist_filter.
  - intros k [Hk Hin]%list_elem_of_filter. split; [by apply freeb_ok, Hf, list_elem_of_In|]. split; [by apply Hfound|by apply Hm].
  - intros k Hk%Hfound. destruct (matchesb p (view (o_db w) (t_writes s)) k) eqn:Hb.
    + left. by apply list_elem_of_filter.
    + right. exists (o_db w). split; [done|]. by rewrite Hm, Hb.
Qed.

(** The oldest tables a statement may still read. *)
Definition oldest (w : OpWorld) (s : TxState) : Db := default (o_db w) (head (recent w s)).

Lemma oldest_recent w s : o_db w ∈ recent w s -> oldest w s ∈ recent w s.
Proof. unfold oldest. destruct (recent w s) as [|d l]; cbn; [done|]. intros _. by left. Qed.

Definition owner_rowb (c : CommunityId) (k : CommunityId * string) (row : RelayMember) : bool :=
  bool_decide (k.1 = c) && bool_decide (rm_role row = "owner").

Definition other_ownerb (c : CommunityId) (pk : string) (k : CommunityId * string) (row : RelayMember) : bool :=
  owner_rowb c k row && bool_decide (k.2 <> pk).

(** A statement of an open transaction that reads, writes and locks: [f] gives its answer. *)
Definition toy_stmt {A} (w : OpWorld) (tx : Tx) (f : TxState -> option (OpWorld * A)) : option (OpWorld * Result A string) :=
  s ← o_txs w !! tx;
  if (t_seen s <=? length (o_past w))%nat then '(w', a) ← f s; Some (w', Ok a) else None.

(** Statements answer, from the oldest snapshot they may have, once they need not wait. *)
Definition owner_effect (req : OpRequest) (R : Type) (c : OperatorCall R) (w : OpWorld) : option (OpWorld * R) :=
  match c in OperatorCall R return option (OpWorld * R) with
  | OpRequestArrives => Some (w, req)
  | OpClock => if (0 <=? o_time w)%Z then Some (w, Z.to_N (o_time w / 1000)) else None
  | OpPoolGet => Some (w, Ok tt)
  | OpRedisSet key _ ttl =>
      match o_redis w !! key with
      | Some _ => Some (w, Ok None)
      | None => Some (set_clock (o_time w) (<[key := (o_time w + Z.of_N ttl * 1000)%Z]> (o_redis w)) w, Ok (Some "OK"))
      end
  | BeginTx => Some (set_txs (<[o_next_tx w := begun w]> (o_txs w)) (o_next_tx w + 1)%N w, Ok (o_next_tx w))
  | RollbackTx tx => Some (ended w tx, Ok tt)
  | CommitTx tx => s ← o_txs w !! tx; Some (committed w tx s, Ok tt)
  | AdvisoryXactLock tx key => toy_stmt w tx (fun s =>
      if others w (Some tx) (fun s' => bool_decide (key ∉ t_keys s')) then Some (after w tx s [] ∅ {[key]}, tt) else None)
  | SelectOwnersForUpdate tx c => toy_stmt w tx (fun s =>
      X ← lockable (owner_rowb c) w tx s (oldest w s); Some (after w tx s [] (list_to_set X) ∅, X.*2))
  | CountOwned tx pk => toy_stmt w tx (fun s =>
      Some (after w tx s [] ∅ ∅, owned_count (view (oldest w s) (t_writes s)) pk))
  | UpsertOwner tx c pk => toy_stmt w tx (fun s =>
      let now := view (o_db w) (t_writes s) in
      if freeb w (Some tx) (c, pk) && bool_decide (is_Some (d_communities now !! c)) then
        Some (after w tx s [WroteRow c pk (upserted (d_members now !! (c, pk)) (t_began s))] {[(c, pk)]} ∅, tt)
      else None)
  | DemoteOthers tx role c pk => toy_stmt w tx (fun s =>
      if bool_decide (role ∈ ["owner"; "admin"; "member"]) then
        X ← lockable (other_ownerb c pk) w tx s (oldest w s);
        Some (after w tx s (demotions role (t_began s) (view (o_db w) (t_writes s)) X) (list_to_set X) ∅, tt)
      else None)
  | InsertCommunity tx host => toy_stmt w tx (fun s =>
      let now := view (o_db w) (t_writes s) in
      match find_host now host with
      | Some _ => Some (after w tx s [] ∅ ∅, None)
      | None =>
          let c := (100 + N.of_nat (length (o_past w)))%N in
          if host_freeb w now (Some tx) host && fresh_idb w c then
            Some (after w tx s [WroteCommunity c (new_community host (t_began s))] ∅ ∅, Some {| cr_id := c; cr_host := host |})
          else None
      end)
  | InsertOwner tx c pk => toy_stmt w tx (fun s =>
      let now := view (o_db w) (t_writes s) in
      if freeb w (Some tx) (c, pk) && bool_decide (d_members now !! (c, pk) = None) && bool_decide (is_Some (d_communities now !! c)) then
        Some (after w tx s [WroteRow c pk (new_member "owner" None (t_began s))] {[(c, pk)]} ∅, tt)
      else None)
  | EnsureCommunity host =>
      match find_host (o_db w) host with
      | Some (c, row) => Some (w, Ok (record_of c row, false))
      | None => None
      end
  | _ => None
  end.

Section effect_ok.
Context (legacy : bool).

Notation effect := (operator_effect 0 legacy).

Lemma toy_stmt_ok {A} w w' tx (f : TxState -> option (OpWorld * A)) r (P : TxState -> Prop) :
  (forall s a, o_txs w !! tx = Some s -> o_db w ∈ recent w s -> f s = Some (w', a) -> ran a r -> P s) ->
  toy_stmt w tx f = Some (w', r) -> in_tx w w' r tx P.
Proof.
  intros HP. unfold toy_stmt. destruct (o_txs w !! tx) as [s|] eqn:Hs; [|done]. cbn [mbind option_bind].
  destruct (Nat.leb_spec (t_seen s) (length (o_past w))) as [Hseen|]; [|done]. pose proof (now_recent w s Hseen) as Hnow.
  destruct (f s) as [[w2 a]|] eqn:Hf; [|done]. cbn. intros [= -> <-].
  right. exists s. split; [done|]. apply (HP s a); [done|done|done|by left].
Qed.

Lemma owner_rowb_ok c k row : owner_rowb c k row = true <-> owner_row_of c k row.
Proof. unfold owner_rowb, owner_row_of. by rewrite andb_true_iff, !bool_decide_eq_true. Qed.

Lemma other_ownerb_ok c pk k row : other_ownerb c pk k row = true <-> other_owner_row c pk k row.
Proof. unfold other_ownerb, other_owner_row. by rewrite andb_true_iff, bool_decide_eq_true, owner_rowb_ok. Qed.

Lemma owner_effect_ok req R (c : OperatorCall R) w w' r :
  legacy = true \/ rotatesb req = false -> owner_effect req R c w = Some (w', r) -> effect R c w w' r.
Proof.
  intros Hreq. destruct c; cbn [owner_effect operator_effect]; intros E; try discriminate E.
  - injection E as <- <-. split; [done|]. intros ->. destruct Hreq; [done|by apply rotatesb_ok].
  - destruct (Z.leb_spec 0 (o_time w)); [|done]. injection E as <- <-. split; [done|]. exists (o_time w). split_and!; [lia|done|done].
  - by injection E as <- _.
  - right. destruct (o_redis w !! key) eqn:Hk; injection E as <- <-; [left; split_and!; [by eexists|done|by left]|].
    right. split_and!; [done|by left|done].
  - injection E as <- <-. right. split; [by left|done].
  - injection E as <- <-. right. split; [by left|done].
  - destruct (o_txs w !! tx) as [s|] eqn:Hs; [|done]. injection E as <- <-. right. exists s. split; [done|]. split; [by left|done].
  - revert E. apply toy_stmt_ok. intros s a Hs Hnow Hf Hran. destruct (others _ _ _) eqn:Ho; [|done]. injection Hf as <- <-.
    split; [|done]. intros tx' s' Hs' Hne. pose proof (others_ok _ _ _ _ _ Ho Hs' ltac:(congruence)) as Hx.
    by apply bool_decide_eq_true in Hx.
  - revert E. apply toy_stmt_ok. intros s a Hs Hnow Hf Hran. destruct (lockable _ _ _ _ _) as [X|] eqn:HX; [|done].
    injection Hf as <- <-. exists (oldest w s), X. split; [|done].
    eapply lockable_ok; [by apply owner_rowb_ok|by apply oldest_recent|done|done].
  - revert E. apply toy_stmt_ok. intros s a Hs Hnow [= <- <-] Hran. exists (oldest w s). split; [by apply oldest_recent|done].
  - revert E. apply toy_stmt_ok. intros s a Hs Hnow Hf Hran. destruct (_ && _) eqn:Hc; [|done]. injection Hf as <- <-.
    apply andb_true_iff in Hc as [Hc1 Hc2%bool_decide_eq_true]. split; [by apply freeb_ok|done].
  - revert E. apply toy_stmt_ok. intros s a Hs Hnow Hf Hran. case_bool_decide as Hrole; [|done].
    destruct (lockable _ _ _ _ _) as [X|] eqn:HX; [|done]. injection Hf as <- <-. exists (oldest w s), X. split; [done|].
    split; [|done]. eapply lockable_ok; [by apply other_ownerb_ok|by apply oldest_recent|done|done].
  - revert E. apply toy_stmt_ok. intros s a Hs Hnow Hf Hran. cbv zeta in *.
    pose proof (find_host_ok (view (o_db w) (t_writes s)) host) as Hfind.
    destruct (find_host _ host) as [[c row]|] eqn:Hh.
    + injection Hf as <- <-. left. exists c, row. split; [apply Hfind|]. split; [apply Hfind|done].
    + destruct (_ && _) eqn:Hc; [|done]. injection Hf as <- <-. apply andb_true_iff in Hc as [Hc1 Hc2]. right. eexists.
      split; [by apply host_freeb_ok|]. split; [by apply fresh_idb_ok|done].
  - revert E. apply toy_stmt_ok. intros s a Hs Hnow Hf Hran. cbv zeta in *. destruct (_ && _) eqn:Hc; [|done]. injection Hf as <- <-.
    apply andb_true_iff in Hc as [[Hc1 Hc2%bool_decide_eq_true]%andb_true_iff Hc3%bool_decide_eq_true].
    split; [by apply freeb_ok|done].
  - pose proof (find_host_ok (o_db w) host) as Hfind. destruct (find_host _ host) as [[c row]|]; [|done].
    injection E as <- <-. right. left. exists c, row. split; [apply Hfind|]. split; [apply Hfind|]. split; [by left|done].
Qed.
End effect_ok.

(** ** The runs *)

Notation Operated := (Thread (Call := OperatorCall) (A := fun _ : unit => (OpRequest * Result OpResponse OpError)%type)).
Notation OpState := (OpWorld * list Operated)%type.

Definition owner_of (n : N) : RelayMember :=
  {| rm_role := "owner"; rm_added_by := None; rm_created_at := Z.of_N n; rm_updated_at := 0 |}.

(** A deployment whose community 5 is owned by key 1. *)
Definition owner_db : Db :=
  {| d_members := {[ (5%N, to_hex 64 1) := owner_of 0 ]}; d_communities := {[ 5%N := new_community "acme.example" 0 ]} |}.

Definition owner_start : OpState := (start_ownership 1000000 owner_db, []).

(** Turns of the tasks, while a request arrives. *)
Fixpoint run_turns (x : OpState) (turns : list (OpRequest * list (Turn (T := unit)))) : option OpState :=
  match turns with
  | [] => Some x
  | (req, ts) :: turns => x ← run_schedule (serve_operator owner_state) (owner_effect req) ts x; run_turns x turns
  end.

Lemma run_turns_steps legacy turns x y :
  (legacy = true \/ forallb (fun t => negb (rotatesb t.1)) turns = true) -> run_turns x turns = Some y ->
  rtc (pool_step (operator_answer 0 legacy) (serve_operator owner_state)) x y.
Proof.
  revert x. induction turns as [|[req ts] turns IH]; intros x Hreq; cbn [run_turns]; [by intros [= ->]|].
  destruct (run_schedule _ _ ts x) as [z|] eqn:Hz; [|done]. cbn [mbind option_bind]. intros Hy.
  assert ((legacy = true \/ rotatesb req = false) /\ (legacy = true \/ forallb (fun t => negb (rotatesb t.1)) turns = true)) as [H1 H2].
  { destruct Hreq as [?|[Hr%negb_true_iff Ht]%andb_true_iff]; [by split; left|by split; right]. }
  etrans; [|by apply IH]. eapply run_schedule_steps; [|exact Hz].
  intros R c w w' r E. exists w. split; [apply rtc_refl|]. by eapply owner_effect_ok.
Qed.

Definition post (make : HeaderMap -> string -> OpRequest) (path body : string) : OpRequest :=
  make [("authorization", "Nostr " ++ path ++ " " ++ body)]%string body.

Definition transfer_request (c : N) (new expected : N) : OpRequest :=
  post PostTransfer "/operator/communities/transfer" (decimal c ++ "," ++ to_hex 64 new ++ "," ++ to_hex 64 expected)%string.

Definition create_request (host : string) (owner : N) : OpRequest :=
  post PostCommunities "/operator/communities" ("," ++ host ++ "," ++ to_hex 64 owner)%string.

Definition legacy_request (host : string) (owner : N) : OpRequest :=
  post PostCommunities "/operator/communities" (host ++ "," ++ to_hex 64 owner)%string.

Definition op_answered {A} (p : OperatorProg A) : option A := match p with Ret a => Some a | Do _ _ => None end.

Definition responses (x : OpState) : list (Result OpResponse OpError) := omap (fun th => snd <$> op_answered (th_rest th)) x.2.

Definition owners_now (x : OpState) (c : CommunityId) (keys : list N) : list N :=
  filter (fun k => owns (o_db x.1) c (to_hex 64 k)) keys.

Definition ended_in (turns : list (OpRequest * list (Turn (T := unit)))) : OpState := default owner_start (run_turns owner_start turns).

Definition one (i : nat) (req : OpRequest) : OpRequest * list (Turn (T := unit)) := (req, [Spawn tt; Run i 100]).

(** Key 2 gets a new community, and the one of key 1. *)
Definition owner_run : list (OpRequest * list (Turn (T := unit))) :=
  [one 0 (create_request "new.example" 2); one 1 (transfer_request 5 2 1)].

Example owner_run_responses :
  responses (ended_in owner_run) =
  [Ok (Provisioned {| pc_community_id := to_hex 32 100 ++ "----"; pc_host := "new.example"; pc_status := "created";
                      pc_owner_pubkey := Some (to_hex 64 2) |});
   Ok (TransferAnswer "5" (to_hex 64 2) "transferred" (Some (to_hex 64 1)))]%string.
Proof. vm_compute. reflexivity. Qed.

(** Two transfers of one community: the second waits for the owner's row, which is no longer an
    owner's when it gets it, and so tells that there is no owner. *)
Definition meeting_run : list (OpRequest * list (Turn (T := unit))) :=
  [(transfer_request 5 2 1, [Spawn tt; Run 0 7]); (transfer_request 5 3 1, [Spawn tt; Run 1 6; Run 0 100; Run 1 100])].

Example meeting_transfer_finds_no_owner :
  responses (ended_in meeting_run) =
    [Ok (TransferAnswer "5" (to_hex 64 2) "transferred" (Some (to_hex 64 1))); Err NO_OWNER] /\
  owners_now (ended_in meeting_run) 5%N [1; 2; 3]%N = [2]%N.
Proof. vm_compute. split; reflexivity. Qed.

(** A legacy request to set the owner meets a transfer: the community is left with two. *)
Definition legacy_run : list (OpRequest * list (Turn (T := unit))) :=
  [(transfer_request 5 2 1, [Spawn tt; Run 0 10]); (legacy_request "acme.example" 3, [Spawn tt; Run 1 7; Run 0 100; Run 1 100])].

Example legacy_request_leaves_two_owners :
  owners_now (ended_in legacy_run) 5%N [1; 2; 3]%N = [2; 3]%N /\
  rtc (pool_step (operator_answer 0 true) (serve_operator owner_state)) owner_start (ended_in legacy_run).
Proof.
  split; [vm_compute; reflexivity|]. unfold ended_in.
  destruct (run_turns owner_start legacy_run) as [x|] eqn:Hx; [|apply rtc_refl].
  apply (run_turns_steps true legacy_run); [by left|exact Hx].
Qed.

Lemma ended_in_steps turns :
  forallb (fun t => negb (rotatesb t.1)) turns = true ->
  rtc (pool_step (operator_answer 0 false) (serve_operator owner_state)) owner_start ((ended_in turns).1, (ended_in turns).2).
Proof.
  intros Hr. rewrite <-surjective_pairing. unfold ended_in. destruct (run_turns owner_start turns) as [x|] eqn:Hx; [|apply rtc_refl].
  apply (run_turns_steps false turns); [by right|exact Hx].
Qed.

Lemma owner_db_known : rows_known owner_db.
Proof. intros k row Hk. unfold owner_db in Hk. cbn [d_members] in Hk. apply lookup_singleton_Some in Hk as [<- _]. by eexists. Qed.

Lemma owner_db_sole : sole owner_db.
Proof.
  assert (forall c p, owns owner_db c p -> p = to_hex 64 1) as Hone.
  { intros c p (r & Hp & _)%owns_Some. unfold owner_db in Hp. cbn [d_members] in Hp. apply lookup_singleton_Some in Hp as [Hp _].
    by injection Hp as _ <-. }
  intros c p q ->%Hone ->%Hone. done.
Qed.

